(* ===== verification/_CoqProject ===== *)
-Q . S2P
Prelude.v
Status.v
Throw.v
SharedState.v
Futures.v
FutureProtocol.v
FutureSafety.v
FutureThen.v
Traits.v
FutureTypes.v
FutureChain.v
FutureCancel.v
FutureVoid.v
Unwinding.v
StatusOr.v
StatusOrUnwinding.v
Optional.v
OptionalUnwinding.v
GrpcError.v
BigEndian.v
CompletionQueue.v
RpcFutures.v
ReadStream.v
Policies.v
RetryLoop.v
CLibrary.v
Rfc3339.v
Iam.v
Environment.v
Streams.v
LogFormat.v
LogSink.v
TracingOptions.v
ConnectionOptions.v
BackgroundThreads.v
Pagination.v
Filesystem.v
Random.v
BuildInfo.v
TestingUtil.v
