(* ===== verification/Prelude.v ===== *)
(** * google-cloud-cpp-common: a verification library

    The library [src/google/cloud] is the part that the C++ clients of Google Cloud
    share: the error model ([Status], [StatusOr<T>], the throw delegates), futures with
    continuations, a completion queue that runs asynchronous gRPC calls, streams and
    timers, retry loops over it, and utilities (logging, timestamps, IAM policies,
    options, pagination).  The names of the definitions are those of the code; a name
    that clashes gets a suffix ([_new] for a constructor, [_print] for [operator<<]).

    ** The parts and their files (paths under src/google/cloud/)

    Common.
    - [Prelude]: outcomes of C++ code (a value, an exception, termination, undefined
      behaviour), machine integers, lemmas, hints and tactics that the other files share.
    - [Throw]: the exceptions and internal/throw_delegate.cc, terminate_handler.cc.  The
      class [Build] says whether the build has exceptions; [cxx A] is an outcome whose
      exceptions are [exn].
    - [CLibrary]: the parts of the C library the code calls: characters, sscanf,
      snprintf, strtoll, the civil calendar.

    Errors and values.
    - [Status] (status.h, status.cc), [GrpcError] (grpc_error_delegate.cc).
    - [StatusOr] (status_or.h) and [Optional] (optional.h): operations on the variables of
      a program, with the lifetime of the [T] in the union or aligned storage; refined to
      [Status + T] and to [option T].
    - [StatusOrUnwinding] and [OptionalUnwinding]: the same operations statement by
      statement, over the monad of [Unwinding] (a state and an outcome), when constructors
      and assignments of [T] or copies of a [Status] throw.
    - [BigEndian] (internal/big_endian.h).

    Futures.
    - [SharedState] (internal/future_impl.h): one shared state, each member function as
      its critical section and what is left to do after the mutex is released.
    - [Futures] (internal/future_base.h, future_generic.h, future_void.h,
      internal/future_then_impl.h, the continuations of internal/future_impl.h): the
      handles and [then()], run by any number of threads over a heap of shared states.
      Application code is a tree of calls to the API.
    - [FutureProtocol]: what shared states promise about continuations, without values.
    - [FutureSafety]: the machine of [Futures] implements [FutureProtocol]; the invariants
      carried over to all interleavings.
    - [FutureThen]: what the future returned by [then()] holds in every interleaving of
      [then()] with [set_value], [set_exception], the destructor of the promise, by an
      exploration of all schedules with symbolic values and functors.
    - [FutureTypes]: typing rules for programs over futures and the type soundness of the
      machine; [FutureChain], [FutureCancel]: chains of [then()] of any length, and
      [cancel()] at the end of one; [FutureVoid] (future_void.h, the specialization for
      [void] in internal/future_impl.h): the machine with the specializations.
    - [Traits] (internal/future_then_meta.h, invoke_result.h, conjunction.h, disjunction.h,
      utility.h, tuple.h, the traits of the asynchronous calls): what the compiler computes
      when it selects an overload of [then()], as functions on an inductive type of types.
      [Futures] takes the overload as an argument (requires_unwrap); [Traits] shows which
      one it is and that its body is well typed.

    Asynchronous operations.
    - [CompletionQueue] (internal/completion_queue_impl.h, .cc, completion_queue.h, .cc):
      the queue, over the class [Operations] that says what an operation does when it is
      notified; any number of threads, gRPC as the environment.  Starting an operation is a
      step of its thread, and so is each operation that a [Notify] starts in turn, so that
      nothing bounds them.  Its instance [requests] is unary RPCs, timers and [RunAsync],
      whose functors are code that makes requests, themselves included; there a functor
      runs when its timer is notified, and requests are made through a queue object that
      lives on.
    - [RpcFutures]: one machine for the queue and the shared states of the futures of its
      RPCs and timers, another instance of [Operations], with steps of the application
      that attach continuations, before or after the notification, cancel and get.
      [cancel()] is four steps: the test, the load of the flag, the callback, the store.
    - [ReadStream] (internal/async_read_stream_impl.h) and [RetryLoop]
      (internal/async_retry_unary_rpc.h): two more instances of [Operations], so that the
      theorems of the queue hold for them.  [RetryLoop] is written against the classes of
      [Policies] (internal/retry_policy.h, internal/backoff_policy.h, .cc).
    - [BackgroundThreads] (internal/background_threads_impl.h, .cc): the thread that runs
      a queue and its owner, over the machine of [CompletionQueue].

    Utilities.
    - [Rfc3339] (internal/parse_rfc3339.cc, internal/format_time_point.cc) over [CLibrary].
    - [Iam] (iam_binding.h, iam_bindings.h, .cc, iam_policy.h, .cc).
    - [Environment] (internal/getenv.cc, internal/setenv.cc,
      testing_util/scoped_environment.h, .cc).
    - [Streams]: text and string streams as the code uses them, and the flags of a stream
      (internal/ios_flags_saver.h).
    - [LogFormat] (log.cc, log.h): severities, records, and [operator<<] for records on the
      shared std::clog as the sequence of its insertions and changes of the fill
      character; it prints time points with [CLibrary].
    - [LogSink] (log.h, log.cc): the sink and its backends, the loggers and the GCP_LOG
      statement, run by any number of threads, one insertion of [LogFormat] at a time; it
      reads its first configuration from the [Environment].
    - [TracingOptions] (tracing_options.h, .cc) and [ConnectionOptions]
      (connection_options.h, .cc), whose defaults come from the [Environment].
    - [Pagination] (internal/pagination_range.h), [Filesystem] (internal/filesystem.h,
      .cc), [Random] (internal/random.h, .cc).
    - [BuildInfo] (version.h, version.cc, internal/compiler_info.cc,
      internal/port_platform.h): functions of the macros of the compiler.
    - [TestingUtil] (testing_util/): the assertions, the log backend and the counting type
      that the tests of the repository use.

    ** Threads

    [SharedState], [Futures], [CompletionQueue] and [LogSink] each have a step relation
    whose step is one critical section of a mutex, one access to an atomic, or a stretch
    of code that touches nothing another thread can reach; a configuration is the shared
    state with one control point or stack per thread, and a theorem about all reachable
    configurations is about all interleavings.  The library holds no
    two of its own locks at once, so this is the granularity at which its threads can
    interfere.

    ** What the theorems show

    - Futures: a continuation runs at most once, and exactly when the state it is
      attached to is satisfied; the machine refines the protocol (both also when moving a
      value throws); well typed programs
      reply with values of their types and have undefined behaviour only in [cancel()] on
      an invalid future; a satisfied state never changes, a second [set_value] throws
      [promise_already_satisfied], [get_future] works once; [then()] delivers the value or
      the exception of the functor, also of the future the functor returns, and chains of
      it compose; [cancel()] reaches the callback of the promise through a chain, once; a
      continuation attached before its promise is abandoned never runs, one attached after
      runs at once; in every schedule of a thread that satisfies a promise with one that
      calls [then()] and waits in [get()], both return, the second with the result; the type
      of
      [then()] is the one its documentation gives, for every functor that compiles;
      programs run with the specializations for [void] as with the templates.
    - [StatusOr] and [optional]: every program of constructors, assignments, accessors and
      destructors has the results of the specification, and neither leaks nor destroys an
      object twice; the latter also when operations of [T], or copies of a
      [Status], throw in the middle of others: the theorems say for each operation what the
      variables then hold.
    - Queue: no reachable step fails an assertion or looks up a tag that is not there; each
      operation that was started is notified once; each request is answered once, with
      CANCELLED after [Shutdown], where a request returns exactly when the requests of its
      functors come to an end; the future of an RPC or timer gets its value once, by
      [get()] or a continuation, also when the continuation makes more calls, and an idle
      queue leaves no promise unsatisfied; the destructor of the background threads returns only
      when the queue is drained and its operations were notified.
    - Streams: the calls to gRPC and to the application follow the protocol of an
      automaton, and the finish handler runs once, or the stream stands at a message whose
      handler has not satisfied its future or satisfied it with an exception.  Retry: the
      result is the first success, the failure at which the policy said stop, or the error
      of a cancelled timer, and a policy with a maximum of failures bounds the attempts and
      makes the loop end.  Backoff: the delays lie within the computed range.
    - Round trips: big-endian integers and timestamps, the latter for the time points that
      the hypotheses name; the parser against a grammar of timestamps with all offsets and
      years, including those that overflow.
    - The files without a theorem of their own in the list of properties ([GrpcError],
      [Environment], [Filesystem], [Random], [Streams], [BuildInfo], [TestingUtil]) state
      the behaviour of each operation as lemmas: the mapping of every code and mode, scopes
      that restore the environment, the order of version numbers, the balance of
      constructions and destructions, which outcomes each assertion accepts.
    - Logging: a record reaches the backends registered when it was copied, each once, in
      order, by ownership when there is one, unless a backend throws; each delivery to
      std::clog writes the texts of its line in order, and flushes from WARNING on, where
      lines that are written at the same time may be mixed; a disabled statement evaluates nothing.
    - Options, IAM, pagination: equality with reference definitions (the text split at its
      commas with a table of the boolean texts, sets of grants, the concatenation of the
      pages up to the first that is empty).

    Several lemmas record behaviour that the documentation of the code does not lead one
    to expect, among them: continuations are not run when a promise is abandoned
    ([FutureThen]); the callback of a promise may be called after the promise is gone
    ([FutureCancel]); times before the epoch and after 2262 are printed or read wrongly
    ([Rfc3339]); an empty page ends a pagination ([Pagination]); two threads can leave the
    fill character of std::clog changed ([LogSink]); a [RunAsync] functor that calls itself
    again never returns after [Shutdown()] ([CompletionQueue]); a cancelled timer may be
    called after it was destroyed ([RpcFutures]); an exceptional future of a read handler
    leaves its stream open ([ReadStream]); [std::stoll] throws out
    of [SetOptions] ([TracingOptions]); [then()] with a functor that returns a future of a
    future does not compile ([Traits]); flags set while an [IosFlagsSaver] is in scope stay
    set ([Streams]); the assertions on the counts in [CheckPredicateBecomesFalse] cannot
    fail ([TestingUtil]).

    ** Bounds and fuel

    Integers are [Z] with their width written out: 64 bits for time points (nanoseconds of
    the system clock), identifiers of backends and [std::size_t], 32 for [int]; signed
    overflow is an [Undefined] outcome.  Doubles are the IEEE binary64 numbers of the
    Standard Library's specification.  Where a definition takes fuel:
    - [CompletionQueue.SimulateCompletion], for tests only: the operations that [Notify]
      starts in turn; no theorem is about it.
    - [CLibrary.ndigits]: 19 digits hold a number of 64 bits.
    - [TracingOptions.SetOptions_loop]: the length of the text plus one, since each
      iteration passes a comma; [ConnectionOptions.insert_tokens] and
      [TestingUtil.Process_loop]: the length plus two, since each call of [getline] takes a
      character or ends the stream ([Streams.getline_tokens]).
    - [TestingUtil.Check_loop]: the time left divided by the time that an iteration sleeps.
    - [FutureThen.explore], [explore_through], [explore_tree] and [drain],
      [LogSink.run_alone], [Pagination.range_for],
      [Pagination.listing]: the theorems give a bound that suffices; running out is a value
      of its own, never a result.

    ** Not modelled

    - Reference counts of [shared_ptr] and [unique_ptr]: states and operations stay in
      their heaps.  Constructors of [T] that throw, except in [StatusOrUnwinding],
      [OptionalUnwinding], [SharedState] and [FutureSafety] (the theorems of [FutureThen],
      [FutureTypes], [FutureChain] and [FutureCancel] are about values that do not);
      allocations that fail, except for the copy of a [Status].  Arguments that alias the receiver, except in [StatusOr] and [Optional],
      which have a store of variables.
    - gRPC, the generators of the C++ library, [mktime], [stat] and the clock are arguments
      or environment steps; weak memory behaviour of the relaxed atomics is not modelled.
    - The Windows branches of the preprocessor; null alarms, which only tests use;
      cancelling a whole read stream, which only asks gRPC to end it early; handlers of a
      read stream that throw.
    - Types: implicit conversions, overload resolution between several viable functions and
      types that cannot be moved ([Traits] knows the types the library names and the ones
      that a shared state cannot store).
    - The strings that CMake substitutes into the build; the mocks of gRPC and the
      comparison of protos in testing_util, which belong to googletest and protobuf; the
      aliases of grpc_utils; [make_unique], which only allocates.

    ** What could be added

    Chains of [then()] on the futures of [RpcFutures], which need the handles of [Futures]
    over its heap; the lifetime of shared states, with their reference counts. *)

From stdpp Require Export base tactics decidable numbers list gmap strings relations.
From stdpp Require Export pretty.
From Stdlib Require Export ZArith Lia.

(** ** Outcomes of C++ code

    A C++ expression returns, throws, terminates the program (what
    [throw_delegate.cc] does in a build without exceptions) or has undefined
    behaviour, of which the model tracks the cases below. *)

Inductive fault :=
| NullDereference      (* [->] through an empty pointer or an empty function *)
| UninitializedRead    (* the value of a storage slot that holds no object *)
| DoubleConstruction   (* placement new over an object that is still alive *)
| DoubleDestruction    (* destroying a slot that holds no object *)
| SignedOverflow
| BadIndex
| BadArgument.         (* outside the domain of a library function *)

Inductive outcome (E A : Type) :=
| Ret (a : A)
| Throw (e : E)
| Terminated (msg : string)
| Undefined (f : fault).
Arguments Ret {E A} a.
Arguments Throw {E A} e.
Arguments Terminated {E A} msg.
Arguments Undefined {E A} f.

Global Instance outcome_ret {E} : MRet (outcome E) := @Ret E.
Global Instance outcome_bind {E} : MBind (outcome E) := λ A B f m,
  match m with
  | Ret a => f a
  | Throw e => Throw e
  | Terminated s => Terminated s
  | Undefined x => Undefined x
  end.
Global Instance outcome_fmap {E} : FMap (outcome E) := λ A B f m,
  m ≫= (λ a, Ret (f a)).

Global Instance fault_eq_dec : EqDecision fault.
Proof. solve_decision. Defined.

(** The outcome is not undefined behaviour. *)
Definition defined {E A} (m : outcome E A) : Prop := ∀ f, m ≠ Undefined f.

(** The outcome, when it is a value, satisfies [P]; it is never undefined. *)
Definition safely {E A} (P : A → Prop) (m : outcome E A) : Prop :=
  match m with Ret a => P a | Undefined _ => False | _ => True end.

Lemma safely_bind {E A B} (P : A → Prop) (Q : B → Prop) (m : outcome E A) f :
  safely P m → (∀ a, P a → safely Q (f a)) → safely Q (m ≫= f).
Proof. destruct m; simpl; eauto. Qed.

Lemma safely_mono {E A} (P Q : A → Prop) (m : outcome E A) :
  safely P m → (∀ a, P a → Q a) → safely Q m.
Proof. destruct m; simpl; eauto. Qed.

Lemma outcome_bind_assoc {E A B C} (m : outcome E A)
    (f : A → outcome E B) (g : B → outcome E C) :
  (m ≫= f) ≫= g = m ≫= (λ a, f a ≫= g).
Proof. by destruct m. Qed.

Lemma bind_Ret {E A B} (a : A) (f : A → outcome E B) : Ret a ≫= f = f a.
Proof. done. Qed.

(** ** Storage slots

    Uninitialised storage for one object ([std::aligned_storage], an anonymous
    union): [None] before construction and after destruction. *)
Module Slot.
Abbreviation slot T := (option T).
Definition empty {T} : slot T := None.

Section ops.
Context {E T : Type}.

(** Placement new. *)
Definition construct (v : T) (s : slot T) : outcome E (slot T) :=
  match s with None => Ret (Some v) | Some _ => Undefined DoubleConstruction end.
(** Reading (a reference to) the object. *)
Definition read (s : slot T) : outcome E T :=
  match s with Some v => Ret v | None => Undefined UninitializedRead end.
(** Assignment to the object. *)
Definition assign (v : T) (s : slot T) : outcome E (slot T) :=
  match s with Some _ => Ret (Some v) | None => Undefined UninitializedRead end.
(** The explicit destructor call. *)
Definition destroy (s : slot T) : outcome E (slot T) :=
  match s with Some _ => Ret None | None => Undefined DoubleDestruction end.
End ops.
End Slot.

(** ** Objects

    The variables of a program that hold objects of one type.  A variable exists from
    construction to destruction, and two names of an operation may be the same
    variable. *)
Module Objects.
Abbreviation vars T := (gmap nat T).

Section objects.
Context {E T : Type}.

Definition get (x : nat) (σ : vars T) : outcome E T :=
  match σ !! x with Some s => Ret s | None => Undefined NullDereference end.
Definition set (x : nat) (s : T) (σ : vars T) : vars T := <[x := s]> σ.
Definition new (x : nat) (s : T) (σ : vars T) : outcome E (vars T) :=
  match σ !! x with None => Ret (set x s σ) | Some _ => Undefined DoubleConstruction end.
Definition remove (x : nat) (σ : vars T) : vars T := delete x σ.

Lemma lookup_set_eq x s (σ : vars T) : set x s σ !! x = Some s.
Proof. apply lookup_insert_eq. Qed.

Lemma lookup_set_ne x y s (σ : vars T) : x ≠ y → set x s σ !! y = σ !! y.
Proof. apply lookup_insert_ne. Qed.
End objects.
End Objects.

(** ** Machine integers *)

(** [wrap w z]: conversion to an unsigned [w]-bit integer. *)
Definition wrap (w z : Z) : Z := (z `mod` 2 ^ w)%Z.

(** [sign w z]: the two's complement reading of a [w]-bit pattern. *)
Definition sign (w z : Z) : Z :=
  (if decide (z < 2 ^ (w - 1)) then z else z - 2 ^ w)%Z.

Definition in_unsigned (w z : Z) : Prop := (0 ≤ z < 2 ^ w)%Z.
Definition in_signed (w z : Z) : Prop := (- 2 ^ (w - 1) ≤ z < 2 ^ (w - 1))%Z.

Lemma wrap_bounds w z : (0 ≤ w)%Z → in_unsigned w (wrap w z).
Proof. intros ?. apply Z.mod_pos_bound. apply Z.pow_pos_nonneg; lia. Qed.

Lemma wrap_small w z : in_unsigned w z → wrap w z = z.
Proof. intros H. by apply Z.mod_small. Qed.

Lemma pow_succ_pred w : (0 < w)%Z → (2 ^ w = 2 * 2 ^ (w - 1))%Z.
Proof. intros. rewrite <- Z.pow_succ_r by lia. f_equal. lia. Qed.

Lemma sign_wrap w z : (0 < w)%Z → in_signed w z → sign w (wrap w z) = z.
Proof.
  unfold in_signed, sign, wrap. intros Hw Hz.
  pose proof (pow_succ_pred w Hw) as Hp.
  assert (0 < 2 ^ (w - 1))%Z by (apply Z.pow_pos_nonneg; lia).
  destruct (decide (0 ≤ z)%Z).
  - rewrite Z.mod_small by lia. rewrite decide_True; lia.
  - assert (z `mod` 2 ^ w = z + 2 ^ w)%Z as ->.
    { symmetry. apply (Z.mod_unique _ _ (-1)); lia. }
    rewrite decide_False; lia.
Qed.

Lemma sign_bounds w z : (0 < w)%Z → in_unsigned w z → in_signed w (sign w z).
Proof.
  unfold in_signed, in_unsigned, sign. intros Hw Hz.
  pose proof (pow_succ_pred w Hw). case_decide; lia.
Qed.

Lemma wrap_sign w z : (0 < w)%Z → in_unsigned w z → wrap w (sign w z) = z.
Proof.
  unfold in_unsigned, sign, wrap. intros Hw Hz. case_decide.
  - apply Z.mod_small; lia.
  - symmetry. apply (Z.mod_unique _ _ (-1)); lia.
Qed.

(** ** Lists *)

Lemma sum_list_with_insert {A} (f : A → nat) (l : list A) i x y :
  l !! i = Some x → sum_list_with f (<[i:=y]> l) + f x = sum_list_with f l + f y.
Proof.
  revert i. induction l as [|z l IH]; intros i Hl; [done|].
  destruct i as [|i]; simpl in *; [simplify_eq; lia|].
  specialize (IH _ Hl). lia.
Qed.

Lemma sum_list_with_lookup_le {A} (f : A → nat) (l : list A) i x :
  l !! i = Some x → f x ≤ sum_list_with f l.
Proof. intros Hl. apply sum_list_with_in. by eapply list_elem_of_lookup_2. Qed.

Lemma sum_list_with_zero {A} (f : A → nat) (l : list A) :
  (∀ x, x ∈ l → f x = 0) → sum_list_with f l = 0.
Proof.
  induction l as [|x l IH]; intros H; simpl; [done|].
  rewrite H, IH; [done|set_solver|set_solver].
Qed.

Lemma sum_list_with_ext {A} (f g : A → nat) (l : list A) :
  (∀ x, x ∈ l → f x = g x) → sum_list_with f l = sum_list_with g l.
Proof.
  induction l as [|x l IH]; intros H; simpl; [done|].
  rewrite H, IH; [done|set_solver|set_solver].
Qed.

Lemma list_omap_agree {A B} (f g : A → option B) (l : list A) :
  (∀ x, x ∈ l → f x = g x) → omap f l = omap g l.
Proof.
  induction l as [|x l IH]; intros Hl; [done|]. cbn.
  rewrite (Hl x) by set_solver. destruct (g x); [f_equal|]; apply IH; set_solver.
Qed.

(** Replacing an element, up to the order. *)
Lemma insert_permutation {A} (l : list A) i x y :
  l !! i = Some x → ∃ l', l ≡ₚ x :: l' ∧ <[i := y]> l ≡ₚ y :: l'.
Proof.
  intros Hi. exists (take i l ++ drop (S i) l). split.
  - rewrite Permutation_middle. by rewrite (take_drop_middle l i x).
  - rewrite insert_take_drop by (by eapply lookup_lt_Some). by rewrite Permutation_middle.
Qed.

(** The number of elements equal to [x]. *)
Definition count `{EqDecision A} (x : A) (l : list A) : nat :=
  sum_list_with (λ y, if decide (y = x) then 1 else 0) l.

Lemma count_app `{EqDecision A} (x : A) l1 l2 : count x (l1 ++ l2) = count x l1 + count x l2.
Proof. apply sum_list_with_app. Qed.

Lemma count_elem_of `{EqDecision A} (x : A) l : x ∈ l ↔ 0 < count x l.
Proof.
  unfold count. induction l as [|y l IH]; simpl; [split; [set_solver|lia]|].
  rewrite elem_of_cons. case_decide; [split; [lia|naive_solver]|].
  rewrite <- IH. naive_solver.
Qed.

(** ** Sums over the entries of a map *)
Section map_sum.
Context `{Countable K} {A : Type}.
Implicit Types (f g : K → A → nat) (m : gmap K A).

Definition map_sum f m : nat := map_fold (λ i x n, f i x + n) 0 m.

Lemma map_sum_empty f : map_sum f ∅ = 0.
Proof. apply map_fold_empty. Qed.

Lemma map_sum_insert f m i x :
  m !! i = None → map_sum f (<[i:=x]> m) = f i x + map_sum f m.
Proof.
  intros Hi. unfold map_sum.
  rewrite (map_fold_insert_L (λ i x n, f i x + n)); [done|intros; lia|done].
Qed.

Lemma map_sum_delete f m i x :
  m !! i = Some x → map_sum f m = f i x + map_sum f (delete i m).
Proof.
  intros Hi. rewrite <- (insert_delete_id m i x Hi) at 1.
  by rewrite map_sum_insert by apply lookup_delete_eq.
Qed.

Lemma map_sum_update f m i x y :
  m !! i = Some x → map_sum f (<[i:=y]> m) + f i x = map_sum f m + f i y.
Proof.
  intros Hi. rewrite (map_sum_delete f m i x Hi).
  rewrite <- insert_delete_eq, map_sum_insert by apply lookup_delete_eq. lia.
Qed.

Lemma map_sum_lookup_le f m i x : m !! i = Some x → f i x ≤ map_sum f m.
Proof. intros Hi. rewrite (map_sum_delete f m i x Hi). lia. Qed.

Lemma map_sum_ext f g m :
  (∀ i x, m !! i = Some x → f i x = g i x) → map_sum f m = map_sum g m.
Proof.
  induction m as [|i x m Hi IH] using map_ind; intros Hfg; [by rewrite !map_sum_empty|].
  rewrite !map_sum_insert by done. rewrite (Hfg i x) by apply lookup_insert_eq. f_equal.
  apply IH. intros j y Hj. apply Hfg. rewrite lookup_insert_ne; [done|]. congruence.
Qed.

Lemma map_sum_zero f m : (∀ i x, m !! i = Some x → f i x = 0) → map_sum f m = 0.
Proof.
  induction m as [|i x m Hi IH] using map_ind; intros Hf; [by rewrite map_sum_empty|].
  rewrite map_sum_insert by done. rewrite (Hf i x) by apply lookup_insert_eq. simpl.
  apply IH. intros j y Hj. apply Hf. rewrite lookup_insert_ne; [done|]. congruence.
Qed.
End map_sum.

(** ** Strings *)

Lemma string_cons_app x (s t : string) : String x s +:+ t = String x (s +:+ t).
Proof. done. Qed.

Lemma string_nil_app (s : string) : "" +:+ s = s.
Proof. done. Qed.

Lemma string_app_nil_r (s : string) : s +:+ "" = s.
Proof. induction s as [|a s IH]; [done|]. by rewrite string_cons_app, IH. Qed.

Lemma string_app_assoc (a b c : string) : (a +:+ b) +:+ c = a +:+ (b +:+ c).
Proof. induction a as [|x a IH]; [done|]. by rewrite !string_cons_app, IH. Qed.

(** ** Automation *)

Create HintDb cxx.
Create Rewrite HintDb cxx.
#[export] Hint Rewrite @outcome_bind_assoc : cxx.
#[export] Hint Resolve wrap_bounds sign_bounds : cxx.

(** Case analysis on the innermost scrutinee, then simplification. *)
Ltac cases := repeat (case_match; simplify_eq/=).

(** Boolean tests in the hypotheses become propositions. *)
Ltac bool_props := repeat match goal with
  | H : negb _ = false |- _ => apply negb_false_iff in H
  | H : negb _ = true |- _ => apply negb_true_iff in H
  | H : _ && _ = true |- _ => apply andb_true_iff in H; destruct H
  | H : _ || _ = false |- _ => apply orb_false_iff in H; destruct H
  | H : bool_decide _ = true |- _ => apply bool_decide_eq_true in H
  | H : bool_decide _ = false |- _ => apply bool_decide_eq_false in H
  | H : (_ <? _)%Z = true |- _ => apply Z.ltb_lt in H
  | H : (_ <? _)%Z = false |- _ => apply Z.ltb_ge in H
  | H : (_ <=? _)%Z = true |- _ => apply Z.leb_le in H
  | H : (_ <=? _)%Z = false |- _ => apply Z.leb_gt in H
  | H : (_ =? _)%Z = true |- _ => apply Z.eqb_eq in H
  | H : (_ =? _)%Z = false |- _ => apply Z.eqb_neq in H
  end.
