(* ===== verification/Status.v ===== *)
(** * Status codes and [Status] values (status.h, status.cc) *)

From S2P Require Import Prelude.

(** [enum class StatusCode].  The enumeration has an [int] underneath, so a cast
    can produce a value with no enumerator: [kUnnamed]. *)
Inductive StatusCode :=
| kOk | kCancelled | kUnknown | kInvalidArgument | kDeadlineExceeded | kNotFound
| kAlreadyExists | kPermissionDenied | kUnauthenticated | kResourceExhausted
| kFailedPrecondition | kAborted | kOutOfRange | kUnimplemented | kInternal
| kUnavailable | kDataLoss
| kUnnamed (v : Z).

Global Instance StatusCode_eq_dec : EqDecision StatusCode.
Proof. solve_decision. Defined.

(** [static_cast<int>(code)], with the values of the enumerators. *)
Definition StatusCode_to_int (code : StatusCode) : Z :=
  match code with
  | kOk => 0 | kCancelled => 1 | kUnknown => 2 | kInvalidArgument => 3
  | kDeadlineExceeded => 4 | kNotFound => 5 | kAlreadyExists => 6
  | kPermissionDenied => 7 | kUnauthenticated => 16 | kResourceExhausted => 8
  | kFailedPrecondition => 9 | kAborted => 10 | kOutOfRange => 11
  | kUnimplemented => 12 | kInternal => 13 | kUnavailable => 14 | kDataLoss => 15
  | kUnnamed v => v
  end.

(** The enumerators, in the order of the declaration. *)
Definition StatusCode_enumerators : list StatusCode :=
  [kOk; kCancelled; kUnknown; kInvalidArgument; kDeadlineExceeded; kNotFound;
   kAlreadyExists; kPermissionDenied; kUnauthenticated; kResourceExhausted;
   kFailedPrecondition; kAborted; kOutOfRange; kUnimplemented; kInternal;
   kUnavailable; kDataLoss].

(** [static_cast<StatusCode>(v)]. *)
Definition StatusCode_of_int (v : Z) : StatusCode :=
  match list_find (λ c, StatusCode_to_int c = v) StatusCode_enumerators with
  | Some (_, c) => c
  | None => kUnnamed v
  end.

(** A code in its canonical form: [kUnnamed] is only used for the values that no
    enumerator has. *)
Definition StatusCode_wf (code : StatusCode) : Prop :=
  match code with kUnnamed v => ¬ (0 ≤ v ≤ 16)%Z | _ => True end.

Definition StatusCodeToString (code : StatusCode) : string :=
  match code with
  | kOk => "OK"
  | kCancelled => "CANCELLED"
  | kUnknown => "UNKNOWN"
  | kInvalidArgument => "INVALID_ARGUMENT"
  | kDeadlineExceeded => "DEADLINE_EXCEEDED"
  | kNotFound => "NOT_FOUND"
  | kAlreadyExists => "ALREADY_EXISTS"
  | kPermissionDenied => "PERMISSION_DENIED"
  | kUnauthenticated => "UNAUTHENTICATED"
  | kResourceExhausted => "RESOURCE_EXHAUSTED"
  | kFailedPrecondition => "FAILED_PRECONDITION"
  | kAborted => "ABORTED"
  | kOutOfRange => "OUT_OF_RANGE"
  | kUnimplemented => "UNIMPLEMENTED"
  | kInternal => "INTERNAL"
  | kUnavailable => "UNAVAILABLE"
  | kDataLoss => "DATA_LOSS"
  | kUnnamed _ => "UNEXPECTED_STATUS_CODE=" +:+ pretty (StatusCode_to_int code)
  end.

(** [class Status]. *)
Record Status := mkStatus { code_ : StatusCode; message_ : string }.

Global Instance Status_eq_dec : EqDecision Status.
Proof. solve_decision. Defined.

(** The default constructor. *)
Definition Status_default : Status := mkStatus kOk "".

Definition Status_ok (s : Status) : bool := bool_decide (code_ s = kOk).

(** [operator<<(std::ostream&, Status const&)]: what it appends to the stream. *)
Definition Status_print (rhs : Status) : string :=
  message_ rhs +:+ " [" +:+ StatusCodeToString (code_ rhs) +:+ "]".

Definition Status_eqb (lhs rhs : Status) : bool :=
  bool_decide (code_ lhs = code_ rhs) && bool_decide (message_ lhs = message_ rhs).
Definition Status_neqb (lhs rhs : Status) : bool := negb (Status_eqb lhs rhs).

(** [std::move] of a [Status] (its implicit move constructor): the code is
    copied, the message is moved; [mv] is the unspecified content of a moved-from
    string. *)
Definition Status_moved (mv : string → string) (s : Status) : Status :=
  mkStatus (code_ s) (mv (message_ s)).

(** [RuntimeStatusError]: [what()] is the printed status. *)
Record RuntimeStatusError := mkRuntimeStatusError { what_ : string; status_ : Status }.
Definition StatusWhat (s : Status) : string := Status_print s.
Definition RuntimeStatusError_new (s : Status) : RuntimeStatusError :=
  mkRuntimeStatusError (StatusWhat s) s.

(** ** Lemmas *)

Lemma StatusCode_enumerators_inv c :
  c ∈ StatusCode_enumerators → StatusCode_wf c ∧ (0 ≤ StatusCode_to_int c ≤ 16)%Z.
Proof.
  unfold StatusCode_enumerators. rewrite !elem_of_cons, elem_of_nil.
  intros Hc. destruct_or! Hc; subst; simpl; (done || lia).
Qed.

Lemma StatusCode_enumerated v :
  (0 ≤ v ≤ 16)%Z → ∃ c, c ∈ StatusCode_enumerators ∧ StatusCode_to_int c = v.
Proof.
  intros Hv.
  assert (v = 0 ∨ v = 1 ∨ v = 2 ∨ v = 3 ∨ v = 4 ∨ v = 5 ∨ v = 6 ∨ v = 7 ∨ v = 8
    ∨ v = 9 ∨ v = 10 ∨ v = 11 ∨ v = 12 ∨ v = 13 ∨ v = 14 ∨ v = 15 ∨ v = 16)%Z as Hc by lia.
  destruct_or! Hc; subst;
    match goal with |- ∃ c, _ ∧ _ = ?v => exists (StatusCode_of_int v) end;
    (split; [|vm_compute; reflexivity]); apply (bool_decide_unpack _); vm_compute; done.
Qed.

Lemma StatusCode_of_to_int c :
  StatusCode_wf c → StatusCode_of_int (StatusCode_to_int c) = c.
Proof.
  destruct c as [| | | | | | | | | | | | | | | | |v]; try (intros _; vm_compute; reflexivity).
  intros Hv. unfold StatusCode_of_int.
  destruct (list_find _ _) as [[i c]|] eqn:Hf; [|done].
  apply list_find_Some in Hf as (Hi & Hc & _). exfalso. apply Hv.
  apply list_elem_of_lookup_2, StatusCode_enumerators_inv in Hi as [_ Hi].
  simpl in Hc. lia.
Qed.

Lemma StatusCode_to_of_int v : StatusCode_to_int (StatusCode_of_int v) = v.
Proof.
  unfold StatusCode_of_int. destruct (list_find _ _) as [[i c]|] eqn:Hf; [|done].
  by apply list_find_Some in Hf as (_ & Hc & _).
Qed.

Lemma StatusCode_of_int_wf v : StatusCode_wf (StatusCode_of_int v).
Proof.
  unfold StatusCode_of_int. destruct (list_find _ _) as [[i c]|] eqn:Hf.
  - apply list_find_Some in Hf as (Hi & Hc & _). apply list_elem_of_lookup_2 in Hi.
    by apply StatusCode_enumerators_inv in Hi as [? _].
  - simpl. intros Hv. apply list_find_None in Hf.
    apply StatusCode_enumerated in Hv as (c & Hc & <-).
    rewrite Forall_forall in Hf. by eapply Hf.
Qed.

Lemma Status_eqb_eq a b : Status_eqb a b = true ↔ a = b.
Proof.
  unfold Status_eqb. rewrite andb_true_iff, !bool_decide_eq_true.
  destruct a, b; simpl. naive_solver.
Qed.

Lemma Status_ok_true s : Status_ok s = true ↔ code_ s = kOk.
Proof. apply bool_decide_eq_true. Qed.

Lemma Status_ok_moved mv s : Status_ok (Status_moved mv s) = Status_ok s.
Proof. done. Qed.

#[export] Hint Rewrite Status_ok_moved : cxx.

(** ** Properties *)

(** Two codes (including values that were cast from an [int] with no
    enumerator) have the same text only if they are the same code, so the text in
    a log or an exception identifies the code. *)
Theorem StatusCodeToString_inj a b :
  StatusCode_wf a → StatusCode_wf b →
  StatusCodeToString a = StatusCodeToString b → a = b.
Proof.
  intros Ha Hb Heq. destruct a, b; try done.
  simpl in Heq. apply (inj (String.app _)) in Heq. by apply (inj pretty) in Heq as ->.
Qed.

Lemma StatusCodeToString_inj_witness :
  StatusCode_wf (kUnnamed 42) ∧ kUnnamed 42 = StatusCode_of_int 42.
Proof.
  split; [simpl; lia|].
  apply StatusCodeToString_inj; [simpl; lia|apply StatusCode_of_int_wf|vm_compute; reflexivity].
Defined.
