(* ===== verification/Throw.v ===== *)
(** * Errors: exceptions, the throw delegates and the terminate handler
      (internal/throw_delegate.cc, terminate_handler.cc, internal/future_impl.cc) *)

From S2P Require Import Prelude Status.

(** [std::future_errc]. *)
Inductive future_errc :=
| broken_promise | future_already_retrieved | promise_already_satisfied | no_state.

(** The exceptions the library throws, and the ones of the application. *)
Inductive exn :=
| std_invalid_argument (what : string)
| std_range_error (what : string)
| std_out_of_range (what : string)
| std_length_error (what : string)
| std_runtime_error (what : string)
| std_system_error (ec : Z) (what : string)
| std_logic_error (what : string)
| runtime_status_error (e : RuntimeStatusError)
| future_error (ec : future_errc)
| application_error (what : string).

Global Instance RuntimeStatusError_eq_dec : EqDecision RuntimeStatusError.
Proof. solve_decision. Defined.
Global Instance future_errc_eq_dec : EqDecision future_errc.
Proof. solve_decision. Defined.
Global Instance exn_eq_dec : EqDecision exn.
Proof. solve_decision. Defined.

(** [catch (std::future_error const&)] selects these. *)
Definition is_future_error (e : exn) : bool :=
  match e with future_error _ => true | _ => false end.

Abbreviation cxx A := (outcome exn A).

(** ** The terminate handler

    The handler is code of the application: [None] when it returns, [Some msg]
    when it ends the program after reporting [msg].  [TerminateFunction] holds the
    current one; each operation is a critical section of its mutex. *)
Definition TerminateHandler := string → option string.

(** The handler [GetTerminateHolder] installs first. *)
Definition default_terminate_handler : TerminateHandler :=
  λ msg, Some ("Aborting because exceptions are disabled: " +:+ msg).

Definition SetTerminateHandler (f held : TerminateHandler) :
    TerminateHandler * TerminateHandler := (held, f).
Definition GetTerminateHandler (held : TerminateHandler) : TerminateHandler := held.

(** [Terminate]: the handler should not return; when it does the program is
    aborted.  The result is what the program reports as it ends. *)
Definition Terminate (held : TerminateHandler) (msg : string) : string :=
  match GetTerminateHandler held msg with
  | Some report => report
  | None =>
      "Aborting because the installed terminate handler returned. Error details: "
      +:+ msg
  end.

(** How the library was built (internal/port_platform.h) and what it runs on: the
    terminate handler installed, and the texts of the error codes
    ([std::error_code::message()]). *)
Class Build := {
  have_exceptions : bool;
  terminate_handler : TerminateHandler;
  error_message : Z → string;
  future_errc_message : future_errc → string;
}.

(** ** The throw delegates *)
Section delegates.
Context `{Build} {A : Type}.

(** [ThrowException<Exception>(msg)]. *)
Definition ThrowException (e : string → exn) (msg : string) : cxx A :=
  if have_exceptions then Throw (e msg) else Terminated (Terminate terminate_handler msg).

(** [ThrowException<Exception>(ec, msg)]. *)
Definition ThrowExceptionCode (ec : Z) (msg : string) : cxx A :=
  if have_exceptions then Throw (std_system_error ec msg)
  else Terminated (Terminate terminate_handler (error_message ec +:+ ": " +:+ msg)).

Definition ThrowInvalidArgument : string → cxx A := ThrowException std_invalid_argument.
Definition ThrowRangeError : string → cxx A := ThrowException std_range_error.
Definition ThrowRuntimeError : string → cxx A := ThrowException std_runtime_error.
Definition ThrowSystemError : Z → string → cxx A := ThrowExceptionCode.
Definition ThrowLogicError : string → cxx A := ThrowException std_logic_error.
Definition ThrowStatus (s : Status) : cxx A :=
  if have_exceptions then Throw (runtime_status_error (RuntimeStatusError_new s))
  else Terminated (Terminate terminate_handler (Status_print s)).
Definition ThrowFutureError (ec : future_errc) (msg : string) : cxx A :=
  if have_exceptions then Throw (future_error ec)
  else Terminated (Terminate terminate_handler
    ("future_error[" +:+ future_errc_message ec +:+ "]: " +:+ msg)).
End delegates.

(** A build with exceptions, for the examples. *)
Definition example_build : Build := {|
  have_exceptions := true;
  terminate_handler := default_terminate_handler;
  error_message := λ _, "error";
  future_errc_message := λ _, "error";
|}.
