(* ===== verification/SharedState.v ===== *)
(** * The shared state of promises and futures (internal/future_impl.h)

    One object of class [future_shared_state<T>], with each member function as its
    critical section: what it does to the state while it holds [mu_], and what is
    left to do after it releases it.  [Futures.v] composes the critical sections of
    many threads. *)

From S2P Require Import Prelude Status Throw.
Import Slot.

(** [future_shared_state_base::state]. *)
Inductive state := not_ready | has_exception | has_value.

Global Instance state_eq_dec : EqDecision state.
Proof. solve_decision. Defined.

(** [std::future_status]. *)
Inductive future_status := status_ready | status_deferred | status_timeout.

(** [std::exception_ptr]: possibly null. *)
Definition exception_ptr := option exn.

(** The data members of [future_shared_state_base] and [future_shared_state<T>].
    [V] is the value type, [K] the type of continuation objects, [C] the type of
    cancellation callbacks; an empty [std::function] is [None]. *)
Record shared_state (V K C : Type) := mkState {
  retrieved_ : bool;
  current_state_ : state;
  exception_ : exception_ptr;
  continuation_ : option K;
  cancelled_ : bool;
  cancellation_callback_ : option C;
  buffer_ : slot V;
}.
Arguments mkState {V K C} _ _ _ _ _ _ _.
Arguments retrieved_ {V K C} _.
Arguments current_state_ {V K C} _.
Arguments exception_ {V K C} _.
Arguments continuation_ {V K C} _.
Arguments cancelled_ {V K C} _.
Arguments cancellation_callback_ {V K C} _.
Arguments buffer_ {V K C} _.

(** What remains to be done once the lock is released. *)
Inductive after_unlock (K : Type) :=
| Nothing
| NotifyAll          (* [cv_.notify_all()] *)
| RunContinuation.   (* [continuation_->execute()] *)
Arguments Nothing {K}.
Arguments NotifyAll {K}.
Arguments RunContinuation {K}.

Section shared_state.
Context `{Build} {V K C : Type}.
Implicit Types (s : shared_state V K C).

(** [future_shared_state_base(cancellation_callback)]. *)
Definition shared_state_new (cancellation_callback : option C) : shared_state V K C :=
  mkState false not_ready None None false cancellation_callback empty.

(** *** Queries *)

Definition is_ready_unlocked s : bool := bool_decide (current_state_ s ≠ not_ready).
Definition is_ready s : bool := is_ready_unlocked s.
Definition cancellable s : bool := negb (is_ready s) && negb (cancelled_ s).

(** [wait]: [None] while it blocks. *)
Definition wait s : option unit := if is_ready_unlocked s then Some () else None.

(** [wait_for] and [wait_until]: what they return when the wait ends, because the
    predicate became true or because the time expired, with the state in [s]. *)
Definition wait_result s : future_status :=
  if is_ready_unlocked s then status_ready
  else if continuation_ s is Some _ then status_deferred
  else status_timeout.
Definition wait_for s : future_status := wait_result s.
Definition wait_until (owns_lock : bool) s : future_status :=
  if negb owns_lock then status_timeout else wait_result s.

(** *** Satisfying the state *)

(** The protected [set_exception], called with the lock held. *)
Definition set_exception_locked (ex : exception_ptr) s : cxx (shared_state V K C) :=
  if is_ready_unlocked s
  then ThrowFutureError promise_already_satisfied "set_exception"
  else Ret (mkState (retrieved_ s) has_exception ex (continuation_ s) (cancelled_ s)
              (cancellation_callback_ s) (buffer_ s)).

(** [notify_now]: the continuation, if there is one, runs after the unlock and the
    waiting threads are not notified. *)
Definition notify_now s : after_unlock K :=
  if continuation_ s is Some _ then RunContinuation else NotifyAll.

Definition set_exception (ex : exception_ptr) s :
    cxx (shared_state V K C * after_unlock K) :=
  s' ← set_exception_locked ex s; Ret (s', notify_now s').

(** [set_value]: the value is move-constructed in the buffer. *)
Definition set_value (value : V) s : cxx (shared_state V K C * after_unlock K) :=
  if is_ready_unlocked s
  then ThrowFutureError promise_already_satisfied "set_value"
  else
    b ← construct value (buffer_ s);
    let s' := mkState (retrieved_ s) has_value (exception_ s) (continuation_ s)
                (cancelled_ s) (cancellation_callback_ s) b in
    Ret (s', notify_now s').

(** [abandon]: waiting threads are notified; the continuation is not run. *)
Definition abandon s : cxx (shared_state V K C * after_unlock K) :=
  if is_ready_unlocked s then Ret (s, Nothing)
  else
    let ex := if have_exceptions then Some (future_error broken_promise) else None in
    s' ← set_exception_locked ex s; Ret (s', NotifyAll).

(** *** Continuations and cancellation *)

Definition set_continuation (c : K) s : cxx (shared_state V K C * after_unlock K) :=
  match continuation_ s with
  | Some _ => ThrowFutureError future_already_retrieved "set_continuation"
  | None =>
      if is_ready_unlocked s then Ret (s, RunContinuation)
      else Ret (mkState (retrieved_ s) (current_state_ s) (exception_ s) (Some c)
                  (cancelled_ s) (cancellation_callback_ s) (buffer_ s), Nothing)
  end.

(** [release_cancellation_callback]: the callback is moved out. *)
Definition release_cancellation_callback s : option C * shared_state V K C :=
  (cancellation_callback_ s,
   mkState (retrieved_ s) (current_state_ s) (exception_ s) (continuation_ s)
     (cancelled_ s) None (buffer_ s)).

(** The store [cancelled_ = true] of [cancel]. *)
Definition set_cancelled s : shared_state V K C :=
  mkState (retrieved_ s) (current_state_ s) (exception_ s) (continuation_ s)
    true (cancellation_callback_ s) (buffer_ s).

(** [cancel] when no other thread interferes.  [run] is the effect of calling the
    callback: an exception of the callback leaves the state as it was.  An empty
    callback throws [std::bad_function_call]. *)
Definition cancel (run : C → cxx ()) s : cxx (shared_state V K C * bool) :=
  if negb (cancellable s) then Ret (s, false)
  else match cancellation_callback_ s with
       | None => Throw (application_error "bad_function_call")
       | Some cb => _ ← run cb; Ret (set_cancelled s, true)
       end.

(** [mark_retrieved]: [atomic_flag::test_and_set]. *)
Definition mark_retrieved (sh : option (shared_state V K C)) : cxx (shared_state V K C) :=
  match sh with
  | None => ThrowFutureError no_state "mark_retrieved"
  | Some s =>
      if retrieved_ s then ThrowFutureError future_already_retrieved "mark_retrieved"
      else Ret (mkState true (current_state_ s) (exception_ s) (continuation_ s)
                  (cancelled_ s) (cancellation_callback_ s) (buffer_ s))
  end.

(** *** Retrieving the value *)

(** [get]: [None] while it blocks.  The value is moved out of the buffer, which
    keeps a moved-from object ([mv]).  [std::rethrow_exception] of a null pointer
    is undefined. *)
Definition get (mv : V → V) s : option (cxx (shared_state V K C * V)) :=
  if negb (is_ready_unlocked s) then None
  else Some (
    if bool_decide (current_state_ s = has_exception) then
      if have_exceptions then
        match exception_ s with Some e => Throw e | None => Undefined NullDereference end
      else Terminated (Terminate terminate_handler
        "future<T>::get() had an exception but exceptions are disabled")
    else
      v ← read (buffer_ s);
      b ← assign (mv v) (buffer_ s);
      Ret (mkState (retrieved_ s) (current_state_ s) (exception_ s) (continuation_ s)
             (cancelled_ s) (cancellation_callback_ s) b, v)).

(** *** When the move constructor of the value throws [e]

    [set_value] has not changed [current_state_] yet; the lock is released. *)
Definition interrupted_set_value (e : exn) s : cxx (shared_state V K C * after_unlock K) :=
  if is_ready_unlocked s
  then ThrowFutureError promise_already_satisfied "set_value"
  else Throw e.

(** The result of [get] cannot be constructed: the buffer keeps what the constructor left of
    the value ([torn]). *)
Definition interrupted_get (e : exn) (torn : V → V) s : option (shared_state V K C * cxx V) :=
  match get torn s with
  | None => None
  | Some (Ret (s', _)) => Some (s', Throw e)
  | Some (Throw e') => Some (s, Throw e')
  | Some (Terminated msg) => Some (s, Terminated msg)
  | Some (Undefined x) => Some (s, Undefined x)
  end.

(** The destructor: a stored value is destroyed. *)
Definition shared_state_destroy s : cxx (slot V) :=
  if bool_decide (current_state_ s = has_value) then destroy (buffer_ s)
  else Ret (buffer_ s).
End shared_state.

(** ** The specialization for [void]

    [future_shared_state<void>] has the same base and no buffer: nothing below reads or
    changes the one of the record. *)
Section void.
Context `{Build} {V K C : Type}.
Implicit Types (s : shared_state V K C).

(** The private [set_value], called with the lock held. *)
Definition void_set_value_locked s : cxx (shared_state V K C) :=
  if is_ready_unlocked s
  then ThrowFutureError promise_already_satisfied "set_value"
  else Ret (mkState (retrieved_ s) has_value (exception_ s) (continuation_ s)
              (cancelled_ s) (cancellation_callback_ s) (buffer_ s)).

Definition void_set_value s : cxx (shared_state V K C * after_unlock K) :=
  s' ← void_set_value_locked s; Ret (s', notify_now s').

Definition void_get s : option (cxx (shared_state V K C * ())) :=
  if negb (is_ready_unlocked s) then None
  else Some (
    if bool_decide (current_state_ s = has_exception) then
      if have_exceptions then
        match exception_ s with Some e => Throw e | None => Undefined NullDereference end
      else Terminated (Terminate terminate_handler
        "future<void>::get() had an exception but exceptions are disabled")
    else Ret (s, ())).
End void.

(** The state of a [future<void>] that corresponds to a state at [unit]. *)
Definition erase {K C} (u : shared_state () K C) : shared_state Empty_set K C :=
  mkState (retrieved_ u) (current_state_ u) (exception_ u) (continuation_ u)
    (cancelled_ u) (cancellation_callback_ u) empty.
Definition erase_result {K C A} (m : cxx (shared_state () K C * A)) :
    cxx (shared_state Empty_set K C * A) :=
  p ← m; Ret (erase (fst p), snd p).

(** ** Histories

    Every member function is one critical section, so what several threads do to
    one shared state is a sequence of these operations, in some order. *)
Inductive op (V K C : Type) :=
| OpSetValue (v : V)
| OpSetException (ex : exception_ptr)
| OpAbandon
| OpSetContinuation (c : K)
| OpReleaseCallback
| OpSetCancelled
| OpMarkRetrieved
| OpGet
| OpInterruptedSetValue (e : exn)
| OpInterruptedGet (e : exn) (torn : V → V).
Arguments OpSetValue {V K C} v.
Arguments OpSetException {V K C} ex.
Arguments OpAbandon {V K C}.
Arguments OpSetContinuation {V K C} c.
Arguments OpReleaseCallback {V K C}.
Arguments OpSetCancelled {V K C}.
Arguments OpMarkRetrieved {V K C}.
Arguments OpGet {V K C}.
Arguments OpInterruptedSetValue {V K C} e.
Arguments OpInterruptedGet {V K C} e torn.

Section history.
Context `{Build} {V K C : Type} (mv : V → V).
Implicit Types (s : shared_state V K C) (o : op V K C).

Definition state_of {A} (m : cxx (shared_state V K C * A)) : cxx (shared_state V K C) :=
  p ← m; Ret (fst p).

(** What one operation does; [None]: it blocks. *)
Definition apply_op o s : option (cxx (shared_state V K C)) :=
  match o with
  | OpSetValue v => Some (state_of (set_value v s))
  | OpSetException ex => Some (state_of (set_exception ex s))
  | OpAbandon => Some (state_of (abandon s))
  | OpSetContinuation c => Some (state_of (set_continuation c s))
  | OpReleaseCallback => Some (Ret (snd (release_cancellation_callback s)))
  | OpSetCancelled => Some (Ret (set_cancelled s))
  | OpMarkRetrieved => Some (mark_retrieved (Some s))
  | OpGet => match get mv s with Some m => Some (state_of m) | None => None end
  | OpInterruptedSetValue e => Some (state_of (interrupted_set_value e s))
  | OpInterruptedGet _ _ => None
  end.

(** One operation of a history: an operation that throws leaves the state as it was, except
    for the value of a [get] that was interrupted; one that blocks is not part of the
    history. *)
Inductive history_step s : op V K C → cxx () → shared_state V K C → Prop :=
| history_ret o s' : apply_op o s = Some (Ret s') → history_step s o (Ret ()) s'
| history_throw o e : apply_op o s = Some (Throw e) → history_step s o (Throw e) s
| history_get e torn e' s' :
    interrupted_get e torn s = Some (s', Throw e') →
    history_step s (OpInterruptedGet e torn) (Throw e') s'.

(** A history with the outcome of each operation. *)
Inductive history : shared_state V K C → list (op V K C * cxx ()) → shared_state V K C → Prop :=
| history_nil s : history s [] s
| history_cons s o r s' h s'' :
    history_step s o r s' → history s' h s'' → history s ((o, r) :: h) s''.

(** The operations that satisfy the state ([abandon] does not count). *)
Definition is_setter o : bool :=
  match o with OpSetValue _ | OpSetException _ => true | _ => false end.
Definition successful_setter (x : op V K C * cxx ()) : nat :=
  match x with (o, Ret _) => if is_setter o then 1 else 0 | _ => 0 end.
Definition successful_retrieve (x : op V K C * cxx ()) : nat :=
  match x with (OpMarkRetrieved, Ret _) => 1 | _ => 0 end.
Definition successful_attach (x : op V K C * cxx ()) : nat :=
  match x with (OpSetContinuation _, Ret _) => 1 | _ => 0 end.
End history.

(** ** Lemmas *)

(** The buffer holds an object exactly when the state has a value. *)
Definition state_wf {V K C} (s : shared_state V K C) : Prop :=
  is_Some (buffer_ s) ↔ current_state_ s = has_value.

Section lemmas.
Context `{Build} {V K C : Type} (mv : V → V).
Implicit Types (s : shared_state V K C) (o : op V K C).

Lemma is_ready_false s : is_ready_unlocked s = false ↔ current_state_ s = not_ready.
Proof. unfold is_ready_unlocked. rewrite bool_decide_eq_false. split; [apply dec_stable|naive_solver]. Qed.

Lemma is_ready_true s : is_ready_unlocked s = true ↔ current_state_ s ≠ not_ready.
Proof. apply bool_decide_eq_true. Qed.

(** What stays the same, and what a new value of a field says of the step. *)
Record op_effect o s s' : Prop := {
  eff_wf : state_wf s → state_wf s';
  eff_ready : is_ready s → current_state_ s' = current_state_ s ∧ exception_ s' = exception_ s
                ∧ (is_Some (buffer_ s') ↔ is_Some (buffer_ s));
  eff_satisfy : is_ready s = false → is_ready s' → is_setter o ∨ o = OpAbandon;
  eff_setter : is_setter o → is_ready s = false ∧ is_ready s';
  eff_buffer : is_ready s → o ≠ OpGet → buffer_ s' = buffer_ s;
  eff_retrieved : retrieved_ s → retrieved_ s';
  eff_mark : o = OpMarkRetrieved → retrieved_ s = false ∧ retrieved_ s';
  eff_continuation : ∀ c, continuation_ s = Some c → continuation_ s' = Some c;
}.

Lemma apply_op_effect o s s' : apply_op mv o s = Some (Ret s') → op_effect o s s'.
Proof.
  destruct s as [r st xp kk cn cb bf].
  destruct o; simpl; unfold set_value, set_exception, set_exception_locked, abandon,
    set_continuation, mark_retrieved, get, state_of, interrupted_set_value, ThrowFutureError,
    is_ready_unlocked, read, assign, construct; simpl; intros Heq;
    repeat (case_match; simplify_eq/=).
  all: split; unfold state_wf, is_ready, is_ready_unlocked in *; simpl in *.
  all: repeat (case_bool_decide; simplify_eq/=).
  all: try naive_solver.
Qed.

(** What a [get] that throws may change. *)
Record torn_effect s s' : Prop := {
  torn_state : current_state_ s' = current_state_ s;
  torn_exception : exception_ s' = exception_ s;
  torn_retrieved : retrieved_ s' = retrieved_ s;
  torn_buffer : is_Some (buffer_ s') ↔ is_Some (buffer_ s);
}.

Lemma interrupted_get_effect e torn s s' r :
  interrupted_get e torn s = Some (s', r) → torn_effect s s'.
Proof.
  destruct s as [rt st xp kk cn cb [v|]]; unfold interrupted_get, get, read, assign; simpl;
    intros Heq; repeat (case_match; simplify_eq/=); by split.
Qed.

Lemma history_step_cases s o r s' :
  history_step mv s o r s' →
  (r = Ret () ∧ op_effect o s s') ∨
  (∃ e, r = Throw e ∧ torn_effect s s' ∧
    (s' = s ∨ ∃ e torn, o = OpInterruptedGet e torn)).
Proof.
  destruct 1 as [o s' Ho|o e Ho|e torn e' s' Hg]; [left; eauto using apply_op_effect|right..].
  - exists e. split_and!; [done|by split|by left].
  - exists e'. split_and!; [done|by eapply interrupted_get_effect|eauto].
Qed.

Lemma torn_ready s s' : torn_effect s s' → is_ready s' = is_ready s.
Proof. intros He. unfold is_ready, is_ready_unlocked. by rewrite (torn_state _ _ He). Qed.

Lemma history_wf s h s' : history mv s h s' → state_wf s → state_wf s'.
Proof.
  induction 1 as [|s o r s' h s'' Hs _ IH]; [done|]. intros Hwf. apply IH.
  apply history_step_cases in Hs as [[_ He]|(e & _ & He & _)]; [by apply (eff_wf _ _ _ He)|].
  unfold state_wf in *. by rewrite (torn_state _ _ He), (torn_buffer _ _ He).
Qed.

(** The operation takes the value out of the buffer. *)
Definition gets (o : op V K C) : bool :=
  match o with OpGet | OpInterruptedGet _ _ => true | _ => false end.

(** A satisfied state keeps its outcome. *)
Lemma history_stable s h s' :
  history mv s h s' → is_ready s →
  is_ready s' ∧ current_state_ s' = current_state_ s ∧ exception_ s' = exception_ s ∧
  (Forall (λ x, gets (fst x) = false) h → buffer_ s' = buffer_ s) ∧
  sum_list_with successful_setter h = 0.
Proof.
  induction 1 as [s|s o r s' h s'' Hs _ IH]; [done|]. intros Hr.
  apply history_step_cases in Hs as [[-> He]|(e & -> & He & Hsame)].
  - destruct (eff_ready _ _ _ He Hr) as (Hc & Hx & _).
    assert (is_ready s') as Hr'.
    { unfold is_ready, is_ready_unlocked in *. by rewrite Hc. }
    destruct (IH Hr') as (? & ? & ? & Hb & Hsum). split_and!; [done|congruence..| |].
    + intros [Hg ?]%Forall_cons. rewrite Hb by done. apply (eff_buffer _ _ _ He); [done|].
      simpl in Hg. by intros ->.
    + simpl. rewrite Hsum. destruct (is_setter o) eqn:Ho; [|done].
      destruct (eff_setter _ _ _ He) as [Hf _]; [by rewrite Ho|].
      rewrite Hf in Hr. done.
  - destruct IH as (? & Hc & Hx & Hb & ?); [by rewrite (torn_ready _ _ He)|].
    rewrite (torn_state _ _ He) in Hc. rewrite (torn_exception _ _ He) in Hx. split_and!; try done.
    intros [Hg ?]%Forall_cons. simpl in Hg. destruct Hsame as [->|(? & ? & ->)]; [by apply Hb|done].
Qed.

Lemma history_retrieved s h s' :
  history mv s h s' →
  (retrieved_ s → sum_list_with successful_retrieve h = 0) ∧
  sum_list_with successful_retrieve h ≤ 1.
Proof.
  induction 1 as [s|s o r s' h s'' Hs _ [IH0 IH1]]; [simpl; lia|].
  apply history_step_cases in Hs as [[-> He]|(e & -> & He & _)].
  - assert (o = OpMarkRetrieved ∨ successful_retrieve (o, Ret ()) = 0) as [->|H0].
    { destruct o; auto. }
    + destruct (eff_mark _ _ _ He eq_refl) as [Hf Ht]. simpl. rewrite IH0 by done.
      rewrite Hf. split; [done|lia].
    + simpl in *. rewrite H0. split; [|done]. intros Hr. apply IH0, (eff_retrieved _ _ _ He Hr).
  - simpl. rewrite (torn_retrieved _ _ He) in IH0. by destruct o.
Qed.

Lemma history_setters s h s' :
  history mv s h s' → sum_list_with successful_setter h ≤ 1.
Proof.
  induction 1 as [s|s o r s' h s'' Hs Hh IH]; [simpl; lia|].
  apply history_step_cases in Hs as [[-> He]|(e & -> & He & _)]; [|by destruct o].
  simpl. destruct (is_setter o) eqn:Ho; [|done].
  destruct (eff_setter _ _ _ He) as [_ Hr]; [by rewrite Ho|].
  destruct (history_stable _ _ _ Hh Hr) as (_ & _ & _ & _ & ->). lia.
Qed.

Lemma history_app s1 h1 s2 h2 s3 :
  history mv s1 h1 s2 → history mv s2 h2 s3 → history mv s1 (h1 ++ h2) s3.
Proof. induction 1; simpl; [done|]. intros. econstructor; eauto. Qed.
End lemmas.

(** ** Properties *)
Section properties.
Context `{Build} {V K C : Type} (mv : V → V).
Implicit Types (s : shared_state V K C).

(** C14: in every history of a shared state, i.e. in every interleaving of the
    member functions called by any number of threads, at most one [set_value] or
    [set_exception] succeeds, at most one [get_future()] succeeds, and the buffer
    holds an object exactly when the state is [has_value], also when the move constructor
    of the value throws in [set_value] or [get]. *)
Theorem shared_state_once cb h s :
  history mv (shared_state_new cb) h s →
  sum_list_with successful_setter h ≤ 1 ∧
  sum_list_with successful_retrieve h ≤ 1 ∧
  state_wf s.
Proof.
  intros Hh. split; [by eapply history_setters|]. split; [by eapply history_retrieved|].
  eapply history_wf; [done|]. split; [by intros []|done].
Qed.

(** The first [set_value] to succeed decides what [get] returns: whatever the
    other threads do before and after it (further attempts to satisfy the state,
    [abandon] by the promise's destructor, attaching continuations, cancelling),
    [get] does not block and returns that value. *)
Theorem get_returns_first_value cb h1 s1 v s2 h2 s3 :
  history mv (shared_state_new cb) h1 s1 →
  history_step mv s1 (OpSetValue v) (Ret ()) s2 →
  history mv s2 h2 s3 → Forall (λ x, gets (fst x) = false) h2 →
  ∃ s4, get mv s3 = Some (Ret (s4, v)).
Proof.
  intros Hh1 Hset Hh2 Hget.
  assert (state_wf s1) as Hwf.
  { eapply history_wf; [done|]. split; [by intros []|done]. }
  assert (current_state_ s2 = has_value ∧ buffer_ s2 = Some v) as [Hc Hb].
  { inversion Hset as [o s' Heq| |]; subst. revert Heq. simpl.
    unfold state_of, set_value, ThrowFutureError, construct. intros Heq.
    repeat (case_match; simplify_eq/=). done. }
  assert (is_ready s2) as Hr by (unfold is_ready, is_ready_unlocked; by rewrite Hc).
  destruct (history_stable _ _ _ _ Hh2 Hr) as (Hr3 & Hc3 & _ & Hb3 & _).
  unfold get. rewrite Hc3, Hc, Hb3, Hb by done.
  unfold is_ready in Hr3. destruct (is_ready_unlocked s3); [|done]. simpl. eauto.
Qed.

(** A state that is not satisfied can be: so also after a [set_value] that was interrupted,
    when the promise tries again or stores the exception. *)
Lemma unsatisfied_accepts v ex s : state_wf s → is_ready s = false →
  (∃ s', set_value v s = Ret (s', notify_now s)) ∧
  (∃ s', set_exception ex s = Ret (s', notify_now s)).
Proof.
  intros Hwf Hr. unfold set_value, set_exception, set_exception_locked, is_ready in *.
  rewrite Hr. apply is_ready_false in Hr. unfold state_wf in Hwf.
  destruct s as [rt st xp kk cn cb [u|]]; simpl in *; [|by eauto].
  assert (st = has_value) by (apply Hwf; eauto). congruence.
Qed.
End properties.

Lemma shared_state_once_witness :
  let h := [(OpMarkRetrieved, Ret ());
            (OpInterruptedSetValue (application_error "move"), Throw (application_error "move"));
            (OpSetValue 7, Ret ());
            (OpSetValue 8, Throw (future_error promise_already_satisfied));
            (OpInterruptedGet (application_error "move") S, Throw (application_error "move"));
            (OpAbandon, Ret ())] : list (op nat nat nat * cxx ()) in
  sum_list_with successful_setter h ≤ 1 ∧ sum_list_with successful_retrieve h ≤ 1.
Proof.
  intros h.
  assert (history (H := example_build) (λ v : nat, v) (shared_state_new None) h
    (mkState true has_value None None false None (Some 8))) as Hh.
  { repeat (eapply history_cons; [first [apply history_ret; reflexivity
                                        |apply history_throw; reflexivity
                                        |eapply history_get; reflexivity]|]).
    constructor. }
  destruct (shared_state_once (H := example_build) (λ v : nat, v) _ _ _ Hh) as (? & ? & _).
  done.
Defined.

Lemma get_returns_first_value_witness :
  ∃ s3 s4 : shared_state nat nat nat,
    is_ready s3 ∧ get (H := example_build) (λ v, v) s3 = Some (Ret (s4, 7)).
Proof.
  pose (s1 := mkState (V := nat) (K := nat) (C := nat) true not_ready None None false None None).
  pose (s2 := mkState (V := nat) (K := nat) (C := nat) true has_value None None false None (Some 7)).
  edestruct (get_returns_first_value (H := example_build) (K := nat) (C := nat) (λ v : nat, v) None
    [(OpMarkRetrieved, Ret ())] s1 7 s2 [(OpAbandon, Ret ())] s2) as [s4 Hs4].
  - eapply history_cons; [apply history_ret; reflexivity|constructor].
  - apply history_ret; reflexivity.
  - eapply history_cons; [apply history_ret; reflexivity|constructor].
  - repeat constructor.
  - exists s2, s4. split; [done|exact Hs4].
Defined.

Section void_properties.
Context `{Build} {K C : Type}.

(** The specialization for [void], which has no buffer, behaves as the
    general template at a type with one value, in a build with exceptions (without
    them only the text of the message [get] terminates with differs). *)
Theorem void_specialization (u : shared_state () K C) :
  have_exceptions = true → state_wf u →
  void_set_value (erase u) = erase_result (set_value () u) ∧
  void_get (erase u) = erase_result <$> get id u ∧
  (∀ ex, set_exception ex (erase u) = erase_result (set_exception ex u)) ∧
  abandon (erase u) = erase_result (abandon u) ∧
  (∀ c, set_continuation c (erase u) = erase_result (set_continuation c u)) ∧
  mark_retrieved (Some (erase u)) = (erase <$> mark_retrieved (Some u)) ∧
  wait_result (erase u) = wait_result u ∧ cancellable (erase u) = cancellable u.
Proof.
  destruct u as [r st xp kk cn cb bf]. unfold state_wf. simpl. intros Hx Hwf.
  assert (bf = if st is has_value then Some () else None) as ->.
  { destruct st, bf as [[]|]; try done; naive_solver. }
  unfold void_set_value, set_value, void_get, get, set_exception, abandon,
    set_continuation, mark_retrieved, void_set_value_locked, set_exception_locked,
    is_ready_unlocked, erase_result, ThrowFutureError, erase; simpl.
  rewrite Hx. destruct st; simpl; split_and!; intros; repeat case_match; reflexivity.
Qed.
End void_properties.

Lemma void_specialization_witness :
  let u := mkState (V := ()) (K := nat) (C := nat) true has_value None None false None (Some ()) in
  void_get (H := example_build) (erase u) = Some (Ret (erase u, ())).
Proof.
  intros u. destruct (void_specialization (H := example_build) u) as (_ & Hg & _).
  - reflexivity.
  - split; [done|eauto].
  - rewrite Hg. reflexivity.
Defined.
