(* ===== verification/Futures.v ===== *)
(** * Promises, futures and continuations

    The handles [future<T>] and [promise<T>] (internal/future_base.h,
    future_generic.h, future_void.h), [then()] (internal/future_then_impl.h) and the
    continuation objects (internal/future_impl.h), run by any number of threads over
    a heap of shared states.

    A thread is a control point and a stack of frames.  One step of a thread is one
    critical section of [SharedState.v], or code between two critical sections that
    touches no state another thread can reach.  Application code (the body of a
    thread, the functor of a [then()], a cancellation callback) is a [prog]: a tree
    of calls to the API, so a functor may itself create, satisfy, wait for and chain
    futures.  Handles are variables of the program that hold a (possibly null)
    [shared_ptr]: [cells]. *)

From S2P Require Import Prelude Status Throw SharedState.

Section futures.
Context {D : Type}.

(** Values: of type [void], [bool], a data type, or a future (its [shared_ptr]).
    [VHandle] names a variable of the program that holds a future or a promise. *)
Inductive val :=
| VVoid
| VBool (b : bool)
| VStatus (s : future_status)
| VData (d : D)
| VFuture (shared_state_ : option nat)
| VHandle (x : nat).

(** What a call gives back to the code that made it. *)
Inductive reply :=
| Returned (v : val)
| Raised (e : exn).

(** Application code and the calls of the API it can make. *)
Inductive prog :=
| PRet (v : val)
| PThrow (e : exn)
| PCall (c : call) (k : reply → prog)
with call :=
| NewPromise (cancellation_callback : prog)
| PromiseMove (p : nat)
| PromiseAssign (p rhs : nat)
| PromiseDestroy (p : nat)
| PromiseGetFuture (p : nat)
| PromiseSetValue (p : nat) (v : val)
| PromiseSetException (p : nat) (ex : exception_ptr)
| FutureOf (shared_state_ : option nat)
| FutureMove (f : nat)
| FutureRelease (f : nat)
| FutureValid (f : nat)
| FutureIsReady (f : nat)
| FutureWait (f : nat)
| FutureWaitFor (f : nat)
| FutureGet (f : nat)
| FutureCancel (f : nat)
| FutureThen (requires_unwrap : bool) (f : nat) (functor : nat → prog).

(** ** Continuation objects *)

(** [struct continuation] with the functor of a [then()], [struct
    unwrapping_continuation], and the [continuation] with the [unwrapper] lambda
    that the latter attaches to the intermediate state. *)
Inductive continuation_body :=
| Continuation (functor : nat → prog)
| UnwrappingContinuation (functor : nat → prog)
| Unwrapper.

(** The identity of the object, its functor, [input] and [output]. *)
Record continuation := mkContinuation {
  kid : nat;
  body : continuation_body;
  input : nat;
  output : nat;
}.

Abbreviation sstate := (shared_state val continuation prog).

(** ** The world the threads share *)

(** What an observer sees: a continuation starts, a state is satisfied or
    abandoned, a cancellation callback is called. *)
Inductive event :=
| EExecute (kid : nat)
| ESatisfied (l : nat)
| EAbandoned (l : nat)
| ECancelCallback (l : nat).

(** [spent]: the continuations whose [output] pointer was reset. *)
Record world := mkWorld {
  heap : gmap nat sstate;
  cells : gmap nat (option nat);
  spent : gset nat;
  log : list event;
  next : nat;
}.

Definition world_empty : world := mkWorld ∅ ∅ ∅ [] 0.

Definition set_heap (l : nat) (s : sstate) (w : world) : world :=
  mkWorld (<[l := s]> (heap w)) (cells w) (spent w) (log w) (next w).
Definition set_cell (x : nat) (sp : option nat) (w : world) : world :=
  mkWorld (heap w) (<[x := sp]> (cells w)) (spent w) (log w) (next w).
Definition set_spent (k : nat) (w : world) : world :=
  mkWorld (heap w) (cells w) ({[k]} ∪ spent w) (log w) (next w).
Definition emit (e : event) (w : world) : world :=
  mkWorld (heap w) (cells w) (spent w) (log w ++ [e]) (next w).
Definition fresh_name (w : world) : world :=
  mkWorld (heap w) (cells w) (spent w) (log w) (S (next w)).

(** [std::make_shared<future_shared_state<T>>(cancellation_callback)]. *)
Definition new_state (cb : option prog) (w : world) : nat * world :=
  (next w, fresh_name (set_heap (next w) (shared_state_new cb) w)).
(** A new variable of the program. *)
Definition new_cell (sp : option nat) (w : world) : nat * world :=
  (next w, fresh_name (set_cell (next w) sp w)).

(** ** Threads *)

(** Where a thread is. *)
Inductive ctrl :=
| Run (p : prog)
| Reply (r : reply)
| Halt (o : outcome exn ())
| SetValue (l : nat) (v : val)
| SetException (l : nat) (ex : exception_ptr)
| Abandon (l : nat)
| Notify (l : nat)
| SetContinuation (l : nat) (c : continuation)
| Execute (c : continuation)
| Get (l : nat)
| Wait (l : nat)
| Cancel (l : nat)
| CancelTest (l : nat).

(** What the callers of the current code do with its reply. *)
Inductive frame :=
| FProg (k : reply → prog)              (* application code that made a call *)
| FThen (f out : nat)                   (* [then_impl] after [make_continuation] *)
| FDeliver (out : nat)                  (* the functor of a [continuation] runs *)
| FDeliverGuard (out : nat)             (* its [output.set_value] runs *)
| FOutputReset (kid : nat)              (* then [output.reset()] *)
| FUnwrap (out : nat)                   (* the functor of an [unwrapping_continuation] runs *)
| FCancelled (l : nat).                 (* the cancellation callback runs *)

Definition thread := (ctrl * list frame)%type.

(** A configuration: the world and the threads. *)
Definition config := (world * list thread)%type.

(** ** Critical sections

    What a member function of a shared state does to the world and where the
    thread continues.  [SharedState.v] gives the effect on the state itself. *)
Context `{Build} (moved_data : D → D).

(** The moved-from value that stays behind. *)
Definition moved (v : val) : val :=
  match v with
  | VData d => VData (moved_data d)
  | VFuture _ => VFuture None
  | _ => v
  end.

(** Continue with the result of code that may throw. *)
Definition on_cxx {A} (w : world) (m : cxx A) (f : A → world * ctrl) : world * ctrl :=
  match m with
  | Ret a => f a
  | Throw e => (w, Reply (Raised e))
  | Terminated msg => (w, Halt (Terminated msg))
  | Undefined x => (w, Halt (Undefined x))
  end.

(** [shared_state_->...] *)
Definition at_state (l : nat) (w : world) (f : sstate → world * ctrl) : world * ctrl :=
  match heap w !! l with
  | Some s => f s
  | None => (w, Halt (Undefined NullDereference))
  end.

Definition returns (w : world) (v : val) : world * ctrl := (w, Reply (Returned v)).
Definition void_reply (w : world) : world * ctrl := returns w VVoid.

(** After [set_value] and [set_exception]: [notify_now] has released the lock. *)
Definition satisfied (l : nat) (w : world) (r : sstate * after_unlock continuation) :
    world * ctrl :=
  let w' := emit (ESatisfied l) (set_heap l (fst r) w) in
  match snd r with
  | RunContinuation => (w', Notify l)
  | _ => void_reply w'
  end.

Definition do_set_value (l : nat) (v : val) (w : world) : world * ctrl :=
  at_state l w (λ s, on_cxx w (set_value v s) (satisfied l w)).
Definition do_set_exception (l : nat) (ex : exception_ptr) (w : world) : world * ctrl :=
  at_state l w (λ s, on_cxx w (set_exception ex s) (satisfied l w)).

Definition do_abandon (l : nat) (w : world) : world * ctrl :=
  at_state l w (λ s, on_cxx w (abandon s) (λ r,
    match snd r with
    | Nothing => void_reply w
    | _ => void_reply (emit (EAbandoned l) (set_heap l (fst r) w))
    end)).

(** [continuation_->execute()] of [notify_now], without the lock. *)
Definition do_notify (l : nat) (w : world) : world * ctrl :=
  at_state l w (λ s,
    match continuation_ s with
    | Some c => (w, Execute c)
    | None => (w, Halt (Undefined NullDereference))
    end).

Definition do_set_continuation (l : nat) (c : continuation) (w : world) : world * ctrl :=
  at_state l w (λ s, on_cxx w (set_continuation c s) (λ r,
    match snd r with
    | RunContinuation => (w, Execute c)
    | _ => void_reply (set_heap l (fst r) w)
    end)).

(** [None] while the thread blocks. *)
Definition do_get (l : nat) (w : world) : option (world * ctrl) :=
  match heap w !! l with
  | Some s =>
      m ← get moved s;
      Some (on_cxx w m (λ r, returns (set_heap l (fst r) w) (snd r)))
  | None => Some (w, Halt (Undefined NullDereference))
  end.
Definition do_wait (l : nat) (w : world) : option (world * ctrl) :=
  match heap w !! l with
  | Some s => _ ← wait s; Some (void_reply w)
  | None => Some (w, Halt (Undefined NullDereference))
  end.

(** [cancel]: [cancellable()] locks to read the state and then reads the atomic
    [cancelled_], so another thread may act in between. *)
Definition do_cancel (l : nat) (w : world) : world * ctrl :=
  at_state l w (λ s, if is_ready s then returns w (VBool false) else (w, CancelTest l)).
Definition do_cancel_test (l : nat) (w : world) : world * ctrl * list frame :=
  match heap w !! l with
  | Some s =>
      if cancelled_ s then (returns w (VBool false), [])
      else match cancellation_callback_ s with
           | Some cb => (emit (ECancelCallback l) w, Run cb, [FCancelled l])
           | None => (w, Reply (Raised (application_error "bad_function_call")), [])
           end
  | None => (w, Halt (Undefined NullDereference), [])
  end.

(** ** [continuation::execute] and [unwrapping_continuation::execute] *)

(** [input] is a [weak_ptr]: when the state is gone the output gets an error. *)
Definition do_execute (c : continuation) (w : world) : world * ctrl * list frame :=
  let w := emit (EExecute (kid c)) w in
  match heap w !! input c with
  | None => (w, SetException (output c) (Some (future_error no_state)), [])
  | Some _ =>
      if decide (kid c ∈ spent w) then (w, Halt (Undefined NullDereference), [])
      else match body c with
      | Continuation functor =>
          let '(x, w) := new_cell (Some (input c)) w in
          (w, Run (functor x), [FDeliver (output c); FOutputReset (kid c)])
      | UnwrappingContinuation functor =>
          let '(x, w) := new_cell (Some (input c)) w in
          (w, Run (functor x), [FUnwrap (output c)])
      | Unwrapper => (w, Get (input c), [FDeliver (output c); FOutputReset (kid c)])
      end
  end.

(** [continuation_execute_delegate]: the functor has replied, its result goes to
    [output.set_value] inside the [try] block; a [std::future_error] is rethrown and
    any other exception is stored in the output. *)
Definition delegate_catch (out : nat) (e : exn) (w : world) : world * ctrl :=
  if is_future_error e then (w, Reply (Raised e)) else (w, SetException out (Some e)).
Definition continuation_execute_delegate (out : nat) (r : reply) (w : world) :
    world * ctrl * list frame :=
  match r with
  | Returned v => (w, SetValue out v, [FDeliverGuard out])
  | Raised e => (delegate_catch out e w, [])
  end.

(** What [unwrapping_continuation::execute] does with the result of the functor.
    [None]: not a future, the functor is not well typed. *)
Definition unwrap (out : nat) (r : reply) (w : world) : option (world * ctrl) :=
  match r with
  | Raised e => Some (w, SetException out (Some e))
  | Returned (VFuture None) => Some (w, SetException out (Some (future_error broken_promise)))
  | Returned (VFuture (Some m)) =>
      Some (fresh_name w, SetContinuation m (mkContinuation (next w) Unwrapper m out))
  | Returned _ => None
  end.

(** The rest of [then_impl] once [make_continuation] has returned: the future becomes
    invalid and the result refers to the output state. *)
Definition then_impl (f out : nat) (w : world) : world * ctrl :=
  let '(x, w) := new_cell (Some out) (set_cell f None w) in returns w (VHandle x).
(** [output.reset()]. *)
Definition output_reset (k : nat) (w : world) : world * ctrl := void_reply (set_spent k w).
(** The rest of [cancel] once the callback has returned. *)
Definition cancel_done (l : nat) (w : world) : world * ctrl :=
  at_state l w (λ s, returns (set_heap l (set_cancelled s) w) (VBool true)).

(** The return to a caller's frame. *)
Definition resume (f : frame) (r : reply) (w : world) : option (world * ctrl * list frame) :=
  match f, r with
  | FProg k, _ => Some (w, Run (k r), [])
  | FThen f out, Returned _ => Some (then_impl f out w, [])
  | FDeliver out, _ => Some (continuation_execute_delegate out r w)
  | FDeliverGuard out, Raised e => Some (delegate_catch out e w, [])
  | FOutputReset k, Returned _ => Some (output_reset k w, [])
  | FUnwrap out, _ => (λ x, (x, [])) <$> unwrap out r w
  | FCancelled l, Returned _ => Some (cancel_done l w, [])
  | _, _ => Some (w, Reply r, [])
  end.

(** ** The operations of [promise<T>] and [future<T>] *)

(** The [shared_state_] member of the variable. *)
Definition handle (x : nat) (w : world) : option nat := default None (cells w !! x).

Definition promise_new (cb : prog) (w : world) : world * ctrl :=
  let '(l, w) := new_state (Some cb) w in
  let '(x, w) := new_cell (Some l) w in returns w (VHandle x).
Definition handle_move (x : nat) (w : world) : world * ctrl :=
  let '(y, w') := new_cell (handle x w) w in returns (set_cell x None w') (VHandle y).
Definition promise_destroy (p : nat) (w : world) : world * ctrl :=
  match handle p w with
  | Some l => (set_cell p None w, Abandon l)
  | None => void_reply w
  end.
(** [operator=(promise&& rhs)]: [tmp] takes the state of [rhs], is swapped with
    [*this] and destroyed. *)
Definition promise_assign (p rhs : nat) (w : world) : world * ctrl :=
  let tmp := handle rhs w in
  let w1 := set_cell rhs None w in
  let w2 := set_cell p tmp w1 in
  match handle p w1 with Some old => (w2, Abandon old) | None => void_reply w2 end.
Definition promise_get_future (p : nat) (w : world) : world * ctrl :=
  on_cxx w (mark_retrieved (l ← handle p w; heap w !! l)) (λ s,
    match handle p w with
    | Some l => let '(x, w) := new_cell (Some l) (set_heap l s w) in returns w (VHandle x)
    | None => (w, Halt (Undefined NullDereference))
    end).
Definition promise_set_value (p : nat) (v : val) (w : world) : world * ctrl :=
  match handle p w with
  | None => on_cxx w (ThrowFutureError no_state "set_value") (λ _ : (), void_reply w)
  | Some l => (w, SetValue l v)
  end.
Definition promise_set_exception (p : nat) (ex : exception_ptr) (w : world) : world * ctrl :=
  match handle p w with
  | None => on_cxx w (ThrowFutureError no_state "set_exception") (λ _ : (), void_reply w)
  | Some l => (w, SetException l ex)
  end.

(** [check_valid] and then [f]. *)
Definition check_valid (x : nat) (w : world) (f : nat → world * ctrl) : world * ctrl :=
  match handle x w with
  | None => on_cxx w (ThrowFutureError no_state "check_valid") (λ _ : (), void_reply w)
  | Some l => f l
  end.
Definition future_valid (x : nat) (w : world) : bool := bool_decide (is_Some (handle x w)).
Definition future_is_ready (x : nat) (w : world) : world * ctrl :=
  check_valid x w (λ l, at_state l w (λ s, returns w (VBool (is_ready s)))).
Definition future_wait (x : nat) (w : world) : world * ctrl :=
  check_valid x w (λ l, (w, Wait l)).
Definition future_wait_for (x : nat) (w : world) : world * ctrl :=
  check_valid x w (λ l, at_state l w (λ s, returns w (VStatus (wait_for s)))).
Definition future_get (x : nat) (w : world) : world * ctrl :=
  check_valid x w (λ l, (set_cell x None w, Get l)).
(** There is no [check_valid] here. *)
Definition future_cancel (x : nat) (w : world) : world * ctrl :=
  match handle x w with
  | None => (w, Halt (Undefined NullDereference))
  | Some l => (w, Cancel l)
  end.

(** The constructor of the continuation takes the cancellation callback out of the
    input state and creates the output state with it; [make_continuation] attaches
    the continuation. *)
Definition make_continuation (l : nat) (b : continuation_body) (w : world) :
    option (world * continuation) :=
  s ← heap w !! l;
  let '(cb, s') := release_cancellation_callback s in
  let '(out, w1) := new_state cb (set_heap l s' w) in
  Some (fresh_name w1, mkContinuation (next w1) b l out).
Definition future_then (requires_unwrap : bool) (x : nat) (functor : nat → prog) (w : world) :
    world * ctrl * list frame :=
  match handle x w with
  | None => (check_valid x w (λ _, void_reply w), [])
  | Some l =>
      let b := if requires_unwrap then UnwrappingContinuation functor
               else Continuation functor in
      match make_continuation l b w with
      | Some (w', c) => (w', SetContinuation l c, [FThen x (output c)])
      | None => (w, Halt (Undefined NullDereference), [])
      end
  end.

Definition do_call (c : call) (w : world) : world * ctrl * list frame :=
  match c with
  | NewPromise cb => (promise_new cb w, [])
  | PromiseMove p => (handle_move p w, [])
  | PromiseAssign p rhs => (promise_assign p rhs w, [])
  | PromiseDestroy p => (promise_destroy p w, [])
  | PromiseGetFuture p => (promise_get_future p w, [])
  | PromiseSetValue p v => (promise_set_value p v w, [])
  | PromiseSetException p ex => (promise_set_exception p ex w, [])
  | FutureOf sp => let '(x, w) := new_cell sp w in (returns w (VHandle x), [])
  | FutureMove f => (handle_move f w, [])
  | FutureRelease f => (returns (set_cell f None w) (VFuture (handle f w)), [])
  | FutureValid f => (returns w (VBool (future_valid f w)), [])
  | FutureIsReady f => (future_is_ready f w, [])
  | FutureWait f => (future_wait f w, [])
  | FutureWaitFor f => (future_wait_for f w, [])
  | FutureGet f => (future_get f w, [])
  | FutureCancel f => (future_cancel f w, [])
  | FutureThen u f functor => future_then u f functor w
  end.

(** ** Steps *)

Definition no_frames (r : world * ctrl) : world * ctrl * list frame := (r, []).

(** What a thread that is at [c] does next, with the frames it adds on top of its
    stack; [None]: it is blocked. *)
Definition ctrl_step (w : world) (c : ctrl) : option (world * ctrl * list frame) :=
  match c with
  | Run (PRet v) => Some (no_frames (returns w v))
  | Run (PThrow e) => Some (w, Reply (Raised e), [])
  | Run (PCall c k) => let '(w', c', fs) := do_call c w in Some (w', c', fs ++ [FProg k])
  | Reply _ | Halt _ => None
  | SetValue l v => Some (no_frames (do_set_value l v w))
  | SetException l ex => Some (no_frames (do_set_exception l ex w))
  | Abandon l => Some (no_frames (do_abandon l w))
  | Notify l => Some (no_frames (do_notify l w))
  | SetContinuation l c => Some (no_frames (do_set_continuation l c w))
  | Execute c => Some (do_execute c w)
  | Get l => no_frames <$> do_get l w
  | Wait l => no_frames <$> do_wait l w
  | Cancel l => Some (no_frames (do_cancel l w))
  | CancelTest l => Some (do_cancel_test l w)
  end.

(** One step of a thread.  [None]: the thread is blocked or finished. *)
Definition thread_step (w : world) (t : thread) : option (world * thread) :=
  match t with
  | (Reply r, f :: fs) =>
      '(w', c', fs') ← resume f r w; Some (w', (c', fs' ++ fs))
  | (c, fs) => '(w', c', fs') ← ctrl_step w c; Some (w', (c', fs' ++ fs))
  end.

(** Thread [i] makes a step.  Nothing runs after the program has ended. *)
Definition halted (t : thread) : bool := match t with (Halt _, _) => true | _ => false end.
Definition config_step (i : nat) (c : config) : option config :=
  if existsb halted (snd c) then None
  else t ← snd c !! i;
    '(w', t') ← thread_step (fst c) t;
    Some (w', <[i := t']> (snd c)).

Definition step (c c' : config) : Prop := ∃ i, config_step i c = Some c'.

(** The start of a program: an empty heap and a thread per body. *)
Definition init (bodies : list prog) : config := (world_empty, (λ p, (Run p, [])) <$> bodies).
Definition reachable (bodies : list prog) (c : config) : Prop := rtc step (init bodies) c.

(** No thread can make a step. *)
Definition quiescent (c : config) : Prop := ∀ i, config_step i c = None.

(** Run by a schedule: a list of thread numbers. *)
Fixpoint run (schedule : list nat) (c : config) : option config :=
  match schedule with
  | [] => Some c
  | i :: rest => c' ← config_step i c; run rest c'
  end.

(** ** Helper functions of the API *)

(** Run [p] and pass its result on. *)
Fixpoint pbind (p : prog) (k : reply → prog) : prog :=
  match p with
  | PRet v => k (Returned v)
  | PThrow e => k (Raised e)
  | PCall c k' => PCall c (λ r, pbind (k' r) k)
  end.

(** Use the variable a call returned; an exception passes through. *)
Definition with_handle (k : nat → prog) (r : reply) : prog :=
  match r with
  | Returned (VHandle x) => k x
  | Returned _ => PRet VVoid
  | Raised e => PThrow e
  end.
Definition with_value (k : val → prog) (r : reply) : prog :=
  match r with Returned v => k v | Raised e => PThrow e end.
Definition reply_with (r : reply) : prog :=
  match r with Returned v => PRet v | Raised e => PThrow e end.

(** [make_ready_future]: [p] is destroyed on every path. *)
Definition make_ready_future (t : val) : prog :=
  PCall (NewPromise (PRet VVoid)) (with_handle (λ p,
    let finally r := PCall (PromiseDestroy p) (λ _, reply_with r) in
    PCall (PromiseSetValue p t) (λ r,
      match r with
      | Raised e => finally (Raised e)
      | Returned _ => PCall (PromiseGetFuture p) finally
      end))).

(** [future(future<future<T>>&& rhs)]. *)
Definition future_unwrap (rhs : nat) : prog :=
  PCall (FutureThen true rhs (λ f, PCall (FutureGet f) reply_with)) reply_with.
End futures.
Arguments val : clear implicits.
Arguments reply : clear implicits.
Arguments prog : clear implicits.
Arguments call : clear implicits.
Arguments continuation_body : clear implicits.
Arguments continuation : clear implicits.
Arguments world : clear implicits.
Arguments ctrl : clear implicits.
Arguments frame : clear implicits.
Arguments thread : clear implicits.
Arguments config : clear implicits.
Abbreviation sstate D := (shared_state (val D) (continuation D) (prog D)).
