(* ===== verification/FutureProtocol.v ===== *)
(** * The continuation protocol

    What the shared states promise about continuations, stated without values,
    handles, exceptions or cancellation: a shared state has at most one continuation
    attached, becomes satisfied or abandoned at most once, and whoever satisfies it
    holds the only right to run the continuation.  [FutureSafety.v] shows that the
    machine of [Futures.v] implements this protocol and carries its invariant over. *)

From S2P Require Import Prelude Status Throw SharedState Futures.

Global Instance event_eq_dec : EqDecision event.
Proof. solve_decision. Defined.

(** How a shared state came to be ready. *)
Inductive readiness := Pending | Satisfied | Abandoned.

Global Instance readiness_eq_dec : EqDecision readiness.
Proof. solve_decision. Defined.

(** A shared state: the continuation attached, and its readiness. *)
Record shape := Shape { attached : option nat; ready_by : readiness }.

(** What a thread has the right to do next. *)
Inductive token :=
| TNone
| TSet (l k : nat)        (* attach continuation [k] to [l] *)
| TNotify (l : nat)       (* run the continuation of [l] *)
| TExec (k : nat).        (* run continuation [k] *)

Global Instance token_eq_dec : EqDecision token.
Proof. solve_decision. Defined.

Record proto := mkProto { shapes : gmap nat shape; plog : list event; pnext : nat }.

(** One action of the thread that holds a token. *)
Inductive pstep : proto → token → proto → token → Prop :=
| p_drop p l k : pstep p (TSet l k) p TNone
| p_next p t n : pnext p ≤ n → pstep p t (mkProto (shapes p) (plog p) n) t
| p_cancel_callback p l :
    pstep p TNone (mkProto (shapes p) (plog p ++ [ECancelCallback l]) (pnext p)) TNone
| p_new p :
    pstep p TNone
      (mkProto (<[pnext p := Shape None Pending]> (shapes p)) (plog p) (S (pnext p))) TNone
| p_create p l :
    pstep p TNone (mkProto (shapes p) (plog p) (S (pnext p))) (TSet l (pnext p))
| p_satisfy p l a :
    shapes p !! l = Some (Shape a Pending) →
    pstep p TNone
      (mkProto (<[l := Shape a Satisfied]> (shapes p)) (plog p ++ [ESatisfied l]) (pnext p))
      (if a then TNotify l else TNone)
| p_abandon p l a :
    shapes p !! l = Some (Shape a Pending) →
    pstep p TNone
      (mkProto (<[l := Shape a Abandoned]> (shapes p)) (plog p ++ [EAbandoned l]) (pnext p))
      TNone
| p_attach p l k :
    shapes p !! l = Some (Shape None Pending) →
    pstep p (TSet l k)
      (mkProto (<[l := Shape (Some k) Pending]> (shapes p)) (plog p) (pnext p)) TNone
| p_immediate p l k r :
    shapes p !! l = Some (Shape None r) → r ≠ Pending →
    pstep p (TSet l k) p (TExec k)
| p_notify p l k r :
    shapes p !! l = Some (Shape (Some k) r) →
    pstep p (TNotify l) p (TExec k)
| p_execute p k :
    pstep p (TExec k) (mkProto (shapes p) (plog p ++ [EExecute k]) (pnext p)) TNone.

(** A system: the tokens of all threads. *)
Definition psystem := (proto * list token)%type.
Inductive psys_step : psystem → psystem → Prop :=
| psys_act p ts i t p' t' :
    ts !! i = Some t → pstep p t p' t' → psys_step (p, ts) (p', <[i := t']> ts).

Definition pinit (n : nat) : psystem := (mkProto ∅ [] 0, replicate n TNone).

(** ** The invariant *)

(** Rights to run continuation [k]: attached where it may still run or never will,
    held by a thread, or used up. *)
Definition shape_right (k : nat) (l : nat) (sh : shape) : nat :=
  if decide (attached sh = Some k ∧ ready_by sh ≠ Satisfied) then 1 else 0.
Definition token_right (k : nat) (sh : gmap nat shape) (t : token) : nat :=
  match t with
  | TNone => 0
  | TSet _ k' | TExec k' => if decide (k' = k) then 1 else 0
  | TNotify l => if decide ((sh !! l) ≫= attached = Some k) then 1 else 0
  end.
Definition rights (k : nat) (s : psystem) : nat :=
  map_sum (shape_right k) (shapes s.1) +
  sum_list_with (token_right k (shapes s.1)) s.2 +
  count (EExecute k) (plog s.1).

Record pinv (s : psystem) : Prop := {
  pinv_dom : ∀ l, is_Some (shapes s.1 !! l) → l < pnext s.1;
  pinv_rights : ∀ k, rights k s ≤ if decide (k < pnext s.1) then 1 else 0;
  pinv_satisfied : ∀ l, count (ESatisfied l) (plog s.1)
    = if decide (ready_by <$> shapes s.1 !! l = Some Satisfied) then 1 else 0;
  pinv_abandoned : ∀ l, count (EAbandoned l) (plog s.1)
    = if decide (ready_by <$> shapes s.1 !! l = Some Abandoned) then 1 else 0;
  pinv_notify : ∀ l, TNotify l ∈ s.2 →
    ∃ k, shapes s.1 !! l = Some (Shape (Some k) Satisfied);
  pinv_runs : ∀ l k, shapes s.1 !! l = Some (Shape (Some k) Satisfied) →
    TNotify l ∈ s.2 ∨ TExec k ∈ s.2 ∨ EExecute k ∈ plog s.1;
}.

Arguments shape_right : simpl never.

Lemma shape_right_eq k l a r :
  shape_right k l (Shape a r) = if decide (a = Some k ∧ r ≠ Satisfied) then 1 else 0.
Proof. done. Qed.

Lemma pinv_init n : pinv (pinit n).
Proof.
  split; simpl.
  - intros l [? Hl]. by rewrite lookup_empty in Hl.
  - intros k. unfold rights. simpl. rewrite map_sum_empty.
    rewrite sum_list_with_zero; [simpl; lia|]. by intros ? [-> _]%elem_of_replicate.
  - intros l. by rewrite lookup_empty.
  - intros l. by rewrite lookup_empty.
  - intros l [? _]%elem_of_replicate. done.
  - intros l k. by rewrite lookup_empty.
Qed.

(** The tokens of the other threads after thread [i] changed its own. *)
Lemma elem_of_insert_other {A} (l : list A) i (t u x : A) :
  l !! i = Some t → x ∈ <[i := u]> l → x = u ∨ x ∈ l.
Proof.
  intros Hi [j Hj]%list_elem_of_lookup.
  apply list_lookup_insert_Some in Hj as [(-> & -> & _)|[_ Hj]]; [by left|].
  right. by eapply list_elem_of_lookup_2.
Qed.

Lemma elem_of_insert_keep {A} (l : list A) i (t u x : A) :
  l !! i = Some t → x ∈ l → x = t ∨ x ∈ <[i := u]> l.
Proof.
  intros Hi [j Hj]%list_elem_of_lookup. destruct (decide (i = j)) as [->|Hne].
  - simplify_eq. by left.
  - right. apply (list_elem_of_lookup_2 _ j). by rewrite list_lookup_insert_ne.
Qed.

Lemma elem_of_insert_new {A} (l : list A) i (t u : A) :
  l !! i = Some t → u ∈ <[i := u]> l.
Proof.
  intros Hi. apply (list_elem_of_lookup_2 _ i), list_lookup_insert_eq.
  by eapply lookup_lt_Some.
Qed.

Lemma token_sum k sh sh' ts i t t' :
  ts !! i = Some t →
  (∀ l, TNotify l ∈ <[i := t']> ts → (sh' !! l) ≫= attached = (sh !! l) ≫= attached) →
  sum_list_with (token_right k sh') (<[i := t']> ts) + token_right k sh t
  = sum_list_with (token_right k sh) ts + token_right k sh t'.
Proof.
  intros Hi Hn. rewrite (sum_list_with_ext _ (token_right k sh)).
  - by apply sum_list_with_insert.
  - intros u Hu. destruct u; simpl; try done. by rewrite (Hn l Hu).
Qed.

Lemma rights_le k s : count (EExecute k) (plog s.1) ≤ rights k s.
Proof. unfold rights. lia. Qed.

(** Case analysis on the [decide]s, leaving arithmetic or a contradiction. *)
Ltac decides :=
  repeat case_decide; destruct_and?; simplify_eq/=;
  first [lia | exfalso; naive_solver].

(** One action and the rights of every continuation. *)
Lemma pstep_rights p ts i t p' t' :
  pinv (p, ts) → ts !! i = Some t → pstep p t p' t' →
  ∀ k, rights k (p', <[i := t']> ts) ≤ if decide (k < pnext p') then 1 else 0.
Proof.
  intros Hinv Hi Hst k.
  pose proof (pinv_rights _ Hinv k) as Hk. pose proof (pinv_notify _ Hinv) as Hn.
  pose proof (pinv_dom _ Hinv) as Hd. simpl in *.
  unfold rights in *. simpl in *.
  destruct Hst; simpl in *.
  - pose proof (token_sum k (shapes p) (shapes p) ts i (TSet l k0) TNone Hi
      (λ _ _, eq_refl)). simpl in *. lia.
  - pose proof (token_sum k (shapes p) (shapes p) ts i t t Hi (λ _ _, eq_refl)).
    simpl in *. case_decide; case_decide; lia.
  - pose proof (token_sum k (shapes p) (shapes p) ts i TNone TNone Hi (λ _ _, eq_refl)).
    rewrite count_app. simpl in *. lia.
  - assert (shapes p !! pnext p = None) as Hnone.
    { apply eq_None_not_Some. intros Hs%Hd. lia. }
    pose proof (token_sum k (shapes p) (<[pnext p:=Shape None Pending]> (shapes p)) ts i
      TNone TNone Hi) as Ht.
    rewrite map_sum_insert, shape_right_eq by done. simpl in *.
    assert (sum_list_with (token_right k (<[pnext p:=Shape None Pending]> (shapes p)))
      (<[i:=TNone]> ts) + 0 = sum_list_with (token_right k (shapes p)) ts + 0) as Ht'.
    { apply Ht. clear Ht. intros l Hl. destruct (decide (l = pnext p)) as [->|Hne].
      - by rewrite lookup_insert_eq, Hnone.
      - by rewrite lookup_insert_ne. }
    case_decide; case_decide; lia.
  - pose proof (token_sum k (shapes p) (shapes p) ts i TNone (TSet l (pnext p)) Hi
      (λ _ _, eq_refl)). simpl in *. repeat case_decide; lia.
  - pose proof (token_sum k (shapes p) (<[l:=Shape a Satisfied]> (shapes p)) ts i TNone
      (if a then TNotify l else TNone) Hi) as Ht.
    rewrite count_app. simpl.
    pose proof (map_sum_update (shape_right k) (shapes p) l _ (Shape a Satisfied) H) as Hm.
    rewrite !shape_right_eq in Hm.
    assert (∀ l0, (<[l:=Shape a Satisfied]> (shapes p) !! l0) ≫= attached
       = (shapes p !! l0) ≫= attached) as Hat.
    { intros l0. destruct (decide (l0 = l)) as [->|]; [by rewrite lookup_insert_eq, H|].
      by rewrite lookup_insert_ne. }
    specialize (Ht (λ l0 _, Hat l0)). simpl in Ht.
    destruct a as [k'|]; simpl in *; rewrite ?H in Ht; simpl in Ht; decides.
  - pose proof (token_sum k (shapes p) (<[l:=Shape a Abandoned]> (shapes p)) ts i TNone
      TNone Hi) as Ht.
    rewrite count_app. simpl.
    pose proof (map_sum_update (shape_right k) (shapes p) l _ (Shape a Abandoned) H) as Hm.
    rewrite !shape_right_eq in Hm.
    assert (∀ l0, (<[l:=Shape a Abandoned]> (shapes p) !! l0) ≫= attached
       = (shapes p !! l0) ≫= attached) as Hat.
    { intros l0. destruct (decide (l0 = l)) as [->|]; [by rewrite lookup_insert_eq, H|].
      by rewrite lookup_insert_ne. }
    specialize (Ht (λ l0 _, Hat l0)). simpl in Ht. decides.
  - pose proof (token_sum k (shapes p) (<[l:=Shape (Some k0) Pending]> (shapes p)) ts i
      (TSet l k0) TNone Hi) as Ht.
    pose proof (map_sum_update (shape_right k) (shapes p) l _ (Shape (Some k0) Pending) H) as Hm.
    rewrite !shape_right_eq in Hm.
    assert (∀ l0, TNotify l0 ∈ <[i := TNone]> ts →
      (<[l:=Shape (Some k0) Pending]> (shapes p) !! l0) ≫= attached
       = (shapes p !! l0) ≫= attached) as Hat.
    { intros l0 Hl0. eapply elem_of_insert_other in Hl0 as [?|Hl0]; [done| |done].
      apply Hn in Hl0 as [k1 Hk1]. rewrite lookup_insert_ne; [done|]. naive_solver. }
    specialize (Ht Hat). simpl in Ht. decides.
  - pose proof (token_sum k (shapes p) (shapes p) ts i (TSet l k0) (TExec k0) Hi
      (λ _ _, eq_refl)). simpl in *. lia.
  - pose proof (token_sum k (shapes p) (shapes p) ts i (TNotify l) (TExec k0) Hi
      (λ _ _, eq_refl)) as Ht. simpl in *. rewrite H in Ht. simpl in *.
    decides.
  - pose proof (token_sum k (shapes p) (shapes p) ts i (TExec k0) TNone Hi
      (λ _ _, eq_refl)) as Ht. rewrite count_app. unfold count at 2. simpl in *.
    decides.
Qed.

(** The entry for [l] after an update, and the events that count for it. *)
Ltac lookup_cases :=
  repeat match goal with
  | H : context [<[?i := _]> _ !! ?j] |- _ =>
      destruct (decide (j = i)) as [->|?];
      [rewrite lookup_insert_eq in H|rewrite lookup_insert_ne in H by done]; simplify_eq/=
  | |- context [<[?i := _]> _ !! ?j] =>
      destruct (decide (j = i)) as [->|?];
      [rewrite lookup_insert_eq|rewrite lookup_insert_ne by done]; simplify_eq/=
  end.

Lemma pstep_dom p t p' t' :
  (∀ l, is_Some (shapes p !! l) → l < pnext p) → pstep p t p' t' →
  ∀ l, is_Some (shapes p' !! l) → l < pnext p'.
Proof.
  intros Hd Hst l Hl. destruct Hst; simpl in *; try (by apply Hd);
    try (apply Hd in Hl; lia); lookup_cases; try lia; try (apply Hd in Hl; lia);
    apply Hd; eauto.
Qed.

(** How often a state was satisfied or abandoned. *)
Lemma pstep_ready (ev : nat → event) (r : readiness) p t p' t' :
  (ev, r) = (ESatisfied, Satisfied) ∨ (ev, r) = (EAbandoned, Abandoned) →
  (∀ l, is_Some (shapes p !! l) → l < pnext p) → pstep p t p' t' →
  (∀ l, count (ev l) (plog p)
    = if decide (ready_by <$> shapes p !! l = Some r) then 1 else 0) →
  ∀ l, count (ev l) (plog p')
    = if decide (ready_by <$> shapes p' !! l = Some r) then 1 else 0.
Proof.
  intros Hev Hd Hst Hc l. specialize (Hc l).
  assert (shapes p !! pnext p = None) as Hnone.
  { apply eq_None_not_Some. intros Hs%Hd. lia. }
  destruct Hst; simpl in *; rewrite ?count_app, Hc; unfold count; simpl; try done;
    lookup_cases; rewrite ?H, ?Hnone; destruct Hev; simplify_eq/=;
    repeat case_decide; simplify_eq/=; lia.
Qed.

Lemma pstep_notify p ts i t p' t' :
  pinv (p, ts) → ts !! i = Some t → pstep p t p' t' →
  ∀ l, TNotify l ∈ <[i := t']> ts → ∃ k, shapes p' !! l = Some (Shape (Some k) Satisfied).
Proof.
  intros Hinv Hi Hst l Hl.
  pose proof (pinv_notify _ Hinv) as Hn. pose proof (pinv_dom _ Hinv) as Hd. simpl in *.
  assert (TNotify l = t' ∧ t ≠ t' ∨ TNotify l ∈ ts) as Hl'.
  { destruct (elem_of_insert_other _ _ _ _ _ Hi Hl) as [<-|?]; [|by right].
    destruct (decide (t = TNotify l)) as [->|]; [right|naive_solver].
    by eapply list_elem_of_lookup_2. }
  destruct Hst; simpl in *; destruct Hl' as [[Heq Hne]|Hl']; try done; eauto.
  - destruct (Hn l Hl') as [k Hk]. exists k. rewrite lookup_insert_ne; [done|].
    intros <-. assert (pnext p < pnext p) by (apply Hd; eauto). lia.
  - destruct a as [k|]; [|done]. simplify_eq. exists k. by rewrite lookup_insert_eq.
  - destruct (Hn l Hl') as [k Hk]. exists k. rewrite lookup_insert_ne; [done|]. naive_solver.
  - destruct (Hn l Hl') as [k Hk]. exists k. rewrite lookup_insert_ne; [done|]. naive_solver.
  - destruct (Hn l Hl') as [k' Hk]. exists k'. rewrite lookup_insert_ne; [done|]. naive_solver.
Qed.

(** Someone runs, or has run, the continuation of every satisfied state. *)
Lemma pstep_runs p ts i t p' t' :
  pinv (p, ts) → ts !! i = Some t → pstep p t p' t' →
  ∀ l k, shapes p' !! l = Some (Shape (Some k) Satisfied) →
    TNotify l ∈ <[i := t']> ts ∨ TExec k ∈ <[i := t']> ts ∨ EExecute k ∈ plog p'.
Proof.
  intros Hinv Hi Hst l k Hl. pose proof (pinv_runs _ Hinv l k) as Hr. simpl in *.
  pose proof (elem_of_insert_keep _ _ _ t' (TNotify l) Hi) as Hkn.
  pose proof (elem_of_insert_keep _ _ _ t' (TExec k) Hi) as Hkx.
  pose proof (elem_of_insert_new _ _ _ t' Hi) as Hnew.
  destruct Hst; simpl in *; rewrite ?elem_of_app; lookup_cases;
    try (specialize (Hr Hl)); try naive_solver.
  destruct Hr as [Hr|[Hr|Hr]]; [naive_solver| |naive_solver].
  destruct (Hkx Hr) as [?|?]; simplify_eq; [|naive_solver].
  right; right; right. by apply list_elem_of_singleton.
Qed.

(** The invariant is preserved by every step of the protocol. *)
Lemma pinv_act p ts i t p' t' :
  pinv (p, ts) → ts !! i = Some t → pstep p t p' t' → pinv (p', <[i := t']> ts).
Proof.
  intros Hinv Hi Hst. pose proof (pinv_dom _ Hinv) as Hd. split; simpl.
  - eapply pstep_dom; eauto.
  - eapply pstep_rights; eauto.
  - eapply (pstep_ready ESatisfied); eauto. apply (pinv_satisfied _ Hinv).
  - eapply (pstep_ready EAbandoned); eauto. apply (pinv_abandoned _ Hinv).
  - eapply pstep_notify; eauto.
  - eapply pstep_runs; eauto.
Qed.

Lemma pinv_step s s' : psys_step s s' → pinv s → pinv s'.
Proof. destruct 1. intros. by eapply pinv_act. Qed.

Lemma pinv_rtc s s' : rtc psys_step s s' → pinv s → pinv s'.
Proof. induction 1; eauto using pinv_step. Qed.

(** When no thread holds a right to run anything, a continuation has run exactly as
    often as the state it is attached to was satisfied: once or never. *)
Lemma pinv_settled p ts l k r :
  pinv (p, ts) → shapes p !! l = Some (Shape (Some k) r) →
  (∀ l, TNotify l ∉ ts) → (∀ k, TExec k ∉ ts) →
  count (EExecute k) (plog p) = count (ESatisfied l) (plog p).
Proof.
  intros Hinv Hl Hn Hx.
  pose proof (pinv_rights _ Hinv k) as Hk. pose proof (pinv_satisfied _ Hinv l) as Hs.
  pose proof (pinv_runs _ Hinv l k) as Hr. unfold rights in Hk. simpl in *.
  rewrite Hl in Hs. simpl in Hs. destruct (decide (r = Satisfied)) as [->|Hne].
  - rewrite decide_True in Hs by done. specialize (Hr Hl).
    assert (EExecute k ∈ plog p) as He by naive_solver.
    apply count_elem_of in He. case_decide; lia.
  - rewrite decide_False in Hs by naive_solver.
    pose proof (map_sum_lookup_le (shape_right k) (shapes p) l _ Hl) as Hm.
    rewrite shape_right_eq, decide_True in Hm by done. case_decide; lia.
Qed.
