(* ===== verification/FutureSafety.v ===== *)
(** * The machine of promises and futures implements the continuation protocol

    A simulation from the steps of [Futures.v] to the steps of [FutureProtocol.v],
    the invariant of the protocol carried over to every interleaving of every
    program, and what it means for the code: continuations run at most once, and
    exactly once when the state they are attached to is satisfied.  The executions include
    those in which the move constructor of a value throws. *)

From S2P Require Import Prelude Status Throw SharedState Futures FutureProtocol.

(** ** The abstraction *)
Section abstraction.
Context {D : Type}.
Implicit Types (w : world D) (t : thread D).

(** The right that the control point of a thread stands for. *)
Definition ctrl_token (c : ctrl D) : token :=
  match c with
  | SetContinuation l k => TSet l (kid k)
  | Notify l => TNotify l
  | Execute k => TExec (kid k)
  | _ => TNone
  end.

Definition shape_rel (s : sstate D) (sh : shape) : Prop :=
  attached sh = kid <$> continuation_ s ∧
  (current_state_ s = not_ready ↔ ready_by sh = Pending).

Record world_rel w (p : proto) : Prop := {
  rel_heap : ∀ l, option_Forall2 shape_rel (heap w !! l) (shapes p !! l);
  rel_log : plog p = log w;
  rel_next : pnext p = next w;
}.

Definition config_rel (c : config D) (s : psystem) : Prop :=
  world_rel c.1 s.1 ∧ s.2 = (λ t, ctrl_token t.1) <$> c.2.

(** Several actions of one thread. *)
Definition psteps (p : proto) (t : token) (p' : proto) (t' : token) : Prop :=
  rtc (λ x y, pstep x.1 x.2 y.1 y.2) (p, t) (p', t').
End abstraction.

(** ** The simulation *)
Section simulation.
Context {D : Type} `{Build} (moved_data : D → D).
Implicit Types (w : world D) (p : proto).

Lemma rel_lookup w p l s :
  world_rel w p → heap w !! l = Some s →
  ∃ sh, shapes p !! l = Some sh ∧ shape_rel s sh.
Proof. intros Hr Hl. pose proof (rel_heap _ _ Hr l) as Hs. rewrite Hl in Hs. inversion Hs; eauto. Qed.

Lemma rel_lookup_shape w p l sh :
  world_rel w p → shapes p !! l = Some sh →
  ∃ s, heap w !! l = Some s ∧ shape_rel s sh.
Proof. intros Hr Hl. pose proof (rel_heap _ _ Hr l) as Hs. rewrite Hl in Hs. inversion Hs; eauto. Qed.

Lemma psteps_refl p t : psteps p t p t.
Proof. apply rtc_refl. Qed.

Lemma psteps_once p t p' t' : pstep p t p' t' → psteps p t p' t'.
Proof. intros. by apply rtc_once. Qed.

Lemma psteps_trans p1 t1 p2 t2 p3 t3 :
  psteps p1 t1 p2 t2 → psteps p2 t2 p3 t3 → psteps p1 t1 p3 t3.
Proof. unfold psteps. intros ? ?. by etrans. Qed.

(** Changes of the world that the protocol does not see. *)
Lemma rel_set_heap w p l s s' :
  world_rel w p → heap w !! l = Some s →
  continuation_ s' = continuation_ s → current_state_ s' = current_state_ s →
  world_rel (set_heap l s' w) p.
Proof.
  intros Hr Hl Hk Hc. split; simpl; try apply Hr. intros l'. destruct (decide (l' = l)) as [->|].
  - rewrite lookup_insert_eq. destruct (rel_lookup _ _ _ _ Hr Hl) as (sh & -> & Hsh & Hrd).
    constructor. split; [congruence|]. by rewrite Hc.
  - rewrite lookup_insert_ne by done. apply Hr.
Qed.

Lemma rel_set_cell w p x sp : world_rel w p → world_rel (set_cell x sp w) p.
Proof. intros [? ? ?]. by split. Qed.

Lemma rel_set_spent w p k : world_rel w p → world_rel (set_spent k w) p.
Proof. intros [? ? ?]. by split. Qed.

Definition bump p := mkProto (shapes p) (plog p) (S (pnext p)).

Lemma rel_fresh_name w p : world_rel w p → world_rel (fresh_name w) (bump p).
Proof. intros [? ? ?]. split; simpl; [done|done|congruence]. Qed.

Lemma psteps_bump p t : psteps p t (bump p) t.
Proof. apply psteps_once, p_next. lia. Qed.

(** Changes that it does see. *)
Lemma rel_new_state w p cb :
  world_rel w p → world_rel (new_state cb w).2
    (mkProto (<[pnext p := Shape None Pending]> (shapes p)) (plog p) (S (pnext p))).
Proof.
  intros Hr. pose proof (rel_next _ _ Hr) as Hn. split; simpl; [|apply Hr|congruence].
  intros l. rewrite Hn. destruct (decide (l = next w)) as [->|].
  - rewrite !lookup_insert_eq. constructor. by split.
  - rewrite !lookup_insert_ne by done. apply Hr.
Qed.

Lemma rel_emit w p ev :
  world_rel w p → world_rel (emit ev w) (mkProto (shapes p) (plog p ++ [ev]) (pnext p)).
Proof. intros [? ? ?]. split; simpl; [done|congruence|done]. Qed.

Lemma rel_change w p l s' sh' :
  world_rel w p → shape_rel s' sh' →
  world_rel (set_heap l s' w) (mkProto (<[l := sh']> (shapes p)) (plog p) (pnext p)).
Proof.
  intros Hr Hsh. split; simpl; try apply Hr. intros l'. destruct (decide (l' = l)) as [->|].
  - rewrite !lookup_insert_eq. by constructor.
  - rewrite !lookup_insert_ne by done. apply Hr.
Qed.

(** What a step of a thread at [c] owes to the protocol. *)
Definition simulated (p : proto) (t : token) (w' : world D) (c' : ctrl D) : Prop :=
  ∃ p', psteps p t p' (ctrl_token c') ∧ world_rel w' p'.

Lemma simulated_silent p w' c' :
  world_rel w' p → ctrl_token c' = TNone → simulated p TNone w' c'.
Proof. intros ? Ht. exists p. rewrite Ht. split; [apply psteps_refl|done]. Qed.

Lemma simulated_drop p l k w' c' :
  world_rel w' p → ctrl_token c' = TNone → simulated p (TSet l k) w' c'.
Proof. intros ? Ht. exists p. rewrite Ht. split; [apply psteps_once, p_drop|done]. Qed.

Lemma simulated_new_cell p t sp w c' :
  world_rel w p → ctrl_token c' = t → simulated p t (new_cell sp w).2 c'.
Proof.
  intros Hr <-. exists (bump p). split; [apply psteps_bump|].
  by apply rel_fresh_name, rel_set_cell.
Qed.

Lemma simulated_on_cxx {A} p t w (m : cxx A) f :
  world_rel w p → (t = TNone ∨ ∃ l k, t = TSet l k) →
  (∀ a, m = Ret a → simulated p t (f a).1 (f a).2) →
  simulated p t (on_cxx w m f).1 (on_cxx w m f).2.
Proof.
  intros Hr Ht Hf. destruct m; simpl; [by apply Hf|..];
    destruct Ht as [->|(l & k & ->)]; auto using simulated_silent, simulated_drop.
Qed.

Lemma simulated_at_state p t w l f :
  world_rel w p → (t = TNone ∨ ∃ l k, t = TSet l k) →
  (∀ s, heap w !! l = Some s → simulated p t (f s).1 (f s).2) →
  simulated p t (at_state l w f).1 (at_state l w f).2.
Proof.
  intros Hr Ht Hf. unfold at_state. destruct (heap w !! l) eqn:Hl; [by apply Hf|].
  destruct Ht as [->|(l' & k & ->)]; auto using simulated_silent, simulated_drop.
Qed.

(** *** Critical sections *)

Lemma satisfies_value v (s : sstate D) r :
  set_value v s = Ret r →
  current_state_ s = not_ready ∧ current_state_ r.1 ≠ not_ready ∧
  continuation_ r.1 = continuation_ s ∧ r.2 = notify_now r.1.
Proof.
  unfold set_value, is_ready_unlocked, ThrowFutureError. intros Heq.
  destruct (Slot.construct v (buffer_ s)); simpl in Heq; cases; bool_props;
    (split; [by apply dec_stable|done]).
Qed.

Lemma satisfies_exception ex (s : sstate D) r :
  set_exception ex s = Ret r →
  current_state_ s = not_ready ∧ current_state_ r.1 ≠ not_ready ∧
  continuation_ r.1 = continuation_ s ∧ r.2 = notify_now r.1.
Proof.
  unfold set_exception, set_exception_locked, is_ready_unlocked, ThrowFutureError.
  intros Heq. cases; bool_props; (split; [by apply dec_stable|done]).
Qed.

Lemma abandon_cases (s : sstate D) r :
  abandon s = Ret r →
  (r = (s, Nothing) ∧ current_state_ s ≠ not_ready) ∨
  (current_state_ s = not_ready ∧ current_state_ r.1 ≠ not_ready ∧
   continuation_ r.1 = continuation_ s ∧ r.2 = NotifyAll).
Proof.
  unfold abandon, set_exception_locked, is_ready_unlocked, ThrowFutureError.
  cases; intros; simplify_eq/=; bool_props; [by left|..];
    (right; split; [by apply dec_stable|done]).
Qed.

Lemma set_continuation_cases c (s : sstate D) r :
  set_continuation c s = Ret r →
  continuation_ s = None ∧
  ((r = (s, RunContinuation) ∧ current_state_ s ≠ not_ready) ∨
   (current_state_ s = not_ready ∧ current_state_ r.1 = not_ready ∧
    continuation_ r.1 = Some c ∧ r.2 = Nothing)).
Proof.
  unfold set_continuation, is_ready_unlocked, ThrowFutureError.
  cases; intros; simplify_eq/=; bool_props; split; auto.
  right. split_and!; [by apply dec_stable..|done|done].
Qed.

Lemma get_keeps mv (s : sstate D) r :
  get mv s = Some (Ret r) →
  continuation_ r.1 = continuation_ s ∧ current_state_ r.1 = current_state_ s.
Proof.
  unfold get. intros Heq. cases. destruct (buffer_ s); by simplify_eq/=.
Qed.

Lemma satisfied_simulated w p l s r :
  world_rel w p → heap w !! l = Some s →
  current_state_ s = not_ready → current_state_ r.1 ≠ not_ready →
  continuation_ r.1 = continuation_ s → r.2 = notify_now r.1 →
  simulated p TNone (satisfied l w r).1 (satisfied l w r).2.
Proof.
  destruct r as [s' rest]. simpl.
  intros Hr Hl Hs Hs' Hk ->. destruct (rel_lookup _ _ _ _ Hr Hl) as ([a rd] & Hsh & Ha & Hrd).
  simpl in *. apply Hrd in Hs as ->.
  exists (mkProto (<[l := Shape a Satisfied]> (shapes p)) (plog p ++ [ESatisfied l]) (pnext p)).
  split.
  - apply psteps_once. pose proof (p_satisfy p l a Hsh) as Hp.
    unfold satisfied, notify_now. simpl. rewrite Hk, Ha in *. destruct (continuation_ s); simpl in *; by subst.
  - assert (world_rel (emit (ESatisfied l) (set_heap l s' w))
      (mkProto (<[l:=Shape a Satisfied]> (shapes p)) (plog p ++ [ESatisfied l]) (pnext p))).
    { apply (rel_emit _ (mkProto _ _ _)), rel_change; [done|]. split; simpl; [congruence|done]. }
    unfold satisfied. simpl. by destruct (notify_now s').
Qed.

Lemma do_set_value_simulated w p l v :
  world_rel w p → simulated p TNone (do_set_value l v w).1 (do_set_value l v w).2.
Proof.
  intros Hr. apply simulated_at_state; [done|by left|]. intros s Hl.
  apply simulated_on_cxx; [done|by left|]. intros r Hm.
  destruct (satisfies_value _ _ _ Hm) as (? & ? & ? & ?). by eapply satisfied_simulated.
Qed.

Lemma do_set_exception_simulated w p l ex :
  world_rel w p → simulated p TNone (do_set_exception l ex w).1 (do_set_exception l ex w).2.
Proof.
  intros Hr. apply simulated_at_state; [done|by left|]. intros s Hl.
  apply simulated_on_cxx; [done|by left|]. intros r Hm.
  destruct (satisfies_exception _ _ _ Hm) as (? & ? & ? & ?). by eapply satisfied_simulated.
Qed.

Lemma do_abandon_simulated w p l :
  world_rel w p → simulated p TNone (do_abandon l w).1 (do_abandon l w).2.
Proof.
  intros Hr. apply simulated_at_state; [done|by left|]. intros s Hl.
  apply simulated_on_cxx; [done|by left|]. intros r Hm.
  destruct (abandon_cases _ _ Hm) as [[-> _]|(Hs & Hs' & Hk & ->)].
  - by apply simulated_silent.
  - destruct (rel_lookup _ _ _ _ Hr Hl) as ([a rd] & Hsh & Ha & Hrd).
    simpl in *. apply Hrd in Hs as ->. eexists. split; [by apply psteps_once, p_abandon|].
    apply (rel_emit _ (mkProto _ _ _)), rel_change; [done|]. split; simpl; [congruence|done].
Qed.

Lemma do_set_continuation_simulated w p l c :
  world_rel w p →
  simulated p (TSet l (kid c)) (do_set_continuation l c w).1 (do_set_continuation l c w).2.
Proof.
  intros Hr. apply simulated_at_state; [done|by right; eauto|]. intros s Hl.
  apply simulated_on_cxx; [done|by right; eauto|]. intros r Hm.
  destruct (rel_lookup _ _ _ _ Hr Hl) as ([a rd] & Hsh & Ha & Hrd). simpl in *.
  destruct (set_continuation_cases _ _ _ Hm) as (Hk & [[-> Hs]|(Hs & Hs' & Hk' & Hn)]);
    rewrite Hk in Ha; simpl in Ha; subst a.
  - exists p. split; [|done]. apply psteps_once. eapply p_immediate; [done|]. naive_solver.
  - rewrite Hn. apply Hrd in Hs as ->. eexists. split; [by apply psteps_once, p_attach|].
    apply rel_change; [done|]. split; simpl; [by rewrite Hk'|done].
Qed.

Lemma do_notify_simulated w p l k :
  world_rel w p → shapes p !! l = Some (Shape (Some k) Satisfied) →
  simulated p (TNotify l) (do_notify l w).1 (do_notify l w).2.
Proof.
  intros Hr Hsh. destruct (rel_lookup_shape _ _ _ _ Hr Hsh) as (s & Hl & Ha & _).
  unfold do_notify, at_state. rewrite Hl. simpl in Ha.
  destruct (continuation_ s) as [c|]; simplify_eq/=.
  exists p. split; [|done]. by eapply psteps_once, p_notify.
Qed.

Lemma do_get_simulated w p l r :
  world_rel w p → do_get moved_data l w = Some r → simulated p TNone r.1 r.2.
Proof.
  unfold do_get. intros Hr. destruct (heap w !! l) as [s|] eqn:Hl; intros Heq; simplify_eq/=;
    [|by apply simulated_silent].
  destruct (get _ s) as [m|] eqn:Hg; simplify_eq/=.
  apply simulated_on_cxx; [done|by left|]. intros x ->.
  destruct (get_keeps _ _ _ Hg). apply simulated_silent; [|done]. by eapply rel_set_heap.
Qed.

Lemma do_wait_simulated w p l r :
  world_rel w p → do_wait l w = Some r → simulated p TNone r.1 r.2.
Proof.
  unfold do_wait. intros Hr Heq. cases; [|by apply simulated_silent].
  destruct (wait _); simplify_eq/=. by apply simulated_silent.
Qed.

Lemma simulated_after p1 t1 p2 w' c' :
  psteps p1 t1 p2 TNone → simulated p2 TNone w' c' → simulated p1 t1 w' c'.
Proof. intros Hp (p' & Hp' & ?). exists p'. eauto using psteps_trans. Qed.

Lemma do_execute_simulated w p c r :
  world_rel w p → do_execute c w = r → simulated p (TExec (kid c)) r.1.1 r.1.2.
Proof.
  intros Hr <-. eapply simulated_after; [apply psteps_once, p_execute|].
  eapply (rel_emit _ _ (EExecute (kid c))) in Hr. unfold do_execute.
  destruct (heap (emit (EExecute (kid c)) w) !! input c); simpl;
    [|by apply simulated_silent].
  destruct (decide (kid c ∈ _)); simpl; [by apply simulated_silent|].
  destruct (body c); simpl; [by apply (simulated_new_cell _ _ _ (emit _ w))..|].
  by apply simulated_silent.
Qed.

(** The operations of the API. *)
Lemma make_continuation_simulated w p l b w' c :
  world_rel w p → make_continuation l b w = Some (w', c) →
  simulated p TNone w' (SetContinuation l c).
Proof.
  unfold make_continuation. intros Hr Heq.
  destruct (heap w !! l) as [s|] eqn:Hl; simplify_eq/=.
  eapply (simulated_after _ _ (mkProto (<[pnext p := Shape None Pending]> (shapes p))
    (plog p) (S (pnext p)))); [apply psteps_once, p_new|].
  eapply (rel_set_heap _ _ _ _ (release_cancellation_callback s).2) in Hr; [|done..].
  eapply (rel_new_state _ _ (cancellation_callback_ s)) in Hr.
  pose proof (rel_next _ _ Hr) as Hn. simpl in Hn. simpl.
  eexists. split; [|by apply rel_fresh_name].
  apply psteps_once. simpl. rewrite <- Hn. apply (p_create (mkProto _ _ _)).
Qed.

Lemma check_valid_simulated w p x f :
  world_rel w p → (∀ l, handle x w = Some l → simulated p TNone (f l).1 (f l).2) →
  simulated p TNone (check_valid x w f).1 (check_valid x w f).2.
Proof.
  intros Hr Hf. unfold check_valid. destruct (handle x w); [by apply Hf|].
  apply simulated_on_cxx; [done|by left|]. intros _ _. by apply simulated_silent.
Qed.

Lemma promise_get_future_simulated w p x :
  world_rel w p →
  simulated p TNone (promise_get_future x w).1 (promise_get_future x w).2.
Proof.
  intros Hr. apply simulated_on_cxx; [done|by left|]. intros s' Hm.
  destruct (handle x w) as [l|]; simpl in *; [|by apply simulated_silent].
  apply (simulated_new_cell _ TNone _ (set_heap l s' w)); [|done].
  destruct (heap w !! l) as [s|] eqn:Hl; simpl in *.
  - eapply rel_set_heap; eauto; unfold ThrowFutureError in Hm; by cases; intros; simplify_eq/=.
  - unfold ThrowFutureError in Hm. case_match; done.
Qed.

Lemma future_then_simulated w p u x functor r :
  world_rel w p → future_then u x functor w = r → simulated p TNone r.1.1 r.1.2.
Proof.
  intros Hr <-. unfold future_then. destruct (handle x w) as [l|] eqn:Hx.
  - destruct (make_continuation _ _ _) as [[w' c]|] eqn:Hc; simpl.
    + by eapply make_continuation_simulated.
    + by apply simulated_silent.
  - simpl. apply check_valid_simulated; [done|]. by rewrite Hx.
Qed.

Lemma handle_move_simulated w p x :
  world_rel w p → simulated p TNone (handle_move x w).1 (handle_move x w).2.
Proof.
  exists (bump p). split; [apply psteps_bump|]. by apply rel_set_cell, rel_fresh_name, rel_set_cell.
Qed.

Lemma promise_new_simulated w p cb :
  world_rel w p → simulated p TNone (promise_new cb w).1 (promise_new cb w).2.
Proof.
  intros Hr. eapply simulated_after; [apply psteps_once, p_new|].
  eapply (simulated_new_cell _ TNone _ (new_state _ w).2); [|done]. by apply rel_new_state.
Qed.

Lemma do_call_simulated w p c r :
  world_rel w p → do_call c w = r → simulated p TNone r.1.1 r.1.2.
Proof.
  intros Hr <-. destruct c; simpl;
    try (apply simulated_silent; [solve [auto using rel_set_cell]|done]).
  - by apply promise_new_simulated.
  - by apply handle_move_simulated.
  - unfold promise_assign. destruct (handle p0 _); simpl;
      (apply simulated_silent; [auto using rel_set_cell|done]).
  - unfold promise_destroy. destruct (handle p0 _); simpl;
      (apply simulated_silent; [auto using rel_set_cell|done]).
  - by apply promise_get_future_simulated.
  - unfold promise_set_value. destruct (handle p0 _); [by apply simulated_silent|].
    apply simulated_on_cxx; [done|by left|]. intros _ _. by apply simulated_silent.
  - unfold promise_set_exception. destruct (handle p0 _); [by apply simulated_silent|].
    apply simulated_on_cxx; [done|by left|]. intros _ _. by apply simulated_silent.
  - by apply (simulated_new_cell _ _ _ w).
  - by apply handle_move_simulated.
  - apply check_valid_simulated; [done|]. intros l _. apply simulated_at_state; [done|by left|].
    intros s _. by apply simulated_silent.
  - apply check_valid_simulated; [done|]. intros l _. by apply simulated_silent.
  - apply check_valid_simulated; [done|]. intros l _. apply simulated_at_state; [done|by left|].
    intros s _. by apply simulated_silent.
  - apply check_valid_simulated; [done|]. intros l _.
    apply simulated_silent; [by apply rel_set_cell|done].
  - unfold future_cancel. destruct (handle f w); by apply simulated_silent.
  - by eapply future_then_simulated.
Qed.

Lemma do_cancel_simulated w p l :
  world_rel w p → simulated p TNone (do_cancel l w).1 (do_cancel l w).2.
Proof.
  intros Hr. apply simulated_at_state; [done|by left|].
  intros s _. case_match; by apply simulated_silent.
Qed.

Lemma do_cancel_test_simulated w p l r :
  world_rel w p → do_cancel_test l w = r → simulated p TNone r.1.1 r.1.2.
Proof.
  intros Hr <-. unfold do_cancel_test. repeat case_match; simpl; try by apply simulated_silent.
  eexists. split; [apply psteps_once, p_cancel_callback|]. by apply rel_emit.
Qed.

(** The return to a caller's frame. *)
Lemma resume_simulated w p f r x :
  world_rel w p → resume f r w = Some x → simulated p TNone x.1.1 x.1.2.
Proof.
  intros Hr Heq. destruct f, r; simpl in Heq; simplify_eq/=;
    try (by apply simulated_silent); unfold delegate_catch;
    try (case_match; by apply simulated_silent).
  - apply (simulated_new_cell _ TNone _ (set_cell f None w)); [by apply rel_set_cell|done].
  - apply simulated_silent; [by apply rel_set_spent|done].
  - destruct v as [| | | |[m|]|]; simplify_eq/=; [|by apply simulated_silent].
    eexists. split; [|by apply rel_fresh_name].
    apply psteps_once. simpl. rewrite <- (rel_next _ _ Hr). apply p_create.
  - apply simulated_at_state; [done|by left|]. intros s Hl.
    apply simulated_silent; [|done]. by eapply rel_set_heap.
Qed.

Lemma ctrl_step_simulated w p c x :
  world_rel w p →
  (∀ l, c = Notify l → ∃ k, shapes p !! l = Some (Shape (Some k) Satisfied)) →
  ctrl_step moved_data w c = Some x → simulated p (ctrl_token c) x.1.1 x.1.2.
Proof.
  intros Hr Hn Heq. destruct c; simpl in *; simplify_eq/=.
  - destruct p0 as [v|e|c k]; simplify_eq/=; [by apply simulated_silent..|].
    destruct (do_call c w) as [[w' c'] fs] eqn:Hc. simplify_eq/=.
    apply (do_call_simulated _ _ _ _ Hr Hc).
  - by apply do_set_value_simulated.
  - by apply do_set_exception_simulated.
  - by apply do_abandon_simulated.
  - destruct (Hn l eq_refl) as [k Hk]. by eapply do_notify_simulated.
  - by apply do_set_continuation_simulated.
  - by eapply do_execute_simulated.
  - apply fmap_Some in Heq as (y & Hy & ->). by eapply do_get_simulated.
  - apply fmap_Some in Heq as (y & Hy & ->). by eapply do_wait_simulated.
  - by apply do_cancel_simulated.
  - by eapply do_cancel_test_simulated.
Qed.

Lemma thread_step_simulated w p t w' t' :
  world_rel w p →
  (∀ l, t.1 = Notify l → ∃ k, shapes p !! l = Some (Shape (Some k) Satisfied)) →
  thread_step moved_data w t = Some (w', t') → simulated p (ctrl_token t.1) w' t'.1.
Proof.
  intros Hr Hn. destruct t as [c fs]. simpl in *.
  assert (('(w1, c1, fs1) ← ctrl_step moved_data w c; Some (w1, (c1, fs1 ++ fs))) = Some (w', t') →
    simulated p (ctrl_token c) w' t'.1) as Hgen.
  { destruct (ctrl_step moved_data w c) as [[[w1 c1] fs1]|] eqn:Hc; intros; simplify_eq/=.
    apply (ctrl_step_simulated _ _ _ _ Hr Hn Hc). }
  destruct c; try exact Hgen. destruct fs as [|f fs]; [done|]. simpl.
  destruct (resume f r w) as [[[w1 c1] fs1]|] eqn:Hc; intros; simplify_eq/=.
  apply (resume_simulated _ _ _ _ _ Hr Hc).
Qed.

End simulation.

(** ** Values whose move constructor throws

    [set_value] and [get] move a value.  When the constructor throws [e] the call does, with
    the state not satisfied, or with what the constructor left of the value ([torn]). *)
Section throwing_values.
Context {D : Type} `{Build} (moved_data : D → D).
Implicit Types (c : config D) (bodies : list (prog D)).

Inductive interrupted : config D → config D → Prop :=
| interrupted_set w ts i l v fs s e e' :
    existsb halted ts = false → ts !! i = Some (SetValue l v, fs) → heap w !! l = Some s →
    interrupted_set_value e s = Throw e' →
    interrupted (w, ts) (w, <[i := (Reply (Raised e'), fs)]> ts)
| interrupted_get w ts i l fs s e torn s' e' :
    existsb halted ts = false → ts !! i = Some (Get l, fs) → heap w !! l = Some s →
    SharedState.interrupted_get e torn s = Some (s', Throw e') →
    interrupted (w, ts) (set_heap l s' w, <[i := (Reply (Raised e'), fs)]> ts).

Definition throwing_step c c' : Prop := step moved_data c c' ∨ interrupted c c'.
Definition throwing_reachable bodies c : Prop := rtc throwing_step (init bodies) c.
End throwing_values.

(** ** Every interleaving *)
Section interleavings.
Context {D : Type} `{Build} (moved_data : D → D).
Implicit Types (c : config D) (w : world D) (bodies : list (prog D)).

(** Programs whose values do not throw are a special case. *)
Lemma steps_throwing c c' : rtc (step moved_data) c c' → rtc (throwing_step moved_data) c c'.
Proof. induction 1; [apply rtc_refl|]. eapply rtc_l; [by left|done]. Qed.

Lemma psteps_sys p t p' t' ts i :
  psteps p t p' t' → ts !! i = Some t →
  rtc psys_step (p, ts) (p', <[i := t']> ts).
Proof.
  unfold psteps. intros Hst. remember (p, t) as x eqn:Hx. remember (p', t') as y eqn:Hy.
  revert p t ts Hx Hy. induction Hst as [x|x [p1 t1] y Hxy _ IH]; intros p t ts Hx Hy Hi.
  - subst. simplify_eq. by rewrite list_insert_id.
  - subst. simpl in Hxy. eapply rtc_l; [by eapply psys_act|].
    rewrite <- (list_insert_insert_eq ts i t' t1).
    apply (IH p1 t1); [done..|]. apply list_lookup_insert_eq. by eapply lookup_lt_Some.
Qed.

Lemma config_step_inv i c c' :
  config_step moved_data i c = Some c' →
  existsb halted c.2 = false ∧
  ∃ t w' t', c.2 !! i = Some t ∧ thread_step moved_data c.1 t = Some (w', t') ∧
    c' = (w', <[i := t']> c.2).
Proof.
  unfold config_step. destruct (existsb halted c.2); [done|]. intros Heq.
  destruct (c.2 !! i) as [t|] eqn:Ht; simplify_eq/=.
  destruct (thread_step moved_data c.1 t) as [[w' t']|] eqn:Hs; simplify_eq/=.
  split; [done|]. by exists t, w', t'.
Qed.

Lemma step_simulated c c' s :
  config_rel c s → pinv s → step moved_data c c' →
  ∃ s', rtc psys_step s s' ∧ config_rel c' s'.
Proof.
  intros [Hr Hts] Hinv [i Hi]. destruct s as [p ts]. simpl in *.
  apply config_step_inv in Hi as (_ & t & w' & t' & Ht & Hs & ->).
  assert (ts !! i = Some (ctrl_token t.1)) as Hti by (by rewrite Hts, list_lookup_fmap, Ht).
  destruct (thread_step_simulated moved_data c.1 p t w' t' Hr) as (p' & Hp & Hr'); [|done|].
  { intros l Hl. apply (pinv_notify _ Hinv). simpl. rewrite Hl in Hti.
    by eapply list_elem_of_lookup_2. }
  exists (p', <[i := ctrl_token t'.1]> ts). split; [by eapply psteps_sys|].
  split; simpl; [done|]. by rewrite Hts, list_fmap_insert.
Qed.

(** A [get] that throws leaves all of the state but the value. *)
Lemma interrupted_get_keeps e torn (s s' : sstate D) r :
  SharedState.interrupted_get e torn s = Some (s', r) →
  continuation_ s' = continuation_ s ∧ current_state_ s' = current_state_ s ∧
  exception_ s' = exception_ s.
Proof.
  unfold SharedState.interrupted_get. destruct (get torn s) as [[[s1 v]|e1|m|x]|] eqn:Hg;
    intros Heq; simplify_eq/=; try done.
  pose proof (get_keeps _ _ _ Hg) as [Hk Hc]. simpl in *. split_and!; [done|done|].
  unfold get in Hg. cases. by destruct (buffer_ s); simplify_eq/=.
Qed.

Lemma interrupted_simulated c c' s :
  config_rel c s → interrupted c c' → config_rel c' s.
Proof.
  intros [Hr Hts] Hi.
  assert (∀ ts i k k' (fs : list (frame D)), s.2 = (λ t : thread D, ctrl_token t.1) <$> ts →
    ts !! i = Some (k, fs) → ctrl_token k' = ctrl_token k →
    s.2 = (λ t, ctrl_token t.1) <$> <[i := (k', fs)]> ts) as Htok.
  { intros ts i k k' fs Hs Hk Heq. rewrite list_fmap_insert, Hs. simpl. rewrite Heq.
    symmetry. apply list_insert_id. etrans; [apply list_lookup_fmap|].
    exact (f_equal (fmap (λ t : thread D, ctrl_token t.1)) Hk). }
  destruct Hi as [w ts i l v fs s0 e e' _ Hi Hl He|w ts i l fs s0 e torn s' e' _ Hi Hl He];
    simpl in *; (split; [|by eapply Htok]); [done|].
  destruct (interrupted_get_keeps _ _ _ _ _ He) as (? & ? & _). by eapply rel_set_heap.
Qed.

Lemma throwing_simulated bodies c :
  throwing_reachable moved_data bodies c →
  ∃ s, rtc psys_step (pinit (length bodies)) s ∧ config_rel c s.
Proof.
  unfold throwing_reachable. intros Hr.
  assert (∀ c0 s0, rtc (throwing_step moved_data) c0 c → config_rel c0 s0 → pinv s0 →
    ∃ s, rtc psys_step s0 s ∧ config_rel c s) as Hgen.
  { clear Hr. intros c0 s0 Hs. revert s0. induction Hs as [c0|c0 c1 c2 H1 _ IH]; intros s0 Hrel Hinv.
    - by exists s0.
    - assert (∃ s1, rtc psys_step s0 s1 ∧ config_rel c1 s1) as (s1 & Hs1 & Hrel1).
      { destruct H1; [by eapply step_simulated|].
        exists s0. split; [apply rtc_refl|by eapply interrupted_simulated]. }
      destruct (IH s1 Hrel1) as (s2 & Hs2 & ?); [by eapply pinv_rtc|].
      exists s2. split; [by etrans|done]. }
  apply (Hgen _ (pinit (length bodies)) Hr); [|apply pinv_init].
  split; simpl.
  - split; simpl; [|done..]. intros l. rewrite !lookup_empty. constructor.
  - clear. induction bodies as [|b bs IH]; simpl; [done|]. f_equal. exact IH.
Qed.

Lemma throwing_pinv bodies c :
  throwing_reachable moved_data bodies c → ∃ s, config_rel c s ∧ pinv s.
Proof.
  intros Hr. apply throwing_simulated in Hr as (s & Hs & Hrel).
  exists s. split; [done|]. eapply pinv_rtc; [done|]. apply pinv_init.
Qed.
Lemma reachable_pinv bodies c :
  reachable moved_data bodies c → ∃ s, config_rel c s ∧ pinv s.
Proof. intros Hr. by eapply throwing_pinv, steps_throwing. Qed.

(** *** The [output] pointer of a continuation is not used after its reset *)

Definition resets (fs : list (frame D)) : list nat :=
  omap (λ f, match f with FOutputReset k => Some k | _ => None end) fs.

(** The events stay, and an [output.reset()] is due or done only for a continuation
    that has started. *)
Record spent_inv c : Prop := {
  spent_done : ∀ k, k ∈ spent c.1 → EExecute k ∈ log c.1;
  spent_due : ∀ t k, t ∈ c.2 → k ∈ resets t.2 → EExecute k ∈ log c.1;
}.

Lemma resets_app fs1 fs2 : resets (fs1 ++ fs2) = resets fs1 ++ resets fs2.
Proof. apply omap_app. Qed.

Lemma resets_cons f fs x : x ∈ resets [f] ∨ x ∈ resets fs → x ∈ resets (f :: fs).
Proof.
  assert (resets (f :: fs) = resets [f] ++ resets fs) as -> by apply (resets_app [f] fs).
  by rewrite elem_of_app.
Qed.

Ltac option_cases :=
  unfold returns in *; simplify_eq/=;
  repeat (first [case_match
                |match goal with
                 | H : (?m ≫= _) = Some _ |- _ => destruct m eqn:?
                 | H : (_ <$> _) = Some _ |- _ => apply fmap_Some in H as (? & ? & ?)
                 end];
          unfold returns in *; simplify_eq/=).

Lemma ctrl_step_spent w k w' k' fs :
  ctrl_step moved_data w k = Some (w', k', fs) →
  (∀ e, e ∈ log w → e ∈ log w') ∧ spent w' = spent w ∧
  (∀ x, x ∈ resets fs → EExecute x ∈ log w').
Proof.
  intros Heq. destruct k; simpl in Heq;
    unfold do_set_value, do_set_exception, do_abandon, do_notify, do_set_continuation,
      do_get, do_wait, do_cancel, do_cancel_test, do_execute, at_state, on_cxx, satisfied,
      no_frames, returns, void_reply in Heq.
  1: { destruct p as [v|e|c k]; simplify_eq/=; [set_solver..|].
       destruct c; simpl in Heq;
       unfold promise_assign, promise_destroy, promise_get_future, promise_set_value,
         promise_set_exception, future_is_ready, future_wait, future_wait_for, future_get,
         future_cancel, future_then, check_valid, at_state, on_cxx, returns,
         make_continuation, void_reply in Heq;
       option_cases; set_solver. }
  all: option_cases; set_solver.
Qed.

Lemma resume_spent w f r w' k' fs :
  resume f r w = Some (w', k', fs) →
  (∀ e, e ∈ log w → e ∈ log w') ∧
  (∀ x, x ∈ spent w' → x ∈ spent w ∨ x ∈ resets [f]) ∧ resets fs = [].
Proof.
  destruct f, r; simpl; intros Heq;
    unfold then_impl, output_reset, cancel_done, unwrap, delegate_catch, at_state, void_reply in Heq;
    option_cases; set_solver.
Qed.

Lemma spent_step c c' : step moved_data c c' → spent_inv c → spent_inv c'.
Proof.
  intros [i Hi] [Hd Hu]. apply config_step_inv in Hi as (_ & t & w' & t' & Ht & Hs & ->).
  destruct t as [k fs]. pose proof (list_elem_of_lookup_2 _ _ _ Ht) as Hin.
  assert ((∀ e, e ∈ log c.1 → e ∈ log w') ∧ (∀ x, x ∈ spent w' → EExecute x ∈ log w') ∧
    (∀ x, x ∈ resets t'.2 → EExecute x ∈ log w')) as (Hl & Hsp & Hrs).
  { assert (('(w1, k1, fs1) ← ctrl_step moved_data c.1 k; Some (w1, (k1, fs1 ++ fs))) = Some (w', t') →
      (∀ e, e ∈ log c.1 → e ∈ log w') ∧ (∀ x, x ∈ spent w' → EExecute x ∈ log w') ∧
      (∀ x, x ∈ resets t'.2 → EExecute x ∈ log w')) as Hgen.
    { destruct (ctrl_step moved_data c.1 k) as [[[w1 k1] fs1]|] eqn:Hc; intros; simplify_eq/=.
      apply ctrl_step_spent in Hc as (H1 & H2 & H3). split_and!; [done|rewrite H2; auto|].
      intros x. rewrite resets_app. intros [?|?]%elem_of_app; eauto. }
    destruct k; try exact (Hgen Hs). clear Hgen. destruct fs as [|f fs]; [done|]. simpl in Hs.
    destruct (resume f r c.1) as [[[w1 k1] fs1]|] eqn:Hc; simplify_eq/=.
    apply resume_spent in Hc as (H1 & H2 & H3). split_and!; [done|..].
    - intros x [?|Hx]%H2; [by auto|]. apply H1, (Hu _ x Hin), resets_cons. by left.
    - intros x. rewrite resets_app, H3. simpl. intros Hx. apply H1, (Hu _ x Hin), resets_cons.
      by right. }
  split; simpl; [done|]. intros u x Hu' Hx.
  destruct (elem_of_insert_other _ _ _ _ _ Ht Hu') as [->|?]; eauto.
Qed.

Lemma reachable_spent bodies c : reachable moved_data bodies c → spent_inv c.
Proof.
  unfold reachable. intros Hr.
  assert (spent_inv (init bodies)) as H0.
  { split; simpl; [set_solver|]. intros t k (b & -> & _)%list_elem_of_fmap. simpl. set_solver. }
  revert H0. induction Hr; eauto using spent_step.
Qed.

(** *** Satisfied states do not change *)

Definition keeps (s s' : sstate D) : Prop :=
  (current_state_ s ≠ not_ready →
     current_state_ s' = current_state_ s ∧ exception_ s' = exception_ s) ∧
  (∀ k, continuation_ s = Some k → continuation_ s' = Some k).
Definition state_stable (h h' : gmap nat (sstate D)) : Prop :=
  ∀ l s, h !! l = Some s → ∃ s', h' !! l = Some s' ∧ keeps s s'.

Lemma keeps_refl s : keeps s s.
Proof. by split. Qed.

Lemma keeps_trans s1 s2 s3 : keeps s1 s2 → keeps s2 s3 → keeps s1 s3.
Proof.
  intros [H1 K1] [H2 K2]. split; [|auto]. intros Hn. destruct (H1 Hn) as [Hc Hx].
  rewrite <- Hc, <- Hx. apply H2. by rewrite Hc.
Qed.

Lemma state_stable_refl h : state_stable h h.
Proof. intros l s Hl. eauto using keeps_refl. Qed.

Lemma state_stable_trans h1 h2 h3 :
  state_stable h1 h2 → state_stable h2 h3 → state_stable h1 h3.
Proof.
  intros H1 H2 l s Hl. destruct (H1 l s Hl) as (s2 & Hl2 & ?).
  destruct (H2 l s2 Hl2) as (s3 & Hl3 & ?). eauto using keeps_trans.
Qed.

Lemma state_stable_insert h l s s' :
  h !! l = Some s → keeps s s' → state_stable h (<[l := s']> h).
Proof.
  intros Hl Hk l' s0 Hl'. destruct (decide (l' = l)) as [->|].
  - rewrite lookup_insert_eq. simplify_eq. eauto.
  - rewrite lookup_insert_ne by done. eauto using keeps_refl.
Qed.

Lemma state_stable_new h l s : h !! l = None → state_stable h (<[l := s]> h).
Proof.
  intros Hl l' s0 Hl'. rewrite lookup_insert_ne by congruence. eauto using keeps_refl.
Qed.

Lemma keeps_changed s s' :
  current_state_ s = not_ready → continuation_ s' = continuation_ s → keeps s s'.
Proof. intros Hs Hk. split; [done|]. by rewrite Hk. Qed.

Lemma get_keeps_outcome mv (s : sstate D) r :
  get mv s = Some (Ret r) → keeps s r.1.
Proof. unfold get. intros Heq. cases. destruct (buffer_ s); by simplify_eq/=. Qed.

Lemma do_set_value_stable l v w : state_stable (heap w) (heap (do_set_value l v w).1).
Proof.
  unfold do_set_value, at_state. destruct (heap w !! l) as [s|] eqn:Hl;
    [|apply state_stable_refl].
  destruct (set_value v s) as [r| | |] eqn:Hs; try apply state_stable_refl. simpl.
  destruct (satisfies_value _ _ _ Hs) as (? & _ & ? & _).
  destruct r as [s' []]; simpl in *; (eapply state_stable_insert; [done|]);
    by apply keeps_changed.
Qed.

Lemma do_set_exception_stable l ex w : state_stable (heap w) (heap (do_set_exception l ex w).1).
Proof.
  unfold do_set_exception, at_state. destruct (heap w !! l) as [s|] eqn:Hl;
    [|apply state_stable_refl].
  destruct (set_exception ex s) as [r| | |] eqn:Hs; try apply state_stable_refl. simpl.
  destruct (satisfies_exception _ _ _ Hs) as (? & _ & ? & _).
  destruct r as [s' []]; simpl in *; (eapply state_stable_insert; [done|]);
    by apply keeps_changed.
Qed.

Lemma do_abandon_stable l w : state_stable (heap w) (heap (do_abandon l w).1).
Proof.
  unfold do_abandon, at_state. destruct (heap w !! l) as [s|] eqn:Hl; [|apply state_stable_refl].
  destruct (abandon s) as [r| | |] eqn:Hs; try apply state_stable_refl. simpl.
  destruct (abandon_cases _ _ Hs) as [[-> _]|(? & _ & ? & Hn)]; [apply state_stable_refl|].
  destruct r as [s' []]; simpl in *; simplify_eq.
  eapply state_stable_insert; [done|]. by apply keeps_changed.
Qed.

Lemma do_set_continuation_stable l (k : continuation D) w :
  state_stable (heap w) (heap (do_set_continuation l k w).1).
Proof.
  unfold do_set_continuation, at_state. destruct (heap w !! l) as [s|] eqn:Hl;
    [|apply state_stable_refl].
  destruct (set_continuation k s) as [r| | |] eqn:Hs; try apply state_stable_refl. simpl.
  destruct (set_continuation_cases _ _ _ Hs) as (Hk & [[-> _]|(? & _ & ? & Hn)]);
    [apply state_stable_refl|].
  destruct r as [s' []]; simpl in *; simplify_eq. eapply state_stable_insert; [done|]. split; [done|]. by rewrite Hk.
Qed.

Lemma do_get_stable l w r : do_get moved_data l w = Some r → state_stable (heap w) (heap r.1).
Proof.
  unfold do_get. destruct (heap w !! l) as [s|] eqn:Hl; intros Heq; simplify_eq/=;
    [|apply state_stable_refl].
  destruct (get _ s) as [m|] eqn:Hg; simplify_eq/=.
  destruct m as [x| | |]; simpl; try apply state_stable_refl.
  eapply state_stable_insert; [done|]. by eapply get_keeps_outcome.
Qed.

Lemma make_continuation_stable l b w w' k :
  heap w !! next w = None → make_continuation l b w = Some (w', k) →
  state_stable (heap w) (heap w').
Proof.
  unfold make_continuation. intros Hn Heq. destruct (heap w !! l) as [s|] eqn:Hl; simplify_eq/=.
  apply (state_stable_trans _ (<[l := (release_cancellation_callback s).2]> (heap w))).
  - by eapply state_stable_insert.
  - apply state_stable_new. destruct (decide (next w = l)) as [<-|]; [by simplify_eq|].
    by rewrite lookup_insert_ne.
Qed.

Lemma do_call_stable k w r :
  heap w !! next w = None → do_call k w = r → state_stable (heap w) (heap r.1.1).
Proof.
  intros Hn <-. destruct k; simpl; try apply state_stable_refl.
  - by apply state_stable_new.
  - unfold promise_assign. case_match; apply state_stable_refl.
  - unfold promise_destroy. case_match; apply state_stable_refl.
  - unfold promise_get_future, on_cxx, mark_retrieved, ThrowFutureError.
    destruct (handle p w) as [l|]; simpl; [|case_match; apply state_stable_refl].
    destruct (heap w !! l) as [s|] eqn:Hl; repeat case_match; simplify_eq/=;
      try apply state_stable_refl.
    by eapply state_stable_insert.
  - unfold promise_set_value, ThrowFutureError. repeat case_match; apply state_stable_refl.
  - unfold promise_set_exception, ThrowFutureError. repeat case_match; apply state_stable_refl.
  - unfold future_is_ready, check_valid, at_state, ThrowFutureError.
    repeat case_match; apply state_stable_refl.
  - unfold future_wait, check_valid, ThrowFutureError. repeat case_match; apply state_stable_refl.
  - unfold future_wait_for, check_valid, at_state, ThrowFutureError.
    repeat case_match; apply state_stable_refl.
  - unfold future_get, check_valid, ThrowFutureError. repeat case_match; apply state_stable_refl.
  - unfold future_cancel. case_match; apply state_stable_refl.
  - unfold future_then, check_valid, ThrowFutureError.
    destruct (handle f w) as [l|]; [|repeat case_match; apply state_stable_refl].
    destruct (make_continuation _ _ _) as [[w' c]|] eqn:Hc; [|apply state_stable_refl].
    by eapply make_continuation_stable.
Qed.

Lemma ctrl_step_stable w k x :
  heap w !! next w = None → ctrl_step moved_data w k = Some x →
  state_stable (heap w) (heap x.1.1).
Proof.
  intros Hn Heq. destruct k; simpl in *; simplify_eq/=.
  - destruct p as [v|e|k kk]; simplify_eq/=; try apply state_stable_refl.
    destruct (do_call k w) as [[w' c'] fs] eqn:Hc. simplify_eq/=.
    apply (do_call_stable _ _ _ Hn Hc).
  - apply do_set_value_stable.
  - apply do_set_exception_stable.
  - apply do_abandon_stable.
  - unfold do_notify, at_state. repeat case_match; apply state_stable_refl.
  - apply do_set_continuation_stable.
  - unfold do_execute. simpl. destruct (heap w !! input c); [|apply state_stable_refl].
    case_decide; [apply state_stable_refl|]. destruct (body c); apply state_stable_refl.
  - apply fmap_Some in Heq as (y & Hy & ->). by eapply do_get_stable.
  - apply fmap_Some in Heq as (y & Hy & ->). unfold do_wait in Hy.
    option_cases; apply state_stable_refl.
  - unfold do_cancel, at_state. repeat case_match; apply state_stable_refl.
  - unfold do_cancel_test. repeat case_match; apply state_stable_refl.
Qed.

Lemma resume_stable w f r x :
  resume f r w = Some x → state_stable (heap w) (heap x.1.1).
Proof.
  intros Heq. destruct f, r; simpl in Heq; simplify_eq/=; unfold delegate_catch;
    try apply state_stable_refl; try (case_match; apply state_stable_refl).
  - destruct v as [| | | |[]|]; simplify_eq/=; apply state_stable_refl.
  - unfold cancel_done, at_state. destruct (heap w !! l) as [s|] eqn:Hl; [|apply state_stable_refl].
    by eapply state_stable_insert.
Qed.

Lemma step_stable c c' :
  (∀ l, is_Some (heap c.1 !! l) → l < next c.1) → step moved_data c c' →
  state_stable (heap c.1) (heap c'.1).
Proof.
  intros Hd [i Hi]. apply config_step_inv in Hi as (_ & [k fs] & w' & t' & _ & Hs & ->). simpl.
  assert (heap c.1 !! next c.1 = None) as Hn.
  { apply eq_None_not_Some. intros Hx%Hd. lia. }
  assert (('(w1, k1, fs1) ← ctrl_step moved_data c.1 k; Some (w1, (k1, fs1 ++ fs))) = Some (w', t') →
    state_stable (heap c.1) (heap w')) as Hgen.
  { destruct (ctrl_step moved_data c.1 k) as [[[w1 k1] fs1]|] eqn:Hc; intros; simplify_eq/=.
    apply (ctrl_step_stable _ _ _ Hn Hc). }
  destruct k; try exact (Hgen Hs). destruct fs as [|f fs]; [done|]. simpl in Hs.
  destruct (resume f r c.1) as [[[w1 k1] fs1]|] eqn:Hc; simplify_eq/=.
  apply (resume_stable _ _ _ _ Hc).
Qed.

Lemma interrupted_stable c c' : interrupted c c' → state_stable (heap c.1) (heap c'.1).
Proof.
  destruct 1 as [|w ts i l fs s0 e torn s' e' _ _ Hl He]; simpl; [apply state_stable_refl|].
  destruct (interrupted_get_keeps _ _ _ _ _ He) as (Hk & Hc & Hx).
  eapply state_stable_insert; [done|]. split; [by rewrite Hc, Hx|by rewrite Hk].
Qed.

Lemma throwing_dom bodies c :
  throwing_reachable moved_data bodies c → ∀ l, is_Some (heap c.1 !! l) → l < next c.1.
Proof.
  intros Hr l [s Hl]. destruct (throwing_pinv _ _ Hr) as (ps & [Hrel _] & Hinv).
  destruct (rel_lookup _ _ _ _ Hrel Hl) as (sh & Hsh & _).
  rewrite <- (rel_next _ _ Hrel). apply (pinv_dom _ Hinv). eauto.
Qed.
Lemma reachable_dom bodies c :
  reachable moved_data bodies c → ∀ l, is_Some (heap c.1 !! l) → l < next c.1.
Proof. intros Hr. by eapply throwing_dom, steps_throwing. Qed.

Lemma run_rtc sched c c' : run moved_data sched c = Some c' → rtc (step moved_data) c c'.
Proof.
  revert c. induction sched as [|i sched IH]; intros c Hr; simplify_eq/=; [done|].
  destruct (config_step moved_data i c) as [c1|] eqn:Hs; simplify_eq/=.
  eapply rtc_l; [by exists i|]. by apply IH.
Qed.

Lemma quiescent_settled c (t : thread D) :
  quiescent moved_data c → existsb halted c.2 = false → t ∈ c.2 →
  ctrl_token t.1 = TNone.
Proof.
  intros Hq Hh Ht. apply list_elem_of_lookup in Ht as [i Hi]. specialize (Hq i).
  unfold config_step in Hq. rewrite Hh, Hi in Hq. simpl in Hq.
  destruct t as [k fs]. destruct k; simpl in *; try done.
  - destruct (do_notify l c.1); done.
  - destruct (do_set_continuation l c0 c.1); done.
  - destruct (do_execute c0 c.1) as [[]]; done.
Qed.
End interleavings.

(** A program for the witnesses: attach a continuation, satisfy the promise, get the
    result. *)
Definition then_set_get {D} (functor : nat → prog D) (v : val D) : prog D :=
  PCall (NewPromise (PRet VVoid)) (with_handle (λ p,
  PCall (PromiseGetFuture p) (with_handle (λ f,
  PCall (FutureThen false f functor) (with_handle (λ g,
  PCall (PromiseSetValue p v) (with_value (λ _,
  PCall (FutureGet g) reply_with)))))))).

(** The functor that passes the value on. *)
Definition get_functor {D} (f : nat) : prog D := PCall (FutureGet f) reply_with.

Definition example_bodies : list (prog nat) := [then_set_get get_functor (VData 5)].
Definition example_after (n : nat) : option (config nat) :=
  run (H := example_build) id (replicate n 0) (init example_bodies).
(** The thread is about to run the continuation. *)
Definition example_notify : config nat :=
  Eval vm_compute in default (init example_bodies) (example_after 10).
(** The thread has finished. *)
Definition example_done : config nat :=
  Eval vm_compute in default (init example_bodies) (example_after 25).

Lemma example_notify_reachable :
  reachable (H := example_build) id example_bodies example_notify.
Proof. apply (run_rtc (H := example_build) id (replicate 10 0)). vm_compute. reflexivity. Qed.

Lemma example_notify_done : rtc (step (H := example_build) id) example_notify example_done.
Proof. apply (run_rtc (H := example_build) id (replicate 15 0)). vm_compute. reflexivity. Qed.

Lemma example_done_reachable :
  reachable (H := example_build) id example_bodies example_done.
Proof. unfold reachable. etrans; [apply example_notify_reachable|apply example_notify_done]. Qed.

Lemma example_done_quiescent : quiescent (H := example_build) id example_done.
Proof. intros [|[|i]]; vm_compute; reflexivity. Qed.

(** The same program when the result of the functor cannot be moved into the output: the
    exception is stored there, and [get()] throws it. *)
Definition example_throws : config nat :=
  Eval vm_compute in
    let c := default (init example_bodies) (example_after 17) in
    (c.1, (λ t : thread nat, (Reply (Raised (application_error "move")), t.2)) <$> c.2).
Definition example_caught : config nat :=
  Eval vm_compute in
    default (init example_bodies) (run (H := example_build) id (replicate 8 0) example_throws).

Lemma example_caught_reachable :
  throwing_reachable (H := example_build) id example_bodies example_caught.
Proof.
  assert (∃ c, example_after 17 = Some c ∧ interrupted (H := example_build) c example_throws)
    as (c & Hc & Hi).
  { eexists. split; [vm_compute; reflexivity|].
    match goal with |- interrupted ?c _ =>
      change example_throws with (c.1, <[0 := (Reply (Raised (application_error "move")),
        default [] (snd <$> c.2 !! 0))]> c.2)
    end.
    eapply (interrupted_set _ _ 0 _ _ _ _ (application_error "move"));
      [reflexivity|reflexivity|vm_compute; reflexivity|reflexivity]. }
  unfold throwing_reachable. etrans; [by eapply steps_throwing, run_rtc|].
  eapply rtc_l; [by right|]. apply steps_throwing, (run_rtc _ (replicate 8 0)).
  vm_compute. reflexivity.
Qed.
Lemma example_caught_quiescent : quiescent (H := example_build) id example_caught.
Proof. intros [|[|i]]; vm_compute; reflexivity. Qed.

(** ** Properties *)
Section properties.
Context {D : Type} `{Build} (moved_data : D → D).
Implicit Types (c : config D) (bodies : list (prog D)).

(** C3: every execution of every program, with any number of threads, every
    interleaving of their critical sections and values whose move constructors throw, is an execution of the continuation
    protocol, in which attaching, satisfying, abandoning and running a continuation
    are the only actions on a shared state. *)
Theorem machine_refines_protocol bodies c :
  throwing_reachable moved_data bodies c →
  ∃ s, rtc psys_step (pinit (length bodies)) s ∧ config_rel c s.
Proof. apply throwing_simulated. Qed.

(** C2: in every interleaving of every program, also when moving a value throws in
    [set_value] or [get], a continuation is executed at most once, a shared state is satisfied or abandoned at most once in total, and not
    before that is it ready. *)
Theorem continuation_at_most_once bodies c :
  throwing_reachable moved_data bodies c →
  (∀ k, count (EExecute k) (log c.1) ≤ 1) ∧
  (∀ l s, heap c.1 !! l = Some s →
     count (ESatisfied l) (log c.1) + count (EAbandoned l) (log c.1)
     = if is_ready s then 1 else 0).
Proof.
  intros Hr. destruct (throwing_pinv _ _ _ Hr) as ([p ts] & [Hrel _] & Hinv). simpl in *.
  rewrite <- (rel_log _ _ Hrel). split.
  - intros k. pose proof (pinv_rights _ Hinv k) as Hk.
    pose proof (rights_le k (p, ts)). simpl in *. case_decide; lia.
  - intros l s Hl. destruct (rel_lookup _ _ _ _ Hrel Hl) as ([a rd] & Hsh & _ & Hrd).
    pose proof (pinv_satisfied _ Hinv l) as Hs. pose proof (pinv_abandoned _ Hinv l) as Ha.
    simpl in *. rewrite Hs, Ha, Hsh. simpl.
    destruct (is_ready s) eqn:He; unfold is_ready in He;
      [apply is_ready_true in He|apply is_ready_false in He]; destruct rd; naive_solver.
Qed.

(** C1: once no thread can make a step, a continuation attached to a shared state has
    run exactly once if the state was satisfied by [set_value] or [set_exception],
    and never if the state is still not ready or was abandoned by the promise's
    destructor: whatever the interleaving and wherever
    moving a value throws, no continuation is lost or run early. *)
Theorem continuation_runs_iff_satisfied bodies c l s k :
  throwing_reachable moved_data bodies c → quiescent moved_data c → existsb halted c.2 = false →
  heap c.1 !! l = Some s → continuation_ s = Some k →
  count (EExecute (kid k)) (log c.1) = count (ESatisfied l) (log c.1) ∧
  count (ESatisfied l) (log c.1) + count (EAbandoned l) (log c.1)
  = if is_ready s then 1 else 0.
Proof.
  intros Hr Hq Hh Hl Hk.
  destruct (throwing_pinv _ _ _ Hr) as ([p ts] & [Hrel Hts] & Hinv). simpl in *.
  destruct (rel_lookup _ _ _ _ Hrel Hl) as ([a rd] & Hsh & Ha & Hrd). simpl in *.
  rewrite Hk in Ha. simpl in Ha. subst a.
  rewrite <- (rel_log _ _ Hrel). split.
  - assert (∀ t, t ∈ ts → t = TNone) as Hnone.
    { intros t Ht. rewrite Hts in Ht. apply list_elem_of_fmap in Ht as (x & -> & Hx).
      by eapply quiescent_settled. }
    eapply pinv_settled; [done..| |]; intros x Hx; apply Hnone in Hx; done.
  - pose proof (pinv_satisfied _ Hinv l) as Hs. pose proof (pinv_abandoned _ Hinv l) as Hb.
    simpl in *. rewrite Hs, Hb, Hsh. simpl.
    destruct (is_ready s) eqn:He; unfold is_ready in He;
      [apply is_ready_true in He|apply is_ready_false in He]; destruct rd; naive_solver.
Qed.

(** The pointers that [notify_now] and [execute] follow without a test are never
    null: when a thread is about to run the continuation of a state there is one, and
    when it executes a continuation the [output] has not been reset. *)
Lemma continuation_pointers_valid bodies c i k fs :
  reachable moved_data bodies c → c.2 !! i = Some (k, fs) →
  (∀ l, k = Notify l → ∃ x, do_notify l c.1 = (c.1, Execute x)) ∧
  (∀ x, k = Execute x → kid x ∉ spent c.1).
Proof.
  intros Hr Hi. destruct (reachable_pinv _ _ _ Hr) as ([p ts] & [Hrel Hts] & Hinv).
  pose proof (reachable_spent _ _ _ Hr) as [Hsp _]. simpl in *.
  assert (ctrl_token k ∈ ts) as Hin.
  { rewrite Hts. apply list_elem_of_fmap. exists (k, fs). split; [done|].
    by eapply list_elem_of_lookup_2. }
  split.
  - intros l ->. destruct (pinv_notify _ Hinv l Hin) as [x Hx]. simpl in *.
    destruct (rel_lookup_shape _ _ _ _ Hrel Hx) as (s & Hl & Ha & _).
    unfold do_notify, at_state. rewrite Hl.
    destruct (continuation_ s) as [x'|]; simplify_eq/=. eauto.
  - intros x -> Hk%Hsp. pose proof (pinv_rights _ Hinv (kid x)) as Hc.
    unfold rights in Hc. simpl in *. rewrite (rel_log _ _ Hrel) in Hc.
    apply count_elem_of in Hk. apply list_elem_of_lookup in Hin as [j Hj].
    pose proof (sum_list_with_lookup_le (token_right (kid x) (shapes p)) _ _ _ Hj) as Ht.
    simpl in Ht. rewrite decide_True in Ht by done. case_decide; lia.
Qed.

(** C5: a satisfied state is final: whatever the threads of the program do next, also
    when moving its value throws, it keeps its readiness and its exception, and an attached continuation stays. *)
Theorem satisfied_state_final bodies c c' l s :
  throwing_reachable moved_data bodies c → rtc (throwing_step moved_data) c c' →
  heap c.1 !! l = Some s →
  ∃ s', heap c'.1 !! l = Some s' ∧
    (is_ready s → current_state_ s' = current_state_ s ∧ exception_ s' = exception_ s) ∧
    (∀ k, continuation_ s = Some k → continuation_ s' = Some k).
Proof.
  intros Hr Hs Hl.
  assert (state_stable (heap c.1) (heap c'.1)) as Hst.
  { clear Hl. induction Hs as [|c c1 c2 H1 _ IH]; [apply state_stable_refl|].
    eapply state_stable_trans; [|apply IH; by eapply rtc_r].
    destruct H1 as [H1|H1]; [|by apply interrupted_stable].
    eapply step_stable; [|done]. by eapply throwing_dom. }
  destruct (Hst l s Hl) as (s' & Hl' & Hs' & Hk). exists s'. split; [done|]. split; [|done].
  intros Hrd. apply Hs'. unfold is_ready in Hrd. apply is_ready_true.
  by destruct (is_ready_unlocked s).
Qed.
End properties.

Lemma machine_refines_protocol_witness :
  ∃ s, rtc psys_step (pinit 1) s ∧ config_rel example_done s.
Proof.
  exact (machine_refines_protocol (H := example_build) id example_bodies _
    (steps_throwing _ _ _ example_done_reachable)).
Defined.

Lemma continuation_at_most_once_witness :
  example_caught.2 = [(Reply (Raised (application_error "move")), [])] ∧
  count (EExecute 4) (log example_caught.1) ≤ 1.
Proof.
  split; [reflexivity|].
  apply (continuation_at_most_once (H := example_build) id example_bodies).
  exact example_caught_reachable.
Defined.

Lemma continuation_runs_iff_satisfied_witness :
  count (EExecute 4) (log example_caught.1) = count (ESatisfied 0) (log example_caught.1).
Proof.
  edestruct (continuation_runs_iff_satisfied (H := example_build) id example_bodies
    example_caught 0) as [He _].
  - exact example_caught_reachable.
  - exact example_caught_quiescent.
  - reflexivity.
  - vm_compute. reflexivity.
  - reflexivity.
  - exact He.
Defined.

Lemma satisfied_state_final_witness :
  ∃ s', heap example_done.1 !! 0 = Some s' ∧ current_state_ s' = has_value.
Proof.
  edestruct (satisfied_state_final (H := example_build) id example_bodies
    example_notify example_done 0) as (s' & Hs' & Hk & _).
  - exact (steps_throwing _ _ _ example_notify_reachable).
  - exact (steps_throwing _ _ _ example_notify_done).
  - vm_compute. reflexivity.
  - exists s'. split; [exact Hs'|]. destruct (Hk I) as [-> _]. reflexivity.
Defined.
