(* ===== verification/FutureThen.v ===== *)
(** * [then()] in every interleaving

    Two threads share a promise and its future: one satisfies the promise, the other
    attaches a continuation.  [explore] runs all interleavings of a configuration to
    the end; the theorems say what the future returned by [then()] holds in each of
    them, for every value and functor result. *)

From S2P Require Import Prelude Status Throw SharedState Futures FutureProtocol FutureSafety.

(** ** Exhaustive exploration *)
Section explore.
Context {D O : Type} `{Build} (moved_data : D → D) (observe : config D → list O).

Definition successors (c : config D) : list (config D) :=
  omap (λ i, config_step moved_data i c) (seq 0 (length c.2)).

(** What is observed of the configurations without successors that [c] leads to, in
    at most [fuel] steps; [None]: there is a longer execution. *)
Fixpoint explore (fuel : nat) (c : config D) : option (list O) :=
  match successors c, fuel with
  | [], _ => Some (observe c)
  | _, 0 => None
  | cs, S n => mjoin <$> mapM (explore n) cs
  end.

(** The same for the executions that pass through a configuration with [p]. *)
Fixpoint explore_through (p : config D → bool) (fuel : nat) (c : config D) : option (list O) :=
  if p c then explore fuel c else
  match successors c, fuel with
  | [], _ => Some []
  | _, 0 => None
  | cs, S n => mjoin <$> mapM (explore_through p n) cs
  end.
End explore.

(** ** Scenarios *)
Section scenarios.
Context {D : Type}.

(** The shared state 0 with a promise (variable 1) and a future (variable 2). *)
Definition shared_world : world D :=
  mkWorld {[0 := mkState true not_ready None None false (Some (PRet VVoid)) None]}
    {[1 := Some 0; 2 := Some 0]} ∅ [] 3.

Definition race (setter attacher : prog D) : config D :=
  (shared_world, [(Run setter, []); (Run attacher, [])]).

Definition value_setter (v : val D) : prog D := PCall (PromiseSetValue 1 v) reply_with.
Definition exception_setter (e : exn) : prog D :=
  PCall (PromiseSetException 1 (Some e)) reply_with.
Definition setter (r : reply D) : prog D :=
  match r with Returned v => value_setter v | Raised e => exception_setter e end.
Definition promise_dropper : prog D := PCall (PromiseDestroy 1) reply_with.
Definition attacher (functor : nat → prog D) : prog D :=
  PCall (FutureThen false 2 functor) reply_with.
(** Calls [then()] and blocks in [get()] on the future that it returns. *)
Definition waiter (functor : nat → prog D) : prog D :=
  PCall (FutureThen false 2 functor) (with_handle (λ x, PCall (FutureGet x) reply_with)).
(** The future is already satisfied, and the functor of the [then()] returns a
    future on shared state 3, which a second promise (variable 4) satisfies. *)
Definition unwrap_world (r : reply D) : world D :=
  mkWorld
    {[0 := match r with
           | Returned v => mkState true has_value None None false (Some (PRet VVoid)) (Some v)
           | Raised e => mkState true has_exception (Some e) None false (Some (PRet VVoid)) None
           end;
      3 := mkState true not_ready None None false (Some (PRet VVoid)) None]}
    {[2 := Some 0; 4 := Some 3; 5 := Some 3]} ∅ [] 6.
Definition inner_setter (v : val D) : prog D := PCall (PromiseSetValue 4 v) reply_with.
Definition inner_exception (e : exn) : prog D :=
  PCall (PromiseSetException 4 (Some e)) reply_with.
Definition unwrap_attacher (functor : nat → prog D) : prog D :=
  PCall (FutureThen true 2 functor) reply_with.
(** What a state holds after [inner_setter] or [inner_exception]. *)
Definition inner (r : reply D) : prog D :=
  match r with Returned v => inner_setter v | Raised e => inner_exception e end.
Definition holding (r : reply D) : state * exception_ptr * Slot.slot (val D) :=
  match r with
  | Returned v => (has_value, None, Some v)
  | Raised e => (has_exception, Some e, None)
  end.
(** Gets its argument and returns the future in variable [y]. *)
Definition returning_future (y : nat) (f : nat) : prog D :=
  PCall (FutureGet f) (λ _, PCall (FutureRelease y) reply_with).
Definition unwrap_race (r : reply D) (setter attacher : prog D) : config D :=
  (unwrap_world r, [(Run setter, []); (Run attacher, [])]).

(** A functor that gets its argument and returns a value computed from it. *)
Definition returning (g : reply D → val D) (f : nat) : prog D :=
  PCall (FutureGet f) (λ r, PRet (g r)).
Definition throwing (g : reply D → exn) (f : nat) : prog D :=
  PCall (FutureGet f) (λ r, PThrow (g r)).
End scenarios.


(** ** What is observed at the end *)
Section observation.
Context {D : Type}.

Record observation := mkObservation {
  setter_reply : option (reply D);
  then_error : option exn;
  then_result : option (state * exception_ptr * Slot.slot (val D));
  executions : nat;
}.

Definition thread_reply (t : thread D) : option (reply D) :=
  match t with (Reply r, []) => Some r | _ => None end.
Definition contents (w : world D) (x : nat) :
    option (state * exception_ptr * Slot.slot (val D)) :=
  l ← handle x w; s ← heap w !! l; Some (current_state_ s, exception_ s, buffer_ s).
Definition is_execute (e : event) : bool := match e with EExecute _ => true | _ => false end.

(** Thread 0 satisfies or drops the promise, thread 1 calls [then()]. *)
Definition observe (c : config D) : observation :=
  let r1 := c.2 !! 1 ≫= thread_reply in
  mkObservation (c.2 !! 0 ≫= thread_reply)
    (match r1 with Some (Raised e) => Some e | _ => None end)
    (match r1 with Some (Returned (VHandle x)) => contents c.1 x | _ => None end)
    (length (filter (λ e, is_execute e) (log c.1))).
Definition replies (c : config D) : list (option (reply D)) := thread_reply <$> c.2.
(** The order of the two critical sections on the shared state 0: it was abandoned and
    has no continuation, or it has one and was not abandoned. *)
Definition destroyed_before_then (c : config D) : bool :=
  bool_decide (EAbandoned 0 ∈ log c.1) &&
  bool_decide ((heap c.1 !! 0) ≫= continuation_ = None).
Definition then_before_destroyed (c : config D) : bool :=
  negb (bool_decide (EAbandoned 0 ∈ log c.1)) &&
  negb (bool_decide ((heap c.1 !! 0) ≫= continuation_ = None)).
Definition then_raised (c : config D) : bool :=
  match c.2 !! 1 ≫= thread_reply with Some (Raised _) => true | _ => false end.
End observation.
Arguments observation : clear implicits.

(** ** A concrete execution

    Each step is made by the first thread of [order] that can make one. *)
Fixpoint drain {D} `{Build} (moved_data : D → D) (fuel : nat) (order : list nat)
    (c : config D) : config D :=
  match fuel with
  | 0 => c
  | S n =>
      match omap (λ i, config_step moved_data i c) order with
      | [] => c
      | c' :: _ => drain moved_data n order c'
      end
  end.

(** ** Lemmas *)
Section lemmas.
Context {D O : Type} `{Build} (moved_data : D → D) (observe : config D → list O).

Lemma successors_spec c c' : step moved_data c c' ↔ c' ∈ successors moved_data c.
Proof.
  unfold successors. rewrite list_elem_of_omap. split.
  - intros [i Hi]. exists i. split; [|done].
    apply config_step_inv in Hi as (_ & t & w' & t' & Ht & _).
    apply elem_of_seq. split; [lia|]. by eapply lookup_lt_Some.
  - intros (i & _ & Hi). by exists i.
Qed.

Lemma quiescent_successors c : quiescent moved_data c → successors moved_data c = [].
Proof.
  intros Hq. apply elem_of_nil_inv. intros c' Hc. apply successors_spec in Hc as [i Hi].
  specialize (Hq i). congruence.
Qed.

Lemma explore_all (f : config D → option (list O)) (cs : list (config D)) c l :
  match cs with [] => Some [] | _ => mjoin <$> mapM f cs end = Some l → c ∈ cs →
  ∃ l', f c = Some l' ∧ l' ⊆ l.
Proof.
  intros He Hs.
  assert (mjoin <$> mapM f cs = Some l) as Hm by (by destruct cs; [inversion Hs|]).
  apply fmap_Some in Hm as (ls & Hm%mapM_Some & ->).
  apply list_elem_of_lookup in Hs as [i Hi].
  destruct (Forall2_lookup_l _ _ _ _ _ Hm Hi) as (l' & Hl' & He').
  exists l'. split; [done|]. intros o Ho. apply list_elem_of_join.
  exists l'. split; [done|by eapply list_elem_of_lookup_2].
Qed.

Lemma explore_successor n c c' l :
  explore moved_data observe (S n) c = Some l → step moved_data c c' →
  ∃ l', explore moved_data observe n c' = Some l' ∧ l' ⊆ l.
Proof.
  intros He Hs%successors_spec. simpl in He.
  apply (explore_all (explore moved_data observe n) (successors moved_data c)); [|done].
  destruct (successors moved_data c); [by inversion Hs|done].
Qed.

(** Every quiescent end of an execution has been observed. *)
Lemma explore_sound n c c' l o :
  explore moved_data observe n c = Some l → rtc (step moved_data) c c' →
  quiescent moved_data c' → o ∈ observe c' → o ∈ l.
Proof.
  intros He Hr Hq Ho. revert n l He. induction Hr as [c|c c1 c' Hs _ IH]; intros n l He.
  - destruct n; simpl in He; rewrite (quiescent_successors c Hq) in He; congruence.
  - destruct n as [|n].
    + apply successors_spec in Hs. simpl in He.
      destruct (successors moved_data c); [by inversion Hs|done].
    + destruct (explore_successor _ _ _ _ He Hs) as (l' & He' & Hl). eauto.
Qed.

Lemma explore_through_start p n c :
  p c = true → explore_through moved_data observe p n c = explore moved_data observe n c.
Proof. intros Hp. destruct n; simpl; by rewrite Hp. Qed.

(** Every end of an execution through a configuration with [p] has been observed. *)
Lemma explore_through_sound p n c c1 c' l o :
  explore_through moved_data observe p n c = Some l → rtc (step moved_data) c c1 →
  p c1 = true → rtc (step moved_data) c1 c' → quiescent moved_data c' →
  o ∈ observe c' → o ∈ l.
Proof.
  intros He Hr Hp Hr' Hq Ho. revert n l He.
  induction Hr as [c|c c2 c1 Hs Hr IH]; intros n l He.
  - rewrite explore_through_start in He; [by eapply explore_sound|done].
  - destruct (p c) eqn:Hpc.
    { rewrite explore_through_start in He; [|done].
      eapply (explore_sound n c); [done|eapply rtc_l; [done|by etrans]|done..]. }
    apply successors_spec in Hs.
    destruct n as [|n]; simpl in He; rewrite Hpc in He.
    + destruct (successors moved_data c); [by inversion Hs|done].
    + destruct (explore_all (explore_through moved_data observe p n)
        (successors moved_data c) c2 l) as (l' & He' & Hl); [|done|eauto].
      by destruct (successors moved_data c).
Qed.

(** No execution is longer than the fuel. *)
Lemma explore_bound n c l sched c' :
  explore moved_data observe n c = Some l → run moved_data sched c = Some c' →
  length sched ≤ n.
Proof.
  revert c l sched. induction n as [|n IH]; intros c l sched He Hr;
    (destruct sched as [|i sched]; [simpl; lia|]); simpl in Hr;
    destruct (config_step moved_data i c) as [c1|] eqn:Hs; simplify_eq/=;
    assert (step moved_data c c1) as Hst by (by exists i).
  - apply successors_spec in Hst. destruct (successors moved_data c);
      [by inversion Hst|done].
  - destruct (explore_successor n c c1 l He Hst) as (l' & He' & _).
    apply le_n_S. by eapply IH.
Qed.
End lemmas.

(** All ends of a configuration, from one observation repeated. *)
Lemma explore_uniform {D O} `{Build} (moved_data : D → D) (obs : config D → O) n m c c' o :
  explore moved_data (λ c, [obs c]) n c = Some (replicate m o) →
  rtc (step moved_data) c c' → quiescent moved_data c' → obs c' = o.
Proof.
  intros He Hr Hq. eapply explore_sound in He; [|done|done|by apply list_elem_of_singleton].
  by apply elem_of_replicate in He as [-> _].
Qed.

(** The same for large explorations: the tree of all executions is the one with [o] at
    every leaf. *)
Inductive executions_tree (O : Type) :=
| End (o : O)
| Branch (l : list (executions_tree O)).
Arguments End {O}.
Arguments Branch {O}.

Fixpoint explore_tree {D O} `{Build} (moved_data : D → D) (obs : config D → O)
    (fuel : nat) (c : config D) : option (executions_tree O) :=
  match successors moved_data c, fuel with
  | [], _ => Some (End (obs c))
  | _, 0 => None
  | cs, S n => Branch <$> mapM (explore_tree moved_data obs n) cs
  end.

Lemma mapM_agree {A B} (f g : A → option B) xs ys x :
  mapM f xs = Some ys → mapM g xs = Some ys → x ∈ xs → ∃ y, f x = Some y ∧ g x = Some y.
Proof.
  intros Hf%mapM_Some Hg%mapM_Some [i Hi]%list_elem_of_lookup.
  destruct (Forall2_lookup_l _ _ _ _ _ Hf Hi) as (y & Hy & ?).
  destruct (Forall2_lookup_l _ _ _ _ _ Hg Hi) as (y' & Hy' & ?). simplify_eq. eauto.
Qed.

Lemma explore_tree_uniform {D O} `{Build} (moved_data : D → D) (obs : config D → O)
    n c c' o t :
  explore_tree moved_data obs n c = Some t →
  explore_tree moved_data (λ _, o) n c = Some t →
  rtc (step moved_data) c c' → quiescent moved_data c' → obs c' = o.
Proof.
  intros Ht Ho Hr Hq. revert n t Ht Ho. induction Hr as [c|c c1 c' Hs _ IH]; intros n t Ht Ho.
  - destruct n; simpl in *; rewrite (quiescent_successors moved_data c Hq) in *; congruence.
  - apply successors_spec in Hs. destruct n as [|n]; simpl in *.
    { destruct (successors moved_data c); [by inversion Hs|done]. }
    assert (∃ ts, mapM (explore_tree moved_data obs n) (successors moved_data c) = Some ts ∧
      mapM (explore_tree moved_data (λ _, o) n) (successors moved_data c) = Some ts)
      as (ts & H1 & H2).
    { destruct (successors moved_data c) as [|c0 cs]; [by inversion Hs|].
      apply fmap_Some in Ht as (ts & Ht & ->), Ho as (ts' & Ho & ?). simplify_eq. eauto. }
    destruct (mapM_agree _ _ _ _ _ H1 H2 Hs) as (t1 & ? & ?). eauto.
Qed.

(** The same for the ends that a test selects. *)
Definition observe_if {D O} (p : config D → bool) (obs : config D → O) (c : config D) : list O :=
  if p c then [obs c] else [].
Lemma explore_uniform_if {D O} `{Build} (moved_data : D → D) p (obs : config D → O) n m c c' o :
  explore moved_data (observe_if p obs) n c = Some (replicate m o) →
  rtc (step moved_data) c c' → quiescent moved_data c' → p c' = true → obs c' = o.
Proof.
  intros He Hr Hq Hp. eapply explore_sound in He; [|done|done|].
  - by apply elem_of_replicate in He as [-> _].
  - unfold observe_if. rewrite Hp. by apply list_elem_of_singleton.
Qed.

Lemma explore_through_uniform {D O} `{Build} (moved_data : D → D) p (obs : config D → O)
    n m c c1 c' o :
  explore_through moved_data (λ c, [obs c]) p n c = Some (replicate m o) →
  rtc (step moved_data) c c1 → p c1 = true → rtc (step moved_data) c1 c' →
  quiescent moved_data c' → obs c' = o.
Proof.
  intros He H1 Hp Hr Hq.
  eapply explore_through_sound in He; [|done..|by apply list_elem_of_singleton].
  by apply elem_of_replicate in He as [-> _].
Qed.

Lemma drain_rtc {D} `{Build} (moved_data : D → D) n order c :
  rtc (step moved_data) c (drain moved_data n order c).
Proof.
  revert c. induction n as [|n IH]; intros c; simpl; [done|].
  destruct (omap _ order) as [|c' cs] eqn:Ho; [done|]. eapply rtc_l; [|apply IH].
  assert (c' ∈ omap (λ i, config_step moved_data i c) order) as Hc by (rewrite Ho; left).
  apply list_elem_of_omap in Hc as (i & _ & Hi). by exists i.
Qed.

Lemma successors_quiescent {D} `{Build} (moved_data : D → D) c :
  successors moved_data c = [] → quiescent moved_data c.
Proof.
  intros Hs i. destruct (config_step moved_data i c) as [c'|] eqn:Hi; [|done].
  assert (c' ∈ successors moved_data c) as Hc by (apply successors_spec; by exists i).
  rewrite Hs in Hc. inversion Hc.
Qed.

Lemma drain_ends {D} `{Build} (moved_data : D → D) n order c :
  successors moved_data (drain moved_data n order c) = [] →
  rtc (step moved_data) c (drain moved_data n order c) ∧
  quiescent moved_data (drain moved_data n order c).
Proof. split; [apply drain_rtc|by apply successors_quiescent]. Qed.

(** The build has exceptions: expose the field for evaluation. *)
Ltac with_exceptions H :=
  match type of H with
  | @have_exceptions ?B = true => destruct B; simpl in H; subst
  end.
Ltac explored m :=
  match goal with
  | Hr : rtc (step _) _ ?c, Hq : quiescent _ ?c |- _ =>
      refine (explore_uniform _ _ 60 m _ _ _ _ Hr Hq); vm_compute; reflexivity
  end.
Ltac explored_tree :=
  match goal with
  | Hr : rtc (step _) _ ?c, Hq : quiescent _ ?c |- _ =>
      refine (explore_tree_uniform _ _ 60 _ _ _ _ _ _ Hr Hq); vm_compute; reflexivity
  end.
(** The ends that the test [p] selects. *)
(** The ends of the executions through a configuration that the test [p] selects. *)
Ltac explored_through p m :=
  match goal with
  | H1 : rtc (step _) _ ?c1, Hr : rtc (step _) ?c1 ?c, Hq : quiescent _ ?c |- _ =>
      intros Hp; refine (explore_through_uniform _ p _ 60 m _ _ _ _ _ H1 Hp Hr Hq);
      vm_compute; reflexivity
  end.
Ltac explored_if p m :=
  match goal with
  | Hr : rtc (step _) _ ?c, Hq : quiescent _ ?c, Hp : _ = true |- _ =>
      refine (explore_uniform_if _ p _ 60 m _ _ _ _ Hr Hq Hp); vm_compute; reflexivity
  end.

(** ** Properties *)
Section properties.
Context {D : Type} (moved_data : D → D).
Abbreviation ends build c c' :=
  (rtc (step (H := build) moved_data) c c' ∧ quiescent (H := build) moved_data c').

Implicit Types (c : config D) (g : reply D → val D) (x : reply D → string) (r : reply D).

(** C6: a thread satisfies the promise, with a value or an exception, while another
    calls [then()] with a functor that gets the future and returns a value computed
    from what it got.  In every interleaving both calls return, the functor runs
    exactly once, and the future returned by [then()] holds its result. *)
Theorem then_delivers_value build r g c' :
  have_exceptions (Build := build) = true →
  ends build (race (setter r) (attacher (returning g))) c' →
  observe c' = mkObservation (Some (Returned VVoid)) None
    (Some (has_value, None, Some (g r))) 1.
Proof. intros Hb [Hr Hq]. with_exceptions Hb. destruct r; explored 2130. Qed.

(** C7: when the functor throws an exception of the application, it is stored in the
    future returned by [then()], in every interleaving; neither thread sees it. *)
Theorem then_delivers_exception build r x c' :
  have_exceptions (Build := build) = true →
  ends build (race (setter r) (attacher (throwing (λ r, application_error (x r))))) c' →
  observe c' = mkObservation (Some (Returned VVoid)) None
    (Some (has_exception, Some (application_error (x r)), None)) 1.
Proof. intros Hb [Hr Hq]. with_exceptions Hb. destruct r; explored 1757. Qed.

(** When the functor throws a [std::future_error] it is not stored: in every
    interleaving it comes out of the call that happened to run the functor, either
    [then()] or [set_value()], and in the second case the future returned by [then()]
    is left unsatisfied. *)
Theorem then_future_error_escapes build r ec c' :
  have_exceptions (Build := build) = true →
  ends build (race (setter r) (attacher (throwing (λ _, future_error ec)))) c' →
  (then_raised c' = true → observe c' =
    mkObservation (Some (Returned VVoid)) (Some (future_error ec)) None 1) ∧
  (negb (then_raised c') = true → observe c' =
    mkObservation (Some (Raised (future_error ec))) None (Some (not_ready, None, None)) 1).
Proof.
  intros Hb [Hr Hq]. with_exceptions Hb. split; intros Hp.
  - destruct r; explored_if (@then_raised D) 247.
  - destruct r; explored_if (λ c : config D, negb (then_raised c)) 1183.
Qed.

(** C9: the promise is destroyed unsatisfied while another thread calls [then()].
    An execution that passes through a configuration where the shared state is
    abandoned and nothing was attached yet ends with the functor run exactly once,
    on the [broken_promise] error, and its result in the future returned by [then()].
    One that passes through a configuration where the continuation is attached and
    the promise not yet destroyed ends with the functor never run and the future
    returned by [then()] unsatisfied.  Every execution ends in one of these ways. *)
Theorem then_abandoned build g c1 c' :
  have_exceptions (Build := build) = true →
  rtc (step (H := build) moved_data) (race promise_dropper (attacher (returning g))) c1 →
  ends build c1 c' →
  let late := mkObservation (Some (Returned VVoid)) None
    (Some (has_value, None, Some (g (Raised (future_error broken_promise))))) 1 in
  let lost := mkObservation (Some (Returned VVoid)) None (Some (not_ready, None, None)) 0 in
  (destroyed_before_then c1 = true → observe c' = late) ∧
  (then_before_destroyed c1 = true → observe c' = lost) ∧
  (observe c' = late ∨ observe c' = lost).
Proof.
  intros Hb H1 [Hr Hq] late lost. with_exceptions Hb. split; [|split].
  - explored_through (@destroyed_before_then D) 330.
  - explored_through (@then_before_destroyed D) 75.
  - pose proof (transitivity H1 Hr) as Hr'.
    destruct (Nat.eqb (executions (observe c')) 0) eqn:He; [right|left].
    + clear Hr. explored_if (λ c : config D, Nat.eqb (executions (observe c)) 0) 75.
    + clear Hr. apply (f_equal negb) in He. change (negb false) with true in He.
      explored_if (λ c : config D, negb (Nat.eqb (executions (observe c)) 0)) 330.
Qed.

(** C8: a functor that returns a future: [then()] unwraps it.  While one thread
    satisfies the inner promise, with a value or an exception of the application,
    another calls [then()]: in every interleaving the future returned by [then()]
    holds what the inner promise was given. *)
Theorem then_unwraps build r0 v what (raise : bool) c' :
  have_exceptions (Build := build) = true →
  let r := if raise then Raised (application_error what) else Returned v in
  ends build (unwrap_race r0 (inner r) (unwrap_attacher (returning_future 5))) c' →
  observe c' = mkObservation (Some (Returned VVoid)) None (Some (holding r)) 2.
Proof.
  intros Hb r [Hr Hq]. with_exceptions Hb. subst r.
  destruct r0, raise; [explored 9251|explored 11001|explored 9251|explored 11001].
Qed.

(** When the functor to unwrap returns an invalid future, the future returned by
    [then()] holds [broken_promise]; when it throws any exception, also a
    [std::future_error], the future returned by [then()] holds that exception. *)
Theorem then_unwraps_errors build r0 v e c' :
  have_exceptions (Build := build) = true →
  (ends build (unwrap_race r0 (inner (Returned v)) (unwrap_attacher (returning_future 7))) c' →
   observe c' = mkObservation (Some (Returned VVoid)) None
     (Some (has_exception, Some (future_error broken_promise), None)) 1) ∧
  (ends build (unwrap_race r0 (inner (Returned v)) (unwrap_attacher (throwing (λ _, e)))) c' →
   observe c' = mkObservation (Some (Returned VVoid)) None
     (Some (has_exception, Some e, None)) 1).
Proof.
  intros Hb. with_exceptions Hb.
  split; intros [Hr Hq]; destruct r0; [explored 3060..|explored 1820|explored 1820].
Qed.

(** An inner promise that is given a [std::future_error] does not reach the
    future returned by [then()], which is left unsatisfied: the error comes out of
    [then()] or of the call that satisfied the inner promise. *)
Theorem then_unwrap_future_error_escapes build r0 ec c' :
  have_exceptions (Build := build) = true →
  ends build (unwrap_race r0 (inner (Raised (future_error ec)))
    (unwrap_attacher (returning_future 5))) c' →
  (then_raised c' = true → observe c' =
    mkObservation (Some (Returned VVoid)) (Some (future_error ec)) None 2) ∧
  (negb (then_raised c') = true → observe c' =
    mkObservation (Some (Raised (future_error ec))) None (Some (not_ready, None, None)) 2).
Proof.
  intros Hb [Hr Hq]. with_exceptions Hb. split; intros Hp.
  - destruct r0; explored_if (@then_raised D) 5665.
  - destruct r0; explored_if (λ c : config D, negb (then_raised c)) 2035.
Qed.

(** C10: one thread satisfies the promise while another calls [then()] and blocks in
    [get()] on the future that it returned.  Every schedule is finite (no execution
    makes more than 60 steps), and when no thread can make a step both calls have
    returned and [get()] gave the result of the functor, or rethrew the exception
    that it threw: there is no deadlock and no lost wake-up or continuation. *)
Theorem then_terminates build r g x (raise : bool) sched c' :
  have_exceptions (Build := build) = true →
  let functor := if raise then throwing (λ r, application_error (x r)) else returning g in
  let result := if raise then Raised (application_error (x r)) else Returned (g r) in
  run (H := build) moved_data sched (race (setter r) (waiter functor)) = Some c' →
  length sched ≤ 60 ∧
  (quiescent (H := build) moved_data c' →
   thread_reply <$> c'.2 = [Some (Returned VVoid); Some result]).
Proof.
  intros Hb functor result Hr. with_exceptions Hb. subst functor result. split.
  - destruct r, raise;
      (eapply (explore_bound _ (λ _, [] : list ())); [|exact Hr]; vm_compute; reflexivity).
  - intros Hq. apply run_rtc in Hr.
    change (replies c' = [Some (Returned VVoid);
      Some (if raise then Raised (application_error (x r)) else Returned (g r))]).
    destruct raise, r; explored_tree.
Qed.
End properties.

(** *** Witnesses *)

(** What is observed when thread 1 runs first and then thread 0. *)
Abbreviation witnessed c := (observe (drain (H := example_build) (id : nat → nat) 60 [1; 0] c)).

Lemma then_delivers_value_witness :
  witnessed (race (setter (Returned (VData 7)))
    (attacher (returning (λ r, match r with Returned v => v | Raised _ => VVoid end))))
  = mkObservation (Some (Returned VVoid)) None (Some (has_value, None, Some (VData 7))) 1.
Proof.
  apply (then_delivers_value id example_build (Returned (VData 7))
    (λ r, match r with Returned v => v | Raised _ => VVoid end)); [reflexivity|].
  apply (drain_ends (H := example_build)). vm_compute. reflexivity.
Defined.

Lemma then_delivers_exception_witness :
  witnessed (race (setter (Returned (VData 7)))
    (attacher (throwing (λ r, application_error "bad"))))
  = mkObservation (Some (Returned VVoid)) None
      (Some (has_exception, Some (application_error "bad"), None)) 1.
Proof.
  apply (then_delivers_exception id example_build (Returned (VData 7)) (λ _, "bad"));
    [reflexivity|].
  apply (drain_ends (H := example_build)). vm_compute. reflexivity.
Defined.

Lemma then_future_error_escapes_witness :
  witnessed (race (setter (Returned (VData 7)))
    (attacher (throwing (λ r, future_error no_state))))
  = mkObservation (Some (Raised (future_error no_state))) None (Some (not_ready, None, None)) 1.
Proof.
  apply (then_future_error_escapes id example_build (Returned (VData 7)) no_state);
    [reflexivity| |vm_compute; reflexivity].
  apply (drain_ends (H := example_build)). vm_compute. reflexivity.
Defined.

(** The first three steps are made by thread [i]. *)
Definition drop_race (i : nat) : config nat :=
  drain (H := example_build) id 3 [i] (race promise_dropper (attacher (returning (λ _, VVoid)))).

Lemma then_abandoned_witness :
  witnessed (drop_race 0) = mkObservation (Some (Returned VVoid)) None
    (Some (has_value, None, Some VVoid)) 1 ∧
  witnessed (drop_race 1) = mkObservation (Some (Returned VVoid)) None
    (Some (not_ready, None, None)) 0.
Proof.
  split; (eapply (then_abandoned id example_build (λ _, VVoid) (drop_race _));
    [reflexivity|apply drain_rtc
    |apply (drain_ends (H := example_build)); vm_compute; reflexivity
    |vm_compute; reflexivity]).
Defined.

Lemma then_unwraps_witness :
  witnessed (unwrap_race (Returned VVoid) (inner (Returned (VData 7)))
    (unwrap_attacher (returning_future 5)))
  = mkObservation (Some (Returned VVoid)) None (Some (has_value, None, Some (VData 7))) 2.
Proof.
  apply (then_unwraps id example_build (Returned VVoid) (VData 7) "" false); [reflexivity|].
  apply (drain_ends (H := example_build)). vm_compute. reflexivity.
Defined.

Lemma then_unwraps_errors_witness :
  witnessed (unwrap_race (Returned VVoid) (inner (Returned (VData 7)))
    (unwrap_attacher (returning_future 7)))
  = mkObservation (Some (Returned VVoid)) None
      (Some (has_exception, Some (future_error broken_promise), None)) 1.
Proof.
  apply (then_unwraps_errors id example_build (Returned VVoid) (VData 7) (application_error ""));
    [reflexivity|].
  apply (drain_ends (H := example_build)). vm_compute. reflexivity.
Defined.

Lemma then_unwrap_future_error_escapes_witness :
  witnessed (unwrap_race (Returned VVoid) (inner (Raised (future_error broken_promise)))
    (unwrap_attacher (returning_future 5)))
  = mkObservation (Some (Raised (future_error broken_promise))) None
      (Some (not_ready, None, None)) 2.
Proof.
  apply (then_unwrap_future_error_escapes id example_build (Returned VVoid) broken_promise);
    [reflexivity| |vm_compute; reflexivity].
  apply (drain_ends (H := example_build)). vm_compute. reflexivity.
Defined.

Lemma then_terminates_witness :
  length (replicate 3 1 ++ replicate 5 0) ≤ 60 ∧
  replies (drain (H := example_build) (id : nat → nat) 60 [1; 0]
    (race (setter (Returned (VData 7))) (waiter (returning (λ _, VBool true)))))
  = [Some (Returned VVoid); Some (Returned (VBool true))].
Proof.
  set (c := race (setter (Returned (VData 7))) (waiter (returning (λ _, VBool true)))).
  assert (∃ c', run (H := example_build) id (replicate 3 1 ++ replicate 5 0) c = Some c')
    as [c1 H1] by (eexists; vm_compute; reflexivity).
  assert (∃ sched, run (H := example_build) id sched c
    = Some (drain (H := example_build) id 60 [1; 0] c)) as [sched H2].
  { exists (replicate 5 1 ++ replicate 10 0 ++ replicate 3 1 ++ replicate 4 0). vm_compute. reflexivity. }
  split.
  - eapply (then_terminates id example_build (Returned (VData 7)) (λ _, VBool true) (λ _, "")
      false); [reflexivity|exact H1].
  - eapply (then_terminates id example_build (Returned (VData 7)) (λ _, VBool true) (λ _, "")
      false); [reflexivity|exact H2|].
    apply (drain_ends (H := example_build)). vm_compute. reflexivity.
Defined.
