(* ===== verification/Traits.v ===== *)
(** * Types that the compiler computes (internal/invoke_result.h, conjunction.h,
      disjunction.h, utility.h, tuple.h, future_then_meta.h, future_then_impl.h, and the
      traits of completion_queue_impl.h and async_read_stream_impl.h)

    The traits as functions on an inductive type of C++ types, and the type checking of
    [future<T>::then()] and of the calls of the completion queue: the traits select an
    overload, whose body must be well formed.
    [None] is an ill-formed type or expression. *)

From S2P Require Import Prelude.

Inductive ctype :=
| TVoid
| TObject (name : string)          (* [bool], [std::string], a class *)
| TConst (t : ctype)
| TRef (t : ctype)
| TRvalueRef (t : ctype)
| TArray (t : ctype) (n : nat)
| TPointer (t : ctype)
| TReferenceWrapper (t : ctype)
| TFuture (t : ctype)
| TSharedState (t : ctype)
| TSharedPtr (t : ctype)
| TUniquePtr (t : ctype)
| TStatusOr (t : ctype)
| TResponseReader (t : ctype)      (* [grpc::ClientAsyncResponseReaderInterface<t>] *)
| TStreamReader (t : ctype).       (* [grpc::ClientAsyncReaderInterface<t>] *)

Global Instance ctype_eq_dec : EqDecision ctype.
Proof. solve_decision. Defined.

(** ** [invoke_result] and [is_invocable]

    The type of a callable object is given by what the compiler knows of it: the type of
    [f(a...)] for the types of the arguments. *)
Definition callable := list ctype → option ctype.

(** [decltype(std::forward<F>(f)(std::forward<ArgTypes>(a)...))]. *)
Definition invoker_function (F : callable) (args : list ctype) : option ctype := F args.
(** The primary template has no member [type]; the specialization is chosen when the
    expression is valid. *)
Definition invoke_result (F : callable) (args : list ctype) : option ctype :=
  match invoker_function F args with Some r => Some r | None => None end.
Definition is_invocable (F : callable) (args : list ctype) : bool :=
  match invoker_function F args with Some _ => true | None => false end.

(** ** [conjunction] and [disjunction]

    A trait is its member [value], or [None] when its instantiation is ill-formed.
    [std::conditional] names both branches and only the chosen one is instantiated. *)
Fixpoint conjunction (l : list (option bool)) : option bool :=
  match l with
  | [] => Some true
  | [b1] => b1
  | b1 :: bn => v ← b1; if v : bool then conjunction bn else Some v
  end.
Fixpoint disjunction (l : list (option bool)) : option bool :=
  match l with
  | [] => Some false
  | [b1] => b1
  | b1 :: bn => v ← b1; if v : bool then Some v else disjunction bn
  end.

(** ** [make_index_sequence] and [apply] *)
Fixpoint MakeIndexSequenceImpl (n : nat) (I : list nat) : list nat :=
  match n with
  | 0 => I
  | S n => MakeIndexSequenceImpl n (n :: I)
  end.
Definition make_index_sequence (n : nat) : list nat := MakeIndexSequenceImpl n [].

(** [std::get<I>(t)...]: [None] when an index is out of range. *)
Definition ApplyImpl {A B} (f : list A → B) (t : list A) (I : list nat) : option B :=
  f <$> mapM (λ i, t !! i) I.
Definition apply {A B} (f : list A → B) (t : list A) : option B :=
  ApplyImpl f t (make_index_sequence (length t)).
(** The type of the call, for a tuple of arguments of types [args]. *)
Definition ApplyRes (F : callable) (args : list ctype) : option ctype := invoke_result F args.

(** ** [future_then_meta.h] *)
Definition remove_reference (t : ctype) : ctype :=
  match t with TRef u | TRvalueRef u => u | _ => t end.
Definition decay (t : ctype) : ctype :=
  match remove_reference t with
  | TArray u _ => TPointer u
  | TConst u => u
  | u => u
  end.
Definition make_ready_return (t : ctype) : ctype :=
  match decay t with
  | TReferenceWrapper x => TRef x
  | _ => decay t
  end.

(** The members [type] and [requires_unwrap_t]. *)
Definition unwrap_then (r : ctype) : ctype * bool :=
  match r with TFuture u => (u, true) | _ => (r, false) end.
Definition unwrap_internal (r : ctype) : ctype * bool :=
  match r with TSharedPtr (TSharedState u) => (u, true) | _ => (r, false) end.

Record helper := mkHelper {
  functor_result_t : ctype;
  result_t : ctype;
  requires_unwrap_t : bool;
}.
Definition make_helper (unwrap : ctype → ctype * bool) (r : ctype) : helper :=
  mkHelper r (unwrap r).1 (unwrap r).2.
Definition state_t (h : helper) : ctype := TSharedState (result_t h).
Definition future_t (h : helper) : ctype := TFuture (result_t h).

Definition state_pointer (t : ctype) : ctype := TSharedPtr (TSharedState t).
Definition continuation_helper (F : callable) (t : ctype) : option helper :=
  make_helper unwrap_then <$> invoke_result F [state_pointer t].
Definition unwrapping_continuation_helper (F : callable) (t : ctype) : option helper :=
  make_helper unwrap_internal <$> invoke_result F [state_pointer t].
Definition then_helper (F : callable) (t : ctype) : option helper :=
  make_helper unwrap_then <$> invoke_result F [TFuture t].

(** ** The bodies that the traits select (future_impl.h, future_then_impl.h) *)

(** [future<R&>] is declared but never defined. *)
Definition declared_only (t : ctype) : bool :=
  match t with TRef _ => true | _ => false end.
(** [new (reinterpret_cast<T*>(&buffer_)) T(std::move(value))]: there are no pointers to
    references, a pointer to a const object does not convert to [void*], and an array cannot
    be initialized from another.  [TObject] stands for types that can be moved. *)
Definition storable (t : ctype) : bool :=
  match t with TRef _ | TRvalueRef _ | TArray _ _ | TConst _ => false | _ => true end.
Definition complete (t : ctype) : bool := negb (declared_only t) && storable t.

(** A callable that takes exactly one argument, of type [a]. *)
Definition lambda (a : ctype) (r : option ctype) : callable := λ args,
  match args with [b] => if decide (a = b) then r else None | _ => None end.

(** [struct continuation]: its value type [result_t].  [execute()] calls
    [continuation_execute_delegate] with a [requires_unwrap_t{}], and there is an overload
    for [std::false_type] only. *)
Definition continuation (F : callable) (t : ctype) : option ctype :=
  h ← continuation_helper F t;
  if negb (requires_unwrap_t h) && complete (result_t h) then Some (result_t h) else None.

(** The lambda [unwrapper] of [unwrapping_continuation::execute]: the type of
    [r->get()]. *)
Definition unwrapper (R : ctype) : callable := lambda (state_pointer R) (Some R).
(** [struct unwrapping_continuation]: the type [R].  The result of the functor is assigned
    to [intermediate]; the [continuation] that is attached to it is constructed with
    [output], so both must agree on the type of the output state. *)
Definition unwrapping_continuation (F : callable) (t : ctype) : option ctype :=
  h ← unwrapping_continuation_helper F t;
  let R := result_t h in
  if decide (functor_result_t h = state_pointer R) then
    R' ← continuation (unwrapper R) R;
    if decide (R' = R) then Some R else None
  else None.

(** [make_continuation]: the type of the shared state it returns a pointer to. *)
Definition make_continuation (F : callable) (t : ctype) (requires_unwrapping : bool) :
    option ctype :=
  TSharedState <$> (if requires_unwrapping then unwrapping_continuation F t else continuation F t).

(** [struct adapter] of the two overloads of [then_impl]: from a functor on [future<T>] to
    one on a pointer to its state, which in the second overload also returns one. *)
Definition adapter (F : callable) (t : ctype) : callable :=
  lambda (state_pointer t) (invoker_function F [TFuture t]).
Definition adapter_unwrap (F : callable) (t : ctype) : callable :=
  lambda (state_pointer t)
    (r ← invoker_function F [TFuture t];
     match r with TFuture u => Some (state_pointer u) | _ => None end).

(** [then_impl]: [future_t] is constructed from the output state. *)
Definition then_impl (F : callable) (t : ctype) (h : helper) : option ctype :=
  output ← make_continuation ((if requires_unwrap_t h then adapter_unwrap else adapter) F t) t
             (requires_unwrap_t h);
  if decide (output = state_t h) then Some (future_t h) else None.
(** [future<T>::then(F)]: the type of the expression. *)
Definition then_type (F : callable) (t : ctype) : option ctype :=
  h ← then_helper F t; then_impl F t h.

(** [future(future<future<T>>&& rhs)]: [rhs.then] with a lambda that returns [f.get()]. *)
Definition future_unwrap_type (t : ctype) : option ctype :=
  then_type (lambda (TFuture (TFuture t)) (Some (TFuture t))) (TFuture t).
(** [make_ready_future(T&&)], with its [static_assert]. *)
Definition make_ready_future_type (t : ctype) : option ctype :=
  if complete (make_ready_return t) then Some (TFuture (make_ready_return t)) else None.

(** ** The traits of asynchronous calls (completion_queue_impl.h, async_read_stream_impl.h,
    async_retry_unary_rpc.h, completion_queue.h) *)
Definition CompletionQueue_ref : ctype := TRef (TObject "CompletionQueue").
Definition grpc_Status_ref : ctype := TRef (TObject "grpc::Status").

Definition CheckUnaryRpcCallback (F : callable) (Response : ctype) : bool :=
  is_invocable F [CompletionQueue_ref; TRef Response; grpc_Status_ref].
Definition CheckUnaryStreamRpcDataCallback (F : callable) (Response : ctype) : bool :=
  is_invocable F
    [CompletionQueue_ref; TRef (TConst (TObject "grpc::ClientContext")); TRef Response].
Definition CheckUnaryStreamRpcFinishedCallback (F : callable) (Response : ctype) : bool :=
  is_invocable F [CompletionQueue_ref; TRef (TObject "grpc::ClientContext"); grpc_Status_ref].
Definition CheckRunAsyncCallback (F : callable) : bool := is_invocable F [CompletionQueue_ref].

(** The members [type] and [value]. *)
Definition AsyncCallResponseTypeUnwrap (t : ctype) : ctype * bool :=
  match t with TUniquePtr (TResponseReader u) => (u, true) | _ => (TVoid, false) end.
Definition async_call_args (RequestType : ctype) : list ctype :=
  [TPointer (TObject "grpc::ClientContext"); TRef (TConst RequestType);
   TPointer (TObject "grpc::CompletionQueue")].
Definition AsyncCallResponseType (F : callable) (RequestType : ctype) : option (ctype * bool) :=
  AsyncCallResponseTypeUnwrap <$> invoke_result F (async_call_args RequestType).

(** The primary template has no member [type]. *)
Definition AsyncStreamingReadRpcUnwrap (t : ctype) : option ctype :=
  match t with TUniquePtr (TStreamReader u) => Some u | _ => None end.
Definition AsyncStreamingReadResponseType (F : callable) (RequestType : ctype) : option ctype :=
  r ← invoke_result F (async_call_args RequestType); AsyncStreamingReadRpcUnwrap r.

(** The type of [CompletionQueue::MakeUnaryRpc], with its [enable_if]. *)
Definition MakeUnaryRpc_type (F : callable) (Request : ctype) : option ctype :=
  Sig ← AsyncCallResponseType F Request;
  if (Sig : ctype * bool).2 then Some (TFuture (TStatusOr Sig.1)) else None.
(** The conditions on the handlers of [MakeAsyncReadStreamImpl]. *)
Definition MakeAsyncReadStreamImpl_enabled (OnReadHandler OnFinishHandler : callable)
    (Response : ctype) : bool :=
  is_invocable OnReadHandler [Response] &&
  bool_decide (invoke_result OnReadHandler [Response] = Some (TFuture (TObject "bool"))) &&
  is_invocable OnFinishHandler [TObject "Status"].
Definition MakeStreamingReadRpc_type (F : callable) (Request : ctype)
    (OnReadHandler OnFinishHandler : callable) : option ctype :=
  Response ← AsyncStreamingReadResponseType F Request;
  if MakeAsyncReadStreamImpl_enabled OnReadHandler OnFinishHandler Response
  then Some (TSharedPtr (TObject "AsyncOperation")) else None.
(** [StartRetryAsyncUnaryRpc]: its own conditions, and the call of [MakeUnaryRpc] and the
    value of [final_result_] in its body. *)
Definition StartRetryAsyncUnaryRpc_type (F : callable) (RequestType : ctype) : option ctype :=
  let request_t := decay RequestType in
  if is_invocable F (async_call_args request_t) then
    Sig ← AsyncCallResponseType F request_t;
    let result := TFuture (TStatusOr (Sig : ctype * bool).1) in
    attempt ← MakeUnaryRpc_type F request_t;
    if decide (attempt = result) then Some result else None
  else None.

(** ** Theorems *)

Lemma conjunction_Some l : conjunction (Some <$> l) = Some (forallb id l).
Proof.
  induction l as [|b [|c l] IH]; [done|by destruct b|].
  change (conjunction (Some <$> b :: c :: l))
    with (if b then conjunction (Some <$> c :: l) else Some b).
  rewrite IH. by destruct b.
Qed.
Lemma disjunction_Some l : disjunction (Some <$> l) = Some (existsb id l).
Proof.
  induction l as [|b [|c l] IH]; [done|by destruct b|].
  change (disjunction (Some <$> b :: c :: l))
    with (if b then Some b else disjunction (Some <$> c :: l)).
  rewrite IH. by destruct b.
Qed.
(** Nothing behind the first trait that decides is instantiated. *)
Lemma conjunction_short l bad : bad ≠ [] →
  conjunction ((Some <$> l) ++ Some false :: bad) = Some false.
Proof.
  intros Hb. induction l as [|b l IH]; [by destruct bad|].
  change ((Some <$> b :: l) ++ Some false :: bad)
    with (Some b :: ((Some <$> l) ++ Some false :: bad)).
  destruct ((Some <$> l) ++ Some false :: bad) eqn:E; [by destruct l|].
  change (conjunction (Some b :: o :: l0)) with (if b then conjunction (o :: l0) else Some b).
  rewrite IH. by destruct b.
Qed.

Lemma MakeIndexSequenceImpl_spec n I : MakeIndexSequenceImpl n I = seq 0 n ++ I.
Proof.
  revert I. induction n as [|n IH]; intros I; [done|]. simpl MakeIndexSequenceImpl.
  by rewrite IH, seq_S, <-(assoc_L (++)).
Qed.
Lemma make_index_sequence_seq n : make_index_sequence n = seq 0 n.
Proof. unfold make_index_sequence. by rewrite MakeIndexSequenceImpl_spec, (right_id_L [] (++)). Qed.

Lemma mapM_lookup_seq {A} (l l' : list A) :
  mapM (λ i, (l' ++ l) !! i) (seq (length l') (length l)) = Some l.
Proof.
  revert l'. induction l as [|x l IH]; intros l'; [done|]. simpl.
  rewrite list_lookup_middle by done. simpl.
  specialize (IH (l' ++ [x])). rewrite length_app, Nat.add_1_r, <-(assoc_L (++)) in IH.
  simpl in IH. by rewrite IH.
Qed.
(** [apply] calls the function with the elements of the tuple, in order. *)
Lemma apply_tuple {A B} (f : list A → B) t : apply f t = Some (f t).
Proof.
  unfold apply, ApplyImpl. rewrite make_index_sequence_seq.
  change (mapM _ _) with (mapM (λ i, ([] ++ t) !! i) (seq (length (@nil A)) (length t))).
  by rewrite mapM_lookup_seq.
Qed.

Lemma lambda_same a r : lambda a r [a] = r.
Proof. unfold lambda. by rewrite decide_True. Qed.

Lemma unwrapper_continuation R :
  continuation (unwrapper R) R =
  if decide (unwrap_then R = (R, false) ∧ complete R = true) then Some R else None.
Proof.
  unfold continuation, continuation_helper, invoke_result, invoker_function, unwrapper.
  rewrite lambda_same. unfold make_helper. simpl.
  destruct R; simpl;
    solve [done|by rewrite decide_True by done|by rewrite decide_False by (by intros [? ?])].
Qed.

(** What the documentation of [then()] says: a [future<U>] that the functor returns is
    unwrapped once.  The bodies of the continuations add that the value type is not a
    future again. *)
Definition then_reference (r : ctype) : option ctype :=
  match r with
  | TFuture (TFuture _) => None
  | TFuture u => if complete u then Some (TFuture u) else None
  | u => if complete u then Some (TFuture u) else None
  end.

Lemma then_type_spec F t r : F [TFuture t] = Some r → then_type F t = then_reference r.
Proof.
  intros Hr.
  unfold then_type, then_impl, then_helper, invoke_result, invoker_function. rewrite Hr. simpl.
  destruct r; simpl;
    try (unfold make_continuation, continuation, continuation_helper, invoke_result,
           invoker_function, adapter; rewrite lambda_same; unfold invoker_function;
         rewrite Hr; simpl; try done; by rewrite decide_True).
  unfold make_continuation, unwrapping_continuation, unwrapping_continuation_helper,
    invoke_result, invoker_function, adapter_unwrap. rewrite lambda_same.
  unfold invoker_function. rewrite Hr. simpl. rewrite decide_True by done. simpl.
  rewrite unwrapper_continuation. unfold state_t, future_t. simpl.
  destruct r; simpl; try done; repeat (case_decide; simplify_eq/=); naive_solver.
Qed.

(** C13: the type of [f.then(functor)] when the functor, called with a [future<T>], returns
    an [r]: [future<r>], or [r] itself when [r] is a [future<U>]; the overload that the
    traits select and the continuation it creates agree on the type of the output state.
    When [r] is a future of a future, or the value type is a reference, or the functor
    cannot be called with a [future<T>], the call is ill-formed.  The unwrapping
    constructor is well-formed exactly for value types that are not futures. *)
Theorem then_types :
  (∀ F t r, F [TFuture t] = Some r → then_type F t = then_reference r) ∧
  (∀ F t, F [TFuture t] = None → then_type F t = None) ∧
  (∀ t, complete t = true →
     future_unwrap_type t = match t with TFuture _ => None | _ => Some (TFuture t) end).
Proof.
  split_and!; [exact then_type_spec| |].
  - intros F t Hr. unfold then_type, then_helper, invoke_result, invoker_function. by rewrite Hr.
  - intros t Ht. unfold future_unwrap_type.
    erewrite then_type_spec by apply lambda_same. by destruct t.
Qed.

(** *** Examples *)
Example then_void : then_type (lambda (TFuture (TObject "int")) (Some TVoid)) (TObject "int") =
  Some (TFuture TVoid).
Proof. reflexivity. Qed.

Lemma then_types_witness :
  then_type (lambda (TFuture TVoid) (Some (TFuture (TObject "int")))) TVoid =
    Some (TFuture (TObject "int")) ∧
  then_type (lambda (TFuture TVoid) None) TVoid = None ∧
  future_unwrap_type (TFuture TVoid) = None.
Proof.
  destruct then_types as (Ht & Hn & Hu). split_and!.
  - apply (Ht (lambda (TFuture TVoid) (Some (TFuture (TObject "int")))) TVoid
      (TFuture (TObject "int"))). reflexivity.
  - apply (Hn (lambda (TFuture TVoid) None) TVoid). reflexivity.
  - apply (Hu (TFuture TVoid)). reflexivity.
Defined.

(** A functor that returns a future of a future does not compile. *)
Lemma then_nested_ill_formed F t u :
  F [TFuture t] = Some (TFuture (TFuture u)) → then_type F t = None.
Proof. intros Hr. by rewrite (then_type_spec _ _ _ Hr). Qed.

Lemma make_ready_future_types :
  make_ready_future_type (TRef (TConst (TObject "int"))) = Some (TFuture (TObject "int")) ∧
  make_ready_future_type (TReferenceWrapper (TObject "int")) = None ∧
  make_ready_future_type (TRef (TArray (TConst (TObject "char")) 6)) =
    Some (TFuture (TPointer (TConst (TObject "char")))).
Proof. done. Qed.

(** The calls of the completion queue are enabled for exactly the callables that the
    documentation describes, and deduce the type of the response. *)
Definition returns (F : callable) (Request : ctype) (r : ctype) : Prop :=
  F (async_call_args Request) = Some r.

Lemma MakeUnaryRpc_type_spec F Request t :
  MakeUnaryRpc_type F Request = Some t ↔
  ∃ Response, returns F Request (TUniquePtr (TResponseReader Response)) ∧
    t = TFuture (TStatusOr Response).
Proof.
  unfold MakeUnaryRpc_type, AsyncCallResponseType, invoke_result, invoker_function, returns.
  destruct (F _) as [r|]; simpl; [|by split; [|intros (? & ? & ?)]].
  unfold AsyncCallResponseTypeUnwrap.
  destruct r as [| | | | | | | | | | |[]| | |]; simpl; naive_solver.
Qed.
Lemma MakeStreamingReadRpc_type_spec F Request on_read on_finish t :
  MakeStreamingReadRpc_type F Request on_read on_finish = Some t ↔
  t = TSharedPtr (TObject "AsyncOperation") ∧
  ∃ Response, returns F Request (TUniquePtr (TStreamReader Response)) ∧
    on_read [Response] = Some (TFuture (TObject "bool")) ∧
    is_Some (on_finish [TObject "Status"]).
Proof.
  unfold MakeStreamingReadRpc_type, AsyncStreamingReadResponseType, invoke_result,
    invoker_function, returns.
  destruct (F _) as [r|]; simpl; [|naive_solver].
  destruct r as [| | | | | | | | | | |[]| | |]; simpl; try naive_solver.
  unfold MakeAsyncReadStreamImpl_enabled, is_invocable, invoke_result, invoker_function.
  destruct (on_read _) as [r|] eqn:Er, (on_finish _) eqn:Ef; simpl;
    rewrite ?andb_false_r; try (naive_solver || (case_bool_decide; naive_solver)).
  all: split; [try done|intros (-> & R & [= ->] & H & [? ?]); congruence].
Qed.
(** The retry loop accepts what [MakeUnaryRpc] accepts, and has the same type. *)
Lemma StartRetryAsyncUnaryRpc_type_spec F RequestType :
  StartRetryAsyncUnaryRpc_type F RequestType = MakeUnaryRpc_type F (decay RequestType).
Proof.
  unfold StartRetryAsyncUnaryRpc_type, is_invocable, MakeUnaryRpc_type, AsyncCallResponseType,
    invoke_result, invoker_function.
  destruct (F _) as [r|]; simpl; [|done].
  destruct (AsyncCallResponseTypeUnwrap r) as [u []]; simpl; [by rewrite decide_True|done].
Qed.
