(* ===== verification/FutureTypes.v ===== *)
(** * Type soundness of promises and futures

    The C++ types of [Traits.v] for the programs that the machine of [Futures.v] runs: a
    call of [then()] has the overload and the result type that the traits compute.  Every
    interleaving of well-typed programs keeps shared states, variables, continuations and
    stacks well typed; a thread that cannot go on has finished or waits for a state that is
    not ready, and the only undefined behaviour is [cancel()] on an invalid future. *)

From S2P Require Import Prelude Traits Status Throw SharedState Futures FutureProtocol FutureSafety.

(** ** Types *)

(** What a variable of the program holds, and what a call returns: a value, or a new
    variable. *)
Inductive handle_type := HFuture (t : ctype) | HPromise (t : ctype).
Definition target (h : handle_type) : ctype := match h with HFuture t | HPromise t => t end.
Inductive reply_type := RVal (t : ctype) | RVar (h : handle_type).

Definition TBool : ctype := TObject "bool".
Definition TStatus : ctype := TObject "std::future_status".
Definition is_future (t : ctype) : bool := match t with TFuture _ => true | _ => false end.

(** The value types of the shared states, and the types of the variables.  Both grow as
    the program runs. *)
Record env := mkEnv { states : gmap nat ctype; vars : gmap nat handle_type }.
Definition extends (E E' : env) : Prop := states E ⊆ states E' ∧ vars E ⊆ vars E'.

Global Instance extends_preorder : PreOrder extends.
Proof.
  split; [by intros E|]. intros E1 E2 E3 [? ?] [? ?]. split; etrans; done.
Qed.

Lemma typing_extends_trans E1 E2 E3 : extends E1 E2 → extends E2 E3 → extends E1 E3.
Proof. intros; by etrans. Qed.
Lemma extends_state E E' l t : extends E E' → states E !! l = Some t → states E' !! l = Some t.
Proof. intros [Hs _] Hl. by eapply lookup_weaken. Qed.
Lemma extends_var E E' x h : extends E E' → vars E !! x = Some h → vars E' !! x = Some h.
Proof. intros [_ Hv] Hx. by eapply lookup_weaken. Qed.

Definition points_to (E : env) (sp : option nat) (t : ctype) : Prop :=
  ∀ l, sp = Some l → states E !! l = Some t.
Lemma extends_points_to E E' sp t : extends E E' → points_to E sp t → points_to E' sp t.
Proof. intros He Hp l Hl. by eapply extends_state, Hp. Qed.

Section typing.
Context {D : Type} (data_typed : ctype → D → Prop).
Implicit Types (E : env) (v : val D) (w : world D).

Inductive val_typed E : val D → ctype → Prop :=
| VT_Void : val_typed E VVoid TVoid
| VT_Bool b : val_typed E (VBool b) TBool
| VT_Status s : val_typed E (VStatus s) TStatus
| VT_Data d t : data_typed t d → is_future t = false → val_typed E (VData d) t
| VT_Future sp t : points_to E sp t → val_typed E (VFuture sp) (TFuture t).

Definition value_typed E v (rt : reply_type) : Prop :=
  match rt with
  | RVal t => val_typed E v t
  | RVar h => ∃ x, v = VHandle x ∧ vars E !! x = Some h
  end.
Definition reply_typed E (r : reply D) (rt : reply_type) : Prop :=
  match r with Returned v => value_typed E v rt | Raised _ => True end.

(** Application code.  The code that follows a call is checked against every reply of the
    call's type, in every later state of the program. *)
Inductive prog_typed : env → prog D → reply_type → Prop :=
| PT_Ret E v rt : value_typed E v rt → prog_typed E (PRet v) rt
| PT_Throw E e rt : prog_typed E (PThrow e) rt
| PT_Call E c k rt rt' :
    call_typed E c rt →
    (∀ E' r, extends E E' → reply_typed E' r rt → prog_typed E' (k r) rt') →
    prog_typed E (PCall c k) rt'
with call_typed : env → call D → reply_type → Prop :=
| CT_NewPromise E cb t :
    (∀ E', extends E E' → prog_typed E' cb (RVal TVoid)) →
    call_typed E (NewPromise cb) (RVar (HPromise t))
| CT_PromiseMove E p t :
    vars E !! p = Some (HPromise t) → call_typed E (PromiseMove p) (RVar (HPromise t))
| CT_PromiseAssign E p rhs t :
    vars E !! p = Some (HPromise t) → vars E !! rhs = Some (HPromise t) →
    call_typed E (PromiseAssign p rhs) (RVal TVoid)
| CT_PromiseDestroy E p t :
    vars E !! p = Some (HPromise t) → call_typed E (PromiseDestroy p) (RVal TVoid)
| CT_PromiseGetFuture E p t :
    vars E !! p = Some (HPromise t) → call_typed E (PromiseGetFuture p) (RVar (HFuture t))
| CT_PromiseSetValue E p v t :
    vars E !! p = Some (HPromise t) → val_typed E v t →
    call_typed E (PromiseSetValue p v) (RVal TVoid)
| CT_PromiseSetException E p e t :
    vars E !! p = Some (HPromise t) →
    call_typed E (PromiseSetException p (Some e)) (RVal TVoid)
| CT_FutureOf E sp t : points_to E sp t → call_typed E (FutureOf sp) (RVar (HFuture t))
| CT_FutureMove E f t :
    vars E !! f = Some (HFuture t) → call_typed E (FutureMove f) (RVar (HFuture t))
| CT_FutureRelease E f t :
    vars E !! f = Some (HFuture t) → call_typed E (FutureRelease f) (RVal (TFuture t))
| CT_FutureValid E f t :
    vars E !! f = Some (HFuture t) → call_typed E (FutureValid f) (RVal TBool)
| CT_FutureIsReady E f t :
    vars E !! f = Some (HFuture t) → call_typed E (FutureIsReady f) (RVal TBool)
| CT_FutureWait E f t :
    vars E !! f = Some (HFuture t) → call_typed E (FutureWait f) (RVal TVoid)
| CT_FutureWaitFor E f t :
    vars E !! f = Some (HFuture t) → call_typed E (FutureWaitFor f) (RVal TStatus)
| CT_FutureGet E f t :
    vars E !! f = Some (HFuture t) → call_typed E (FutureGet f) (RVal t)
| CT_FutureCancel E f t :
    vars E !! f = Some (HFuture t) → call_typed E (FutureCancel f) (RVal TBool)
| CT_FutureThen E f t F r h functor :
    vars E !! f = Some (HFuture t) →
    F [TFuture t] = Some r → then_helper F t = Some h → then_type F t = Some (future_t h) →
    (∀ E' x, extends E E' → vars E' !! x = Some (HFuture t) →
       prog_typed E' (functor x) (RVal r)) →
    call_typed E (FutureThen (requires_unwrap_t h) f functor) (RVar (HFuture (result_t h))).

Definition functor_typed E (functor : nat → prog D) (t r : ctype) : Prop :=
  ∀ E' x, extends E E' → vars E' !! x = Some (HFuture t) → prog_typed E' (functor x) (RVal r).
Definition continuation_typed E (c : continuation D) : Prop :=
  ∃ ti to, states E !! input c = Some ti ∧ states E !! output c = Some to ∧
    match body c with
    | Continuation functor => functor_typed E functor ti to
    | UnwrappingContinuation functor => functor_typed E functor ti (TFuture to)
    | Unwrapper => ti = to
    end.

(** *** The state of the machine *)
Record state_typed `{Build} E (t : ctype) (s : sstate D) : Prop := {
  st_wf : state_wf s;
  st_buffer : ∀ v, buffer_ s = Some v → val_typed E v t;
  st_exception : have_exceptions = true → current_state_ s = has_exception →
    is_Some (exception_ s);
  st_continuation : ∀ c, continuation_ s = Some c → continuation_typed E c;
  st_callback : ∀ cb, cancellation_callback_ s = Some cb →
    ∀ E', extends E E' → prog_typed E' cb (RVal TVoid);
}.

Record world_typed `{Build} E w : Prop := {
  wt_states : ∀ l t, states E !! l = Some t → ∃ s, heap w !! l = Some s ∧ state_typed E t s;
  wt_vars : ∀ x h, vars E !! x = Some h → points_to E (handle x w) (target h);
  wt_fresh : ∀ n, next w ≤ n → states E !! n = None ∧ vars E !! n = None;
}.

(** What the code at a control point replies. *)
Inductive ctrl_typed E : ctrl D → reply_type → Prop :=
| KT_Run p rt : prog_typed E p rt → ctrl_typed E (Run p) rt
| KT_Reply r rt : reply_typed E r rt → ctrl_typed E (Reply r) rt
| KT_Halt o rt : ctrl_typed E (Halt o) rt
| KT_SetValue l v t :
    states E !! l = Some t → val_typed E v t → ctrl_typed E (SetValue l v) (RVal TVoid)
| KT_SetException l e t :
    states E !! l = Some t → ctrl_typed E (SetException l (Some e)) (RVal TVoid)
| KT_Abandon l t : states E !! l = Some t → ctrl_typed E (Abandon l) (RVal TVoid)
| KT_Notify l t : states E !! l = Some t → ctrl_typed E (Notify l) (RVal TVoid)
| KT_SetContinuation l c t :
    states E !! l = Some t → continuation_typed E c →
    ctrl_typed E (SetContinuation l c) (RVal TVoid)
| KT_Execute c : continuation_typed E c → ctrl_typed E (Execute c) (RVal TVoid)
| KT_Get l t : states E !! l = Some t → ctrl_typed E (Get l) (RVal t)
| KT_Wait l t : states E !! l = Some t → ctrl_typed E (Wait l) (RVal TVoid)
| KT_Cancel l t : states E !! l = Some t → ctrl_typed E (Cancel l) (RVal TBool)
| KT_CancelTest l t : states E !! l = Some t → ctrl_typed E (CancelTest l) (RVal TBool).

(** A frame makes a reply of the second type from one of the first. *)
Inductive frame_typed E : frame D → reply_type → reply_type → Prop :=
| FT_Prog k rt rt' :
    (∀ E' r, extends E E' → reply_typed E' r rt → prog_typed E' (k r) rt') →
    frame_typed E (FProg k) rt rt'
| FT_Then f out t t' :
    vars E !! f = Some (HFuture t) → states E !! out = Some t' →
    frame_typed E (FThen f out) (RVal TVoid) (RVar (HFuture t'))
| FT_Deliver out t : states E !! out = Some t → frame_typed E (FDeliver out) (RVal t) (RVal TVoid)
| FT_DeliverGuard out t :
    states E !! out = Some t → frame_typed E (FDeliverGuard out) (RVal TVoid) (RVal TVoid)
| FT_OutputReset k : frame_typed E (FOutputReset k) (RVal TVoid) (RVal TVoid)
| FT_Unwrap out t :
    states E !! out = Some t → frame_typed E (FUnwrap out) (RVal (TFuture t)) (RVal TVoid)
| FT_Cancelled l t :
    states E !! l = Some t → frame_typed E (FCancelled l) (RVal TVoid) (RVal TBool).

Inductive frames_typed E : list (frame D) → reply_type → reply_type → Prop :=
| FsT_nil rt : frames_typed E [] rt rt
| FsT_cons f fs rt rt' rt'' :
    frame_typed E f rt rt' → frames_typed E fs rt' rt'' → frames_typed E (f :: fs) rt rt''.

Definition thread_typed E (t : thread D) (rt : reply_type) : Prop :=
  ∃ rt', ctrl_typed E t.1 rt' ∧ frames_typed E t.2 rt' rt.

Definition config_typed `{Build} (rts : list reply_type) (c : config D) : Prop :=
  ∃ E, world_typed E c.1 ∧ Forall2 (thread_typed E) c.2 rts.
End typing.

(** ** Lemmas *)
Section lemmas.
Context {D : Type} `{Build} (moved_data : D → D) (data_typed : ctype → D → Prop).
Context (moved_typed : ∀ t d, data_typed t d → data_typed t (moved_data d)).
Implicit Types (E : env) (v : val D) (w : world D).

(** *** Everything stays typed as the program goes on *)
Lemma val_typed_mono E E' v t :
  extends E E' → val_typed data_typed E v t → val_typed data_typed E' v t.
Proof. intros He []; constructor; eauto using extends_points_to. Qed.

Lemma value_typed_mono E E' v rt :
  extends E E' → value_typed data_typed E v rt → value_typed data_typed E' v rt.
Proof.
  intros He. destruct rt; simpl; [by apply val_typed_mono|].
  intros (x & -> & Hx). eauto using extends_var.
Qed.

Lemma call_typed_mono E E' c rt :
  extends E E' → call_typed data_typed E c rt → call_typed data_typed E' c rt.
Proof.
  intros He. destruct 1; econstructor;
    eauto using extends_var, extends_points_to, val_typed_mono; intros; eauto using typing_extends_trans.
Qed.

Lemma prog_typed_mono E E' p rt :
  extends E E' → prog_typed data_typed E p rt → prog_typed data_typed E' p rt.
Proof.
  intros He. destruct 1; econstructor; eauto using value_typed_mono, call_typed_mono.
  intros; eauto using typing_extends_trans.
Qed.

Lemma functor_typed_mono E E' f t r :
  extends E E' → functor_typed data_typed E f t r → functor_typed data_typed E' f t r.
Proof. intros He Hf E2 x He2 Hx. apply Hf; [by etrans|done]. Qed.

Lemma continuation_typed_mono E E' c :
  extends E E' → continuation_typed data_typed E c → continuation_typed data_typed E' c.
Proof.
  intros He (ti & to & Hi & Ho & Hb). exists ti, to.
  split_and!; [by eapply extends_state..|]. destruct (body c); eauto using functor_typed_mono.
Qed.

Lemma state_typed_mono E E' t s :
  extends E E' → state_typed data_typed E t s → state_typed data_typed E' t s.
Proof.
  intros He []; constructor; eauto using val_typed_mono, continuation_typed_mono.
  intros cb Hcb E2 He2. eapply st_callback0; [done|by etrans].
Qed.

Lemma ctrl_typed_mono E E' k rt :
  extends E E' → ctrl_typed data_typed E k rt → ctrl_typed data_typed E' k rt.
Proof.
  intros He. destruct 1; econstructor;
    eauto using extends_state, val_typed_mono, continuation_typed_mono, prog_typed_mono.
  destruct r; simpl in *; eauto using value_typed_mono.
Qed.

Lemma frame_typed_mono E E' f rt rt' :
  extends E E' → frame_typed data_typed E f rt rt' → frame_typed data_typed E' f rt rt'.
Proof.
  intros He. destruct 1; econstructor; eauto using extends_state, extends_var.
  intros; eauto using typing_extends_trans.
Qed.

Lemma frames_typed_mono E E' fs rt rt' :
  extends E E' → frames_typed data_typed E fs rt rt' → frames_typed data_typed E' fs rt rt'.
Proof. intros He. induction 1; econstructor; eauto using frame_typed_mono. Qed.

Lemma thread_typed_mono E E' t rt :
  extends E E' → thread_typed data_typed E t rt → thread_typed data_typed E' t rt.
Proof. intros He (rt' & ? & ?). exists rt'. eauto using ctrl_typed_mono, frames_typed_mono. Qed.

Lemma frames_typed_app E fs fs' rt rt' rt'' :
  frames_typed data_typed E fs rt rt' → frames_typed data_typed E fs' rt' rt'' →
  frames_typed data_typed E (fs ++ fs') rt rt''.
Proof. induction 1; simpl; [done|]. econstructor; eauto. Qed.

(** *** The world *)
Notation world_typed := (world_typed data_typed).
Notation state_typed := (state_typed data_typed).

Definition add_state (l : nat) (t : ctype) E : env := mkEnv (<[l := t]> (states E)) (vars E).
Definition add_var (x : nat) (h : handle_type) E : env := mkEnv (states E) (<[x := h]> (vars E)).

Lemma extends_add_state E l t : states E !! l = None → extends E (add_state l t E).
Proof. intros Hl. split; [by apply insert_subseteq|done]. Qed.
Lemma extends_add_var E x h : vars E !! x = None → extends E (add_var x h E).
Proof. intros Hx. split; [done|by apply insert_subseteq]. Qed.

Lemma world_typed_states E w l t :
  world_typed E w → states E !! l = Some t → ∃ s, heap w !! l = Some s ∧ state_typed E t s.
Proof. intros []; eauto. Qed.
Lemma world_typed_handle E w x h l :
  world_typed E w → vars E !! x = Some h → handle x w = Some l → states E !! l = Some (target h).
Proof. intros [] Hx Hl. by eapply wt_vars0. Qed.

(** Changes of the parts that are not typed. *)
Lemma world_typed_same E w w' :
  heap w' = heap w → cells w' = cells w → next w ≤ next w' → world_typed E w → world_typed E w'.
Proof.
  intros Hh Hc Hn []. constructor; rewrite ?Hh; [done| |].
  - intros x h Hx. unfold handle. rewrite Hc. by apply wt_vars0.
  - intros n Hle. apply wt_fresh0. lia.
Qed.
Lemma world_typed_emit E e w : world_typed E w → world_typed E (emit e w).
Proof. by apply world_typed_same. Qed.
Lemma world_typed_fresh_name E w : world_typed E w → world_typed E (fresh_name w).
Proof. apply world_typed_same; simpl; [done..|lia]. Qed.
Lemma world_typed_set_spent E k w : world_typed E w → world_typed E (set_spent k w).
Proof. by apply world_typed_same. Qed.

Lemma handle_set_cell x y sp w :
  handle y (set_cell x sp w) = if decide (x = y) then sp else handle y w.
Proof.
  unfold handle. simpl. case_decide; [subst; by rewrite lookup_insert_eq|].
  by rewrite lookup_insert_ne.
Qed.

Lemma world_typed_set_cell E w x h sp :
  vars E !! x = Some h → points_to E sp (target h) → world_typed E w →
  world_typed E (set_cell x sp w).
Proof.
  intros Hx Hsp []. constructor; [done| |done].
  intros y h' Hy. rewrite handle_set_cell. case_decide; [by simplify_eq|by apply wt_vars0].
Qed.
Lemma world_typed_clear_cell E w x : world_typed E w → world_typed E (set_cell x None w).
Proof.
  intros []. constructor; [done| |done].
  intros y h' Hy. rewrite handle_set_cell. case_decide; [done|by apply wt_vars0].
Qed.

Lemma world_typed_set_heap E w l t s :
  states E !! l = Some t → state_typed E t s → world_typed E w → world_typed E (set_heap l s w).
Proof.
  intros Hl Hs []. constructor; [|done..]. intros l' t' Hl'. simpl.
  destruct (decide (l = l')) as [->|].
  - rewrite lookup_insert_eq. simplify_eq. eauto.
  - rewrite lookup_insert_ne by done. eauto.
Qed.

Lemma world_typed_extend E E' w :
  extends E E' →
  (∀ l t, states E' !! l = Some t → states E !! l = None →
     ∃ s, heap w !! l = Some s ∧ state_typed E' t s) →
  (∀ x h, vars E' !! x = Some h → vars E !! x = None → points_to E' (handle x w) (target h)) →
  (∀ n, next w ≤ n → states E' !! n = None ∧ vars E' !! n = None) →
  (∀ l t, states E !! l = Some t → ∃ s, heap w !! l = Some s ∧ state_typed E t s) →
  (∀ x h, vars E !! x = Some h → points_to E (handle x w) (target h)) →
  world_typed E' w.
Proof.
  intros He Hs Hv Hf Hs0 Hv0. constructor; [| |done].
  - intros l t Hl. destruct (states E !! l) as [t'|] eqn:Hl'; [|by apply Hs].
    pose proof (extends_state _ _ _ _ He Hl'). simplify_eq.
    destruct (Hs0 _ _ Hl') as (s & ? & ?). eauto using state_typed_mono.
  - intros x h Hx. destruct (vars E !! x) as [h'|] eqn:Hx'; [|by apply Hv].
    pose proof (extends_var _ _ _ _ He Hx'). simplify_eq. eauto using extends_points_to.
Qed.

Lemma world_typed_new_cell E w sp h :
  points_to E sp (target h) → world_typed E w →
  extends E (add_var (next w) h E) ∧ world_typed (add_var (next w) h E) (new_cell sp w).2.
Proof.
  intros Hsp Hw. destruct (wt_fresh _ _ _ Hw (next w)) as [_ Hn]; [done|].
  pose proof (extends_add_var E _ h Hn) as He. split; [done|].
  destruct Hw. eapply world_typed_extend; [exact He|simpl..]; unfold handle; simpl.
  - intros l t Hl Hl'. congruence.
  - intros x h' Hx Hx'. destruct (decide (next w = x)) as [<-|].
    + rewrite lookup_insert_eq in Hx. rewrite lookup_insert_eq. by simplify_eq/=.
    + rewrite lookup_insert_ne in Hx by done. congruence.
  - intros n Hle. rewrite lookup_insert_ne by lia. apply wt_fresh0. lia.
  - done.
  - intros x h' Hx. rewrite lookup_insert_ne by congruence. by apply wt_vars0.
Qed.

Lemma state_typed_new E t cb :
  (∀ p, cb = Some p → ∀ E', extends E E' → prog_typed data_typed E' p (RVal TVoid)) →
  state_typed E t (shared_state_new cb).
Proof. intros Hcb. constructor; simpl; try done. by split; [intros []|]. Qed.

Lemma world_typed_new_state E w cb t :
  (∀ p, cb = Some p → ∀ E', extends E E' → prog_typed data_typed E' p (RVal TVoid)) →
  world_typed E w →
  extends E (add_state (next w) t E) ∧ world_typed (add_state (next w) t E) (new_state cb w).2.
Proof.
  intros Hcb Hw. destruct (wt_fresh _ _ _ Hw (next w)) as [Hn _]; [done|].
  pose proof (extends_add_state E _ t Hn) as He. split; [done|].
  destruct Hw. eapply world_typed_extend; [exact He|simpl..].
  - intros l t' Hl Hl'. destruct (decide (next w = l)) as [<-|].
    + rewrite lookup_insert_eq in Hl. rewrite lookup_insert_eq. simplify_eq. eexists. split; [done|].
      apply state_typed_new. intros p Hp E' He'. eapply Hcb; [done|by etrans].
    + rewrite lookup_insert_ne in Hl by done. congruence.
  - intros x h Hx Hx'. congruence.
  - intros n Hle. rewrite lookup_insert_ne by lia. apply wt_fresh0. lia.
  - intros l t' Hl. rewrite lookup_insert_ne by congruence. by apply wt_states0.
  - done.
Qed.

(** *** Critical sections *)

(** No undefined behaviour, and [P] of the result. *)
Definition safe {A} (P : A → Prop) (m : cxx A) : Prop :=
  match m with Ret a => P a | Undefined _ => False | _ => True end.

Lemma safe_ThrowFutureError {A} (P : A → Prop) ec msg : safe P (ThrowFutureError ec msg).
Proof. unfold ThrowFutureError. by destruct have_exceptions. Qed.

Ltac state_cases s :=
  destruct s as [? st ex k ? cb bf];
  unfold is_ready_unlocked in *; simpl in *; repeat (case_bool_decide; simplify_eq/=).

Lemma set_value_typed E t v (s : sstate D) :
  state_typed E t s → val_typed data_typed E v t →
  safe (λ r, state_typed E t r.1) (set_value v s).
Proof.
  intros [Hwf Hb He Hk Hc] Hv. unfold set_value. destruct (is_ready_unlocked s) eqn:Hr.
  { apply safe_ThrowFutureError. }
  apply is_ready_false in Hr. unfold state_wf in Hwf. destruct (buffer_ s) as [v'|] eqn:Hbf; simpl.
  { destruct Hwf as [Hwf _]. rewrite Hwf in Hr by eauto. done. }
  constructor; simpl; try done. intros v' [= <-]. done.
Qed.

Lemma set_exception_typed E t e (s : sstate D) :
  state_typed E t s → safe (λ r, state_typed E t r.1) (set_exception (Some e) s).
Proof.
  intros [Hwf Hb He Hk Hc]. unfold set_exception, set_exception_locked.
  destruct (is_ready_unlocked s) eqn:Hr.
  { unfold ThrowFutureError. by destruct have_exceptions. }
  apply is_ready_false in Hr. constructor; simpl; try done.
  unfold state_wf in *. simpl. rewrite Hwf, Hr. done.
Qed.

Lemma abandon_typed E t (s : sstate D) :
  state_typed E t s → safe (λ r, state_typed E t r.1) (abandon s).
Proof.
  intros Hs. unfold abandon, set_exception_locked. destruct (is_ready_unlocked s) eqn:Hr; [done|].
  destruct Hs as [Hwf Hb He Hk Hc]. apply is_ready_false in Hr.
  constructor; simpl; try done.
  - unfold state_wf in *. simpl. rewrite Hwf, Hr. done.
  - intros ->. eauto.
Qed.

Lemma set_continuation_typed E t c (s : sstate D) :
  state_typed E t s → continuation_typed data_typed E c →
  safe (λ r, state_typed E t r.1) (set_continuation c s).
Proof.
  intros Hs Hc. unfold set_continuation.
  destruct (continuation_ s); [apply safe_ThrowFutureError|].
  destruct (is_ready_unlocked s); [done|].
  destruct Hs. constructor; simpl; try done. by intros c' [= <-].
Qed.

Lemma get_typed E t (s : sstate D) m :
  state_typed E t s → get (moved moved_data) s = Some m →
  safe (λ r, state_typed E t r.1 ∧ val_typed data_typed E r.2 t) m.
Proof.
  intros [Hwf Hb He Hk Hc] Hg. unfold get in Hg. destruct (is_ready_unlocked s) eqn:Hr; [|done].
  apply is_ready_true in Hr. injection Hg as <-. case_bool_decide as Hx.
  - destruct have_exceptions eqn:Hh; [|done]. by destruct (He eq_refl Hx) as [e ->].
  - assert (current_state_ s = has_value) as Hv by (destruct (current_state_ s); congruence).
    unfold state_wf in Hwf. destruct (buffer_ s) as [v|] eqn:Hbf; simpl;
      [|by destruct (proj2 Hwf Hv)].
    pose proof (Hb v eq_refl) as Ht. split; [|done]. constructor; simpl; try done.
    intros v' [= <-]. destruct Ht; constructor; eauto. by intros l [= ].
Qed.

Lemma mark_retrieved_typed E t (s : sstate D) :
  state_typed E t s → safe (state_typed E t) (mark_retrieved (Some s)).
Proof.
  intros []. unfold mark_retrieved. destruct (retrieved_ s); [apply safe_ThrowFutureError|].
  by constructor.
Qed.

(** The result of a step that replies with an [rt]; undefined only if [bad]. *)
Definition result_typed E (bad : Prop) (r : world D * ctrl D * list (frame D)) rt : Prop :=
  ∃ E' rt', extends E E' ∧ world_typed E' r.1.1 ∧ ctrl_typed data_typed E' r.1.2 rt' ∧
    frames_typed data_typed E' r.2 rt' rt ∧ (∀ u, r.1.2 = Halt (Undefined u) → bad).

Lemma result_here E bad w k rt :
  world_typed E w → ctrl_typed data_typed E k rt → (∀ u, k ≠ Halt (Undefined u)) →
  result_typed E bad (no_frames (w, k)) rt.
Proof.
  intros Hw Hk Hu. exists E, rt. split_and!; [done..|constructor|]. intros u Hu'. by destruct (Hu u).
Qed.
Lemma result_extends E E' bad r rt :
  extends E E' → result_typed E' bad r rt → result_typed E bad r rt.
Proof. intros He (E2 & rt' & He2 & ?). exists E2, rt'. split; [by etrans|done]. Qed.

Lemma result_replies E bad w v rt :
  world_typed E w → value_typed data_typed E v rt → result_typed E bad (no_frames (returns w v)) rt.
Proof. intros Hw Hv. by apply result_here; [|constructor|]. Qed.
Lemma result_void E bad w : world_typed E w → result_typed E bad (no_frames (void_reply w)) (RVal TVoid).
Proof. intros Hw. apply result_replies; [done|constructor]. Qed.

Lemma result_on_cxx {A} E bad w (P : A → Prop) m f rt :
  world_typed E w → safe P m → (∀ a, P a → result_typed E bad (no_frames (f a)) rt) →
  result_typed E bad (no_frames (on_cxx w m f)) rt.
Proof. intros Hw Hm Hf. destruct m; simpl in *; [by apply Hf|by apply result_here; [|constructor|]..|done]. Qed.

Lemma result_at_state E bad w l t f rt :
  world_typed E w → states E !! l = Some t →
  (∀ s, heap w !! l = Some s → state_typed E t s → result_typed E bad (no_frames (f s)) rt) →
  result_typed E bad (no_frames (at_state l w f)) rt.
Proof.
  intros Hw Hl Hf. destruct (world_typed_states _ _ _ _ Hw Hl) as (s & Hs & Ht).
  unfold at_state. rewrite Hs. by apply Hf.
Qed.

Lemma result_satisfied E bad w l t r :
  world_typed E w → states E !! l = Some t → state_typed E t r.1 →
  result_typed E bad (no_frames (satisfied l w r)) (RVal TVoid).
Proof.
  intros Hw Hl Hs. unfold satisfied.
  assert (world_typed E (emit (ESatisfied l) (set_heap l r.1 w)))
    by eauto using world_typed_emit, world_typed_set_heap.
  destruct r.2; [by apply result_void..|]. apply result_here; [done|by econstructor|done].
Qed.

Lemma do_set_value_typed E bad w l v t :
  world_typed E w → states E !! l = Some t → val_typed data_typed E v t →
  result_typed E bad (no_frames (do_set_value l v w)) (RVal TVoid).
Proof.
  intros Hw Hl Hv. eapply result_at_state; [done..|]. intros s _ Hs.
  eapply result_on_cxx; [done|by eapply set_value_typed|]. eauto using result_satisfied.
Qed.
Lemma do_set_exception_typed E bad w l e t :
  world_typed E w → states E !! l = Some t →
  result_typed E bad (no_frames (do_set_exception l (Some e) w)) (RVal TVoid).
Proof.
  intros Hw Hl. eapply result_at_state; [done..|]. intros s _ Hs.
  eapply result_on_cxx; [done|by eapply set_exception_typed|]. eauto using result_satisfied.
Qed.
Lemma do_abandon_typed E bad w l t :
  world_typed E w → states E !! l = Some t →
  result_typed E bad (no_frames (do_abandon l w)) (RVal TVoid).
Proof.
  intros Hw Hl. eapply result_at_state; [done..|]. intros s _ Hs.
  eapply result_on_cxx; [done|by eapply abandon_typed|]. intros [s' a] Hs'. simpl in *.
  destruct a; eauto using result_void, world_typed_emit, world_typed_set_heap.
Qed.
Lemma do_set_continuation_typed E bad w l c t :
  world_typed E w → states E !! l = Some t → continuation_typed data_typed E c →
  result_typed E bad (no_frames (do_set_continuation l c w)) (RVal TVoid).
Proof.
  intros Hw Hl Hc. eapply result_at_state; [done..|]. intros s _ Hs.
  eapply result_on_cxx; [done|by eapply set_continuation_typed|]. intros [s' a] Hs'. simpl in *.
  destruct a; eauto using result_void, world_typed_set_heap.
  by apply result_here; [|constructor|].
Qed.
Lemma do_get_typed E bad w l t r :
  world_typed E w → states E !! l = Some t → do_get moved_data l w = Some r →
  result_typed E bad (no_frames r) (RVal t).
Proof.
  intros Hw Hl Hg. destruct (world_typed_states _ _ _ _ Hw Hl) as (s & Hs & Ht).
  unfold do_get in Hg. rewrite Hs in Hg. apply bind_Some in Hg as (m & Hm & [= <-]).
  eapply result_on_cxx; [done|by eapply get_typed|]. intros [s' v] [Hs' Hv]. simpl in *.
  eauto using result_replies, world_typed_set_heap.
Qed.

Lemma result_frames E bad w k fs rt rt' :
  world_typed E w → ctrl_typed data_typed E k rt' → frames_typed data_typed E fs rt' rt →
  (∀ u, k ≠ Halt (Undefined u)) → result_typed E bad (w, k, fs) rt.
Proof.
  intros Hw Hk Hf Hu. exists E, rt'. split_and!; [done..|]. intros u Hu'. by destruct (Hu u).
Qed.
Lemma frames_typed_1 E f rt rt' :
  frame_typed data_typed E f rt rt' → frames_typed data_typed E [f] rt rt'.
Proof. intros. by repeat econstructor. Qed.

Lemma do_cancel_typed E bad w l t :
  world_typed E w → states E !! l = Some t →
  result_typed E bad (no_frames (do_cancel l w)) (RVal TBool).
Proof.
  intros Hw Hl. eapply result_at_state; [done..|]. intros s _ Hs. destruct (is_ready s).
  - by apply result_replies; [|constructor].
  - by apply result_here; [|econstructor|].
Qed.
Lemma do_cancel_test_typed E bad w l t :
  world_typed E w → states E !! l = Some t → result_typed E bad (do_cancel_test l w) (RVal TBool).
Proof.
  intros Hw Hl. destruct (world_typed_states _ _ _ _ Hw Hl) as (s & Hs & Ht).
  unfold do_cancel_test. rewrite Hs. destruct (cancelled_ s).
  { by apply (result_replies E bad w (VBool false)); [|constructor]. }
  destruct (cancellation_callback_ s) as [cb|] eqn:Hcb.
  - eapply result_frames; [by apply world_typed_emit|constructor|apply frames_typed_1; by econstructor|done].
    by eapply (st_callback _ _ _ _ Ht).
  - by apply (result_here E bad w); [|constructor|].
Qed.

(** The output gets an error when the input is gone. *)
Lemma do_execute_typed E bad w c :
  world_typed E w → continuation_typed data_typed E c → kid c ∉ spent w →
  result_typed E bad (do_execute c w) (RVal TVoid).
Proof.
  intros Hw (ti & to & Hi & Ho & Hb) Hsp. unfold do_execute.
  destruct (world_typed_states _ _ _ _ Hw Hi) as (s & Hs & _).
  change (heap (emit (EExecute (kid c)) w)) with (heap w). rewrite Hs.
  rewrite decide_False by done.
  assert (world_typed E (emit (EExecute (kid c)) w)) as Hw1 by by apply world_typed_emit.
  pose proof (world_typed_new_cell E (emit (EExecute (kid c)) w) (Some (input c)) (HFuture ti))
    as Hcell. simpl in Hcell.
  destruct Hcell as [He Hw2]; [by intros l [= <-]|done|]. simpl in *.
  assert (vars (add_var (next w) (HFuture ti) E) !! next w = Some (HFuture ti)) as Hv
    by (simpl; by rewrite lookup_insert_eq).
  destruct (body c) as [functor|functor|].
  - eapply result_extends; [exact He|]. eapply result_frames; [exact Hw2|constructor; by eapply Hb| |done].
    by repeat econstructor.
  - eapply result_extends; [exact He|]. eapply result_frames; [exact Hw2|constructor; by eapply Hb| |done].
    by repeat econstructor.
  - subst. eapply result_frames; [exact Hw1|by econstructor| |done]. by repeat econstructor.
Qed.

Lemma delegate_catch_typed E bad w out e t :
  world_typed E w → states E !! out = Some t →
  result_typed E bad (no_frames (delegate_catch out e w)) (RVal TVoid).
Proof.
  intros Hw Ho. unfold delegate_catch. destruct (is_future_error e); apply result_here; try done.
  - by constructor.
  - by econstructor.
Qed.
Lemma continuation_execute_delegate_typed E bad w out r t :
  world_typed E w → states E !! out = Some t → reply_typed data_typed E r (RVal t) →
  result_typed E bad (continuation_execute_delegate out r w) (RVal TVoid).
Proof.
  intros Hw Ho Hr. destruct r as [v|e]; simpl.
  - eapply result_frames; [done|by econstructor|apply frames_typed_1; by econstructor|done].
  - by eapply delegate_catch_typed.
Qed.

(** The functor of an [unwrapping_continuation] returns a future. *)
Lemma unwrap_typed E bad w out r t :
  world_typed E w → states E !! out = Some t → reply_typed data_typed E r (RVal (TFuture t)) →
  ∃ x, unwrap out r w = Some x ∧ result_typed E bad (no_frames x) (RVal TVoid).
Proof.
  intros Hw Ho Hr. destruct r as [v|e]; simpl in *.
  - inversion Hr as [| | |? ? Hd Hf|sp ? Hp]; simplify_eq/=.
    destruct sp as [m|]; eexists; (split; [done|]); apply result_here; try done.
    + by apply world_typed_fresh_name.
    + econstructor; [by apply Hp|]. exists t, t. simpl. split_and!; [by apply Hp|done|done].
    + by econstructor.
  - eexists. split; [done|]. by apply result_here; [|econstructor|].
Qed.

Lemma then_impl_typed E bad w f out t t' :
  world_typed E w → vars E !! f = Some (HFuture t) → states E !! out = Some t' →
  result_typed E bad (no_frames (then_impl f out w)) (RVar (HFuture t')).
Proof.
  intros Hw Hf Ho. unfold then_impl.
  destruct (world_typed_new_cell E (set_cell f None w) (Some out) (HFuture t')) as [He Hw'].
  - by intros l [= <-].
  - by apply world_typed_clear_cell.
  - eapply result_extends; [exact He|]. apply result_replies; [done|]. eexists. split; [done|].
    simpl. by rewrite lookup_insert_eq.
Qed.

Lemma cancel_done_typed E bad w l t :
  world_typed E w → states E !! l = Some t →
  result_typed E bad (no_frames (cancel_done l w)) (RVal TBool).
Proof.
  intros Hw Hl. eapply result_at_state; [done..|]. intros s _ []. apply result_replies; [|constructor].
  eapply world_typed_set_heap; [done| |done]. by constructor.
Qed.

Lemma resume_typed E bad w f r rt rt' :
  world_typed E w → reply_typed data_typed E r rt → frame_typed data_typed E f rt rt' →
  ∃ x, resume f r w = Some x ∧ result_typed E bad x rt'.
Proof.
  intros Hw Hr Hf. assert (∀ e, result_typed E bad (w, Reply (Raised e), []) rt') as Hraise.
  { intros e. apply (result_here E bad w); [done|by constructor|done]. }
  destruct Hf; destruct r as [v|e]; simpl; eauto.
  - eexists. split; [done|]. apply (result_here E bad w); [done|constructor|done]. by apply H0.
  - eexists. split; [done|]. apply (result_here E bad w); [done|constructor|done]. by apply H0.
  - eexists. split; [done|]. by eapply then_impl_typed.
  - eexists. split; [done|]. by eapply (continuation_execute_delegate_typed E bad w out (Returned v)).
  - eexists. split; [done|]. by eapply (delegate_catch_typed E bad).
  - eexists. split; [done|]. apply result_here; [done|by constructor|done].
  - eexists. split; [done|]. by eapply (delegate_catch_typed E bad).
  - eexists. split; [done|]. apply result_void. by apply world_typed_set_spent.
  - destruct (unwrap_typed E bad w out (Returned v) t) as (x & Hx & Ht); [done..|].
    simpl in Hx. rewrite Hx. by eexists.
  - eexists. split; [done|]. apply (result_here E bad w); [done|by econstructor|done].
  - eexists. split; [done|]. by eapply cancel_done_typed.
Qed.

(** *** Calls *)
Lemma result_throw {A} E bad w ec msg (f : A → world D * ctrl D) rt :
  world_typed E w →
  result_typed E bad (no_frames (on_cxx w (ThrowFutureError ec msg) f)) rt.
Proof.
  intros Hw. unfold ThrowFutureError. destruct have_exceptions;
    (apply result_here; [done|by constructor|done]).
Qed.

Lemma check_valid_typed E bad w x h f rt :
  world_typed E w → vars E !! x = Some h →
  (∀ l, states E !! l = Some (target h) → handle x w = Some l →
     result_typed E bad (no_frames (f l)) rt) →
  result_typed E bad (no_frames (check_valid x w f)) rt.
Proof.
  intros Hw Hx Hf. unfold check_valid. destruct (handle x w) as [l|] eqn:Hl.
  - apply Hf; [by eapply world_typed_handle|done].
  - by apply result_throw.
Qed.

Lemma result_new_var E bad w sp h :
  points_to E sp (target h) → world_typed E w →
  result_typed E bad (let '(x, w') := new_cell sp w in no_frames (returns w' (VHandle x))) (RVar h).
Proof.
  intros Hsp Hw. destruct (world_typed_new_cell E w sp h) as [He Hw']; [done..|].
  eapply result_extends; [exact He|]. apply result_replies; [done|]. eexists. split; [done|].
  simpl. by rewrite lookup_insert_eq.
Qed.

Lemma handle_move_typed E bad w x h :
  world_typed E w → vars E !! x = Some h →
  result_typed E bad (no_frames (handle_move x w)) (RVar h).
Proof.
  intros Hw Hx. unfold handle_move.
  destruct (world_typed_new_cell E w (handle x w) h) as [He Hw']; [|done|].
  { intros l Hl. by eapply world_typed_handle. }
  eapply result_extends; [exact He|]. apply result_replies; [by apply world_typed_clear_cell|].
  eexists. split; [done|]. simpl. by rewrite lookup_insert_eq.
Qed.

Lemma promise_new_typed E bad w cb t :
  world_typed E w → (∀ E', extends E E' → prog_typed data_typed E' cb (RVal TVoid)) →
  result_typed E bad (no_frames (promise_new cb w)) (RVar (HPromise t)).
Proof.
  intros Hw Hcb. unfold promise_new.
  destruct (world_typed_new_state E w (Some cb) t) as [He Hw']; [by intros p [= <-]|done|].
  eapply result_extends; [exact He|]. apply (result_new_var _ bad (new_state (Some cb) w).2 (Some (next w)) (HPromise t)); [|done].
  intros l [= <-]. simpl. by rewrite lookup_insert_eq.
Qed.

Lemma promise_destroy_typed E bad w p t :
  world_typed E w → vars E !! p = Some (HPromise t) →
  result_typed E bad (no_frames (promise_destroy p w)) (RVal TVoid).
Proof.
  intros Hw Hp. unfold promise_destroy. destruct (handle p w) as [l|] eqn:Hl; [|by apply result_void].
  apply result_here; [by apply world_typed_clear_cell| |done]. econstructor.
  by eapply (world_typed_handle _ _ _ _ _ Hw Hp).
Qed.

Lemma promise_assign_typed E bad w p rhs t :
  world_typed E w → vars E !! p = Some (HPromise t) → vars E !! rhs = Some (HPromise t) →
  result_typed E bad (no_frames (promise_assign p rhs w)) (RVal TVoid).
Proof.
  intros Hw Hp Hr. unfold promise_assign.
  assert (world_typed E (set_cell rhs None w)) as Hw1 by by apply world_typed_clear_cell.
  assert (world_typed E (set_cell p (handle rhs w) (set_cell rhs None w))) as Hw2.
  { eapply world_typed_set_cell; [exact Hp| |done]. intros l Hl. by eapply (world_typed_handle _ w). }
  destruct (handle p (set_cell rhs None w)) as [l|] eqn:Hl; [|by apply result_void].
  apply result_here; [done| |done]. econstructor. by eapply (world_typed_handle _ _ _ _ _ Hw1 Hp).
Qed.

Lemma promise_get_future_typed E bad w p t :
  world_typed E w → vars E !! p = Some (HPromise t) →
  result_typed E bad (no_frames (promise_get_future p w)) (RVar (HFuture t)).
Proof.
  intros Hw Hp. unfold promise_get_future. destruct (handle p w) as [l|] eqn:Hl; simpl.
  - pose proof (world_typed_handle _ _ _ _ _ Hw Hp Hl) as Ht.
    destruct (world_typed_states _ _ _ _ Hw Ht) as (s & -> & Hs).
    eapply result_on_cxx; [done|by eapply mark_retrieved_typed|]. intros s' Hs'.
    apply (result_new_var E bad (set_heap l s' w) (Some l) (HFuture t)); [by intros l' [= <-]|].
    by eapply world_typed_set_heap.
  - change (mark_retrieved None) with (ThrowFutureError (A := sstate D) no_state "mark_retrieved").
    by apply result_throw.
Qed.

Lemma promise_set_typed E bad w p t msg k :
  world_typed E w → vars E !! p = Some (HPromise t) →
  (∀ l, states E !! l = Some t → ctrl_typed data_typed E (k l) (RVal TVoid)) →
  (∀ l u, k l ≠ Halt (Undefined u)) →
  result_typed E bad (no_frames
    (match handle p w with
     | None => on_cxx w (ThrowFutureError no_state msg) (λ _ : (), void_reply w)
     | Some l => (w, k l)
     end)) (RVal TVoid).
Proof.
  intros Hw Hp Hk Hu. destruct (handle p w) as [l|] eqn:Hl.
  - apply result_here; [done| |done]. apply Hk. by eapply (world_typed_handle _ _ _ _ _ Hw Hp).
  - by apply result_throw.
Qed.

Lemma future_get_typed E bad w f t :
  world_typed E w → vars E !! f = Some (HFuture t) →
  result_typed E bad (no_frames (future_get f w)) (RVal t).
Proof.
  intros Hw Hf. eapply check_valid_typed; [done..|]. intros l Hl _.
  apply result_here; [by apply world_typed_clear_cell|by econstructor|done].
Qed.

(** The overload that the traits select is the one for the result of the functor. *)
Lemma then_helper_cases F t r h :
  F [TFuture t] = Some r → then_helper F t = Some h →
  if requires_unwrap_t h then r = TFuture (result_t h) else r = result_t h.
Proof.
  unfold then_helper, invoke_result, invoker_function. intros -> [= <-]. by destruct r.
Qed.

Lemma make_continuation_typed E w l b t to :
  world_typed E w → states E !! l = Some t →
  match b with
  | Continuation functor => functor_typed data_typed E functor t to
  | UnwrappingContinuation functor => functor_typed data_typed E functor t (TFuture to)
  | Unwrapper => False
  end →
  ∃ E' w' c, Futures.make_continuation l b w = Some (w', c) ∧ extends E E' ∧ world_typed E' w' ∧
    states E' !! output c = Some to ∧ continuation_typed data_typed E' c.
Proof.
  intros Hw Hl Hb. destruct (world_typed_states _ _ _ _ Hw Hl) as (s & Hs & Ht).
  unfold Futures.make_continuation. rewrite Hs. simpl.
  set (s' := (release_cancellation_callback s).2).
  destruct (world_typed_new_state E (set_heap l s' w) (cancellation_callback_ s) to) as [He Hw'].
  - intros p Hp. by eapply (st_callback _ _ _ _ Ht).
  - eapply world_typed_set_heap; [done| |done]. by destruct Ht; constructor.
  - eexists _, _, _. split; [done|]. split; [exact He|]. split; [by apply world_typed_fresh_name|].
    split; [simpl; by rewrite lookup_insert_eq|].
    exists t, to. simpl. split; [by eapply (extends_state _ _ _ _ He)|].
    split; [by rewrite lookup_insert_eq|].
    destruct b; eauto using functor_typed_mono. done.
Qed.

Lemma future_then_typed E bad w f t F r h functor :
  world_typed E w → vars E !! f = Some (HFuture t) →
  F [TFuture t] = Some r → then_helper F t = Some h → functor_typed data_typed E functor t r →
  result_typed E bad (future_then (requires_unwrap_t h) f functor w) (RVar (HFuture (result_t h))).
Proof.
  intros Hw Hf Hr Hh Hfun. pose proof (then_helper_cases _ _ _ _ Hr Hh) as Hcase.
  unfold future_then. destruct (handle f w) as [l|] eqn:Hl.
  - pose proof (world_typed_handle _ _ _ _ _ Hw Hf Hl) as Ht.
    destruct (make_continuation_typed E w l
      (if requires_unwrap_t h then UnwrappingContinuation functor else Continuation functor)
      t (result_t h)) as (E' & w' & c & -> & He & Hw' & Hout & Hc); [done..| |].
    { destruct (requires_unwrap_t h); by subst r. }
    eapply result_extends; [exact He|]. eapply result_frames; [done| | |done].
    + econstructor; [by eapply (extends_state _ _ _ _ He)|done].
    + apply frames_typed_1. econstructor; [by eapply (extends_var _ _ _ _ He)|done].
  - unfold check_valid. rewrite Hl. unfold ThrowFutureError.
    destruct have_exceptions; (apply (result_here E bad w); [done|by constructor|done]).
Qed.

(** The only call that can be undefined. *)
Definition bad_cancel (k : ctrl D) w : Prop :=
  ∃ f p, k = Run (PCall (FutureCancel f) p) ∧ handle f w = None.

Lemma do_call_typed E w c p rt :
  world_typed E w → call_typed data_typed E c rt →
  result_typed E (bad_cancel (Run (PCall c p)) w) (do_call c w) rt.
Proof.
  intros Hw Hc. destruct Hc; simpl.
  - by apply promise_new_typed.
  - by apply handle_move_typed.
  - by eapply promise_assign_typed.
  - by eapply promise_destroy_typed.
  - by apply promise_get_future_typed.
  - eapply (promise_set_typed E _ w p0 t "set_value" (λ l, SetValue l v)); [done..| |done].
    intros. by econstructor.
  - eapply (promise_set_typed E _ w p0 t "set_exception" (λ l, SetException l (Some e))); [done..| |done].
    intros. by econstructor.
  - by apply (result_new_var E _ w sp (HFuture t)).
  - by apply handle_move_typed.
  - apply (result_replies E _ (set_cell f None w) (VFuture (handle f w)));
      [by apply world_typed_clear_cell|]. constructor. intros l Hl.
    by eapply (world_typed_handle _ _ _ _ _ Hw H0).
  - apply (result_replies E _ w); [done|constructor].
  - eapply check_valid_typed; [done..|]. intros l Hl _. eapply result_at_state; [done..|].
    intros s _ _. apply result_replies; [done|constructor].
  - eapply check_valid_typed; [done..|]. intros l Hl _.
    apply result_here; [done|by econstructor|done].
  - eapply check_valid_typed; [done..|]. intros l Hl _. eapply result_at_state; [done..|].
    intros s _ _. apply result_replies; [done|constructor].
  - by apply future_get_typed.
  - unfold future_cancel. destruct (handle f w) as [l|] eqn:Hl.
    + apply (result_here E _ w); [done| |done]. econstructor.
      by eapply (world_typed_handle _ _ _ _ _ Hw).
    + exists E, (RVal TBool). split_and!; [done|done|constructor|constructor|].
      intros u _. by exists f, p.
  - by eapply future_then_typed.
Qed.

(** *** Steps *)

(** A thread waits for a state that is not ready. *)
Definition waiting (k : ctrl D) w : Prop :=
  ∃ l s, (k = Get l ∨ k = Wait l) ∧ heap w !! l = Some s ∧ current_state_ s = not_ready.
Definition stopped (k : ctrl D) : Prop :=
  match k with Reply _ | Halt _ => True | _ => False end.

(** The pointers that [notify_now] and [execute] follow without a test. *)
Definition pointers_valid (k : ctrl D) w : Prop :=
  (∀ l, k = Notify l → ∃ x, do_notify l w = (w, Execute x)) ∧
  (∀ x, k = Execute x → kid x ∉ spent w).

Lemma ctrl_step_typed E w k rt :
  world_typed E w → ctrl_typed data_typed E k rt → pointers_valid k w →
  match ctrl_step moved_data w k with
  | Some x => result_typed E (bad_cancel k w) x rt
  | None => waiting k w ∨ stopped k
  end.
Proof.
  intros Hw Hk [Hn Hx]. destruct Hk as [p rt Hp| | | | | | | | |l t Hl|l t Hl| |]; simpl.
  - destruct Hp as [E v rt Hv|E e rt|E c k rt rt' Hc Hk].
    + by apply result_replies.
    + by apply (result_here E _ w); [|constructor|].
    + destruct (do_call_typed E w c k rt Hw Hc) as (E' & rt1 & He & Hw' & Hk' & Hf & Hu).
      destruct (do_call c w) as [[w' k'] fs]. simpl in *. exists E', rt1. split_and!; try done. simpl.
      eapply frames_typed_app; [exact Hf|]. apply frames_typed_1. constructor.
      intros E2 r He2 Hr. apply Hk; [by etrans|done].
  - by right.
  - by right.
  - by eapply do_set_value_typed.
  - by eapply do_set_exception_typed.
  - by eapply do_abandon_typed.
  - destruct (Hn _ eq_refl) as [x Hn']. unfold do_notify in *. eapply result_at_state; [done..|].
    intros s Hs Ht. unfold at_state in Hn'. rewrite Hs in Hn'.
    destruct (continuation_ s) as [c|] eqn:Hc; [|done].
    apply result_here; [done| |done]. constructor. by eapply (st_continuation _ _ _ _ Ht).
  - by eapply do_set_continuation_typed.
  - eapply do_execute_typed; eauto.
  - destruct (do_get moved_data l w) as [r|] eqn:Hg; simpl; [by eapply do_get_typed|].
    left. destruct (world_typed_states _ _ _ _ Hw Hl) as (s & Hs & _). exists l, s.
    split; [by left|]. split; [done|]. unfold do_get in Hg. rewrite Hs in Hg.
    apply is_ready_false. destruct (is_ready_unlocked s) eqn:Hr; [|done].
    unfold get in Hg. by rewrite Hr in Hg.
  - destruct (world_typed_states _ _ _ _ Hw Hl) as (s & Hs & _). unfold do_wait. rewrite Hs.
    unfold wait. destruct (is_ready_unlocked s) eqn:Hr; simpl.
    + by apply result_void.
    + left. exists l, s. split; [by right|]. split; [done|]. by apply is_ready_false.
  - by eapply do_cancel_typed.
  - by eapply do_cancel_test_typed.
Qed.

Lemma result_thread E bad w k fs' fs rt rt' :
  result_typed E bad (w, k, fs') rt → frames_typed data_typed E fs rt rt' →
  ∃ E', extends E E' ∧ world_typed E' w ∧ thread_typed data_typed E' (k, fs' ++ fs) rt' ∧
    (∀ u, k = Halt (Undefined u) → bad).
Proof.
  intros (E' & rt1 & He & Hw & Hk & Hf & Hu) Hfs. exists E'. split_and!; [done..| |done].
  exists rt1. split; [done|]. eapply frames_typed_app; [exact Hf|]. by eapply frames_typed_mono.
Qed.

Lemma thread_step_ctrl w k fs :
  (∀ r, k ≠ Reply r) →
  thread_step moved_data w (k, fs) =
  ('(w', c', fs') ← ctrl_step moved_data w k; Some (w', (c', fs' ++ fs))).
Proof. by destruct k; simpl; intros Hr; try destruct (Hr r). Qed.

Lemma thread_step_typed E w k fs rt :
  world_typed E w → thread_typed data_typed E (k, fs) rt → pointers_valid k w →
  match thread_step moved_data w (k, fs) with
  | Some (w', t') =>
      ∃ E', extends E E' ∧ world_typed E' w' ∧ thread_typed data_typed E' t' rt ∧
        (∀ u, t'.1 = Halt (Undefined u) → bad_cancel k w)
  | None =>
      waiting k w ∨ halted (k, fs) ∨ ∃ r, k = Reply r ∧ fs = [] ∧ reply_typed data_typed E r rt
  end.
Proof.
  intros Hw (rt' & Hk & Hf) Hp. simpl in Hk, Hf.
  assert ((∃ r, k = Reply r) ∨ ∀ r, k ≠ Reply r) as [[r ->]|Hr] by (destruct k; eauto; by right).
  - destruct Hf as [rt|f fs rt1 rt2 rt3 Hf Hfs].
    + right. right. exists r. split_and!; [done..|]. by inversion Hk.
    + inversion Hk as [|? ? Hrep| | | | | | | | | | |]; simplify_eq.
      destruct (resume_typed E False w f r rt1 rt2) as ([[w' k'] fs'] & Hres & Ht); [done..|].
      unfold thread_step. rewrite Hres. simpl.
      destruct (result_thread _ _ _ _ _ fs _ rt3 Ht) as (E' & ? & ? & ? & Hu); [done|].
      exists E'. split_and!; [done..|]. intros u Hu'. by destruct (Hu u).
  - rewrite thread_step_ctrl by done.
    pose proof (ctrl_step_typed E w k rt' Hw Hk Hp) as Hs.
    destruct (ctrl_step moved_data w k) as [[[w' k'] fs']|]; simpl.
    + by eapply result_thread.
    + destruct Hs as [|Hs]; [by left|]. right. left. destruct k; naive_solver.
Qed.
End lemmas.

(** ** Type soundness *)
Section soundness.
Context {D : Type} `{Build} (moved_data : D → D) (data_typed : ctype → D → Prop).
Context (moved_typed : ∀ t d, data_typed t d → data_typed t (moved_data d)).
Implicit Types (c : config D) (bodies : list (prog D)) (rts : list reply_type).

Definition no_env : env := mkEnv ∅ ∅.
Definition bodies_typed bodies rts : Prop :=
  Forall2 (λ p rt, prog_typed data_typed no_env p rt) bodies rts.

Lemma init_typed bodies rts :
  bodies_typed bodies rts → config_typed data_typed rts (init bodies).
Proof.
  intros Hb. exists no_env. split.
  - by constructor.
  - simpl. apply Forall2_fmap_l. eapply Forall2_impl; [exact Hb|]. intros p rt Hp. simpl.
    exists rt. by repeat constructor.
Qed.

(** Two steps of the configuration at once: the types, and what the step may end in. *)
Lemma config_step_typed bodies rts c c' i :
  reachable moved_data bodies c → config_typed data_typed rts c →
  config_step moved_data i c = Some c' →
  config_typed data_typed rts c' ∧
  ∀ u fs', c'.2 !! i = Some (Halt (Undefined u), fs') →
    ∃ k fs, c.2 !! i = Some (k, fs) ∧ bad_cancel k c.1.
Proof.
  intros Hr (E & Hw & Hts) Hs. unfold config_step in Hs.
  destruct (existsb halted c.2); [done|]. apply bind_Some in Hs as ([k fs] & Hi & Hs).
  apply bind_Some in Hs as ([w' t'] & Ht & [= <-]).
  destruct (Forall2_lookup_l _ _ _ _ _ Hts Hi) as (rt & Hrt & Htt).
  pose proof (thread_step_typed moved_data data_typed moved_typed E c.1 k fs rt Hw Htt
    (continuation_pointers_valid moved_data bodies c i k fs Hr Hi)) as Hst.
  rewrite Ht in Hst. destruct Hst as (E' & He & Hw' & Ht' & Hu). split.
  - exists E'. split; [done|]. simpl. rewrite <- (list_insert_id rts i rt) by done.
    apply Forall2_insert; [|done]. eapply Forall2_impl; [exact Hts|].
    intros. by eapply thread_typed_mono.
  - intros u fs'. simpl. rewrite list_lookup_insert_eq by (by eapply lookup_lt_Some).
    intros [= ->]. exists k, fs. split; [done|]. by eapply Hu.
Qed.

Lemma reachable_typed bodies rts c :
  bodies_typed bodies rts → reachable moved_data bodies c → config_typed data_typed rts c.
Proof.
  intros Hb. revert c. apply (rtc_ind_r (config_typed data_typed rts)); [by apply init_typed|].
  intros c c' Hr [i Hs] Hc. by eapply config_step_typed.
Qed.

Lemma config_step_blocked c i :
  config_step moved_data i c = None → existsb halted c.2 = false →
  ∀ t, c.2 !! i = Some t → thread_step moved_data c.1 t = None.
Proof.
  intros Hs Hh t Hi. unfold config_step in Hs. rewrite Hh, Hi in Hs. simpl in Hs.
  by destruct (thread_step moved_data c.1 t) as [[w' t']|].
Qed.

(** C4: type soundness.  Take programs whose calls are typed as the traits of the library
    type them.  In every interleaving, whatever a thread has replied has the type of its
    program and every shared state holds a value of its type; a thread that cannot make a
    step has finished or waits for a state that is not ready, unless the program was
    terminated; and a step ends in undefined behaviour only when it is [cancel()] on a
    future without a shared state. *)
Theorem well_typed_programs bodies rts c :
  bodies_typed bodies rts → reachable moved_data bodies c →
  config_typed data_typed rts c ∧
  (∀ i k fs, c.2 !! i = Some (k, fs) → config_step moved_data i c = None →
     existsb halted c.2 ∨ waiting k c.1 ∨ (∃ r, k = Reply r ∧ fs = [])) ∧
  (∀ i c' u fs, config_step moved_data i c = Some c' → c'.2 !! i = Some (Halt (Undefined u), fs) →
     ∃ f p fs', c.2 !! i = Some (Run (PCall (FutureCancel f) p), fs') ∧ handle f c.1 = None).
Proof.
  intros Hb Hr. pose proof (reachable_typed _ _ _ Hb Hr) as Ht. split_and!; [done| |].
  - intros i k fs Hi Hs. destruct (existsb halted c.2) eqn:Hh; [by left|right].
    destruct Ht as (E & Hw & Hts). destruct (Forall2_lookup_l _ _ _ _ _ Hts Hi) as (rt & _ & Htt).
    pose proof (thread_step_typed moved_data data_typed moved_typed E c.1 k fs rt Hw Htt
      (continuation_pointers_valid moved_data bodies c i k fs Hr Hi)) as Hst.
    rewrite (config_step_blocked c i Hs Hh _ Hi) in Hst.
    destruct Hst as [|[Hk|(r & -> & -> & _)]]; [by left| |right; eauto].
    assert (existsb halted c.2 = true) as Hh'; [|congruence].
    apply existsb_exists. exists (k, fs). split; [|by apply Is_true_true].
    apply list_elem_of_In. by eapply list_elem_of_lookup_2.
  - intros i c' u fs Hs Hu.
    destruct (config_step_typed bodies rts c c' i Hr Ht Hs) as [_ Hbad].
    destruct (Hbad _ _ Hu) as (k & fs' & Hi & f & p & -> & Hf). eauto 6.
Qed.
End soundness.

(** *** Typing application code *)
Section typing_rules.
Context {D : Type} (data_typed : ctype → D → Prop).
Implicit Types (E : env).

Lemma with_handle_typed E k h rt :
  (∀ E' x, extends E E' → vars E' !! x = Some h → prog_typed data_typed E' (k x) rt) →
  ∀ E' r, extends E E' → reply_typed data_typed E' r (RVar h) →
    prog_typed data_typed E' (with_handle k r) rt.
Proof. intros Hk E' [v|e] He Hr; [destruct Hr as (x & -> & Hx); by apply Hk|constructor]. Qed.

Lemma with_value_typed E k t rt :
  (∀ E' v, extends E E' → val_typed data_typed E' v t → prog_typed data_typed E' (k v) rt) →
  ∀ E' r, extends E E' → reply_typed data_typed E' r (RVal t) →
    prog_typed data_typed E' (with_value k r) rt.
Proof. intros Hk E' [v|e] He Hr; [by apply Hk|constructor]. Qed.

Lemma reply_with_typed E rt :
  ∀ E' r, extends E E' → reply_typed data_typed E' r rt → prog_typed data_typed E' (reply_with r) rt.
Proof. intros E' [v|e] He Hr; by constructor. Qed.
End typing_rules.

(** *** Example: [then()] on a future of an [int] *)
Definition int_typed (t : ctype) (n : nat) : Prop := t = TObject "int".

Lemma get_functor_typed E t : functor_typed int_typed E get_functor t t.
Proof. intros E' x He Hx. econstructor; [by constructor|apply reply_with_typed]. Qed.

Lemma example_typed : bodies_typed int_typed example_bodies [RVal (TObject "int")].
Proof.
  constructor; [|constructor]. unfold then_set_get. set (int := TObject "int").
  eapply PT_Call; [apply (CT_NewPromise _ _ _ int); intros; repeat constructor|].
  apply with_handle_typed. intros E1 p He1 Hp.
  eapply PT_Call; [by constructor|]. apply with_handle_typed. intros E2 f He2 Hf.
  eapply PT_Call.
  { apply (CT_FutureThen int_typed E2 f int (lambda (TFuture int) (Some int)) int
             (mkHelper int int false)); [done|reflexivity..|].
    apply get_functor_typed. }
  apply with_handle_typed. intros E3 g He3 Hg.
  eapply PT_Call.
  { econstructor; [by eapply (extends_var E2), (extends_var E1)|by constructor]. }
  apply with_value_typed. intros E4 v He4 _.
  eapply PT_Call; [constructor; by eapply (extends_var E3)|]. apply reply_with_typed.
Qed.

Lemma well_typed_programs_witness :
  config_typed (H := example_build) int_typed [RVal (TObject "int")] example_done ∧
  ∀ i k fs, example_done.2 !! i = Some (k, fs) → ∃ r, k = Reply r ∧ fs = [].
Proof.
  destruct (well_typed_programs (H := example_build) id int_typed (λ t d Ht, Ht)
    example_bodies [RVal (TObject "int")] example_done example_typed example_done_reachable)
    as (Ht & _).
  split; [exact Ht|]. intros [|i] k fs Hi; [|discriminate].
  vm_compute in Hi. injection Hi as <- <-. eauto.
Defined.
