(* ===== verification/FutureChain.v ===== *)
(** * Chains of [then()] of any length

    A thread attaches a continuation to a future, another one to the future that [then()]
    returned, and so on, satisfies the promise before, between or after these calls, and
    gets the last future. *)

From S2P Require Import Prelude Status Throw SharedState Futures.

Section programs.
Context {D : Type}.
Implicit Types (f p : nat) (v : val D) (r : reply D).

(** A functor that gets its argument and computes a value or throws. *)
Definition functor (g : val D → reply D) (f : nat) : prog D :=
  PCall (FutureGet f) (λ r, match r with Returned v => reply_with (g v) | Raised e => PThrow e end).

(** [f.then(g1).then(g2)...]: the last future goes to [k]. *)
Fixpoint attach (gs : list (val D → reply D)) f (k : nat → prog D) : prog D :=
  match gs with
  | [] => k f
  | g :: gs => PCall (FutureThen false f (functor g)) (with_handle (λ f', attach gs f' k))
  end.

Definition satisfy p r : prog D → prog D := λ k,
  PCall (match r with Returned v => PromiseSetValue p v | Raised e => PromiseSetException p (Some e) end)
    (with_value (λ _, k)).

(** The promise is satisfied with [r] after the first [then()]s, before the others. *)
Definition chain_prog (gs1 gs2 : list (val D → reply D)) r : prog D :=
  PCall (NewPromise (PRet VVoid)) (with_handle (λ p,
  PCall (PromiseGetFuture p) (with_handle (λ f,
  attach gs1 f (λ f1,
  satisfy p r (
  attach gs2 f1 (λ f2, PCall (FutureGet f2) reply_with))))))).

(** What one functor makes of the result before it: an exception passes. *)
Definition pass r (g : val D → reply D) : reply D :=
  match r with Returned v => g v | Raised e => Raised e end.

(** The exceptions are of the application. *)
Definition plain r : bool := match r with Returned _ => true | Raised e => negb (is_future_error e) end.
End programs.

Section chain.
Context {D : Type} `{Build} (moved_data : D → D).
Implicit Types (w : world D) (r : reply D) (gs : list (val D → reply D)).

(** ** One thread *)
Definition tstep (a b : world D * thread D) : Prop := thread_step moved_data a.1 a.2 = Some b.
Notation steps := (rtc tstep).

Lemma steps_l a b c : thread_step moved_data a.1 a.2 = Some b → steps b c → steps a c.
Proof. intros. by eapply rtc_l. Qed.

(** The state is satisfied with [r]. *)
Definition Satisfy r (l : nat) : ctrl D :=
  match r with Returned v => SetValue l v | Raised e => SetException l (Some e) end.
Definition holds r (s : sstate D) : Prop :=
  match r with
  | Returned v => current_state_ s = has_value ∧ buffer_ s = Some v
  | Raised e => current_state_ s = has_exception ∧ exception_ s = Some e
  end.
Definition pending (s : sstate D) : Prop := current_state_ s = not_ready ∧ buffer_ s = None.

(** The states of a chain: each has the continuation that satisfies the next one. *)
Inductive linked w : nat → list (val D → reply D) → nat → list nat → Prop :=
| linked_nil l s :
    heap w !! l = Some s → pending s → continuation_ s = None → l < next w →
    linked w l [] l [l]
| linked_cons l s c g gs last ls :
    heap w !! l = Some s → pending s → continuation_ s = Some c →
    input c = l → body c = Continuation (functor g) → kid c ∉ spent w →
    l < next w → kid c < next w → l ∉ ls →
    linked w (output c) gs last ls → linked w l (g :: gs) last (l :: ls).

(** The cancellation callbacks that were called. *)
Definition is_cancel (e : event) : bool := match e with ECancelCallback _ => true | _ => false end.
Definition cancels w : list event := List.filter is_cancel (log w).
Lemma cancels_emit e w : is_cancel e = false → cancels (emit e w) = cancels w.
Proof. intros He. unfold cancels. simpl. rewrite List.filter_app. simpl. by rewrite He, app_nil_r. Qed.

(** The callback of a state, and whether [cancel] has called it. *)
Definition callback w (l : nat) : option (option (prog D) * bool) :=
  (λ s : sstate D, (cancellation_callback_ s, cancelled_ s)) <$> heap w !! l.

(** What a call changes: only the states [ls] and new names. *)
Record changes w w' (ls : list nat) : Prop := {
  ch_heap : ∀ l, l ∉ ls → l < next w → heap w' !! l = heap w !! l;
  ch_cells : ∀ x, x < next w → cells w' !! x = cells w !! x;
  ch_next : next w ≤ next w';
  ch_spent : (∀ k, k ∈ spent w → k < next w) → ∀ k, k ∈ spent w' → k < next w';
  ch_cancels : cancels w' = cancels w;
}.

Lemma changes_refl w ls : changes w w ls.
Proof. by constructor. Qed.
Lemma changes_trans w1 w2 w3 ls ls' :
  changes w1 w2 ls → changes w2 w3 ls' → changes w1 w3 (ls ++ ls').
Proof.
  intros [] []. constructor.
  - intros l Hl Hlt. rewrite ch_heap1; [|set_solver|lia]. apply ch_heap0; [set_solver|done].
  - intros x Hx. rewrite ch_cells1 by lia. by apply ch_cells0.
  - lia.
  - intros Hk. apply ch_spent1. by apply ch_spent0.
  - by rewrite ch_cancels1.
Qed.
Lemma changes_weaken w w' ls ls' : changes w w' ls → ls ⊆ ls' → changes w w' ls'.
Proof. intros [] Hs. constructor; [|done..]. intros l Hl. apply ch_heap0. set_solver. Qed.

Lemma linked_elem w l gs last ls l' : linked w l gs last ls → l' ∈ ls → l' < next w.
Proof. induction 1; set_solver. Qed.
Lemma linked_last w l gs last ls : linked w l gs last ls → last ∈ ls.
Proof. induction 1; set_solver. Qed.
Lemma linked_same w w' l gs last ls :
  linked w l gs last ls → (∀ l', l' ∈ ls → heap w' !! l' = heap w !! l') →
  (∀ k, k ∈ spent w' → k < next w → k ∈ spent w) → next w ≤ next w' → linked w' l gs last ls.
Proof.
  intros Hl Hh Hs Hn. induction Hl.
  - econstructor; [rewrite Hh by set_solver; done|done..|lia].
  - econstructor; [rewrite Hh by set_solver; done|done..| |lia|lia|done|].
    + intros Hk. naive_solver.
    + apply IHHl. intros l' Hl'. apply Hh. set_solver.
Qed.

(** ** Steps *)
Definition guard r (out : nat) : list (frame D) :=
  match r with Returned _ => [FDeliverGuard out] | Raised _ => [] end.

Context (Hexn : have_exceptions = true).

Lemma satisfy_pending w r l s fs :
  heap w !! l = Some s → pending s → ∃ s', holds r s' ∧ continuation_ s' = continuation_ s ∧
    thread_step moved_data w (Satisfy r l, fs) =
    Some (emit (ESatisfied l) (set_heap l s' w),
      (if continuation_ s is Some _ then Notify l else Reply (Returned VVoid), fs)).
Proof.
  intros Hs [Hp Hb]. destruct r as [v|e]; simpl.
  - exists (mkState (retrieved_ s) has_value (exception_ s) (continuation_ s) (cancelled_ s)
      (cancellation_callback_ s) (Some v)). split; [done|]. split; [done|].
    unfold do_set_value, at_state. rewrite Hs. unfold set_value.
    rewrite (proj2 (is_ready_false s)) by done. rewrite Hb. simpl. unfold satisfied, notify_now. simpl.
    by destruct (continuation_ s).
  - exists (mkState (retrieved_ s) has_exception (Some e) (continuation_ s) (cancelled_ s)
      (cancellation_callback_ s) (buffer_ s)). split; [done|]. split; [done|].
    unfold do_set_exception, at_state. rewrite Hs. unfold set_exception, set_exception_locked.
    rewrite (proj2 (is_ready_false s)) by done. simpl. unfold satisfied, notify_now. simpl.
    by destruct (continuation_ s).
Qed.

Lemma changes_satisfied w l s' : changes w (emit (ESatisfied l) (set_heap l s' w)) [l].
Proof.
  constructor; simpl; try done.
  - intros l' Hl' _. rewrite lookup_insert_ne; [done|set_solver].
  - by apply (cancels_emit (ESatisfied l) (set_heap l s' w)).
Qed.

(** [get] on a satisfied state. *)
Lemma get_holds w r l s fs :
  heap w !! l = Some s → holds r s → ∃ s',
    thread_step moved_data w (Get l, fs) = Some (set_heap l s' w, (Reply r, fs)) ∧
    current_state_ s' = current_state_ s.
Proof.
  intros Hs Hr. unfold thread_step, ctrl_step, do_get. rewrite Hs. unfold get.
  destruct r as [v|e]; destruct Hr as [Hc Hv].
  - assert (is_ready_unlocked s = true) as -> by (apply is_ready_true; congruence).
    rewrite bool_decide_false by congruence. rewrite Hv. simpl. eauto.
  - assert (is_ready_unlocked s = true) as -> by (apply is_ready_true; congruence).
    rewrite bool_decide_true by done. rewrite Hexn, Hv. simpl. exists s. split; [|done].
    unfold set_heap. rewrite insert_id by done. by destruct w.
Qed.

Lemma execute_steps w c s r g fs :
  heap w !! input c = Some s → holds r s → body c = Continuation (functor g) →
  kid c ∉ spent w → input c < next w → plain (pass r g) = true →
  ∃ w1, steps (w, (Execute c, fs))
          (w1, (Satisfy (pass r g) (output c), guard (pass r g) (output c) ++ FOutputReset (kid c) :: fs)) ∧
    changes w w1 [input c] ∧ spent w1 = spent w.
Proof.
  intros Hs Hr Hb Hk Hi Hp.
  set (w0 := fresh_name (set_cell (next w) (Some (input c)) (emit (EExecute (kid c)) w))).
  set (w2 := set_cell (next w) None w0).
  destruct (get_holds w2 r (input c) s
    (FProg (λ r, match r with Returned v => reply_with (g v) | Raised e => PThrow e end)
       :: FDeliver (output c) :: FOutputReset (kid c) :: fs) Hs Hr) as (s' & Hg & _).
  exists (set_heap (input c) s' w2). split_and!; [| |done].
  - eapply steps_l.
    { simpl. unfold do_execute. simpl. rewrite Hs, Hb, decide_False by done. simpl. reflexivity. }
    eapply steps_l.
    { simpl. unfold future_get, check_valid, handle. simpl. rewrite lookup_insert_eq. simpl. reflexivity. }
    eapply steps_l; [exact Hg|].
    eapply steps_l; [reflexivity|].
    destruct r as [v|e]; simpl in *.
    + destruct (g v) as [v'|e]; simpl in *.
      * eapply steps_l; [reflexivity|]. by eapply steps_l; [reflexivity|].
      * eapply steps_l; [reflexivity|]. eapply steps_l; [simpl; unfold delegate_catch|done].
        by destruct (is_future_error e).
    + eapply steps_l; [reflexivity|]. eapply steps_l; [simpl; unfold delegate_catch|done].
      by destruct (is_future_error e).
  - constructor; simpl.
    + intros l Hl _. rewrite lookup_insert_ne; [done|]. set_solver.
    + intros x Hx. rewrite !lookup_insert_ne by lia. done.
    + lia.
    + auto.
    + by apply (cancels_emit (EExecute (kid c))).
Qed.

Lemma unwind_steps w r out k fs :
  steps (w, (Reply (Returned VVoid), guard r out ++ FOutputReset k :: fs))
    (set_spent k w, (Reply (Returned VVoid), fs)).
Proof.
  destruct r; simpl; [eapply steps_l; [reflexivity|]|]; by eapply steps_l; [reflexivity|].
Qed.

(** ** The promise is satisfied after the [then()]s *)
Lemma satisfy_steps gs : ∀ w r l last ls fs,
  linked w l gs last ls → plain r = true → (∀ g v, g ∈ gs → plain (g v) = true) →
  ∃ w' s, steps (w, (Satisfy r l, fs)) (w', (Reply (Returned VVoid), fs)) ∧ changes w w' ls ∧
    heap w' !! last = Some s ∧ holds (foldl pass r gs) s ∧ continuation_ s = None.
Proof.
  induction gs as [|g gs IH]; intros w r l last ls fs Hl Hr Hg.
  - inversion Hl as [? s Hs Hp Hc Hlt|]; simplify_eq.
    destruct (satisfy_pending w r last s fs Hs Hp) as (s' & Hh & Hc' & Hst). rewrite Hc in Hc', Hst.
    eexists _, s'. split; [by eapply steps_l|]. split_and!; [|simpl; by rewrite lookup_insert_eq|done|done].
    apply changes_satisfied.
  - inversion Hl as [|? s c ? ? ? ls' Hs Hp Hc Hi Hb Hk Hlt Hkl Hn Hrest]; simplify_eq.
    destruct (satisfy_pending w r (input c) s fs Hs Hp) as (s' & Hh & Hc' & Hst). rewrite Hc in Hc', Hst.
    set (w1 := emit (ESatisfied (input c)) (set_heap (input c) s' w)) in *.
    assert (heap w1 !! input c = Some s') as Hs1 by (simpl; by rewrite lookup_insert_eq).
    assert (plain (pass r g) = true) as Hpass by (destruct r; simpl; [apply Hg; set_solver|done]).
    destruct (execute_steps w1 c s' r g fs Hs1 Hh Hb Hk Hlt Hpass) as (w2 & Hex & Hch2 & Hsp2).
    assert (changes w w1 [input c]) as Hch1.
    { apply changes_satisfied. }
    assert (linked w2 (output c) gs last ls') as Hrest2.
    { eapply linked_same; [exact Hrest| | |].
      - intros l' Hl'. assert (l' ≠ input c) by (intros ->; done).
        pose proof (linked_elem _ _ _ _ _ _ Hrest Hl').
        rewrite (ch_heap _ _ _ Hch2), (ch_heap _ _ _ Hch1); set_solver.
      - rewrite Hsp2. done.
      - pose proof (ch_next _ _ _ Hch2). simpl in *. lia. }
    destruct (IH w2 (pass r g) (output c) last ls'
      (guard (pass r g) (output c) ++ FOutputReset (kid c) :: fs) Hrest2 Hpass)
      as (w3 & s3 & Hst3 & Hch3 & Hs3 & Hh3 & Hc3); [set_solver|].
    exists (set_spent (kid c) w3), s3. split_and!; [| |done..].
    + eapply steps_l; [exact Hst|]. eapply steps_l.
      { simpl. unfold do_notify, at_state. rewrite Hs1, Hc'. reflexivity. }
      etrans; [exact Hex|]. etrans; [exact Hst3|]. apply unwind_steps.
    + assert (changes w w3 (input c :: ls')) as Hch.
      { eapply changes_weaken; [eapply changes_trans; [exact Hch1|eapply changes_trans;
          [exact Hch2|exact Hch3]]|]. set_solver. }
      destruct Hch. constructor; [done..| |done]. simpl. intros Hsp k [->%elem_of_singleton|Hk']%elem_of_union.
      * lia.
      * by apply ch_spent0.
Qed.

(** ** A [then()] on the last future of the chain *)
Lemma linked_snoc w w' l gs last ls g c s s' :
  linked w l gs last ls →
  heap w' !! last = Some s → pending s → continuation_ s = Some c → input c = last →
  body c = Continuation (functor g) → kid c ∉ spent w' → kid c < next w' →
  heap w' !! output c = Some s' → pending s' → continuation_ s' = None → output c < next w' →
  output c ∉ ls → (∀ l', l' ∈ ls → l' ≠ last → heap w' !! l' = heap w !! l') →
  spent w' = spent w → next w ≤ next w' →
  linked w' l (gs ++ [g]) (output c) (ls ++ [output c]).
Proof.
  intros Hl Hs Hp Hc Hi Hb Hk Hkl Hs' Hp' Hc' Ho Hn Hh Hsp Hnx.
  induction Hl as [l s0 Hs0 Hp0 Hc0 Hlt|l s0 c0 g0 gs last ls Hs0 Hp0 Hc0 Hi0 Hb0 Hk0 Hlt0 Hkl0 Hn0 Hl IH].
  - simpl. econstructor; [done..|lia|lia|set_solver|]. by econstructor.
  - simpl. pose proof (linked_last _ _ _ _ _ Hl).
    assert (l ≠ last) by (intros ->; done).
    econstructor; [rewrite Hh by set_solver; done|done..|congruence|lia|lia|set_solver|].
    apply IH; set_solver.
Qed.

Definition names_used w : Prop := ∀ k, k ∈ spent w → k < next w.

Lemma set_continuation_pending w l c s fs :
  heap w !! l = Some s → pending s → continuation_ s = None →
  thread_step moved_data w (SetContinuation l c, fs) =
  Some (set_heap l (mkState (retrieved_ s) (current_state_ s) (exception_ s) (Some c)
          (cancelled_ s) (cancellation_callback_ s) (buffer_ s)) w, (Reply (Returned VVoid), fs)).
Proof.
  intros Hs [Hp _] Hc. unfold thread_step, ctrl_step, do_set_continuation, at_state.
  rewrite Hs. unfold set_continuation. by rewrite Hc, (proj2 (is_ready_false s)).
Qed.
Lemma set_continuation_ready w l c s fs :
  heap w !! l = Some s → is_ready_unlocked s = true → continuation_ s = None →
  thread_step moved_data w (SetContinuation l c, fs) = Some (w, (Execute c, fs)).
Proof.
  intros Hs Hr Hc. unfold thread_step, ctrl_step, do_set_continuation, at_state.
  rewrite Hs. unfold set_continuation. by rewrite Hc, Hr.
Qed.

Lemma attach_pending w l gs last ls f g k fs :
  linked w l gs last ls → handle f w = Some last → f < next w → names_used w →
  ∃ w' x last', steps (w, (Run (PCall (FutureThen false f (functor g)) k), fs))
      (w', (Run (k (Returned (VHandle x))), fs)) ∧
    linked w' l (gs ++ [g]) last' (ls ++ [last']) ∧ handle x w' = Some last' ∧
    next w ≤ x < next w' ∧ names_used w' ∧
    (∀ y, y < next w → y ≠ f → cells w' !! y = cells w !! y) ∧
    callback w' last' = (λ x, (x.1, false)) <$> callback w last ∧ cancels w' = cancels w.
Proof.
  intros Hl Hf Hlt Hu.
  assert (∃ s, heap w !! last = Some s ∧ pending s ∧ continuation_ s = None ∧ last < next w)
    as (s & Hs & Hp & Hc & Hll) by (clear -Hl; induction Hl; eauto).
  set (s1 := (release_cancellation_callback s).2).
  set (c := mkContinuation (S (next w)) (Continuation (functor g)) last (next w)).
  set (s2 := mkState (retrieved_ s1) (current_state_ s1) (exception_ s1) (Some c) (cancelled_ s1)
    (cancellation_callback_ s1) (buffer_ s1)).
  set (w1 := fresh_name (new_state (cancellation_callback_ s) (set_heap last s1 w)).2).
  assert (heap w1 !! last = Some s1) as Hs1.
  { simpl. by rewrite lookup_insert_ne, lookup_insert_eq by lia. }
  set (w2 := set_heap last s2 w1).
  set (w3 := (new_cell (Some (next w)) (set_cell f None w2)).2).
  exists w3, (S (S (next w))), (next w). split_and!; [| | |simpl; lia..| | | |done].
  - eapply steps_l.
    { simpl. unfold future_then. rewrite Hf. unfold make_continuation. rewrite Hs. simpl. reflexivity. }
    eapply steps_l.
    { by apply (set_continuation_pending w1 last c s1). }
    eapply steps_l; [reflexivity|]. by eapply steps_l; [reflexivity|].
  - eapply (linked_snoc w w3 l gs last ls g c s2 (shared_state_new (cancellation_callback_ s))); try done.
    + simpl. by rewrite lookup_insert_eq.
    + simpl. intros Hk. apply Hu in Hk. lia.
    + simpl. lia.
    + simpl. by rewrite lookup_insert_ne, lookup_insert_eq by lia.
    + simpl. lia.
    + simpl. intros Hin. pose proof (linked_elem _ _ _ _ _ _ Hl Hin). lia.
    + intros l' Hin Hne. pose proof (linked_elem _ _ _ _ _ _ Hl Hin). simpl.
      by rewrite !lookup_insert_ne by lia.
    + simpl. lia.
  - unfold handle. simpl. by rewrite lookup_insert_eq.
  - intros y Hy. apply Hu in Hy. simpl. lia.
  - intros y Hy Hne. simpl. by rewrite !lookup_insert_ne by lia.
  - unfold callback. simpl. by rewrite lookup_insert_ne, lookup_insert_eq, Hs by lia.
Qed.

Lemma attach_ready w r last s f g k fs :
  heap w !! last = Some s → holds r s → continuation_ s = None → last < next w →
  handle f w = Some last → f < next w → names_used w → plain (pass r g) = true →
  ∃ w' x last' s', steps (w, (Run (PCall (FutureThen false f (functor g)) k), fs))
      (w', (Run (k (Returned (VHandle x))), fs)) ∧
    heap w' !! last' = Some s' ∧ holds (pass r g) s' ∧ continuation_ s' = None ∧
    last' < next w' ∧ handle x w' = Some last' ∧ x < next w' ∧ names_used w'.
Proof.
  intros Hs Hh Hc Hll Hf Hlt Hu Hp.
  set (s1 := (release_cancellation_callback s).2).
  set (c := mkContinuation (S (next w)) (Continuation (functor g)) last (next w)).
  set (w1 := fresh_name (new_state (cancellation_callback_ s) (set_heap last s1 w)).2).
  assert (heap w1 !! last = Some s1) as Hs1.
  { simpl. by rewrite lookup_insert_ne, lookup_insert_eq by lia. }
  assert (holds r s1) as Hh1 by (by destruct r).
  assert (is_ready_unlocked s1 = true) as Hrd.
  { apply is_ready_true. destruct r; destruct Hh1; congruence. }
  destruct (execute_steps w1 c s1 r g (FThen f (next w) :: FProg k :: fs))
    as (w2 & Hex & Hch & Hsp); [done|done|done| |simpl; lia|done|].
  { simpl. intros Hk. apply Hu in Hk. lia. }
  assert (linked w2 (next w) [] (next w) [next w]) as Hout.
  { apply (linked_nil w2 (next w) (shared_state_new (cancellation_callback_ s))); [|by split|done|].
    - rewrite (ch_heap _ _ _ Hch); simpl; [by rewrite lookup_insert_eq| |lia].
      intros Hin%list_elem_of_singleton. lia.
    - pose proof (ch_next _ _ _ Hch). simpl in *. lia. }
  destruct (satisfy_steps [] w2 (pass r g) (next w) (next w) [next w]
    (guard (pass r g) (next w) ++ FOutputReset (S (next w)) :: FThen f (next w) :: FProg k :: fs)
    Hout Hp) as (w3 & s3 & Hst3 & Hch3 & Hs3 & Hh3 & Hc3); [set_solver|].
  set (w4 := set_spent (S (next w)) w3).
  pose proof (ch_next _ _ _ Hch) as Hn2. pose proof (ch_next _ _ _ Hch3) as Hn3. simpl in Hn2.
  exists (new_cell (Some (next w)) (set_cell f None w4)).2, (next w4), (next w), s3.
  split_and!; [|done|done|done|simpl; lia| |simpl; lia|].
  - eapply steps_l.
    { simpl. unfold future_then. rewrite Hf. unfold make_continuation. rewrite Hs. simpl. reflexivity. }
    eapply steps_l.
    { by apply (set_continuation_ready w1 last c s1). }
    etrans; [exact Hex|]. etrans; [exact Hst3|]. etrans; [apply unwind_steps|].
    eapply steps_l; [reflexivity|]. by eapply steps_l; [reflexivity|].
  - unfold handle. simpl. by rewrite lookup_insert_eq.
  - intros y. simpl. intros [->%elem_of_singleton|Hy]%elem_of_union; [lia|].
    assert (y < next w3); [|lia]. apply (ch_spent _ _ _ Hch3); [|done].
    intros z. rewrite Hsp. simpl. intros Hz%Hu. lia.
Qed.

Lemma attach_all_pending gs : ∀ w l gs0 last ls f p k fs,
  linked w l gs0 last ls → handle f w = Some last → handle p w = Some l →
  f < next w → p < next w → p ≠ f → names_used w →
  ∃ w' f' last' ls', steps (w, (Run (attach gs f k), fs)) (w', (Run (k f'), fs)) ∧
    linked w' l (gs0 ++ gs) last' ls' ∧ handle f' w' = Some last' ∧ handle p w' = Some l ∧
    f' < next w' ∧ p ≠ f' ∧ p < next w' ∧ names_used w' ∧
    (∀ cb, callback w last = Some (cb, false) → callback w' last' = Some (cb, false)) ∧
    cancels w' = cancels w.
Proof.
  induction gs as [|g gs IH]; intros w l gs0 last ls f p k fs Hl Hf Hp Hfl Hpl Hne Hu.
  - exists w, f, last, ls. by rewrite (right_id_L [] (++)).
  - destruct (attach_pending w l gs0 last ls f g (with_handle (λ f', attach gs f' k)) fs)
      as (w1 & x & last1 & Hst & Hl1 & Hx & Hnx & Hu1 & Hce & Hcb & Hcs); [done..|].
    destruct (IH w1 l (gs0 ++ [g]) last1 (ls ++ [last1]) x p k fs)
      as (w2 & f' & last2 & ls2 & Hst2 & Hl2 & Hf2 & Hp2 & Hfl2 & Hn2 & Hpl2 & Hu2 & Hcb2 & Hcs2);
      [done|done| |lia|lia|lia|done|].
    { unfold handle. by rewrite Hce by done. }
    exists w2, f', last2, ls2. rewrite <- (assoc_L (++)) in Hl2.
    split_and!; try done.
    + etrans; [exact Hst|]. exact Hst2.
    + intros cb Hw. apply Hcb2. by rewrite Hcb, Hw.
    + by rewrite Hcs2.
Qed.

Lemma attach_all_ready gs : ∀ w r last s f k fs,
  heap w !! last = Some s → holds r s → continuation_ s = None → last < next w →
  handle f w = Some last → f < next w → names_used w →
  plain r = true → (∀ g v, g ∈ gs → plain (g v) = true) →
  ∃ w' f' last' s', steps (w, (Run (attach gs f k), fs)) (w', (Run (k f'), fs)) ∧
    handle f' w' = Some last' ∧ heap w' !! last' = Some s' ∧ holds (foldl pass r gs) s'.
Proof.
  induction gs as [|g gs IH]; intros w r last s f k fs Hs Hh Hc Hll Hf Hfl Hu Hr Hg.
  - by exists w, f, last, s.
  - assert (plain (pass r g) = true) as Hp by (destruct r; simpl; [apply Hg; set_solver|done]).
    destruct (attach_ready w r last s f g (with_handle (λ f', attach gs f' k)) fs)
      as (w1 & x & last1 & s1 & Hst & Hs1 & Hh1 & Hc1 & Hll1 & Hx & Hxl & Hu1); [done..|].
    destruct (IH w1 (pass r g) last1 s1 x k fs) as (w2 & f' & last2 & s2 & Hst2 & ?);
      [done..|set_solver|].
    exists w2, f', last2, s2. split; [|done]. etrans; [exact Hst|]. exact Hst2.
Qed.

(** A single thread makes its steps in the only possible order. *)
Lemma steps_run a b : steps a b → ∃ n, run moved_data (replicate n 0) (a.1, [a.2]) = Some (b.1, [b.2]).
Proof.
  induction 1 as [a|a b c Hab _ [n IH]]; [by exists 0|]. exists (S n). simpl.
  unfold config_step. simpl. unfold tstep in Hab. destruct a as [w [k fs]]. simpl in *.
  assert (halted (k, fs) = false) as Hh by (by destruct k; destruct fs). unfold halted in Hh.
  rewrite Hh. simpl. unfold tstep in Hab. rewrite Hab. simpl. destruct b as [w' t']. exact IH.
Qed.

Lemma satisfy_call w p l r k fs :
  handle p w = Some l →
  thread_step moved_data w (Run (satisfy p r k), fs) =
  Some (w, (Satisfy r l, FProg (with_value (λ _, k)) :: fs)).
Proof.
  intros Hp. unfold satisfy. destruct r; simpl; unfold promise_set_value, promise_set_exception;
    by rewrite Hp.
Qed.

Lemma chain_steps gs1 gs2 r :
  plain r = true → (∀ g v, g ∈ gs1 ++ gs2 → plain (g v) = true) →
  ∃ w, steps (world_empty, (Run (chain_prog gs1 gs2 r), [])) (w, (Reply (foldl pass r (gs1 ++ gs2)), [])).
Proof.
  intros Hr Hg. unfold chain_prog.
  set (s0 := mkState true not_ready None None false (Some (PRet VVoid)) None : sstate D).
  set (w0 := (new_cell (Some 0) (set_heap 0 s0
    (new_cell (Some 0) (new_state (Some (PRet VVoid)) world_empty).2).2)).2 : world D).
  set (kend := λ f2 : nat, PCall (FutureGet f2) reply_with : prog D).
  set (kmid := λ f1 : nat, satisfy 1 r (attach gs2 f1 kend)).
  assert (steps (world_empty, (Run (chain_prog gs1 gs2 r), [])) (w0, (Run (attach gs1 2 kmid), [])))
    as H0.
  { do 4 (eapply steps_l; [reflexivity|]). apply rtc_refl. }
  assert (linked w0 0 [] 0 [0]) as Hl0.
  { apply (linked_nil w0 0 s0); [reflexivity|by split|done|simpl; lia]. }
  destruct (attach_all_pending gs1 w0 0 [] 0 [0] 2 1 kmid [] Hl0)
    as (w1 & f1 & last & ls & H1 & Hl1 & Hf1 & Hp1 & Hfl & _ & _ & Hu & _); [done|done|simpl; lia..|set_solver|].
  destruct (satisfy_steps gs1 w1 r 0 last ls [FProg (with_value (λ _, attach gs2 f1 kend))] Hl1 Hr)
    as (w2 & s & H2 & Hch & Hs & Hh & Hc); [set_solver|].
  pose proof (ch_next _ _ _ Hch) as Hn.
  destruct (attach_all_ready gs2 w2 (foldl pass r gs1) last s f1 kend [])
    as (w3 & f2 & last' & s' & H3 & Hf2 & Hs' & Hh').
  { done. } { done. } { done. }
  { pose proof (linked_elem _ _ _ _ _ _ Hl1 (linked_last _ _ _ _ _ Hl1)). lia. }
  { unfold handle. by rewrite (ch_cells _ _ _ Hch). } { lia. }
  { exact (ch_spent _ _ _ Hch Hu). }
  { clear -Hr Hg. revert r Hr. induction gs1 as [|g gs IH]; intros r Hr; [done|]. simpl.
    apply IH; [set_solver|]. destruct r; simpl; [apply Hg; set_solver|done]. }
  { set_solver. }
  rewrite foldl_app.
  destruct (get_holds (set_cell f2 None w3) _ last' s' [FProg reply_with] Hs' Hh') as (s'' & Hg' & _).
  exists (set_heap last' s'' (set_cell f2 None w3)). etrans; [exact H0|]. etrans; [exact H1|]. eapply steps_l.
  { by apply satisfy_call. }
  etrans; [exact H2|]. eapply steps_l; [reflexivity|]. etrans; [exact H3|]. eapply steps_l.
  { simpl. unfold future_get, check_valid. rewrite Hf2. reflexivity. }
  eapply steps_l; [exact Hg'|]. eapply steps_l; [reflexivity|].
  destruct (foldl pass (foldl pass r gs1) gs2); (eapply steps_l; [reflexivity|apply rtc_refl]).
Qed.
End chain.

(** C11: chains of [then()] of any length: the last future delivers what the functors
    compute one after the other from the value of the promise, and an exception, of the
    promise or of a functor, passes the functors behind it; whether the promise is
    satisfied before, between or after the calls of [then()].  The program terminates. *)
Theorem then_chain {D} `{Build} (moved_data : D → D) gs1 gs2 r :
  have_exceptions = true → plain r = true → (∀ g v, g ∈ gs1 ++ gs2 → plain (g v) = true) →
  ∃ n w, run moved_data (replicate n 0) (init [chain_prog gs1 gs2 r]) =
    Some (w, [(Reply (foldl pass r (gs1 ++ gs2)), [])]).
Proof.
  intros He Hr Hg. destruct (chain_steps moved_data He gs1 gs2 r Hr Hg) as [w Hw].
  destruct (steps_run moved_data _ _ Hw) as [n Hn]. by exists n, w.
Qed.

(** Two functors, one on each side of [set_value]. *)
Definition add_one (v : val nat) : reply nat :=
  match v with VData n => Returned (VData (S n)) | _ => Raised (application_error "not a number") end.
Lemma then_chain_witness :
  ∃ n w, run (H := example_build) id (replicate n 0) (init [chain_prog [add_one] [add_one] (Returned (VData 5))]) =
    Some (w, [(Reply (Returned (VData 7)), [])]).
Proof.
  apply (then_chain (H := example_build) id [add_one] [add_one] (Returned (VData 5))); [done|done|].
  intros g v Hg. assert (g = add_one) as -> by (apply list_elem_of_In in Hg; destruct Hg as [<-|[<-|[]]]; done).
  by destruct v.
Defined.
