(* ===== verification/FutureCancel.v ===== *)
(** * Cancelling a chain of [then()]

    [cancel()] on the last future of a chain of any length reaches the callback that the
    promise was created with: each [then()] moves the callback to the state it creates. *)

From S2P Require Import Prelude Status Throw SharedState Futures FutureChain.

Section programs.
Context {D : Type}.
Implicit Types (f p : nat) (r : reply D).

Definition returned_bool (b : bool) r : bool :=
  match r with Returned (VBool c) => eqb b c | _ => false end.

(** The future at the end of the chain is cancelled twice before the promise is satisfied and
    once after that.  The program replies with what the future then holds, and throws when
    the calls of [cancel()] did not return [true], [false] and [false]. *)
Definition cancel_prog (gs : list (val D → reply D)) r : prog D :=
  PCall (NewPromise (PRet VVoid)) (with_handle (λ p,
  PCall (PromiseGetFuture p) (with_handle (λ f,
  attach gs f (λ f',
  PCall (FutureCancel f') (λ b1,
  PCall (FutureCancel f') (λ b2,
  satisfy p r (
  PCall (FutureCancel f') (λ b3,
  PCall (FutureGet f') (λ v,
    if returned_bool true b1 && returned_bool false b2 && returned_bool false b3
    then reply_with v else PThrow (application_error "cancel"))))))))))).

(** The callback satisfies the promise, as those of asynchronous operations do in the end;
    the first variable of a program is number 1. *)
Definition cancel_satisfies_prog (gs : list (val D → reply D)) r : prog D :=
  PCall (NewPromise (satisfy 1 r (PRet VVoid))) (with_handle (λ p,
  PCall (PromiseGetFuture p) (with_handle (λ f,
  attach gs f (λ f',
  PCall (FutureCancel f') (λ b,
  PCall (FutureGet f') (λ v,
    if returned_bool true b then reply_with v else PThrow (application_error "cancel")))))))).
End programs.

Section cancel.
Context {D : Type} `{Build} (moved_data : D → D).
Implicit Types (w : world D) (r : reply D) (gs : list (val D → reply D)).
Notation steps := (rtc (tstep moved_data)).

(** ** [cancel()] on one state *)
Lemma cancel_calls w f l s cb k fs :
  handle f w = Some l → heap w !! l = Some s → pending s →
  cancelled_ s = false → cancellation_callback_ s = Some cb →
  steps (w, (Run (PCall (FutureCancel f) k), fs))
    (emit (ECancelCallback l) w, (Run cb, FCancelled l :: FProg k :: fs)).
Proof.
  intros Hf Hs [Hp _] Hc Hcb.
  eapply steps_l. { simpl. unfold future_cancel. rewrite Hf. reflexivity. }
  eapply steps_l.
  { simpl. unfold do_cancel, at_state. rewrite Hs. unfold is_ready.
    rewrite (proj2 (is_ready_false s)) by done. reflexivity. }
  eapply steps_l; [|apply rtc_refl]. simpl. unfold do_cancel_test. by rewrite Hs, Hc, Hcb.
Qed.
Lemma cancel_finishes w l s v k fs :
  heap w !! l = Some s →
  steps (w, (Reply (Returned v), FCancelled l :: FProg k :: fs))
    (set_heap l (set_cancelled s) w, (Run (k (Returned (VBool true))), fs)).
Proof.
  intros Hs. eapply steps_l. { simpl. unfold cancel_done, at_state. rewrite Hs. reflexivity. }
  by eapply steps_l; [reflexivity|].
Qed.
(** Nothing happens when the state is ready or was cancelled. *)
Lemma cancel_refused w f l s k fs :
  handle f w = Some l → heap w !! l = Some s → is_ready_unlocked s = true ∨ cancelled_ s = true →
  steps (w, (Run (PCall (FutureCancel f) k), fs)) (w, (Run (k (Returned (VBool false))), fs)).
Proof.
  intros Hf Hs Hc. eapply steps_l. { simpl. unfold future_cancel. rewrite Hf. reflexivity. }
  destruct (is_ready_unlocked s) eqn:Hr.
  - eapply steps_l. { simpl. unfold do_cancel, at_state. rewrite Hs. unfold is_ready. by rewrite Hr. }
    by eapply steps_l; [reflexivity|].
  - destruct Hc as [|Hc]; [done|].
    eapply steps_l. { simpl. unfold do_cancel, at_state. rewrite Hs. unfold is_ready. by rewrite Hr. }
    eapply steps_l. { simpl. unfold do_cancel_test. rewrite Hs, Hc. reflexivity. }
    by eapply steps_l; [reflexivity|].
Qed.

Lemma get_call w f l k fs :
  handle f w = Some l →
  thread_step moved_data w (Run (PCall (FutureGet f) k), fs) =
  Some (set_cell f None w, (Get l, FProg k :: fs)).
Proof. intros Hf. simpl. unfold future_get, check_valid. by rewrite Hf. Qed.

(** ** The chain *)
Lemma linked_set_cancelled w l gs last ls s :
  linked w l gs last ls → heap w !! last = Some s →
  linked (set_heap last (set_cancelled s) w) l gs last ls.
Proof.
  induction 1 as [l s0 Hs0 Hp0 Hc0 Hlt|l s0 c0 g0 gs last ls Hs0 Hp0 Hc0 Hi0 Hb0 Hk0 Hlt0 Hkl0 Hn0 Hl IH];
    intros Hs.
  - simplify_eq. econstructor; [simpl; by rewrite lookup_insert_eq|done..].
  - pose proof (linked_last _ _ _ _ _ Hl). assert (l ≠ last) by (intros ->; done).
    econstructor; [simpl; by rewrite lookup_insert_ne|done..|by apply IH].
Qed.
Lemma linked_emit w l gs last ls e : linked w l gs last ls → linked (emit e w) l gs last ls.
Proof. intros Hl. by eapply linked_same. Qed.
Lemma linked_pending w l gs last ls : linked w l gs last ls →
  ∃ s, heap w !! last = Some s ∧ pending s ∧ continuation_ s = None ∧ last < next w.
Proof. induction 1; eauto. Qed.

Lemma callback_state w l s cb b :
  callback w l = Some (cb, b) → heap w !! l = Some s →
  cancellation_callback_ s = cb ∧ cancelled_ s = b.
Proof. unfold callback. intros Hc Hs. rewrite Hs in Hc. by simplify_eq/=. Qed.

Context (Hexn : have_exceptions = true).

(** The world in which the chain begins: the promise is variable 1, its future variable 2. *)
Definition chain_world (cb : prog D) : world D :=
  (new_cell (Some 0) (set_heap 0 (mkState true not_ready None None false (Some cb) None)
    (new_cell (Some 0) (new_state (Some cb) world_empty).2).2)).2.

Lemma chain_begins cb gs (k : nat → nat → prog D) :
  ∃ w f last ls,
    steps (world_empty, (Run (PCall (NewPromise cb) (with_handle (λ p,
      PCall (PromiseGetFuture p) (with_handle (λ f, attach gs f (k p)))))), []))
      (w, (Run (k 1 f), [])) ∧
    linked w 0 gs last ls ∧ handle f w = Some last ∧ handle 1 w = Some 0 ∧
    f < next w ∧ callback w last = Some (Some cb, false) ∧ cancels w = [].
Proof.
  set (w0 := chain_world cb).
  assert (linked w0 0 [] 0 [0]) as Hl0 by (by eapply (linked_nil w0 0); [reflexivity|split|..|simpl; lia]).
  destruct (attach_all_pending moved_data Hexn gs w0 0 [] 0 [0] 2 1 (k 1) [] Hl0)
    as (w & f & last & ls & Hst & Hl & Hf & Hp & Hlt & _ & _ & _ & Hcb & Hcs);
    [done|done|simpl; lia..|set_solver|].
  exists w, f, last, ls. split_and!; try done.
  - do 4 (eapply steps_l; [reflexivity|]). exact Hst.
  - by apply Hcb.
Qed.

Lemma cancel_steps gs r :
  plain r = true → (∀ g v, g ∈ gs → plain (g v) = true) →
  ∃ w l, steps (world_empty, (Run (cancel_prog gs r), [])) (w, (Reply (foldl pass r gs), [])) ∧
    cancels w = [ECancelCallback l].
Proof.
  intros Hr Hg. unfold cancel_prog.
  edestruct (chain_begins (PRet VVoid) gs) as (w & f & last & ls & Hst & Hl & Hf & Hp & Hfl & Hcb & Hcs).
  destruct (linked_pending _ _ _ _ _ Hl) as (s & Hs & Hpe & _ & _).
  destruct (callback_state _ _ _ _ _ Hcb Hs) as [Hcs' Hcd].
  set (w1 := emit (ECancelCallback last) w).
  set (w2 := set_heap last (set_cancelled s) w1).
  assert (heap w2 !! last = Some (set_cancelled s)) as Hs2 by (simpl; by rewrite lookup_insert_eq).
  assert (linked w2 0 gs last ls) as Hl2 by (apply linked_set_cancelled; [by apply linked_emit|done]).
  edestruct (satisfy_steps moved_data Hexn gs w2 r 0 last ls) as (w3 & s3 & Hst3 & Hch & Hs3 & Hh3 & _);
    [exact Hl2|done|done|].
  assert (handle f w3 = Some last) as Hf3 by (unfold handle; by rewrite (ch_cells _ _ _ Hch)).
  edestruct (get_holds moved_data Hexn (set_cell f None w3) (foldl pass r gs) last s3)
    as (s4 & Hg4 & _); [exact Hs3|exact Hh3|].
  exists (set_heap last s4 (set_cell f None w3)), last. split.
  - etrans; [exact Hst|]. etrans; [by eapply cancel_calls|].
    eapply steps_l; [reflexivity|]. etrans; [by apply cancel_finishes|].
    etrans; [eapply (cancel_refused w2); [exact Hf|exact Hs2|by right]|].
    eapply steps_l; [by apply satisfy_call|]. etrans; [exact Hst3|].
    eapply steps_l; [reflexivity|].
    etrans; [eapply cancel_refused; [exact Hf3|exact Hs3|]|].
    { left. apply is_ready_true. destruct (foldl pass r gs); destruct Hh3; congruence. }
    eapply steps_l; [by apply get_call|].
    eapply steps_l; [exact Hg4|]. eapply steps_l; [reflexivity|].
    destruct (foldl pass r gs); by eapply steps_l; [reflexivity|].
  - assert (cancels w2 = [ECancelCallback last]) as Hw2.
    { unfold cancels, w2, w1. simpl. rewrite List.filter_app. unfold cancels in Hcs. by rewrite Hcs. }
    rewrite <- Hw2. apply (ch_cancels _ _ _ Hch).
Qed.

Lemma cancel_satisfies_steps gs r :
  plain r = true → (∀ g v, g ∈ gs → plain (g v) = true) →
  ∃ w l, steps (world_empty, (Run (cancel_satisfies_prog gs r), []))
      (w, (Reply (foldl pass r gs), [])) ∧
    cancels w = [ECancelCallback l].
Proof.
  intros Hr Hg. unfold cancel_satisfies_prog.
  edestruct (chain_begins (satisfy 1 r (PRet VVoid)) gs)
    as (w & f & last & ls & Hst & Hl & Hf & Hp & Hfl & Hcb & Hcs).
  destruct (linked_pending _ _ _ _ _ Hl) as (s & Hs & Hpe & _ & _).
  destruct (callback_state _ _ _ _ _ Hcb Hs) as [Hcs' Hcd].
  set (w1 := emit (ECancelCallback last) w).
  assert (linked w1 0 gs last ls) as Hl1 by (by apply linked_emit).
  edestruct (satisfy_steps moved_data Hexn gs w1 r 0 last ls) as (w3 & s3 & Hst3 & Hch & Hs3 & Hh3 & _);
    [exact Hl1|done|done|].
  set (w4 := set_heap last (set_cancelled s3) w3).
  assert (handle f w4 = Some last) as Hf4 by (unfold handle, w4; simpl; by rewrite (ch_cells _ _ _ Hch)).
  edestruct (get_holds moved_data Hexn (set_cell f None w4) (foldl pass r gs) last (set_cancelled s3))
    as (s5 & Hg5 & _); [simpl; by rewrite lookup_insert_eq|exact Hh3|].
  exists (set_heap last s5 (set_cell f None w4)), last. split.
  - etrans; [exact Hst|]. etrans; [by eapply cancel_calls|].
    eapply steps_l; [by apply satisfy_call|]. etrans; [exact Hst3|].
    eapply steps_l; [reflexivity|]. eapply steps_l; [reflexivity|].
    etrans; [by apply cancel_finishes|]. fold w4.
    eapply steps_l; [by apply get_call|].
    eapply steps_l; [exact Hg5|]. eapply steps_l; [reflexivity|].
    destruct (foldl pass r gs); by eapply steps_l; [reflexivity|].
  - assert (cancels w1 = [ECancelCallback last]) as Hw1.
    { unfold cancels, w1. simpl. rewrite List.filter_app. unfold cancels in Hcs. by rewrite Hcs. }
    rewrite <- Hw1. apply (ch_cancels _ _ _ Hch).
Qed.
End cancel.

(** C12: [cancel()] on the future at the end of a chain of [then()] of any length calls the
    callback of the promise, once, and returns [true]; a second [cancel()], or one after the
    future is ready, returns [false] and calls nothing.  Cancelling is a request: the promise
    may still be satisfied, and the chain then delivers what its functors compute.  When the
    callback itself satisfies the promise, the whole chain runs inside [cancel()].  The
    programs terminate. *)
Theorem cancel_chain {D} `{Build} (moved_data : D → D) gs r :
  have_exceptions = true → plain r = true → (∀ g v, g ∈ gs → plain (g v) = true) →
  (∃ n w l, run moved_data (replicate n 0) (init [cancel_prog gs r]) =
     Some (w, [(Reply (foldl pass r gs), [])]) ∧ cancels w = [ECancelCallback l]) ∧
  (∃ n w l, run moved_data (replicate n 0) (init [cancel_satisfies_prog gs r]) =
     Some (w, [(Reply (foldl pass r gs), [])]) ∧ cancels w = [ECancelCallback l]).
Proof.
  intros He Hr Hg. split.
  - destruct (cancel_steps moved_data He gs r Hr Hg) as (w & l & Hw & Hc).
    destruct (steps_run moved_data _ _ Hw) as [n Hn]. by exists n, w, l.
  - destruct (cancel_satisfies_steps moved_data He gs r Hr Hg) as (w & l & Hw & Hc).
    destruct (steps_run moved_data _ _ Hw) as [n Hn]. by exists n, w, l.
Qed.

Lemma cancel_chain_witness :
  ∃ n w l, run (H := example_build) id (replicate n 0)
      (init [cancel_prog [add_one; add_one] (Returned (VData 5))]) =
    Some (w, [(Reply (Returned (VData 7)), [])]) ∧ cancels w = [ECancelCallback l].
Proof.
  apply (cancel_chain (H := example_build) id [add_one; add_one] (Returned (VData 5))); [done|done|].
  intros g v Hg. assert (g = add_one) as -> by (apply list_elem_of_In in Hg; destruct Hg as [<-|[<-|[]]]; done).
  by destruct v.
Defined.

(** ** The callback outlives the promise

    [then()] with a functor that returns a future moves the callback to a state that stays
    unsatisfied after the promise was satisfied and destroyed, until the inner future is
    ready; [cancel()] then calls it.  The callback of the timers of the completion queue
    refers to the object that holds the promise. *)
Definition unwrapped_cancel_prog : prog nat :=
  PCall (NewPromise (PRet VVoid)) (with_handle (λ p,
  PCall (PromiseGetFuture p) (with_handle (λ f,
  PCall (NewPromise (PRet VVoid)) (with_handle (λ p',
  PCall (PromiseGetFuture p') (with_handle (λ inner,
  PCall (FutureThen true f (λ x, PCall (FutureGet x) (λ _, PCall (FutureRelease inner) reply_with)))
    (with_handle (λ f',
  PCall (PromiseSetValue p (VData 1)) (λ _,
  PCall (PromiseDestroy p) (λ _,
  PCall (FutureCancel f') reply_with)))))))))))).

Lemma callback_outlives_promise : ∃ n w l,
  run (H := example_build) id (replicate n 0) (init [unwrapped_cancel_prog]) =
    Some (w, [(Reply (Returned (VBool true)), [])]) ∧
  handle 1 w = None ∧ cancels w = [ECancelCallback l].
Proof. eexists 35, _, 6. split; [vm_compute; reflexivity|]. by split. Qed.
