(* ===== verification/FutureVoid.v ===== *)
(** * [future<void>] and [promise<void>] (future_void.h)

    The classes repeat the members of the templates, and their shared state has no buffer.
    Here the machine of [Futures.v] runs with the specializations: the variables for which
    [is_void] holds are of the two classes, a state that is satisfied with the value of type
    [void] stores nothing, and [get()] reads nothing.  The theorem says that every program has
    the same executions with them. *)

From S2P Require Import Prelude Status Throw SharedState Futures.

Set Default Proof Using "Type".

Section void_machine.
Context {D : Type} `{Build} (moved_data : D → D) (is_void : nat → bool).
Implicit Types (w : world D) (s : sstate D).

(** ** The members of the classes *)

(** [other.swap(x.shared_state_)]: what [other] holds then. *)
Definition swap_pointer (x : nat) (other : option nat) (w : world D) : option nat * world D :=
  (handle x w, set_cell x other w).

(** [future<void>::get()], up to the call of [tmp->get()]. *)
Definition future_void_get (x : nat) (w : world D) : world D * ctrl D :=
  check_valid x w (λ _,
    let '(tmp, w) := swap_pointer x None w in
    match tmp with
    | Some l => (w, Get l)
    | None => (w, Halt (Undefined NullDereference))
    end).
(** [future<void>::then()]: the overload of [then_impl] is selected by its type. *)
Definition future_void_then (requires_unwrap : bool) (x : nat) (functor : nat → prog D)
    (w : world D) : world D * ctrl D * list (frame D) :=
  let then_impl l b :=
    match make_continuation l b w with
    | Some (w', c) => (w', SetContinuation l c, [FThen x (output c)])
    | None => (w, Halt (Undefined NullDereference), [])
    end in
  match handle x w with
  | None => (check_valid x w (λ _, void_reply w), [])
  | Some l =>
      if requires_unwrap then then_impl l (UnwrappingContinuation functor)
      else then_impl l (Continuation functor)
  end.
(** [promise<void>::operator=(promise&& rhs)]: the pointer of [tmp] is taken from [rhs] and
    swapped with the one of [p]; then [tmp] is destroyed. *)
Definition promise_void_assign (p rhs : nat) (w : world D) : world D * ctrl D :=
  let '(tmp, w) := swap_pointer rhs None w in
  let '(tmp, w) := swap_pointer p tmp w in
  match tmp with Some l => (w, Abandon l) | None => void_reply w end.
(** [promise<void>::get_future()]. *)
Definition promise_void_get_future (p : nat) (w : world D) : world D * ctrl D :=
  on_cxx w (mark_retrieved (l ← handle p w; heap w !! l)) (λ s,
    match handle p w with
    | Some l => let '(x, w) := new_cell (Some l) (set_heap l s w) in returns w (VHandle x)
    | None => (w, Halt (Undefined NullDereference))
    end).
(** [promise<void>::set_value()]: [VVoid] is the only value of its type. *)
Definition promise_void_set_value (p : nat) (w : world D) : world D * ctrl D :=
  match handle p w with
  | None => on_cxx w (ThrowFutureError no_state "set_value") (λ _ : (), void_reply w)
  | Some l => (w, SetValue l VVoid)
  end.
(** [make_ready_future()]: [p] is destroyed on every path. *)
Definition make_ready_void_future : prog D :=
  PCall (NewPromise (PRet VVoid)) (with_handle (λ p,
    let finally r := PCall (PromiseDestroy p) (λ _, reply_with r) in
    PCall (PromiseSetValue p VVoid) (λ r,
      match r with
      | Raised e => finally (Raised e)
      | Returned _ => PCall (PromiseGetFuture p) finally
      end))).

(** A call of the API by a program. *)
Definition special_call (c : call D) (w : world D) : world D * ctrl D * list (frame D) :=
  match c with
  | PromiseSetValue p VVoid => (promise_void_set_value p w, [])
  | PromiseAssign p rhs => if is_void p then (promise_void_assign p rhs w, []) else do_call c w
  | PromiseGetFuture p => if is_void p then (promise_void_get_future p w, []) else do_call c w
  | FutureGet f => if is_void f then (future_void_get f w, []) else do_call c w
  | FutureThen u f functor => if is_void f then future_void_then u f functor w else do_call c w
  | _ => do_call c w
  end.

(** ** The shared state without a buffer *)

(** [shared_state_->set_value()]. *)
Definition void_do_set_value (l : nat) (w : world D) : world D * ctrl D :=
  at_state l w (λ s, on_cxx w (void_set_value s) (satisfied l w)).
(** [tmp->get()]; [None] while the thread blocks. *)
Definition void_do_get (l : nat) (s : sstate D) (w : world D) : option (world D * ctrl D) :=
  m ← void_get s; Some (on_cxx w m (λ r, returns (set_heap l (fst r) w) VVoid)).

(** The machine with the specialization: a state whose value is in no buffer is one of
    [void]. *)
Definition special_ctrl_step (w : world D) (c : ctrl D) : option (world D * ctrl D * list (frame D)) :=
  match c with
  | SetValue l VVoid => Some (no_frames (void_do_set_value l w))
  | Get l =>
      no_frames <$> match heap w !! l with
      | Some s => if buffer_ s is None then void_do_get l s w else do_get moved_data l w
      | None => do_get moved_data l w
      end
  | Run (PCall c k) => let '(w', c', fs) := special_call c w in Some (w', c', fs ++ [FProg k])
  | _ => ctrl_step moved_data w c
  end.
Definition special_thread_step (w : world D) (t : thread D) : option (world D * thread D) :=
  match t with
  | (Reply r, f :: fs) =>
      '(w', c', fs') ← resume f r w; Some (w', (c', fs' ++ fs))
  | (c, fs) => '(w', c', fs') ← special_ctrl_step w c; Some (w', (c', fs' ++ fs))
  end.
Definition special_config_step (i : nat) (c : config D) : option (config D) :=
  if existsb halted (snd c) then None
  else t ← snd c !! i;
    '(w', t') ← special_thread_step (fst c) t;
    Some (w', <[i := t']> (snd c)).

(** ** Erasing the values of type [void] *)
Definition erase_buffer (b : option (val D)) : option (val D) :=
  match b with Some VVoid => None | _ => b end.
Definition erase_void (s : sstate D) : sstate D :=
  mkState (retrieved_ s) (current_state_ s) (exception_ s) (continuation_ s) (cancelled_ s)
    (cancellation_callback_ s) (erase_buffer (buffer_ s)).
Definition erase_world (w : world D) : world D :=
  mkWorld (erase_void <$> heap w) (cells w) (spent w) (log w) (next w).
Definition erase_step {A B} (r : world D * A * B) : world D * A * B :=
  (erase_world r.1.1, r.1.2, r.2).
Definition erase_config (c : config D) : config D := (erase_world c.1, c.2).

Definition heap_wf w : Prop := map_Forall (λ _ s, state_wf s) (heap w).

Lemma erase_set_heap l s w : erase_world (set_heap l s w) = set_heap l (erase_void s) (erase_world w).
Proof. unfold erase_world, set_heap. simpl. by rewrite fmap_insert. Qed.
Lemma erase_lookup l w : heap (erase_world w) !! l = erase_void <$> heap w !! l.
Proof. apply lookup_fmap. Qed.

Definition erase_reply (r : world D * ctrl D) : world D * ctrl D := (erase_world r.1, r.2).

Lemma at_state_erase l w f f' :
  (∀ s, heap w !! l = Some s → f' (erase_void s) = erase_reply (f s)) →
  at_state l (erase_world w) f' = erase_reply (at_state l w f).
Proof.
  intros Hf. unfold at_state. rewrite erase_lookup. destruct (heap w !! l) as [s|]; simpl; [|done].
  by apply Hf.
Qed.
Lemma on_cxx_erase {A A'} w (m : cxx A) (m' : cxx A') g f f' :
  m' = (a ← m; Ret (g a)) → (∀ a, m = Ret a → f' (g a) = erase_reply (f a)) →
  on_cxx (erase_world w) m' f' = erase_reply (on_cxx w m f).
Proof. intros -> Hf. destruct m; simpl; [by apply Hf|done..]. Qed.

(** What a critical section gives for the erased state. *)
Definition erase_effect {A} (r : sstate D * A) : sstate D * A := (erase_void r.1, r.2).

Lemma satisfied_erase l w r :
  satisfied l (erase_world w) (erase_effect r) = erase_reply (satisfied l w r).
Proof.
  unfold satisfied, erase_effect. simpl. rewrite <- erase_set_heap. by destruct r.2.
Qed.
Lemma void_set_value_erase s : state_wf s →
  void_set_value (erase_void s) = (a ← set_value VVoid s; Ret (erase_effect a)).
Proof.
  intros Hwf. unfold void_set_value, void_set_value_locked, set_value.
  change (is_ready_unlocked (erase_void s)) with (is_ready_unlocked s).
  destruct (is_ready_unlocked s) eqn:Hr; [by unfold ThrowFutureError; destruct have_exceptions|].
  apply is_ready_false in Hr. unfold state_wf in Hwf. destruct s as [r st x k cn cb [v|]]; simpl in *; [|done].
  assert (st = has_value) by (apply Hwf; eauto). congruence.
Qed.
Lemma set_value_erase s v : state_wf s → v ≠ VVoid →
  set_value v (erase_void s) = (a ← set_value v s; Ret (erase_effect a)).
Proof.
  intros Hwf Hv. unfold set_value.
  change (is_ready_unlocked (erase_void s)) with (is_ready_unlocked s).
  destruct (is_ready_unlocked s) eqn:Hr; [by unfold ThrowFutureError; destruct have_exceptions|].
  apply is_ready_false in Hr. unfold state_wf in Hwf. destruct s as [r st x k cn cb [u|]]; simpl in *.
  - assert (st = has_value) by (apply Hwf; eauto). congruence.
  - by destruct v.
Qed.
Lemma set_exception_erase s ex :
  set_exception ex (erase_void s) = (a ← set_exception ex s; Ret (erase_effect a)).
Proof.
  unfold set_exception, set_exception_locked.
  change (is_ready_unlocked (erase_void s)) with (is_ready_unlocked s).
  unfold ThrowFutureError. repeat case_match; reflexivity.
Qed.
Lemma abandon_erase s : abandon (erase_void s) = (a ← abandon s; Ret (erase_effect a)).
Proof.
  unfold abandon, set_exception_locked.
  change (is_ready_unlocked (erase_void s)) with (is_ready_unlocked s).
  unfold ThrowFutureError. repeat case_match; try reflexivity; congruence.
Qed.
Lemma set_continuation_erase s c :
  set_continuation c (erase_void s) = (a ← set_continuation c s; Ret (erase_effect a)).
Proof.
  unfold set_continuation.
  change (is_ready_unlocked (erase_void s)) with (is_ready_unlocked s).
  unfold ThrowFutureError. simpl. repeat case_match; reflexivity.
Qed.

(** ** The steps, one by one *)

Lemma do_set_value_erase l v w : heap_wf w → v ≠ VVoid →
  do_set_value l v (erase_world w) = erase_reply (do_set_value l v w).
Proof.
  intros Hwf Hv. apply at_state_erase. intros s Hs.
  apply (on_cxx_erase _ _ _ erase_effect); [|intros; apply satisfied_erase].
  apply set_value_erase; [by eapply Hwf|done].
Qed.
Lemma void_do_set_value_erase l w : heap_wf w →
  void_do_set_value l (erase_world w) = erase_reply (do_set_value l VVoid w).
Proof.
  intros Hwf. apply at_state_erase. intros s Hs.
  apply (on_cxx_erase _ _ _ erase_effect); [|intros; apply satisfied_erase].
  apply void_set_value_erase. by eapply Hwf.
Qed.
Lemma do_set_exception_erase l ex w :
  do_set_exception l ex (erase_world w) = erase_reply (do_set_exception l ex w).
Proof.
  apply at_state_erase. intros s Hs.
  apply (on_cxx_erase _ _ _ erase_effect); [apply set_exception_erase|intros; apply satisfied_erase].
Qed.
Lemma do_abandon_erase l w : do_abandon l (erase_world w) = erase_reply (do_abandon l w).
Proof.
  apply at_state_erase. intros s Hs. apply (on_cxx_erase _ _ _ erase_effect); [apply abandon_erase|].
  intros [s' [| |]] _; unfold erase_reply, erase_effect; simpl; rewrite <- ?erase_set_heap; done.
Qed.
Lemma do_set_continuation_erase l c w :
  do_set_continuation l c (erase_world w) = erase_reply (do_set_continuation l c w).
Proof.
  apply at_state_erase. intros s Hs. apply (on_cxx_erase _ _ _ erase_effect); [apply set_continuation_erase|].
  intros [s' [| |]] _; unfold erase_reply, erase_effect; simpl; rewrite <- ?erase_set_heap; done.
Qed.
Lemma do_notify_erase l w : do_notify l (erase_world w) = erase_reply (do_notify l w).
Proof. apply at_state_erase. intros s Hs. simpl. by destruct (continuation_ s). Qed.
Lemma do_wait_erase l w : do_wait l (erase_world w) = erase_reply <$> do_wait l w.
Proof.
  unfold do_wait. rewrite erase_lookup. destruct (heap w !! l) as [s|]; [|done]. simpl.
  unfold wait. change (is_ready_unlocked (erase_void s)) with (is_ready_unlocked s).
  by destruct (is_ready_unlocked s).
Qed.
Lemma do_cancel_erase l w : do_cancel l (erase_world w) = erase_reply (do_cancel l w).
Proof.
  apply at_state_erase. intros s Hs. change (is_ready (erase_void s)) with (is_ready s).
  by destruct (is_ready s).
Qed.
Lemma do_cancel_test_erase l w : do_cancel_test l (erase_world w) = erase_step (do_cancel_test l w).
Proof.
  unfold do_cancel_test. rewrite erase_lookup. destruct (heap w !! l) as [s|]; [|done]. simpl.
  repeat case_match; reflexivity.
Qed.
Lemma do_execute_erase c w : do_execute c (erase_world w) = erase_step (do_execute c w).
Proof.
  unfold do_execute. simpl. rewrite lookup_fmap. destruct (heap w !! input c) as [s|]; [|done]. simpl.
  case_decide; [done|]. by destruct (body c).
Qed.

(** [get()]: a state that is satisfied with no value in its buffer had the value of type
    [void]. *)
Lemma get_erase l w : have_exceptions = true → heap_wf w →
  special_ctrl_step (erase_world w) (Get l) = erase_step <$> ctrl_step moved_data w (Get l).
Proof.
  intros Hx Hwf. simpl. unfold do_get. simpl. rewrite !lookup_fmap.
  destruct (heap w !! l) as [s|] eqn:Hs; [|done]. pose proof (Hwf l s Hs) as Hws. simpl in Hws.
  unfold state_wf in Hws. destruct s as [r st x k cn cb bf]. simpl in *.
  unfold void_do_get, void_get, get, is_ready_unlocked. simpl.
  destruct bf as [v|]; simpl.
  - assert (st = has_value) as -> by (apply Hws; eauto).
    destruct v; simpl; unfold erase_step, no_frames, returns; simpl; rewrite erase_set_heap; done.
  - destruct st; simpl; [done|by rewrite Hx; destruct x|]. 
    destruct (proj2 Hws eq_refl). congruence.
Qed.

Lemma promise_get_future_erase p w :
  promise_get_future p (erase_world w) = erase_reply (promise_get_future p w).
Proof.
  unfold promise_get_future. change (handle p (erase_world w)) with (handle p w).
  destruct (handle p w) as [l|]; simpl; [|unfold ThrowFutureError; by destruct have_exceptions].
  rewrite lookup_fmap.
  destruct (heap w !! l) as [[[] st x k cn cb bf]|]; simpl;
    [unfold ThrowFutureError; by destruct have_exceptions| |
     unfold ThrowFutureError; by destruct have_exceptions].
  unfold erase_reply, returns, set_cell, fresh_name, set_heap. simpl. unfold erase_world. simpl. by rewrite fmap_insert.
Qed.
Lemma future_then_erase u f functor w :
  future_then u f functor (erase_world w) = erase_step (future_then u f functor w).
Proof.
  unfold future_then, check_valid. change (handle f (erase_world w)) with (handle f w).
  destruct (handle f w) as [l|]; simpl; [|unfold ThrowFutureError; by destruct have_exceptions].
  unfold make_continuation. simpl. rewrite lookup_fmap. destruct (heap w !! l) as [s|]; [|done]. simpl.
  unfold erase_step, erase_world, set_heap, fresh_name. simpl. by rewrite !fmap_insert.
Qed.
Lemma do_call_erase c w : do_call c (erase_world w) = erase_step (do_call c w).
Proof.
  destruct c; simpl; try reflexivity.
  - unfold erase_step, promise_new, new_state, new_cell, erase_world. simpl. by rewrite fmap_insert.
  - unfold promise_assign. simpl. unfold handle. simpl. by repeat case_match.
  - unfold promise_destroy, handle. simpl. by repeat case_match.
  - by rewrite promise_get_future_erase.
  - unfold promise_set_value, handle, ThrowFutureError. simpl. by repeat case_match.
  - unfold promise_set_exception, handle, ThrowFutureError. simpl. by repeat case_match.
  - unfold future_is_ready, check_valid, at_state, handle, ThrowFutureError. simpl.
    destruct (default _ _); [rewrite lookup_fmap; destruct (heap w !! _)|destruct have_exceptions]; done.
  - unfold future_wait, check_valid, handle, ThrowFutureError. simpl. by repeat case_match.
  - unfold future_wait_for, check_valid, at_state, handle, ThrowFutureError. simpl.
    destruct (default _ _); [rewrite lookup_fmap; destruct (heap w !! _)|destruct have_exceptions]; done.
  - unfold future_get, check_valid, handle, ThrowFutureError. simpl. by repeat case_match.
  - unfold future_cancel, handle. simpl. by repeat case_match.
  - apply future_then_erase.
Qed.
(** The members of the classes do what the ones of the templates do. *)
Lemma future_void_get_eq x w : future_void_get x w = future_get x w.
Proof. unfold future_void_get, future_get, check_valid. simpl. by destruct (handle x w). Qed.
Lemma special_call_eq c w : special_call c w = do_call c w.
Proof.
  destruct c; simpl; try reflexivity; try (case_match; [|done]); try reflexivity.
  - by destruct v.
  - by rewrite future_void_get_eq.
  - unfold future_void_then, future_then. by destruct (handle f w), requires_unwrap.
Qed.

Lemma resume_erase f r w : resume f r (erase_world w) = erase_step <$> resume f r w.
Proof.
  destruct f, r; simpl; unfold delegate_catch, cancel_done; try (by repeat case_match);
    try reflexivity.
  unfold at_state. simpl. rewrite lookup_fmap. destruct (heap w !! l) as [s|]; [|done]. simpl.
  unfold erase_step, erase_world. simpl. by rewrite fmap_insert.
Qed.
Lemma ctrl_step_erase w c : have_exceptions = true → heap_wf w →
  special_ctrl_step (erase_world w) c = erase_step <$> ctrl_step moved_data w c.
Proof.
  intros Hx Hwf. destruct c; try exact (get_erase _ _ Hx Hwf); simpl; try reflexivity.
  - destruct p as [v|e|c k]; [done..|].
    rewrite special_call_eq, do_call_erase. by destruct (do_call c w) as [[w' c'] fs].
  - destruct v; [by rewrite void_do_set_value_erase|by rewrite do_set_value_erase..].
  - by rewrite do_set_exception_erase.
  - by rewrite do_abandon_erase.
  - by rewrite do_notify_erase.
  - by rewrite do_set_continuation_erase.
  - by rewrite do_execute_erase.
  - rewrite do_wait_erase. by destruct (do_wait l w).
  - by rewrite do_cancel_erase.
  - by rewrite do_cancel_test_erase.
Qed.

(** ** Every state of the machine is well formed *)

Lemma heap_wf_set l s w : heap_wf w → state_wf s → heap_wf (set_heap l s w).
Proof. intros Hw Hs. by apply map_Forall_insert_2. Qed.
Lemma heap_wf_at l s w : heap_wf w → heap w !! l = Some s → state_wf s.
Proof. intros Hw. apply Hw. Qed.

(** A critical section of [SharedState.v] keeps the heap well formed. *)
Lemma heap_wf_op mv l s s' (o : op (val D) (continuation D) (prog D)) w :
  heap_wf w → heap w !! l = Some s → apply_op mv o s = Some (Ret s') →
  heap_wf (set_heap l s' w).
Proof.
  intros Hw Hl Ho. apply heap_wf_set; [done|].
  apply (eff_wf _ _ _ (apply_op_effect _ _ _ _ Ho)). by eapply Hw.
Qed.

(** The member functions that may store a new state. *)
Lemma heap_wf_at_state l w f :
  heap_wf w → (∀ s, heap w !! l = Some s → heap_wf (f s).1) → heap_wf (at_state l w f).1.
Proof. intros Hw Hf. unfold at_state. destruct (heap w !! l) eqn:Hl; [by apply Hf|done]. Qed.
Lemma heap_wf_on_cxx {A} w (m : cxx A) f :
  heap_wf w → (∀ a, m = Ret a → heap_wf (f a).1) → heap_wf (on_cxx w m f).1.
Proof. intros Hw Hf. destruct m; simpl; [by apply Hf|done..]. Qed.
Lemma heap_wf_satisfied mv l s w r (o : op (val D) (continuation D) (prog D)) :
  heap_wf w → heap w !! l = Some s →
  apply_op mv o s = Some (Ret r.1) → heap_wf (satisfied l w r).1.
Proof.
  intros Hw Hl Ho. assert (heap_wf (set_heap l r.1 w)) as Hw' by by eapply heap_wf_op.
  unfold satisfied. by destruct r.2.
Qed.

Lemma do_set_value_wf l v w : heap_wf w → heap_wf (do_set_value l v w).1.
Proof.
  intros Hw. apply heap_wf_at_state; [done|]. intros s Hs. apply heap_wf_on_cxx; [done|].
  intros r Hr. eapply (heap_wf_satisfied id _ _ _ _ (OpSetValue v)); [done..|]. simpl. by rewrite Hr.
Qed.
Lemma do_set_exception_wf l ex w : heap_wf w → heap_wf (do_set_exception l ex w).1.
Proof.
  intros Hw. apply heap_wf_at_state; [done|]. intros s Hs. apply heap_wf_on_cxx; [done|].
  intros r Hr. eapply (heap_wf_satisfied id _ _ _ _ (OpSetException ex)); [done..|]. simpl. by rewrite Hr.
Qed.
Lemma do_abandon_wf l w : heap_wf w → heap_wf (do_abandon l w).1.
Proof.
  intros Hw. apply heap_wf_at_state; [done|]. intros s Hs. apply heap_wf_on_cxx; [done|].
  intros r Hr. assert (heap_wf (set_heap l r.1 w)).
  { eapply (heap_wf_op id _ _ _ OpAbandon); [done..|]. simpl. by rewrite Hr. }
  by destruct r.2.
Qed.
Lemma do_set_continuation_wf l c w : heap_wf w → heap_wf (do_set_continuation l c w).1.
Proof.
  intros Hw. apply heap_wf_at_state; [done|]. intros s Hs. apply heap_wf_on_cxx; [done|].
  intros r Hr. assert (heap_wf (set_heap l r.1 w)).
  { eapply (heap_wf_op id _ _ _ (OpSetContinuation c)); [done..|]. simpl. by rewrite Hr. }
  by destruct r.2.
Qed.
Lemma do_get_wf l w r : heap_wf w → do_get moved_data l w = Some r → heap_wf r.1.
Proof.
  intros Hw. unfold do_get. destruct (heap w !! l) as [s|] eqn:Hs; [|by intros [= <-]].
  destruct (get (moved moved_data) s) as [m|] eqn:Hm; [|done]. intros [= <-].
  apply heap_wf_on_cxx; [done|]. intros a ->. 
  eapply (heap_wf_op (moved moved_data) _ _ _ OpGet); [done..|]. simpl. by rewrite Hm.
Qed.
Lemma promise_get_future_wf p w : heap_wf w → heap_wf (promise_get_future p w).1.
Proof.
  intros Hw. apply heap_wf_on_cxx; [done|]. intros s Hm. destruct (handle p w) as [l|]; [|done].
  destruct (heap w !! l) as [s0|] eqn:Hs; simpl in Hm; rewrite Hs in Hm.
  - exact (heap_wf_op id _ _ _ OpMarkRetrieved _ Hw Hs (f_equal Some Hm)).
  - unfold mark_retrieved, ThrowFutureError in Hm. by repeat case_match.
Qed.
Lemma make_continuation_wf l b w w' c :
  heap_wf w → make_continuation l b w = Some (w', c) → heap_wf w'.
Proof using D H.
  intros Hw Hm. unfold make_continuation in Hm. destruct (heap w !! l) as [s|] eqn:Hs; simplify_eq/=.
  apply map_Forall_insert_2; [by split; [intros []|]|].
  exact (heap_wf_op id _ _ _ OpReleaseCallback _ Hw Hs eq_refl).
Qed.
Lemma do_call_wf c w : heap_wf w → heap_wf (do_call c w).1.1.
Proof.
  intros Hw. destruct c; simpl; try done.
  - apply map_Forall_insert_2; [by split; [intros []|]|done].
  - unfold promise_assign. by case_match.
  - unfold promise_destroy. by case_match.
  - by apply promise_get_future_wf.
  - unfold promise_set_value, ThrowFutureError. by repeat case_match.
  - unfold promise_set_exception, ThrowFutureError. by repeat case_match.
  - unfold future_is_ready, check_valid, at_state, ThrowFutureError. by repeat case_match.
  - unfold future_wait, check_valid, ThrowFutureError. by repeat case_match.
  - unfold future_wait_for, check_valid, at_state, ThrowFutureError. by repeat case_match.
  - unfold future_get, check_valid, ThrowFutureError. by repeat case_match.
  - unfold future_cancel. by case_match.
  - unfold future_then, check_valid, ThrowFutureError.
    destruct (handle f w) as [l|]; [|by repeat case_match].
    destruct (make_continuation _ _ _) as [[w' c]|] eqn:Hc; [|done]. by eapply make_continuation_wf.
Qed.
Lemma ctrl_step_wf w c x : heap_wf w → ctrl_step moved_data w c = Some x → heap_wf x.1.1.
Proof.
  intros Hw Hx. destruct c; simpl in Hx; simplify_eq/=;
    auto using do_set_value_wf, do_set_exception_wf, do_abandon_wf, do_set_continuation_wf.
  - destruct p as [v|e|c k]; simplify_eq/=; try done.
    pose proof (do_call_wf c w Hw). destruct (do_call c w) as [[w' c'] fs]. by simplify_eq/=.
  - unfold do_notify, at_state. by repeat case_match.
  - unfold do_execute. simpl. repeat case_match; done.
  - apply fmap_Some in Hx as (y & Hy & ->). by eapply do_get_wf.
  - apply fmap_Some in Hx as (y & Hy & ->). unfold do_wait, wait in Hy. by repeat case_match; simplify_eq/=.
  - unfold do_cancel, at_state. by repeat case_match.
  - unfold do_cancel_test. by repeat case_match.
Qed.
Lemma resume_wf w f r x : heap_wf w → resume f r w = Some x → heap_wf x.1.1.
Proof using D H.
  intros Hw Hx. destruct f, r; simpl in Hx; simplify_eq/=; unfold delegate_catch; try done;
    try by repeat case_match.
  - apply fmap_Some in Hx as (y & Hy & ->). by destruct v as [| | | |[]|]; simplify_eq/=.
  - apply heap_wf_at_state; [done|]. intros s Hs.
    exact (heap_wf_op id _ _ _ OpSetCancelled _ Hw Hs eq_refl).
Qed.
Lemma thread_step_wf w t w' t' : heap_wf w → thread_step moved_data w t = Some (w', t') → heap_wf w'.
Proof.
  intros Hw Ht. destruct t as [c fs].
  assert (('(w1, k1, fs1) ← ctrl_step moved_data w c; Some (w1, (k1, fs1 ++ fs))) = Some (w', t') →
    heap_wf w') as Hgen.
  { destruct (ctrl_step moved_data w c) as [[[w1 k1] fs1]|] eqn:Hc; intros; simplify_eq/=.
    exact (ctrl_step_wf _ _ _ Hw Hc). }
  destruct c; try exact (Hgen Ht). destruct fs as [|f fs]; [done|]. simpl in Ht.
  destruct (resume f r w) as [[[w1 k1] fs1]|] eqn:Hr; simplify_eq/=. exact (resume_wf _ _ _ _ Hw Hr).
Qed.
Lemma config_step_wf i c c' : heap_wf c.1 → config_step moved_data i c = Some c' → heap_wf c'.1.
Proof.
  intros Hw. unfold config_step. destruct (existsb halted c.2); [done|].
  destruct (c.2 !! i) as [t|]; [simpl|done].
  destruct (thread_step moved_data c.1 t) as [[w' t']|] eqn:Ht; [|done].
  intros [= <-]. by eapply thread_step_wf.
Qed.

(** ** The machine with the specialization *)

Lemma thread_step_erase w t : have_exceptions = true → heap_wf w →
  special_thread_step (erase_world w) t = prod_map erase_world id <$> thread_step moved_data w t.
Proof.
  intros Hx Hw. destruct t as [c fs].
  assert (('(w1, k1, fs1) ← special_ctrl_step (erase_world w) c; Some (w1, (k1, fs1 ++ fs)))
    = prod_map erase_world id <$> ('(w1, k1, fs1) ← ctrl_step moved_data w c; Some (w1, (k1, fs1 ++ fs)))) as Hgen.
  { rewrite ctrl_step_erase by done. by destruct (ctrl_step moved_data w c) as [[[w1 k1] fs1]|]. }
  destruct c; try exact Hgen. destruct fs as [|f fs]; [done|]. simpl. rewrite resume_erase.
  by destruct (resume f r w) as [[[w1 k1] fs1]|].
Qed.
Lemma config_step_erase i c : have_exceptions = true → heap_wf c.1 →
  special_config_step i (erase_config c) = erase_config <$> config_step moved_data i c.
Proof.
  intros Hx Hw. unfold special_config_step, config_step. simpl.
  destruct (existsb halted c.2); [done|]. destruct (c.2 !! i) as [t|]; [simpl|done].
  rewrite thread_step_erase by done. by destruct (thread_step moved_data c.1 t) as [[w' t']|].
Qed.

Fixpoint special_run (schedule : list nat) (c : config D) : option (config D) :=
  match schedule with
  | [] => Some c
  | i :: rest => c' ← special_config_step i c; special_run rest c'
  end.

Lemma run_erase sched c : have_exceptions = true → heap_wf c.1 →
  special_run sched (erase_config c) = erase_config <$> run moved_data sched c.
Proof.
  intros Hx. revert c. induction sched as [|i sched IH]; intros c Hw; [done|]. simpl.
  rewrite config_step_erase by done. destruct (config_step moved_data i c) as [c'|] eqn:Hc; [|done].
  simpl. apply IH. by eapply config_step_wf.
Qed.

(** C15: [future<void>] and [promise<void>], whose shared state has no buffer, behave as the
    templates at a type with one value: with the same schedule a program takes the same steps
    with the specialization as with the templates, up to the buffers that hold the value of
    type [void], whichever variables are of these classes, and the threads, the handles, the
    continuations that ran and the exceptions thrown are the same. *)
Theorem void_futures_as_templates bodies sched :
  have_exceptions = true →
  special_run sched (init bodies) = erase_config <$> run moved_data sched (init bodies).
Proof. intros Hx. by rewrite <- run_erase; [|done|apply map_Forall_empty]. Qed.

(** And [make_ready_future()] is [make_ready_future(value)] at that type. *)
Lemma make_ready_void_future_eq : make_ready_void_future = make_ready_future (D := D) VVoid.
Proof. reflexivity. Qed.
End void_machine.

(** A thread gets the value of a ready [future<void>]. *)
Definition example_void : prog () :=
  pbind make_ready_void_future (with_handle (λ f, PCall (FutureGet f) reply_with)).

Lemma void_futures_as_templates_witness :
  let result := (λ c : config (), (c.2, buffer_ <$> heap c.1 !! 0)) in
  have_exceptions (Build := example_build) = true ∧
  result <$> special_run (H := example_build) id (λ _, true) (replicate 14 0) (init [example_void]) =
    Some ([(Reply (Returned VVoid), [])], Some None) ∧
  result <$> run (H := example_build) id (replicate 14 0) (init [example_void]) =
    Some ([(Reply (Returned VVoid), [])], Some (Some VVoid)).
Proof.
  intros result. split_and!; [reflexivity| |vm_compute; reflexivity].
  rewrite (void_futures_as_templates (H := example_build) id (λ _, true) [example_void] (replicate 14 0) eq_refl).
  vm_compute. reflexivity.
Defined.
