(* ===== verification/Unwinding.v ===== *)
(** * Computations that an exception leaves half way

    [cxx A] says how an expression ends; what it did before it threw is lost.  Here a
    computation changes a state [S] and keeps the changes when it throws, so that the
    statements of a function can be written one after the other and the state between two
    of them is what an exception leaves behind. *)

From S2P Require Import Prelude Status Throw.

Set Default Proof Using "Type".

Definition stm (S A : Type) : Type := S → S * cxx A.

Section stm.
Context {S : Type}.

Global Instance stm_ret : MRet (stm S) := λ A a σ, (σ, Ret a).
Global Instance stm_bind : MBind (stm S) := λ A B f m σ,
  match m σ with
  | (σ', Ret a) => f a σ'
  | (σ', Throw e) => (σ', Throw e)
  | (σ', Terminated s) => (σ', Terminated s)
  | (σ', Undefined u) => (σ', Undefined u)
  end.

(** An expression without effects on the state. *)
Definition lift {A} (m : cxx A) : stm S A := λ σ, (σ, m).
(** Code of the application that may throw. *)
Definition fails (e : option exn) : stm S () :=
  λ σ, (σ, match e with Some e => Throw e | None => Ret () end).
(** [f] runs while the exception [e] is thrown on. *)
Definition unwind {A} (e : exn) (f : stm S ()) : stm S A := λ σ,
  match f σ with
  | (σ', Undefined u) => (σ', Undefined u)
  | (σ', _) => (σ', Throw e)
  end.
(** What else happens when [m] throws. *)
Definition on_throw {A} (m : stm S A) (f : stm S ()) : stm S A := λ σ,
  match m σ with (σ', Throw e) => unwind e f σ' | r => r end.
(** [f] runs when [m] returns or throws: the destructor of a local object. *)
Definition finally {A} (m : stm S A) (f : stm S ()) : stm S A := λ σ,
  match m σ with
  | (σ', Ret a) => (_ ← f; mret a) σ'
  | (σ', Throw e) => unwind e f σ'
  | r => r
  end.
(** A function that is [noexcept]. *)
Definition is_noexcept {A} (m : stm S A) : stm S A := λ σ,
  match m σ with
  | (σ', Throw e) => (σ', Terminated "std::terminate")
  | r => r
  end.

(** The state and the result, as an expression that gives the new state. *)
Definition collapse (r : S * cxx ()) : cxx S :=
  match r with
  | (σ, Ret _) => Ret σ
  | (_, Throw e) => Throw e
  | (_, Terminated s) => Terminated s
  | (_, Undefined u) => Undefined u
  end.

(** What holds after a computation that returns, and after one that throws; it is never
    undefined. *)
Definition leaves {A} (Q : A → S → Prop) (E : exn → S → Prop) (r : S * cxx A) : Prop :=
  match r with
  | (σ, Ret a) => Q a σ
  | (σ, Throw e) => E e σ
  | (_, Terminated _) => True
  | (_, Undefined _) => False
  end.

Lemma leaves_mono {A} (Q Q' : A → S → Prop) (E E' : exn → S → Prop) r :
  leaves Q E r → (∀ a σ, Q a σ → Q' a σ) → (∀ e σ, E e σ → E' e σ) → leaves Q' E' r.
Proof. destruct r as [σ []]; simpl; auto. Qed.

Lemma leaves_bind {A B} (Q : A → S → Prop) (R : B → S → Prop) (E : exn → S → Prop)
    (m : stm S A) (f : A → stm S B) σ :
  leaves Q E (m σ) → (∀ a σ', Q a σ' → leaves R E (f a σ')) → leaves R E ((m ≫= f) σ).
Proof. unfold mbind, stm_bind. destruct (m σ) as [σ' []]; simpl; auto. Qed.

Lemma noexcept_never_throws {A B} (m : stm S A) (b : B) σ σ' e :
  (_ ← is_noexcept m; mret b) σ ≠ (σ', Throw e).
Proof. unfold mbind, stm_bind, is_noexcept. by destruct (m σ) as [? []]. Qed.
End stm.

(** ** What may throw in the middle of an operation

    What the operations of [T] and [std::string] do wrong: [construct_throws v] when a [T] is
    made from [v], [assign_throws u v] when [v] is assigned to [u], and what they leave in the
    source and in the target; [copy_status_throws] when the message of a status is copied. *)
Record hazards (T : Type) := mkHazards {
  construct_throws : T → option exn;
  assign_throws : T → T → option exn;
  torn_source : T → T;
  torn_target : T → T → T;
  copy_status_throws : Status → option exn;
}.
Arguments mkHazards {T} _ _ _ _ _.
Arguments construct_throws {T} _ _.
Arguments assign_throws {T} _ _ _.
Arguments torn_source {T} _ _.
Arguments torn_target {T} _ _ _.
Arguments copy_status_throws {T} _ _.
Definition no_hazards {T} : hazards T :=
  mkHazards (λ _, None) (λ _ _, None) (λ v, v) (λ u _, u) (λ _, None).

(** ** The variables of a program *)
Section variables.
Context {O : Type}.
Abbreviation vars := (Objects.vars O).
Implicit Types (σ : vars).

Definition var (x : nat) : stm vars O := λ σ, (σ, Objects.get x σ).
Definition put (x : nat) (s : O) : stm vars () := λ σ, (Objects.set x s σ, Ret ()).
Definition update (x : nat) (f : O → cxx O) : stm vars () :=
  s ← var x; s' ← lift (f s); put x s'.
Definition declare (x : nat) (s : O) : stm vars () := λ σ,
  match Objects.new x s σ with
  | Ret σ' => (σ', Ret ())
  | Throw e => (σ, Throw e)
  | Terminated t => (σ, Terminated t)
  | Undefined u => (σ, Undefined u)
  end.
Definition forget (x : nat) : stm vars () := λ σ, (Objects.remove x σ, Ret ()).

Lemma get_set_eq x s σ : Objects.get (E := exn) x (Objects.set x s σ) = Ret s.
Proof. unfold Objects.get. by rewrite Objects.lookup_set_eq. Qed.
Lemma get_set_ne x y s σ :
  x ≠ y → Objects.get (E := exn) y (Objects.set x s σ) = Objects.get y σ.
Proof. intros Hne. unfold Objects.get. by rewrite Objects.lookup_set_ne. Qed.
Lemma get_lookup σ x s : Objects.get (E := exn) x σ = Ret s → σ !! x = Some s.
Proof. unfold Objects.get. by destruct (σ !! x); intros [= ->]. Qed.
Lemma lookup_get σ x s : σ !! x = Some s → Objects.get (E := exn) x σ = Ret s.
Proof. unfold Objects.get. by intros ->. Qed.
Lemma new_fresh x s σ : σ !! x = None → Objects.new (E := exn) x s σ = Ret (Objects.set x s σ).
Proof. unfold Objects.new. by intros ->. Qed.
Lemma lookup_set_other x y s σ : σ !! y = None → x ≠ y → Objects.set x s σ !! y = None.
Proof. intros Hs Hne. by rewrite Objects.lookup_set_ne. Qed.
Lemma fresh_var σ : σ !! fresh (dom σ) = None.
Proof. apply not_elem_of_dom, is_fresh. Qed.
Lemma other_var σ x tmp : x ∈ dom σ → σ !! tmp = None → tmp ≠ x.
Proof. intros Hx Ht ->. by apply not_elem_of_dom in Ht. Qed.

Lemma set_set x s s' σ : Objects.set x s (Objects.set x s' σ) = Objects.set x s σ.
Proof. apply insert_insert_eq. Qed.
Lemma set_comm x y s s' σ :
  x ≠ y → Objects.set x s (Objects.set y s' σ) = Objects.set y s' (Objects.set x s σ).
Proof. apply insert_insert_ne. Qed.
Lemma remove_set x s σ : Objects.remove x (Objects.set x s σ) = Objects.remove x σ.
Proof. apply delete_insert_eq. Qed.

(** *** What an exception leaves *)

(** No variable was created or destroyed, and each is related to what it was. *)
Definition all_kept (kept : nat → O → O → Prop) σ σ' : Prop :=
  ∀ z, match σ !! z with
       | Some s => ∃ s', σ' !! z = Some s' ∧ kept z s s'
       | None => σ' !! z = None
       end.
Lemma all_kept_refl (kept : nat → O → O → Prop) σ : (∀ z s, kept z s s) → all_kept kept σ σ.
Proof. intros Hk z. destruct (σ !! z) as [s|]; eauto. Qed.
Lemma all_kept_set (kept : nat → O → O → Prop) σ σ' x s s' :
  Objects.get (E := exn) x σ = Ret s → kept x s s' → all_kept kept σ σ' →
  all_kept kept σ (Objects.set x s' σ').
Proof.
  intros Hx%get_lookup Hk Ha z. specialize (Ha z). destruct (decide (x = z)) as [<-|Hne].
  - rewrite Hx in *. rewrite Objects.lookup_set_eq. eauto.
  - by rewrite Objects.lookup_set_ne.
Qed.
End variables.

(** The program goes on after it. *)
Definition goes_on {A} (r : cxx A) : bool :=
  match r with Ret _ | Throw _ => true | _ => false end.

(** *** Programs

    A program catches the exception of an operation and goes on, and ends when it is
    terminated.  [None]: it uses a variable that does not exist. *)
Section programs.
Context {O Op Res : Type} (scoped : Op → Objects.vars O → bool).
Context (do_op : Op → stm (Objects.vars O) Res).

Fixpoint run_program (os : list Op) (σ : Objects.vars O) : option (Objects.vars O * list (cxx Res)) :=
  match os with
  | [] => Some (σ, [])
  | o :: os =>
      if scoped o σ then
        let '(σ1, r) := do_op o σ in
        if goes_on r then '(σ2, rs) ← run_program os σ1; Some (σ2, r :: rs) else Some (σ1, [r])
      else None
  end.

Lemma run_program_safe (I : Objects.vars O → Prop) (E : Op → Objects.vars O → Objects.vars O → Prop)
    os σ0 σ rs :
  (∀ o σ, I σ → scoped o σ = true → leaves (λ _ σ', I σ') (λ _ σ', I σ' ∧ E o σ σ') (do_op o σ)) →
  I σ0 → run_program os σ0 = Some (σ, rs) →
  Forall defined rs ∧
  (forallb goes_on rs = true → I σ ∧
   ∀ o σ' e, scoped o σ = true → do_op o σ = (σ', Throw e) → I σ' ∧ E o σ σ').
Proof.
  intros Hsafe Hi Hr. cut (Forall defined rs ∧ (forallb goes_on rs = true → I σ)).
  { intros [Hd Hg]. split; [done|]. intros Hall. split; [by apply Hg|]. intros o σ' e Hs Ho.
    specialize (Hsafe o σ (Hg Hall) Hs). by rewrite Ho in Hsafe. }
  revert σ0 rs Hi Hr. induction os as [|o os IH]; intros σ0 rs Hi Hr; [by simplify_eq/=|]. simpl in Hr.
  destruct (scoped o σ0) eqn:Hs; [|done]. specialize (Hsafe o σ0 Hi Hs).
  destruct (do_op o σ0) as [σ1 r].
  assert (defined r ∧ (goes_on r = true → I σ1)) as [Hd Hi1].
  { destruct r; simpl in *; try done; by destruct_and?. }
  destruct (goes_on r) eqn:Hg.
  - destruct (run_program os σ1) as [[σ2 rs2]|] eqn:Hr2; [|done]. injection Hr as <- <-.
    destruct (IH σ1 rs2 (Hi1 eq_refl) Hr2) as [Hd2 Hg2]. split; [by constructor|]. simpl.
    by rewrite Hg.
  - injection Hr as <- <-. split; [by repeat constructor|]. simpl. by rewrite Hg.
Qed.
End programs.

(** ** Tactics

    [run_vars tac] runs the statements of an operation on the variables of which the context
    says what they hold; [tac] decides what else the operation depends on. *)
Ltac unfold_stm :=
  unfold update, var, put, declare, forget, lift, fails, on_throw, unwind, finally, is_noexcept,
    mbind, mret, stm_bind, stm_ret, outcome_bind.
Ltac run_vars tac :=
  unfold_stm; simpl;
  repeat (first
    [ match goal with
      | H : Objects.get ?x ?σ = Ret _ |- context [Objects.get ?x ?σ] => rewrite H
      | H : ?x ≠ ?y |- context [Objects.get ?y (Objects.set ?x _ _)] => rewrite (get_set_ne x y) by exact H
      | H : ?y ≠ ?x |- context [Objects.get ?y (Objects.set ?x _ _)] =>
          rewrite (get_set_ne x y) by (apply not_eq_sym; exact H)
      end
    | rewrite get_set_eq | rewrite new_fresh by eauto using lookup_set_other | tac ]; simpl).
(** Each variable is set once. *)
Ltac merge_sets :=
  rewrite ?set_set, ?remove_set;
  try match goal with Hne : ?x ≠ ?y |- _ => rewrite ?(set_comm x y), ?set_set by exact Hne end.
Ltac same_vars := merge_sets; done.
