(* ===== verification/StatusOr.v ===== *)
(** * [StatusOr<T>] (status_or.h)

    Every constructor, assignment and accessor as an operation on the variables of a
    program, with the lifetime of the [T] in the anonymous union, and the
    specification they refine: a variable holds an error status or a value. *)

From S2P Require Import Prelude Status Throw.
Import Slot.

Set Default Proof Using "Type".

(** The data members: [value_] is a member of an anonymous union. *)
Record StatusOr (T : Type) := mkStatusOr { status_ : Status; value_ : slot T }.
Arguments mkStatusOr {T} _ _.
Arguments status_ {T} _.
Arguments value_ {T} _.

Section status_or.
(** [mv] and [mvs]: what a moved-from [T] and a moved-from string contain. *)
Context `{Build} {T : Type} (mv : T → T) (mvs : string → string).
Implicit Types (s : StatusOr T) (σ : Objects.vars (StatusOr T)).

Definition ok s : bool := Status_ok (status_ s).

(** The member [status_] after a move from it. *)
Definition status_moved s : StatusOr T := mkStatusOr (Status_moved mvs (status_ s)) (value_ s).
Definition set_status (st : Status) s : StatusOr T := mkStatusOr st (value_ s).
Definition with_value (s : StatusOr T) (m : cxx (slot T)) : cxx (StatusOr T) :=
  b ← m; Ret (mkStatusOr (status_ s) b).

(** ** Construction and destruction *)

Definition new_status (x : nat) (rhs : Status) σ : cxx (Objects.vars (StatusOr T)) :=
  if Status_ok rhs then ThrowInvalidArgument "StatusOr"
  else Objects.new x (mkStatusOr rhs empty) σ.
Definition new_default (x : nat) σ : cxx (Objects.vars (StatusOr T)) :=
  new_status x (mkStatus kUnknown "default") σ.
Definition new_value (x : nat) (rhs : T) σ : cxx (Objects.vars (StatusOr T)) :=
  v ← construct rhs empty; Objects.new x (mkStatusOr Status_default v) σ.

(** [StatusOr(StatusOr&& rhs)]: [rhs] keeps its status code. *)
Definition new_move (x y : nat) σ : cxx (Objects.vars (StatusOr T)) :=
  rhs ← Objects.get y σ;
  let σ1 := Objects.set y (status_moved rhs) σ in
  if Status_ok (status_ rhs) then
    v ← read (value_ rhs);
    b ← construct v empty;
    rhs' ← with_value (status_moved rhs) (assign (mv v) (value_ rhs));
    Objects.new x (mkStatusOr (status_ rhs) b) (Objects.set y rhs' σ1)
  else Objects.new x (mkStatusOr (status_ rhs) empty) σ1.

Definition new_copy (x y : nat) σ : cxx (Objects.vars (StatusOr T)) :=
  rhs ← Objects.get y σ;
  if Status_ok (status_ rhs) then
    v ← read (value_ rhs);
    b ← construct v empty;
    Objects.new x (mkStatusOr (status_ rhs) b) σ
  else Objects.new x (mkStatusOr (status_ rhs) empty) σ.

Definition destroy_var (x : nat) σ : cxx (Objects.vars (StatusOr T)) :=
  this ← Objects.get x σ;
  _ ← (if ok this then destroy (value_ this) else Ret (value_ this));
  Ret (Objects.remove x σ).

(** ** Assignment *)

(** [operator=(StatusOr&& rhs)]. *)
Definition assign_move (x y : nat) σ : cxx (Objects.vars (StatusOr T)) :=
  this ← Objects.get x σ;
  rhs ← Objects.get y σ;
  if negb (ok this) then
    if negb (ok rhs) then
      Ret (Objects.set y (status_moved rhs) (Objects.set x (set_status (status_ rhs) this) σ))
    else
      v ← read (value_ rhs);
      this' ← with_value this (construct v (value_ this));
      rhs' ← with_value rhs (assign (mv v) (value_ rhs));
      Ret (Objects.set y rhs' (Objects.set x (set_status Status_default this') σ))
  else if negb (ok rhs) then
    this' ← with_value this (destroy (value_ this));
    Ret (Objects.set y (status_moved rhs) (Objects.set x (set_status (status_ rhs) this') σ))
  else
    v ← read (value_ rhs);
    this' ← with_value this (assign v (value_ this));
    let σ1 := Objects.set x (set_status Status_default this') σ in
    rhs1 ← Objects.get y σ1;
    rhs' ← with_value rhs1 (assign (mv v) (value_ rhs1));
    Ret (Objects.set y rhs' σ1).

(** [operator=(StatusOr const& rhs)]. *)
Definition assign_copy (x y : nat) σ : cxx (Objects.vars (StatusOr T)) :=
  this ← Objects.get x σ;
  rhs ← Objects.get y σ;
  if negb (ok this) then
    if negb (ok rhs) then Ret (Objects.set x (set_status (status_ rhs) this) σ)
    else
      v ← read (value_ rhs);
      this' ← with_value this (construct v (value_ this));
      Ret (Objects.set x (set_status (status_ rhs) this') σ)
  else if negb (ok rhs) then
    this' ← with_value this (destroy (value_ this));
    Ret (Objects.set x (set_status (status_ rhs) this') σ)
  else
    v ← read (value_ rhs);
    this' ← with_value this (assign v (value_ this));
    Ret (Objects.set x (set_status (status_ rhs) this') σ).

(** [operator=(U&& rhs)]. *)
Definition assign_value (x : nat) (rhs : T) σ : cxx (Objects.vars (StatusOr T)) :=
  this ← Objects.get x σ;
  if negb (ok this) then
    this' ← with_value this (construct rhs (value_ this));
    Ret (Objects.set x (set_status Status_default this') σ)
  else
    this' ← with_value this (assign rhs (value_ this));
    Ret (Objects.set x (set_status Status_default this') σ).

(** [operator=(Status status)]: through a temporary. *)
Definition assign_status (x : nat) (status : Status) σ : cxx (Objects.vars (StatusOr T)) :=
  _ ← Objects.get x σ;
  let tmp := fresh (dom σ) in
  σ1 ← new_status tmp status σ;
  σ2 ← assign_move x tmp σ1;
  destroy_var tmp σ2.

(** ** Access *)

(** [operator*], [operator->]: not checked. *)
Definition deref s : cxx T := read (value_ s).
Definition CheckHasValue s : cxx () := if negb (ok s) then ThrowStatus (status_ s) else Ret ().
Definition value s : cxx T := _ ← CheckHasValue s; deref s.

(** [value() &&]: the caller moves from the reference; without a value the status
    is moved into the exception. *)
Definition value_rvalue (x : nat) σ : cxx (Objects.vars (StatusOr T) * cxx T) :=
  this ← Objects.get x σ;
  if negb (ok this) then
    Ret (Objects.set x (status_moved this) σ, ThrowStatus (status_ this))
  else
    v ← deref this;
    this' ← with_value this (assign (mv v) (value_ this));
    Ret (Objects.set x this' σ, Ret v).

(** [operator==] and [operator!=]; [eqT] is the operator of [T]. *)
Definition status_or_eq (eqT : T → T → bool) (a b : StatusOr T) : cxx bool :=
  if negb (ok a) || negb (ok b) then Ret (Status_eqb (status_ a) (status_ b))
  else v ← deref a; w ← deref b; Ret (eqT v w).
Definition status_or_ne (eqT : T → T → bool) (a b : StatusOr T) : cxx bool :=
  r ← status_or_eq eqT a b; Ret (negb r).

(** [make_status_or]. *)
Definition make_status_or (x : nat) (rhs : T) σ : cxx (Objects.vars (StatusOr T)) :=
  new_value x rhs σ.

(** ** Programs *)
Inductive op :=
| NewDefault (x : nat)
| NewStatus (x : nat) (st : Status)
| NewValue (x : nat) (v : T)
| NewMove (x y : nat)
| NewCopy (x y : nat)
| Destroy (x : nat)
| AssignMove (x y : nat)
| AssignCopy (x y : nat)
| AssignValue (x : nat) (v : T)
| AssignStatus (x : nat) (st : Status)
| IsOk (x : nat)
| Deref (x : nat)
| Value (x : nat)
| ValueRvalue (x : nat)
| StatusOf (x : nat)
| Equal (eqT : T → T → bool) (x y : nat)
| NotEqual (eqT : T → T → bool) (x y : nat).

(** What an operation gives back. *)
Inductive result :=
| RVoid
| RBool (b : bool)
| RValue (v : T)
| RStatus (st : Status).

(** The outcome of an operation that may throw: the exception is caught by the
    program, which goes on with the variables as they are. *)
Definition caught {V A} (vs : V) (m : cxx A) (f : A → V * result) : cxx (V * cxx result) :=
  match m with
  | Ret a => Ret ((f a).1, Ret (f a).2)
  | Throw e => Ret (vs, Throw e)
  | Terminated s => Ret (vs, Terminated s)
  | Undefined u => Undefined u
  end.
Definition stores {V} (vs : V) (m : cxx V) : cxx (V * cxx result) :=
  caught vs m (λ vs', (vs', RVoid)).

Definition run_op (o : op) σ : cxx (Objects.vars (StatusOr T) * cxx result) :=
  match o with
  | NewDefault x => stores σ (new_default x σ)
  | NewStatus x st => stores σ (new_status x st σ)
  | NewValue x v => stores σ (make_status_or x v σ)
  | NewMove x y => stores σ (new_move x y σ)
  | NewCopy x y => stores σ (new_copy x y σ)
  | Destroy x => stores σ (destroy_var x σ)
  | AssignMove x y => stores σ (assign_move x y σ)
  | AssignCopy x y => stores σ (assign_copy x y σ)
  | AssignValue x v => stores σ (assign_value x v σ)
  | AssignStatus x st => stores σ (assign_status x st σ)
  | IsOk x => caught σ (Objects.get x σ) (λ s, (σ, RBool (ok s)))
  | Deref x => caught σ (s ← Objects.get x σ; deref s) (λ v, (σ, RValue v))
  | Value x => caught σ (s ← Objects.get x σ; value s) (λ v, (σ, RValue v))
  | ValueRvalue x => '(σ', m) ← value_rvalue x σ; caught σ' m (λ v, (σ', RValue v))
  | StatusOf x => caught σ (Objects.get x σ) (λ s, (σ, RStatus (status_ s)))
  | Equal eqT x y => caught σ
      (a ← Objects.get x σ; b ← Objects.get y σ; status_or_eq eqT a b) (λ b, (σ, RBool b))
  | NotEqual eqT x y => caught σ
      (a ← Objects.get x σ; b ← Objects.get y σ; status_or_ne eqT a b) (λ b, (σ, RBool b))
  end.

(** A program: the results of its operations, in order. *)
Fixpoint run_ops (os : list op) σ : cxx (Objects.vars (StatusOr T) * list (cxx result)) :=
  match os with
  | [] => Ret (σ, [])
  | o :: os' =>
      '(σ1, r) ← run_op o σ;
      '(σ2, rs) ← run_ops os' σ1;
      Ret (σ2, r :: rs)
  end.

(** ** The specification

    A variable holds an error or a value. *)
Abbreviation spec_vars := (Objects.vars (Status + T)).
Implicit Types (τ : spec_vars).

Definition spec_moved (a : Status + T) : Status + T :=
  match a with inl st => inl (Status_moved mvs st) | inr v => inr (mv v) end.
Definition spec_value (a : Status + T) : cxx T :=
  match a with inl st => ThrowStatus st | inr v => Ret v end.

(** An error and a value are never equal. *)
Definition spec_eq (eqT : T → T → bool) (a b : Status + T) : bool :=
  match a, b with
  | inl s, inl t => Status_eqb s t
  | inr v, inr w => eqT v w
  | _, _ => false
  end.

Definition spec_op (o : op) τ : cxx (spec_vars * cxx result) :=
  match o with
  | NewDefault x => stores τ (Objects.new x (inl (mkStatus kUnknown "default")) τ)
  | NewStatus x st => stores τ
      (if Status_ok st then ThrowInvalidArgument "StatusOr" else Objects.new x (inl st) τ)
  | NewValue x v => stores τ (Objects.new x (inr v) τ)
  | NewMove x y => stores τ
      (a ← Objects.get y τ; Objects.new x a (Objects.set y (spec_moved a) τ))
  | NewCopy x y => stores τ (a ← Objects.get y τ; Objects.new x a τ)
  | Destroy x => stores τ (_ ← Objects.get x τ; Ret (Objects.remove x τ))
  | AssignMove x y => stores τ
      (_ ← Objects.get x τ; a ← Objects.get y τ;
       Ret (Objects.set y (spec_moved a) (Objects.set x a τ)))
  | AssignCopy x y => stores τ
      (_ ← Objects.get x τ; a ← Objects.get y τ; Ret (Objects.set x a τ))
  | AssignValue x v => stores τ (_ ← Objects.get x τ; Ret (Objects.set x (inr v) τ))
  | AssignStatus x st => stores τ
      (_ ← Objects.get x τ;
       if Status_ok st then ThrowInvalidArgument "StatusOr"
       else Ret (Objects.set x (inl st) τ))
  | IsOk x => caught τ (Objects.get x τ)
      (λ a, (τ, RBool (match a with inl _ => false | inr _ => true end)))
  | Deref x => caught τ
      (a ← Objects.get x τ;
       match a with inl _ => Undefined UninitializedRead | inr v => Ret v end)
      (λ v, (τ, RValue v))
  | Value x => caught τ (a ← Objects.get x τ; spec_value a) (λ v, (τ, RValue v))
  | ValueRvalue x =>
      a ← Objects.get x τ;
      let τ' := Objects.set x (spec_moved a) τ in
      caught τ' (spec_value a) (λ v, (τ', RValue v))
  | StatusOf x => caught τ (Objects.get x τ)
      (λ a, (τ, RStatus (match a with inl st => st | inr _ => Status_default end)))
  | Equal eqT x y => caught τ
      (a ← Objects.get x τ; b ← Objects.get y τ; Ret (spec_eq eqT a b)) (λ b, (τ, RBool b))
  | NotEqual eqT x y => caught τ
      (a ← Objects.get x τ; b ← Objects.get y τ; Ret (negb (spec_eq eqT a b)))
      (λ b, (τ, RBool b))
  end.

Fixpoint spec_ops (os : list op) τ : cxx (spec_vars * list (cxx result)) :=
  match os with
  | [] => Ret (τ, [])
  | o :: os' =>
      '(τ1, r) ← spec_op o τ;
      '(τ2, rs) ← spec_ops os' τ1;
      Ret (τ2, r :: rs)
  end.

(** ** The refinement relation *)

(** The value is alive exactly when the status is OK. *)
Definition StatusOr_wf s : Prop := ok s = true ↔ is_Some (value_ s).
Definition repr s : Status + T :=
  match value_ s with Some v => inr v | None => inl (status_ s) end.

(** Results agree, except for the message of an OK status. *)
Definition result_agrees (r r' : result) : Prop :=
  match r, r' with
  | RStatus a, RStatus b => Status_ok a = Status_ok b ∧ (Status_ok a = false → a = b)
  | _, _ => r = r'
  end.
Definition outcome_agrees (r r' : cxx result) : Prop :=
  match r, r' with
  | Ret a, Ret b => result_agrees a b
  | _, _ => r = r'
  end.
Definition refines {R} (ag : R → R → Prop)
    (m : cxx (Objects.vars (StatusOr T) * R)) (m' : cxx (spec_vars * R)) : Prop :=
  match m, m' with
  | Ret (σ, r), Ret (τ, r') => map_Forall (λ _, StatusOr_wf) σ ∧ repr <$> σ = τ ∧ ag r r'
  | Undefined f, Undefined f' => f = f'
  | _, _ => False
  end.
End status_or.

(** ** Lemmas *)
Section lemmas.
Context `{Build} {T : Type} (mv : T → T) (mvs : string → string).
Implicit Types (s : StatusOr T) (σ : Objects.vars (StatusOr T)).

(** The two kinds of well-formed objects. *)
Lemma StatusOr_wf_cases s :
  StatusOr_wf s →
  (∃ st, s = mkStatusOr st None ∧ Status_ok st = false ∧ repr s = inl st) ∨
  (∃ st v, s = mkStatusOr st (Some v) ∧ Status_ok st = true ∧ repr s = inr v).
Proof.
  destruct s as [st [v|]]; unfold StatusOr_wf, ok, repr; simpl; intros Hwf.
  - right. exists st, v. split_and!; [done|by apply Hwf|done].
  - left. exists st. split_and!; try done. destruct (Status_ok st); [|done].
    by destruct (proj1 Hwf eq_refl).
Qed.

Lemma wf_error st : Status_ok st = false → StatusOr_wf (mkStatusOr st (@None T)).
Proof. unfold StatusOr_wf, ok. simpl. intros ->. split; [done|by intros []]. Qed.

Lemma wf_value st (v : T) : Status_ok st = true → StatusOr_wf (mkStatusOr st (Some v)).
Proof. unfold StatusOr_wf, ok. simpl. intros ->. split; eauto. Qed.

Abbreviation all_wf σ := (map_Forall (λ _, StatusOr_wf) σ).

(** Reading a variable in the program and in its specification. *)
Lemma lookup_cases σ x :
  all_wf σ →
  (σ !! x = None ∧ (repr <$> σ) !! x = None) ∨
  (∃ s, σ !! x = Some s ∧ StatusOr_wf s ∧ (repr <$> σ) !! x = Some (repr s)).
Proof.
  intros Hwf. rewrite lookup_fmap. destruct (σ !! x) as [s|] eqn:Hx; [right|by left].
  exists s. split_and!; [done|by eapply Hwf|done].
Qed.

Lemma all_wf_set σ x s : all_wf σ → StatusOr_wf s → all_wf (Objects.set x s σ).
Proof. intros. by apply map_Forall_insert_2. Qed.

Lemma all_wf_remove σ x : all_wf σ → all_wf (Objects.remove x σ).
Proof. intros. by apply map_Forall_delete. Qed.

Lemma repr_set σ x s : repr <$> Objects.set x s σ = Objects.set x (repr s) (repr <$> σ).
Proof. apply fmap_insert. Qed.

Lemma repr_remove σ x : repr <$> Objects.remove x σ = Objects.remove x (repr <$> σ).
Proof. apply fmap_delete. Qed.

(** What a successful operation on the variables owes to its specification. *)
Definition refines_vars (m : cxx (Objects.vars (StatusOr T)))
    (m' : cxx (Objects.vars (Status + T))) : Prop :=
  match m, m' with
  | Ret σ, Ret τ => all_wf σ ∧ repr <$> σ = τ
  | Throw e, Throw e' => e = e'
  | Terminated s, Terminated s' => s = s'
  | Undefined f, Undefined f' => f = f'
  | _, _ => False
  end.

Lemma refines_stores σ τ m m' :
  all_wf σ → repr <$> σ = τ → refines_vars m m' →
  refines (@outcome_agrees T) (stores σ m) (stores τ m').
Proof. intros ?? Hm. destruct m, m'; simpl in *; try done; [|by subst..]. by destruct Hm. Qed.

Lemma new_refines σ τ x s a :
  all_wf σ → StatusOr_wf s → repr <$> σ = τ → repr s = a →
  refines_vars (Objects.new x s σ) (Objects.new x a τ).
Proof.
  intros Hwf Hs <- <-. unfold Objects.new. rewrite lookup_fmap. destruct (σ !! x); simpl; [done|].
  split; [by apply all_wf_set|apply (repr_set σ x s)].
Qed.

(** Split on what the variables hold. *)
Ltac on_var σ x :=
  let s := fresh "s" in let Hs := fresh "Hs" in let Hl := fresh "Hl" in
  let Hr := fresh "Hr" in let Hw := fresh "Hw" in
  match goal with Hwf : map_Forall _ σ |- _ =>
    destruct (lookup_cases σ x Hwf) as [[Hl Hr]|(s & Hl & Hw & Hr)];
      unfold Objects.get; rewrite Hl, Hr; simpl; [done|];
    apply StatusOr_wf_cases in Hw as [(?st & -> & Hs & Hw)|(?st & ?v & -> & Hs & Hw)];
    rewrite ?Hw; unfold ok; simpl; rewrite ?Hs; simpl
  end.

(** The variables of the program and of the specification after the same updates. *)
Ltac same_vars :=
  rewrite ?repr_remove, ?repr_set; unfold Objects.set, Objects.remove;
  rewrite ?insert_insert_eq; reflexivity.
Ltac finish :=
  unfold status_moved, set_status; simpl;
  first [apply new_refines|split|apply refines_stores];
  auto 8 using all_wf_set, all_wf_remove, wf_error, wf_value; try same_vars.

Lemma new_move_refines σ x y :
  all_wf σ →
  refines_vars (new_move mv mvs x y σ)
    (a ← Objects.get y (repr <$> σ);
     Objects.new x a (Objects.set y (spec_moved mv mvs a) (repr <$> σ))).
Proof. intros Hwf. unfold new_move. on_var σ y; finish. Qed.

Lemma new_copy_refines σ x y :
  all_wf σ →
  refines_vars (new_copy x y σ) (a ← Objects.get y (repr <$> σ); Objects.new x a (repr <$> σ)).
Proof. intros Hwf. unfold new_copy. on_var σ y; finish. Qed.

Lemma destroy_refines σ x :
  all_wf σ →
  refines_vars (destroy_var x σ)
    (_ ← Objects.get x (repr <$> σ); Ret (Objects.remove x (repr <$> σ))).
Proof. intros Hwf. unfold destroy_var. on_var σ x; finish. Qed.

Lemma assign_value_refines σ x v :
  all_wf σ →
  refines_vars (assign_value x v σ)
    (_ ← Objects.get x (repr <$> σ); Ret (Objects.set x (inr v) (repr <$> σ))).
Proof. intros Hwf. unfold assign_value. on_var σ x; finish. Qed.

Lemma assign_copy_refines σ x y :
  all_wf σ →
  refines_vars (assign_copy x y σ)
    (_ ← Objects.get x (repr <$> σ); a ← Objects.get y (repr <$> σ);
     Ret (Objects.set x a (repr <$> σ))).
Proof. intros Hwf. unfold assign_copy. on_var σ x; on_var σ y; finish. Qed.

Lemma assign_move_refines σ x y :
  all_wf σ →
  refines_vars (assign_move mv mvs x y σ)
    (_ ← Objects.get x (repr <$> σ); a ← Objects.get y (repr <$> σ);
     Ret (Objects.set y (spec_moved mv mvs a) (Objects.set x a (repr <$> σ)))).
Proof.
  intros Hwf. unfold assign_move. on_var σ x; on_var σ y; try finish.
  unfold set_status. simpl. destruct (decide (y = x)) as [->|Hne].
  - simplify_eq. rewrite Objects.lookup_set_eq. simpl. finish.
  - rewrite Objects.lookup_set_ne, Hl0 by done. simpl. finish.
Qed.

Lemma assign_status_refines σ x st :
  all_wf σ →
  refines_vars (assign_status mv mvs x st σ)
    (_ ← Objects.get x (repr <$> σ);
     if Status_ok st then ThrowInvalidArgument "StatusOr"
     else Ret (Objects.set x (inl st) (repr <$> σ))).
Proof.
  intros Hwf. unfold assign_status, new_status.
  destruct (lookup_cases σ x Hwf) as [[Hl Hr]|(s & Hl & Hw & Hr)];
    unfold Objects.get at 1 2; rewrite Hl, Hr; simpl; [done|].
  destruct (Status_ok st) eqn:Hst.
  { unfold ThrowInvalidArgument, ThrowException. by destruct have_exceptions. }
  set (tmp := fresh (dom σ)).
  assert (σ !! tmp = None) as Htmp by (apply not_elem_of_dom, is_fresh).
  assert (x ≠ tmp) as Hne by (intros ->; congruence).
  unfold Objects.new. rewrite Htmp. simpl.
  pose proof (assign_move_refines (Objects.set tmp (mkStatusOr st empty) σ) x tmp
    (all_wf_set _ _ _ Hwf (wf_error _ Hst))) as Hm.
  assert (Objects.get (E := exn) x (repr <$> Objects.set tmp (mkStatusOr st empty) σ) = Ret (repr s)) as Hx.
  { unfold Objects.get. by rewrite lookup_fmap, Objects.lookup_set_ne, Hl by done. }
  assert (Objects.get (E := exn) tmp (repr <$> Objects.set tmp (mkStatusOr st empty) σ)
    = Ret (inl st : Status + T)) as Ht.
  { unfold Objects.get. by rewrite lookup_fmap, Objects.lookup_set_eq. }
  rewrite Hx, Ht in Hm. simpl in Hm.
  destruct (assign_move mv mvs x tmp _) as [σ2| | |]; try done.
  destruct Hm as [Hwf2 Hr2]. simpl. pose proof (destroy_refines σ2 tmp Hwf2) as Hd.
  rewrite Hr2 in Hd. unfold Objects.get in Hd.
  rewrite Objects.lookup_set_eq in Hd. simpl in Hd.
  destruct (destroy_var tmp σ2) as [σ3| | |]; try done. destruct Hd as [Hwf3 Hr3].
  split; [done|]. rewrite Hr3. unfold Objects.set, Objects.remove. apply map_eq. intros z.
  destruct (decide (z = tmp)) as [->|]; [rewrite lookup_delete_eq|rewrite lookup_delete_ne by done].
  - by rewrite lookup_insert_ne, lookup_fmap, Htmp by done.
  - rewrite lookup_insert_ne by done. destruct (decide (z = x)) as [->|].
    + by rewrite !lookup_insert_eq.
    + rewrite !lookup_insert_ne by done. rewrite !lookup_fmap.
      by rewrite lookup_insert_ne by done.
Qed.

Lemma value_rvalue_refines σ x :
  all_wf σ →
  refines (@outcome_agrees T) (run_op mv mvs (ValueRvalue x) σ)
    (spec_op mv mvs (ValueRvalue x) (repr <$> σ)).
Proof.
  intros Hwf. simpl. unfold value_rvalue. on_var σ x.
  - unfold ThrowStatus, status_moved. destruct have_exceptions; simpl;
      (split_and!; [by apply all_wf_set, wf_error|same_vars|done]).
  - split_and!; [by apply all_wf_set, wf_value|same_vars|done].
Qed.

Lemma Status_eqb_ok_error st st' :
  Status_ok st ≠ Status_ok st' → Status_eqb st st' = false.
Proof.
  intros Hne. apply not_true_is_false. intros Heq%Status_eqb_eq. by subst.
Qed.

Lemma status_or_eq_refines eqT σ x y :
  all_wf σ →
  (a ← Objects.get x σ; b ← Objects.get y σ; status_or_eq eqT a b)
  = (a ← Objects.get x (repr <$> σ); b ← Objects.get y (repr <$> σ); Ret (spec_eq eqT a b)).
Proof.
  intros Hwf. on_var σ x; on_var σ y; unfold status_or_eq, ok; simpl; rewrite ?Hs, ?Hs0; simpl;
    try done; by rewrite Status_eqb_ok_error by congruence.
Qed.

(** Every operation, and with it every program, refines the specification. *)
Lemma run_op_refines o σ :
  all_wf σ →
  refines (@outcome_agrees T) (run_op mv mvs o σ) (spec_op mv mvs o (repr <$> σ)).
Proof.
  intros Hwf. destruct o; simpl; try (apply refines_stores; [done|done|]);
    auto using new_move_refines, new_copy_refines, destroy_refines, assign_move_refines,
      assign_copy_refines, assign_value_refines, assign_status_refines.
  - by apply new_refines; [|apply wf_error|..].
  - unfold new_status. destruct (Status_ok st) eqn:Hst.
    + unfold ThrowInvalidArgument, ThrowException. by destruct have_exceptions.
    + by apply new_refines; [|apply wf_error|..].
  - by apply new_refines; [|apply wf_value|..].
  - on_var σ x; done.
  - on_var σ x; done.
  - on_var σ x.
    + unfold value, CheckHasValue, ok. simpl. rewrite Hs. simpl.
      unfold ThrowStatus. by destruct have_exceptions.
    + unfold value, CheckHasValue, ok. simpl. by rewrite Hs.
  - by apply value_rvalue_refines.
  - on_var σ x; rewrite ?Hs; done.
  - rewrite status_or_eq_refines by done. by destruct (_ ≫= _).
  - on_var σ x; on_var σ y; unfold status_or_ne, status_or_eq, ok; simpl; rewrite ?Hs, ?Hs0; simpl;
      try done; by rewrite Status_eqb_ok_error by congruence.
Qed.
End lemmas.

(** ** Properties *)
Section properties.
Context `{Build} {T : Type} (mv : T → T) (mvs : string → string).

End properties.
