(* ===== verification/StatusOrUnwinding.v ===== *)
(** * [StatusOr<T>] when operations of [T] or of [std::string] throw

    The operations of [StatusOr.v] statement by statement.  A constructor or assignment of
    [T], or the allocation for a copy of a status, may throw in the middle of an operation;
    the theorems say what the variables hold then.  When nothing throws the operations are
    those of [StatusOr.v]. *)

From S2P Require Import Prelude Status Throw Unwinding StatusOr.
Import Slot.

Set Default Proof Using "Type".

Section operations.
Context `{Build} {T : Type} (mv : T → T) (mvs : string → string) (h : hazards T).
Abbreviation vars := (Objects.vars (StatusOr T)).

(** ** Statements *)

Definition is_ok (x : nat) : stm vars bool := s ← var x; mret (ok s).
(** [*rhs]. *)
Definition star (x : nat) : stm vars T := s ← var x; lift (deref s).
(** The [T] in [y] has been moved from, or the move has thrown. *)
Definition leave_in (y : nat) (v : T) : stm vars () :=
  update y (λ s, with_value s (assign v (value_ s))).

(** [new (&value_) T(v)]; [new (&value_) T( *rhs)]; [new (&value_) T( *std::move(rhs))]. *)
Definition construct_at (x : nat) (v : T) : stm vars () :=
  _ ← fails (construct_throws h v); update x (λ s, with_value s (construct v (value_ s))).
Definition copy_construct (x y : nat) : stm vars () := v ← star y; construct_at x v.
Definition move_construct (x y : nat) : stm vars () :=
  v ← star y;
  _ ← on_throw (construct_at x v) (leave_in y (torn_source h v));
  leave_in y (mv v).
(** [value_.~T()]. *)
Definition destroy_value (x : nat) : stm vars () :=
  update x (λ s, with_value s (destroy (value_ s))).
(** [**this = v], [**this = *rhs] and [**this = *std::move(rhs)]. *)
Definition assign_to (x : nat) (v : T) : stm vars () :=
  u ← star x;
  match assign_throws h u v with
  | Some e => _ ← leave_in x (torn_target h u v); fails (Some e)
  | None => leave_in x v
  end.
Definition copy_assign (x y : nat) : stm vars () := v ← star y; assign_to x v.
Definition move_assign (x y : nat) : stm vars () :=
  v ← star y;
  _ ← on_throw (assign_to x v) (leave_in y (torn_source h v));
  leave_in y (mv v).
(** [status_ = rhs.status_]: the members are copied in order, first the code and then the
    message. *)
Definition copy_status (x y : nat) : stm vars () :=
  rhs ← var y;
  _ ← update x (λ s, Ret (set_status (mkStatus (code_ (status_ rhs)) (message_ (status_ s))) s));
  _ ← fails (copy_status_throws h (status_ rhs));
  update x (λ s, Ret (set_status (status_ rhs) s)).
(** [status_ = std::move(rhs.status_)], [status_ = Status()]. *)
Definition move_status (x y : nat) : stm vars () :=
  rhs ← var y;
  _ ← update x (λ s, Ret (set_status (status_ rhs) s));
  update y (λ s, Ret (status_moved mvs s)).
Definition reset_status (x : nat) : stm vars () :=
  update x (λ s, Ret (set_status Status_default s)).

(** ** Constructors and the destructor

    A constructor that throws leaves no object behind. *)
Definition throwing_new_status (x : nat) (rhs : Status) : stm vars () :=
  _ ← lift (if Status_ok rhs then ThrowInvalidArgument "StatusOr" else Ret ());
  declare x (mkStatusOr rhs empty).
Definition throwing_new_value (x : nat) (rhs : T) : stm vars () :=
  _ ← fails (construct_throws h rhs);
  b ← lift (construct rhs empty);
  declare x (mkStatusOr Status_default b).
Definition throwing_new_move (x y : nat) : stm vars () :=
  rhs ← var y;
  _ ← update y (λ s, Ret (status_moved mvs s));
  if Status_ok (status_ rhs) then
    v ← star y;
    _ ← on_throw (fails (construct_throws h v)) (leave_in y (torn_source h v));
    b ← lift (construct v empty);
    _ ← leave_in y (mv v);
    declare x (mkStatusOr (status_ rhs) b)
  else declare x (mkStatusOr (status_ rhs) empty).
Definition throwing_new_copy (x y : nat) : stm vars () :=
  rhs ← var y;
  _ ← fails (copy_status_throws h (status_ rhs));
  if Status_ok (status_ rhs) then
    v ← star y;
    _ ← fails (construct_throws h v);
    b ← lift (construct v empty);
    declare x (mkStatusOr (status_ rhs) b)
  else declare x (mkStatusOr (status_ rhs) empty).
Definition throwing_destroy (x : nat) : stm vars () :=
  b ← is_ok x;
  _ ← (if b : bool then destroy_value x else mret ());
  forget x.

(** ** Assignments *)
Definition throwing_assign_move (x y : nat) : stm vars () :=
  a ← is_ok x;
  b ← is_ok y;
  if negb a then
    if negb b then move_status x y
    else _ ← move_construct x y; reset_status x
  else if negb b then _ ← destroy_value x; move_status x y
  else _ ← move_assign x y; reset_status x.
Definition throwing_assign_copy (x y : nat) : stm vars () :=
  a ← is_ok x;
  b ← is_ok y;
  if negb a then
    if negb b then copy_status x y
    else _ ← copy_construct x y; copy_status x y
  else if negb b then _ ← destroy_value x; copy_status x y
  else _ ← copy_assign x y; copy_status x y.
Definition throwing_assign_value (x : nat) (rhs : T) : stm vars () :=
  a ← is_ok x;
  if negb a then _ ← construct_at x rhs; reset_status x
  else _ ← assign_to x rhs; reset_status x.
(** Through the temporary [tmp]. *)
Definition assign_through (tmp x : nat) (status : Status) : stm vars () :=
  _ ← var x;
  _ ← throwing_new_status tmp status;
  finally (throwing_assign_move x tmp) (throwing_destroy tmp).
Definition throwing_assign_status (x : nat) (status : Status) : stm vars () := λ σ,
  assign_through (fresh (dom σ)) x status σ.

(** The caller of [value() &&] makes a [T] of the result. *)
Definition throwing_value_rvalue (x : nat) : stm vars T :=
  a ← is_ok x;
  if negb a then
    s ← var x; _ ← update x (λ s, Ret (status_moved mvs s)); lift (ThrowStatus (status_ s))
  else
    v ← star x;
    _ ← on_throw (fails (construct_throws h v)) (leave_in x (torn_source h v));
    _ ← leave_in x (mv v);
    mret v.

Definition throwing_op (o : op (T := T)) : stm vars (result (T := T)) :=
  match o with
  | NewDefault x => _ ← throwing_new_status x (mkStatus kUnknown "default"); mret RVoid
  | NewStatus x st => _ ← throwing_new_status x st; mret RVoid
  | NewValue x v => _ ← throwing_new_value x v; mret RVoid
  | NewMove x y => _ ← throwing_new_move x y; mret RVoid
  | NewCopy x y => _ ← throwing_new_copy x y; mret RVoid
  | Destroy x => _ ← throwing_destroy x; mret RVoid
  | AssignMove x y => _ ← throwing_assign_move x y; mret RVoid
  | AssignCopy x y => _ ← throwing_assign_copy x y; mret RVoid
  | AssignValue x v => _ ← throwing_assign_value x v; mret RVoid
  | AssignStatus x st => _ ← throwing_assign_status x st; mret RVoid
  | ValueRvalue x => v ← throwing_value_rvalue x; mret (RValue v)
  | IsOk x => b ← is_ok x; mret (RBool b)
  | Deref x => v ← star x; mret (RValue v)
  | Value x => s ← var x; v ← lift (value s); mret (RValue v)
  | StatusOf x => s ← var x; mret (RStatus (status_ s))
  | Equal eqT x y => a ← var x; b ← var y; r ← lift (status_or_eq eqT a b); mret (RBool r)
  | NotEqual eqT x y => a ← var x; b ← var y; r ← lift (status_or_ne eqT a b); mret (RBool r)
  end.

(** ** Programs that use their variables only while they exist *)
Definition scoped (o : op (T := T)) (σ : vars) : bool :=
  match o with
  | NewDefault x | NewStatus x _ | NewValue x _ => bool_decide (x ∉ dom σ)
  | NewMove x y | NewCopy x y => bool_decide (x ∉ dom σ ∧ y ∈ dom σ)
  | Destroy x | AssignValue x _ | AssignStatus x _ | IsOk x | Value x | ValueRvalue x
  | StatusOf x => bool_decide (x ∈ dom σ)
  | AssignMove x y | AssignCopy x y | Equal _ x y | NotEqual _ x y =>
      bool_decide (x ∈ dom σ ∧ y ∈ dom σ)
  | Deref x => match σ !! x with Some s => ok s | None => false end
  end.
End operations.

(** Every operation of a program comes with what goes wrong in it. *)
Definition throwing_run {T} `{Build} (mv : T → T) (mvs : string → string) :
    list (hazards T * op) → Objects.vars (StatusOr T) →
    option (Objects.vars (StatusOr T) * list (cxx result)) :=
  run_program (λ x, scoped x.2) (λ x, throwing_op mv mvs x.1 x.2).

(** ** Lemmas *)
Section lemmas.
Context `{Build} {T : Type} (mv : T → T) (mvs : string → string).
Implicit Types (σ : Objects.vars (StatusOr T)) (h : hazards T) (s : StatusOr T).
Abbreviation all_wf σ := (map_Forall (λ _, StatusOr_wf) σ).

(** A variable that exists holds an error or a value. *)
Lemma get_cases σ x : all_wf σ → x ∈ dom σ →
  (∃ st, Objects.get (E := exn) x σ = Ret (mkStatusOr st None) ∧ Status_ok st = false) ∨
  (∃ st v, Objects.get (E := exn) x σ = Ret (mkStatusOr st (Some v)) ∧ Status_ok st = true).
Proof.
  intros Hwf [s Hs]%elem_of_dom. unfold Objects.get. rewrite Hs.
  destruct (StatusOr_wf_cases s (Hwf _ _ Hs)) as [(st & -> & ? & _)|(st & v & -> & ? & _)]; eauto.
Qed.

(** Runs the statements of an operation on what its variables hold. *)
Ltac unfold_statements :=
  unfold throwing_new_status, throwing_new_value, throwing_new_move, throwing_new_copy,
    throwing_destroy, throwing_assign_move, throwing_assign_copy, throwing_assign_value,
    throwing_value_rvalue, move_construct, move_assign, copy_construct, copy_assign,
    construct_at, assign_to, destroy_value, copy_status, move_status, reset_status,
    leave_in, star, is_ok, ok, with_value, status_moved, set_status.
Ltac run_statements :=
  unfold_statements;
  run_vars ltac:(idtac; first
    [ match goal with H : Status_ok ?st = _ |- context [Status_ok ?st] => rewrite H end
    | rewrite Status_ok_moved ]).
Ltac on_var σ x :=
  destruct (get_cases σ x) as [(?stx & ?Hx & ?Hokx)|(?stx & ?vx & ?Hx & ?Hokx)]; [done|done|..].
Ltac on_vars σ x y :=
  on_var σ x;
  (destruct (decide (x = y)) as [<-|?Hne];
   [|destruct (get_cases σ y) as [(?sty & ?Hy & ?Hoky)|(?sty & ?vy & ?Hy & ?Hoky)]; [done|done|..]]).

(** *** Without hazards the operations are those of [StatusOr.v] *)
Lemma assign_copy_without_hazards σ x y :
  all_wf σ → x ∈ dom σ → y ∈ dom σ →
  collapse (throwing_assign_copy no_hazards x y σ) = assign_copy x y σ.
Proof.
  intros Hwf Hxd Hyd. unfold assign_copy. on_vars σ x y; run_statements; same_vars.
Qed.
Lemma assign_move_without_hazards σ x y :
  all_wf σ → x ∈ dom σ → y ∈ dom σ →
  collapse (throwing_assign_move mv mvs no_hazards x y σ) = assign_move mv mvs x y σ.
Proof.
  intros Hwf Hxd Hyd. unfold assign_move. on_vars σ x y; run_statements; same_vars.
Qed.
Lemma assign_value_without_hazards σ x v :
  all_wf σ → x ∈ dom σ → collapse (throwing_assign_value no_hazards x v σ) = assign_value x v σ.
Proof.
  intros Hwf Hxd. unfold assign_value. on_var σ x; run_statements; same_vars.
Qed.
Ltac throws := by unfold ThrowInvalidArgument, ThrowStatus, ThrowException; destruct have_exceptions.
Lemma assign_status_without_hazards σ x st :
  all_wf σ → x ∈ dom σ →
  collapse (throwing_assign_status mv mvs no_hazards x st σ) = assign_status mv mvs x st σ.
Proof.
  intros Hwf Hxd. unfold throwing_assign_status, assign_status, new_status, assign_move, destroy_var.
  pose proof (fresh_var σ) as Htmp. pose proof (other_var _ _ _ Hxd Htmp) as Hne.
  revert Htmp Hne. generalize (fresh (dom σ)) as tmp. intros tmp Htmp Hne. unfold assign_through.
  on_var σ x; destruct (Status_ok st) eqn:Hst; run_statements; try throws; same_vars.
Qed.
Lemma new_move_without_hazards σ x y :
  all_wf σ → σ !! x = None → y ∈ dom σ →
  collapse (throwing_new_move mv mvs no_hazards x y σ) = new_move mv mvs x y σ.
Proof.
  intros Hwf Hx Hyd. unfold new_move. assert (y ≠ x) by (intros ->; by apply not_elem_of_dom in Hx).
  on_var σ y; run_statements; same_vars.
Qed.
Lemma new_copy_without_hazards σ x y :
  all_wf σ → σ !! x = None → y ∈ dom σ →
  collapse (throwing_new_copy no_hazards x y σ) = new_copy x y σ.
Proof. intros Hwf Hx Hyd. unfold new_copy. on_var σ y; run_statements; same_vars. Qed.
Lemma destroy_without_hazards σ x :
  all_wf σ → x ∈ dom σ → collapse (throwing_destroy x σ) = destroy_var x σ.
Proof.
  intros Hwf Hxd. unfold destroy_var. on_var σ x; run_statements; same_vars.
Qed.

(** *** Safety *)

(** What an exception leaves of variable [z] when it ends [o] in the variables [σ]: an error
    is as it was and a value is still a value, with two exceptions.  [value() &&] moves from
    the error that it throws.  The copy assignment of [y] to [z] copies the status last and
    the code before the message: when the message cannot be copied, [z] holds a value exactly
    when [y] does and has the code of [y] with its own old message. *)
Definition kept h (o : op (T := T)) σ (z : nat) s s' : Prop :=
  match value_ s with
  | None => s' = s
  | Some _ => code_ (status_ s') = code_ (status_ s) ∧ is_Some (value_ s')
  end ∨
  (o = ValueRvalue z ∧ value_ s = None ∧ s' = status_moved mvs s) ∨
  (∃ y rhs, o = AssignCopy z y ∧ σ !! y = Some rhs ∧
    is_Some (copy_status_throws h (status_ rhs)) ∧
    status_ s' = mkStatus (code_ (status_ rhs)) (message_ (status_ s)) ∧
    (is_Some (value_ s') ↔ is_Some (value_ rhs))).
Lemma kept_refl h o σ z s : kept h o σ z s s.
Proof. left. destruct (value_ s); eauto. Qed.

Lemma kept_copy h σ z y rhs s s' :
  Objects.get (E := exn) y σ = Ret rhs → is_Some (copy_status_throws h (status_ rhs)) →
  status_ s' = mkStatus (code_ (status_ rhs)) (message_ (status_ s)) →
  (is_Some (value_ s') ↔ is_Some (value_ rhs)) → kept h (AssignCopy z y) σ z s s'.
Proof. intros Hy%get_lookup. right. right. eauto 10. Qed.

Definition safe_op h (o : op (T := T)) σ : Prop :=
  leaves (λ _ σ', all_wf σ') (λ _ σ', all_wf σ' ∧ all_kept (kept h o σ) σ σ')
    (throwing_op mv mvs h o σ).

Ltac hazard :=
  repeat match goal with
  | |- context [construct_throws ?h ?v] => destruct (construct_throws h v); simpl
  | |- context [assign_throws ?h ?u ?v] => destruct (assign_throws h u v); simpl
  | |- context [copy_status_throws ?h ?st] => destruct (copy_status_throws h st) eqn:?; simpl
  | _ => progress run_statements
  end.
Ltac is_kept :=
  first [left; simpl; by eauto
        |right; left; by split_and!
        |eapply kept_copy; simpl; [eassumption|eauto|done|by split; intros []; eauto]].
Ltac safe :=
  merge_sets;
  lazymatch goal with |- _ ∧ _ => split | _ => idtac end;
  repeat (first [apply all_wf_set|apply all_wf_remove]); try done;
  try (first [apply wf_error|apply wf_value]; by rewrite ?Status_ok_moved);
  repeat (eapply all_kept_set; [eassumption|is_kept|]); try (apply all_kept_refl; intros; apply kept_refl).

Lemma AssignMove_safe h x y σ :
  all_wf σ → x ∈ dom σ → y ∈ dom σ → safe_op h (AssignMove x y) σ.
Proof.
  intros Hwf Hxd Hyd. unfold safe_op, throwing_op. on_vars σ x y; run_statements; hazard; safe.
Qed.
Lemma AssignCopy_safe h x y σ :
  all_wf σ → x ∈ dom σ → y ∈ dom σ → safe_op h (AssignCopy x y) σ.
Proof.
  intros Hwf Hxd Hyd. unfold safe_op, throwing_op.
  on_vars σ x y; run_statements; hazard; safe.
Qed.
Lemma AssignValue_safe h x v σ : all_wf σ → x ∈ dom σ → safe_op h (AssignValue x v) σ.
Proof.
  intros Hwf Hxd. unfold safe_op, throwing_op. on_var σ x; run_statements; hazard; safe.
Qed.
(** An operation that throws its own exception. *)
Ltac throws_safe :=
  unfold ThrowInvalidArgument, ThrowStatus, ThrowException; destruct have_exceptions; simpl;
  [safe|done].

Lemma AssignStatus_safe h x st σ : all_wf σ → x ∈ dom σ → safe_op h (AssignStatus x st) σ.
Proof.
  intros Hwf Hxd. unfold safe_op. simpl.
  apply (leaves_bind (λ _ σ', all_wf σ')); [|by intros]. unfold throwing_assign_status.
  pose proof (fresh_var σ) as Htmp. pose proof (other_var _ _ _ Hxd Htmp) as Hne.
  revert Htmp Hne. generalize (fresh (dom σ)) as tmp. intros tmp Htmp Hne. unfold assign_through.
  on_var σ x; destruct (Status_ok st) eqn:Hst; run_statements; try throws_safe; safe.
Qed.
Lemma new_safe h o x σ : all_wf σ → σ !! x = None →
  (∃ st, o = NewStatus x st) ∨ (o = NewDefault x) ∨ (∃ v, o = NewValue x v) → safe_op h o σ.
Proof.
  intros Hwf Hx [[st ->]|[->|[v ->]]]; unfold safe_op, throwing_op.
  - destruct (Status_ok st) eqn:Hst; run_statements; [throws_safe|safe].
  - run_statements. safe.
  - run_statements; hazard; safe.
Qed.
Lemma NewMove_safe h x y σ : all_wf σ → σ !! x = None → y ∈ dom σ → safe_op h (NewMove x y) σ.
Proof.
  intros Hwf Hx Hyd. assert (y ≠ x) by (intros ->; by apply not_elem_of_dom in Hx).
  unfold safe_op, throwing_op. on_var σ y; run_statements; hazard; safe.
Qed.
Lemma NewCopy_safe h x y σ : all_wf σ → σ !! x = None → y ∈ dom σ → safe_op h (NewCopy x y) σ.
Proof.
  intros Hwf Hx Hyd. unfold safe_op, throwing_op. on_var σ y; run_statements; hazard; safe.
Qed.
Lemma ValueRvalue_safe h x σ : all_wf σ → x ∈ dom σ → safe_op h (ValueRvalue x) σ.
Proof.
  intros Hwf Hxd. unfold safe_op, throwing_op. on_var σ x; run_statements; hazard; try throws_safe; safe.
Qed.
Lemma Destroy_safe h x σ : all_wf σ → x ∈ dom σ → safe_op h (Destroy x) σ.
Proof.
  intros Hwf Hxd. unfold safe_op, throwing_op. on_var σ x; run_statements; safe.
Qed.
Lemma access_safe h o x σ : all_wf σ → x ∈ dom σ →
  o = IsOk x ∨ o = Value x ∨ o = StatusOf x → safe_op h o σ.
Proof.
  intros Hwf Hxd [->|[->| ->]]; unfold safe_op, throwing_op, value, CheckHasValue, deref;
    on_var σ x; run_statements; try throws_safe; safe.
Qed.
Lemma Deref_safe h x σ : all_wf σ → scoped (Deref x) σ = true → safe_op h (Deref x) σ.
Proof.
  simpl. intros Hwf Hs. destruct (σ !! x) as [s|] eqn:Hx; [|done].
  destruct (StatusOr_wf_cases s (Hwf _ _ Hx)) as [(st & -> & Hst & _)|(st & v & -> & Hst & _)].
  - unfold ok in Hs. simpl in Hs. congruence.
  - apply lookup_get in Hx. unfold safe_op, throwing_op, deref. run_statements. safe.
Qed.
Lemma compare_safe h o eqT x y σ : all_wf σ → x ∈ dom σ → y ∈ dom σ →
  o = Equal eqT x y ∨ o = NotEqual eqT x y → safe_op h o σ.
Proof.
  intros Hwf Hxd Hyd [-> | ->]; unfold safe_op, throwing_op, status_or_ne, status_or_eq, deref;
    on_vars σ x y; run_statements; safe.
Qed.

Lemma op_safe h o σ :
  all_wf σ → scoped o σ = true → safe_op h o σ.
Proof.
  intros Hwf Hs. destruct o;
    try (apply bool_decide_eq_true in Hs);
    repeat match goal with H : _ ∧ _ |- _ => destruct H | H : _ ∉ dom _ |- _ => apply not_elem_of_dom in H end;
    eauto 10 using AssignMove_safe, AssignCopy_safe, AssignValue_safe, AssignStatus_safe, new_safe,
      NewMove_safe, NewCopy_safe, ValueRvalue_safe, Destroy_safe, access_safe, Deref_safe, compare_safe.
Qed.
End lemmas.

(** ** Properties *)

Section properties.
Context `{Build} {T : Type} (mv : T → T) (mvs : string → string).

End properties.

(** A [T] whose copies of odd numbers throw, and a [std::string] without memory. *)
Definition odd_throws : hazards nat :=
  mkHazards (λ v, if Nat.odd v then Some (application_error "copy") else None)
    (λ _ v, if Nat.odd v then Some (application_error "copy") else None) (λ v, v) (λ u _, S u)
    (λ _, None).
Definition no_memory : hazards nat :=
  mkHazards (λ _, None) (λ _ _, None) (λ v, v) (λ u _, u)
    (λ st, if Status_ok st then None else Some (application_error "bad_alloc")).

Definition throwing_example : list (hazards nat * op) :=
  [(no_hazards, NewValue 0 7); (no_hazards, NewStatus 1 (mkStatus kNotFound "gone"));
   (odd_throws, AssignCopy 1 0); (no_hazards, NewValue 2 4); (odd_throws, AssignMove 2 0);
   (odd_throws, NewCopy 3 0); (no_hazards, Destroy 0)].

(** When there is no memory for the message, the assignment of an error to a value throws
    after it has destroyed the value.  The code is copied before the message, so the variable
    is an error by then; its message is that of the status before. *)
Lemma failed_status_copy : ∃ σ e,
  throwing_run (H := example_build) (λ v, v) (λ s, s)
    [(no_hazards, NewValue 0 5); (no_hazards, NewStatus 1 (mkStatus kNotFound "gone"));
     (no_memory, AssignCopy 0 1)] ∅ = Some (σ, [Ret RVoid; Ret RVoid; Throw e]) ∧
  σ !! 0 = Some (mkStatusOr (mkStatus kNotFound "") None).
Proof. eexists _, _. by vm_compute. Qed.
