(* ===== verification/Optional.v ===== *)
(** * [optional<T>] (optional.h)

    The constructors, assignments and accessors with the lifetime of the [T] in the
    aligned storage, the specification they refine (Rocq's [option]), and the
    comparison operators. *)

From S2P Require Import Prelude Status Throw.
Import Slot.

Set Default Proof Using "Type".

(** The data members. *)
Record optional (T : Type) := mkOptional { buffer_ : slot T; has_value_ : bool }.
Arguments mkOptional {T} _ _.
Arguments buffer_ {T} _.
Arguments has_value_ {T} _.

Section optional.
Context `{Build} {T : Type} (mv : T → T).
Implicit Types (s : optional T) (σ : Objects.vars (optional T)).

Definition set_has_value (b : bool) s : optional T := mkOptional (buffer_ s) b.
Definition with_buffer (s : optional T) (m : cxx (slot T)) : cxx (optional T) :=
  b ← m; Ret (mkOptional b (has_value_ s)).

(** ** Construction, [reset], [emplace] *)

Definition optional_new (x : nat) σ : cxx (Objects.vars (optional T)) :=
  Objects.new x (mkOptional empty false) σ.

Definition optional_copy (x y : nat) σ : cxx (Objects.vars (optional T)) :=
  rhs ← Objects.get y σ;
  if has_value_ rhs then
    v ← read (buffer_ rhs); b ← construct v empty; Objects.new x (mkOptional b true) σ
  else Objects.new x (mkOptional empty false) σ.

(** [optional(optional&& rhs)]: [rhs] keeps a moved-from value. *)
Definition optional_move (x y : nat) σ : cxx (Objects.vars (optional T)) :=
  rhs ← Objects.get y σ;
  if has_value_ rhs then
    v ← read (buffer_ rhs);
    b ← construct v empty;
    rhs' ← with_buffer rhs (assign (mv v) (buffer_ rhs));
    Objects.new x (mkOptional b true) (Objects.set y rhs' σ)
  else Objects.new x (mkOptional empty false) σ.

(** [optional(U&& x)]. *)
Definition optional_of (x : nat) (v : T) σ : cxx (Objects.vars (optional T)) :=
  b ← construct v empty; Objects.new x (mkOptional b true) σ.

Definition make_optional (x : nat) (t : T) σ : cxx (Objects.vars (optional T)) :=
  optional_of x t σ.

Definition reset s : cxx (optional T) :=
  if has_value_ s then s' ← with_buffer s (destroy (buffer_ s)); Ret (set_has_value false s')
  else Ret s.

Definition emplace (value : T) s : cxx (optional T) :=
  s1 ← reset s;
  s2 ← with_buffer s1 (construct value (buffer_ s1));
  Ret (set_has_value true s2).

Definition optional_destroy (x : nat) σ : cxx (Objects.vars (optional T)) :=
  this ← Objects.get x σ; _ ← reset this; Ret (Objects.remove x σ).

(** ** Assignment *)

(** [operator=(optional const& rhs)]. *)
Definition assign_copy (x y : nat) σ : cxx (Objects.vars (optional T)) :=
  this ← Objects.get x σ;
  rhs ← Objects.get y σ;
  if negb (has_value_ this) then
    if negb (has_value_ rhs) then Ret σ
    else
      v ← read (buffer_ rhs);
      this' ← with_buffer this (construct v (buffer_ this));
      Ret (Objects.set x (set_has_value true this') σ)
  else if negb (has_value_ rhs) then this' ← reset this; Ret (Objects.set x this' σ)
  else
    v ← read (buffer_ rhs);
    this' ← with_buffer this (assign v (buffer_ this));
    Ret (Objects.set x (set_has_value true this') σ).

(** [operator=(optional&& rhs)]. *)
Definition assign_move (x y : nat) σ : cxx (Objects.vars (optional T)) :=
  this ← Objects.get x σ;
  rhs ← Objects.get y σ;
  if negb (has_value_ this) then
    if negb (has_value_ rhs) then Ret σ
    else
      v ← read (buffer_ rhs);
      this' ← with_buffer this (construct v (buffer_ this));
      rhs' ← with_buffer rhs (assign (mv v) (buffer_ rhs));
      Ret (Objects.set y rhs' (Objects.set x (set_has_value true this') σ))
  else if negb (has_value_ rhs) then this' ← reset this; Ret (Objects.set x this' σ)
  else
    v ← read (buffer_ rhs);
    this' ← with_buffer this (assign v (buffer_ this));
    let σ1 := Objects.set x (set_has_value true this') σ in
    rhs1 ← Objects.get y σ1;
    rhs' ← with_buffer rhs1 (assign (mv v) (buffer_ rhs1));
    Ret (Objects.set y rhs' σ1).

(** [operator=(U&& rhs)]. *)
Definition assign_value (x : nat) (rhs : T) σ : cxx (Objects.vars (optional T)) :=
  this ← Objects.get x σ;
  this' ← (if negb (has_value_ this)
           then with_buffer this (construct rhs (buffer_ this))
           else with_buffer this (assign rhs (buffer_ this)));
  Ret (Objects.set x (set_has_value true this') σ).

(** ** Access *)

(** [operator*], [operator->]: not checked. *)
Definition deref s : cxx T := read (buffer_ s).
Definition check_access s : cxx () :=
  if has_value_ s then Ret () else ThrowLogicError "access unset optional".
Definition value s : cxx T := _ ← check_access s; deref s.
Definition value_or (default_value : T) s : cxx T :=
  if has_value_ s then deref s else Ret default_value.
Definition has_value s : bool := has_value_ s.

(** [value() &&] when the caller moves from the reference. *)
Definition value_rvalue (x : nat) σ : cxx (Objects.vars (optional T) * T) :=
  this ← Objects.get x σ;
  v ← value this;
  this' ← with_buffer this (assign (mv v) (buffer_ this));
  Ret (Objects.set x this' σ, v).

(** [value_or() &&]: the value is moved out. *)
Definition value_or_rvalue (x : nat) (default_value : T) σ :
    cxx (Objects.vars (optional T) * T) :=
  this ← Objects.get x σ;
  if has_value_ this then
    v ← deref this;
    this' ← with_buffer this (assign (mv v) (buffer_ this));
    Ret (Objects.set x this' σ, v)
  else Ret (σ, default_value).

(** ** Comparison

    The operators of [T] are arguments. *)
Context (eqT ltT : T → T → bool).

Definition optional_eq (lhs rhs : optional T) : cxx bool :=
  if negb (Bool.eqb (has_value lhs) (has_value rhs)) then Ret false
  else if negb (has_value lhs) then Ret true
  else a ← deref lhs; b ← deref rhs; Ret (eqT a b).
Definition optional_lt (lhs rhs : optional T) : cxx bool :=
  if has_value lhs then
    if negb (has_value rhs) then Ret false
    else a ← deref lhs; b ← deref rhs; Ret (ltT a b)
  else Ret (has_value rhs).
(** [std::rel_ops]. *)
Definition optional_ne (lhs rhs : optional T) : cxx bool :=
  b ← optional_eq lhs rhs; Ret (negb b).
Definition optional_gt (lhs rhs : optional T) : cxx bool := optional_lt rhs lhs.
Definition optional_ge (lhs rhs : optional T) : cxx bool :=
  b ← optional_lt lhs rhs; Ret (negb b).
Definition optional_le (lhs rhs : optional T) : cxx bool :=
  b ← optional_lt rhs lhs; Ret (negb b).

(** ** Programs *)
Inductive op :=
| New (x : nat)
| NewCopy (x y : nat)
| NewMove (x y : nat)
| NewOf (x : nat) (v : T)
| Destroy (x : nat)
| Reset (x : nat)
| Emplace (x : nat) (v : T)
| AssignCopy (x y : nat)
| AssignMove (x y : nat)
| AssignValue (x : nat) (v : T)
| HasValue (x : nat)
| Deref (x : nat)
| Value (x : nat)
| ValueOr (x : nat) (d : T)
| ValueOrRvalue (x : nat) (d : T)
| ValueRvalue (x : nat)
| Equal (x y : nat)
| Less (x y : nat).

Inductive result := RVoid | RBool (b : bool) | RValue (v : T).

(** The program catches the exception of an operation and goes on. *)
Definition caught {V A} (vs : V) (m : cxx A) (f : A → V * result) : cxx (V * cxx result) :=
  match m with
  | Ret a => Ret ((f a).1, Ret (f a).2)
  | Throw e => Ret (vs, Throw e)
  | Terminated s => Ret (vs, Terminated s)
  | Undefined u => Undefined u
  end.
Definition stores {V} (vs : V) (m : cxx V) : cxx (V * cxx result) :=
  caught vs m (λ vs', (vs', RVoid)).

Definition run_op (o : op) σ : cxx (Objects.vars (optional T) * cxx result) :=
  match o with
  | New x => stores σ (optional_new x σ)
  | NewCopy x y => stores σ (optional_copy x y σ)
  | NewMove x y => stores σ (optional_move x y σ)
  | NewOf x v => stores σ (make_optional x v σ)
  | Destroy x => stores σ (optional_destroy x σ)
  | Reset x => stores σ (s ← Objects.get x σ; s' ← reset s; Ret (Objects.set x s' σ))
  | Emplace x v => stores σ (s ← Objects.get x σ; s' ← emplace v s; Ret (Objects.set x s' σ))
  | AssignCopy x y => stores σ (assign_copy x y σ)
  | AssignMove x y => stores σ (assign_move x y σ)
  | AssignValue x v => stores σ (assign_value x v σ)
  | HasValue x => caught σ (Objects.get x σ) (λ s, (σ, RBool (has_value s)))
  | Deref x => caught σ (s ← Objects.get x σ; deref s) (λ v, (σ, RValue v))
  | Value x => caught σ (s ← Objects.get x σ; value s) (λ v, (σ, RValue v))
  | ValueOr x d => caught σ (s ← Objects.get x σ; value_or d s) (λ v, (σ, RValue v))
  | ValueOrRvalue x d => caught σ (value_or_rvalue x d σ) (λ p, (p.1, RValue p.2))
  | ValueRvalue x => caught σ (value_rvalue x σ) (λ p, (p.1, RValue p.2))
  | Equal x y => caught σ (a ← Objects.get x σ; b ← Objects.get y σ; optional_eq a b)
      (λ b, (σ, RBool b))
  | Less x y => caught σ (a ← Objects.get x σ; b ← Objects.get y σ; optional_lt a b)
      (λ b, (σ, RBool b))
  end.

Fixpoint run_ops (os : list op) σ : cxx (Objects.vars (optional T) * list (cxx result)) :=
  match os with
  | [] => Ret (σ, [])
  | o :: os' =>
      '(σ1, r) ← run_op o σ;
      '(σ2, rs) ← run_ops os' σ1;
      Ret (σ2, r :: rs)
  end.

(** ** The specification: variables of type [option T] *)
Abbreviation spec_vars := (Objects.vars (option T)).
Implicit Types (τ : spec_vars).

Definition unset {A} : cxx A := ThrowLogicError "access unset optional".
Definition spec_eq (a b : option T) : bool :=
  match a, b with Some v, Some w => eqT v w | None, None => true | _, _ => false end.
Definition spec_lt (a b : option T) : bool :=
  match a, b with Some v, Some w => ltT v w | None, Some _ => true | _, _ => false end.

Definition spec_op (o : op) τ : cxx (spec_vars * cxx result) :=
  match o with
  | New x => stores τ (Objects.new x None τ)
  | NewCopy x y => stores τ (a ← Objects.get y τ; Objects.new x a τ)
  | NewMove x y => stores τ
      (a ← Objects.get y τ; Objects.new x a (Objects.set y (option_map mv a) τ))
  | NewOf x v => stores τ (Objects.new x (Some v) τ)
  | Destroy x => stores τ (_ ← Objects.get x τ; Ret (Objects.remove x τ))
  | Reset x => stores τ (_ ← Objects.get x τ; Ret (Objects.set x None τ))
  | Emplace x v | AssignValue x v => stores τ
      (_ ← Objects.get x τ; Ret (Objects.set x (Some v) τ))
  | AssignCopy x y => stores τ
      (_ ← Objects.get x τ; a ← Objects.get y τ; Ret (Objects.set x a τ))
  | AssignMove x y => stores τ
      (_ ← Objects.get x τ; a ← Objects.get y τ;
       Ret (Objects.set y (option_map mv a) (Objects.set x a τ)))
  | HasValue x => caught τ (Objects.get x τ) (λ a, (τ, RBool (bool_decide (is_Some a))))
  | Deref x => caught τ
      (a ← Objects.get x τ;
       match a with Some v => Ret v | None => Undefined UninitializedRead end)
      (λ v, (τ, RValue v))
  | Value x => caught τ
      (a ← Objects.get x τ; match a with Some v => Ret v | None => unset end)
      (λ v, (τ, RValue v))
  | ValueOr x d => caught τ (Objects.get x τ) (λ a, (τ, RValue (default d a)))
  | ValueOrRvalue x d => caught τ (Objects.get x τ)
      (λ a, (Objects.set x (option_map mv a) τ, RValue (default d a)))
  | ValueRvalue x => caught τ
      (a ← Objects.get x τ; match a with Some v => Ret v | None => unset end)
      (λ v, (Objects.set x (Some (mv v)) τ, RValue v))
  | Equal x y => caught τ (a ← Objects.get x τ; b ← Objects.get y τ; Ret (spec_eq a b))
      (λ b, (τ, RBool b))
  | Less x y => caught τ (a ← Objects.get x τ; b ← Objects.get y τ; Ret (spec_lt a b))
      (λ b, (τ, RBool b))
  end.

Fixpoint spec_ops (os : list op) τ : cxx (spec_vars * list (cxx result)) :=
  match os with
  | [] => Ret (τ, [])
  | o :: os' =>
      '(τ1, r) ← spec_op o τ;
      '(τ2, rs) ← spec_ops os' τ1;
      Ret (τ2, r :: rs)
  end.

(** ** The refinement relation *)
Definition optional_wf s : Prop := has_value_ s = true ↔ is_Some (buffer_ s).
Definition refines {R} (m : cxx (Objects.vars (optional T) * R)) (m' : cxx (spec_vars * R)) :
    Prop :=
  match m, m' with
  | Ret (σ, r), Ret (τ, r') => map_Forall (λ _, optional_wf) σ ∧ buffer_ <$> σ = τ ∧ r = r'
  | Undefined f, Undefined f' => f = f'
  | _, _ => False
  end.
End optional.

(** ** Lemmas *)
Section lemmas.
Context `{Build} {T : Type} (mv : T → T) (eqT ltT : T → T → bool).
Implicit Types (s : optional T) (σ : Objects.vars (optional T)).

Lemma optional_wf_cases s :
  optional_wf s → s = mkOptional None false ∨ ∃ v, s = mkOptional (Some v) true.
Proof.
  destruct s as [[v|] []]; unfold optional_wf; simpl; intros Hwf; eauto.
  - assert (false = true) by (apply Hwf; eauto). done.
  - by destruct (proj1 Hwf eq_refl).
Qed.

Lemma wf_none : optional_wf (mkOptional (@None T) false).
Proof. split; [done|by intros []]. Qed.
Lemma wf_some (v : T) : optional_wf (mkOptional (Some v) true).
Proof. split; eauto. Qed.

Abbreviation all_wf σ := (map_Forall (λ _, optional_wf) σ).

Lemma opt_lookup_cases σ x :
  all_wf σ →
  (σ !! x = None ∧ (buffer_ <$> σ) !! x = None) ∨
  (σ !! x = Some (mkOptional None false) ∧ (buffer_ <$> σ) !! x = Some None) ∨
  (∃ v, σ !! x = Some (mkOptional (Some v) true) ∧ (buffer_ <$> σ) !! x = Some (Some v)).
Proof.
  intros Hwf. rewrite !lookup_fmap. destruct (σ !! x) as [s|] eqn:Hx; [right|by left].
  destruct (optional_wf_cases s (Hwf _ _ Hx)) as [Hs|[v Hs]]; rewrite Hs; simpl;
    [left; done|right; exists v; done].
Qed.

Lemma opt_all_wf_set σ x s : all_wf σ → optional_wf s → all_wf (Objects.set x s σ).
Proof. intros. by apply map_Forall_insert_2. Qed.

Lemma opt_all_wf_remove σ x : all_wf σ → all_wf (Objects.remove x σ).
Proof. intros. by apply map_Forall_delete. Qed.

Lemma opt_repr_set σ x s : buffer_ <$> Objects.set x s σ = Objects.set x (buffer_ s) (buffer_ <$> σ).
Proof. apply fmap_insert. Qed.

Lemma opt_repr_remove σ x : buffer_ <$> Objects.remove x σ = Objects.remove x (buffer_ <$> σ).
Proof. apply fmap_delete. Qed.

Definition refines_vars (m : cxx (Objects.vars (optional T)))
    (m' : cxx (Objects.vars (option T))) : Prop :=
  match m, m' with
  | Ret σ, Ret τ => all_wf σ ∧ buffer_ <$> σ = τ
  | Undefined f, Undefined f' => f = f'
  | _, _ => False
  end.

Lemma opt_refines_stores σ m m' :
  all_wf σ → refines_vars m m' → refines (stores (T := T) σ m) (stores (buffer_ <$> σ) m').
Proof. intros ? Hm. destruct m, m'; simpl in *; try done. by destruct Hm. Qed.

Lemma refines_caught {A} σ (m : cxx A) f f' :
  all_wf σ →
  (∀ a, m = Ret a → all_wf (f a).1 ∧ buffer_ <$> (f a).1 = (f' a).1 ∧ (f a).2 = (f' a).2) →
  refines (caught (T := T) σ m f) (caught (buffer_ <$> σ) m f').
Proof.
  intros ? Hf. destruct m; simpl; try done.
  destruct (Hf a eq_refl) as (? & ? & ?). split_and!; [done..|by f_equal].
Qed.

Lemma opt_new_refines σ τ x s a :
  all_wf σ → optional_wf s → buffer_ <$> σ = τ → buffer_ s = a →
  refines_vars (Objects.new x s σ) (Objects.new x a τ).
Proof.
  intros Hwf Hs <- <-. unfold Objects.new. rewrite lookup_fmap. destruct (σ !! x); simpl; [done|].
  split; [by apply opt_all_wf_set|apply (opt_repr_set σ x s)].
Qed.

(** Split on what a variable holds. *)
Ltac on_var σ x :=
  let v := fresh "v" in let Hl := fresh "Hl" in let Hr := fresh "Hr" in
  match goal with Hwf : map_Forall _ σ |- _ =>
    destruct (opt_lookup_cases σ x Hwf) as [[Hl Hr]|[[Hl Hr]|(v & Hl & Hr)]];
      unfold Objects.get; rewrite ?Hl, ?Hr; simpl; [done|..]
  end.
Ltac same_vars :=
  rewrite ?opt_repr_remove, ?opt_repr_set; unfold Objects.set, Objects.remove; simpl;
  repeat first [rewrite insert_insert_eq | rewrite insert_id by done]; reflexivity.
Ltac finish :=
  unfold set_has_value; simpl; first [apply opt_new_refines|split];
  auto 8 using opt_all_wf_set, opt_all_wf_remove, wf_none, wf_some; try same_vars.

Lemma optional_copy_refines σ x y :
  all_wf σ →
  refines_vars (optional_copy x y σ)
    (a ← Objects.get y (buffer_ <$> σ); Objects.new x a (buffer_ <$> σ)).
Proof. intros Hwf. unfold optional_copy. on_var σ y; finish. Qed.

Lemma optional_move_refines σ x y :
  all_wf σ →
  refines_vars (optional_move mv x y σ)
    (a ← Objects.get y (buffer_ <$> σ);
     Objects.new x a (Objects.set y (option_map mv a) (buffer_ <$> σ))).
Proof. intros Hwf. unfold optional_move. on_var σ y; finish. Qed.

Lemma opt_assign_copy_refines σ x y :
  all_wf σ →
  refines_vars (assign_copy x y σ)
    (_ ← Objects.get x (buffer_ <$> σ); a ← Objects.get y (buffer_ <$> σ);
     Ret (Objects.set x a (buffer_ <$> σ))).
Proof. intros Hwf. unfold assign_copy. on_var σ x; on_var σ y; finish. Qed.

Lemma insert_none σ y :
  (buffer_ <$> σ) !! y = Some None → Objects.set y None (buffer_ <$> σ) = buffer_ <$> σ.
Proof. apply insert_id. Qed.

Lemma opt_assign_move_refines σ x y :
  all_wf σ →
  refines_vars (assign_move mv x y σ)
    (_ ← Objects.get x (buffer_ <$> σ); a ← Objects.get y (buffer_ <$> σ);
     Ret (Objects.set y (option_map mv a) (Objects.set x a (buffer_ <$> σ)))).
Proof.
  intros Hwf. unfold assign_move. on_var σ x; on_var σ y; try finish.
  - by rewrite (insert_none σ x Hr), (insert_none σ y Hr0).
  - assert (y ≠ x) as Hne by (intros ->; congruence).
    rewrite opt_repr_set. unfold Objects.set. rewrite (insert_insert_ne _ y x) by done.
    by rewrite (insert_id (buffer_ <$> σ) y).
  - destruct (decide (y = x)) as [->|Hne].
    + simplify_eq. rewrite Objects.lookup_set_eq. finish.
    + rewrite Objects.lookup_set_ne, Hl0 by done. finish.
Qed.

Lemma opt_assign_value_refines σ x v :
  all_wf σ →
  refines_vars (assign_value x v σ)
    (_ ← Objects.get x (buffer_ <$> σ); Ret (Objects.set x (Some v) (buffer_ <$> σ))).
Proof. intros Hwf. unfold assign_value. on_var σ x; finish. Qed.

Lemma opt_run_op_refines o σ :
  all_wf σ → refines (run_op mv eqT ltT o σ) (spec_op mv eqT ltT o (buffer_ <$> σ)).
Proof.
  intros Hwf. destruct o; simpl; try (apply opt_refines_stores; [done|]);
    auto using optional_copy_refines, optional_move_refines, opt_assign_copy_refines,
      opt_assign_move_refines, opt_assign_value_refines.
  - apply opt_new_refines; auto using wf_none.
  - apply opt_new_refines; auto using wf_some.
  - unfold optional_destroy. on_var σ x; finish.
  - on_var σ x; finish.
  - on_var σ x; finish.
  - on_var σ x; done.
  - on_var σ x; done.
  - on_var σ x; unfold value, check_access; simpl; [|done].
    unfold unset, ThrowLogicError, ThrowException. by destruct have_exceptions.
  - on_var σ x; done.
  - unfold value_or_rvalue. on_var σ x.
    + split_and!; [done| |done]. by rewrite insert_none.
    + split_and!; [by apply opt_all_wf_set, wf_some|same_vars|done].
  - unfold value_rvalue. on_var σ x; unfold value, check_access; simpl.
    + unfold unset, ThrowLogicError, ThrowException. by destruct have_exceptions.
    + split_and!; [by apply opt_all_wf_set, wf_some|same_vars|done].
  - on_var σ x; on_var σ y; done.
  - on_var σ x; on_var σ y; done.
Qed.
End lemmas.

(** ** Properties *)
Section properties.
Context `{Build} {T : Type} (mv : T → T) (eqT ltT : T → T → bool).

(** C18: [optional<T>] implements [option T] for every program of constructions,
    copies, moves, assignments, [reset], [emplace], accesses, comparisons and
    destructions: it gives the same results and exceptions, the storage holds a value
    exactly when [has_value()], and no value is constructed twice, assigned to or
    destroyed when it is not there. *)
Theorem optional_refines (os : list op) :
  refines (run_ops mv eqT ltT os ∅) (spec_ops mv eqT ltT os ∅).
Proof.
  assert (∀ os σ, map_Forall (λ _, optional_wf) σ → refines
    (run_ops mv eqT ltT os σ) (spec_ops mv eqT ltT os (buffer_ <$> σ))) as Hgen.
  { clear os. intros os. induction os as [|o os IH]; intros σ Hwf; simpl; [by split_and!|].
    pose proof (opt_run_op_refines mv eqT ltT o σ Hwf) as Ho.
    destruct (run_op mv eqT ltT o σ) as [[σ1 r]| | |],
      (spec_op mv eqT ltT o (buffer_ <$> σ)) as [[τ1 r']| | |]; simpl in *; try done.
    destruct Ho as (Hwf1 & <- & ->). specialize (IH σ1 Hwf1).
    destruct (run_ops mv eqT ltT os σ1) as [[σ2 rs]| | |],
      (spec_ops mv eqT ltT os (buffer_ <$> σ1)) as [[τ2 rs']| | |]; simpl in *; try done.
    destruct IH as (? & ? & ->). by split_and!. }
  rewrite <- (fmap_empty (M := gmap nat) (buffer_ (T := T))). apply Hgen, map_Forall_empty.
Qed.

(** When the operators of [T] are a strict total order, those of [optional<T>]
    are one too, with the unset value first: on well-formed objects exactly one of
    [<], [==], [>] holds, [<] is transitive, and [!=], [>], [>=] and [<=] agree with
    them. *)
Theorem optional_order (a b c : optional T) :
  (∀ v w, eqT v w = bool_decide (ltT v w = false ∧ ltT w v = false)) →
  (∀ v w, ltT v w = true → ltT w v = false) →
  (∀ u v w, ltT u v = true → ltT v w = true → ltT u w = true) →
  optional_wf a → optional_wf b → optional_wf c →
  ∃ lt eq gt, optional_lt ltT a b = Ret lt ∧ optional_eq eqT a b = Ret eq ∧
    optional_gt ltT a b = Ret gt ∧ Nat.b2n lt + Nat.b2n eq + Nat.b2n gt = 1 ∧
    optional_le ltT a b = Ret (lt || eq) ∧ optional_ge ltT a b = Ret (gt || eq) ∧
    optional_ne eqT a b = Ret (lt || gt) ∧
    (lt = true → optional_lt ltT b c = Ret true → optional_lt ltT a c = Ret true) ∧
    (has_value a = false → lt = has_value b).
Proof.
  intros Heq Hasym Htr Ha Hb Hc.
  apply optional_wf_cases in Ha as [->|[u ->]], Hb as [->|[v ->]]; simpl;
    unfold optional_le, optional_ge, optional_ne, optional_gt; simpl.
  - exists false, true, false. by split_and!.
  - exists true, false, false. split_and!; try done. intros _.
    apply optional_wf_cases in Hc as [->|[w ->]]; done.
  - exists false, false, true. by split_and!.
  - unfold optional_lt, optional_eq. simpl. rewrite Heq.
    pose proof (Hasym u v) as H1. exists (ltT u v), (bool_decide (ltT u v = false ∧ ltT v u = false)),
      (ltT v u).
    apply optional_wf_cases in Hc as [->|[w ->]]; simpl;
      (split_and!; [done..| | | | | |done]).
    all: try (intros ? [= ?]; f_equal; by eapply Htr).
    all: revert H1; destruct (ltT u v), (ltT v u); try done; intros H1; by specialize (H1 eq_refl).
Qed.
End properties.

Lemma optional_order_witness :
  ∃ lt, optional_lt Nat.ltb (mkOptional None false) (mkOptional (Some 3) true) = Ret lt ∧
    lt = true.
Proof.
  destruct (optional_order Nat.eqb Nat.ltb (mkOptional None false) (mkOptional (Some 3) true)
    (mkOptional None false)) as (lt & eq & gt & Hlt & _ & _ & _ & _ & _ & _ & _ & Hb).
  - intros v w. destruct (Nat.eqb_spec v w), (Nat.ltb_spec v w), (Nat.ltb_spec w v); simpl; lia.
  - intros v w. destruct (Nat.ltb_spec v w), (Nat.ltb_spec w v); lia.
  - intros u v w. destruct (Nat.ltb_spec u v), (Nat.ltb_spec v w), (Nat.ltb_spec u w); lia.
  - apply wf_none.
  - apply wf_some.
  - apply wf_none.
  - exists lt. split; [exact Hlt|]. by apply Hb.
Defined.
