(* ===== verification/OptionalUnwinding.v ===== *)
(** * [optional<T>] when operations of [T] throw

    The operations of [Optional.v] statement by statement, with constructors and assignments
    of [T] that may throw.  The move assignment is [noexcept]: there an exception ends the
    program. *)

From S2P Require Import Prelude Status Throw Unwinding Optional.
Import Slot.

Set Default Proof Using "Type".

Section operations.
Context `{Build} {T : Type} (mv : T → T) (h : hazards T) (eqT ltT : T → T → bool).
Abbreviation vars := (Objects.vars (optional T)).

(** ** Statements *)

Definition has (x : nat) : stm vars bool := s ← var x; mret (has_value s).
Definition star (x : nat) : stm vars T := s ← var x; lift (deref s).
Definition leave_in (y : nat) (v : T) : stm vars () :=
  update y (λ s, with_buffer s (assign v (buffer_ s))).
Definition flag (x : nat) (b : bool) : stm vars () := update x (λ s, Ret (set_has_value b s)).

(** [new (&buffer_) T(v)] at [x]. *)
Definition construct_at (x : nat) (v : T) : stm vars () :=
  _ ← fails (construct_throws h v); update x (λ s, with_buffer s (construct v (buffer_ s))).
(** [**this = v]. *)
Definition assign_to (x : nat) (v : T) : stm vars () :=
  u ← star x;
  match assign_throws h u v with
  | Some e => _ ← leave_in x (torn_target h u v); fails (Some e)
  | None => leave_in x v
  end.
(** [f] uses the [T] of [y] as an rvalue. *)
Definition moving_from (y : nat) (f : T → stm vars ()) : stm vars () :=
  v ← star y;
  _ ← on_throw (f v) (leave_in y (torn_source h v));
  leave_in y (mv v).

Definition throwing_reset (x : nat) : stm vars () :=
  b ← has x;
  if b : bool then
    _ ← update x (λ s, with_buffer s (destroy (buffer_ s))); flag x false
  else mret ().
Definition throwing_emplace (x : nat) (value : T) : stm vars () :=
  _ ← throwing_reset x; _ ← construct_at x value; flag x true.

(** ** Constructors and the destructor *)
Definition throwing_copy (x y : nat) : stm vars () :=
  b ← has y;
  if b : bool then
    v ← star y; _ ← fails (construct_throws h v);
    b ← lift (construct v empty); declare x (mkOptional b true)
  else declare x (mkOptional empty false).
Definition throwing_move (x y : nat) : stm vars () :=
  b ← has y;
  if b : bool then
    v ← star y;
    _ ← moving_from y (λ v, fails (construct_throws h v));
    b ← lift (construct v empty); declare x (mkOptional b true)
  else declare x (mkOptional empty false).
Definition throwing_of (x : nat) (v : T) : stm vars () :=
  _ ← fails (construct_throws h v); b ← lift (construct v empty); declare x (mkOptional b true).
Definition throwing_destroy (x : nat) : stm vars () := _ ← throwing_reset x; forget x.

(** ** Assignments *)
Definition throwing_assign_copy (x y : nat) : stm vars () :=
  a ← has x;
  b ← has y;
  if negb a then
    if negb b then mret ()
    else v ← star y; _ ← construct_at x v; flag x true
  else if negb b then throwing_reset x
  else v ← star y; _ ← assign_to x v; flag x true.
Definition throwing_assign_move (x y : nat) : stm vars () :=
  is_noexcept (
    a ← has x;
    b ← has y;
    if negb a then
      if negb b then mret ()
      else _ ← moving_from y (construct_at x); flag x true
    else if negb b then throwing_reset x
    else _ ← moving_from y (assign_to x); flag x true).
Definition throwing_assign_value (x : nat) (rhs : T) : stm vars () :=
  a ← has x;
  _ ← (if negb a then construct_at x rhs else assign_to x rhs);
  flag x true.

(** ** Access

    [value_or] copies the value or the default; the caller of [value() &&] makes a [T] of the
    result. *)
Definition throwing_value_or (x : nat) (default_value : T) : stm vars T :=
  s ← var x;
  v ← lift (value_or default_value s);
  _ ← fails (construct_throws h v);
  mret v.
Definition throwing_value_or_rvalue (x : nat) (default_value : T) : stm vars T :=
  b ← has x;
  if b : bool then
    v ← star x;
    _ ← moving_from x (λ v, fails (construct_throws h v));
    mret v
  else _ ← fails (construct_throws h default_value); mret default_value.
Definition throwing_value_rvalue (x : nat) : stm vars T :=
  s ← var x;
  v ← lift (value s);
  _ ← moving_from x (λ v, fails (construct_throws h v));
  mret v.

Definition throwing_op (o : op (T := T)) : stm vars (result (T := T)) :=
  match o with
  | New x => _ ← declare x (mkOptional empty false); mret RVoid
  | NewCopy x y => _ ← throwing_copy x y; mret RVoid
  | NewMove x y => _ ← throwing_move x y; mret RVoid
  | NewOf x v => _ ← throwing_of x v; mret RVoid
  | Destroy x => _ ← throwing_destroy x; mret RVoid
  | Reset x => _ ← throwing_reset x; mret RVoid
  | Emplace x v => _ ← throwing_emplace x v; mret RVoid
  | AssignCopy x y => _ ← throwing_assign_copy x y; mret RVoid
  | AssignMove x y => _ ← throwing_assign_move x y; mret RVoid
  | AssignValue x v => _ ← throwing_assign_value x v; mret RVoid
  | HasValue x => b ← has x; mret (RBool b)
  | Deref x => v ← star x; mret (RValue v)
  | Value x => s ← var x; v ← lift (value s); mret (RValue v)
  | ValueOr x d => v ← throwing_value_or x d; mret (RValue v)
  | ValueOrRvalue x d => v ← throwing_value_or_rvalue x d; mret (RValue v)
  | ValueRvalue x => v ← throwing_value_rvalue x; mret (RValue v)
  | Equal x y => a ← var x; b ← var y; r ← lift (optional_eq eqT a b); mret (RBool r)
  | Less x y => a ← var x; b ← var y; r ← lift (optional_lt ltT a b); mret (RBool r)
  end.

(** ** Programs that use their variables only while they exist *)
Definition scoped (o : op (T := T)) (σ : vars) : bool :=
  match o with
  | New x | NewOf x _ => bool_decide (x ∉ dom σ)
  | NewMove x y | NewCopy x y => bool_decide (x ∉ dom σ ∧ y ∈ dom σ)
  | Destroy x | Reset x | Emplace x _ | AssignValue x _ | HasValue x | Value x | ValueOr x _
  | ValueOrRvalue x _ | ValueRvalue x => bool_decide (x ∈ dom σ)
  | AssignMove x y | AssignCopy x y | Equal x y | Less x y =>
      bool_decide (x ∈ dom σ ∧ y ∈ dom σ)
  | Deref x => match σ !! x with Some s => has_value s | None => false end
  end.
End operations.

(** ** Lemmas *)
Section lemmas.
Context `{Build} {T : Type} (mv : T → T) (eqT ltT : T → T → bool).
Implicit Types (σ : Objects.vars (optional T)) (h : hazards T) (s : optional T).
Abbreviation all_wf σ := (map_Forall (λ _, optional_wf) σ).

Lemma opt_get_cases σ x : all_wf σ → x ∈ dom σ →
  Objects.get (E := exn) x σ = Ret (mkOptional None false) ∨
  ∃ v, Objects.get (E := exn) x σ = Ret (mkOptional (Some v) true).
Proof.
  intros Hwf [s Hs]%elem_of_dom. unfold Objects.get. rewrite Hs.
  destruct (optional_wf_cases s (Hwf _ _ Hs)) as [->|[v ->]]; eauto.
Qed.

Ltac unfold_statements :=
  unfold throwing_emplace, throwing_copy, throwing_move, throwing_of,
    throwing_destroy, throwing_assign_copy, throwing_assign_move, throwing_assign_value,
    throwing_value_or, throwing_value_or_rvalue, throwing_value_rvalue, throwing_reset, moving_from, construct_at, assign_to, flag,
    leave_in, star, has, has_value, value, value_or, check_access, deref, with_buffer,
    set_has_value.
Ltac run_statements := unfold_statements; run_vars fail.
Ltac on_var σ x := destruct (opt_get_cases σ x) as [?Hx|(?vx & ?Hx)]; [done|done|..].
Ltac on_vars σ x y :=
  on_var σ x;
  (destruct (decide (x = y)) as [<-|?Hne]; [|destruct (opt_get_cases σ y) as [?Hy|(?vy & ?Hy)]; [done|done|..]]).

(** *** Without hazards the operations are those of [Optional.v] *)
Lemma opt_assign_copy_without_hazards σ x y :
  all_wf σ → x ∈ dom σ → y ∈ dom σ →
  collapse (throwing_assign_copy no_hazards x y σ) = assign_copy x y σ.
Proof.
  intros Hwf Hxd Hyd. unfold assign_copy, reset. on_vars σ x y; run_statements; same_vars.
Qed.
Lemma opt_assign_move_without_hazards σ x y :
  all_wf σ → x ∈ dom σ → y ∈ dom σ →
  collapse (throwing_assign_move mv no_hazards x y σ) = assign_move mv x y σ.
Proof.
  intros Hwf Hxd Hyd. unfold assign_move, reset. on_vars σ x y; run_statements; same_vars.
Qed.
Lemma opt_assign_value_without_hazards σ x v :
  all_wf σ → x ∈ dom σ → collapse (throwing_assign_value no_hazards x v σ) = assign_value x v σ.
Proof.
  intros Hwf Hxd. unfold assign_value. on_var σ x; run_statements; same_vars.
Qed.
Lemma emplace_without_hazards σ x v :
  all_wf σ → x ∈ dom σ → collapse (throwing_emplace no_hazards x v σ) =
    (s ← Objects.get x σ; s' ← emplace v s; Ret (Objects.set x s' σ)).
Proof.
  intros Hwf Hxd. unfold emplace, reset. on_var σ x; run_statements; same_vars.
Qed.
Lemma move_without_hazards σ x y :
  all_wf σ → σ !! x = None → y ∈ dom σ →
  collapse (throwing_move mv no_hazards x y σ) = optional_move mv x y σ.
Proof.
  intros Hwf Hx Hyd. unfold optional_move. pose proof (other_var _ _ _ Hyd Hx) as Hne.
  apply not_eq_sym in Hne. on_var σ y; run_statements; same_vars.
Qed.
Lemma copy_without_hazards σ x y :
  all_wf σ → σ !! x = None → y ∈ dom σ →
  collapse (throwing_copy no_hazards x y σ) = optional_copy x y σ.
Proof. intros Hwf Hx Hyd. unfold optional_copy. on_var σ y; run_statements; same_vars. Qed.
Lemma opt_destroy_without_hazards σ x :
  all_wf σ → x ∈ dom σ → collapse (throwing_destroy x σ) = optional_destroy x σ.
Proof. intros Hwf Hxd. unfold optional_destroy, reset. on_var σ x; run_statements; same_vars. Qed.

(** *** Safety *)

(** What an exception leaves of variable [z]: an empty optional stays empty and a value
    stays a value, except that [emplace] on [z] has destroyed its old value. *)
Definition kept (o : op (T := T)) (z : nat) s s' : Prop :=
  has_value s' = has_value s ∨ ∃ v, o = Emplace z v ∧ has_value s' = false.
Lemma opt_kept_refl o z s : kept o z s s.
Proof. by left. Qed.

Definition safe_op h (o : op (T := T)) σ : Prop :=
  leaves (λ _ σ', all_wf σ') (λ _ σ', all_wf σ' ∧ all_kept (kept o) σ σ')
    (throwing_op mv h eqT ltT o σ).

Ltac hazard :=
  repeat match goal with
  | |- context [construct_throws ?h ?v] => destruct (construct_throws h v); simpl
  | |- context [assign_throws ?h ?u ?v] => destruct (assign_throws h u v); simpl
  | _ => progress run_statements
  end.
Ltac safe :=
  merge_sets;
  lazymatch goal with |- _ ∧ _ => split | _ => idtac end;
  repeat (first [apply opt_all_wf_set|apply opt_all_wf_remove]); try done;
  try (first [apply wf_none|apply wf_some]);
  repeat (eapply all_kept_set; [eassumption|unfold kept; simpl; eauto|]);
  try apply all_kept_refl, opt_kept_refl.
Ltac throws_safe :=
  unfold ThrowLogicError, ThrowException; destruct have_exceptions; simpl; [safe|done].

Lemma op_safe_binary h o x y σ : all_wf σ → x ∈ dom σ → y ∈ dom σ →
  o = AssignCopy x y ∨ o = AssignMove x y ∨ o = Equal x y ∨ o = Less x y → safe_op h o σ.
Proof.
  intros Hwf Hxd Hyd Ho. unfold safe_op, throwing_op, optional_eq, optional_lt.
  destruct Ho as [->|[->|[->| ->]]]; on_vars σ x y; run_statements; hazard; safe.
Qed.
Lemma op_safe_unary h o x σ : all_wf σ → x ∈ dom σ →
  o = Destroy x ∨ o = Reset x ∨ (∃ v, o = Emplace x v) ∨ (∃ v, o = AssignValue x v) ∨
  o = HasValue x ∨ o = Value x ∨ (∃ d, o = ValueOr x d) ∨ (∃ d, o = ValueOrRvalue x d) ∨
  o = ValueRvalue x → safe_op h o σ.
Proof.
  intros Hwf Hxd Ho. unfold safe_op, throwing_op.
  destruct Ho as [->|[->|[[v ->]|[[v ->]|[->|[->|[[v ->]|[[v ->]| ->]]]]]]]]; on_var σ x;
    run_statements; hazard; try throws_safe; safe.
Qed.
Lemma opt_Deref_safe h x σ : all_wf σ → scoped (Deref x) σ = true → safe_op h (Deref x) σ.
Proof.
  simpl. intros Hwf Hs. destruct (σ !! x) as [s|] eqn:Hx; [|done].
  destruct (optional_wf_cases s (Hwf _ _ Hx)) as [->|[v ->]]; [done|].
  apply lookup_get in Hx. unfold safe_op, throwing_op. run_statements. safe.
Qed.
Lemma op_safe_new h o x σ : all_wf σ → σ !! x = None →
  o = New x ∨ (∃ v, o = NewOf x v) ∨
  (∃ y, y ∈ dom σ ∧ (o = NewCopy x y ∨ o = NewMove x y)) → safe_op h o σ.
Proof.
  intros Hwf Hx Ho. unfold safe_op, throwing_op.
  destruct Ho as [->|[[v ->]|(y & Hyd & [->| ->])]]; [run_statements; hazard; safe..| |];
    pose proof (other_var _ _ _ Hyd Hx) as Hne; apply not_eq_sym in Hne;
    on_var σ y; run_statements; hazard; safe.
Qed.

Lemma opt_op_safe h o σ : all_wf σ → scoped o σ = true → safe_op h o σ.
Proof.
  intros Hwf Hs. destruct o; try (apply bool_decide_eq_true in Hs);
    repeat match goal with H : _ ∧ _ |- _ => destruct H | H : _ ∉ dom _ |- _ => apply not_elem_of_dom in H end;
    first [by eapply op_safe_new; eauto 10|by eapply op_safe_unary; eauto 12
          |by apply (op_safe_binary h _ x y); eauto 10|by apply opt_Deref_safe].
Qed.
End lemmas.

(** Every operation of a program comes with what goes wrong in it. *)
Definition throwing_run {T} `{Build} (mv : T → T) (eqT ltT : T → T → bool) :
    list (hazards T * op) → Objects.vars (optional T) →
    option (Objects.vars (optional T) * list (cxx result)) :=
  run_program (λ x, scoped x.2) (λ x, throwing_op mv x.1 eqT ltT x.2).

(** ** Properties *)
Section properties.
Context `{Build} {T : Type} (mv : T → T) (eqT ltT : T → T → bool).

(** C19: constructors and assignments of [T] may throw in any operation of [optional<T>].  In
    every program that catches the exceptions no operation has undefined behaviour, and the
    value of a variable is alive exactly when the variable says so.  An operation that throws
    creates and destroys no variable, and leaves empty variables empty and values in place,
    except that [emplace] leaves the variable it is called on empty; the move assignment never throws, since
    an exception in it ends the program. *)
Theorem optional_exception_safe (os : list (hazards T * op)) σ rs :
  throwing_run mv eqT ltT os ∅ = Some (σ, rs) →
  Forall defined rs ∧
  (forallb goes_on rs = true → map_Forall (λ _, optional_wf) σ ∧
   ∀ h o σ' e, scoped o σ = true → throwing_op mv h eqT ltT o σ = (σ', Throw e) →
     map_Forall (λ _, optional_wf) σ' ∧ all_kept (kept o) σ σ' ∧ ∀ x y, o ≠ AssignMove x y).
Proof.
  intros Hr.
  eapply (run_program_safe _ _ (map_Forall (λ _, optional_wf)) (λ x, all_kept (kept x.2)))
    in Hr as [Hd Hg]; [|intros [h o] σ' Hwf Hs; by apply opt_op_safe|apply map_Forall_empty].
  split; [done|]. intros Hall. destruct (Hg Hall) as [Hwf Ht]. split; [done|].
  intros h o σ' e Hs Ho. destruct (Ht (h, o) σ' e Hs Ho) as [Hwf' Hk]. split_and!; [done|done|].
  intros x y ->. by eapply noexcept_never_throws.
Qed.
End properties.

Definition odd_values_throw : hazards nat :=
  mkHazards (λ v, if Nat.odd v then Some (application_error "copy") else None)
    (λ _ v, if Nat.odd v then Some (application_error "copy") else None) (λ v, v) (λ u _, S u)
    (λ _, None).
Definition throwing_example : list (hazards nat * op) :=
  [(no_hazards, NewOf 0 7); (no_hazards, New 1); (odd_values_throw, AssignCopy 1 0);
   (no_hazards, NewOf 2 4); (odd_values_throw, Emplace 2 9); (odd_values_throw, AssignMove 1 0)].
Lemma optional_exception_safe_witness : ∃ σ rs,
  throwing_run (H := example_build) (λ v, v) Nat.eqb Nat.ltb throwing_example ∅ = Some (σ, rs) ∧
  rs = [Ret RVoid; Ret RVoid; Throw (application_error "copy"); Ret RVoid;
        Throw (application_error "copy"); Terminated "std::terminate"] ∧
  σ !! 2 = Some (mkOptional None false) ∧ Forall defined rs.
Proof.
  destruct (throwing_run (H := example_build) (λ v, v) Nat.eqb Nat.ltb throwing_example ∅)
    as [[σ rs]|] eqn:Hr; [|by vm_compute in Hr].
  exists σ, rs. split; [done|].
  destruct (optional_exception_safe (H := example_build) (λ v, v) Nat.eqb Nat.ltb throwing_example σ rs)
    as [Hd _]; [exact Hr|].
  vm_compute in Hr. injection Hr as <- <-. split; [reflexivity|]. split; [reflexivity|exact Hd].
Defined.
