(* ===== verification/GrpcError.v ===== *)
(** * Statuses from gRPC errors (grpc_error_delegate.cc)

    The gRPC library is not part of the repository: the numbers of its status codes
    are a parameter. *)

From S2P Require Import Prelude Status.

Set Default Proof Using "Type".

Section grpc_error.
(** [grpc c]: the enumerator of [grpc::StatusCode] with the name of [c]. *)
Context (grpc : StatusCode → Z).

(** The cases of the [switch], in its order. *)
Definition MapStatusCode_cases : list StatusCode :=
  [kOk; kCancelled; kUnknown; kInvalidArgument; kDeadlineExceeded; kNotFound;
   kAlreadyExists; kPermissionDenied; kUnauthenticated; kResourceExhausted;
   kFailedPrecondition; kAborted; kOutOfRange; kUnimplemented; kInternal; kUnavailable;
   kDataLoss].
Definition MapStatusCode (code : Z) : StatusCode :=
  match list_find (λ c, grpc c = code) MapStatusCode_cases with
  | Some (_, c) => c
  | None => kUnknown
  end.

(** From a code and a message, and from a [grpc::Status] with them. *)
Definition MakeStatusFromRpcError (code : Z) (what : string) : Status :=
  mkStatus (MapStatusCode code) what.
Record grpc_Status := mkGrpcStatus { error_code : Z; error_message : string }.
Definition MakeStatusFromGrpcStatus (status : grpc_Status) : Status :=
  MakeStatusFromRpcError (error_code status) (error_message status).
End grpc_error.

(** From a [google::rpc::Status]: its code is any 32-bit integer. *)
Definition MakeStatusFromRpcStatus (code : Z) (message : string) : Status :=
  let c :=
    if (0 <=? code)%Z && (code <=? StatusCode_to_int kUnauthenticated)%Z
    then StatusCode_of_int code else kUnknown in
  mkStatus c message.

(** ** Lemmas *)
Section lemmas.
Context (grpc : StatusCode → Z).

Lemma MapStatusCode_cases_all c : StatusCode_wf c ∧ (∀ v, c ≠ kUnnamed v) ↔ c ∈ MapStatusCode_cases.
Proof.
  split.
  - intros [_ Hc]. apply (bool_decide_unpack _).
    destruct c as [| | | | | | | | | | | | | | | | |v]; try (vm_compute; done). by destruct (Hc v).
  - unfold MapStatusCode_cases. rewrite !elem_of_cons, elem_of_nil. intros Hc.
    destruct_or! Hc; subst; done.
Qed.

(** gRPC's documentation gives its codes the numbers that [StatusCode] copies. *)
Definition grpc_documented : Prop := ∀ c, c ∈ MapStatusCode_cases → grpc c = StatusCode_to_int c.

Lemma MapStatusCode_eq code :
  grpc_documented →
  MapStatusCode grpc code
  = if (0 <=? code)%Z && (code <=? 16)%Z then StatusCode_of_int code else kUnknown.
Proof.
  intros Hg. unfold MapStatusCode.
  destruct (list_find _ _) as [[i c]|] eqn:Hf.
  - apply list_find_Some in Hf as (Hi & <- & _). apply list_elem_of_lookup_2 in Hi.
    rewrite (Hg c Hi). pose proof Hi as [Hwf _]%MapStatusCode_cases_all.
    rewrite StatusCode_of_to_int by done.
    revert Hi. unfold MapStatusCode_cases. rewrite !elem_of_cons, elem_of_nil. intros Hc.
    destruct_or! Hc; subst; done.
  - apply list_find_None in Hf. destruct ((0 <=? code)%Z && (code <=? 16)%Z) eqn:Hc; [|done].
    exfalso. apply andb_true_iff in Hc as [H0%Z.leb_le H1%Z.leb_le].
    destruct (StatusCode_enumerated code) as (c & Hc & Hv); [lia|].
    rewrite Forall_forall in Hf.
    assert (c ∈ MapStatusCode_cases) as Hin.
    { revert Hc. unfold StatusCode_enumerators, MapStatusCode_cases.
      rewrite !elem_of_cons, !elem_of_nil. tauto. }
    apply (Hf c Hin). by rewrite (Hg c Hin).
Qed.
End lemmas.

(** ** Properties *)

(** With gRPC's documented codes, the error delegates preserve every defined code
    and the message, map every other code to [kUnknown], and the three ways to obtain a
    status, from a [grpc::Status], a code and a message, or a [google::rpc::Status],
    agree. *)
Theorem MakeStatusFromRpcError_preserves (grpc : StatusCode → Z) code what :
  grpc_documented grpc →
  MakeStatusFromRpcError grpc code what
    = mkStatus (if decide (0 ≤ code ≤ 16)%Z then StatusCode_of_int code else kUnknown) what ∧
  MakeStatusFromRpcStatus code what = MakeStatusFromRpcError grpc code what ∧
  MakeStatusFromGrpcStatus grpc (mkGrpcStatus code what) = MakeStatusFromRpcError grpc code what ∧
  (∀ c, c ∈ StatusCode_enumerators → MapStatusCode grpc (grpc c) = c).
Proof.
  intros Hg. unfold MakeStatusFromGrpcStatus, MakeStatusFromRpcError, MakeStatusFromRpcStatus. simpl.
  rewrite (MapStatusCode_eq grpc code Hg). split_and!; try done.
  - case_decide; destruct (Z.leb_spec 0 code), (Z.leb_spec code 16); simpl; try lia; done.
  - intros c Hc. assert (c ∈ MapStatusCode_cases) as Hin.
    { revert Hc. unfold StatusCode_enumerators, MapStatusCode_cases.
      rewrite !elem_of_cons, !elem_of_nil. tauto. }
    rewrite (Hg c Hin), (MapStatusCode_eq grpc _ Hg).
    apply StatusCode_enumerators_inv in Hc as [Hwf [H0 H1]].
    rewrite (proj2 (Z.leb_le _ _) H0), (proj2 (Z.leb_le _ _) H1). simpl.
    by apply StatusCode_of_to_int.
Qed.

Lemma MakeStatusFromRpcError_preserves_witness :
  MakeStatusFromRpcError StatusCode_to_int 5 "no" = mkStatus kNotFound "no".
Proof.
  destruct (MakeStatusFromRpcError_preserves StatusCode_to_int 5 "no") as [-> _].
  - intros c _. reflexivity.
  - reflexivity.
Defined.
