(* ===== verification/BigEndian.v ===== *)
(** * Big-endian encoding of integers (internal/big_endian.h)

    [T] is a signed or unsigned integer of [k] bytes; a [std::string] is the list of
    the 8-bit patterns of its characters.  The result of the decoder, a
    [StatusOr<T>], is given as an error status or a value. *)

From S2P Require Import Prelude Status.

Set Default Proof Using "Type".

Section big_endian.
Context (k : nat) (is_signed : bool).

(** The bits of [T]. *)
Definition width : Z := 8 * Z.of_nat k.
Definition representable (v : Z) : Prop :=
  if is_signed then in_signed width v else in_unsigned width v.

(** The loop of [EncodeBigEndian] over the [count] remaining elements of the array. *)
Fixpoint encode_loop (count : nat) (n shift : Z) : list Z :=
  match count with
  | 0 => []
  | S count' =>
      let shift := (shift - 8)%Z in
      wrap 8 (Z.shiftr n shift) :: encode_loop count' n shift
  end.
Definition EncodeBigEndian (value : Z) : list Z :=
  let n := wrap width value in encode_loop k n width.

(** The loop of [DecodeBigEndian]. *)
Fixpoint decode_loop (value : list Z) (shift result : Z) : Z :=
  match value with
  | [] => result
  | n :: value' =>
      let shift := (shift - 8)%Z in
      decode_loop value' shift (Z.lor result (wrap width (Z.shiftl n shift)))
  end.
Definition DecodeBigEndian (value : list Z) : Status + Z :=
  if negb (Nat.eqb (length value) k) then
    inl (mkStatus kInvalidArgument
      ("Given value with " +:+ pretty (length value) +:+ " bytes; expected " +:+ pretty k))
  else
    let result := decode_loop value width 0 in
    inr (if is_signed then sign width result else result).
End big_endian.

(** ** Lemmas *)
Section lemmas.
Local Open Scope Z_scope.

(** The number a list of bytes stands for. *)
Definition be_value (l : list Z) : Z := foldl (λ acc c, acc * 2 ^ 8 + c) 0 l.
Definition bytes (l : list Z) : Prop := Forall (in_unsigned 8) l.

Lemma be_value_snoc l c : be_value (l ++ [c]) = be_value l * 2 ^ 8 + c.
Proof. unfold be_value. by rewrite foldl_app. Qed.

Lemma foldl_be acc l :
  foldl (λ acc c, acc * 2 ^ 8 + c) acc l = acc * 2 ^ (8 * Z.of_nat (length l)) + be_value l.
Proof.
  unfold be_value. revert acc. induction l as [|c l IH]; intros acc.
  - simpl. lia.
  - simpl length. rewrite Nat2Z.inj_succ. simpl foldl. rewrite IH, (IH (0 * 2 ^ 8 + c)).
    replace (8 * Z.succ (Z.of_nat (length l))) with (8 + 8 * Z.of_nat (length l)) by lia.
    rewrite Z.pow_add_r by lia. change (2 ^ 8) with 256. ring.
Qed.

Lemma be_value_cons c l : be_value (c :: l) = c * 2 ^ (8 * Z.of_nat (length l)) + be_value l.
Proof. unfold be_value at 1. simpl. by rewrite foldl_be. Qed.

Lemma be_value_bounds l : bytes l → 0 ≤ be_value l < 2 ^ (8 * Z.of_nat (length l)).
Proof.
  induction 1 as [|c l Hc _ IH]; [unfold be_value; simpl; lia|].
  rewrite be_value_cons. simpl length. rewrite Nat2Z.inj_succ.
  replace (8 * Z.succ (Z.of_nat (length l))) with (8 + 8 * Z.of_nat (length l)) by lia.
  rewrite Z.pow_add_r by lia. unfold in_unsigned in Hc. change (2 ^ 8) with 256 in *. nia.
Qed.

Lemma land_shifted a b s : 0 ≤ s → 0 ≤ b < 2 ^ s → Z.land (a * 2 ^ s) b = 0.
Proof.
  intros Hs Hb. apply Z.bits_inj'. intros n Hn.
  rewrite Z.land_spec, Z.bits_0, <- Z.shiftl_mul_pow2, Z.shiftl_spec by done.
  destruct (decide (n < s)) as [Hlt|Hge]; [by rewrite Z.testbit_neg_r by lia|].
  assert (Z.testbit b n = false) as ->; [|by rewrite andb_false_r].
  destruct (decide (b = 0)) as [->|]; [by rewrite Z.bits_0|].
  apply Z.bits_above_log2; [lia|]. apply Z.log2_lt_pow2; [lia|].
  eapply Z.lt_le_trans; [apply Hb|]. apply Z.pow_le_mono_r; lia.
Qed.

Lemma lor_add a b s : 0 ≤ s → 0 ≤ b < 2 ^ s → Z.lor (a * 2 ^ s) b = a * 2 ^ s + b.
Proof.
  intros Hs Hb. pose proof (land_shifted a b s Hs Hb) as Hl.
  by rewrite <- Z.lxor_lor, <- Z.add_nocarry_lxor.
Qed.

Lemma encode_loop_spec count n :
  bytes (encode_loop count n (8 * Z.of_nat count)) ∧
  length (encode_loop count n (8 * Z.of_nat count)) = count ∧
  be_value (encode_loop count n (8 * Z.of_nat count)) = n `mod` 2 ^ (8 * Z.of_nat count).
Proof.
  induction count as [|count (IHb & IHl & IHv)].
  - unfold be_value. simpl. split_and!; [constructor|done|]. by rewrite Z.mod_1_r.
  - simpl encode_loop.
    replace (8 * Z.of_nat (S count) - 8) with (8 * Z.of_nat count) by lia.
    split_and!; [constructor; [by apply wrap_bounds|done]|simpl; by rewrite IHl|].
    rewrite be_value_cons, IHl, IHv. unfold wrap.
    rewrite Z.shiftr_div_pow2 by lia. set (m := 2 ^ (8 * Z.of_nat count)).
    replace (2 ^ (8 * Z.of_nat (S count))) with (m * 2 ^ 8)
      by (subst m; rewrite <- Z.pow_add_r by lia; f_equal; lia).
    assert (0 < m) by (subst m; apply Z.pow_pos_nonneg; lia).
    rewrite Z.rem_mul_r by lia. lia.
Qed.

Lemma decode_loop_spec k value a :
  bytes value → (length value ≤ k)%nat →
  decode_loop k value (8 * Z.of_nat (length value)) (a * 2 ^ (8 * Z.of_nat (length value)))
  = a * 2 ^ (8 * Z.of_nat (length value)) + be_value value.
Proof.
  intros Hb. revert a. induction Hb as [|c value Hc Hb IH]; intros a Hk.
  - unfold be_value. simpl. lia.
  - simpl decode_loop. simpl length in *.
    replace (8 * Z.of_nat (S (length value)) - 8) with (8 * Z.of_nat (length value)) by lia.
    set (s := 8 * Z.of_nat (length value)) in *.
    replace (8 * Z.of_nat (S (length value))) with (8 + s) by lia.
    assert (0 ≤ s) as Hs by (subst s; lia).
    unfold in_unsigned in Hc. assert (0 < 2 ^ s) by (by apply Z.pow_pos_nonneg).
    assert (2 ^ (8 + s) = 2 ^ 8 * 2 ^ s) as Hp by (by rewrite Z.pow_add_r).
    assert (0 ≤ c * 2 ^ s < 2 ^ (8 + s)) as Hcs by (rewrite Hp; nia).
    rewrite Z.shiftl_mul_pow2, wrap_small, lor_add by first
      [ done | lia | unfold in_unsigned, width; split; [lia|];
        apply (Z.lt_le_trans _ (2 ^ (8 + s))); [lia|apply Z.pow_le_mono_r; lia] ].
    replace (a * 2 ^ (8 + s) + c * 2 ^ s) with ((a * 2 ^ 8 + c) * 2 ^ s) by (rewrite Hp; ring).
    rewrite IH by lia. rewrite be_value_cons. fold s. rewrite Hp. ring.
Qed.

Lemma be_value_inj l1 l2 :
  bytes l1 → bytes l2 → length l1 = length l2 → be_value l1 = be_value l2 → l1 = l2.
Proof.
  intros H1. revert l2. induction H1 as [|c1 l1 Hc1 H1 IH]; intros l2 H2 Hl Hv.
  - by destruct l2.
  - destruct H2 as [|c2 l2 Hc2 H2]; [done|]. injection Hl as Hl.
    rewrite !be_value_cons, Hl in Hv.
    pose proof (be_value_bounds l1 H1) as Hb1. pose proof (be_value_bounds l2 H2) as Hb2.
    rewrite Hl in Hb1. set (m := 2 ^ (8 * Z.of_nat (length l2))) in *.
    assert (c1 = c2) as -> by nia. f_equal. apply IH; [done|done|lia].
Qed.

Lemma decode_bytes k is_signed value :
  bytes value → length value = k →
  DecodeBigEndian k is_signed value
  = inr (if is_signed then sign (width k) (be_value value) else be_value value).
Proof.
  intros Hb Hl. unfold DecodeBigEndian. rewrite Hl, Nat.eqb_refl. simpl.
  pose proof (decode_loop_spec k value 0 Hb) as Hd. rewrite Z.mul_0_l, Z.add_0_l, Hl in Hd.
  unfold width. rewrite Hd by lia. done.
Qed.

Lemma encode_be_value k v :
  bytes (EncodeBigEndian k v) ∧ length (EncodeBigEndian k v) = k ∧
  be_value (EncodeBigEndian k v) = wrap (width k) v.
Proof.
  unfold EncodeBigEndian. destruct (encode_loop_spec k (wrap (width k) v)) as (Hb & Hl & Hv).
  fold (width k) in Hb, Hl, Hv. split_and!; [done..|]. rewrite Hv.
  apply wrap_small, wrap_bounds. unfold width. lia.
Qed.

Lemma representable_wrap k is_signed v :
  (0 < k)%nat → representable k is_signed v →
  (if is_signed then sign (width k) (wrap (width k) v) else wrap (width k) v) = v.
Proof.
  unfold representable, width. intros Hk. destruct is_signed.
  - apply sign_wrap. lia.
  - apply wrap_small.
Qed.
End lemmas.

(** ** Properties *)

(** C20: for every integer type, decoding what [EncodeBigEndian] produced gives the
    value back, and encoding what [DecodeBigEndian] accepts gives the string back: the
    two are inverse, and the encoding is the base-256 expansion of the two's complement
    pattern, most significant byte first. *)
Theorem big_endian_roundtrip k is_signed v value :
  0 < k → representable k is_signed v → bytes value →
  DecodeBigEndian k is_signed (EncodeBigEndian k v) = inr v ∧
  length (EncodeBigEndian k v) = k ∧
  be_value (EncodeBigEndian k v) = wrap (width k) v ∧
  (∀ w, DecodeBigEndian k is_signed value = inr w →
     representable k is_signed w ∧ EncodeBigEndian k w = value).
Proof.
  intros Hk Hv Hb. destruct (encode_be_value k v) as (Heb & Hel & Hev). split_and!; try done.
  - rewrite decode_bytes by done. f_equal. rewrite Hev. by apply representable_wrap.
  - intros w Hd. assert (length value = k) as Hl.
    { unfold DecodeBigEndian in Hd. destruct (Nat.eqb_spec (length value) k); [done|discriminate]. }
    rewrite decode_bytes in Hd by done. injection Hd as <-.
    pose proof (be_value_bounds value Hb) as Hbv. rewrite Hl in Hbv.
    set (w := if is_signed then sign (width k) (be_value value) else be_value value).
    assert (0 < width k)%Z as Hw by (unfold width; lia).
    assert (wrap (width k) w = be_value value) as Hww.
    { subst w. destruct is_signed; [by apply wrap_sign|by apply wrap_small]. }
    split.
    + subst w. unfold representable. destruct is_signed; [by apply sign_bounds|done].
    + destruct (encode_be_value k w) as (Hb' & Hl' & Hv').
      apply be_value_inj; [done..|congruence|]. by rewrite Hv'.
Qed.

Lemma big_endian_roundtrip_witness :
  DecodeBigEndian 4 true (EncodeBigEndian 4 (-2)) = inr (-2)%Z ∧
  EncodeBigEndian 2 258 = [1%Z; 2%Z].
Proof.
  split.
  - apply (big_endian_roundtrip 4 true (-2) []); [lia|split; vm_compute; congruence|constructor].
  - vm_compute. reflexivity.
Defined.
