(* ===== verification/CompletionQueue.v ===== *)
(** * The completion queue (internal/completion_queue_impl.h, .cc, completion_queue.cc)

    [CompletionQueueImpl] with any number of threads in [Run()] and any number of
    threads that start operations, cancel and shut down.  gRPC is the environment: it
    delivers an event, with any [ok] and any results, for a tag that was handed to it,
    and reports SHUTDOWN once it has been shut down and drained.  The operations are
    given by the class [Operations]: unary RPCs and timers below, the streaming reads
    in [ReadStream.v]. *)

From S2P Require Import Prelude Status Throw GrpcError.

Set Default Proof Using "Type".

(** ** What the queue asks of an operation

    [notify o ok r c]: [AsyncGrpcOperation::Notify(ok)] when gRPC has left [r] in the
    fields of the operation; it changes the state [c] of the application, starts more
    operations, in order, and returns whether the operation is completed.  [launch]: the
    callable that hands the tag to gRPC.  [issue]: whether the application, outside of
    [Notify], may start the operation now, and what it becomes then. *)
Class Operations (Op R C : Type) := {
  notify : Op → bool → R → C → C * list Op * bool;
  launch : Op → C → C;
  cancel_op : Op → C → C;
  issue : Op → C → option C;
  no_results : R;
}.

(** ** State *)
Section queue.
Context {Op R C : Type} `{Build} `{Operations Op R C}.

(** An operation object: its identity and what it is. *)
Record operation := mkOperation { obj : nat; kind : Op }.

Inductive event :=
| Started (n : nat)          (* its tag was handed to gRPC *)
| Notified (n : nat) (ok : bool).

(** [pending_ops_] maps tags, the addresses of the operations, to them.
    [outstanding]: the tags whose event gRPC has not delivered; [cq_shutdown]: whether
    [cq_.Shutdown()] was called; [live]: the addresses in use by operations. *)
Record queue := mkQueue {
  shutdown_ : bool;
  pending_ops_ : gmap Z operation;
  outstanding : gset Z;
  cq_shutdown : bool;
  live : gset Z;
  client : C;
  log : list event;
  next_obj : nat;
}.

Definition queue_new (c : C) : queue := mkQueue false ∅ ∅ false ∅ c [] 0.

Definition set_client (c : C) (q : queue) : queue :=
  mkQueue (shutdown_ q) (pending_ops_ q) (outstanding q) (cq_shutdown q) (live q) c (log q)
    (next_obj q).
Definition emit (e : event) (q : queue) : queue :=
  mkQueue (shutdown_ q) (pending_ops_ q) (outstanding q) (cq_shutdown q) (live q) (client q)
    (log q ++ [e]) (next_obj q).
(** [std::make_shared] of an operation: a new object. *)
Definition new_operation (o : Op) (q : queue) : operation * queue :=
  (mkOperation (next_obj q) o,
   mkQueue (shutdown_ q) (pending_ops_ q) (outstanding q) (cq_shutdown q) (live q) (client q)
     (log q) (S (next_obj q))).
(** An operation is destroyed: its address may be used again. *)
Definition release (tag : Z) (q : queue) : queue :=
  mkQueue (shutdown_ q) (pending_ops_ q) (outstanding q) (cq_shutdown q) (live q ∖ {[tag]})
    (client q) (log q) (next_obj q).

(** [pending_ops_.erase]. *)
Definition unregister (tag : Z) (q : queue) : queue :=
  mkQueue (shutdown_ q) (delete tag (pending_ops_ q)) (outstanding q) (cq_shutdown q) (live q)
    (client q) (log q) (next_obj q).

(** The allocator: an address that no live object has. *)
Context (address : gset Z → Z).

(** ** [CompletionQueueImpl] *)

(** [StartOperation]: the lock is held from the test of [shutdown_] until gRPC has the
    tag.  After [Shutdown()] the lock is released and the operation is notified at once:
    the result has the operations that [Notify] starts, which the thread starts next. *)
Definition StartOperation (o : Op) (q : queue) : cxx (queue * list Op) :=
  let '(op, q1) := new_operation o q in
  let tag := address (live q1) in
  if shutdown_ q1 then
    let '(c, os, _) := notify (kind op) false no_results (client q1) in
    Ret (emit (Notified (obj op) false) (set_client c q1), os)
  else
    match pending_ops_ q1 !! tag with
    | Some _ => ThrowRuntimeError "assertion failure: insertion should succeed"
    | None =>
        Ret (emit (Started (obj op))
          (mkQueue (shutdown_ q1) (<[tag := op]> (pending_ops_ q1)) ({[tag]} ∪ outstanding q1)
             (cq_shutdown q1) ({[tag]} ∪ live q1) (launch (kind op) (client q1)) (log q1)
             (next_obj q1)), [])
    end.
(** A thread starts operations, in order and in turn those that they start.  [None]: there
    are more than [fuel]. *)
Fixpoint start_all (fuel : nat) (os : list Op) (q : queue) : option (cxx queue) :=
  match os, fuel with
  | [], _ => Some (Ret q)
  | _, 0 => None
  | o :: os, S fuel =>
      match StartOperation o q with
      | Ret (q, os') => start_all fuel (os' ++ os) q
      | Throw e => Some (Throw e)
      | Terminated s => Some (Terminated s)
      | Undefined u => Some (Undefined u)
      end
  end.

Definition FindOperation (tag : Z) (q : queue) : cxx operation :=
  match pending_ops_ q !! tag with
  | Some op => Ret op
  | None => ThrowRuntimeError "assertion failure: searching for async op tag"
  end.

Definition ForgetOperation (tag : Z) (q : queue) : cxx queue :=
  match pending_ops_ q !! tag with
  | Some _ => Ret (unregister tag q)
  | None => ThrowRuntimeError
      "assertion failure: searching for async op tag when trying to unregister"
  end.

(** The two parts of [Shutdown]. *)
Definition Shutdown_flag (q : queue) : queue :=
  mkQueue true (pending_ops_ q) (outstanding q) (cq_shutdown q) (live q) (client q) (log q)
    (next_obj q).
Definition Shutdown_cq (q : queue) : queue :=
  mkQueue (shutdown_ q) (pending_ops_ q) (outstanding q) true (live q) (client q) (log q)
    (next_obj q).

(** [CancelAll]: the operations are copied under the lock and then cancelled. *)
Definition CancelAll_copy (q : queue) : list operation := (map_to_list (pending_ops_ q)).*2.
Definition CancelAll_cancel (op : operation) (q : queue) : queue :=
  set_client (cancel_op (kind op) (client q)) q.
Definition CancelAll (q : queue) : queue :=
  foldl (λ q op, CancelAll_cancel op q) q (CancelAll_copy q).

Definition empty_queue (q : queue) : bool := bool_decide (pending_ops_ q = ∅).
Definition size_queue (q : queue) : nat := size (pending_ops_ q).

(** [SimulateCompletion(op, ok)]: the lookup, [Cancel()], [Notify(ok)] with the operations
    that it starts, and [ForgetOperation]. *)
Definition SimulateCompletion (fuel : nat) (tag : Z) (ok : bool) (r : R) (q : queue) :
    option (cxx queue) :=
  match FindOperation tag q with
  | Ret op =>
      let q := CancelAll_cancel op q in
      let '(c, os, completed) := notify (kind op) ok r (client q) in
      m ← start_all fuel os (emit (Notified (obj op) ok) (set_client c q));
      Some (q ← m; if completed : bool then ForgetOperation tag q else Ret q)
  | Throw e => Some (Throw e)
  | Terminated s => Some (Terminated s)
  | Undefined u => Some (Undefined u)
  end.

(** [SimulateCompletion(ok)], without the events it discards. *)
Definition SimulateCompletion_all (fuel : nat) (ok : bool) (r : R) (q : queue) :
    option (cxx queue) :=
  foldl (λ m tag, m ← m; match m with Ret q => SimulateCompletion fuel tag ok r q | m => Some m end)
    (Some (Ret q)) (map_to_list (pending_ops_ q)).*1.

(** ** Threads *)

(** Where a thread of the program is: in the loop of [Run()] (polling; with an event;
    with the operation found; in [Notify], with the operations still to start; after it
    returned [true]; at the end of the iteration, when its reference to the operation
    goes away), in [Shutdown()], in [CancelAll()], starting operations outside of [Run()],
    or elsewhere. *)
Inductive thread :=
| Application
| Starting (os : list Op)
| Polling
| GotEvent (tag : Z) (ok : bool) (r : R)
| FoundOperation (tag : Z) (op : operation) (ok : bool) (r : R)
| Notifying (tag : Z) (os : list Op) (completed : bool)
| Completed (tag : Z)
| EndIteration (tag : Z)
| Stopped
| ShuttingDown
| Cancelling (ops : list operation)
| Failed (m : cxx ()).

(** What the environment and the scheduler decide for a step. *)
Inductive choice :=
| Go                                   (* run on *)
| Start (o : Op)                       (* the application starts an operation *)
| CallRun | CallShutdown | CallCancelAll
| Event (tag : Z) (ok : bool) (r : R)  (* AsyncNext() returns GOT_EVENT *)
| Timeout                              (* ... TIMEOUT *)
| ShutdownEvent.                       (* ... SHUTDOWN *)

Definition after {A} (q : queue) (m : cxx A) (f : A → queue * thread) : queue * thread :=
  match m with
  | Ret a => f a
  | Throw e => (q, Failed (Throw e))
  | Terminated s => (q, Failed (Terminated s))
  | Undefined u => (q, Failed (Undefined u))
  end.

(** One step of a thread: a critical section, or a call of gRPC or the application. *)
Definition thread_step (q : queue) (t : thread) (ch : choice) : option (queue * thread) :=
  match t, ch with
  | Application, Start o =>
      c ← issue o (client q); Some (set_client c q, Starting [o])
  | Starting (o :: os), Go =>
      Some (after q (StartOperation o q) (λ r, (r.1, Starting (r.2 ++ os))))
  | Starting [], Go => Some (q, Application)
  | Application, CallRun => Some (q, Polling)
  | Application, CallShutdown => Some (Shutdown_flag q, ShuttingDown)
  | ShuttingDown, Go => Some (Shutdown_cq q, Application)
  | Application, CallCancelAll => Some (q, Cancelling (CancelAll_copy q))
  | Cancelling (op :: ops), Go => Some (CancelAll_cancel op q, Cancelling ops)
  | Cancelling [], Go => Some (q, Application)
  | Polling, Timeout => Some (q, Polling)
  | Polling, ShutdownEvent =>
      if cq_shutdown q && bool_decide (outstanding q = ∅) then Some (q, Stopped) else None
  | Polling, Event tag ok r =>
      if bool_decide (tag ∈ outstanding q) then
        Some (mkQueue (shutdown_ q) (pending_ops_ q) (outstanding q ∖ {[tag]}) (cq_shutdown q)
                (live q) (client q) (log q) (next_obj q), GotEvent tag ok r)
      else None
  | GotEvent tag ok r, Go =>
      Some (after q (FindOperation tag q) (λ op, (q, FoundOperation tag op ok r)))
  | FoundOperation tag op ok r, Go =>
      let '(c, os, completed) := notify (kind op) ok r (client q) in
      Some (emit (Notified (obj op) ok) (set_client c q), Notifying tag os completed)
  | Notifying tag (o :: os) completed, Go =>
      Some (after q (StartOperation o q) (λ r, (r.1, Notifying tag (r.2 ++ os) completed)))
  | Notifying tag [] completed, Go =>
      Some (q, if completed then Completed tag else Polling)
  | Completed tag, Go =>
      Some (after q (ForgetOperation tag q) (λ q', (q', EndIteration tag)))
  | EndIteration tag, Go => Some (release tag q, Polling)
  | _, _ => None
  end.

Definition config := (queue * list thread)%type.
Inductive step : config → config → Prop :=
| step_thread q ts i t ch q' t' :
    ts !! i = Some t → thread_step q t ch = Some (q', t') →
    step (q, ts) (q', <[i := t']> ts).

Definition initial (c : C) (n : nat) : config := (queue_new c, replicate n Application).
Definition reachable (c : C) (n : nat) (s : config) : Prop := rtc step (initial c n) s.
End queue.
Arguments operation : clear implicits.
Arguments queue : clear implicits.
Arguments thread : clear implicits.
Arguments choice : clear implicits.
Arguments config : clear implicits.

(** Runs the threads by a schedule of threads and choices. *)
Section run.
Context {Op R C : Type} `{Build} `{Operations Op R C}.
Context (address : gset Z → Z).

Definition config_step (i : nat) (ch : choice Op R) (s : config Op R C) :
    option (config Op R C) :=
  t ← s.2 !! i;
  '(q', t') ← thread_step address s.1 t ch;
  Some (q', <[i := t']> s.2).
(** A thread that is left alone makes [n] steps. *)
Fixpoint alone (n : nat) (s : queue Op C * thread Op R) : option (queue Op C * thread Op R) :=
  match n with 0 => Some s | S n => s' ← thread_step address s.1 s.2 Go; alone n s' end.
Fixpoint run (sched : list (nat * choice Op R)) (s : config Op R C) : option (config Op R C) :=
  match sched with
  | [] => Some s
  | (i, ch) :: rest => s' ← config_step i ch s; run rest s'
  end.
End run.

(** ** Unary RPCs and timers (completion_queue.h, completion_queue.cc) *)

(** What a request of the application to a [CompletionQueue] becomes: an
    [AsyncUnaryRpcFuture], an [AsyncTimerFuture] with a deadline, or the timer of
    [RunAsync], whose continuation runs a functor that makes more requests.  [promise]
    names the promise, or the functor. *)
Inductive request :=
| MakeUnaryRpc (promise : nat)
| MakeDeadlineTimer (promise : nat) (deadline : Z)
| RunAsync (functor : nat).

Section requests.
Context {T : Type} (grpc : StatusCode → Z).
(** The requests that the functors of the application make; a functor may make one for
    itself again. *)
Context (code : nat → list request).

(** What gRPC leaves in [status_] and [response_]. *)
Record rpc_result := mkRpcResult { rpc_status : grpc_Status; rpc_response : T }.

(** What is put in a promise, [StatusOr<Response>] or [StatusOr<time_point>], or that a
    functor was run. *)
Inductive answer :=
| Response (r : Status + T)
| Time (r : Status + Z)
| Ran.

(** [made]: the requests made; [answers]: what they were answered; [calls]: the requests
    whose [Start] or [Set] was called; [cancels]: whose [Cancel] was called. *)
Record application := mkApplication {
  made : list request;
  answers : list (request * answer);
  calls : list request;
  cancels : list request;
}.

Definition AsyncUnaryRpcFuture_Notify (ok : bool) (r : rpc_result) : Status + T :=
  if negb ok then inl (mkStatus kCancelled "call cancelled")
  else if negb (bool_decide (error_code (rpc_status r) = grpc kOk)) then
    inl (MakeStatusFromGrpcStatus grpc (rpc_status r))
  else inr (rpc_response r).

Definition AsyncTimerFuture_Notify (ok : bool) (deadline : Z) : Status + Z :=
  if negb ok then inl (mkStatus kCancelled "timer canceled") else inr deadline.

Definition make (os : list request) (a : application) : application :=
  mkApplication (made a ++ os) (answers a) (calls a) (cancels a).
Definition deliver (o : request) (d : answer) (a : application) : application :=
  mkApplication (made a) (answers a ++ [(o, d)]) (calls a) (cancels a).

(** [Notify] of the three kinds of request; every one is completed by it.  The functor of
    [RunAsync] runs in the continuation of its timer, which [set_value] runs. *)
Definition request_Notify (o : request) (ok : bool) (r : rpc_result) (a : application) :
    application * list request * bool :=
  match o with
  | MakeUnaryRpc p => (deliver o (Response (AsyncUnaryRpcFuture_Notify ok r)) a, [], true)
  | MakeDeadlineTimer p deadline =>
      (deliver o (Time (AsyncTimerFuture_Notify ok deadline)) a, [], true)
  | RunAsync f => (make (code f) (deliver o Ran a), code f, true)
  end.
(** [AsyncUnaryRpcFuture::Start], [AsyncTimerFuture::Set]. *)
Definition request_Start (o : request) (a : application) : application :=
  mkApplication (made a) (answers a) (calls a ++ [o]) (cancels a).
(** [Cancel()]: [context_->TryCancel()] or [alarm_->Cancel()]. *)
Definition request_Cancel (o : request) (a : application) : application :=
  mkApplication (made a) (answers a) (calls a) (cancels a ++ [o]).

Context (r0 : T).
Global Instance requests : Operations request rpc_result application := {
  notify := request_Notify;
  launch := request_Start;
  cancel_op := request_Cancel;
  issue o a := Some (make [o] a);
  no_results := mkRpcResult (mkGrpcStatus (grpc kOk) "") r0;
}.
End requests.
Arguments rpc_result : clear implicits.
Arguments answer : clear implicits.
Arguments application : clear implicits.

(** ** The invariant *)
Section invariant.
Context {Op R C : Type} `{Build} `{Operations Op R C}.
Implicit Types (q : queue Op C) (W : gset Z).

(** How often operation [n] was notified. *)
Definition notified (n : nat) (l : list event) : nat :=
  sum_list_with (λ e, match e with Notified m _ => if decide (m = n) then 1 else 0 | _ => 0 end) l.
(** Operation [n] has the tag [tag], whose event is still to come or ([W]) is being
    handled. *)
Definition waits (W : gset Z) q (n : nat) (tag : Z) (op : operation Op) : nat :=
  if decide (obj op = n ∧ (tag ∈ outstanding q ∨ tag ∈ W)) then 1 else 0.
(** [waits] for the tags [X]. *)
Definition waits_in (X : gset Z) (n : nat) (tag : Z) (op : operation Op) : nat :=
  if decide (obj op = n ∧ tag ∈ X) then 1 else 0.

Record queue_inv W q : Prop := {
  inv_outstanding : outstanding q ⊆ dom (pending_ops_ q);
  inv_handled : W ⊆ dom (pending_ops_ q);
  inv_disjoint : W ## outstanding q;
  inv_live : dom (pending_ops_ q) ⊆ live q;
  inv_notified : ∀ n, notified n (log q) + map_sum (waits_in (outstanding q ∪ W) n) (pending_ops_ q)
    = if decide (n < next_obj q) then 1 else 0;
  inv_shutdown : cq_shutdown q = true → shutdown_ q = true;
}.

(** What starting operations leaves as it was. *)
Record extends q q' : Prop := {
  ext_shutdown : shutdown_ q' = shutdown_ q;
  ext_cq_shutdown : cq_shutdown q' = cq_shutdown q;
  ext_live : live q ⊆ live q';
  ext_pending : ∀ tag, tag ∈ live q → pending_ops_ q' !! tag = pending_ops_ q !! tag;
  ext_outstanding : ∀ tag, tag ∈ live q → tag ∈ outstanding q' ↔ tag ∈ outstanding q;
  ext_none : shutdown_ q = true → outstanding q' = outstanding q;
}.

Lemma extends_refl q : extends q q.
Proof. by split. Qed.

Lemma extends_trans q1 q2 q3 : extends q1 q2 → extends q2 q3 → extends q1 q3.
Proof.
  intros [s1 c1 l1 p1 o1 n1] [s2 c2 l2 p2 o2 n2]. split; try congruence.
  - set_solver.
  - intros tag Ht. rewrite p2, p1; auto.
  - intros tag Ht. rewrite o2, o1; auto.
  - intros Hs. rewrite n2, n1; [done|done|congruence].
Qed.

Lemma notified_app n l1 l2 : notified n (l1 ++ l2) = notified n l1 + notified n l2.
Proof. apply sum_list_with_app. Qed.

(** Changes that the invariant does not see. *)
Lemma inv_set_client W q c : queue_inv W q → queue_inv W (set_client c q).
Proof. intros [????? ?]. by split. Qed.

(** One operation more: notified at once, or waiting. *)
Lemma inv_notify_new W q c o :
  queue_inv W q →
  queue_inv W (emit (Notified (next_obj q) false) (set_client c (new_operation o q).2)).
Proof.
  intros [Ho Hw Hd Hl Hn Hs]. split; try done. intros n. simpl. rewrite notified_app.
  specialize (Hn n). unfold notified at 2. simpl.
  destruct (decide (next_obj q = n)) as [<-|Hne].
  - rewrite decide_False in Hn by lia. rewrite decide_True by lia. lia.
  - destruct (decide (n < next_obj q)); [rewrite decide_True by lia|rewrite decide_False by lia]; lia.
Qed.

Context (address : gset Z → Z) (address_fresh : ∀ X, address X ∉ X).
Set Default Proof Using "All".

Lemma inv_start_new W q o c :
  queue_inv W q → shutdown_ q = false →
  let tag := address (live q) in
  let op := (new_operation o q).1 in
  let q' := emit (Started (next_obj q))
    (mkQueue (shutdown_ q) (<[tag := op]> (pending_ops_ q)) ({[tag]} ∪ outstanding q)
       (cq_shutdown q) ({[tag]} ∪ live q) c (log q) (S (next_obj q))) in
  queue_inv W q' ∧ extends q q'.
Proof.
  intros [Ho Hw Hd Hl Hn Hs] Hsh tag op q'.
  assert (tag ∉ live q) as Htag by apply address_fresh.
  assert (pending_ops_ q !! tag = None) as Hp by (apply not_elem_of_dom; set_solver).
  split; [split; simpl|split; simpl].
  - rewrite dom_insert. set_solver.
  - rewrite dom_insert. set_solver.
  - set_solver.
  - rewrite dom_insert. set_solver.
  - intros n. rewrite notified_app, map_sum_insert by done. specialize (Hn n).
    rewrite (map_sum_ext _ (waits_in (outstanding q ∪ W) n)).
    + unfold waits_in at 1, notified at 2. simpl.
      destruct (decide (next_obj q = n)) as [Heq|Hne].
      * subst n. rewrite (decide_True (P := next_obj q = next_obj q ∧ _)) by
          (split; [done|set_solver]).
        rewrite decide_False in Hn by lia. rewrite decide_True by lia. lia.
      * rewrite (decide_False (P := next_obj q = n ∧ _)) by naive_solver.
        destruct (decide (n < next_obj q)); [rewrite decide_True by lia|rewrite decide_False by lia];
          lia.
    + intros t x Hx. unfold waits_in. apply elem_of_dom_2 in Hx.
      apply decide_ext. set_solver.
  - done.
  - done.
  - done.
  - set_solver.
  - intros t Ht. rewrite lookup_insert_ne; [done|]. set_solver.
  - set_solver.
  - congruence.
Qed.

Lemma StartOperation_spec o q W :
  queue_inv W q →
  ∃ q' os, StartOperation address o q = Ret (q', os) ∧ queue_inv W q' ∧ extends q q'.
Proof.
  intros Hq. unfold StartOperation. simpl. destruct (shutdown_ q) eqn:Hsh.
  - destruct (notify o false no_results (client q)) as [[c os] b].
    pose proof (inv_notify_new W q c o Hq) as Hn. unfold new_operation in Hn.
    eexists _, os. split; [reflexivity|]. rewrite <- Hsh. split; [exact Hn|]. by split.
  - assert (pending_ops_ q !! address (live q) = None) as ->.
    { apply not_elem_of_dom. intros Ht. by apply (inv_live _ _ Hq), address_fresh in Ht. }
    eexists _, []. split; [reflexivity|]. rewrite <- Hsh. by apply inv_start_new.
Qed.

End invariant.

(** *** Threads *)
Section threads.
Context {Op R C : Type} `{Build} `{Operations Op R C}.
Implicit Types (q : queue Op C) (W : gset Z).
Set Default Proof Using "Type".

(** The tag of the operation that a thread in [Run()] refers to, and whether its
    [Notify] is still to come. *)
Definition held (t : thread Op R) : option Z :=
  match t with
  | GotEvent tag _ _ | FoundOperation tag _ _ _ | Notifying tag _ _ | Completed tag
  | EndIteration tag => Some tag
  | _ => None
  end.
Definition waiting (t : thread Op R) : option Z :=
  match t with GotEvent tag _ _ | FoundOperation tag _ _ _ => Some tag | _ => None end.
Definition waiting_tags (ts : list (thread Op R)) : gset Z := list_to_set (omap waiting ts).

Definition thread_inv q (t : thread Op R) : Prop :=
  (∀ tag, held t = Some tag → tag ∈ live q ∧ tag ∉ outstanding q) ∧
  match t with
  | FoundOperation tag op _ _ => pending_ops_ q !! tag = Some op
  | Notifying tag _ _ | Completed tag => tag ∈ dom (pending_ops_ q)
  | EndIteration tag => tag ∉ dom (pending_ops_ q)
  | ShuttingDown => shutdown_ q = true
  | Failed _ => False
  | _ => True
  end.

Record config_inv q (ts : list (thread Op R)) : Prop := {
  cinv_queue : queue_inv (waiting_tags ts) q;
  cinv_distinct : NoDup (omap held ts);
  cinv_threads : ∀ t, t ∈ ts → thread_inv q t;
}.

Lemma waiting_tags_cons t ts :
  waiting_tags (t :: ts) =
    match waiting t with Some tag => {[tag]} | None => ∅ end ∪ waiting_tags ts.
Proof. unfold waiting_tags. simpl. destruct (waiting t); simpl; set_solver. Qed.

Global Instance waiting_tags_perm : Proper (Permutation ==> eq) waiting_tags.
Proof.
  intros ts ts' Hp. unfold waiting_tags. apply set_eq. intros x.
  rewrite !elem_of_list_to_set. by rewrite Hp.
Qed.

Lemma waiting_held ts tag : tag ∈ waiting_tags ts → tag ∈ omap held ts.
Proof.
  unfold waiting_tags. rewrite elem_of_list_to_set, !list_elem_of_omap.
  intros (t & Ht & Hw). exists t. split; [done|]. by destruct t.
Qed.

(** Two threads do not refer to the same operation. *)
Lemma not_waiting (ts : list (thread Op R)) tag :
  (∀ u tag', u ∈ ts → held u = Some tag' → Some tag ≠ Some tag') → tag ∉ waiting_tags ts.
Proof. intros Hd (u & Hu & Hh)%waiting_held%list_elem_of_omap. by eapply Hd. Qed.

Lemma config_inv_perm q ts ts' : ts ≡ₚ ts' → config_inv q ts → config_inv q ts'.
Proof.
  intros Hp [Hq Hn Ht]. split.
  - by rewrite <- Hp.
  - by rewrite <- Hp.
  - intros t. rewrite <- Hp. apply Ht.
Qed.

Lemma thread_inv_keeps q q' t :
  (shutdown_ q = true → shutdown_ q' = true) →
  (∀ tag, held t = Some tag → tag ∈ live q' ∧ tag ∉ outstanding q' ∧
     pending_ops_ q' !! tag = pending_ops_ q !! tag) →
  thread_inv q t → thread_inv q' t.
Proof.
  intros Hs Hk [Hh Hm]. split.
  - intros tag Ht. by destruct (Hk tag Ht) as (? & ? & _).
  - destruct t; simpl in *; try done; auto.
    + destruct (Hk tag eq_refl) as (_ & _ & ->). done.
    + destruct (Hk tag eq_refl) as (_ & _ & Hp). rewrite !elem_of_dom in *. by rewrite Hp.
    + destruct (Hk tag eq_refl) as (_ & _ & Hp). rewrite !elem_of_dom in *. by rewrite Hp.
    + destruct (Hk tag eq_refl) as (_ & _ & Hp). rewrite !elem_of_dom in *. by rewrite Hp.
Qed.

Lemma threads_extend q q' (ts : list (thread Op R)) :
  extends q q' → (∀ t, t ∈ ts → thread_inv q t) → ∀ t, t ∈ ts → thread_inv q' t.
Proof.
  intros He Ht t Hin. pose proof (Ht t Hin) as Hi. eapply thread_inv_keeps; [| |done].
  - by rewrite (ext_shutdown _ _ He).
  - intros tag Hh. destruct (proj1 Hi tag Hh) as [Hl Ho]. split_and!.
    + by apply (ext_live _ _ He).
    + by rewrite (ext_outstanding _ _ He).
    + by apply (ext_pending _ _ He).
Qed.

(** A thread without an operation changes the queue in a way the others do not see. *)
Lemma config_silent q q' t t' ts :
  held t = None → held t' = None → config_inv q (t :: ts) → thread_inv q' t' →
  queue_inv (waiting_tags ts) q' → (∀ u, u ∈ ts → thread_inv q' u) →
  config_inv q' (t' :: ts).
Proof.
  intros Ht Ht' [_ Hn _] Hi Hq Hth. split.
  - rewrite waiting_tags_cons. assert (waiting t' = None) as -> by (by destruct t').
    by rewrite (left_id_L ∅ (∪)).
  - simpl in *. rewrite Ht in Hn. by rewrite Ht'.
  - intros u [->|?]%elem_of_cons; auto.
Qed.

Lemma config_rest q t ts :
  config_inv q (t :: ts) →
  queue_inv (match waiting t with Some tag => {[tag]} | None => ∅ end ∪ waiting_tags ts) q ∧
  thread_inv q t ∧ (∀ u, u ∈ ts → thread_inv q u) ∧
  (∀ u tag, u ∈ ts → held u = Some tag → held t ≠ Some tag) ∧ NoDup (omap held ts).
Proof.
  intros [Hq Hn Hth]. rewrite waiting_tags_cons in Hq. simpl in Hn.
  split_and!; [done|set_solver|set_solver| |].
  - intros u tag Hu Hh Ht. rewrite Ht in Hn. apply NoDup_cons in Hn as [Hn _]. apply Hn.
    apply list_elem_of_omap. eauto.
  - destruct (held t); [|done]. by apply NoDup_cons in Hn as [_ ?].
Qed.

Lemma move_tag (O W : gset Z) tag : tag ∈ O → O ∖ {[tag]} ∪ ({[tag]} ∪ W) = O ∪ W.
Proof. clear. intros Ht. apply set_eq. intros x. destruct (decide (x = tag)); set_solver. Qed.

Lemma step_event q ts tag ok r :
  config_inv q (Polling :: ts) → tag ∈ outstanding q →
  config_inv (mkQueue (shutdown_ q) (pending_ops_ q) (outstanding q ∖ {[tag]}) (cq_shutdown q)
    (live q) (client q) (log q) (next_obj q)) (GotEvent tag ok r :: ts).
Proof.
  intros Hc Ho. destruct (config_rest _ _ _ Hc) as (Hq & _ & Hth & _ & Hn).
  simpl in Hq. rewrite (left_id_L ∅ (∪)) in Hq. destruct Hq as [H1 H2 H3 H4 H5 H6].
  assert (∀ u tag', u ∈ ts → held u = Some tag' → tag' ≠ tag) as Hne.
  { intros u tag' Hu Hh ->. by apply (proj1 (Hth u Hu)) in Hh as [_ ?]. }
  split.
  - rewrite waiting_tags_cons. simpl.
    split; simpl; [clear -H1; set_solver|clear -H1 H2 Ho; set_solver|clear -H3; set_solver|done| |done].
    intros n. rewrite <- (H5 n). by rewrite move_tag.
  - simpl. apply NoDup_cons. split; [|done]. intros (u & Hu & Hh)%list_elem_of_omap. by eapply Hne.
  - intros u [->|Hu]%elem_of_cons.
    + split; [|done]. intros tag' [= <-]. simpl. set_solver.
    + apply (thread_inv_keeps q); [done| |by apply Hth]. intros tag' Hh.
      destruct (proj1 (Hth u Hu) tag' Hh). simpl. set_solver.
Qed.

(** [Notify]: the handled tag is no longer waiting. *)
Lemma inv_notify W q tag op ok c :
  queue_inv ({[tag]} ∪ W) q → pending_ops_ q !! tag = Some op →
  tag ∉ outstanding q → tag ∉ W →
  queue_inv W (emit (Notified (obj op) ok) (set_client c q)).
Proof.
  intros [H1 H2 H3 H4 H5 H6] Hp Ho Hw.
  split; simpl; [done|clear -H2; set_solver|clear -H3; set_solver|done| |done].
  intros n. rewrite notified_app, <- (H5 n).
  rewrite !(map_sum_delete _ _ _ _ Hp). unfold notified at 2. simpl.
  rewrite (map_sum_ext (waits_in (outstanding q ∪ W) n) (waits_in (outstanding q ∪ ({[tag]} ∪ W)) n)
    (delete tag (pending_ops_ q))).
  - unfold waits_in at 1 3. destruct (decide (obj op = n)) as [He|He].
    + rewrite (decide_False (P := obj op = n ∧ tag ∈ outstanding q ∪ W)) by set_solver.
      rewrite (decide_True (P := obj op = n ∧ tag ∈ outstanding q ∪ ({[tag]} ∪ W))) by
        (split; [done|set_solver]). lia.
    + rewrite !(decide_False (P := obj op = n ∧ _)) by naive_solver. lia.
  - intros i x Hi. assert (i ≠ tag) by (intros ->; by rewrite lookup_delete_eq in Hi).
    unfold waits_in. apply decide_ext. clear -H7. set_solver.
Qed.

Lemma step_notify q ts tag op ok r c os completed :
  config_inv q (FoundOperation tag op ok r :: ts) →
  config_inv (emit (Notified (obj op) ok) (set_client c q)) (Notifying tag os completed :: ts).
Proof.
  intros Hc. destruct (config_rest _ _ _ Hc) as (Hq & [Hh Hf] & Hth & Hd & Hn). simpl in *.
  destruct (Hh tag eq_refl) as [Hl Ho].
  pose proof (not_waiting _ _ Hd) as Hw.
  split.
  - rewrite waiting_tags_cons. simpl. rewrite (left_id_L ∅ (∪)). by eapply inv_notify.
  - simpl. apply NoDup_cons. split; [|done].
    intros (u & Hu & Hh')%list_elem_of_omap. by eapply Hd.
  - intros u [->|Hu]%elem_of_cons.
    + split; [intros tag' [= <-]; done|]. apply elem_of_dom. by exists op.
    + apply (thread_inv_keeps q); [done| |by apply Hth].
      intros tag' Hh'. by destruct (proj1 (Hth u Hu) tag' Hh').
Qed.

(** [Notify] returns. *)
Lemma step_notified q ts tag completed :
  config_inv q (Notifying tag [] completed :: ts) →
  config_inv q ((if completed : bool then Completed tag else Polling) :: ts).
Proof.
  intros Hc. destruct (config_rest _ _ _ Hc) as (Hq & Hi & Hth & Hd & Hn).
  destruct Hc as [Hq' Hn' _]. destruct completed.
  - split; [by rewrite waiting_tags_cons in *|done|]. intros u [->|Hu]%elem_of_cons; auto.
  - split; [by rewrite waiting_tags_cons in *|done|].
    intros u [->|Hu]%elem_of_cons; [by split|auto].
Qed.

Lemma step_forget q ts tag q' :
  config_inv q (Completed tag :: ts) → ForgetOperation tag q = Ret q' →
  config_inv q' (EndIteration tag :: ts).
Proof.
  intros Hc. destruct (config_rest _ _ _ Hc) as (Hq & [Hh Hf] & Hth & Hd & Hn). simpl in *.
  destruct (Hh tag eq_refl) as [Hl Ho]. rewrite (left_id_L ∅ (∪)) in Hq.
  unfold ForgetOperation. destruct (pending_ops_ q !! tag) as [op|] eqn:Hp;
    [|apply not_elem_of_dom in Hp; done]. intros Heq. simplify_eq/=.
  pose proof (not_waiting _ _ Hd) as Hw.
  destruct Hq as [H1 H2 H3 H4 H5 H6]. split.
  - rewrite waiting_tags_cons. simpl. rewrite (left_id_L ∅ (∪)).
    split; simpl; rewrite ?dom_delete; [clear -H1 Ho; set_solver|clear -H2 Hw; set_solver|done
      |clear -H4; set_solver| |done].
    intros n. rewrite <- (H5 n), (map_sum_delete _ _ _ _ Hp). unfold waits_in at 2.
    rewrite decide_False by (clear -Ho Hw; set_solver). done.
  - simpl. apply NoDup_cons. split; [|done].
    intros (u & Hu & Hh')%list_elem_of_omap. by eapply Hd.
  - intros u [->|Hu]%elem_of_cons.
    + split; simpl; [intros tag' [= <-]; done|]. rewrite dom_delete. clear. set_solver.
    + apply (thread_inv_keeps q); [done| |by apply Hth]. intros tag' Hh'.
      destruct (proj1 (Hth u Hu) tag' Hh') as [??]. simpl. split_and!; [done..|].
      apply lookup_delete_ne. intros ->. by eapply Hd.
Qed.

Lemma step_release q ts tag :
  config_inv q (EndIteration tag :: ts) → config_inv (release tag q) (Polling :: ts).
Proof.
  intros Hc. destruct (config_rest _ _ _ Hc) as (Hq & [Hh Hf] & Hth & Hd & Hn). simpl in *.
  rewrite (left_id_L ∅ (∪)) in Hq. destruct Hq as [H1 H2 H3 H4 H5 H6]. split.
  - rewrite waiting_tags_cons. simpl. rewrite (left_id_L ∅ (∪)).
    split; simpl; try done. clear -H4 Hf. set_solver.
  - done.
  - intros u [->|Hu]%elem_of_cons; [by split|].
    apply (thread_inv_keeps q); [done| |by apply Hth]. intros tag' Hh'.
    destruct (proj1 (Hth u Hu) tag' Hh') as [??]. simpl. split_and!; [|done..].
    assert (tag' ≠ tag) by (intros ->; by eapply Hd). clear -H7 H9. set_solver.
Qed.

End threads.

(** *** Steps *)
Section steps.
Context {Op R C : Type} `{Build} `{Operations Op R C}.
Implicit Types (q : queue Op C) (W : gset Z).
Context (address : gset Z → Z) (address_fresh : ∀ X, address X ∉ X).
Set Default Proof Using "All".

(** An operation that [Notify] starts. *)
Lemma step_start q (ts : list (thread Op R)) tag o os completed :
  config_inv q (Notifying tag (o :: os) completed :: ts) →
  ∃ q' os', StartOperation address o q = Ret (q', os') ∧
    config_inv q' (Notifying tag (os' ++ os) completed :: ts).
Proof.
  intros Hc. destruct (config_rest _ _ _ Hc) as (Hq & [Hh Hf] & Hth & Hd & Hn). simpl in *.
  rewrite (left_id_L ∅ (∪)) in Hq. destruct (Hh tag eq_refl) as [Hl Ho].
  destruct (StartOperation_spec address address_fresh o q _ Hq) as (q1 & os' & Hq1 & Hi1 & He).
  exists q1, os'. split; [exact Hq1|]. split.
  - rewrite waiting_tags_cons. simpl. by rewrite (left_id_L ∅ (∪)).
  - by destruct Hc.
  - intros u [->|Hu]%elem_of_cons; [|by eapply threads_extend].
    split; [|].
    + intros tag' [= <-]. split; [by apply (ext_live _ _ He)|by rewrite (ext_outstanding _ _ He)].
    + simpl. rewrite elem_of_dom, (ext_pending _ _ He) by done. by apply elem_of_dom.
Qed.

Lemma thread_step_inv q t ts ch q' t' :
  config_inv q (t :: ts) → thread_step address q t ch = Some (q', t') →
  config_inv q' (t' :: ts).
Proof.
  intros Hc Hs. destruct (config_rest _ _ _ Hc) as (Hq & Hi & Hth & Hd & Hn).
  destruct t, ch; simpl in Hs; try (destruct ops as [|op ops]); try (destruct os as [|o1 os]);
    simplify_eq/=; rewrite ?(left_id_L ∅ (∪)) in Hq.
  - destruct (issue o (client q)) as [c|]; simplify_eq/=.
    eapply (config_silent q); [| |exact Hc|by split|..]; [done|done|by apply inv_set_client|].
    apply (threads_extend q); [|done]. by split.
  - by eapply (config_silent q' q'); [| |exact Hc|..].
  - eapply (config_silent q); [| |exact Hc|by split|..]; [done|done| |].
    + destruct Hq. by split.
    + intros u Hu. apply (thread_inv_keeps q); [done| |by apply Hth].
      intros tag' Hh'. by destruct (proj1 (Hth u Hu) tag' Hh').
  - by eapply (config_silent q' q'); [| |exact Hc|..].
  - by eapply (config_silent q' q'); [| |exact Hc|..].
  - destruct (StartOperation_spec address address_fresh o1 q _ Hq) as (q1 & os' & Hq1 & Hi1 & He).
    rewrite Hq1 in Hs. simplify_eq/=.
    eapply (config_silent q); [| |exact Hc|by split|done|by eapply threads_extend]; done.
  - destruct (bool_decide_reflect (tag ∈ outstanding q)); simplify_eq/=. by apply step_event.
  - by eapply (config_silent q' q'); [| |exact Hc|..].
  - destruct (cq_shutdown q && _); simplify_eq/=. by eapply (config_silent q' q'); [| |exact Hc|..].
  - destruct Hq as [_ Hw _ _ _ _]. unfold FindOperation in Hs.
    destruct (pending_ops_ q !! tag) as [op|] eqn:Hp.
    + simplify_eq/=. destruct Hc as [Hq Hn' Hth']. split; [by rewrite waiting_tags_cons in *|done|].
      intros u [->|Hu]%elem_of_cons; [split; [apply Hi|done]|by apply Hth].
    + apply not_elem_of_dom in Hp. clear -Hp Hw. set_solver.
  - destruct (notify (kind op) ok r (client q)) as [[c os] b]. simplify_eq/=.
    by eapply step_notify.
  - by apply step_notified.
  - destruct (step_start _ _ _ _ _ _ Hc) as (q1 & os' & Hq1 & Hc').
    rewrite Hq1 in Hs. by simplify_eq/=.
  - destruct (ForgetOperation tag q) as [q1| | |] eqn:Hf; simplify_eq/=;
      [by eapply step_forget|..]; unfold ForgetOperation in Hf;
      destruct Hi as [_ [op Hp]%elem_of_dom]; rewrite Hp in Hf; done.
  - by apply step_release.
  - eapply (config_silent q); [| |exact Hc|by split|..]; [done|done| |].
    + destruct Hq. split; try done. intros _. apply Hi.
    + intros u Hu. apply (thread_inv_keeps q); [done| |by apply Hth].
      intros tag' Hh'. by destruct (proj1 (Hth u Hu) tag' Hh').
  - by eapply (config_silent q' q'); [| |exact Hc|..].
  - eapply (config_silent q); [| |exact Hc|by split|..]; [done|done| |].
    + by apply inv_set_client.
    + intros u Hu. apply (thread_inv_keeps q); [done| |by apply Hth].
      intros tag' Hh'. by destruct (proj1 (Hth u Hu) tag' Hh').
Qed.

(** *** Reachable configurations *)

Lemma initial_inv (c : C) n : config_inv (queue_new c) (replicate n (@Application Op R)).
Proof.
  split.
  - assert (waiting_tags (replicate n Application) = ∅) as ->.
    { apply set_eq. intros x. unfold waiting_tags.
      rewrite elem_of_list_to_set, list_elem_of_omap. split; [|set_solver].
      intros (t & [-> _]%elem_of_replicate & Hx). done. }
    split; simpl; try set_solver; try done.
  - assert (omap held (replicate n Application) = []) as ->; [|constructor].
    induction n; simpl; done.
  - intros t [-> _]%elem_of_replicate. split; done.
Qed.

Lemma config_step_step i ch s s' : config_step address i ch s = Some s' → step address s s'.
Proof using Type.
  unfold config_step. destruct s as [q ts]. intros Hst. simpl in Hst.
  destruct (ts !! i) as [t|] eqn:Hi; simplify_eq/=.
  destruct (thread_step address q t ch) as [[q' t']|] eqn:Ht; simplify_eq/=.
  by econstructor.
Qed.

Lemma run_reachable c n sched s s' :
  reachable address c n s → run address sched s = Some s' → reachable address c n s'.
Proof using Type.
  revert s. induction sched as [|[i ch] sched IH]; intros s Hr Hs; simplify_eq/=; [done|].
  destruct (config_step address i ch s) as [s1|] eqn:Hst; simplify_eq/=.
  apply (IH s1); [|done]. eapply rtc_r; [done|]. by eapply config_step_step.
Qed.

(** A schedule gives a reachable configuration. *)
Lemma run_check (c : C) n sched (P : config Op R C → bool) :
  match run address sched (initial c n) with Some s => P s | None => false end = true →
  ∃ q ts, reachable address c n (q, ts) ∧ P (q, ts) = true.
Proof using Type.
  destruct (run address sched (initial c n)) as [[q ts]|] eqn:Hs; [|done].
  intros HP. exists q, ts. split; [|done]. by eapply run_reachable; [apply rtc_refl|].
Qed.

Lemma step_inv s s' :
  config_inv s.1 s.2 → step address s s' → config_inv s'.1 s'.2.
Proof.
  intros Hc Hs. destruct Hs as [q ts i t ch q' t' Hi Hs]. simpl in *.
  destruct (insert_permutation ts i t t' Hi) as (l & Hp & Hp').
  apply (config_inv_perm _ _ _ (symmetry Hp')).
  eapply thread_step_inv; [|done]. by eapply config_inv_perm.
Qed.

Lemma reachable_inv c n s : reachable address c n s → config_inv s.1 s.2.
Proof.
  unfold reachable. intros Hr.
  pose proof (initial_inv c n) as Hi.
  change (config_inv (initial (Op := Op) (R := R) c n).1 (initial (Op := Op) (R := R) c n).2) in Hi.
  revert Hi. induction Hr; eauto using step_inv.
Qed.
End steps.

(** ** Invariants of the application and its operations

    [I b c l s]: the application [c] when [l] are the operations that gRPC has or whose
    event is being handled, [s] those that a [Notify] is to start, both in some order,
    and [b] whether the queue was shut down. *)
Section client_invariant.
Context {Op R C : Type} `{Build} `{Operations Op R C}.
Implicit Types (q : queue Op C) (W : gset Z) (I : bool → C → list Op → list Op → Prop).

Record client_invariant I : Prop := {
  ci_perm b c l l' s s' : l ≡ₚ l' → s ≡ₚ s' → I b c l s → I b c l' s';
  ci_event b c l s o ok r c' os completed :
    I b c (o :: l) s → notify o ok r c = (c', os, completed) → I b c' l (os ++ s);
  ci_cancelled c l s o c' os completed :
    I true c l (o :: s) → notify o false no_results c = (c', os, completed) →
    I true c' l (os ++ s);
  ci_launch c l s o : I false c l (o :: s) → I false (launch o c) (o :: l) s;
  ci_cancel b c l s o : I b c l s → I b (cancel_op o c) l s;
  ci_issue b c l s o c' : I b c l s → issue o c = Some c' → I b c' l (o :: s);
  ci_shutdown b c l s : I b c l s → I true c l s;
}.

(** The operations in the queue whose [Notify] is still to come. *)
Definition owed W q : list Op :=
  omap (λ p : Z * operation Op,
    if decide (p.1 ∈ outstanding q ∪ W) then Some (kind p.2) else None)
    (map_to_list (pending_ops_ q)).
(** The operations that a thread has still to start. *)
Definition starting (t : thread Op R) : list Op :=
  match t with Notifying _ os _ | Starting os => os | _ => [] end.
(** The thread neither handles nor starts an operation. *)
Definition idle (t : thread Op R) : Prop := held t = None ∧ starting t = [].
Definition handed q (ts : list (thread Op R)) : list Op := owed (waiting_tags ts) q.
Definition to_start (ts : list (thread Op R)) : list Op := ts ≫= starting.
Definition in_flight q (ts : list (thread Op R)) : list Op := handed q ts ++ to_start ts.

Lemma owed_ext W q W' q' :
  pending_ops_ q' = pending_ops_ q →
  outstanding q' ∪ W' = outstanding q ∪ W → owed W' q' = owed W q.
Proof. unfold owed. by intros -> ->. Qed.

(** A tag more. *)
Lemma owed_delete W q W' q' tag op :
  pending_ops_ q !! tag = Some op → pending_ops_ q' = delete tag (pending_ops_ q) →
  (∀ i, i ≠ tag → i ∈ outstanding q' ∪ W' ↔ i ∈ outstanding q ∪ W) →
  owed W q ≡ₚ (if decide (tag ∈ outstanding q ∪ W) then [kind op] else []) ++ owed W' q'.
Proof.
  intros Hp Hp' Hi. unfold owed. rewrite Hp'. rewrite <- (map_to_list_delete _ _ _ Hp).
  simpl. rewrite (list_omap_agree (λ p : Z * operation Op,
    if decide (p.1 ∈ outstanding q' ∪ W') then Some (kind p.2) else None)
    (λ p : Z * operation Op,
    if decide (p.1 ∈ outstanding q ∪ W) then Some (kind p.2) else None)).
  - by destruct (decide (tag ∈ outstanding q ∪ W)).
  - intros [i x] Hx%elem_of_map_to_list. simpl.
    assert (i ≠ tag) by (intros ->; by rewrite lookup_delete_eq in Hx).
    apply decide_ext. by apply Hi.
Qed.

Lemma owed_unregister W q tag op :
  pending_ops_ q !! tag = Some op → tag ∉ outstanding q → tag ∉ W →
  owed W q ≡ₚ owed W (unregister tag q).
Proof.
  intros Hp Ho Hw. rewrite (owed_delete W q W (unregister tag q) tag op) by done.
  by rewrite decide_False by set_solver.
Qed.

Lemma owed_notify W q tag op :
  pending_ops_ q !! tag = Some op → tag ∉ outstanding q → tag ∉ W →
  owed ({[tag]} ∪ W) q ≡ₚ kind op :: owed W q.
Proof.
  intros Hp Ho Hw. rewrite (owed_unregister W q tag op) by done.
  rewrite (owed_delete ({[tag]} ∪ W) q W (unregister tag q) tag op) by (first [done|set_solver]).
  by rewrite decide_True by set_solver.
Qed.

Lemma handed_perm q ts ts' : ts ≡ₚ ts' → handed q ts ≡ₚ handed q ts'.
Proof. intros Hp. unfold handed. by rewrite (waiting_tags_perm ts ts' Hp). Qed.

Lemma to_start_perm ts ts' : ts ≡ₚ ts' → to_start ts ≡ₚ to_start ts'.
Proof. intros Hp. unfold to_start. by apply bind_Permutation. Qed.

(** An idle queue: no event is outstanding and no thread handles an operation. *)
Lemma handed_idle q ts :
  outstanding q = ∅ → (∀ t, t ∈ ts → idle t) → handed q ts = [].
Proof.
  intros Ho Ht. unfold handed.
  assert (waiting_tags ts = ∅) as ->.
  { apply set_eq. intros tag. split; [|set_solver]. unfold waiting_tags.
    rewrite elem_of_list_to_set, list_elem_of_omap. intros (t & Hin & Hw).
    destruct (Ht t Hin). by destruct t. }
  unfold owed. rewrite Ho. rewrite (list_omap_agree _ (λ _, None)); [by induction (map_to_list _)|].
  intros [tag op] _. rewrite decide_False; [done|]. simpl. set_solver.
Qed.

Lemma to_start_idle ts : (∀ t, t ∈ ts → idle t) → to_start ts = [].
Proof.
  intros Ht. induction ts as [|t ts IH]; [done|].
  assert (starting t = []) as Hs by (by destruct (Ht t (list_elem_of_here _ _))).
  unfold to_start in *. simpl. rewrite Hs. apply IH. set_solver.
Qed.

Context (address : gset Z → Z) (address_fresh : ∀ X, address X ∉ X).
Context I (HI : client_invariant I).
Set Default Proof Using "All".

Definition holds W (l : list Op) q : Prop :=
  queue_inv W q ∧ I (shutdown_ q) (client q) (owed W q) l.

Lemma owed_launch W q op c :
  queue_inv W q → let tag := address (live q) in
  owed W (mkQueue (shutdown_ q) (<[tag := op]> (pending_ops_ q)) ({[tag]} ∪ outstanding q)
    (cq_shutdown q) ({[tag]} ∪ live q) c (log q) (S (next_obj q))) ≡ₚ kind op :: owed W q.
Proof.
  intros Hq tag. destruct Hq as [H1 H2 _ H4 _ _].
  pose proof (address_fresh (live q)) as Ht. fold tag in Ht.
  assert (tag ∉ dom (pending_ops_ q)) as Hp by (clear -Ht H4; set_solver).
  etrans; [apply (owed_delete W _ W q tag op); simpl|].
  - apply lookup_insert_eq.
  - by rewrite delete_insert_id by by apply not_elem_of_dom.
  - intros i Hne. clear -Hne. set_solver.
  - simpl. by rewrite decide_True by (clear; set_solver).
Qed.

Lemma StartOperation_holds o q q' os W l :
  StartOperation address o q = Ret (q', os) → holds W (o :: l) q → holds W (os ++ l) q'.
Proof.
  intros Hs [Hq Hi].
  destruct (StartOperation_spec address address_fresh o q W Hq) as (q1 & os1 & Hs1 & Hq1 & _).
  rewrite Hs in Hs1. injection Hs1 as <- <-. split; [done|].
  unfold StartOperation in Hs. simpl in Hs. destruct (shutdown_ q) eqn:Hsh.
  - destruct (notify o false no_results (client q)) as [[c os1] b] eqn:Hno. simplify_eq/=.
    by eapply (ci_cancelled _ HI).
  - destruct (pending_ops_ q !! address (live q)) eqn:Hp;
      [by unfold ThrowRuntimeError, ThrowException in Hs; destruct have_exceptions|].
    pose proof (owed_launch W q (mkOperation (next_obj q) o) (launch o (client q)) Hq) as Ho.
    simpl in Ho. rewrite Hsh in Ho. simplify_eq/=.
    eapply (ci_perm _ HI); [symmetry; exact Ho|done|]. by apply (ci_launch _ HI).
Qed.

(** The invariant in a configuration. *)
Definition config_holds q (ts : list (thread Op R)) : Prop :=
  config_inv q ts ∧ I (shutdown_ q) (client q) (handed q ts) (to_start ts).

Lemma config_holds_perm q ts ts' : ts ≡ₚ ts' → config_holds q ts → config_holds q ts'.
Proof.
  intros Hp [Hc Hi]. split; [by eapply config_inv_perm|].
  eapply ci_perm; [done|by apply handed_perm|by apply to_start_perm|done].
Qed.

Lemma start_config q q' (t t' : thread Op R) ts o os os' :
  queue_inv (waiting_tags ts) q → waiting t = None → waiting t' = None →
  starting t = o :: os → starting t' = os' ++ os → StartOperation address o q = Ret (q', os') →
  I (shutdown_ q) (client q) (handed q (t :: ts)) (to_start (t :: ts)) →
  I (shutdown_ q') (client q') (handed q' (t' :: ts)) (to_start (t' :: ts)).
Proof.
  intros Hq Ht Ht' Hst Hst' Hs. unfold handed, to_start.
  rewrite !waiting_tags_cons, Ht, Ht', !(left_id_L ∅ (∪)). simpl. rewrite Hst, Hst'. simpl.
  rewrite <- app_assoc. intros Hi. by apply (StartOperation_holds o q q' os').
Qed.

Lemma thread_step_holds q t ts ch q' t' :
  config_holds q (t :: ts) → thread_step address q t ch = Some (q', t') →
  config_holds q' (t' :: ts).
Proof.
  intros [Hc Hi] Hs.
  pose proof (thread_step_inv address address_fresh _ _ _ _ _ _ Hc Hs) as Hc'.
  split; [done|]. destruct (config_rest _ _ _ Hc) as (Hq & Hi0 & Hth & Hd & Hn).
  destruct t, ch; simpl in Hs; try (destruct os as [|o1 os]);
    try (destruct ops as [|op1 ops]); simplify_eq/=; try exact Hi;
    rewrite ?(left_id_L ∅ (∪)) in Hq.
  - destruct (issue o (client q)) as [c|] eqn:His; simplify_eq/=.
    by eapply (ci_issue _ HI).
  - by eapply (ci_shutdown _ HI).
  - destruct (StartOperation address o1 q) as [[q1 os']| | |] eqn:Hst; simplify_eq/=;
      try (by destruct (proj2 (cinv_threads _ _ Hc' _ (list_elem_of_here _ _)))).
    by apply (start_config q q' (Starting (o1 :: os)) (Starting (os' ++ os)) ts o1 os os').
  - destruct (bool_decide_reflect (tag ∈ outstanding q)); simplify_eq/=.
    unfold handed in *. erewrite owed_ext; [exact Hi|done|].
    rewrite !waiting_tags_cons. simpl. by rewrite move_tag, (left_id_L ∅ (∪)).
  - by destruct (cq_shutdown q && _); simplify_eq/=.
  - destruct (FindOperation tag q); simplify_eq/=; [exact Hi|..];
      by destruct (proj2 (cinv_threads _ _ Hc' _ (list_elem_of_here _ _))).
  - destruct (notify (kind op) ok r (client q)) as [[c os] b] eqn:Hno. simplify_eq/=.
    destruct Hi0 as [Hh Hp]. destruct (Hh tag eq_refl) as [_ Ho].
    eapply (ci_event _ HI); [|exact Hno]. eapply (ci_perm _ HI); [|done|exact Hi].
    unfold handed. rewrite waiting_tags_cons. cbn.
    by rewrite (owed_notify _ _ _ op) by first [done|by apply not_waiting].
  - destruct completed; exact Hi.
  - destruct (StartOperation address o1 q) as [[q1 os']| | |] eqn:Hst; simplify_eq/=;
      try (by destruct (proj2 (cinv_threads _ _ Hc' _ (list_elem_of_here _ _)))).
    by apply (start_config q q' (Notifying tag (o1 :: os) completed)
      (Notifying tag (os' ++ os) completed) ts o1 os os').
  - destruct (ForgetOperation tag q) as [q1| | |] eqn:Hf; simplify_eq/=;
      try (by destruct (proj2 (cinv_threads _ _ Hc' _ (list_elem_of_here _ _)))).
    unfold ForgetOperation in Hf. destruct (pending_ops_ q !! tag) as [op|] eqn:Hp;
      [|by apply not_elem_of_dom in Hp; destruct (Hp (proj2 Hi0))].
    injection Hf as <-. destruct (proj1 Hi0 tag eq_refl) as [_ Ho].
    eapply (ci_perm _ HI); [|done|exact Hi]. unfold handed. rewrite !waiting_tags_cons. cbn.
    rewrite !(left_id_L ∅ (∪)).
    by rewrite (owed_unregister _ q tag op) by first [done|by apply not_waiting].
  - by eapply (ci_cancel _ HI).
Qed.

Lemma step_holds s s' : config_holds s.1 s.2 → step address s s' → config_holds s'.1 s'.2.
Proof.
  intros Hc Hs. destruct Hs as [q ts i t ch q' t' Hi Hs]. simpl in *.
  destruct (insert_permutation ts i t t' Hi) as (l & Hp & Hp').
  apply (config_holds_perm _ _ _ (symmetry Hp')).
  eapply thread_step_holds; [|done]. by eapply config_holds_perm.
Qed.

(** An invariant of the application holds in every interleaving of the queue. *)
Lemma client_invariant_reachable (c : C) n q ts :
  I false c [] [] → reachable address c n (q, ts) →
  I (shutdown_ q) (client q) (handed q ts) (to_start ts).
Proof.
  intros H0' Hr. cut (config_holds (q, ts).1 (q, ts).2); [by intros [_ ?]|].
  assert (config_holds (initial (Op := Op) (R := R) c n).1 (initial (Op := Op) (R := R) c n).2) as Hi.
  { split; [exact (initial_inv address address_fresh c n)|]. simpl.
    rewrite to_start_idle, handed_idle; [done|done|..]; intros t [-> _]%elem_of_replicate; by split. }
  revert Hi. induction Hr; eauto using step_holds.
Qed.
End client_invariant.

(** ** Steps of the application beside those of the queue *)
Section with_application.
Context {Op R C : Type} `{Build} `{Operations Op R C}.
Context (address : gset Z → Z) (app : C → C → Prop).

Inductive sys_step : config Op R C → config Op R C → Prop :=
| sys_queue s s' : step address s s' → sys_step s s'
| sys_app q ts c : app (client q) c → sys_step (q, ts) (set_client c q, ts).
Definition sys_reachable (c : C) (n : nat) (s : config Op R C) : Prop :=
  rtc sys_step (initial c n) s.

(** Runs a schedule of both kinds of steps; [do_app] are the steps of the application. *)
Fixpoint sys_run {F} (do_app : F → C → option C) (sched : list (nat * choice Op R + F))
    (s : config Op R C) : option (config Op R C) :=
  match sched with
  | [] => Some s
  | inl (i, ch) :: rest => s' ← config_step address i ch s; sys_run do_app rest s'
  | inr f :: rest => c ← do_app f (client s.1); sys_run do_app rest (set_client c s.1, s.2)
  end.

Lemma sys_run_reachable {F} (do_app : F → C → option C) c n sched s s' :
  (∀ f c c', do_app f c = Some c' → app c c') →
  sys_reachable c n s → sys_run do_app sched s = Some s' → sys_reachable c n s'.
Proof.
  intros Happ. revert s. induction sched as [|[[i ch]|f] sched IH]; intros s Hr Hs; simplify_eq/=; [done|..].
  - destruct (config_step address i ch s) as [s1|] eqn:Hst; simplify_eq/=.
    apply (IH s1); [|done]. eapply rtc_r; [done|]. constructor. by eapply config_step_step.
  - destruct s as [q ts], (do_app f (client q)) as [c1|] eqn:Hf; simplify_eq/=; rewrite Hf in Hs; [|done].
    eapply IH; [|exact Hs]. eapply rtc_r; [done|]. apply sys_app. by eapply Happ.
Qed.

Lemma reachable_sys c n s : reachable address c n s → sys_reachable c n s.
Proof. apply rtc_congruence with (f := id). intros s1 s2. apply sys_queue. Qed.

Lemma config_inv_set_client (q : queue Op C) (ts : list (thread Op R)) c :
  config_inv q ts → config_inv (set_client c q) ts.
Proof. intros [Hq Hn Ht]. split; [by apply inv_set_client|done|exact Ht]. Qed.

(** Invariants of the application that both kinds of steps preserve. *)
Lemma sys_invariant_reachable (I : bool → C → list Op → list Op → Prop) c n q ts :
  (∀ X, address X ∉ X) → client_invariant I →
  (∀ b c c' l s, I b c l s → app c c' → I b c' l s) →
  I false c [] [] → sys_reachable c n (q, ts) → config_holds I q ts.
Proof.
  intros Ha HI Happ Hc Hr. change (config_holds I (q, ts).1 (q, ts).2).
  assert (config_holds I (initial (Op := Op) (R := R) c n).1 (initial (Op := Op) (R := R) c n).2) as Hi.
  { split; [exact (initial_inv address Ha c n)|]. simpl.
    rewrite to_start_idle, handed_idle; [done|done|..]; intros t [-> _]%elem_of_replicate; by split. }
  revert Hi. induction Hr as [|s1 s2 s3 Hs _ IH]; [done|]. intros Hi. apply IH.
  destruct Hs as [s s' Hs|q' ts' c' Hs]; [by eapply step_holds|].
  destruct Hi as [Hv HII]. split; [by apply config_inv_set_client|]. simpl in *. by eapply Happ.
Qed.
End with_application.

(** ** Properties *)
Section properties.
Context {Op R C : Type} `{Build} `{Operations Op R C}.
Context (address : gset Z → Z) (address_fresh : ∀ X, address X ∉ X).
Set Default Proof Using "All".

(** C21: whatever the threads of the program do, with any number of them in [Run()],
    none of the queue's assertions fails: every tag that gRPC delivers finds its
    operation, forgetting a completed operation finds it still registered, and inserting
    a new operation never clashes with one that is pending. *)
Theorem queue_never_fails c n q ts i m :
  reachable address c n (q, ts) → ts !! i ≠ Some (Failed m).
Proof.
  intros Hr Hi. pose proof (reachable_inv address address_fresh _ _ _ Hr) as Hc. simpl in Hc.
  apply list_elem_of_lookup_2 in Hi. by destruct (cinv_threads _ _ Hc _ Hi).
Qed.

Lemma notified_once c n q ts x :
  reachable address c n (q, ts) → x < next_obj q →
  notified x (log q) ≤ 1 ∧
  (outstanding q = ∅ → (∀ t, t ∈ ts → waiting t = None) → notified x (log q) = 1).
Proof.
  intros Hr Hx. pose proof (reachable_inv address address_fresh _ _ _ Hr) as Hc. simpl in Hc.
  pose proof (inv_notified _ _ (cinv_queue _ _ Hc) x) as Hn. rewrite decide_True in Hn by done.
  split; [lia|]. intros Ho Hw.
  assert (waiting_tags ts = ∅) as Hw'.
  { apply set_eq. intros t. unfold waiting_tags. rewrite elem_of_list_to_set, list_elem_of_omap.
    split; [|set_solver]. intros (u & Hu & Hu'). by rewrite (Hw u Hu) in Hu'. }
  rewrite Ho, Hw', map_sum_zero in Hn; [lia|]. intros t op _. unfold waits_in.
  apply decide_False. set_solver.
Qed.

(** C22: an operation is notified at most once; and exactly once when gRPC owes no
    event and no thread is handling one, whether the operation completed, was cancelled,
    or was started after [Shutdown()]: no callback is lost. *)
Theorem operation_notified_once c n q ts x :
  reachable address c n (q, ts) → x < next_obj q →
  notified x (log q) ≤ 1 ∧
  (outstanding q = ∅ → (∀ t, t ∈ ts → waiting t = None) → notified x (log q) = 1).
Proof. apply notified_once. Qed.

(** Once [Shutdown()] has reached gRPC's queue no operation is handed to gRPC any
    more, so its queue drains: every later step keeps or shrinks the set of tags whose
    event is outstanding. *)
Lemma shutdown_drains c n q ts q' ts' :
  reachable address c n (q, ts) → step address (q, ts) (q', ts') →
  cq_shutdown q = true → cq_shutdown q' = true ∧ outstanding q' ⊆ outstanding q.
Proof.
  intros Hr Hs Hsh. pose proof (reachable_inv address address_fresh _ _ _ Hr) as Hc. simpl in Hc.
  inversion Hs as [q0 ts0 i t ch q1 t1 Hi Ht]; subst.
  pose proof (cinv_queue _ _ Hc) as Hq. pose proof (inv_shutdown _ _ Hq Hsh) as Hf.
  destruct t, ch; simpl in Ht; try (destruct os as [|o1 os]);
    try (destruct ops as [|op1 ops]); simplify_eq/=; try done.
  - destruct (issue o (client q)) as [c1|]; by simplify_eq/=.
  - destruct (StartOperation_spec address address_fresh o1 q _ Hq) as (q1 & os' & Hq1 & _ & He).
    rewrite Hq1 in Ht. simplify_eq/=.
    by rewrite (ext_cq_shutdown _ _ He), (ext_none _ _ He Hf).
  - case_bool_decide; simplify_eq/=. split; [done|set_solver].
  - by destruct (cq_shutdown q && _); simplify_eq/=.
  - unfold after in Ht. by destruct (FindOperation tag q); simplify_eq/=.
  - destruct (notify (kind op) ok r (client q)) as [[c0 os] b]. by simplify_eq/=.
  - destruct (StartOperation_spec address address_fresh o1 q _ Hq) as (q1 & os' & Hq1 & _ & He).
    rewrite Hq1 in Ht. simplify_eq/=.
    by rewrite (ext_cq_shutdown _ _ He), (ext_none _ _ He Hf).
  - unfold after, ForgetOperation in Ht. destruct (pending_ops_ q !! tag); [by simplify_eq/=|].
    unfold ThrowRuntimeError, ThrowException in Ht. by destruct have_exceptions; simplify_eq/=.
Qed.
End properties.

(** *** Requests *)
Section requests_properties.
Context {T : Type} `{Build} (grpc : StatusCode → Z) (code : nat → list request) (r0 : T).
#[local] Existing Instance requests.

(** Every request made was answered or is in flight. *)
Definition requests_inv (b : bool) (a : application T) (l s : list request) : Prop :=
  made a ≡ₚ (answers a).*1 ++ l ++ s.

Lemma requests_notified (a : application T) l s o ok r a' os d :
  made a ≡ₚ (answers a).*1 ++ o :: l ++ s →
  request_Notify grpc code o ok r a = (a', os, d) → made a' ≡ₚ (answers a').*1 ++ l ++ os ++ s.
Proof.
  intros Hm Hn. destruct o; simplify_eq/=;
    rewrite ?fmap_app; simpl; rewrite ?Hm, <- ?(assoc_L (++)); simpl; try done.
  by rewrite <- (assoc_L (++)), (Permutation_app_comm s).
Qed.

Lemma requests_invariant : client_invariant (H0 := requests grpc code r0) requests_inv.
Proof.
  unfold requests_inv. split; simpl.
  - intros b a l l' s s' Hl Hs ->. by rewrite Hl, Hs.
  - intros b a l s o ok r c' os d Hm Hn. by eapply requests_notified.
  - intros a l s o c' os d Hm Hn. eapply requests_notified; [|done]. rewrite Hm.
    by rewrite <- Permutation_middle.
  - intros a l s o ->. by rewrite <- Permutation_middle.
  - done.
  - intros b a l s o c' Hm [= <-]. simpl. rewrite Hm, <- !(assoc_L (++)). simpl.
    by rewrite (Permutation_app_comm s).
  - done.
Qed.

Definition no_requests : application T := mkApplication [] [] [] [].

(** C23: every RPC, timer and [RunAsync] functor is answered exactly once: at any time
    the requests made are those answered and those whose callback is still to come; when
    the queue is idle all were answered. *)
Theorem requests_answered_once (address : gset Z → Z) n q ts :
  (∀ X, address X ∉ X) →
  reachable (H0 := requests grpc code r0) address no_requests n (q, ts) →
  made (client q) ≡ₚ (answers (client q)).*1 ++ in_flight q ts ∧
  (outstanding q = ∅ → (∀ t, t ∈ ts → idle t) → made (client q) ≡ₚ (answers (client q)).*1).
Proof.
  intros Ha Hr.
  pose proof (client_invariant_reachable (H0 := requests grpc code r0) address Ha requests_inv
    requests_invariant no_requests n q ts (Permutation_refl []) Hr) as Hi.
  split; [exact Hi|]. intros Ho Ht. etrans; [exact Hi|].
  by rewrite (handed_idle (H0 := requests grpc code r0)),
    (to_start_idle (H0 := requests grpc code r0)), !(right_id_L [] (++)).
Qed.

(** What the requests [os] are answered after [Shutdown()], with those that their
    functors make: each answer comes before those of the requests of its functor. *)
Inductive cancelled : list request → list (request * answer T) → Prop :=
| cancelled_nil : cancelled [] []
| cancelled_rpc p os l :
    cancelled os l →
    cancelled (MakeUnaryRpc p :: os)
      ((MakeUnaryRpc p, Response (inl (mkStatus kCancelled "call cancelled"))) :: l)
| cancelled_timer p d os l :
    cancelled os l →
    cancelled (MakeDeadlineTimer p d :: os)
      ((MakeDeadlineTimer p d, Time (inl (mkStatus kCancelled "timer canceled"))) :: l)
| cancelled_functor f os l :
    cancelled (code f ++ os) l → cancelled (RunAsync f :: os) ((RunAsync f, Ran) :: l).

(** From [q] to [q'] the answers [l] were given and gRPC was not called. *)
Record answered_with (l : list (request * answer T)) (q q' : queue request (application T)) : Prop := {
  aw_shutdown : shutdown_ q' = true;
  aw_answers : answers (client q') = answers (client q) ++ l;
  aw_calls : calls (client q') = calls (client q);
  aw_pending : pending_ops_ q' = pending_ops_ q;
  aw_outstanding : outstanding q' = outstanding q;
}.

Lemma answered_with_trans l1 l2 q1 q2 q3 :
  answered_with l1 q1 q2 → answered_with l2 q2 q3 → answered_with (l1 ++ l2) q1 q3.
Proof. intros [? A ? ? ?] [? B ? ? ?]. split; try congruence. by rewrite B, A, <- (assoc_L (++)). Qed.

Notation alone_with := (alone (H0 := requests grpc code r0)).

(** One request after [Shutdown()]. *)
Lemma StartOperation_cancelled (address : gset Z → Z) o q :
  shutdown_ q = true →
  ∃ q1 os1 d, StartOperation (H0 := requests grpc code r0) address o q = Ret (q1, os1) ∧
    answered_with [(o, d)] q q1 ∧
    ∀ os l, cancelled (o :: os) l ↔ ∃ l', l = (o, d) :: l' ∧ cancelled (os1 ++ os) l'.
Proof.
  intros Hq. unfold StartOperation. simpl. rewrite Hq.
  destruct o as [p|p d|f]; simpl; eexists _, _, _; (split; [reflexivity|split; [by split|]]);
    (intros os l; split; [intros Hc; inversion Hc; by eexists|intros (l' & -> & Hc); by constructor]).
Qed.

Lemma cancelled_returns (address : gset Z → Z) os l q :
  cancelled os l → shutdown_ q = true →
  ∃ n q', alone_with address n (q, Starting os) = Some (q', Application) ∧ answered_with l q q'.
Proof.
  intros Hc. remember (length l) as k eqn:Hk. revert os l q Hk Hc.
  induction k as [|k IH]; intros os l q Hk Hc Hq.
  - destruct Hc; [|done..]. exists 1, q. split; [done|]. split; try done.
    by rewrite (right_id_L [] (++)).
  - destruct os as [|o os]; [by inversion Hc; subst|].
    destruct (StartOperation_cancelled address o q Hq) as (q1 & os1 & d & Hs & Ha & Hl).
    apply Hl in Hc as (l' & -> & Hc). injection Hk as Hk.
    destruct (IH (os1 ++ os) l' q1 Hk Hc (aw_shutdown _ _ _ Ha)) as (n & q' & Hn & Ha').
    exists (S n), q'. split; [|by apply (answered_with_trans [_] _ _ q1)].
    simpl alone. unfold thread_step. simpl. by rewrite Hs.
Qed.

Lemma returns_cancelled (address : gset Z → Z) n os q q' :
  shutdown_ q = true → alone_with address n (q, Starting os) = Some (q', Application) →
  ∃ l, cancelled os l ∧ answered_with l q q'.
Proof.
  revert os q. induction n as [|n IH]; intros os q Hq Hn; [done|].
  destruct os as [|o os].
  - exists []. assert (q' = q) as -> by (destruct n; simpl in Hn; by simplify_eq).
    split; [constructor|]. split; try done. by rewrite (right_id_L [] (++)).
  - destruct (StartOperation_cancelled address o q Hq) as (q1 & os1 & d & Hs & Ha & Hl).
    simpl alone in Hn. unfold thread_step in Hn. simpl in Hn. rewrite Hs in Hn. simpl in Hn.
    destruct (IH (os1 ++ os) q1 (aw_shutdown _ _ _ Ha) Hn) as (l & Hc & Ha').
    exists ((o, d) :: l). split; [apply Hl; by eexists|].
    by apply (answered_with_trans [_] _ _ q1).
Qed.

(** C24: after [Shutdown()] a new request is answered before the call that makes it
    returns: RPCs and timers with [kCancelled], and the functor of [RunAsync] is still
    run, its own requests being answered likewise; gRPC is not called.  The call returns
    if and only if the requests that the functors make in turn come to an end. *)
Theorem start_after_shutdown (address : gset Z → Z) o q l :
  shutdown_ q = true →
  (∃ n q', alone_with address n (q, Starting [o]) = Some (q', Application) ∧
     answers (client q') = answers (client q) ++ l ∧
     calls (client q') = calls (client q) ∧ outstanding q' = outstanding q)
  ↔ cancelled [o] l.
Proof.
  intros Hq. split.
  - intros (n & q' & Hn & Ha & _). destruct (returns_cancelled address n [o] q q' Hq Hn)
      as (l' & Hc & Ha'). rewrite (aw_answers _ _ _ Ha') in Ha. by apply app_inv_head in Ha as <-.
  - intros Hc. destruct (cancelled_returns address [o] l q Hc Hq) as (n & q' & Hn & Ha).
    exists n, q'. split; [exact Hn|]. by destruct Ha.
Qed.

(** A functor that calls [RunAsync] with itself, the usual way to poll: after [Shutdown()]
    the call never returns, each [Notify] being called by the one before. *)
Lemma rearming_never_returns (address : gset Z → Z) f q n :
  code f = [RunAsync f] → shutdown_ q = true →
  ∃ q', alone_with address n (q, Starting [RunAsync f]) = Some (q', Starting [RunAsync f]) ∧
    answered_with (replicate n (RunAsync f, Ran)) q q'.
Proof.
  intros Hf. revert q. induction n as [|n IH]; intros q Hq.
  - exists q. split; [done|]. split; try done. simpl. by rewrite (right_id_L [] (++)).
  - destruct (IH (emit (Notified (next_obj q) false) (set_client
      (make (code f) (deliver (RunAsync f) Ran (client q))) (new_operation (RunAsync f) q).2)))
      as (q' & Hn & Ha); [done|].
    exists q'. split.
    + rewrite <- Hn. simpl alone. unfold thread_step, StartOperation. simpl. rewrite Hq. simpl.
      by rewrite Hf, <- Hq.
    + by refine (answered_with_trans [_] _ q _ q' _ Ha).
Qed.
End requests_properties.

(** *** Examples *)

(** Three threads: the first makes requests and then shuts the queue down, the others are
    in [Run()]. *)
Definition example_result (v : nat) : rpc_result nat := mkRpcResult (mkGrpcStatus 0 "") v.
Definition example_code (f : nat) : list request :=
  match f with 7 => [MakeUnaryRpc 12] | _ => [] end.
Definition example_requests : Operations request (rpc_result nat) (application nat) :=
  requests StatusCode_to_int example_code 0.
(** A request of thread [i]. *)
Definition example_start (i : nat) (o : request) : list (nat * choice request (rpc_result nat)) :=
  [(i, Start o); (i, Go); (i, Go)].
Definition example_schedule : list (nat * choice request (rpc_result nat)) :=
  example_start 0 (MakeUnaryRpc 10) ++ example_start 0 (MakeDeadlineTimer 11 99) ++
  [(1, CallRun); (2, CallRun); (1, Event 0 true (example_result 5)); (1, Go)] ++
  example_start 0 (RunAsync 7) ++
  [(1, Go); (2, Event 2 true (example_result 0));
   (2, Go); (2, Go); (0, CallShutdown); (2, Go); (2, Go); (2, Go); (0, Go)].
(** The two threads finish, and the timer expires. *)
Definition example_drain : list (nat * choice request (rpc_result nat)) :=
  [(1, Go); (1, Go); (1, Go); (2, Go); (2, Event 1 true (example_result 0)); (2, Go); (2, Go);
   (2, Go); (2, Go); (2, Go); (2, ShutdownEvent); (1, ShutdownEvent)].

Lemma queue_never_fails_witness : ∃ q ts,
  reachable (H := example_build) (H0 := example_requests) fresh (no_requests (T := nat)) 3 (q, ts) ∧
  length (answers (client q)) = 3 ∧ ts !! 1 ≠ Some (Failed (Ret ())).
Proof.
  destruct (run_check (H := example_build) (H0 := example_requests) fresh
    (no_requests (T := nat)) 3 example_schedule (λ s, bool_decide (length (answers (client s.1)) = 3)))
    as (q & ts & Hr & Hp); [vm_compute; reflexivity|].
  exists q, ts. split; [exact Hr|]. split; [by apply bool_decide_eq_true in Hp|].
  apply (queue_never_fails (H := example_build) (H0 := example_requests) fresh
    (λ X, is_fresh X) _ _ _ _ _ _ Hr).
Defined.

Lemma operation_notified_once_witness : ∃ q ts,
  reachable (H := example_build) (H0 := example_requests) fresh (no_requests (T := nat)) 3 (q, ts) ∧
  notified 1 (log q) = 1.
Proof.
  destruct (run_check (H := example_build) (H0 := example_requests) fresh
    (no_requests (T := nat)) 3 (example_schedule ++ example_drain)
    (λ s, bool_decide (outstanding s.1 = ∅ ∧ 1 < next_obj s.1 ∧ Forall (λ t, waiting t = None) s.2)))
    as (q & ts & Hr & Hp); [vm_compute; reflexivity|].
  apply bool_decide_eq_true in Hp as (Ho & Hx & Hf). exists q, ts. split; [exact Hr|].
  apply (operation_notified_once (H := example_build) (H0 := example_requests) fresh
    (λ X, is_fresh X) _ _ _ _ _ Hr Hx); [exact Ho|]. by apply Forall_forall.
Defined.

Lemma shutdown_drains_witness : ∃ q ts q' ts',
  step (H := example_build) (H0 := example_requests) fresh (q, ts) (q', ts') ∧
  cq_shutdown q = true ∧ outstanding q' ⊆ outstanding q.
Proof.
  destruct (run_check (H := example_build) (H0 := example_requests) fresh
    (no_requests (T := nat)) 3 example_schedule
    (λ s, cq_shutdown s.1 && bool_decide (is_Some
      (config_step (H := example_build) (H0 := example_requests) fresh 0
        (Start (MakeUnaryRpc 13)) s))))
    as (q & ts & Hr & Hp); [vm_compute; reflexivity|].
  apply andb_true_iff in Hp as [Hsh Hp]. apply bool_decide_eq_true in Hp as [[q' ts'] Hst].
  apply config_step_step in Hst. exists q, ts, q', ts'. split; [exact Hst|]. split; [exact Hsh|].
  apply (shutdown_drains (H := example_build) (H0 := example_requests) fresh
    (λ X, is_fresh X) _ _ _ _ _ _ Hr Hst Hsh).
Defined.

Lemma requests_answered_once_witness : ∃ q ts,
  reachable (H := example_build) (H0 := example_requests) fresh (no_requests (T := nat)) 3 (q, ts) ∧
  length (made (client q)) = 4 ∧ made (client q) ≡ₚ (answers (client q)).*1.
Proof.
  destruct (run_check (H := example_build) (H0 := example_requests) fresh
    (no_requests (T := nat)) 3 (example_schedule ++ example_drain)
    (λ s, bool_decide (outstanding s.1 = ∅ ∧ length (made (client s.1)) = 4 ∧
       Forall idle s.2)))
    as (q & ts & Hr & Hp); [vm_compute; reflexivity|].
  apply bool_decide_eq_true in Hp as (Ho & Hx & Hf). exists q, ts. split; [exact Hr|].
  split; [done|]. apply (requests_answered_once (H := example_build) StatusCode_to_int
    example_code 0 fresh 3 q ts (λ X, is_fresh X) Hr); [exact Ho|]. by apply Forall_forall.
Defined.

Lemma start_after_shutdown_witness : ∃ n q',
  alone (H := example_build) (H0 := example_requests) fresh n
    (Shutdown_flag (queue_new (no_requests (T := nat))), Starting [RunAsync 7]) =
    Some (q', Application) ∧
  length (answers (client q')) = 2.
Proof.
  destruct (start_after_shutdown (H := example_build) StatusCode_to_int example_code 0 fresh
    (RunAsync 7) (Shutdown_flag (queue_new (no_requests (T := nat))))
    [(RunAsync 7, Ran);
     (MakeUnaryRpc 12, Response (inl (mkStatus kCancelled "call cancelled")))])
    as [_ Hr]; [reflexivity|].
  destruct Hr as (n & q' & Hn & Ha & _); [repeat constructor|].
  exists n, q'. split; [exact Hn|]. by rewrite Ha.
Defined.
