(* ===== verification/RpcFutures.v ===== *)
(** * The futures of the completion queue

    [CompletionQueue::MakeUnaryRpc] and [MakeDeadlineTimer] return futures: the operation in
    the queue owns the promise and [Notify] satisfies it, while the application attaches
    continuations, cancels and gets from other threads.  This file joins the machine of
    [CompletionQueue] with the critical sections of [SharedState]: a configuration of the
    queue whose application state is a heap of shared states, with the steps of what the
    application does with a future beside those of the queue. *)

From S2P Require Import Prelude Status Throw GrpcError SharedState CompletionQueue.

Set Default Proof Using "Type".

(** ** Calls and their promises

    A call of [MakeUnaryRpc], or of [MakeDeadlineTimer] with a deadline, and the functor that
    the application may attach to its future. *)
Record api_call := mkCall { deadline : option Z; functor : nat }.
(** The operation of a call: an [AsyncUnaryRpcFuture] or [AsyncTimerFuture]. *)
Record rpc_op := mkRpcOp { promise_ : nat; what : api_call }.
Global Instance api_call_eq_dec : EqDecision api_call.
Proof. solve_decision. Defined.
Global Instance rpc_op_eq_dec : EqDecision rpc_op.
Proof. solve_decision. Defined.

Section rpc_futures.
Context {T : Type} `{Build} (grpc : StatusCode → Z) (mv : answer T → answer T).
(** The functors of the application: the calls that functor [k] makes when the future holds
    [v]. *)
Context (code : nat → answer T → list api_call).

(** The continuation object of a future runs the functor of the call, the callback of its
    promise cancels the operation. *)
Abbreviation promise_state := (shared_state (answer T) () ()).

(** Where a thread is in [cancel()], with [is_ready()] false: before it loads [cancelled_],
    calls the callback, or stores [cancelled_]. *)
Inductive cancel_at := LoadCancelled | CallCallback | StoreCancelled.

(** [states]: the shared states; [plan]: the calls of the promises; [launched]: the promises
    whose operation was handed to gRPC; [returned]: those whose call has returned a future,
    [futures] those whose future is still valid, [attached] those with a continuation.
    [cancelling]: the threads in [cancel()], with the promise.  [alarms]: the timers whose
    callback has called [Cancel()], and whether the timer was still unsatisfied.  [due]: calls
    that a continuation, run by a thread of the application, has still to make.  [satisfied_with]: with what the promises were satisfied;
    [ran]: the continuations that ran, and with what value; [received]: what [get()]
    returned.  [escaped]: what a member function did instead of returning. *)
Record rpc_world := mkRpcWorld {
  states : gmap nat promise_state;
  plan : gmap nat api_call;
  launched : gset nat;
  returned : gset nat;
  futures : gset nat;
  attached : gset nat;
  cancelling : list (nat * cancel_at);
  alarms : list (nat * bool);
  due : list rpc_op;
  satisfied_with : gmap nat (answer T);
  ran : list (nat * answer T);
  received : list (nat * answer T);
  next_promise : nat;
  escaped : option (cxx ());
}.
Definition rpc_world_new : rpc_world := mkRpcWorld ∅ ∅ ∅ ∅ ∅ ∅ [] [] [] ∅ [] [] 0 None.

Definition set_state (p : nat) (s : promise_state) (w : rpc_world) : rpc_world :=
  mkRpcWorld (<[p := s]> (states w)) (plan w) (launched w) (returned w) (futures w) (attached w)
    (cancelling w) (alarms w) (due w) (satisfied_with w) (ran w) (received w) (next_promise w)
    (escaped w).
Definition record_launched (p : nat) (w : rpc_world) : rpc_world :=
  mkRpcWorld (states w) (plan w) ({[p]} ∪ launched w) (returned w) (futures w) (attached w)
    (cancelling w) (alarms w) (due w) (satisfied_with w) (ran w) (received w) (next_promise w)
    (escaped w).
Definition record_satisfied (p : nat) (v : answer T) (w : rpc_world) : rpc_world :=
  mkRpcWorld (states w) (plan w) (launched w) (returned w) (futures w) (attached w)
    (cancelling w) (alarms w) (due w) (<[p := v]> (satisfied_with w)) (ran w) (received w)
    (next_promise w) (escaped w).
Definition record_ran (p : nat) (v : answer T) (w : rpc_world) : rpc_world :=
  mkRpcWorld (states w) (plan w) (launched w) (returned w) (futures w) (attached w)
    (cancelling w) (alarms w) (due w) (satisfied_with w) (ran w ++ [(p, v)]) (received w)
    (next_promise w) (escaped w).
Definition record_received (p : nat) (v : answer T) (w : rpc_world) : rpc_world :=
  mkRpcWorld (states w) (plan w) (launched w) (returned w) (futures w ∖ {[p]}) (attached w)
    (cancelling w) (alarms w) (due w) (satisfied_with w) (ran w) (received w ++ [(p, v)])
    (next_promise w) (escaped w).
Definition return_future (p : nat) (w : rpc_world) : rpc_world :=
  mkRpcWorld (states w) (plan w) (launched w) ({[p]} ∪ returned w) ({[p]} ∪ futures w)
    (attached w) (cancelling w) (alarms w) (due w) (satisfied_with w) (ran w) (received w)
    (next_promise w) (escaped w).
Definition attach_to (p : nat) (w : rpc_world) : rpc_world :=
  mkRpcWorld (states w) (plan w) (launched w) (returned w) (futures w ∖ {[p]})
    ({[p]} ∪ attached w) (cancelling w) (alarms w) (due w) (satisfied_with w) (ran w)
    (received w) (next_promise w) (escaped w).
Definition set_cancelling (l : list (nat * cancel_at)) (w : rpc_world) : rpc_world :=
  mkRpcWorld (states w) (plan w) (launched w) (returned w) (futures w) (attached w) l (alarms w)
    (due w) (satisfied_with w) (ran w) (received w) (next_promise w) (escaped w).
Definition record_alarm (p : nat) (w : rpc_world) : rpc_world :=
  mkRpcWorld (states w) (plan w) (launched w) (returned w) (futures w) (attached w)
    (cancelling w) (alarms w ++ [(p, bool_decide (satisfied_with w !! p = None))]) (due w)
    (satisfied_with w) (ran w) (received w) (next_promise w) (escaped w).
Definition set_due (os : list rpc_op) (w : rpc_world) : rpc_world :=
  mkRpcWorld (states w) (plan w) (launched w) (returned w) (futures w) (attached w)
    (cancelling w) (alarms w) os (satisfied_with w) (ran w) (received w) (next_promise w)
    (escaped w).
Definition escape {A} (m : cxx A) (w : rpc_world) : rpc_world :=
  mkRpcWorld (states w) (plan w) (launched w) (returned w) (futures w) (attached w)
    (cancelling w) (alarms w) (due w) (satisfied_with w) (ran w) (received w) (next_promise w)
    (Some (_ ← m; Ret ())).

(** [std::make_shared<AsyncUnaryRpcFuture>()]: the operation with its promise. *)
Definition new_op (a : api_call) (w : rpc_world) : rpc_op * rpc_world :=
  (mkRpcOp (next_promise w) a,
   mkRpcWorld (<[next_promise w := shared_state_new (Some ())]> (states w))
     (<[next_promise w := a]> (plan w)) (launched w) (returned w) (futures w) (attached w)
     (cancelling w) (alarms w) (due w) (satisfied_with w) (ran w) (received w)
     (S (next_promise w)) (escaped w)).
Fixpoint new_ops (l : list api_call) (w : rpc_world) : list rpc_op * rpc_world :=
  match l with
  | [] => ([], w)
  | a :: l =>
      let '(o, w) := new_op a w in let '(os, w) := new_ops l w in (o :: os, w)
  end.

(** Functor [k] runs: it gets the value and makes its calls. *)
Definition run_functor (p k : nat) (s : promise_state) (w : rpc_world) : list rpc_op * rpc_world :=
  match get mv s with
  | Some (Ret (s', v)) => new_ops (code k v) (record_ran p v (set_state p s' w))
  | Some m => ([], escape m w)
  | None => ([], w)
  end.

(** ** The operations in the queue *)

(** [Notify]: what the promise is satisfied with. *)
Definition answer_of (o : rpc_op) (ok : bool) (r : rpc_result T) : answer T :=
  match deadline (what o) with
  | None => Response (AsyncUnaryRpcFuture_Notify grpc ok r)
  | Some d => Time (AsyncTimerFuture_Notify ok d)
  end.
(** [promise_.set_value(v)]: a continuation that is attached runs before it returns. *)
Definition satisfy_promise (o : rpc_op) (v : answer T) (w : rpc_world) : list rpc_op * rpc_world :=
  match states w !! promise_ o with
  | None => ([], escape (Undefined NullDereference : cxx ()) w)
  | Some s =>
      match set_value v s with
      | Ret (s', RunContinuation) =>
          run_functor (promise_ o) (functor (what o)) s' (record_satisfied (promise_ o) v w)
      | Ret (s', _) => ([], set_state (promise_ o) s' (record_satisfied (promise_ o) v w))
      | m => ([], escape m w)
      end
  end.
Definition rpc_Notify (o : rpc_op) (ok : bool) (r : rpc_result T) (w : rpc_world) :
    rpc_world * list rpc_op * bool :=
  let '(os, w) := satisfy_promise o (answer_of o ok r) w in (w, os, true).

(** A call by a thread of the application: one of a continuation that it has run, or a new
    one. *)
Definition issue_call (o : rpc_op) (w : rpc_world) : option rpc_world :=
  if decide (o ∈ due w) then Some (set_due (filter (λ o', o' ≠ o) (due w)) w)
  else if decide (promise_ o = next_promise w) then Some (new_op (what o) w).2
  else None.

(** ** What the application does with a future

    [GoOn i]: the thread number [i] of those in [cancel()] runs on. *)
Inductive future_call :=
| GetFuture (p : nat) | Then (p : nat) | Cancel (p : nat) | GoOn (i : nat) | Get (p : nat).

(** The callback of the promise: [AsyncTimerFuture] calls [Cancel()] on itself, the promise
    of an [AsyncUnaryRpcFuture] has the default callback, which does nothing. *)
Definition cancellation_callback (p : nat) (w : rpc_world) : rpc_world :=
  match plan w !! p with
  | Some (mkCall (Some _) _) => record_alarm p w
  | _ => w
  end.
(** The steps of [cancel()] after [is_ready()]; the thread is number [i]. *)
Definition cancel_step (i p : nat) (c : cancel_at) (s : promise_state) (w : rpc_world) :
    rpc_world :=
  match c with
  | LoadCancelled =>
      set_cancelling
        (if cancelled_ s then delete i (cancelling w)
         else <[i := (p, CallCallback)]> (cancelling w)) w
  | CallCallback =>
      match cancellation_callback_ s with
      | Some _ =>
          cancellation_callback p
            (set_cancelling (<[i := (p, StoreCancelled)]> (cancelling w)) w)
      | None => escape (Throw (application_error "bad_function_call") : cxx ()) w
      end
  | StoreCancelled =>
      set_state p (set_cancelled s) (set_cancelling (delete i (cancelling w)) w)
  end.

(** [None]: the thread blocks, or the future is not valid: [then()] and [get()] make it
    invalid, and are not called while another thread is in [cancel()]. *)
Definition do_future_call (f : future_call) (w : rpc_world) : option rpc_world :=
  match f with
  | GetFuture p =>
      s ← states w !! p;
      if decide (p ∉ returned w ∧ (p ∈ launched w ∨ is_Some (satisfied_with w !! p))) then
        Some (match mark_retrieved (Some s) with
              | Ret s' => return_future p (set_state p s' w)
              | m => escape m w
              end)
      else None
  | Then p =>
      s ← states w !! p;
      a ← plan w !! p;
      if decide (p ∈ futures w ∧ p ∉ (cancelling w).*1) then
        let s := (release_cancellation_callback s).2 in
        let w := attach_to p w in
        Some (match set_continuation () s with
              | Ret (s', RunContinuation) =>
                  let '(os, w) := run_functor p (functor a) s' w in set_due (due w ++ os) w
              | Ret (s', _) => set_state p s' w
              | m => escape m w
              end)
      else None
  | Cancel p =>
      s ← states w !! p;
      if decide (p ∈ futures w) then
        Some (if is_ready s then w else set_cancelling (cancelling w ++ [(p, LoadCancelled)]) w)
      else None
  | GoOn i =>
      '(p, c) ← cancelling w !! i;
      s ← states w !! p;
      Some (cancel_step i p c s w)
  | Get p =>
      s ← states w !! p;
      if decide (p ∈ futures w ∧ p ∉ (cancelling w).*1) then
        m ← get mv s;
        Some (match m with
              | Ret (s', v) => record_received p v (set_state p s' w)
              | m => escape m w
              end)
      else None
  end.
Definition future_step (w w' : rpc_world) : Prop := ∃ f, do_future_call f w = Some w'.

Lemma set_value_get v (s s' : promise_state) a : set_value v s = Ret (s', a) →
  get mv s' = Some (Ret (mkState (retrieved_ s') has_value (exception_ s') (continuation_ s')
    (cancelled_ s') (cancellation_callback_ s') (Some (mv v)), v)).
Proof.
  unfold set_value, ThrowFutureError. destruct (is_ready_unlocked s); [by destruct have_exceptions|].
  destruct (buffer_ s); simpl; [done|]. by intros [= <- <-].
Qed.

Context (response0 : T).
Global Instance rpc_futures : Operations rpc_op (rpc_result T) rpc_world := {
  notify := rpc_Notify;
  launch o := record_launched (promise_ o);
  cancel_op _ w := w;
  issue := issue_call;
  no_results := mkRpcResult (mkGrpcStatus (grpc kOk) "") response0;
}.
End rpc_futures.
Arguments rpc_world : clear implicits.

Lemma decide_removed p (X : gset nat) : bool_decide (p ∈ X ∖ {[p]}) = false.
Proof. apply bool_decide_false. set_solver. Qed.
Lemma decide_added p (X : gset nat) : bool_decide (p ∈ {[p]} ∪ X) = true.
Proof. apply bool_decide_true. set_solver. Qed.

Lemma decide_removed_ne p p' (X : gset nat) :
  p' ≠ p → bool_decide (p' ∈ X ∖ {[p]}) = bool_decide (p' ∈ X).
Proof. intros Hp. apply bool_decide_ext. set_solver. Qed.
Lemma decide_added_ne p p' (X : gset nat) :
  p' ≠ p → bool_decide (p' ∈ {[p]} ∪ X) = bool_decide (p' ∈ X).
Proof. intros Hp. apply bool_decide_ext. set_solver. Qed.

(** ** The invariant

    What the world knows of one promise. *)
Section promise_invariant.
Context {T : Type}.
Abbreviation promise_state := (shared_state (answer T) () ()).
Implicit Types (w : rpc_world T) (p : nat) (ids : list nat) (s : promise_state).

Definition values p (l : list (nat * answer T)) : list (answer T) :=
  omap (λ x, if decide (x.1 = p) then Some x.2 else None) l.

Record promise_view := mkView {
  v_state : option promise_state;
  v_returned : bool; v_future : bool; v_attached : bool;
  v_satisfied : option (answer T);
  v_ran : list (answer T); v_received : list (answer T);
}.
Definition view w p : promise_view :=
  mkView (states w !! p) (bool_decide (p ∈ returned w)) (bool_decide (p ∈ futures w))
    (bool_decide (p ∈ attached w)) (satisfied_with w !! p) (values p (ran w))
    (values p (received w)).

(** A future is valid once the call has returned it, until [then()] or [get()]; the callback
    of the promise stays until [then()]. *)
Record handles_ok s (ret fut att : bool) : Prop := {
  h_retrieved : retrieved_ s = true → ret = true;
  h_future : fut = true → ret = true ∧ att = false;
  h_attached : att = true → ret = true;
  h_callback : att = false → is_Some (cancellation_callback_ s);
}.

(** The promise of an operation in flight is not satisfied, and holds the continuation when
    one was attached; afterwards it is satisfied, and the continuation, when there is one, ran
    once, with the value. *)
Inductive view_ok : bool → promise_view → Prop :=
| view_in_flight s ret fut att :
    current_state_ s = not_ready → buffer_ s = None →
    (is_Some (continuation_ s) ↔ att = true) → handles_ok s ret fut att →
    view_ok true (mkView (Some s) ret fut att None [] [])
| view_done s v ret fut att recs :
    current_state_ s = has_value → (att = false → recs = [] → buffer_ s = Some v) →
    (is_Some (continuation_ s) → att = true) → handles_ok s ret fut att →
    recs = [] ∨ recs = [v] ∧ ret = true ∧ fut = false ∧ att = false →
    view_ok false (mkView (Some s) ret fut att (Some v) (if att then [v] else []) recs).

Definition unborn : promise_view := mkView None false false false None [] [].

(** The future that a thread is cancelling is valid. *)
Definition cancelling_ok w : Prop := Forall (λ x, x.1 ∈ futures w) (cancelling w).

(** [ids]: the promises of the operations in flight or about to be started. *)
Record rpc_ok w ids : Prop := {
  ok_escaped : escaped w = None;
  ok_cancelling : cancelling_ok w;
  ok_ids : NoDup ids;
  ok_views p : if decide (p < next_promise w) then view_ok (bool_decide (p ∈ ids)) (view w p)
               else p ∉ ids ∧ view w p = unborn;
}.

Lemma rpc_ok_born w ids p : rpc_ok w ids → is_Some (states w !! p) →
  p < next_promise w ∧ view_ok (bool_decide (p ∈ ids)) (view w p).
Proof.
  intros Hok Hs. pose proof (ok_views _ _ Hok p) as Hv. case_decide; [done|].
  destruct Hv as [_ Hv]. injection Hv as Hn. rewrite Hn in Hs. by destruct Hs.
Qed.

Lemma rpc_ok_perm w ids ids' : ids ≡ₚ ids' → rpc_ok w ids → rpc_ok w ids'.
Proof.
  intros Hp [He Hc Hn Hv]. split; [done|done|by rewrite <- Hp|]. intros p. specialize (Hv p).
  assert (bool_decide (p ∈ ids') = bool_decide (p ∈ ids)) as ->
    by (apply bool_decide_ext; by rewrite Hp).
  case_decide; [done|]. by rewrite <- Hp.
Qed.

(** A change to one promise. *)
Lemma rpc_ok_update w w' ids ids' p :
  rpc_ok w ids → p < next_promise w → escaped w' = None → cancelling_ok w' →
  next_promise w' = next_promise w →
  (∀ p', p' ≠ p → view w' p' = view w p') →
  NoDup ids' → (∀ p', p' ≠ p → p' ∈ ids' ↔ p' ∈ ids) →
  view_ok (bool_decide (p ∈ ids')) (view w' p) → rpc_ok w' ids'.
Proof.
  intros [_ _ _ Hv] Hp He Hc Hn Hvs Hnd Hids Hpv. split; [done|done|done|]. intros p'. rewrite Hn.
  destruct (decide (p' = p)) as [->|Hne]; [by rewrite decide_True|].
  specialize (Hv p'). rewrite (Hvs p' Hne).
  assert (bool_decide (p' ∈ ids') = bool_decide (p' ∈ ids)) as ->
    by (apply bool_decide_ext; auto).
  case_decide; [done|]. by rewrite Hids.
Qed.

(** The due calls are not part of the views. *)
Lemma rpc_ok_due w ids os : rpc_ok w ids → rpc_ok (set_due os w) ids.
Proof. by intros [He Hc Hn Hv]. Qed.

(** A change that the views do not show. *)
Lemma rpc_ok_same w w' ids :
  rpc_ok w ids → escaped w' = None → cancelling_ok w' → next_promise w' = next_promise w →
  (∀ p, view w' p = view w p) → rpc_ok w' ids.
Proof.
  intros [_ _ Hn Hv] He Hc Hx Hvs. split; [done|done|done|]. intros p. rewrite Hx, Hvs. apply Hv.
Qed.

(** The threads in [cancel()] keep their futures when that of [p] becomes invalid. *)
Lemma cancelling_others w p : cancelling_ok w → p ∉ (cancelling w).*1 →
  Forall (λ x, x.1 ∈ futures w ∖ {[p]}) (cancelling w).
Proof.
  unfold cancelling_ok. rewrite !Forall_forall. intros Hc Hp x Hx.
  apply elem_of_difference. split; [by apply Hc|]. intros <-%elem_of_singleton.
  apply Hp, list_elem_of_fmap. by exists x.
Qed.

Lemma values_app p (l l' : list (nat * answer T)) : values p (l ++ l') = values p l ++ values p l'.
Proof. apply omap_app. Qed.
Lemma values_one p p' (v : answer T) : values p [(p', v)] = if decide (p' = p) then [v] else [].
Proof. unfold values. simpl. by case_decide. Qed.

(** ** New operations *)
Lemma new_op_ok (a : api_call) w ids :
  rpc_ok w ids → rpc_ok (new_op a w).2 (next_promise w :: ids).
Proof.
  intros [He Hc Hn Hv]. split; simpl; [done|done| |].
  - constructor; [|done]. specialize (Hv (next_promise w)).
    rewrite decide_False in Hv by lia. by destruct Hv.
  - intros p. specialize (Hv p). destruct (decide (p = next_promise w)) as [->|Hne].
    + rewrite decide_True by lia. rewrite decide_False in Hv by lia. destruct Hv as [_ Hv].
      rewrite bool_decide_true by set_solver. unfold view in *. simpl. injection Hv as Hs H2 H3 H4 H5 H6 H7.
      rewrite lookup_insert_eq, H2, H3, H4, H5, H6, H7.
      apply view_in_flight; [done|done| |].
      * by split; [intros [? [=]]|].
      * split; [done|done|done|by eexists].
    + assert (view (new_op a w).2 p = view w p) as Hvw.
      { unfold view. simpl. by rewrite lookup_insert_ne. }
      simpl in Hvw. rewrite Hvw.
      assert (bool_decide (p ∈ next_promise w :: ids) = bool_decide (p ∈ ids)) as ->
        by (apply bool_decide_ext; set_solver).
      destruct (decide (p < next_promise w)), (decide (p < S (next_promise w))); try done; try lia.
      destruct Hv. split; [set_solver|done].
Qed.
Lemma new_ops_ok (l : list api_call) w ids os w' :
  rpc_ok w ids → new_ops l w = (os, w') → rpc_ok w' ((promise_ <$> os) ++ ids) ∧ due w' = due w.
Proof.
  revert w ids os. induction l as [|a l IH]; intros w ids os Hok Hn; simpl in Hn; [by simplify_eq|].
  destruct (new_ops l _) as [os1 w1] eqn:Hn1. simplify_eq/=.
  destruct (IH _ _ _ (new_op_ok a _ _ Hok) Hn1) as [Hok1 Hd]. split; [|done].
  eapply rpc_ok_perm; [|exact Hok1]. by rewrite <- Permutation_middle.
Qed.

Lemma view_fields w p st ret fut att sat rs recs :
  view w p = mkView st ret fut att sat rs recs →
  states w !! p = st ∧ bool_decide (p ∈ returned w) = ret ∧ bool_decide (p ∈ futures w) = fut ∧
  bool_decide (p ∈ attached w) = att ∧ satisfied_with w !! p = sat ∧ values p (ran w) = rs ∧
  values p (received w) = recs.
Proof. by intros [= -> -> -> -> -> -> ->]. Qed.

Lemma values_elem p v (l : list (nat * answer T)) : v ∈ values p l ↔ (p, v) ∈ l.
Proof.
  unfold values. rewrite list_elem_of_omap. split.
  - intros ([p' v'] & Hin & Hd). simpl in Hd. by case_decide; simplify_eq.
  - intros Hin. exists (p, v). split; [done|]. simpl. by rewrite decide_True.
Qed.

Lemma rpc_ok_used w ids p v : rpc_ok w ids → (p, v) ∈ ran w ∨ (p, v) ∈ received w →
  satisfied_with w !! p = Some v.
Proof.
  rewrite <- !values_elem. intros Hok Hin. pose proof (ok_views _ _ Hok p) as Hv.
  case_decide as Hp.
  - remember (view w p) as vw eqn:Hvw. symmetry in Hvw.
    destruct Hv as [|s1 v1 ret fut att recs _ _ _ _ Hr];
      apply view_fields in Hvw as (_ & _ & _ & _ & Hsat & Hran & Hrec); rewrite Hran, Hrec in Hin.
    + set_solver.
    + destruct att, Hr as [->|[-> _]]; set_solver.
  - destruct Hv as [_ Hv]. apply view_fields in Hv as (_ & _ & _ & _ & Hsat & Hran & Hrec).
    rewrite Hran, Hrec in Hin. set_solver.
Qed.

Lemma rpc_ok_once w ids p : rpc_ok w ids →
  length (values p (ran w)) + length (values p (received w)) ≤ 1.
Proof.
  intros Hok. pose proof (ok_views _ _ Hok p) as Hv. case_decide as Hp.
  - remember (view w p) as vw eqn:Hvw. symmetry in Hvw.
    destruct Hv as [|s1 v1 ret fut att recs _ _ _ _ Hr];
      apply view_fields in Hvw as (_ & _ & _ & _ & _ & -> & ->); [simpl; lia|].
    by destruct att, Hr as [->|(-> & _ & _ & ?)]; simpl; lia.
  - destruct Hv as [_ Hv]. apply view_fields in Hv as (_ & _ & _ & _ & _ & -> & ->). simpl. lia.
Qed.

(** ** Operations that are completed *)
Context `{Build} (grpc : StatusCode → Z) (mv : answer T → answer T).
Context (code : nat → answer T → list api_call).

Lemma run_functor_ok p k s s' v w ids os w' :
  get mv s = Some (Ret (s', v)) → rpc_ok (record_ran p v (set_state p s' w)) ids →
  run_functor mv code p k s w = (os, w') →
  rpc_ok w' ((promise_ <$> os) ++ ids) ∧ due w' = due w.
Proof. unfold run_functor. intros -> Hok Hn. by eapply new_ops_ok in Hok. Qed.

Lemma set_value_pending v s : current_state_ s = not_ready → buffer_ s = None →
  ∃ s', set_value v s = Ret (s', notify_now s) ∧ current_state_ s' = has_value ∧
    buffer_ s' = Some v ∧ continuation_ s' = continuation_ s ∧
    retrieved_ s' = retrieved_ s ∧ cancellation_callback_ s' = cancellation_callback_ s.
Proof.
  intros Hs Hb. unfold set_value. rewrite (proj2 (is_ready_false s) Hs), Hb. simpl.
  by eexists; split_and!.
Qed.

(** A view of another promise is not changed. *)
Ltac other_view := intros ? ?; unfold view; simpl;
  rewrite ?lookup_insert_ne, ?values_app, ?values_one, ?decide_False, ?app_nil_r,
    ?decide_removed_ne, ?decide_added_ne by done; done.

Lemma satisfy_promise_ok o v w ids os w' :
  rpc_ok w (promise_ o :: ids) → satisfy_promise mv code o v w = (os, w') →
  rpc_ok w' ((promise_ <$> os) ++ ids) ∧ due w' = due w.
Proof.
  intros Hok Hs. pose proof (ok_ids _ _ Hok) as [Hni Hnd]%NoDup_cons.
  pose proof (ok_views _ _ Hok (promise_ o)) as Hv. case_decide as Hp; [|set_solver].
  rewrite bool_decide_true in Hv by set_solver.
  remember true as b eqn:Hb. remember (view w (promise_ o)) as vw eqn:Hvw. symmetry in Hvw.
  destruct Hv as [s ret fut att Hc Hbuf Hk Hh|]; [|done].
  apply view_fields in Hvw as (Hst & Hr & Hf & Ha & Hsat & Hran & Hrec).
  unfold satisfy_promise in Hs. rewrite Hst in Hs.
  destruct (set_value_pending v s Hc Hbuf) as (s' & Hsv & Hc' & Hb' & Hk' & Hr' & Hcb').
  rewrite Hsv in Hs. unfold notify_now in Hs. destruct (continuation_ s) as [k|] eqn:Hks.
  - eapply (run_functor_ok _ _ _ _ v (record_satisfied (promise_ o) v w));
      [by eapply set_value_get| |exact Hs].
    assert (att = true) as -> by (apply Hk; by eexists).
    eapply (rpc_ok_update w _ _ _ (promise_ o)); [exact Hok|done|by apply ok_escaped in Hok|by apply ok_cancelling in Hok|done| |done|set_solver|].
    + other_view.
    + rewrite bool_decide_false by done. unfold view. simpl.
      rewrite !lookup_insert_eq, values_app, values_one, decide_True, Hr, Hf, Ha, Hran, Hrec by done.
      apply (view_done _ v _ _ true); [done|done|done| |by left]. destruct Hh. by split; rewrite ?Hr', ?Hcb'.
  - injection Hs as <- <-. split; [|done].
    assert (att = false) as -> by (destruct att; [|done]; by destruct (proj2 Hk eq_refl)).
    eapply (rpc_ok_update w _ _ _ (promise_ o)); [exact Hok|done|by apply ok_escaped in Hok|by apply ok_cancelling in Hok|done| |done|set_solver|].
    + other_view.
    + rewrite bool_decide_false by done. unfold view. simpl.
      rewrite !lookup_insert_eq, Hr, Hf, Ha, Hran, Hrec by done.
      apply (view_done _ v _ _ false); [done|done|rewrite Hk'; by intros []| |by left].
      destruct Hh. by split; rewrite ?Hr', ?Hcb'.
Qed.

(** ** What the application does *)
Lemma rpc_ok_change w w' ids p :
  rpc_ok w ids → is_Some (states w !! p) → escaped w' = None → cancelling_ok w' →
  next_promise w' = next_promise w →
  (∀ p', p' ≠ p → view w' p' = view w p') →
  (∀ b, view_ok b (view w p) → view_ok b (view w' p)) → rpc_ok w' ids.
Proof.
  intros Hok Hs He Hc Hn Ho Hv. destruct (rpc_ok_born _ _ _ Hok Hs).
  eapply (rpc_ok_update w _ ids ids p); eauto; try done. by apply ok_ids in Hok.
Qed.

Definition handles w p s : Prop :=
  handles_ok s (bool_decide (p ∈ returned w)) (bool_decide (p ∈ futures w))
    (bool_decide (p ∈ attached w)).
Lemma view_cases w p s b : view_ok b (view w p) → states w !! p = Some s →
  handles w p s ∧
  (b = true ∧ current_state_ s = not_ready ∧ buffer_ s = None ∧
     (is_Some (continuation_ s) ↔ bool_decide (p ∈ attached w) = true) ∧
     satisfied_with w !! p = None ∧ values p (ran w) = [] ∧ values p (received w) = [] ∨
   ∃ v, b = false ∧ current_state_ s = has_value ∧ satisfied_with w !! p = Some v ∧
     (bool_decide (p ∈ attached w) = false → values p (received w) = [] → buffer_ s = Some v) ∧
     (is_Some (continuation_ s) → bool_decide (p ∈ attached w) = true) ∧
     values p (ran w) = (if bool_decide (p ∈ attached w) then [v] else []) ∧
     (values p (received w) = [] ∨ values p (received w) = [v] ∧
        bool_decide (p ∈ returned w) = true ∧ bool_decide (p ∈ futures w) = false ∧
        bool_decide (p ∈ attached w) = false)).
Proof.
  intros Hv Hs. unfold handles. remember (view w p) as vw eqn:Hvw. symmetry in Hvw.
  destruct Hv as [s1 ret fut att Hc Hb Hk Hh|s1 v ret fut att recs Hc Hb Hk Hh Hr];
    apply view_fields in Hvw as (Hst & -> & -> & -> & -> & -> & ->); simplify_eq; split; [done| |done|].
  - left. by split_and!.
  - right. exists v. by split_and!.
Qed.

Lemma GetFuture_ok p w w' ids :
  rpc_ok w ids → do_future_call mv code (GetFuture p) w = Some w' → rpc_ok w' ids ∧ due w' = due w.
Proof.
  intros Hok Hs. simpl in Hs. destruct (states w !! p) as [s|] eqn:Hst; [|done]. simpl in Hs.
  destruct (decide _) as [[Hret _]|]; [|done]. injection Hs as <-.
  assert (retrieved_ s = false) as Hrs.
  { destruct (rpc_ok_born _ _ p Hok) as [_ Hv]; [by eexists|].
    destruct (view_cases _ _ _ _ Hv Hst) as [Hh _]. pose proof (h_retrieved _ _ _ _ Hh) as Hr.
    rewrite bool_decide_false in Hr by done. destruct (retrieved_ s); naive_solver. }
  unfold mark_retrieved. rewrite Hrs. split; [|done].
  eapply (rpc_ok_change w);
    [exact Hok|by eexists|by apply ok_escaped in Hok| |done|other_view|].
  { eapply Forall_impl; [by apply ok_cancelling in Hok|]. simpl. intros x. clear. set_solver. }
  intros b Hv. destruct (view_cases _ _ _ _ Hv Hst) as [[_ _ Ha Hcb] Hc]. unfold view. simpl.
  rewrite lookup_insert_eq, !decide_added.
  rewrite (bool_decide_false (p ∈ returned w)) in * by done.
  assert (bool_decide (p ∈ attached w) = false) as Hatt
    by (apply not_true_is_false; intros Ht; by apply Ha in Ht).
  rewrite Hatt in *.
  destruct Hc as [(-> & Hc & Hb & Hk & -> & -> & ->)|(v & -> & Hc & -> & Hb & Hk & -> & [Hr|Hr])].
  - by apply view_in_flight.
  - rewrite Hr. apply (view_done _ v _ _ false); [done|by auto|done|by split|by left].
  - by destruct Hr as (_ & ? & _).
Qed.

(** What a valid future says of its state. *)
Lemma valid_future w ids p s :
  rpc_ok w ids → states w !! p = Some s → p ∈ futures w →
  bool_decide (p ∈ returned w) = true ∧ bool_decide (p ∈ attached w) = false ∧
  continuation_ s = None ∧ is_Some (cancellation_callback_ s) ∧
  (current_state_ s = not_ready ∨ ∃ v, current_state_ s = has_value ∧ buffer_ s = Some v ∧
     satisfied_with w !! p = Some v ∧ values p (received w) = []).
Proof.
  intros Hok Hst Hf. destruct (rpc_ok_born _ _ p Hok) as [_ Hv]; [by eexists|].
  destruct (view_cases _ _ _ _ Hv Hst) as [[_ Hfu _ Hcb] Hc].
  destruct (Hfu ltac:(by apply bool_decide_true)) as [Hr Ha]. rewrite Ha in *.
  split_and!; [done|done| |by apply Hcb|].
  - destruct (continuation_ s) as [c|]; [|done].
    destruct Hc as [(_ & _ & _ & Hk & _)|(v & _ & _ & _ & _ & Hk & _)];
      [discriminate (proj1 Hk ltac:(by eexists))|discriminate (Hk ltac:(by eexists))].
  - destruct Hc as [(_ & Hc & _)|(v & _ & Hc & Hs & Hb & _ & _ & [Hrec|(_ & _ & Hnf & _)])];
      [by left| |by rewrite bool_decide_true in Hnf]. right. exists v. by auto.
Qed.

Lemma set_cancelled_ok p s w ids :
  rpc_ok w ids → states w !! p = Some s → rpc_ok (set_state p (set_cancelled s) w) ids.
Proof.
  intros Hok Hst. eapply (rpc_ok_change w);
    [exact Hok|by eexists|by apply ok_escaped in Hok|by apply ok_cancelling in Hok|done|other_view|].
  intros b Hv. destruct (view_cases _ _ _ _ Hv Hst) as [[] Hc]. unfold view. simpl.
  rewrite lookup_insert_eq.
  destruct Hc as [(-> & Hc & Hb & Hk & -> & -> & ->)|(v & -> & Hc & -> & Hb & Hk & -> & Hr)].
  - by apply view_in_flight.
  - by apply view_done.
Qed.

Lemma set_cancelling_ok w ids l :
  rpc_ok w ids → Forall (λ x, x.1 ∈ futures w) l → rpc_ok (set_cancelling l w) ids.
Proof. intros Hok Hl. apply (rpc_ok_same w); try done. by apply ok_escaped in Hok. Qed.

Lemma cancellation_callback_ok p w ids : rpc_ok w ids → rpc_ok (cancellation_callback p w) ids.
Proof.
  intros Hok. unfold cancellation_callback. destruct (plan w !! p) as [[[d|] k]|]; try done.
  apply (rpc_ok_same w); try done; [by apply ok_escaped in Hok|by apply ok_cancelling in Hok].
Qed.

Lemma cancellation_callback_due p w : due (cancellation_callback p w) = due w.
Proof. unfold cancellation_callback. by destruct (plan w !! p) as [[[d|] k]|]. Qed.

Lemma Cancel_ok p w w' ids :
  rpc_ok w ids → do_future_call mv code (Cancel p) w = Some w' → rpc_ok w' ids ∧ due w' = due w.
Proof.
  intros Hok Hs. simpl in Hs. destruct (states w !! p) as [s|] eqn:Hst; [|done]. simpl in Hs.
  destruct (decide (p ∈ futures w)) as [Hf|]; [|done]. injection Hs as <-.
  destruct (is_ready s); [done|]. split; [|done]. apply set_cancelling_ok; [done|].
  apply Forall_app. split; [by apply ok_cancelling in Hok|by constructor].
Qed.

Lemma GoOn_ok i w w' ids :
  rpc_ok w ids → do_future_call mv code (GoOn i) w = Some w' → rpc_ok w' ids ∧ due w' = due w.
Proof.
  intros Hok Hs. simpl in Hs. destruct (cancelling w !! i) as [[p c]|] eqn:Hi; [|done]. simpl in Hs.
  destruct (states w !! p) as [s|] eqn:Hst; [|done]. injection Hs as <-.
  pose proof (ok_cancelling _ _ Hok) as Hall.
  assert (p ∈ futures w) as Hf by exact (Forall_lookup_1 _ _ _ _ Hall Hi).
  destruct (valid_future _ _ _ _ Hok Hst Hf) as (_ & _ & _ & [cb Hcb] & _).
  destruct c; simpl.
  - split; [|done]. apply set_cancelling_ok; [done|].
    destruct (cancelled_ s); [by apply Forall_delete|by apply Forall_insert].
  - rewrite Hcb. split; [|by rewrite cancellation_callback_due].
    apply cancellation_callback_ok, set_cancelling_ok; [done|by apply Forall_insert].
  - split; [|done]. apply set_cancelled_ok; [|done].
    apply set_cancelling_ok; [done|by apply Forall_delete].
Qed.

Lemma Get_ok p w w' ids :
  rpc_ok w ids → do_future_call mv code (Get p) w = Some w' → rpc_ok w' ids ∧ due w' = due w.
Proof.
  intros Hok Hs. simpl in Hs. destruct (states w !! p) as [s|] eqn:Hst; [|done]. simpl in Hs.
  destruct (decide _) as [[Hf Hnc]|]; [|done].
  destruct (valid_future _ _ _ _ Hok Hst Hf) as (Hr & Ha & _ & _ & Hc).
  unfold get in Hs. destruct Hc as [Hc|(v & Hc & Hb & Hsat & Hrec)].
  { by rewrite (proj2 (is_ready_false s) Hc) in Hs. }
  rewrite (proj2 (is_ready_true s)), bool_decide_false, Hb in Hs by congruence.
  injection Hs as <-. split; [|done].
  eapply (rpc_ok_change w); [exact Hok|by eexists|by apply ok_escaped in Hok|
    exact (cancelling_others w p (ok_cancelling _ _ Hok) Hnc)|done|other_view|].
  intros b Hv. destruct (view_cases _ _ _ _ Hv Hst) as [[Hret _ _ Hcb] Hk]. unfold view. simpl.
  rewrite lookup_insert_eq, values_app, values_one, decide_True, Hrec by done.
  rewrite decide_removed, Ha, Hr, Hsat in *.
  destruct Hk as [(_ & ? & _)|(v' & -> & _ & [= <-] & Hb' & Hk & -> & _)]; [congruence|].
  apply (view_done _ v _ _ false); [done|done|done|by split|by right].
Qed.

(** [then()] before and after the promise is satisfied. *)
Lemma Then_pending_ok p s w ids :
  rpc_ok w ids → states w !! p = Some s → p ∈ futures w → p ∉ (cancelling w).*1 →
  current_state_ s = not_ready →
  rpc_ok (set_state p (mkState (retrieved_ s) (current_state_ s) (exception_ s) (Some ())
    (cancelled_ s) None (buffer_ s)) (attach_to p w)) ids.
Proof.
  intros Hok Hst Hf Hnc Hc. destruct (valid_future _ _ _ _ Hok Hst Hf) as (Hr & Ha & _ & _ & _).
  eapply (rpc_ok_change w); [exact Hok|by eexists|by apply ok_escaped in Hok|
    exact (cancelling_others w p (ok_cancelling _ _ Hok) Hnc)|done|other_view|].
  intros b Hv. destruct (view_cases _ _ _ _ Hv Hst) as [[Hret _ _ Hcb] Hk]. unfold view. simpl.
  rewrite lookup_insert_eq, Hr in *.
  rewrite decide_removed, decide_added.
  destruct Hk as [(-> & _ & Hb & _ & -> & -> & ->)|(v' & _ & ? & _)]; [|congruence].
  by apply view_in_flight.
Qed.

Lemma Then_ready_ok p s s1 v w ids :
  rpc_ok w ids → states w !! p = Some s → p ∈ futures w → p ∉ (cancelling w).*1 →
  current_state_ s = has_value →
  satisfied_with w !! p = Some v → values p (received w) = [] →
  current_state_ s1 = has_value → continuation_ s1 = None → retrieved_ s1 = retrieved_ s →
  rpc_ok (record_ran p v (set_state p s1 (attach_to p w))) ids.
Proof.
  intros Hok Hst Hf Hnc Hc Hsat Hrec Hc1 Hk1 Hr1.
  destruct (valid_future _ _ _ _ Hok Hst Hf) as (Hr & Ha & _ & _ & _).
  eapply (rpc_ok_change w); [exact Hok|by eexists|by apply ok_escaped in Hok|
    exact (cancelling_others w p (ok_cancelling _ _ Hok) Hnc)|done|other_view|].
  intros b Hv. destruct (view_cases _ _ _ _ Hv Hst) as [[Hret _ _ Hcb] Hk]. unfold view. simpl.
  rewrite lookup_insert_eq, values_app, values_one, decide_True, Hr, Ha, Hrec, Hsat in * by done.
  rewrite decide_removed, decide_added.
  destruct Hk as [(_ & ? & _)|(v' & -> & _ & [= <-] & Hb' & _ & -> & _)]; [congruence|].
  apply (view_done s1 v _ _ true); [done|done|done| |by left].
  split; [by rewrite Hr1|done|done|done].
Qed.

Lemma Then_ok p w w' ids :
  rpc_ok w (ids ++ (promise_ <$> due w)) → do_future_call mv code (Then p) w = Some w' →
  rpc_ok w' (ids ++ (promise_ <$> due w')).
Proof.
  intros Hok Hs. simpl in Hs.
  destruct (states w !! p) as [s|] eqn:Hst; [|done].
  destruct (plan w !! p) as [[d k]|]; [|done]. simpl in Hs.
  destruct (decide _) as [[Hf Hnc]|]; [|done]. injection Hs as <-.
  destruct (valid_future _ _ _ _ Hok Hst Hf) as (_ & _ & Hk & _ & Hc).
  set (s0 := mkState (retrieved_ s) (current_state_ s) (exception_ s) (continuation_ s)
    (cancelled_ s) None (buffer_ s)).
  unfold set_continuation. rewrite (Hk : continuation_ s0 = None).
  destruct Hc as [Hc|(v & Hc & Hb & Hsat & Hrec)].
  - rewrite (proj2 (is_ready_false s0) Hc). exact (Then_pending_ok p s w _ Hok Hst Hf Hnc Hc).
  - assert (is_ready_unlocked s0 = true) as Hrd
      by (apply is_ready_true; change (current_state_ s ≠ not_ready); congruence).
    rewrite Hrd. destruct (run_functor mv code p k s0 (attach_to p w)) as [os w1] eqn:Hrun.
    assert (∃ s1, get mv s0 = Some (Ret (s1, v)) ∧ current_state_ s1 = has_value ∧
      continuation_ s1 = None ∧ retrieved_ s1 = retrieved_ s) as (s1 & Hg & Hc1 & Hk1 & Hr1).
    { unfold get. rewrite Hrd. simpl. rewrite bool_decide_false, Hb by congruence.
      eexists. by split_and!. }
    pose proof (Then_ready_ok p s s1 v w _ Hok Hst Hf Hnc Hc Hsat Hrec Hc1 Hk1 Hr1) as Hok1.
    destruct (run_functor_ok _ _ _ _ _ _ _ _ _ Hg Hok1 Hrun) as [Hok2 ->].
    simpl. apply rpc_ok_due. eapply rpc_ok_perm; [|exact Hok2].
    rewrite fmap_app. by rewrite Permutation_app_comm, <- (assoc_L (++)).
Qed.

(** ** The invariant in the queue *)
Definition rpc_inv (b : bool) w (l s : list rpc_op) : Prop :=
  rpc_ok w (promise_ <$> l ++ s ++ due w).

Lemma rpc_inv_notified w (l1 l2 l s : list rpc_op) o ok r w' os completed :
  l1 ++ l2 ≡ₚ o :: l ++ s → rpc_ok w (promise_ <$> l1 ++ l2 ++ due w) →
  rpc_Notify grpc mv code o ok r w = (w', os, completed) →
  rpc_ok w' (promise_ <$> l ++ (os ++ s) ++ due w').
Proof.
  unfold rpc_Notify. intros Hp Hok Hn.
  destruct (satisfy_promise mv code o _ w) as [os1 w1] eqn:Hs. simplify_eq.
  eapply (rpc_ok_perm _ _ (promise_ <$> o :: l ++ s ++ due w)) in Hok.
  2: { apply fmap_Permutation. rewrite (assoc_L (++)), Hp. simpl. by rewrite (assoc_L (++)). }
  rewrite fmap_cons in Hok. destruct (satisfy_promise_ok o _ w _ _ _ Hok Hs) as [Hok' ->].
  eapply rpc_ok_perm; [|exact Hok']. rewrite <- fmap_app. apply fmap_Permutation.
  rewrite !(assoc_L (++)). by rewrite (Permutation_app_comm l).
Qed.

Lemma filter_other (o : rpc_op) l : NoDup l → o ∈ l → l ≡ₚ o :: filter (λ o', o' ≠ o) l.
Proof.
  intros Hn Ho. apply NoDup_Permutation; [done| |].
  - constructor; [rewrite list_elem_of_filter; naive_solver|by apply NoDup_filter].
  - intros x. rewrite elem_of_cons, list_elem_of_filter. destruct (decide (x = o)); naive_solver.
Qed.

Lemma issue_call_ok w (l s : list rpc_op) o w' :
  rpc_ok w (promise_ <$> l ++ s ++ due w) → issue_call o w = Some w' →
  rpc_ok w' (promise_ <$> l ++ (o :: s) ++ due w').
Proof.
  unfold issue_call. intros Hok Hi. simpl. destruct (decide (o ∈ due w)) as [Hd|].
  - injection Hi as <-. apply rpc_ok_due. eapply rpc_ok_perm; [|exact Hok].
    pose proof (ok_ids _ _ Hok) as Hn. apply NoDup_fmap_1 in Hn.
    apply NoDup_app in Hn as (_ & _ & Hn). apply NoDup_app in Hn as (_ & _ & Hn).
    apply fmap_Permutation. simpl. by rewrite (filter_other o (due w)), <- Permutation_middle at 1.
  - destruct (decide (promise_ o = next_promise w)) as [Hp|]; [|done]. injection Hi as <-.
    eapply rpc_ok_perm; [|by apply (new_op_ok (what o))]. simpl. rewrite <- Permutation_middle.
    simpl. by rewrite Hp.
Qed.

Lemma rpc_invariant response0 :
  client_invariant (H0 := rpc_futures grpc mv code response0) rpc_inv.
Proof.
  unfold rpc_inv. split.
  - intros b w l l' s s' Hl Hs. apply rpc_ok_perm. by rewrite Hl, Hs.
  - intros b w l s o ok r w' os d Hok Hn. by eapply (rpc_inv_notified w (o :: l) s l s o ok r w' os d).
  - intros w l s o w' os d Hok Hn. eapply (rpc_inv_notified w l (o :: s)); [|done|exact Hn].
    symmetry. apply Permutation_middle.
  - intros w l s o Hok. apply (rpc_ok_same w); try done.
    + eapply rpc_ok_perm; [|exact Hok]. apply fmap_Permutation. symmetry.
      apply Permutation_middle.
    + by apply ok_escaped in Hok.
    + by apply ok_cancelling in Hok.
  - done.
  - intros b w l s o w'. apply issue_call_ok.
  - done.
Qed.

Lemma future_step_ok b w w' (l s : list rpc_op) :
  rpc_inv b w l s → future_step mv code w w' → rpc_inv b w' l s.
Proof.
  unfold rpc_inv. intros Hok [f Hf]. rewrite (assoc_L (++)), fmap_app in *.
  destruct f as [p|p|p|i|p];
    [eapply GetFuture_ok in Hf as [? ->]|eapply Then_ok in Hf|eapply Cancel_ok in Hf as [? ->]
    |eapply GoOn_ok in Hf as [? ->]|eapply Get_ok in Hf as [? ->]]; eauto.
Qed.

Lemma rpc_inv_new : rpc_inv false rpc_world_new [] [].
Proof. split; [done|by constructor|constructor|]. intros p. rewrite decide_False by (simpl; lia). split; [set_solver|done]. Qed.

Lemma rpc_ok_satisfied w ids p : rpc_ok w ids → p < next_promise w →
  (satisfied_with w !! p = None ↔ p ∈ ids) ∧
  (∀ v, satisfied_with w !! p = Some v → p ∈ attached w → (p, v) ∈ ran w) ∧
  (p ∈ futures w → p ∉ (cancelling w).*1 →
   is_Some (do_future_call mv code (Get p) w) ↔ is_Some (satisfied_with w !! p)).
Proof.
  intros Hok Hp. pose proof (ok_views _ _ Hok p) as Hv. rewrite decide_True in Hv by done.
  assert (is_Some (states w !! p)) as [s Hs].
  { remember (view w p) as vw eqn:Hvw. symmetry in Hvw.
    destruct Hv; apply view_fields in Hvw as (-> & _); by eexists. }
  destruct (view_cases _ _ _ _ Hv Hs) as [_ [(Hb & Hc & _ & _ & -> & _ & _)|
    (v & Hb & Hc & -> & _ & _ & Hr & _)]].
  - apply bool_decide_eq_true in Hb. split_and!; [done|done|]. intros Hf Hnc. simpl. rewrite Hs. simpl.
    rewrite decide_True by done. unfold get. rewrite (proj2 (is_ready_false s) Hc). simpl.
    by split; intros [? ?].
  - apply bool_decide_eq_false in Hb. split_and!; [by split|intros v' [= ->] Ha|].
    + apply values_elem. rewrite Hr, bool_decide_true by done. by left.
    + intros Hf Hnc. simpl. rewrite Hs. simpl. rewrite decide_True by done. unfold get.
      rewrite (proj2 (is_ready_true s)) by congruence. simpl. by split; eexists.
Qed.
End promise_invariant.

Section properties.
Context {T : Type} `{Build} (grpc : StatusCode → Z) (mv : answer T → answer T).
Context (code : nat → answer T → list api_call).
Context (response0 : T).
#[local] Existing Instance rpc_futures.
Context (address : gset Z → Z) (address_fresh : ∀ X, address X ∉ X).
Set Default Proof Using "All".

(** C25: whatever the threads of the queue and of the application do with any number of RPCs
    and timers, with any functors, no thread fails and no member function of a promise or
    future throws; a continuation runs at most once, [get()] returns at most once and never
    beside a continuation, both with the value of the promise; a promise is unsatisfied
    exactly while its operation is in the queue or about to be started; a continuation
    attached to a satisfied promise has run, and [get()] blocks exactly until the promise is
    satisfied (and no thread is in [cancel()]); so when the queue is idle and no call is due
    every promise is satisfied.  [cancel()] is taken apart into its test, its load, its
    callback and its store, with steps of all other threads in between. *)
Theorem rpc_futures_answered n q ts :
  sys_reachable (H0 := rpc_futures grpc mv code response0) address
    (future_step mv code) rpc_world_new n (q, ts) →
  let w := client q in
  (∀ i m, ts !! i ≠ Some (Failed m)) ∧ escaped w = None ∧
  (∀ p v, (p, v) ∈ ran w ∨ (p, v) ∈ received w → satisfied_with w !! p = Some v) ∧
  (∀ p, length (values p (ran w)) + length (values p (received w)) ≤ 1) ∧
  (∀ p, p < next_promise w →
    (satisfied_with w !! p = None ↔ p ∈ promise_ <$> in_flight q ts ++ due w) ∧
    (∀ v, satisfied_with w !! p = Some v → p ∈ attached w → (p, v) ∈ ran w) ∧
    (p ∈ futures w → p ∉ (cancelling w).*1 →
     is_Some (do_future_call mv code (Get p) w) ↔ is_Some (satisfied_with w !! p))) ∧
  (outstanding q = ∅ → (∀ t, t ∈ ts → idle t) → due w = [] →
   ∀ p, p < next_promise w → is_Some (satisfied_with w !! p)).
Proof.
  intros Hr w.
  assert (config_holds rpc_inv q ts) as [Hc Hok].
  { eapply sys_invariant_reachable; [exact address_fresh|apply rpc_invariant| |exact rpc_inv_new|exact Hr].
    intros. by eapply future_step_ok. }
  unfold rpc_inv in Hok. rewrite (assoc_L (++)) in Hok. split_and!.
  - intros i m Hi. apply list_elem_of_lookup_2 in Hi. by destruct (cinv_threads _ _ Hc _ Hi).
  - by apply ok_escaped in Hok.
  - intros p v. by apply (rpc_ok_used _ _ _ _ Hok).
  - intros p. by apply (rpc_ok_once _ _ _ Hok).
  - intros p Hp. by apply (rpc_ok_satisfied _ _ _ _ _ Hok).
  - intros Ho Ht Hd p Hp. destruct (rpc_ok_satisfied mv code _ _ _ Hok Hp) as [Hn _].
    rewrite (handed_idle (H0 := rpc_futures grpc mv code response0)),
      (to_start_idle (H0 := rpc_futures grpc mv code response0)) in Hn by done. fold w in Hn. rewrite Hd in Hn.
    destruct (satisfied_with w !! p); [by eexists|]. by destruct (proj1 (elem_of_nil p) (proj1 Hn eq_refl)).
Qed.
End properties.

(** *** Example

    An RPC whose continuation makes another one, and a timer that is cancelled. *)
Definition example_code (k : nat) (v : answer nat) : list api_call :=
  match k, v with 1, Response (inr _) => [mkCall None 0] | _, _ => [] end.
Definition example_futures : Operations rpc_op (rpc_result nat) (rpc_world nat) :=
  rpc_futures (H := example_build) StatusCode_to_int (λ v, v) example_code 0.
Definition example_call (i p : nat) (a : api_call) :
    list (nat * choice rpc_op (rpc_result nat) + future_call) :=
  [inl (i, Start (mkRpcOp p a)); inl (i, Go); inl (i, Go); inr (GetFuture p)].
Definition example_futures_schedule :
    list (nat * choice rpc_op (rpc_result nat) + future_call) :=
  example_call 0 0 (mkCall None 1) ++ [inl (1, CallRun); inr (Then 0)] ++
  example_call 0 1 (mkCall (Some 99%Z) 0) ++
  [inl (1, Event 0 true (example_result 5)); inr (Cancel 1); inl (1, Go); inr (GoOn 0);
   inl (1, Go); inr (GoOn 0); inl (1, Go); inr (GoOn 0); inl (1, Go); inl (1, Go); inl (1, Go);
   inl (1, Event 1 false (example_result 0)); inl (1, Go); inl (1, Go); inr (Get 1);
   inl (1, Go); inl (1, Go); inl (1, Go);
   inl (1, Event 2 true (example_result 6)); inl (1, Go); inl (1, Go); inr (GetFuture 2);
   inl (1, Go); inl (1, Go); inl (1, Go)].

Lemma rpc_futures_answered_witness : ∃ q ts,
  sys_reachable (H := example_build) (H0 := example_futures) fresh
    (future_step (H := example_build) (λ v, v) example_code) rpc_world_new 2 (q, ts) ∧
  ran (client q) = [(0, Response (inr 5))] ∧
  received (client q) = [(1, Time (inl (mkStatus kCancelled "timer canceled")))] ∧
  ∀ p, p < 3 → is_Some (satisfied_with (client q) !! p).
Proof.
  destruct (sys_run (H := example_build) (H0 := example_futures) fresh
    (do_future_call (H := example_build) (λ v, v) example_code) example_futures_schedule
    (initial rpc_world_new 2)) as [[q ts]|] eqn:Hs; [|by vm_compute in Hs].
  assert (sys_reachable (H := example_build) (H0 := example_futures) fresh
    (future_step (H := example_build) (λ v, v) example_code) rpc_world_new 2 (q, ts)) as Hr.
  { eapply sys_run_reachable; [|apply rtc_refl|exact Hs]. intros f c c' Hf. by exists f. }
  exists q, ts. split; [exact Hr|].
  destruct (rpc_futures_answered (H := example_build) StatusCode_to_int (λ v, v) example_code
    0 fresh (λ X, is_fresh X) 2 q ts Hr) as (_ & _ & _ & _ & _ & Hi).
  vm_compute in Hs. injection Hs as <- <-. split; [reflexivity|]. split; [reflexivity|].
  intros p Hp. apply Hi; [reflexivity| |reflexivity|exact Hp].
  by apply Forall_forall, (bool_decide_unpack _).
Defined.

(** A [cancel()] that is overtaken: its thread has seen that the timer's promise is not
    satisfied when the timer expires, is forgotten and destroyed; then it calls the callback,
    [Cancel()] of the destroyed [AsyncTimerFuture]. *)
Lemma cancel_after_completion : ∃ q ts w,
  sys_reachable (H := example_build) (H0 := example_futures) fresh
    (future_step (H := example_build) (λ v, v) example_code) rpc_world_new 2 (q, ts) ∧
  pending_ops_ q = ∅ ∧ live q = ∅ ∧ (∀ t, t ∈ ts → idle t) ∧ alarms (client q) = [] ∧
  do_future_call (H := example_build) (λ v, v) example_code (GoOn 0) (client q) = Some w ∧
  alarms w = [(0, false)].
Proof.
  destruct (sys_run (H := example_build) (H0 := example_futures) fresh
    (do_future_call (H := example_build) (λ v, v) example_code)
    (example_call 0 0 (mkCall (Some 99%Z) 0) ++
     [inl (1, CallRun); inr (Cancel 0); inr (GoOn 0); inl (1, Event 0 true (example_result 0));
      inl (1, Go); inl (1, Go); inl (1, Go); inl (1, Go); inl (1, Go)])
    (initial rpc_world_new 2)) as [[q ts]|] eqn:Hs; [|by vm_compute in Hs].
  assert (sys_reachable (H := example_build) (H0 := example_futures) fresh
    (future_step (H := example_build) (λ v, v) example_code) rpc_world_new 2 (q, ts)) as Hr.
  { eapply sys_run_reachable; [|apply rtc_refl|exact Hs]. intros f c c' Hf. by exists f. }
  vm_compute in Hs. injection Hs as <- <-. eexists _, _, _. split; [exact Hr|].
  split_and!; [reflexivity..| |reflexivity|reflexivity|reflexivity].
  by apply Forall_forall, (bool_decide_unpack _).
Qed.
