(* ===== verification/ReadStream.v ===== *)
(** * Asynchronous streaming reads (internal/async_read_stream_impl.h)

    [AsyncReadStreamImpl] as a client of the completion queue: each of its four adapters
    ([NotifyStart], [NotifyRead], [NotifyDiscard], [NotifyFinish]) is an operation of the
    queue, so the theorems hold for the queue of [CompletionQueue.v] with any number of
    threads.  The specification is an automaton that accepts the sequences of gRPC calls
    and callbacks that gRPC and the application expect. *)

From S2P Require Import Prelude Status Throw GrpcError CompletionQueue.

Set Default Proof Using "Type".

(** ** Data *)

(** The adapters that a stream gives to the queue. *)
Inductive adapter := NotifyStart | NotifyRead | NotifyDiscard | NotifyFinish.
Global Instance adapter_eq_dec : EqDecision adapter.
Proof. solve_decision. Defined.

(** What a stream does: calls of [reader_], [context_->TryCancel()], the two handlers.
    [NullReader]: a call through a null [reader_]. *)
Inductive stream_event (T : Type) :=
| StartCall
| ReadCall
| FinishCall
| TryCancel
| OnReadHandler (response : T)
| OnFinishHandler (status : Status)
| NullReader.
Arguments StartCall {T}.
Arguments ReadCall {T}.
Arguments FinishCall {T}.
Arguments TryCancel {T}.
Arguments OnReadHandler {T} response.
Arguments OnFinishHandler {T} status.
Arguments NullReader {T}.
Global Instance stream_event_eq_dec {T} `{EqDecision T} : EqDecision (stream_event T).
Proof. solve_decision. Defined.

Section stream.
Context {T : Type} (grpc : StatusCode → Z).

(** What the application's [on_read_] returns: a future that is satisfied, with [true]
    to continue reading or with an exception, or one that it will satisfy later. *)
Inductive continue_reading := Ready (b : bool) | Exceptional | Later.

(** With an event come the [response] of a read, the [status] of a finish and the
    application's reaction to the response. *)
Record stream_result := mkStreamResult {
  response : T;
  status : grpc_Status;
  reaction : continue_reading;
}.

(** [has_reader]: [reader_] is not null.  [started]: [Start] was called.  [waiting_user]:
    the continuation of [OnRead] is attached to a future not satisfied yet.  [stopped]: the
    continuation ended with the exception of that future. *)
Record stream := mkStream {
  has_reader : bool;
  started : bool;
  waiting_user : bool;
  stopped : bool;
  trace : list (stream_event T);
}.

(** [Create], then with [context_] and [cq_] set by [Start]. *)
Definition Create : stream := mkStream false false false false [].

Definition record (e : stream_event T) (s : stream) : stream :=
  mkStream (has_reader s) (started s) (waiting_user s) (stopped s) (trace s ++ [e]).
Definition set_waiting (b : bool) (s : stream) : stream :=
  mkStream (has_reader s) (started s) b (stopped s) (trace s).
Definition set_stopped (s : stream) : stream :=
  mkStream (has_reader s) (started s) (waiting_user s) true (trace s).
(** [reader_->...]. *)
Definition use_reader (e : stream_event T) (s : stream) : stream :=
  if has_reader s then record e s else record NullReader s.

(** ** Member functions

    The functions that start an adapter return it last. *)
Definition Cancel (s : stream) : stream := record TryCancel s.
Definition Read (s : stream) : stream * list adapter := (s, [NotifyRead]).
Definition Finish (s : stream) : stream * list adapter := (s, [NotifyFinish]).
Definition Discard (s : stream) : stream * list adapter := (s, [NotifyDiscard]).

Definition OnStart (ok : bool) (s : stream) : stream * list adapter :=
  if negb ok then Finish s else Read s.
(** The continuation of [continue_reading].  [None]: [result.get()] throws, and nobody has
    the future of the continuation. *)
Definition OnRead_continue (result : option bool) (s : stream) : stream * list adapter :=
  match result with
  | Some result => if negb result then Discard (Cancel s) else Read s
  | None => (set_stopped s, [])
  end.
Definition OnRead (ok : bool) (r : stream_result) (s : stream) : stream * list adapter :=
  if negb ok then Finish s
  else
    let s := record (OnReadHandler (response r)) s in
    match reaction r with
    | Ready result => OnRead_continue (Some result) s
    | Exceptional => OnRead_continue None s
    | Later => (set_waiting true s, [])
    end.
Definition OnFinish (ok : bool) (st : Status) (s : stream) : stream :=
  record (OnFinishHandler (if ok then st else mkStatus kCancelled "call cancelled")) s.
Definition OnDiscard (ok : bool) (s : stream) : stream * list adapter :=
  if negb ok then Finish s else Discard s.

(** [Start], until the adapter is given to the queue. *)
Definition Start_stream (s : stream) : stream :=
  mkStream (has_reader s) true (waiting_user s) (stopped s) (trace s).

(** ** The adapters *)
Definition adapter_Notify (a : adapter) (ok : bool) (r : stream_result) (s : stream) :
    stream * list adapter * bool :=
  match a with
  | NotifyStart => (OnStart ok s, true)
  | NotifyRead => (OnRead ok r s, true)
  | NotifyDiscard => (OnDiscard ok s, true)
  | NotifyFinish => (OnFinish ok (MakeStatusFromGrpcStatus grpc (status r)) s, [], true)
  end.
(** The callables that [Start], [Read], [Finish] and [Discard] give to the queue. *)
Definition adapter_launch (a : adapter) (s : stream) : stream :=
  match a with
  | NotifyStart => use_reader StartCall (mkStream true (started s) (waiting_user s) (stopped s) (trace s))
  | NotifyRead | NotifyDiscard => use_reader ReadCall s
  | NotifyFinish => use_reader FinishCall s
  end.
(** What the application can do: start the stream, once, and satisfy the future of
    [on_read_], once, which runs the continuation and may start an adapter. *)
Definition adapter_issue (a : adapter) (s : stream) : option stream :=
  match a with
  | NotifyStart => if started s then None else Some (Start_stream s)
  | NotifyRead =>
      if waiting_user s then Some (OnRead_continue (Some true) (set_waiting false s)).1 else None
  | NotifyDiscard =>
      if waiting_user s then Some (OnRead_continue (Some false) (set_waiting false s)).1 else None
  | NotifyFinish => None
  end.

(** It may also satisfy the future with an exception. *)
Definition satisfy_exceptional (s : stream) : option stream :=
  if waiting_user s then Some (OnRead_continue None (set_waiting false s)).1 else None.
Definition stream_app (s s' : stream) : Prop := satisfy_exceptional s = Some s'.

Context (response0 : T).
Global Instance adapters : Operations adapter stream_result stream := {
  notify := adapter_Notify;
  launch := adapter_launch;
  cancel_op _ s := s;
  issue := adapter_issue;
  no_results := mkStreamResult response0 (mkGrpcStatus (grpc kOk) "") Later;
}.
End stream.
Arguments stream_result : clear implicits.
Arguments stream : clear implicits.

(** ** Specification: what gRPC and the application expect *)

(** Where a stream is: not started; started; a read is under way; in the hands of the
    application's [on_read_]; cancelled by it; discarding; finishing; finished. *)
Inductive phase :=
| New | Starting | Reading | Deciding | Stopping | Discarding | Finishing | Done.

(** A read follows the start, or a message whose handler said to continue; after the
    handler said to stop, and the call was cancelled, messages are read but not handled
    until the first failure; the finish call comes once, when no read is under way.
    [on_finish_] is called once, last; without a finish call only with [kCancelled], when
    the queue was shut down. *)
Definition stream_transition {T} (p : phase) (e : stream_event T) : option phase :=
  match p, e with
  | New, StartCall => Some Starting
  | Starting, ReadCall | Deciding, ReadCall => Some Reading
  | Reading, OnReadHandler _ => Some Deciding
  | Deciding, TryCancel => Some Stopping
  | Stopping, ReadCall | Discarding, ReadCall => Some Discarding
  | (Starting | Reading | Discarding), FinishCall => Some Finishing
  | Finishing, OnFinishHandler _ => Some Done
  | (New | Starting | Reading | Deciding | Stopping | Discarding), OnFinishHandler st =>
      if bool_decide (st = mkStatus kCancelled "call cancelled") then Some Done else None
  | _, _ => None
  end.

Definition stream_run {T} (p : option phase) (l : list (stream_event T)) : option phase :=
  foldl (λ p e, p ≫= λ p, stream_transition p e) p l.
Definition stream_phase {T} (l : list (stream_event T)) : option phase :=
  stream_run (Some New) l.

(** ** The invariant *)
Section stream_invariant.
Context {T : Type} `{Build} (grpc : StatusCode → Z) (response0 : T).

(** Which adapter is with gRPC ([l]) or about to be started ([s]), by phase, and the
    fields [has_reader], [started], [waiting_user] and [stopped]; [b]: the queue was shut
    down. *)
Inductive phase_ok (b : bool) : phase → bool → bool → bool → bool → list adapter → list adapter → Prop :=
| ok_new : phase_ok b New false false false false [] []
| ok_start : phase_ok b New false true false false [] [NotifyStart]
| ok_start_cancelled : b = true → phase_ok b New false true false false [] [NotifyFinish]
| ok_starting : phase_ok b Starting true true false false [NotifyStart] []
| ok_started a : a = NotifyRead ∨ a = NotifyFinish → phase_ok b Starting true true false false [] [a]
| ok_reading : phase_ok b Reading true true false false [NotifyRead] []
| ok_read_failed : phase_ok b Reading true true false false [] [NotifyFinish]
| ok_waiting : phase_ok b Deciding true true true false [] []
| ok_continue a : a = NotifyRead ∨ a = NotifyFinish ∧ b = true →
    phase_ok b Deciding true true false false [] [a]
| ok_stopping a : a = NotifyDiscard ∨ a = NotifyFinish ∧ b = true →
    phase_ok b Stopping true true false false [] [a]
| ok_discarding : phase_ok b Discarding true true false false [NotifyDiscard] []
| ok_discarded a : a = NotifyDiscard ∨ a = NotifyFinish →
    phase_ok b Discarding true true false false [] [a]
| ok_finishing : phase_ok b Finishing true true false false [NotifyFinish] []
| ok_stopped : phase_ok b Deciding true true false true [] []
| ok_done r : phase_ok b Done r true false false [] [].

Definition stream_inv (b : bool) (c : stream T) (l s : list adapter) : Prop :=
  ∃ p, stream_phase (trace c) = Some p ∧
    phase_ok b p (has_reader c) (started c) (waiting_user c) (stopped c) l s.

Lemma stream_phase_snoc (l : list (stream_event T)) e p :
  stream_phase l = Some p → stream_phase (l ++ [e]) = stream_transition p e.
Proof. unfold stream_phase, stream_run. rewrite foldl_app. by intros ->. Qed.

(** A record of an event, and what becomes of the adapters. *)
Lemma stream_inv_record b (tr : list (stream_event T)) (c' : stream T) e p p' l s :
  stream_phase tr = Some p → trace c' = tr ++ [e] → stream_transition p e = Some p' →
  phase_ok b p' (has_reader c') (started c') (waiting_user c') (stopped c') l s → stream_inv b c' l s.
Proof. intros Hp He Ht Hok. exists p'. split; [|done]. by rewrite He, (stream_phase_snoc _ _ p). Qed.

Lemma phase_ok_perm b p r st w x l l' s s' :
  l ≡ₚ l' → s ≡ₚ s' → phase_ok b p r st w x l s → phase_ok b p r st w x l' s'.
Proof.
  intros Hl Hs Hp. destruct Hp;
    repeat match goal with
    | H : [] ≡ₚ _ |- _ => apply Permutation_nil in H as ->
    | H : [_] ≡ₚ _ |- _ => symmetry in H; apply Permutation_singleton_r in H as ->
    end; by constructor.
Qed.

Lemma phase_ok_shutdown b p r st w x l s : phase_ok b p r st w x l s → phase_ok true p r st w x l s.
Proof. intros []; constructor; naive_solver. Qed.

Lemma stream_inv_record2 b (tr : list (stream_event T)) (c' : stream T) e1 e2 p p1 p2 l s :
  stream_phase tr = Some p → trace c' = (tr ++ [e1]) ++ [e2] →
  stream_transition p e1 = Some p1 → stream_transition p1 e2 = Some p2 →
  phase_ok b p2 (has_reader c') (started c') (waiting_user c') (stopped c') l s → stream_inv b c' l s.
Proof.
  intros Hp He Ht1 Ht2 Hok. exists p2. split; [|done].
  by rewrite He, (stream_phase_snoc _ _ p1) by by rewrite (stream_phase_snoc _ _ p).
Qed.

(** Keeps the phase, or moves it by one or two events, by the table. *)
Ltac stream_step Hp :=
  first
  [ by (eexists; split; [exact Hp|]; constructor; auto)
  | by (eapply stream_inv_record;
      [exact Hp|reflexivity|reflexivity|]; simpl; constructor; auto)
  | by (eapply stream_inv_record2;
      [exact Hp|reflexivity|reflexivity|reflexivity|]; simpl; constructor; auto) ].

Ltac stream_unfold H :=
  unfold OnStart, OnRead, OnRead_continue, OnDiscard, OnFinish, Read, Finish, Discard, Cancel,
    use_reader, Start_stream in H; simplify_eq/=.

Lemma stream_event_inv b c l s o ok r c' os d :
  stream_inv b c (o :: l) s → adapter_Notify grpc o ok r c = (c', os, d) →
  stream_inv b c' l (os ++ s).
Proof.
  intros (p & Hp & Hok) Hn. destruct c as [hr st w x tr]; simpl in *.
  inversion Hok; subst; simpl in Hn; destruct ok; stream_unfold Hn; try stream_step Hp;
    destruct (reaction r) as [[]| |]; simplify_eq/=; stream_step Hp.
Qed.

Lemma stream_cancelled_inv c l s o c' os d :
  stream_inv true c l (o :: s) →
  adapter_Notify grpc o false (mkStreamResult response0 (mkGrpcStatus (grpc kOk) "") Later) c
    = (c', os, d) →
  stream_inv true c' l (os ++ s).
Proof.
  intros (p & Hp & Hok) Hn. destruct c as [hr st w x tr]; simpl in *.
  inversion Hok; subst; destruct_or?; destruct_and?; subst; simpl in Hn; stream_unfold Hn;
    stream_step Hp.
Qed.

Lemma stream_launch_inv c l s o :
  stream_inv false c l (o :: s) → stream_inv false (adapter_launch o c) (o :: l) s.
Proof.
  intros (p & Hp & Hok). destruct c as [hr st w x tr]; simpl in *.
  inversion Hok; subst; destruct_or?; destruct_and?; subst; try done; stream_step Hp.
Qed.

Lemma stream_issue_inv b c l s o c' :
  stream_inv b c l s → adapter_issue o c = Some c' → stream_inv b c' l (o :: s).
Proof.
  intros (p & Hp & Hok) Hi. destruct c as [hr st w x tr]; simpl in *.
  destruct o; simpl in Hi; destruct st, w; stream_unfold Hi; inversion Hok; subst; stream_step Hp.
Qed.

Lemma stream_app_inv b c c' l s : stream_inv b c l s → stream_app c c' → stream_inv b c' l s.
Proof.
  unfold stream_app, satisfy_exceptional. intros (p & Hp & Hok) Hs.
  destruct c as [hr st w x tr]; simpl in *. destruct w; simplify_eq/=.
  inversion Hok; subst. stream_step Hp.
Qed.

Lemma stream_invariant :
  client_invariant (H0 := adapters grpc response0) stream_inv.
Proof.
  split; simpl.
  - intros b c l l' s s' Hl Hs (p & Hp & Hok). exists p. split; [done|]. by eapply phase_ok_perm.
  - intros b c l s o ok r c' os d. apply stream_event_inv.
  - intros c l s o c' os d. apply stream_cancelled_inv.
  - intros c l s o. apply stream_launch_inv.
  - done.
  - intros b c l s o c'. apply stream_issue_inv.
  - intros b c l s (p & Hp & Hok). exists p. split; [done|]. by eapply phase_ok_shutdown.
Qed.

(** *** Accepted traces *)
Implicit Types (e : stream_event T) (l : list (stream_event T)).

Lemma stream_run_none (l : list (stream_event T)) : stream_run (T := T) None l = None.
Proof. by induction l. Qed.

Lemma stream_run_app p (l1 l2 : list (stream_event T)) :
  stream_run p (l1 ++ l2) = stream_run (stream_run p l1) l2.
Proof. apply foldl_app. Qed.

Lemma stream_run_cons p e (l : list (stream_event T)) :
  stream_run p (e :: l) = stream_run (p ≫= λ p, stream_transition p e) l.
Proof. done. Qed.

Lemma stream_phase_split (l1 : list (stream_event T)) e (l2 : list (stream_event T)) p :
  stream_phase (l1 ++ e :: l2) = Some p → ∃ p1 p2,
    stream_phase l1 = Some p1 ∧ stream_transition p1 e = Some p2 ∧ stream_run (Some p2) l2 = Some p.
Proof.
  unfold stream_phase. rewrite stream_run_app, stream_run_cons.
  destruct (stream_run (Some New) l1) as [p1|]; simpl; [|by rewrite stream_run_none].
  destruct (stream_transition p1 e) as [p2|] eqn:He; [eauto|by rewrite stream_run_none].
Qed.

(** The reader is never null when it is used. *)
Lemma accepted_reader l p : stream_phase (T := T) l = Some p → NullReader ∉ l.
Proof.
  intros Hp (l1 & l2 & ->)%list_elem_of_split.
  apply stream_phase_split in Hp as (p1 & p2 & _ & Ht & _). by destruct p1.
Qed.

(** Nothing comes after [on_finish_]. *)
Lemma accepted_finish (l1 : list (stream_event T)) st (l2 : list (stream_event T)) p : stream_phase (l1 ++ OnFinishHandler st :: l2) = Some p → l2 = [].
Proof.
  intros (p1 & p2 & _ & Ht & Hr)%stream_phase_split.
  assert (p2 = Done) as -> by (destruct p1; simplify_eq/=; repeat case_bool_decide; by simplify_eq).
  destruct l2 as [|e l2]; [done|]. rewrite stream_run_cons in Hr. by destruct e; simpl in Hr; rewrite ?stream_run_none in Hr.
Qed.

(** No read and no other call comes after the finish call. *)
Lemma accepted_finish_call (l1 : list (stream_event T)) (l2 : list (stream_event T)) p :
  stream_phase (l1 ++ FinishCall :: l2) = Some p → l2 = [] ∨ ∃ st, l2 = [OnFinishHandler st].
Proof.
  intros (p1 & p2 & _ & Ht & Hr)%stream_phase_split.
  assert (p2 = Finishing) as -> by (destruct p1; by simplify_eq/=).
  destruct l2 as [|e l2]; [by left|]. right. rewrite stream_run_cons in Hr.
  destruct e; simpl in Hr; try by rewrite stream_run_none in Hr.
  exists status0. f_equal. destruct l2 as [|e l2]; [done|].
  rewrite stream_run_cons in Hr. by destruct e; simpl in Hr; rewrite ?stream_run_none in Hr.
Qed.

(** Where the application's handler has a message, it was the last event. *)
Lemma accepted_deciding l : stream_phase (T := T) l = Some Deciding →
  (∃ l' r, l = l' ++ [OnReadHandler r]) ∧ FinishCall ∉ l ∧ ∀ st, OnFinishHandler st ∉ l.
Proof.
  intros Hp. split_and!.
  - destruct l as [|e l _] using rev_ind; [done|].
    apply stream_phase_split in Hp as (p1 & p2 & _ & Ht & [= ->]).
    exists l. destruct p1, e; simplify_eq/=; repeat case_bool_decide; simplify_eq; by eexists.
  - intros (l1 & l2 & ->)%list_elem_of_split.
    pose proof Hp as (p1 & p2 & _ & Ht & Hr)%stream_phase_split.
    assert (p2 = Finishing) as -> by (destruct p1; by simplify_eq/=).
    destruct (accepted_finish_call _ _ _ Hp) as [->|[st ->]]; by simplify_eq/=.
  - intros st (l1 & l2 & ->)%list_elem_of_split. assert (l2 = []) as -> by by eapply accepted_finish.
    apply stream_phase_split in Hp as (p1 & p2 & _ & Ht & [= ->]).
    by destruct p1; simplify_eq/=; repeat case_bool_decide; simplify_eq.
Qed.

(** A stream that is done. *)
Lemma accepted_done l : stream_phase (T := T) l = Some Done →
  ∃ l' st, l = l' ++ [OnFinishHandler st] ∧ ∀ st', OnFinishHandler st' ∉ l'.
Proof.
  intros Hp. destruct l as [|e l _] using rev_ind; [done|].
  pose proof Hp as (p1 & p2 & Hp1 & Hp2 & Hd)%stream_phase_split. simplify_eq/=.
  destruct e; try (by destruct p1). exists l, status0. split; [done|].
  intros st' (l1 & l2 & ->)%list_elem_of_split. rewrite <- (assoc_L (++)) in Hp. simpl in Hp.
  apply accepted_finish in Hp. by destruct l2.
Qed.

(** After the handler said to stop it is not called again. *)
Lemma accepted_stop (l1 : list (stream_event T)) (l2 : list (stream_event T)) p (r : T) :
  stream_phase (l1 ++ TryCancel :: l2) = Some p → OnReadHandler r ∉ l2.
Proof.
  intros (p1 & p2 & _ & Ht & Hr)%stream_phase_split.
  assert (p2 = Stopping) as -> by (destruct p1; by simplify_eq/=).
  assert (∀ l q, q = Stopping ∨ q = Discarding ∨ q = Finishing ∨ q = Done →
    stream_run (Some q) l = Some p → OnReadHandler r ∉ l) as Hl; [|by eapply Hl; [left|]].
  clear. induction l as [|e l IH]; intros q Hq Hr; [set_solver|].
  rewrite stream_run_cons in Hr. simpl in Hr.
  destruct (stream_transition q e) as [q'|] eqn:Ht; [|by rewrite stream_run_none in Hr].
  rewrite elem_of_cons. intros [<-|Hin]; [by destruct_or! Hq; subst|].
  revert Hin. apply (IH q'); [|done].
  destruct_or! Hq; subst; destruct e; simplify_eq/=; try case_bool_decide; simplify_eq; auto.
Qed.
End stream_invariant.

(** ** Properties *)
Section stream_properties.
Context {T : Type} `{Build} (grpc : StatusCode → Z) (response0 : T).
Context (address : gset Z → Z) (address_fresh : ∀ X, address X ∉ X).
Set Default Proof Using "All".

Lemma stream_reachable n q ts :
  sys_reachable (H0 := adapters grpc response0) address stream_app Create n (q, ts) →
  stream_inv (shutdown_ q) (client q) (handed q ts) (to_start ts).
Proof.
  intros Hr. edestruct (sys_invariant_reachable (H0 := adapters grpc response0) address stream_app
    stream_inv Create n q ts) as [_ Hi]; [exact address_fresh|apply stream_invariant| | |exact Hr|exact Hi].
  - intros b c c' l s. apply stream_app_inv.
  - exists New. split; [done|constructor].
Qed.

(** C27: in every interleaving of the threads of the queue, of gRPC's events and of what
    the application's handler answers, a stream makes its gRPC calls and runs its
    handlers in an order that the automaton accepts.  In particular [reader_] is not null
    when it is used, also when the queue is shut down meanwhile; no call follows
    [Finish()]; the read handler is not run again once it said to stop; nothing follows
    the finish handler. *)
Theorem stream_protocol n q ts :
  sys_reachable (H0 := adapters grpc response0) address stream_app Create n (q, ts) →
  (∃ p, stream_phase (trace (client q)) = Some p) ∧
  NullReader ∉ trace (client q) ∧
  (∀ l1 l2, trace (client q) = l1 ++ FinishCall :: l2 →
     l2 = [] ∨ ∃ st, l2 = [OnFinishHandler st]) ∧
  (∀ l1 l2 r, trace (client q) = l1 ++ TryCancel :: l2 → OnReadHandler r ∉ l2) ∧
  (∀ l1 st l2, trace (client q) = l1 ++ OnFinishHandler st :: l2 → l2 = []).
Proof.
  intros Hr. destruct (stream_reachable _ _ _ Hr) as (p & Hp & _).
  split_and!; [by eexists|by eapply accepted_reader|..].
  - intros l1 l2 Hl. rewrite Hl in Hp. by eapply accepted_finish_call.
  - intros l1 l2 r Hl. rewrite Hl in Hp. by eapply accepted_stop.
  - intros l1 st l2 Hl. rewrite Hl in Hp. by eapply accepted_finish.
Qed.

(** C28: when the queue is idle, a stream that was started either has finished: its finish
    handler has run exactly once, last; or it stands at a message because of the future
    that the read handler returned for it, which is not satisfied yet or was satisfied with
    an exception: then neither [Finish()] was called nor the finish handler run. *)
Theorem stream_finishes n q ts :
  sys_reachable (H0 := adapters grpc response0) address stream_app Create n (q, ts) →
  started (client q) = true → outstanding q = ∅ → (∀ t, t ∈ ts → idle t) →
  if waiting_user (client q) || stopped (client q) then
    (∃ l r, trace (client q) = l ++ [OnReadHandler r]) ∧
    FinishCall ∉ trace (client q) ∧ ∀ st, OnFinishHandler st ∉ trace (client q)
  else
    ∃ l st, trace (client q) = l ++ [OnFinishHandler st] ∧ ∀ st', OnFinishHandler st' ∉ l.
Proof.
  intros Hr Hst Ho Ht. destruct (stream_reachable _ _ _ Hr) as (p & Hp & Hok).
  rewrite (handed_idle (H0 := adapters grpc response0)), (to_start_idle (H0 := adapters grpc response0))
    in Hok by done.
  rewrite Hst in Hok. inversion Hok; subst; simpl; [by apply accepted_deciding..|].
  by apply accepted_done.
Qed.
End stream_properties.

(** *** Example

    A message is handled, the second one stops the stream, a third one is discarded. *)
Definition stream_example_result (v : nat) (c : continue_reading) : stream_result nat :=
  mkStreamResult v (mkGrpcStatus 0 "") c.
Definition stream_example_event (tag : Z) (ok : bool) (r : stream_result nat) :
    list (nat * choice adapter (stream_result nat)) :=
  (1, Event tag ok r) :: replicate 6 (1, Go).
Definition stream_schedule : list (nat * choice adapter (stream_result nat)) :=
  [(0, Start NotifyStart); (0, Go); (0, Go); (1, CallRun)]
  ++ stream_example_event 0 true (stream_example_result 0 Later)
  ++ stream_example_event 1 true (stream_example_result 41 (Ready true))
  ++ stream_example_event 2 true (stream_example_result 42 (Ready false))
  ++ stream_example_event 3 true (stream_example_result 43 Later)
  ++ stream_example_event 4 false (stream_example_result 0 Later)
  ++ take 6 (stream_example_event 5 true (stream_example_result 0 Later)).
Definition stream_example : Operations adapter (stream_result nat) (stream nat) :=
  adapters StatusCode_to_int 0.

Lemma stream_protocol_witness : ∃ q ts,
  sys_reachable (H := example_build) (H0 := stream_example) fresh stream_app Create 2 (q, ts) ∧
  length (trace (client q)) = 10 ∧ NullReader ∉ trace (client q).
Proof.
  destruct (run_check (H := example_build) (H0 := stream_example) fresh Create 2 stream_schedule
    (λ s, bool_decide (length (trace (client s.1)) = 10))) as (q & ts & Hr & Hp);
    [vm_compute; reflexivity|].
  apply (reachable_sys _ stream_app) in Hr.
  exists q, ts. split; [exact Hr|]. split; [by apply bool_decide_eq_true in Hp|].
  apply (stream_protocol (H := example_build) StatusCode_to_int 0 fresh (λ X, is_fresh X) _ _ _ Hr).
Defined.

Lemma stream_finishes_witness : ∃ q ts l st,
  sys_reachable (H := example_build) (H0 := stream_example) fresh stream_app Create 2 (q, ts) ∧
  trace (client q) = l ++ [OnFinishHandler st].
Proof.
  destruct (run_check (H := example_build) (H0 := stream_example) fresh Create 2 stream_schedule
    (λ s, started (client s.1) && negb (waiting_user (client s.1) || stopped (client s.1)) &&
      bool_decide (outstanding s.1 = ∅ ∧ Forall idle s.2))) as (q & ts & Hr & Hp);
    [vm_compute; reflexivity|].
  apply andb_true_iff in Hp as [[Hst Hw]%andb_true_iff [Ho Hf]%bool_decide_eq_true].
  apply negb_true_iff in Hw. apply (reachable_sys _ stream_app) in Hr. exists q, ts.
  pose proof (stream_finishes (H := example_build) StatusCode_to_int 0 fresh (λ X, is_fresh X) _ _ _ Hr
    Hst Ho (proj1 (Forall_forall _ _) Hf)) as Hl.
  simpl in Hw. rewrite Hw in Hl. destruct Hl as (l & st & Hl & _). exists l, st. split; [exact Hr|exact Hl].
Defined.

(** A handler whose future holds an exception: the stream stands still for ever, with the
    call open. *)
Lemma exceptional_future_stops : ∃ q ts,
  reachable (H := example_build) (H0 := stream_example) fresh Create 2 (q, ts) ∧
  outstanding q = ∅ ∧ (∀ t, t ∈ ts → idle t) ∧ waiting_user (client q) = false ∧
  trace (client q) = [StartCall; ReadCall; OnReadHandler 41].
Proof.
  destruct (run_check (H := example_build) (H0 := stream_example) fresh Create 2
    (take 11 stream_schedule ++
     take 6 (stream_example_event 1 true (stream_example_result 41 Exceptional)))
    (λ s, bool_decide (outstanding s.1 = ∅ ∧ Forall idle s.2 ∧ waiting_user (client s.1) = false ∧
      trace (client s.1) = [StartCall; ReadCall; OnReadHandler 41])))
    as (q & ts & Hr & Hp); [vm_compute; reflexivity|].
  apply bool_decide_eq_true in Hp as (Ho & Hf & Hw & Ht). exists q, ts.
  split_and!; [exact Hr|exact Ho|by apply Forall_forall|exact Hw|exact Ht].
Qed.
