(* ===== verification/Policies.v ===== *)
(** * Retry and backoff policies (internal/retry_policy.h, internal/backoff_policy.h, .cc)

    The two abstract classes are type classes, the policies of the library their
    instances.  Times are nanoseconds of the system clock, given by the environment. *)

From S2P Require Import Prelude Status Throw.
From Stdlib Require Import Floats.SpecFloat.

Set Default Proof Using "Type".

(** ** Retry policies *)

(** [RetryPolicy]: the virtual functions.  [now]: the time of the call. *)
Class RetryPolicy (P : Type) := {
  OnFailureImpl : P → cxx P;
  IsExhausted : Z → P → bool;
  clone_retry : Z → P → cxx P;
}.

Section on_failure.
Context {P : Type} `{RetryPolicy P} (IsPermanentFailure : Status → bool).

(** [RetryPolicy::OnFailure]: whether to try again. *)
Definition OnFailure (now : Z) (status : Status) (p : P) : cxx (bool * P) :=
  if IsPermanentFailure status then Ret (false, p)
  else p' ← OnFailureImpl p; Ret (negb (IsExhausted now p'), p').
End on_failure.

(** *** [LimitedErrorCountRetryPolicy] *)
Record LimitedErrorCountRetryPolicy := mkLimitedErrorCount {
  failure_count_ : Z;
  maximum_failures_ : Z;
}.
Definition LimitedErrorCountRetryPolicy_new (maximum_failures : Z) : LimitedErrorCountRetryPolicy :=
  mkLimitedErrorCount 0 maximum_failures.
(** The copy and move constructors start the count again. *)
Definition LimitedErrorCountRetryPolicy_copy (rhs : LimitedErrorCountRetryPolicy) :
    LimitedErrorCountRetryPolicy := LimitedErrorCountRetryPolicy_new (maximum_failures_ rhs).

Global Instance limited_error_count : RetryPolicy LimitedErrorCountRetryPolicy := {
  OnFailureImpl p :=
    if bool_decide (failure_count_ p + 1 < 2 ^ 31)%Z
    then Ret (mkLimitedErrorCount (failure_count_ p + 1) (maximum_failures_ p))
    else Undefined SignedOverflow;
  IsExhausted _ p := (maximum_failures_ p <? failure_count_ p)%Z;
  clone_retry _ p := Ret (LimitedErrorCountRetryPolicy_new (maximum_failures_ p));
}.

(** *** [LimitedTimeRetryPolicy] *)
Record LimitedTimeRetryPolicy := mkLimitedTime {
  maximum_duration_ : Z;  (* milliseconds *)
  deadline_ : Z;
}.
(** [duration_cast] to milliseconds of a duration in nanoseconds. *)
Definition to_milliseconds (ns : Z) : Z := Z.quot ns 1000000.
(** [time_point + milliseconds]: 64-bit nanoseconds. *)
Definition add_milliseconds (now ms : Z) : cxx Z :=
  if bool_decide (in_signed 64 (ms * 1000000) ∧ in_signed 64 (now + ms * 1000000))
  then Ret (now + ms * 1000000)%Z else Undefined SignedOverflow.
Definition LimitedTimeRetryPolicy_new_ms (now ms : Z) : cxx LimitedTimeRetryPolicy :=
  d ← add_milliseconds now ms; Ret (mkLimitedTime ms d).
Definition LimitedTimeRetryPolicy_new (now maximum_duration : Z) : cxx LimitedTimeRetryPolicy :=
  LimitedTimeRetryPolicy_new_ms now (to_milliseconds maximum_duration).
(** The copy and move constructors compute a new deadline. *)
Definition LimitedTimeRetryPolicy_copy (now : Z) (rhs : LimitedTimeRetryPolicy) :
    cxx LimitedTimeRetryPolicy := LimitedTimeRetryPolicy_new_ms now (maximum_duration_ rhs).

Global Instance limited_time : RetryPolicy LimitedTimeRetryPolicy := {
  OnFailureImpl p := Ret p;
  IsExhausted now p := (deadline_ p <=? now)%Z;
  clone_retry now p := LimitedTimeRetryPolicy_new_ms now (maximum_duration_ p);
}.

(** ** Backoff policies *)

(** [BackoffPolicy]: [D] is what the environment provides for a call (a seed).  The
    delay is in milliseconds. *)
Class BackoffPolicy (B D : Type) := {
  OnCompletion : D → B → cxx (Z * B);
  clone_backoff : B → B;
}.

(** *** Floating-point numbers: IEEE 754 doubles *)
Abbreviation double := spec_float.
Definition double_of_Z (z : Z) : double := binary_normalize 53 1024 z 0 false.
Definition double_mul (a b : double) : double := SFmul 53 1024 a b.
Definition double_le (a b : double) : bool := SFleb a b.
(** [static_cast] to a 64-bit integer: undefined when the truncated value does not fit. *)
Definition int64_of_double (d : double) : cxx Z :=
  let z := match d with
    | S754_zero _ => Some 0%Z
    | S754_finite s m e =>
        let a := if (0 <=? e)%Z then (Zpos m * 2 ^ e)%Z else (Zpos m `div` 2 ^ (- e))%Z in
        Some (if s then (- a)%Z else a)
    | _ => None
    end in
  match z with
  | Some z => if bool_decide (in_signed 64 z) then Ret z else Undefined SignedOverflow
  | None => Undefined SignedOverflow
  end.

(** *** [ExponentialBackoffPolicy] *)
Section exponential.
(** The standard library's generator [std::mt19937_64], made from a seed, and
    [std::uniform_int_distribution]: documented to draw from the closed interval. *)
Context {G D : Type} (MakeDefaultPRNG : D → G) (draw : Z → Z → G → Z * G).
Context `{Build}.

(** Microseconds. *)
Record ExponentialBackoffPolicy := mkExponentialBackoff {
  current_delay_range_ : Z;
  maximum_delay_ : Z;
  scaling_ : double;
  generator_ : option G;
}.

(** [duration_cast] to microseconds of a duration in nanoseconds. *)
Definition to_microseconds (ns : Z) : Z := Z.quot ns 1000.

(** The constructor; the delays are in nanoseconds. *)
Definition ExponentialBackoffPolicy_new (initial_delay maximum_delay : Z) (scaling : double) :
    cxx ExponentialBackoffPolicy :=
  let p := mkExponentialBackoff (to_microseconds (2 * initial_delay))
    (to_microseconds maximum_delay) scaling None in
  if double_le scaling (double_of_Z 1)
  then ThrowInvalidArgument "scaling factor must be > 1.0"
  else Ret p.

Definition ExponentialBackoffPolicy_clone (p : ExponentialBackoffPolicy) :
    ExponentialBackoffPolicy :=
  mkExponentialBackoff (current_delay_range_ p) (maximum_delay_ p) (scaling_ p) None.

(** A draw from the distribution with the bounds [a] and [b], which must be ordered. *)
Definition uniform (a b : Z) (g : G) : cxx (Z * G) :=
  if (a <=? b)%Z then Ret (draw a b g) else Undefined BadArgument.

Definition ExponentialBackoffPolicy_OnCompletion (seed : D) (p : ExponentialBackoffPolicy) :
    cxx (Z * ExponentialBackoffPolicy) :=
  let g := match generator_ p with None => MakeDefaultPRNG seed | Some g => g end in
  let range := current_delay_range_ p in
  '(delay, g) ← uniform (Z.quot range 2) range g;
  scaled ← int64_of_double (double_mul (double_of_Z range) (scaling_ p));
  let range' := if (maximum_delay_ p <=? scaled)%Z then maximum_delay_ p else scaled in
  Ret (Z.quot delay 1000, mkExponentialBackoff range' (maximum_delay_ p) (scaling_ p) (Some g)).

Global Instance exponential_backoff : BackoffPolicy ExponentialBackoffPolicy D := {
  OnCompletion := ExponentialBackoffPolicy_OnCompletion;
  clone_backoff := ExponentialBackoffPolicy_clone;
}.
End exponential.
Arguments ExponentialBackoffPolicy : clear implicits.

(** The delays of several calls of a policy. *)
Fixpoint delays {B D} `{BackoffPolicy B D} (seeds : list D) (p : B) : cxx (list Z * B) :=
  match seeds with
  | [] => Ret ([], p)
  | seed :: rest =>
      '(d, p1) ← OnCompletion seed p;
      '(ds, p2) ← delays rest p1;
      Ret (d :: ds, p2)
  end.
(** The decisions of a retry policy on a sequence of failures, with their times. *)
Fixpoint decisions {P} `{RetryPolicy P} (permanent : Status → bool) (failures : list (Z * Status))
    (p : P) : cxx (list bool * P) :=
  match failures with
  | [] => Ret ([], p)
  | (now, status) :: rest =>
      '(b, p1) ← OnFailure permanent now status p;
      '(bs, p2) ← decisions permanent rest p1;
      Ret (b :: bs, p2)
  end.

(** ** Lemmas *)

Definition transients (permanent : Status → bool) (failures : list (Z * Status)) : nat :=
  length (filter (λ f, permanent f.2 = false) failures).

Lemma transients_cons permanent f failures :
  transients permanent (f :: failures) =
    (if permanent f.2 then 0 else 1) + transients permanent failures.
Proof. unfold transients. rewrite filter_cons. by destruct (permanent f.2). Qed.

Lemma error_count_decisions permanent failures c m :
  (0 ≤ c)%Z → (c + Z.of_nat (transients permanent failures) < 2 ^ 31)%Z →
  ∃ bs, decisions permanent failures (mkLimitedErrorCount c m)
    = Ret (bs, mkLimitedErrorCount (c + Z.of_nat (transients permanent failures)) m) ∧
  length bs = length failures ∧
  ∀ i f, failures !! i = Some f → bs !! i = Some (negb (permanent f.2) &&
    bool_decide (c + Z.of_nat (transients permanent (take (S i) failures)) ≤ m)%Z).
Proof.
  revert c. induction failures as [|[now st] fs IH]; intros c Hc Ht; simpl.
  - exists []. rewrite Z.add_0_r. done.
  - rewrite transients_cons in *. unfold OnFailure. simpl in *. destruct (permanent st) eqn:Hp; simpl.
    + destruct (IH c Hc Ht) as (bs & -> & Hl & Hi). simpl. eexists. split; [done|].
      split; [simpl; by rewrite Hl|]. intros [|i] f Hf; simplify_eq/=; [by rewrite Hp|].
      rewrite transients_cons. simpl. rewrite Hp. by apply Hi.
    + rewrite bool_decide_true by lia. simpl.
      destruct (IH (c + 1)%Z) as (bs & -> & Hl & Hi); [lia|lia|]. simpl. eexists.
      split; [do 3 f_equal; lia|]. split; [simpl; by rewrite Hl|].
      intros [|i] f Hf; simplify_eq/=; rewrite transients_cons; simpl; rewrite Hp.
      * f_equal. simpl. unfold transients. rewrite take_0. simpl.
        destruct (Z.ltb_spec m (c + 1)); [rewrite bool_decide_false by lia|rewrite bool_decide_true by lia];
          done.
      * rewrite (Hi i f Hf). do 2 f_equal. apply bool_decide_ext. lia.
Qed.

Lemma time_decisions permanent failures p :
  ∃ bs, decisions permanent failures p = Ret (bs, p) ∧ length bs = length failures ∧
  ∀ i f, failures !! i = Some f → bs !! i = Some (negb (permanent f.2) && (f.1 <? deadline_ p)%Z).
Proof.
  induction failures as [|[now st] fs (bs & IH & Hl & Hi)]; simpl.
  - by exists [].
  - unfold OnFailure. simpl. destruct (permanent st) eqn:Hp; simpl; rewrite IH; simpl;
      eexists; (split; [done|]); (split; [simpl; by rewrite Hl|]); intros [|i] f Hf; simplify_eq/=; auto;
      rewrite Hp; simpl; [done|].
    f_equal. by rewrite Z.leb_antisym, negb_involutive.
Qed.

(** The sign of a product of nonnegative doubles. *)
Definition nonneg_double (d : double) : bool :=
  match d with S754_zero s | S754_infinity s | S754_finite s _ _ => negb s | S754_nan => true end.

Lemma binary_round_aux_nonneg m e l : nonneg_double (binary_round_aux 53 1024 false m e l) = true.
Proof.
  unfold binary_round_aux. destruct (shr_fexp 53 1024 m e l) as [r1 e1].
  destruct (shr_fexp _ _ _ _ _) as [r2 e2]. destruct (shr_m r2); [done| |done].
  by destruct (_ <=? _)%Z.
Qed.

Lemma double_of_Z_nonneg z : (0 ≤ z)%Z → nonneg_double (double_of_Z z) = true.
Proof.
  destruct z; [done| |lia]. intros _. unfold double_of_Z, binary_normalize, binary_round.
  destruct (shl_align _ _ _). apply binary_round_aux_nonneg.
Qed.

Lemma double_mul_nonneg a b :
  nonneg_double a = true → nonneg_double b = true → nonneg_double (double_mul a b) = true.
Proof.
  destruct a as [[]|[]| |[] m e], b as [[]|[]| |[] m' e']; try done. intros _ _.
  apply binary_round_aux_nonneg.
Qed.

Lemma int64_nonneg d z : nonneg_double d = true → int64_of_double d = Ret z → (0 ≤ z)%Z.
Proof.
  unfold int64_of_double. destruct d as [s|s| |s m e]; try done.
  - intros _. by case_bool_decide; intros; simplify_eq.
  - destruct s; [done|]. intros _. case_bool_decide; [|done]. intros [= <-].
    case_match; [|by apply Z.div_pos; [lia|apply Z.pow_pos_nonneg; lia]].
    apply Z.mul_nonneg_nonneg; [lia|]. apply Z.pow_nonneg. lia.
Qed.

Section backoff.
Context {G D : Type} (MakeDefaultPRNG : D → G) (draw : Z → Z → G → Z * G).
Context (draw_range : ∀ a b g, (a ≤ b)%Z → (a ≤ (draw a b g).1 ≤ b)%Z).
Set Default Proof Using "All".

(** The product with the scaling factor fits 64 bits for ranges up to [bound]. *)
Definition scaling_fits (scaling : double) (bound : Z) : Prop :=
  ∀ c, (0 ≤ c ≤ bound)%Z → ∃ r, int64_of_double (double_mul (double_of_Z c) scaling) = Ret r.

Lemma OnCompletion_spec seed (p : ExponentialBackoffPolicy G) bound :
  (0 ≤ current_delay_range_ p ≤ bound)%Z → (0 ≤ maximum_delay_ p)%Z →
  nonneg_double (scaling_ p) = true → scaling_fits (scaling_ p) bound →
  ∃ delay p', ExponentialBackoffPolicy_OnCompletion MakeDefaultPRNG draw seed p = Ret (delay, p') ∧
    (Z.quot (Z.quot (current_delay_range_ p) 2) 1000 ≤ delay
       ≤ Z.quot (current_delay_range_ p) 1000)%Z ∧
    (0 ≤ current_delay_range_ p' ≤ maximum_delay_ p)%Z ∧
    maximum_delay_ p' = maximum_delay_ p ∧ scaling_ p' = scaling_ p.
Proof.
  intros Hr Hm Hs Hf. unfold ExponentialBackoffPolicy_OnCompletion, uniform.
  assert (Z.quot (current_delay_range_ p) 2 ≤ current_delay_range_ p)%Z as Hle
    by (rewrite Z.quot_div_nonneg by lia; apply Z.div_le_upper_bound; lia).
  rewrite (proj2 (Z.leb_le _ _) Hle). simpl.
  match goal with |- context [draw ?a ?b ?g] =>
    pose proof (draw_range a b g Hle) as Hd; destruct (draw a b g) as [d g'] end.
  simpl in *. destruct (Hf (current_delay_range_ p) Hr) as [r Hr']. rewrite Hr'. simpl.
  apply int64_nonneg in Hr' as Hr0;
    [|apply double_mul_nonneg; [apply double_of_Z_nonneg; lia|done]].
  eexists _, _. split; [done|]. simpl. split_and!; try done.
  - apply Z.quot_le_mono; lia.
  - apply Z.quot_le_mono; lia.
  - destruct (maximum_delay_ p <=? r)%Z; lia.
  - destruct (Z.leb_spec (maximum_delay_ p) r); lia.
Qed.

Lemma delays_spec seeds (p : ExponentialBackoffPolicy G) bound :
  (0 ≤ current_delay_range_ p ≤ bound)%Z → (0 ≤ maximum_delay_ p ≤ bound)%Z →
  nonneg_double (scaling_ p) = true → scaling_fits (scaling_ p) bound →
  ∃ ds p', delays (H := exponential_backoff MakeDefaultPRNG draw) seeds p = Ret (ds, p') ∧
    length ds = length seeds ∧
    (∀ d, ds !! 0%nat = Some d → Z.quot (Z.quot (current_delay_range_ p) 2) 1000 ≤ d
       ≤ Z.quot (current_delay_range_ p) 1000)%Z ∧
    (∀ k d, ds !! S k = Some d → 0 ≤ d ≤ Z.quot (maximum_delay_ p) 1000)%Z.
Proof.
  revert p. induction seeds as [|seed seeds IH]; intros p Hr Hm Hs Hf.
  - by exists [], p.
  - destruct (OnCompletion_spec seed p bound Hr) as (d & p1 & Hc & Hd & Hr1 & Hm1 & Hs1);
      [lia|done|done|].
    destruct (IH p1) as (ds & p2 & Hds & Hl & H0 & HS); [lia|lia|by rewrite Hs1|by rewrite Hs1|].
    exists (d :: ds), p2. simpl. rewrite Hc. simpl. rewrite Hds. simpl.
    split_and!; [done|by rewrite Hl|by intros d' [= <-]|].
    intros [|k] d' Hk; simpl in Hk.
    + apply H0 in Hk. split.
      * etrans; [|apply Hk]. repeat apply Z.quot_pos; lia.
      * etrans; [apply Hk|]. apply Z.quot_le_mono; lia.
    + apply HS in Hk. by rewrite Hm1 in Hk.
Qed.
End backoff.

(** A scaling factor that the constructor accepts is not negative. *)
Lemma scaling_nonneg s : double_le s (double_of_Z 1) = false → nonneg_double s = true.
Proof. by destruct s as [[]|[]| |[] m e]. Qed.

(** ** Properties *)

(** C32: a [LimitedErrorCountRetryPolicy] for [m] failures retries exactly the first [m]
    failures that are not permanent; a [LimitedTimeRetryPolicy] retries those that come
    before the deadline; neither retries a permanent failure; their clones begin anew. *)
Theorem retry_policies_decide permanent failures m t :
  (Z.of_nat (length failures) < 2 ^ 31)%Z →
  (∃ bs p', decisions permanent failures (LimitedErrorCountRetryPolicy_new m) = Ret (bs, p') ∧
     length bs = length failures ∧
     clone_retry 0 p' = Ret (LimitedErrorCountRetryPolicy_new m) ∧
     ∀ i f, failures !! i = Some f → bs !! i = Some (negb (permanent f.2) &&
       bool_decide (Z.of_nat (transients permanent (take (S i) failures)) ≤ m)%Z)) ∧
  (∃ bs, decisions permanent failures t = Ret (bs, t) ∧ length bs = length failures ∧
     ∀ i f, failures !! i = Some f →
       bs !! i = Some (negb (permanent f.2) && (f.1 <? deadline_ t)%Z)).
Proof.
  intros Hl. assert (transients permanent failures ≤ length failures) as Ht
    by apply length_filter. split; [|by apply time_decisions].
  destruct (error_count_decisions permanent failures 0 m) as (bs & Hbs & Hlen & Hi); [lia|lia|].
  eexists bs, _. split; [exact Hbs|]. split_and!; [done|done|]. exact Hi.
Qed.

Lemma retry_policies_decide_witness : ∃ bs p',
  decisions (λ s, bool_decide (code_ s = kNotFound))
    [(1%Z, mkStatus kUnavailable ""); (2%Z, mkStatus kNotFound ""); (3%Z, mkStatus kUnavailable "")]
    (LimitedErrorCountRetryPolicy_new 1) = Ret (bs, p') ∧ length bs = 3.
Proof.
  destruct (retry_policies_decide (λ s, bool_decide (code_ s = kNotFound))
    [(1%Z, mkStatus kUnavailable ""); (2%Z, mkStatus kNotFound ""); (3%Z, mkStatus kUnavailable "")]
    1 (mkLimitedTime 1 2)) as [(bs & p' & Hbs & Hl & _) _]; [vm_compute; reflexivity|].
  exists bs, p'. split; [exact Hbs|exact Hl].
Defined.

(** C33: the delays of an [ExponentialBackoffPolicy]: the first one is drawn between the
    initial delay and twice the initial delay, every later one is not negative and at
    most the maximum delay; no call has undefined behaviour as long as the scaled range
    fits 64 bits. *)
Theorem backoff_delays `{Build} {G D} (MakeDefaultPRNG : D → G) (draw : Z → Z → G → Z * G)
    initial maximum scaling seeds p :
  (∀ a b g, (a ≤ b)%Z → (a ≤ (draw a b g).1 ≤ b)%Z) →
  (0 ≤ initial)%Z → (0 ≤ maximum)%Z →
  scaling_fits scaling (Z.max (to_microseconds (2 * initial)) (to_microseconds maximum)) →
  ExponentialBackoffPolicy_new initial maximum scaling = Ret p →
  ∃ ds p', delays (H := exponential_backoff MakeDefaultPRNG draw) seeds p = Ret (ds, p') ∧
    length ds = length seeds ∧
    (∀ d, ds !! 0%nat = Some d →
       Z.quot (Z.quot (to_microseconds (2 * initial)) 2) 1000 ≤ d
         ≤ Z.quot (to_microseconds (2 * initial)) 1000)%Z ∧
    (∀ k d, ds !! S k = Some d → 0 ≤ d ≤ Z.quot (to_microseconds maximum) 1000)%Z.
Proof.
  intros Hd Hi Hm Hf Hp. unfold ExponentialBackoffPolicy_new in Hp.
  destruct (double_le scaling (double_of_Z 1)) eqn:Hs.
  - unfold ThrowInvalidArgument, ThrowException in Hp. by destruct have_exceptions.
  - simplify_eq/=. apply scaling_nonneg in Hs. unfold to_microseconds in *.
    assert (0 ≤ Z.quot (2 * initial) 1000)%Z by (apply Z.quot_pos; lia).
    assert (0 ≤ Z.quot maximum 1000)%Z by (apply Z.quot_pos; lia).
    apply (delays_spec MakeDefaultPRNG draw Hd seeds
      (mkExponentialBackoff (Z.quot (2 * initial) 1000) (Z.quot maximum 1000) scaling None)
      (Z.max (Z.quot (2 * initial) 1000) (Z.quot maximum 1000))); simpl; try done; lia.
Qed.

(** A generator that draws its state, within the bounds. *)
Definition example_draw (a b : Z) (g : Z) : Z * Z := (Z.max a (Z.min b g), g)%Z.
Definition double_3_2 : double := binary_normalize 53 1024 3 (-1) false.

Lemma scaling_fits_small n (s : double) :
  forallb (λ k, match int64_of_double (double_mul (double_of_Z (Z.of_nat k)) s) with
    | Ret _ => true | _ => false end) (seq 0 (S n)) = true →
  scaling_fits s (Z.of_nat n).
Proof.
  intros Hf c Hc. rewrite forallb_forall in Hf. specialize (Hf (Z.to_nat c)).
  rewrite Z2Nat.id in Hf by lia.
  destruct (int64_of_double _) as [r| | |]; [by exists r|..];
    (assert (false = true) by (apply Hf, in_seq; lia); done).
Qed.

Lemma backoff_delays_witness : ∃ ds p',
  delays (H := exponential_backoff (λ d : Z, d) example_draw) [7%Z; 8%Z; 9%Z]
    (mkExponentialBackoff 20 50 double_3_2 None) = Ret (ds, p') ∧ length ds = 3.
Proof.
  destruct (backoff_delays (H := example_build) (λ d : Z, d) example_draw 10000 50000 double_3_2
    [7%Z; 8%Z; 9%Z] (mkExponentialBackoff 20 50 double_3_2 None)) as (ds & p' & Hds & Hl & _).
  - intros a b g Hab. simpl. lia.
  - lia.
  - lia.
  - apply (scaling_fits_small 50). vm_compute. reflexivity.
  - reflexivity.
  - exists ds, p'. split; [exact Hds|exact Hl].
Defined.

(** The example in the documentation of the class, 10 minutes with a maximum of 10
    minutes and 2 seconds and factor 1.002: the first delay can be 20 minutes. *)
Lemma backoff_exceeds_maximum : ∃ p p',
  ExponentialBackoffPolicy_new (H := example_build) (G := Z) 600000000000 602000000000
    (binary_normalize 53 1024 4512606826625237 (-52) false) = Ret p ∧
  ExponentialBackoffPolicy_OnCompletion (λ d : Z, d) example_draw 1200000000%Z p
    = Ret (1200000%Z, p') ∧ (Z.quot (maximum_delay_ p) 1000 < 1200000)%Z.
Proof.
  eexists _, _. split; [vm_compute; reflexivity|]. split; [vm_compute; reflexivity|].
  vm_compute. reflexivity.
Qed.
