(* ===== verification/RetryLoop.v ===== *)
(** * The asynchronous retry loop (internal/async_retry_unary_rpc.h)

    [RetryAsyncUnaryRpc] as a client of the completion queue: its operations are the
    unary RPC of an attempt and the timer between two attempts.  The loop is written
    against the interfaces of [Policies.v]; the theorems say what it delivers in terms of
    the decisions of the retry policy on the failures it has seen. *)

From S2P Require Import Prelude Status Throw GrpcError CompletionQueue Policies.

Set Default Proof Using "Type".

Inductive retry_op := AttemptRpc | BackoffTimer (ms : Z).

Section loop.
Context {P B D T : Type} `{RetryPolicy P} `{BackoffPolicy B D}.
Context (grpc : StatusCode → Z) (IsPermanentFailure : Status → bool) (location_ : string).

(** With an event come the results of the RPC, the time, and a seed. *)
Record retry_result := mkRetryResult {
  retry_rpc : rpc_result T;
  retry_now : Z;
  retry_seed : D;
}.

(** [final_result_]: the values that were given to [set_value].  [attempts]: the calls
    of [async_call_]; [completions]: the completed RPCs and timers; [failures]: the failed attempts and their times.  [escaped]: what a
    policy did instead of returning. *)
Record retry_loop := mkRetryLoop {
  rpc_retry_policy_ : P;
  rpc_backoff_policy_ : B;
  is_idempotent_ : bool;
  final_result_ : list (Status + T);
  loop_started : bool;
  attempts : nat;
  completions : nat;
  failures : list (Z * Status);
  escaped : option (cxx ());
}.

Definition RetryAsyncUnaryRpc_new (p : P) (b : B) (is_idempotent : bool) : retry_loop :=
  mkRetryLoop p b is_idempotent [] false 0 0 [] None.

Definition set_final (v : Status + T) (s : retry_loop) : retry_loop :=
  mkRetryLoop (rpc_retry_policy_ s) (rpc_backoff_policy_ s) (is_idempotent_ s)
    (final_result_ s ++ [v]) (loop_started s) (attempts s) (completions s) (failures s) (escaped s).
Definition set_policies (p : P) (b : B) (s : retry_loop) : retry_loop :=
  mkRetryLoop p b (is_idempotent_ s) (final_result_ s) (loop_started s) (attempts s)
    (completions s) (failures s) (escaped s).
Definition set_escaped (e : cxx ()) (s : retry_loop) : retry_loop :=
  mkRetryLoop (rpc_retry_policy_ s) (rpc_backoff_policy_ s) (is_idempotent_ s)
    (final_result_ s) (loop_started s) (attempts s) (completions s) (failures s) (Some e).
Definition add_failure (now : Z) (st : Status) (s : retry_loop) : retry_loop :=
  mkRetryLoop (rpc_retry_policy_ s) (rpc_backoff_policy_ s) (is_idempotent_ s)
    (final_result_ s) (loop_started s) (attempts s) (completions s) (failures s ++ [(now, st)]) (escaped s).

Definition add_completion (s : retry_loop) : retry_loop :=
  mkRetryLoop (rpc_retry_policy_ s) (rpc_backoff_policy_ s) (is_idempotent_ s)
    (final_result_ s) (loop_started s) (attempts s) (S (completions s)) (failures s) (escaped s).

Definition DetailedStatus (context : string) (status : Status) : Status :=
  mkStatus (code_ status)
    (location_ +:+ context +:+ ", last error=" +:+ message_ status).

(** The value of an outcome, or what becomes of the loop without it. *)
Definition returned {A} (m : cxx A) (s : retry_loop) (f : A → retry_loop * list retry_op) :
    retry_loop * list retry_op :=
  match m with
  | Ret a => f a
  | Throw e => (set_escaped (Throw e) s, [])
  | Terminated t => (set_escaped (Terminated t) s, [])
  | Undefined u => (set_escaped (Undefined u) s, [])
  end.

(** [OnCompletion]. *)
Definition RetryAsyncUnaryRpc_OnCompletion (result : Status + T) (now : Z) (seed : D)
    (s : retry_loop) : retry_loop * list retry_op :=
  match result with
  | inr v => (set_final (inr v) s, [])
  | inl status =>
      let s := add_failure now status s in
      if negb (is_idempotent_ s) then
        (set_final (inl (DetailedStatus "non-idempotent operation failed" status)) s, [])
      else
        returned (OnFailure IsPermanentFailure now status (rpc_retry_policy_ s)) s
          (λ '(retry, p),
            let s := set_policies p (rpc_backoff_policy_ s) s in
            if negb retry then
              let failure_description :=
                if IsPermanentFailure status then "permanent failure"
                else "retry policy exhausted" in
              (set_final (inl (DetailedStatus failure_description status)) s, [])
            else
              returned (OnCompletion seed (rpc_backoff_policy_ s)) s
                (λ '(ms, b), (set_policies (rpc_retry_policy_ s) b s, [BackoffTimer ms])))
  end.

(** [StartIteration]. *)
Definition StartIteration (s : retry_loop) : retry_loop * list retry_op := (s, [AttemptRpc]).

(** The continuation of the backoff timer. *)
Definition OnBackoffTimer (r : Status + Z) (s : retry_loop) : retry_loop * list retry_op :=
  match r with
  | inr _ => StartIteration s
  | inl status => (set_final (inl (DetailedStatus "timer error" status)) s, [])
  end.

(** The operations: the RPC and the timer satisfy their futures, which runs the
    continuations above. *)
Definition retry_Notify (o : retry_op) (ok : bool) (r : retry_result) (s : retry_loop) :
    retry_loop * list retry_op * bool :=
  match o with
  | AttemptRpc =>
      (RetryAsyncUnaryRpc_OnCompletion (AsyncUnaryRpcFuture_Notify grpc ok (retry_rpc r))
         (retry_now r) (retry_seed r) (add_completion s), true)
  | BackoffTimer ms =>
      (OnBackoffTimer (AsyncTimerFuture_Notify ok (retry_now r)) (add_completion s), true)
  end.
(** [async_call_(context, request_, cq)]. *)
Definition retry_launch (o : retry_op) (s : retry_loop) : retry_loop :=
  match o with
  | AttemptRpc =>
      mkRetryLoop (rpc_retry_policy_ s) (rpc_backoff_policy_ s) (is_idempotent_ s)
        (final_result_ s) (loop_started s) (S (attempts s)) (completions s) (failures s) (escaped s)
  | BackoffTimer _ => s
  end.
(** [Start]: the first iteration. *)
Definition retry_Start (o : retry_op) (s : retry_loop) : option retry_loop :=
  match o with
  | AttemptRpc =>
      if loop_started s then None
      else Some (mkRetryLoop (rpc_retry_policy_ s) (rpc_backoff_policy_ s) (is_idempotent_ s)
        (final_result_ s) true (attempts s) (completions s) (failures s) (escaped s))
  | BackoffTimer _ => None
  end.

Context (result0 : retry_result).
Global Instance retry_ops : Operations retry_op retry_result retry_loop := {
  notify := retry_Notify;
  launch := retry_launch;
  cancel_op _ s := s;
  issue := retry_Start;
  no_results := result0;
}.
End loop.
Arguments retry_result : clear implicits.
Arguments retry_loop : clear implicits.

(** ** What the loop may deliver *)
Section outcome.
Context {P T : Type} `{RetryPolicy P} (permanent : Status → bool) (location_ : string).

(** [retried p h p']: the policy [p] retries the failures [h], and becomes [p']. *)
Definition retried (p : P) (h : list (Z * Status)) (p' : P) : Prop :=
  decisions permanent h p = Ret (replicate (length h) true, p').

(** The result of a loop with policy [p] whose attempts failed with [h]: a response; a
    failure that may not or that the policy does not retry; an error of the timer. *)
Inductive retry_outcome (p : P) (idempotent : bool) : list (Z * Status) → Status + T → Prop :=
| outcome_success h p' v :
    (h ≠ [] → idempotent = true) → retried p h p' → retry_outcome p idempotent h (inr v)
| outcome_non_idempotent now st :
    idempotent = false →
    retry_outcome p idempotent [(now, st)]
      (inl (DetailedStatus location_ "non-idempotent operation failed" st))
| outcome_not_retried h now st p' p'' :
    idempotent = true → retried p h p' → OnFailure permanent now st p' = Ret (false, p'') →
    retry_outcome p idempotent (h ++ [(now, st)])
      (inl (DetailedStatus location_
        (if permanent st then "permanent failure" else "retry policy exhausted") st))
| outcome_timer h p' :
    idempotent = true → h ≠ [] → retried p h p' →
    retry_outcome p idempotent h
      (inl (DetailedStatus location_ "timer error" (mkStatus kCancelled "timer canceled"))).

Lemma retried_snoc p h p' now st p'' :
  retried p h p' → OnFailure permanent now st p' = Ret (true, p'') →
  retried p (h ++ [(now, st)]) p''.
Proof.
  unfold retried. revert p. induction h as [|[now' st'] h IH]; intros p Hd Ho; simpl in *.
  - simplify_eq. by rewrite Ho.
  - destruct (OnFailure permanent now' st' p) as [[b p1]| | |]; simplify_eq/=.
    destruct (decisions permanent h p1) as [[bs p2]| | |] eqn:Hd1; simplify_eq/=.
    by rewrite (IH p1 Hd1 Ho).
Qed.
End outcome.

(** The policy that counts errors retries at most [m] failures. *)
Lemma error_count_retried permanent c m h p' :
  retried permanent (mkLimitedErrorCount c m) h p' →
  h = [] ∨ (c + Z.of_nat (length h) ≤ m)%Z.
Proof.
  unfold retried. revert c. induction h as [|[now st] h IH]; intros c Hd; [by left|]. right.
  simpl in Hd. unfold OnFailure in Hd. simpl in Hd.
  destruct (permanent st); simpl in Hd.
  { by destruct (decisions permanent h _) as [[]| | |]; simplify_eq/=. }
  case_bool_decide; simpl in Hd; [|done].
  destruct (decisions permanent h _) as [[bs p2]| | |] eqn:Hd1; simplify_eq/=.
  destruct (Z.ltb_spec m (c + 1)); [done|].
  destruct (IH (c + 1)%Z Hd1) as [->|]; simpl; lia.
Qed.

(** ** The invariant *)
Section retry_invariant.
Context {P B D T : Type} `{RetryPolicy P} `{BackoffPolicy B D}.
Context (grpc : StatusCode → Z) (permanent : Status → bool) (location_ : string).
Context (result0 : retry_result D T) (p0 : P) (b0 : B) (idempotent : bool).
Implicit Types (s : retry_loop P B T).

(** The attempts, and the completed attempts and timers, that [h] retried failures allow. *)
Definition attempts_allowed s : Prop :=
  ∃ h p', retried permanent p0 h p' ∧ attempts s ≤ S (length h) ∧
    completions s ≤ S (2 * length h).

(** The loop goes on: every failure was retried. *)
Record running s : Prop := {
  run_final : final_result_ s = [];
  run_escaped : escaped s = None;
  run_started : loop_started s = true;
  run_idempotent : is_idempotent_ s = idempotent;
  run_allowed : failures s ≠ [] → idempotent = true;
  run_retried : retried permanent p0 (failures s) (rpc_retry_policy_ s);
}.

(** With gRPC or about to be started: the RPC of an attempt that was made ([S n]) or not
    yet, or the timer after a failure.  Every failure is an attempt and a timer. *)
Inductive running_ops (attempts completions failures : nat) : list retry_op → list retry_op → Prop :=
| ops_attempt : attempts ≤ S failures → completions = 2 * failures →
    running_ops attempts completions failures [AttemptRpc] []
| ops_start_attempt : attempts ≤ failures → completions = 2 * failures →
    running_ops attempts completions failures [] [AttemptRpc]
| ops_timer ms : attempts ≤ failures → S completions = 2 * failures →
    running_ops attempts completions failures [BackoffTimer ms] []
| ops_start_timer ms : attempts ≤ failures → S completions = 2 * failures →
    running_ops attempts completions failures [] [BackoffTimer ms].

Inductive retry_inv (b : bool) s (l1 l2 : list retry_op) : Prop :=
| retry_new :
    l1 = [] → l2 = [] → s = RetryAsyncUnaryRpc_new p0 b0 idempotent → retry_inv b s l1 l2
| retry_running :
    running s → running_ops (attempts s) (completions s) (length (failures s)) l1 l2 → retry_inv b s l1 l2
| retry_finished v :
    l1 = [] → l2 = [] → loop_started s = true → escaped s = None → final_result_ s = [v] →
    retry_outcome permanent location_ p0 idempotent (failures s) v → attempts_allowed s →
    retry_inv b s l1 l2
| retry_escaped :
    l1 = [] → l2 = [] → loop_started s = true → escaped s ≠ None → final_result_ s = [] →
    attempts_allowed s → retry_inv b s l1 l2.

Lemma running_ops_perm a c n l l' k k' :
  l ≡ₚ l' → k ≡ₚ k' → running_ops a c n l k → running_ops a c n l' k'.
Proof.
  intros Hl Hs Hp. destruct Hp;
    repeat match goal with
    | H : [] ≡ₚ _ |- _ => apply Permutation_nil in H as ->
    | H : [_] ≡ₚ _ |- _ => symmetry in H; apply Permutation_singleton_r in H as ->
    end; by constructor.
Qed.

(** A failed or successful attempt. *)
Lemma retry_completed b s result now seed s' os :
  running s → attempts s ≤ S (length (failures s)) → completions s = S (2 * length (failures s)) →
  RetryAsyncUnaryRpc_OnCompletion permanent location_ result now seed s = (s', os) →
  retry_inv b s' [] os.
Proof.
  intros [Hf He Hst Hid Hal Hre] Ha Hcs. unfold RetryAsyncUnaryRpc_OnCompletion.
  assert (attempts_allowed s) as Hall
    by (exists (failures s), (rpc_retry_policy_ s); split_and!; [done|done|lia]).
  destruct result as [st|v]; [|intros; simplify_eq/=].
  - simpl. destruct (is_idempotent_ s) eqn:Hi; simpl.
    + destruct (OnFailure permanent now st (rpc_retry_policy_ s)) as [[[] p]|e|t|u] eqn:Ho; simpl.
      * destruct (OnCompletion seed (rpc_backoff_policy_ s)) as [[ms b']|e|t|u]; simpl;
          intros; simplify_eq/=; [|by apply retry_escaped..].
        apply retry_running; [split; simpl; try done; [congruence|by eapply retried_snoc]|]. simpl.
        rewrite length_app. simpl. constructor; lia.
      * intros; simplify_eq/=. eapply retry_finished; simpl; try done; [by rewrite Hf|].
        by eapply outcome_not_retried.
      * intros; simplify_eq/=. by apply retry_escaped.
      * intros; simplify_eq/=. by apply retry_escaped.
      * intros; simplify_eq/=. by apply retry_escaped.
    + assert (failures s = []) as Hnil.
      { destruct (failures s); [done|]. by rewrite <- Hid in Hal; discriminate Hal. }
      intros; simplify_eq/=. eapply retry_finished; simpl; try done; [by rewrite Hf|].
      rewrite Hnil. by apply outcome_non_idempotent.
  - eapply retry_finished; simpl; try done; [by rewrite Hf|]. by eapply outcome_success.
Qed.

Lemma retry_timer b s r s' os :
  running s → attempts s ≤ length (failures s) → completions s = 2 * length (failures s) →
  failures s ≠ [] → (∀ st, r = inl st → st = mkStatus kCancelled "timer canceled") →
  OnBackoffTimer location_ r s = (s', os) → retry_inv b s' [] os.
Proof.
  intros Hrun Ha Hcs Hne Hr. destruct r as [st|tp]; simpl; intros; simplify_eq/=.
  - destruct Hrun as [Hf He Hst Hid Hal Hre]. eapply retry_finished; simpl; try done.
    + by rewrite Hf.
    + rewrite (Hr st eq_refl). eapply outcome_timer; eauto.
    + exists (failures s), (rpc_retry_policy_ s). split; [done|]. simpl. lia.
  - unfold StartIteration in *. simplify_eq. apply retry_running; [done|]. by constructor.
Qed.

Lemma running_add_completion s : running s → running (add_completion s).
Proof. by intros []. Qed.

Lemma retry_notified b s o ok r s' os d :
  running s →
  match o with
  | AttemptRpc => attempts s ≤ S (length (failures s)) ∧ completions s = 2 * length (failures s)
  | BackoffTimer _ => attempts s ≤ length (failures s) ∧ S (completions s) = 2 * length (failures s)
  end →
  retry_Notify grpc permanent location_ o ok r s = (s', os, d) → retry_inv b s' [] os.
Proof.
  intros Hrun%running_add_completion Ho Hn. destruct o as [|ms]; simpl in Hn.
  - destruct (RetryAsyncUnaryRpc_OnCompletion _ _ _ _ _ _) as [s1 os1] eqn:Hc. simplify_eq.
    eapply retry_completed; [done|simpl; lia|simpl; lia|done].
  - destruct (OnBackoffTimer _ _ _) as [s1 os1] eqn:Hc. simplify_eq. destruct Ho as [Ha Hcs].
    eapply retry_timer; [done|simpl; lia|simpl; lia| | |exact Hc].
    + simpl. by destruct (failures s).
    + unfold AsyncTimerFuture_Notify. intros st. by destruct ok; intros; simplify_eq/=.
Qed.

Lemma retry_invariant :
  client_invariant (H0 := retry_ops grpc permanent location_ result0) retry_inv.
Proof.
  split; simpl.
  - intros b s l l' k k' Hl Hk Hi. destruct Hi; subst;
      try (apply Permutation_nil in Hl as ->; apply Permutation_nil in Hk as ->).
    + by apply retry_new.
    + apply retry_running; [done|]. by eapply running_ops_perm.
    + by eapply retry_finished.
    + by apply retry_escaped.
  - intros b s l k o ok r s' os d Hi Hn. destruct Hi as [| Hrun Hops| |]; try done.
    inversion Hops; subst; rewrite (right_id_L [] (++)); eapply retry_notified; try exact Hn; simpl; auto.
  - intros s l k o s' os d Hi Hn. destruct Hi as [| Hrun Hops| |]; try done.
    inversion Hops; subst; rewrite (right_id_L [] (++)); eapply retry_notified; try exact Hn; simpl; auto.
  - intros s l k o Hi. destruct Hi as [| Hrun Hops| |]; try done.
    apply retry_running; [by destruct o; destruct Hrun; split|].
    inversion Hops; subst; simpl; constructor; lia.
  - done.
  - intros b s l k o s' Hi. destruct o as [|ms]; [|done].
    destruct Hi as [-> -> ->|[]| |]; simpl.
    + intros [= <-]. apply retry_running; [by split|]. by constructor.
    + by rewrite run_started0.
    + by rewrite H3.
    + by rewrite H3.
  - intros b s l k []; [by apply retry_new|by apply retry_running|by eapply retry_finished|
      by apply retry_escaped].
Qed.
End retry_invariant.

(** ** Properties *)
Section retry_properties.
Context {P B D T : Type} `{Build} `{RetryPolicy P} `{BackoffPolicy B D}.
Context (grpc : StatusCode → Z) (permanent : Status → bool) (location_ : string).
Context (result0 : retry_result D T) (b0 : B).
Context (address : gset Z → Z) (address_fresh : ∀ X, address X ∉ X).

Lemma retry_reachable p0 idempotent n q ts :
  reachable (H0 := retry_ops grpc permanent location_ result0) address
    (RetryAsyncUnaryRpc_new p0 b0 idempotent) n (q, ts) →
  retry_inv permanent location_ p0 b0 idempotent (shutdown_ q) (client q) (handed q ts) (to_start ts).
Proof using address_fresh.
  apply (client_invariant_reachable (H0 := retry_ops grpc permanent location_ result0) address
    address_fresh); [apply retry_invariant|]. by apply retry_new.
Qed.

(** C29: in every interleaving on the completion queue, with shutdowns and cancelled
    timers, the final result of a retry loop is set at most once, to one of three outcomes:
    the response of the first successful attempt, after failures that the policy retried;
    the last error of the attempts with its reason (the request is not idempotent, the error
    is permanent, or the retry policy is exhausted), every earlier failure having been
    retried; or the error of a backoff timer that was cancelled, by [CancelAll()] or because
    the queue was shut down.  A loop that was started, and of which no policy threw, has set
    it when the queue is idle. *)
Theorem retry_loop_delivers p0 idempotent n q ts :
  reachable (H0 := retry_ops grpc permanent location_ result0) address
    (RetryAsyncUnaryRpc_new p0 b0 idempotent) n (q, ts) →
  length (final_result_ (client q)) ≤ 1 ∧
  (∀ v, final_result_ (client q) = [v] →
     retry_outcome permanent location_ p0 idempotent (failures (client q)) v) ∧
  (loop_started (client q) = true → escaped (client q) = None →
   outstanding q = ∅ → (∀ t, t ∈ ts → idle t) → ∃ v, final_result_ (client q) = [v]).
Proof using address_fresh.
  intros Hr%retry_reachable. split_and!.
  - destruct Hr as [? ? ->|[->]| |]; simpl; try lia; by rewrite H6 || rewrite H5; simpl; lia.
  - intros v Hv. destruct Hr as [? ? Hn|[Hn]| |]; [by rewrite Hn in Hv|congruence|congruence|congruence].
  - intros Hst He Ho Ht.
    rewrite (handed_idle (H0 := retry_ops grpc permanent location_ result0)),
      (to_start_idle (H0 := retry_ops grpc permanent location_ result0)) in Hr by done.
    destruct Hr as [? ? Hn|? Hops| |]; [by rewrite Hn in Hst|by inversion Hops|eauto|done].
Qed.

End retry_properties.

(** C30: with a [LimitedErrorCountRetryPolicy] for [m] failures a loop terminates, in every
    interleaving: at most [m + 1] RPCs are made, and at most [2 m + 1] RPCs and timers
    complete, after which the result is set or a policy did not return; and until then an RPC
    or a timer of the loop is with gRPC or about to be started, so that the loop never waits
    for nothing. *)
Theorem retry_attempts_bounded {B D T} `{Build} `{BackoffPolicy B D} (grpc : StatusCode → Z)
    permanent location_ (result0 : retry_result D T) (b0 : B) (address : gset Z → Z) m idempotent
    n q ts :
  (∀ X, address X ∉ X) → (0 ≤ m)%Z →
  reachable (H0 := retry_ops grpc permanent location_ result0) address
    (RetryAsyncUnaryRpc_new (LimitedErrorCountRetryPolicy_new m) b0 idempotent) n (q, ts) →
  let s := client q in
  (Z.of_nat (attempts s) ≤ m + 1)%Z ∧ (Z.of_nat (completions s) ≤ 2 * m + 1)%Z ∧
  (loop_started s = true → final_result_ s = [] → escaped s = None →
   (Z.of_nat (completions s) < 2 * m + 1)%Z ∧ in_flight q ts ≠ []).
Proof.
  intros Ha Hm Hr%retry_reachable s; [|done].
  assert (attempts_allowed permanent (LimitedErrorCountRetryPolicy_new m) s)
    as (h & p' & Hre & Hat & Hcs).
  { destruct Hr as [? ? Hn|[] Hops| |];
      [exists [], (LimitedErrorCountRetryPolicy_new m); subst s; rewrite Hn; split; [done|simpl; lia]
      | |done|done].
    exists (failures s), (rpc_retry_policy_ s). split; [done|].
    inversion Hops; unfold s; lia. }
  apply error_count_retried in Hre as Hle. split_and!; [destruct Hle as [->|]; simpl in *; lia..|].
  intros Hst Hf He. fold s in Hr. destruct Hr as [? ? Hn|[] Hops|v ???? Hfv|]; [by rewrite Hn in Hst| | |done].
  - apply error_count_retried in run_retried0 as Hle2.
    assert (Z.of_nat (length (failures s)) ≤ m)%Z by (destruct Hle2 as [->|]; simpl in *; lia).
    unfold in_flight. inversion Hops; simpl; split; try lia; try done; by destruct (handed q ts).
  - by rewrite Hfv in Hf.
Qed.

(** *** Example: two failures and a policy for one *)
Definition retry_example_permanent (s : Status) : bool := bool_decide (code_ s = kNotFound).
Definition retry_example_result (code : Z) : retry_result Z nat :=
  mkRetryResult (mkRpcResult (mkGrpcStatus code "try again") 7) 0 15%Z.
Definition retry_example_policy : BackoffPolicy (ExponentialBackoffPolicy Z) Z :=
  exponential_backoff (λ d : Z, d) example_draw.
Definition retry_example : Operations retry_op (retry_result Z nat)
    (retry_loop LimitedErrorCountRetryPolicy (ExponentialBackoffPolicy Z) nat) :=
  retry_ops (H0 := retry_example_policy) StatusCode_to_int retry_example_permanent "Get()"
    (retry_example_result 0).
Definition retry_example_loop :
    retry_loop LimitedErrorCountRetryPolicy (ExponentialBackoffPolicy Z) nat :=
  RetryAsyncUnaryRpc_new (LimitedErrorCountRetryPolicy_new 1)
    (mkExponentialBackoff 20000 50000 double_3_2 None) true.
Definition retry_example_event (tag : Z) (code : Z) (steps : nat) :
    list (nat * choice retry_op (retry_result Z nat)) :=
  (1, Event tag true (retry_example_result code)) :: replicate steps (1, Go).
Definition retry_schedule : list (nat * choice retry_op (retry_result Z nat)) :=
  [(0, Start AttemptRpc); (0, Go); (0, Go); (1, CallRun)] ++ retry_example_event 0 14 6
  ++ retry_example_event 1 0 6 ++ retry_example_event 2 14 5.

Lemma retry_loop_delivers_witness : ∃ q ts v,
  reachable (H := example_build) (H0 := retry_example) fresh retry_example_loop 2 (q, ts) ∧
  final_result_ (client q) = [v] ∧
  retry_outcome retry_example_permanent "Get()" (LimitedErrorCountRetryPolicy_new 1) true
    (failures (client q)) v.
Proof.
  destruct (run_check (H := example_build) (H0 := retry_example) fresh retry_example_loop 2
    retry_schedule (λ s, bool_decide (final_result_ (client s.1) =
      [inl (mkStatus kUnavailable "Get()retry policy exhausted, last error=try again")])))
    as (q & ts & Hr & Hp); [vm_compute; reflexivity|].
  apply bool_decide_eq_true in Hp. exists q, ts. eexists. split; [exact Hr|]. split; [exact Hp|].
  apply (retry_loop_delivers (H := example_build) (H1 := retry_example_policy) StatusCode_to_int
    retry_example_permanent "Get()" (retry_example_result 0) _ fresh (λ X, is_fresh X)
    (LimitedErrorCountRetryPolicy_new 1) true 2 q ts Hr). exact Hp.
Defined.

Lemma retry_attempts_bounded_witness : ∃ q ts,
  reachable (H := example_build) (H0 := retry_example) fresh retry_example_loop 2 (q, ts) ∧
  completions (client q) = 3 ∧ (Z.of_nat (attempts (client q)) ≤ 1 + 1)%Z.
Proof.
  destruct (run_check (H := example_build) (H0 := retry_example) fresh retry_example_loop 2
    retry_schedule (λ s, bool_decide (completions (client s.1) = 3)))
    as (q & ts & Hr & Hp); [vm_compute; reflexivity|].
  apply bool_decide_eq_true in Hp. exists q, ts. split; [exact Hr|]. split; [exact Hp|].
  refine (proj1 (retry_attempts_bounded (H := example_build) (H0 := retry_example_policy) StatusCode_to_int
    retry_example_permanent "Get()" (retry_example_result 0) _ fresh 1 true 2 q ts
    (λ X, is_fresh X) _ Hr)). lia.
Defined.

(** The third outcome: the backoff timer is cancelled. *)
Lemma retry_timer_cancelled : ∃ q ts,
  reachable (H := example_build) (H0 := retry_example) fresh retry_example_loop 2 (q, ts) ∧
  final_result_ (client q) =
    [inl (mkStatus kCancelled "Get()timer error, last error=timer canceled")].
Proof.
  destruct (run_check (H := example_build) (H0 := retry_example) fresh retry_example_loop 2
    (take 11 retry_schedule ++ [(1, Event 1 false (retry_example_result 0)); (1, Go); (1, Go)])
    (λ s, bool_decide (final_result_ (client s.1) =
      [inl (mkStatus kCancelled "Get()timer error, last error=timer canceled")])))
    as (q & ts & Hr & Hp); [vm_compute; reflexivity|].
  apply bool_decide_eq_true in Hp. by exists q, ts.
Qed.
