(* ===== verification/CLibrary.v ===== *)
(** * What the code uses of the C library

    Characters, [sscanf] and [snprintf] for integers, [strtoll], and the civil calendar
    of [gmtime_r] and [mktime], with the lemmas that relate scanning to printing and the
    two directions of the calendar. *)

From S2P Require Import Prelude Throw.
From Stdlib Require Export Ascii.

Set Default Proof Using "Type".

(** *** Characters *)
Definition code (c : ascii) : Z := Z.of_N (N_of_ascii c).
Definition isdigit (c : ascii) : bool := (48 <=? code c)%Z && (code c <=? 57)%Z.
Definition isspace (c : ascii) : bool :=
  (code c =? 32)%Z || ((9 <=? code c)%Z && (code c <=? 13)%Z).
Definition digit (z : Z) : ascii := ascii_of_N (Z.to_N (48 + z)).
(** [c_str()]: the characters before the first NUL. *)
Fixpoint c_str (s : string) : string :=
  match s with
  | "" => ""
  | String c s => if (code c =? 0)%Z then "" else String c (c_str s)
  end.

(** *** [sscanf]

    A scanner returns its value, the rest of the input, and the number of characters
    read. *)
Definition scanned A := option (A * string * nat).

Fixpoint skip_space (s : string) : string * nat :=
  match s with
  | String c r => if isspace c then let '(t, n) := skip_space r in (t, S n) else (s, 0)
  | "" => (s, 0)
  end.
(** At most [width] digits. *)
Fixpoint scan_digits (width : nat) (acc : Z) (s : string) : Z * string * nat :=
  match width, s with
  | S w, String c r =>
      if isdigit c then
        let '(z, t, n) := scan_digits w (10 * acc + (code c - 48)) r in (z, t, S n)
      else (acc, s, 0)
  | _, _ => (acc, s, 0)
  end.
(** [%<width>d]: white space, then a sign and digits in at most [width] characters. *)
Definition scan_int (width : nat) (s : string) : scanned Z :=
  let '(s, skipped) := skip_space s in
  let '(sign, s, w, signed) :=
    match s with
    | String "-"%char r => ((-1)%Z, r, width - 1, 1)
    | String "+"%char r => (1%Z, r, width - 1, 1)
    | _ => (1%Z, s, width, 0)
    end in
  let '(z, t, n) := scan_digits w 0 s in
  if n is 0 then None else Some ((sign * z)%Z, t, skipped + signed + n).
(** [strtoll] in base 10, without the limits of the type: the value and how many characters
    it takes. *)
Definition strtoll (s : string) : option (Z * nat) :=
  match scan_int (S (String.length s)) s with
  | Some (z, _, pos) => Some (z, pos)
  | None => None
  end.
(** A character of the format that is not white space. *)
Definition scan_char (c : ascii) (s : string) : scanned () :=
  match s with
  | String c' r => if bool_decide (c' = c) then Some ((), r, 1) else None
  | "" => None
  end.
(** [%c]. *)
Definition scan_any (s : string) : scanned ascii :=
  match s with String c r => Some (c, r, 1) | "" => None end.

(** *** [snprintf] *)
(** The last [w] digits. *)
Fixpoint pad (w : nat) (z : Z) : string :=
  match w with
  | 0 => ""
  | S w => String (digit (z `div` 10 ^ Z.of_nat w `mod` 10)) (pad w z)
  end.
Fixpoint ndigits (fuel : nat) (z : Z) : nat :=
  match fuel with
  | 0 => 1
  | S fuel => if (z <? 10)%Z then 1 else S (ndigits fuel (z `div` 10))
  end.
(** [%0<w>lld]; 64-bit integers have at most 19 digits. *)
Definition print_int (w : nat) (z : Z) : string :=
  if (z <? 0)%Z then String "-"%char (pad (Nat.max (w - 1) (ndigits 19 (- z))) (- z))
  else pad (Nat.max w (ndigits 19 z)) z.

(** *** The civil calendar *)

(** [struct tm], with the year as it is written and months from 1. *)
Record tm := mkTm {
  tm_year : Z; tm_mon : Z; tm_mday : Z; tm_hour : Z; tm_min : Z; tm_sec : Z;
}.
(** Days since 1970-01-01 of the Gregorian calendar; the year begins in March. *)
Definition days_from_civil (y m d : Z) : Z :=
  (let y := if m <=? 2 then y - 1 else y in
   let mp := (m + 9) `mod` 12 in
   365 * y + y `div` 4 - y `div` 100 + y `div` 400 + (153 * mp + 2) `div` 5 + d - 1 - 719468)%Z.
Definition timegm (t : tm) : Z :=
  (days_from_civil (tm_year t) (tm_mon t) (tm_mday t) * 86400
   + tm_hour t * 3600 + tm_min t * 60 + tm_sec t)%Z.
(** The date of a day: the century of the 400 years, the four years of the century, the
    year, then the month. *)
Definition civil_from_days (days : Z) : Z * Z * Z :=
  (let z := days + 719468 in
   let era := z `div` 146097 in
   let doe := z `mod` 146097 in
   let c := Z.min (doe `div` 36524) 3 in
   let r := doe - 36524 * c in
   let q := Z.min (r `div` 1461) 24 in
   let r := r - 1461 * q in
   let a := Z.min (r `div` 365) 3 in
   let doy := r - 365 * a in
   let mp := (5 * doy + 2) `div` 153 in
   let d := doy - (153 * mp + 2) `div` 5 + 1 in
   let m := if mp <? 10 then mp + 3 else mp - 9 in
   (400 * era + 100 * c + 4 * q + a + (if m <=? 2 then 1 else 0), m, d))%Z.
Definition gmtime_r (time : Z) : tm :=
  let '(y, m, d) := civil_from_days (time `div` 86400) in
  let s := (time `mod` 86400)%Z in
  mkTm y m d (s `div` 3600) (s `mod` 3600 `div` 60) (s `mod` 60).

(** *** Time points *)
Definition int64 (z : Z) : cxx Z :=
  if bool_decide (in_signed 64 z) then Ret z else Undefined SignedOverflow.
Definition from_time_t (t : Z) : cxx Z := int64 (t * 1000000000).
(** [duration_cast] truncates. *)
Definition to_time_t (tp : Z) : Z := Z.quot tp 1000000000.

(** ** The calendar *)

(** The days of each month of a leap year. *)
Definition month_days : list Z := [31; 29; 31; 30; 31; 30; 31; 31; 30; 31; 30; 31]%Z.

(** A quotient limited to [k]: the remainder exceeds the divisor only at [k]. *)
Lemma div_min x n k :
  (0 < n)%Z → (0 ≤ x)%Z → (0 ≤ k)%Z →
  let c := Z.min (x `div` n) k in
  (0 ≤ c ≤ k ∧ 0 ≤ x - n * c ∧ (c < k → x - n * c < n))%Z.
Proof.
  intros Hn Hx Hk c. pose proof (Z.div_mod x n) as Hd. pose proof (Z.mod_pos_bound x n Hn) as Hm.
  pose proof (Z.div_pos x n Hx Hn). subst c. nia.
Qed.

Definition valid_date (y m d : Z) : Prop :=
  (1 ≤ m ≤ 12 ∧ 1 ≤ d ≤ nth (Z.to_nat (m - 1)) month_days 0 ∧
   (m = 2 → d = 29 → y `mod` 4 = 0 ∧ (y `mod` 100 = 0 → y `mod` 400 = 0)))%Z.

(** The month and the day of a day of the year that begins in March. *)
Lemma month_of_doy doy :
  (0 ≤ doy ≤ 365)%Z →
  let mp := ((5 * doy + 2) `div` 153)%Z in
  let d := (doy - (153 * mp + 2) `div` 5 + 1)%Z in
  let m := (if mp <? 10 then mp + 3 else mp - 9)%Z in
  (1 ≤ m ≤ 12 ∧ 1 ≤ d ≤ nth (Z.to_nat (m - 1)) month_days 0 ∧
   (m + 9) `mod` 12 = mp ∧ (m = 2 → d = 29 → doy = 365))%Z.
Proof.
  intros Hd.
  assert (∀ k, 0 ≤ k ≤ 365 →
    let mp := (5 * k + 2) `div` 153 in
    let d := k - (153 * mp + 2) `div` 5 + 1 in
    let m := if mp <? 10 then mp + 3 else mp - 9 in
    (1 <=? m) && (m <=? 12) && (1 <=? d) && (d <=? nth (Z.to_nat (m - 1)) month_days 0)
    && ((m + 9) `mod` 12 =? mp) && (negb (m =? 2) || negb (d =? 29) || (k =? 365)) = true)%Z as Hall.
  { intros k Hk. assert (k = Z.of_nat (Z.to_nat k)) as -> by lia.
    assert (Z.to_nat k ∈ seq 0 366) as Hin by (apply elem_of_seq; lia).
    revert Hin. generalize (Z.to_nat k). clear. intros n Hn.
    revert n Hn. apply Forall_forall. apply (bool_decide_unpack _). vm_compute. reflexivity. }
  specialize (Hall doy Hd). cbv zeta in *. revert Hall.
  set (mp := ((5 * doy + 2) `div` 153)%Z). set (d := (doy - (153 * mp + 2) `div` 5 + 1)%Z).
  set (m := (if mp <? 10 then mp + 3 else mp - 9)%Z). clearbody d m.
  rewrite !andb_true_iff, !orb_true_iff, !Z.leb_le, !Z.eqb_eq, !negb_true_iff, !Z.eqb_neq.
  intros Hall. split_and!; try lia.
Qed.

Lemma civil_from_days_spec days y m d :
  civil_from_days days = (y, m, d) → days_from_civil y m d = days ∧ valid_date y m d.
Proof.
  unfold civil_from_days.
  set (z := (days + 719468)%Z). set (era := (z `div` 146097)%Z). set (doe := (z `mod` 146097)%Z).
  set (c := Z.min (doe `div` 36524) 3). set (r1 := (doe - 36524 * c)%Z).
  set (q := Z.min (r1 `div` 1461) 24). set (r2 := (r1 - 1461 * q)%Z).
  set (a := Z.min (r2 `div` 365) 3). set (doy := (r2 - 365 * a)%Z).
  assert (0 ≤ doe < 146097)%Z as Hdoe by (apply Z.mod_pos_bound; lia).
  assert (z = 146097 * era + doe)%Z as Hz by (apply Z.div_mod; lia).
  destruct (div_min doe 36524 3) as (Hc & Hr1 & Hc'); [lia..|]. fold c in Hc, Hr1, Hc'. fold r1 in Hr1, Hc'.
  destruct (div_min r1 1461 24) as (Hq & Hr2 & Hq'); [lia..|]. fold q in Hq, Hr2, Hq'. fold r2 in Hr2, Hq'.
  destruct (div_min r2 365 3) as (Ha & Hdoy & Ha'); [lia..|]. fold a in Ha, Hdoy, Ha'. fold doy in Hdoy, Ha'.
  assert (0 ≤ doy ≤ 365)%Z as Hdoy'.
  { split; [lia|]. unfold doy, r2, r1 in *. lia. }
  intros [= <- <- <-]. pose proof (month_of_doy doy Hdoy') as (Hm & Hd & Hmp & Hleap).
  cbv zeta in *.
  set (mp := ((5 * doy + 2) `div` 153)%Z) in *. set (dd := (doy - (153 * mp + 2) `div` 5 + 1)%Z) in *.
  set (mm := (if mp <? 10 then mp + 3 else mp - 9)%Z) in *.
  split.
  - unfold days_from_civil. cbv zeta. rewrite Hmp.
    assert ((if (mm <=? 2)%Z then 400 * era + 100 * c + 4 * q + a + (if (mm <=? 2)%Z then 1 else 0) - 1
      else 400 * era + 100 * c + 4 * q + a + (if (mm <=? 2)%Z then 1 else 0))
      = 400 * era + 100 * c + 4 * q + a)%Z as -> by (destruct (mm <=? 2)%Z; lia).
    set (Y := (400 * era + 100 * c + 4 * q + a)%Z).
    assert (Y `div` 4 = 100 * era + 25 * c + q)%Z as ->
      by (symmetry; apply (Z.div_unique _ _ _ a); unfold Y; lia).
    assert (Y `div` 100 = 4 * era + c)%Z as ->
      by (symmetry; apply (Z.div_unique _ _ _ (4 * q + a)); unfold Y; lia).
    assert (Y `div` 400 = era)%Z as ->
      by (symmetry; apply (Z.div_unique _ _ _ (100 * c + 4 * q + a)); unfold Y; lia).
    unfold dd, doy, r2, r1, Y. unfold z in Hz. lia.
  - split; [done|]. split; [done|]. intros Hm2 Hd29. specialize (Hleap Hm2 Hd29).
    rewrite Hm2. simpl. assert (a = 3)%Z as Ha3 by lia.
    assert (r2 = 1460)%Z as Hr by lia.
    assert (400 * era + 100 * c + 4 * q + a + 1 = 4 * (100 * era + 25 * c + q + 1))%Z as -> by lia.
    split; [rewrite Z.mul_comm; apply Z.mod_mul; lia|].
    intros H100. assert (q = 24)%Z as Hq24.
    { apply Z.mod_divide in H100 as [k Hk]; [|lia]. lia. }
    assert (c = 3)%Z as Hc3 by lia.
    rewrite Hq24, Hc3. apply Z.mod_divide; [lia|]. exists (era + 1)%Z. lia.
Qed.

Definition time_valid (t : tm) : Prop :=
  valid_date (tm_year t) (tm_mon t) (tm_mday t) ∧
  (0 ≤ tm_hour t < 24 ∧ 0 ≤ tm_min t < 60 ∧ 0 ≤ tm_sec t ≤ 60)%Z.

Global Instance time_valid_dec t : Decision (time_valid t).
Proof. unfold time_valid, valid_date. apply _. Defined.

Lemma timegm_gmtime time : timegm (gmtime_r time) = time ∧ time_valid (gmtime_r time).
Proof.
  unfold gmtime_r. destruct (civil_from_days (time `div` 86400)) as [[y m] d] eqn:Hc.
  apply civil_from_days_spec in Hc as [Hd Hv]. unfold timegm, time_valid. simpl. rewrite Hd.
  pose proof (Z.div_mod time 86400). pose proof (Z.mod_pos_bound time 86400).
  set (s := (time `mod` 86400)%Z) in *.
  pose proof (Z.div_mod s 3600). pose proof (Z.mod_pos_bound s 3600).
  pose proof (Z.div_mod (s `mod` 3600) 60). pose proof (Z.mod_pos_bound (s `mod` 3600) 60).
  assert (s `mod` 60 = s `mod` 3600 `mod` 60)%Z as Hmm.
  { change 3600%Z with (60 * 60)%Z. by rewrite Z.mod_mod_divide by (exists 60%Z; lia). }
  rewrite Hmm. split; [lia|]. split; [done|]. lia.
Qed.

(** A year is about 365.2425 days. *)
Lemma days_from_civil_bounds y m d :
  valid_date y m d →
  (365 * y + y `div` 4 - y `div` 100 + y `div` 400 - 719468 - 61 ≤ days_from_civil y m d
   ≤ 365 * y + y `div` 4 - y `div` 100 + y `div` 400 - 719468 + 306)%Z.
Proof.
  intros (Hm & Hd & _). unfold days_from_civil. cbv zeta.
  assert (1 ≤ d ≤ 31)%Z as Hd'.
  { split; [lia|]. etrans; [apply Hd|]. assert (m = 1 ∨ m = 2 ∨ m = 3 ∨ m = 4 ∨ m = 5 ∨ m = 6
      ∨ m = 7 ∨ m = 8 ∨ m = 9 ∨ m = 10 ∨ m = 11 ∨ m = 12)%Z as Hc by lia.
    destruct_or! Hc; subst; done. }
  assert (if (m <=? 2)%Z then (m + 9) `mod` 12 = m + 9 else (m + 9) `mod` 12 = m - 3)%Z as Hmp.
  { destruct (Z.leb_spec m 2); [apply Z.mod_small; lia|].
    symmetry. apply (Z.mod_unique _ _ 1); lia. }
  destruct (Z.leb_spec m 2); rewrite Hmp.
  2: { assert (0 ≤ (153 * (m - 3) + 2) `div` 5 < 276)%Z; [|lia].
    split; [apply Z.div_pos; lia|]. apply Z.div_lt_upper_bound; lia. }
  assert (306 ≤ (153 * (m + 9) + 2) `div` 5 ≤ 337)%Z.
  { split; [apply Z.div_le_lower_bound; lia|]. apply Z.div_le_upper_bound; lia. }
  pose proof (Z.div_mod y 4). pose proof (Z.mod_pos_bound y 4).
  pose proof (Z.div_mod y 100). pose proof (Z.mod_pos_bound y 100).
  pose proof (Z.div_mod y 400). pose proof (Z.mod_pos_bound y 400).
  pose proof (Z.div_mod (y - 1) 4). pose proof (Z.mod_pos_bound (y - 1) 4).
  pose proof (Z.div_mod (y - 1) 100). pose proof (Z.mod_pos_bound (y - 1) 100).
  pose proof (Z.div_mod (y - 1) 400). pose proof (Z.mod_pos_bound (y - 1) 400).
  lia.
Qed.

Lemma timegm_bounds t :
  time_valid t → (1678 ≤ tm_year t ≤ 2261)%Z → (-9220000000 ≤ timegm t ≤ 9220000000)%Z.
Proof.
  intros [Hd Ht] Hy. pose proof (days_from_civil_bounds _ _ _ Hd) as Hb. unfold timegm.
  pose proof (Z.div_mod (tm_year t) 4). pose proof (Z.mod_pos_bound (tm_year t) 4).
  pose proof (Z.div_mod (tm_year t) 100). pose proof (Z.mod_pos_bound (tm_year t) 100).
  pose proof (Z.div_mod (tm_year t) 400). pose proof (Z.mod_pos_bound (tm_year t) 400).
  lia.
Qed.

Lemma year_bounds t :
  time_valid t → (-9200000000 ≤ timegm t ≤ 9200000000)%Z → (1678 ≤ tm_year t ≤ 2261)%Z.
Proof.
  intros [Hd Hf] Ht. pose proof (days_from_civil_bounds _ _ _ Hd) as Hb. unfold timegm in Ht.
  generalize dependent (days_from_civil (tm_year t) (tm_mon t) (tm_mday t)). intros days Ht Hb.
  pose proof (Z.div_mod (tm_year t) 4). pose proof (Z.mod_pos_bound (tm_year t) 4).
  pose proof (Z.div_mod (tm_year t) 100). pose proof (Z.mod_pos_bound (tm_year t) 100).
  pose proof (Z.div_mod (tm_year t) 400). pose proof (Z.mod_pos_bound (tm_year t) 400).
  lia.
Qed.

(** ** Scanning what was printed *)

Definition stops (s : string) : Prop :=
  match s with String c _ => isdigit c = false | "" => True end.

Lemma digit_cases k : (0 ≤ k < 10)%Z →
  isdigit (digit k) = true ∧ code (digit k) = (48 + k)%Z.
Proof.
  intros Hk. assert (k = 0 ∨ k = 1 ∨ k = 2 ∨ k = 3 ∨ k = 4 ∨ k = 5 ∨ k = 6 ∨ k = 7 ∨ k = 8 ∨ k = 9)%Z
    as Hc by lia. by destruct_or! Hc; subst.
Qed.

Lemma mod_mod_10 z : (0 ≤ z `mod` 10 < 10)%Z.
Proof. apply Z.mod_pos_bound. lia. Qed.

Lemma scan_digits_pad n acc w z rest :
  w ≤ n → w = n ∨ stops rest →
  scan_digits n acc (pad w z +:+ rest)
    = ((acc * 10 ^ Z.of_nat w + z `mod` 10 ^ Z.of_nat w)%Z, rest, w).
Proof.
  revert n acc. induction w as [|w IH]; intros n acc Hn Hs; cbn [pad].
  - rewrite string_nil_app. change (10 ^ Z.of_nat 0)%Z with 1%Z.
    rewrite Z.mod_1_r, Z.mul_1_r, Z.add_0_r.
    destruct n as [|n]; [done|]. destruct Hs as [?|Hs]; [done|].
    destruct rest as [|c rest]; [done|]. simpl in *. by rewrite Hs.
  - destruct n as [|n]; [lia|]. rewrite string_cons_app. cbn [scan_digits].
    destruct (digit_cases _ (mod_mod_10 (z `div` 10 ^ Z.of_nat w))) as [-> ->].
    rewrite (IH n) by (destruct Hs; lia || (right; done)). f_equal. f_equal.
    rewrite Nat2Z.inj_succ, Z.pow_succ_r by lia.
    rewrite (Z.mul_comm 10 (10 ^ _)), Z.rem_mul_r by (try apply Z.pow_nonzero; lia). ring.
Qed.

Lemma scan_int_digit n c s :
  isdigit c = true →
  scan_int n (String c s) =
    let '(z, t, k) := scan_digits n 0 (String c s) in if k is 0 then None else Some (z, t, k).
Proof.
  intros Hc. unfold scan_int.
  assert (skip_space (String c s) = (String c s, 0)) as ->.
  { destruct c as [[] [] [] [] [] [] [] []]; try discriminate Hc; reflexivity. }
  destruct c as [[] [] [] [] [] [] [] []]; try discriminate Hc;
    destruct (scan_digits n 0 _) as [[z t] [|k]]; try done; by rewrite Z.mul_1_l.
Qed.

Lemma scan_int_pad n w z rest :
  0 < w → w ≤ n → w = n ∨ stops rest → (0 ≤ z < 10 ^ Z.of_nat w)%Z →
  scan_int n (pad w z +:+ rest) = Some (z, rest, w).
Proof.
  intros Hw Hn Hs Hz. destruct w as [|w]; [lia|]. cbn [pad]. rewrite string_cons_app.
  rewrite scan_int_digit by apply digit_cases, mod_mod_10.
  pose proof (scan_digits_pad n 0 (S w) z rest Hn Hs) as Hp. cbn [pad] in Hp.
  rewrite string_cons_app in Hp. rewrite Hp.
  by rewrite Z.mod_small.
Qed.

(** The text has no NUL. *)
Lemma c_str_pad w z rest : c_str (pad w z +:+ rest) = pad w z +:+ c_str rest.
Proof.
  induction w as [|w IH]; [done|]. cbn [pad]. rewrite !string_cons_app. cbn [c_str].
  destruct (digit_cases _ (mod_mod_10 (z `div` 10 ^ Z.of_nat w))) as [_ ->].
  pose proof (mod_mod_10 (z `div` 10 ^ Z.of_nat w)).
  destruct (Z.eqb_spec (48 + (z `div` 10 ^ Z.of_nat w) `mod` 10) 0); [lia|]. by rewrite IH.
Qed.

#[local] Arguments pad : simpl never.

Lemma pad_app a b z : (0 ≤ z)%Z → pad (a + b) z = pad a (z `div` 10 ^ Z.of_nat b) +:+ pad b z.
Proof.
  intros Hz. induction a as [|a IH]; [done|]. cbn [Nat.add]. unfold pad; fold pad.
  rewrite string_cons_app, IH. f_equal. f_equal. f_equal.
  rewrite Z.div_div by (try apply Z.pow_nonzero; try apply Z.pow_pos_nonneg; lia).
  rewrite <- Z.pow_add_r by lia. do 2 f_equal. lia.
Qed.

Lemma iter_mul_10 n z : Nat.iter n (λ z, z * 10)%Z z = (z * 10 ^ Z.of_nat n)%Z.
Proof.
  induction n as [|n IH]; [by rewrite Z.mul_1_r|].
  simpl. rewrite IH, Nat2Z.inj_succ, Z.pow_succ_r by lia. ring.
Qed.

Lemma int64_small z : (-9223372036854775808 ≤ z ≤ 9223372036854775807)%Z → int64 z = Ret z.
Proof.
  intros Hz. unfold int64. rewrite bool_decide_true; [done|].
  unfold in_signed. change (2 ^ (64 - 1))%Z with 9223372036854775808%Z. lia.
Qed.

(** The texts have no NUL. *)
Fixpoint no_nul (s : string) : bool :=
  match s with "" => true | String c s => negb (code c =? 0)%Z && no_nul s end.

Lemma no_nul_c_str s : no_nul s = true → c_str s = s.
Proof.
  induction s as [|c s IH]; simpl; [done|].
  destruct (code c =? 0)%Z; simpl; [done|]. intros Hs. by rewrite IH.
Qed.

Lemma no_nul_app a b : no_nul (a +:+ b) = no_nul a && no_nul b.
Proof.
  induction a as [|c a IH]; [done|]. rewrite string_cons_app. cbn [no_nul].
  by rewrite IH, andb_assoc.
Qed.

Lemma no_nul_cons c s : no_nul (String c s) = negb (code c =? 0)%Z && no_nul s.
Proof. done. Qed.

Lemma no_nul_pad w z : no_nul (pad w z) = true.
Proof.
  induction w as [|w IH]; [done|]. unfold pad; fold pad. cbn [no_nul]. rewrite IH, andb_true_r.
  pose proof (mod_mod_10 (z `div` 10 ^ Z.of_nat w)) as Hk.
  destruct (digit_cases _ Hk) as [_ ->]. apply negb_true_iff, Z.eqb_neq. lia.
Qed.

Lemma ndigits_le fuel w z : 0 < w → (0 ≤ z < 10 ^ Z.of_nat w)%Z → ndigits fuel z ≤ w.
Proof.
  revert w z. induction fuel as [|fuel IH]; intros w z Hw Hz; simpl; [lia|].
  destruct (Z.ltb_spec z 10); [lia|]. destruct w as [|[|w]]; [lia|simpl in Hz; lia|].
  assert (ndigits fuel (z `div` 10) ≤ S w); [|lia]. apply IH; [lia|].
  split; [apply Z.div_pos; lia|]. apply Z.div_lt_upper_bound; [lia|].
  rewrite <- Z.pow_succ_r by lia. rewrite <- Nat2Z.inj_succ. apply Hz.
Qed.

Lemma print_int_pad w z : 0 < w → (0 ≤ z < 10 ^ Z.of_nat w)%Z → print_int w z = pad w z.
Proof.
  intros Hw Hz. unfold print_int. destruct (Z.ltb_spec z 0); [lia|].
  pose proof (ndigits_le 19 w z Hw Hz). f_equal. lia.
Qed.

Lemma print_year y : (1000 ≤ y < 10000)%Z → print_int 1 y = pad 4 y.
Proof.
  intros Hy. unfold print_int. destruct (Z.ltb_spec y 0); [lia|]. f_equal.
  assert (ndigits 19 y = 4) as ->; [|done]. cbn [ndigits].
  pose proof (Z.div_mod y 10). pose proof (Z.mod_pos_bound y 10).
  pose proof (Z.div_mod (y `div` 10) 10). pose proof (Z.mod_pos_bound (y `div` 10) 10).
  pose proof (Z.div_mod (y `div` 10 `div` 10) 10). pose proof (Z.mod_pos_bound (y `div` 10 `div` 10) 10).
  destruct (Z.ltb_spec y 10); [lia|]. destruct (Z.ltb_spec (y `div` 10) 10); [lia|].
  destruct (Z.ltb_spec (y `div` 10 `div` 10) 10); [lia|].
  destruct (Z.ltb_spec (y `div` 10 `div` 10 `div` 10) 10); [done|lia].
Qed.

(** ** Output streams *)

(** [std::setw] and [std::setfill]: padding on the left. *)
Definition setw (fill : ascii) (w : nat) (s : string) : string :=
  Nat.iter (w - String.length s) (String fill) s.

Lemma ndigits_pos fuel z : 0 < ndigits fuel z.
Proof. destruct fuel; simpl; [lia|]. case_match; lia. Qed.

Lemma ndigits_enough fuel z :
  (0 ≤ z < 10 ^ Z.of_nat (S fuel))%Z → (z < 10 ^ Z.of_nat (ndigits fuel z))%Z.
Proof.
  revert z. induction fuel as [|fuel IH]; intros z Hz; [apply Hz|]. simpl ndigits.
  destruct (Z.ltb_spec z 10); [done|].
  rewrite (Nat2Z.inj_succ (S fuel)), Z.pow_succ_r in Hz by lia.
  assert (z `div` 10 < 10 ^ Z.of_nat (ndigits fuel (z `div` 10)))%Z as Hd.
  { apply IH. split; [apply Z.div_pos; lia|]. apply Z.div_lt_upper_bound; lia. }
  rewrite Nat2Z.inj_succ, Z.pow_succ_r by lia.
  pose proof (Z.div_mod z 10). pose proof (mod_mod_10 z). lia.
Qed.

Lemma length_pad w z : String.length (pad w z) = w.
Proof. induction w as [|w IH]; [done|]. unfold pad; fold pad. simpl. by rewrite IH. Qed.

Lemma pad_zeros n z : (0 ≤ z)%Z → (z < 10 ^ Z.of_nat n)%Z →
  ∀ k, pad (k + n) z = Nat.iter k (String "0") (pad n z).
Proof.
  intros Hz Hn k. rewrite pad_app by done. rewrite Z.div_small by done.
  induction k as [|k IH]; [done|]. unfold pad at 1; fold pad. rewrite string_cons_app, IH.
  simpl. done.
Qed.

(** Integers that are printed with the fill character ['0']. *)
Lemma setw_pad w z :
  0 < w → w ≤ 20 → (0 ≤ z < 10 ^ Z.of_nat w)%Z → setw "0" w (print_int 1 z) = pad w z.
Proof.
  intros Hw Hw' Hz. unfold print_int, setw. destruct (Z.ltb_spec z 0); [lia|].
  pose proof (ndigits_pos 19 z). pose proof (ndigits_le 19 w z Hw Hz).
  rewrite Nat.max_r, length_pad by lia.
  rewrite <- pad_zeros; [f_equal; lia|lia|]. apply ndigits_enough. split; [lia|].
  eapply Z.lt_le_trans; [apply Hz|]. apply Z.pow_le_mono_r; lia.
Qed.
