(* ===== verification/Rfc3339.v ===== *)
(** * Timestamps (internal/parse_rfc3339.cc, internal/format_time_point.cc)

    Both directions.  A [time_point] is a 64-bit number of nanoseconds since the epoch, as
    in libstdc++. *)

From S2P Require Import Prelude Status Throw CLibrary.

Set Default Proof Using "Type".

(** ** [ParseRfc3339] *)
Section parse.
Context `{Build}.
(** [mktime], for a time that is not daylight saving time, and the current time. *)
Context (mktime : tm → Z) (now : Z).

Definition ReportError {A} (timestamp msg : string) : cxx A :=
  ThrowInvalidArgument ("Error parsing RFC 3339 timestamp: " +:+ msg +:+
    " Valid format is YYYY-MM-DD[Tt]HH:MM:SS[.s+](Z|[+-]HH:MM), got=" +:+ timestamp).

Definition IsLeapYear (year : Z) : bool :=
  (Z.rem year 4 =? 0)%Z && (negb (Z.rem year 100 =? 0)%Z || (Z.rem year 400 =? 0)%Z).

Definition kMaxDaysInMonth : list Z := [31; 29; 31; 30; 31; 30; 31; 31; 30; 31; 30; 31]%Z.

(** The fields that [sscanf] fills with ["%4d-%2d-%2d%c%2d:%2d:%2d%n"]. *)
Definition scan_date_time (buffer : string) : scanned (tm * ascii) :=
  '(year, b, n1) ← scan_int 4 buffer;
  '(_, b, n2) ← scan_char "-"%char b;
  '(month, b, n3) ← scan_int 2 b;
  '(_, b, n4) ← scan_char "-"%char b;
  '(day, b, n5) ← scan_int 2 b;
  '(sep, b, n6) ← scan_any b;
  '(hours, b, n7) ← scan_int 2 b;
  '(_, b, n8) ← scan_char ":"%char b;
  '(minutes, b, n9) ← scan_int 2 b;
  '(_, b, n10) ← scan_char ":"%char b;
  '(seconds, b, n11) ← scan_int 2 b;
  Some (mkTm year month day hours minutes seconds, sep, b,
    n1 + n2 + n3 + n4 + n5 + n6 + n7 + n8 + n9 + n10 + n11).

Definition check_fields (timestamp : string) (t : tm) (sep : ascii) : cxx () :=
  if negb (bool_decide (sep = "T"%char) || bool_decide (sep = "t"%char)) then
    ReportError timestamp "Invalid date-time separator, expected 'T' or 't'."
  else if ((tm_mon t <? 1) || (12 <? tm_mon t))%Z then
    ReportError timestamp "Out of range month."
  else if ((tm_mday t <? 1) || (nth (Z.to_nat (tm_mon t - 1)) kMaxDaysInMonth 0 <? tm_mday t))%Z then
    ReportError timestamp "Out of range day for given month."
  else if (tm_mon t =? 2)%Z && (29 - 1 <? tm_mday t)%Z && negb (IsLeapYear (tm_year t)) then
    ReportError timestamp "Out of range day for given month."
  else if ((tm_hour t <? 0) || (24 <=? tm_hour t))%Z then
    ReportError timestamp "Out of range hour."
  else if ((tm_min t <? 0) || (60 <=? tm_min t))%Z then
    ReportError timestamp "Out of range minute."
  else if ((tm_sec t <? 0) || (60 <? tm_sec t))%Z then
    ReportError timestamp "Out of range second."
  else Ret ().

(** The time point, and the rest of the buffer. *)
Definition ParseDateTime (buffer timestamp : string) : cxx (Z * string) :=
  match scan_date_time buffer with
  | Some (t, sep, rest, pos) =>
      if negb (bool_decide (pos = 19)) then
        ReportError timestamp
          "Invalid format for RFC 3339 timestamp detected while parsing the base date and time portion."
      else
        _ ← check_fields timestamp t sep;
        tp ← from_time_t (mktime t);
        Ret (tp, rest)
  | None =>
      ReportError timestamp
        "Invalid format for RFC 3339 timestamp detected while parsing the base date and time portion."
  end.

Fixpoint skip_digits (s : string) : string :=
  match s with
  | String c r => if isdigit c then skip_digits r else s
  | "" => s
  end.

(** The loop that normalizes to nanoseconds multiplies [9 - pos] times. *)
Definition ParseFractionalSeconds (buffer timestamp : string) : cxx (Z * string) :=
  match buffer with
  | String "."%char b =>
      match scan_int 9 b with
      | Some (z, rest, pos) =>
          Ret (Nat.iter (9 - pos) (λ z, z * 10)%Z z, skip_digits rest)
      | None => ReportError timestamp "Invalid fractional seconds component."
      end
  | _ => Ret (0%Z, buffer)
  end.

Definition scan_offset (b : string) : scanned (Z * Z) :=
  '(hours, b, n1) ← scan_int 2 b;
  '(_, b, n2) ← scan_char ":"%char b;
  '(minutes, b, n3) ← scan_int 2 b;
  Some (hours, minutes, b, n1 + n2 + n3).

(** The offset in seconds. *)
Definition ParseOffset (buffer timestamp : string) : cxx (Z * string) :=
  match buffer with
  | String c b =>
      if bool_decide (c = "+"%char) || bool_decide (c = "-"%char) then
        let positive := bool_decide (c = "+"%char) in
        match scan_offset b with
        | Some (hours, minutes, rest, pos) =>
            if negb (bool_decide (pos = 5)) then
              ReportError timestamp "Invalid timezone offset, expected [+-]HH:MM."
            else if ((hours <? 0) || (24 <=? hours))%Z then
              ReportError timestamp "Out of range offset hour."
            else if ((minutes <? 0) || (60 <=? minutes))%Z then
              ReportError timestamp "Out of range offset minute."
            else if positive then Ret (hours * 3600 + minutes * 60, rest)%Z
            else Ret (- (hours * 3600) - minutes * 60, rest)%Z
        | None => ReportError timestamp "Invalid timezone offset, expected [+-]HH:MM."
        end
      else if negb (bool_decide (c = "Z"%char) || bool_decide (c = "z"%char)) then
        ReportError timestamp "Invalid timezone offset, expected 'Z' or 'z'."
      else Ret (0%Z, b)
  | "" => ReportError timestamp "Invalid timezone offset, expected 'Z' or 'z'."
  end.

Definition kLocalTimeOffset : Z := mktime (gmtime_r now) - now.

Definition ParseRfc3339 (timestamp : string) : cxx Z :=
  let buffer := c_str timestamp in
  '(time_point, buffer) ← ParseDateTime buffer timestamp;
  '(fractional_seconds, buffer) ← ParseFractionalSeconds buffer timestamp;
  '(offset, buffer) ← ParseOffset buffer timestamp;
  if negb (bool_decide (buffer = "")) then
    ReportError timestamp "Additional text after RFC 3339 date."
  else
    tp ← int64 (time_point + fractional_seconds);
    tp ← int64 (tp - offset * 1000000000);
    int64 (tp - kLocalTimeOffset * 1000000000).
End parse.

(** ** Formatting *)
Definition FormatFractional (ns : Z) : string :=
  if (ns =? 0)%Z then ""
  else if (Z.rem ns 1000000 =? 0)%Z then "." +:+ print_int 3 (Z.quot ns 1000000)
  else if (Z.rem ns 1000 =? 0)%Z then "." +:+ print_int 6 (Z.quot ns 1000)
  else "." +:+ print_int 9 ns.

Definition AsUtcTm (tp : Z) : tm := gmtime_r (to_time_t tp).

(** [strftime]: [%Y] is not padded, the other fields have two digits. *)
Definition FormatRfc3339 (tp : Z) : string :=
  let t := AsUtcTm tp in
  let result := print_int 1 (tm_year t) +:+ "-" +:+ pad 2 (tm_mon t) +:+ "-" +:+ pad 2 (tm_mday t)
    +:+ "T" +:+ pad 2 (tm_hour t) +:+ ":" +:+ pad 2 (tm_min t) +:+ ":" +:+ pad 2 (tm_sec t) in
  let fractional := (tp - Z.quot tp 1000000000 * 1000000000)%Z in
  result +:+ FormatFractional fractional +:+ "Z".

Definition FormatV4SignedUrlTimestamp (tp : Z) : string :=
  let t := AsUtcTm tp in
  print_int 1 (tm_year t) +:+ pad 2 (tm_mon t) +:+ pad 2 (tm_mday t)
    +:+ "T" +:+ pad 2 (tm_hour t) +:+ pad 2 (tm_min t) +:+ pad 2 (tm_sec t) +:+ "Z".

Definition FormatV4SignedUrlScope (tp : Z) : string :=
  let t := AsUtcTm tp in
  print_int 1 (tm_year t) +:+ pad 2 (tm_mon t) +:+ pad 2 (tm_mday t).

#[local] Arguments pad : simpl never.

(** [YYYY-MM-DD<sep>HH:MM:SS] *)
Definition date_time_text (t : tm) (sep : ascii) : string :=
  pad 4 (tm_year t) +:+ "-" +:+ pad 2 (tm_mon t) +:+ "-" +:+ pad 2 (tm_mday t)
    +:+ String sep (pad 2 (tm_hour t) +:+ ":" +:+ pad 2 (tm_min t) +:+ ":" +:+ pad 2 (tm_sec t)).
(** Every field has the width of its text. *)
Definition fields_fit (t : tm) : Prop :=
  (0 ≤ tm_year t < 10000 ∧ 0 ≤ tm_mon t < 100 ∧ 0 ≤ tm_mday t < 100 ∧
   0 ≤ tm_hour t < 100 ∧ 0 ≤ tm_min t < 100 ∧ 0 ≤ tm_sec t < 100)%Z.

Lemma scan_date_time_text t sep rest :
  fields_fit t →
  scan_date_time (date_time_text t sep +:+ rest) = Some (t, sep, rest, 19).
Proof.
  intros (Hy & Hmo & Hd & Hh & Hmi & Hs). unfold date_time_text, scan_date_time.
  repeat first [rewrite string_app_assoc | rewrite string_cons_app | rewrite string_nil_app].
  rewrite (scan_int_pad 4 4) by first [lia|by left]. simpl.
  repeat (rewrite (scan_int_pad 2 2) by first [lia|by left]; simpl).
  by destruct t.
Qed.

(** ** Well-formed timestamps *)

(** The digits of a fraction: how many, and their value. *)
Definition fraction := option (nat * Z).
Definition fraction_fit (f : fraction) : Prop :=
  match f with Some (w, v) => 0 < w ∧ (0 ≤ v < 10 ^ Z.of_nat w)%Z | None => True end.
Definition fraction_text (f : fraction) : string :=
  match f with Some (w, v) => "." +:+ pad w v | None => "" end.
(** Nanoseconds: digits after the ninth do not count. *)
Definition fraction_ns (f : fraction) : Z :=
  match f with
  | Some (w, v) =>
      if decide (w ≤ 9) then (v * 10 ^ Z.of_nat (9 - w))%Z else (v `div` 10 ^ Z.of_nat (w - 9))%Z
  | None => 0
  end.

(** A single character, which should be [Z] or [z], or hours and minutes. *)
Inductive offset := Letter (c : ascii) | Offset (positive : bool) (hours minutes : Z).
Abbreviation Zulu := (Letter "Z").
(** A character that does not begin anything else. *)
Definition offset_fit (o : offset) : Prop :=
  match o with
  | Letter c => isdigit c = false ∧ c ≠ "."%char ∧ c ≠ "+"%char ∧ c ≠ "-"%char ∧ code c ≠ 0%Z
  | Offset _ h m => (0 ≤ h < 100 ∧ 0 ≤ m < 100)%Z
  end.
Definition offset_text (o : offset) : string :=
  match o with
  | Letter c => String c ""
  | Offset p h m => String (if p then "+" else "-")%char (pad 2 h +:+ ":" +:+ pad 2 m)
  end.
Definition offset_valid (o : offset) : Prop :=
  match o with
  | Letter c => c = "Z"%char ∨ c = "z"%char
  | Offset _ h m => (h < 24 ∧ m < 60)%Z
  end.
Definition offset_seconds (o : offset) : Z :=
  match o with
  | Letter _ => 0
  | Offset p h m => if p then h * 3600 + m * 60 else - (h * 3600 + m * 60)
  end.

Definition rfc3339_text (t : tm) (sep : ascii) (f : fraction) (o : offset) : string :=
  date_time_text t sep +:+ fraction_text f +:+ offset_text o.

Definition sep_valid (sep : ascii) : Prop := sep = "T"%char ∨ sep = "t"%char.

(** The instant in nanoseconds since the epoch. *)
Definition instant (t : tm) (f : fraction) (o : offset) : Z :=
  (timegm t * 1000000000 + fraction_ns f - offset_seconds o * 1000000000)%Z.

Lemma skip_digits_pad w z rest : stops rest → skip_digits (pad w z +:+ rest) = rest.
Proof.
  intros Hs. induction w as [|w IH].
  - unfold pad. rewrite string_nil_app. destruct rest as [|c rest]; [done|].
    simpl in *. by rewrite Hs.
  - unfold pad; fold pad. rewrite string_cons_app. cbn [skip_digits].
    destruct (digit_cases _ (mod_mod_10 (z `div` 10 ^ Z.of_nat w))) as [-> _]. done.
Qed.

Lemma offset_stops o : offset_fit o → stops (offset_text o).
Proof. destruct o as [|[]]; [by intros []|done..]. Qed.

Section parse_text.
Context `{Build}.

Lemma ParseFractionalSeconds_text f o timestamp :
  fraction_fit f → offset_fit o →
  ParseFractionalSeconds (fraction_text f +:+ offset_text o) timestamp
    = Ret (fraction_ns f, offset_text o).
Proof.
  intros Hf Ho. pose proof (offset_stops o Ho) as Hstops. revert Hf.
  destruct f as [[w v]|]; simpl.
  - intros [Hw Hv]. rewrite string_nil_app. destruct (decide (w ≤ 9)).
    + rewrite scan_int_pad by first [lia|right; done]. rewrite iter_mul_10.
      do 3 f_equal. pose proof (skip_digits_pad 0 0 (offset_text o) Hstops). done.
    + assert (w = 9 + (w - 9)) as Hw9 by lia. rewrite Hw9 at 1. rewrite pad_app by lia.
      rewrite string_app_assoc, scan_int_pad; [| lia|lia|by left|].
      * simpl. by rewrite skip_digits_pad.
      * split; [apply Z.div_pos; [lia|apply Z.pow_pos_nonneg; lia]|].
        apply Z.div_lt_upper_bound; [apply Z.pow_pos_nonneg; lia|].
        rewrite <- Z.pow_add_r by lia. rewrite <- Nat2Z.inj_add.
        replace (w - 9 + 9) with w by lia. apply Hv.
  - intros _. rewrite string_nil_app. destruct o as [c|[]]; [|done..].
    destruct Ho as (_ & Hdot & _). unfold ParseFractionalSeconds, offset_text.
    by destruct c as [[] [] [] [] [] [] [] []].
Qed.

Lemma ParseOffset_text o timestamp :
  offset_fit o →
  (offset_valid o → ParseOffset (offset_text o) timestamp = Ret (offset_seconds o, "")) ∧
  (¬ offset_valid o → ∃ msg, ParseOffset (offset_text o) timestamp = ReportError timestamp msg).
Proof.
  destruct o as [c|p h m]; simpl.
  { intros (_ & _ & Hp & Hm & _). rewrite !(bool_decide_false (c = _)) by done. cbn [orb].
    assert (bool_decide (c = "Z"%char) || bool_decide (c = "z"%char)
      = bool_decide (c = "Z"%char ∨ c = "z"%char)) as -> by (by rewrite bool_decide_or).
    case_bool_decide; [tauto|]. split; [tauto|by eexists]. }
  intros [Hh Hm].
  assert (scan_offset (pad 2 h +:+ ":" +:+ pad 2 m) = Some (h, m, "", 5)) as Hs.
  { unfold scan_offset. rewrite (scan_int_pad 2 2) by first [lia|by left]. simpl.
    rewrite string_nil_app, <- (string_app_nil_r (pad 2 m)).
    rewrite (scan_int_pad 2 2) by first [lia|by left]. done. }
  simpl in Hs. destruct p; simpl; rewrite Hs; simpl;
    (destruct (Z.ltb_spec h 0); [lia|]); (destruct (Z.ltb_spec m 0); [lia|]);
    (destruct (Z.leb_spec 24 h); [split; [lia|by eexists]|]);
    (destruct (Z.leb_spec 60 m); [split; [lia|by eexists]|]); (split; [intros _|lia]);
    do 2 f_equal; lia.
Qed.

Lemma IsLeapYear_spec y :
  (0 ≤ y)%Z → IsLeapYear y = true ↔ (y `mod` 4 = 0 ∧ (y `mod` 100 = 0 → y `mod` 400 = 0))%Z.
Proof.
  intros Hy. unfold IsLeapYear. rewrite !Z.rem_mod_nonneg by lia.
  rewrite andb_true_iff, orb_true_iff, negb_true_iff, !Z.eqb_eq, Z.eqb_neq. lia.
Qed.

Lemma check_fields_spec timestamp t sep :
  fields_fit t →
  (sep_valid sep ∧ time_valid t → check_fields timestamp t sep = Ret ()) ∧
  (¬ (sep_valid sep ∧ time_valid t) → ∃ msg, check_fields timestamp t sep = ReportError timestamp msg).
Proof.
  intros (Hy & _). unfold check_fields, time_valid, valid_date, sep_valid.
  change month_days with kMaxDaysInMonth.
  pose proof (IsLeapYear_spec (tm_year t) (proj1 Hy)) as Hleap.
  set (days := nth (Z.to_nat (tm_mon t - 1)) kMaxDaysInMonth 0%Z).
  assert (tm_mon t = 2 → days = 29)%Z as Hdays by (intros Hm; unfold days; by rewrite Hm).
  clearbody days.
  assert (sep = "T"%char ∨ sep = "t"%char ∨ ¬ (sep = "T"%char ∨ sep = "t"%char)) as Hsep
    by (destruct (decide (sep = "T"%char)), (decide (sep = "t"%char)); naive_solver).
  assert (bool_decide (sep = "T"%char) || bool_decide (sep = "t"%char)
    = bool_decide (sep = "T"%char ∨ sep = "t"%char)) as -> by (by rewrite bool_decide_or).
  case_bool_decide as Hs; cbn [orb negb]; [|split; [tauto|by eexists]].
  destruct (Z.ltb_spec (tm_mon t) 1), (Z.ltb_spec 12 (tm_mon t)); cbn [orb negb];
    try (split; [lia|by eexists]).
  destruct (Z.ltb_spec (tm_mday t) 1); cbn [orb negb]; [split; [lia|by eexists]|].
  destruct (Z.ltb_spec days (tm_mday t)); cbn [orb negb]; [split; [lia|by eexists]|].
  destruct ((tm_mon t =? 2)%Z && (29 - 1 <? tm_mday t)%Z && negb (IsLeapYear (tm_year t))) eqn:Hf.
  { split; [|by eexists]. apply andb_true_iff in Hf as [[Hm%Z.eqb_eq Hd%Z.ltb_lt]%andb_true_iff Hl].
    apply negb_true_iff in Hl. intros (_ & (_ & _ & Hv) & _).
    assert (tm_mday t = 29)%Z by lia.
    destruct Hleap as [_ Hleap]. rewrite Hleap in Hl by auto. done. }
  destruct (Z.ltb_spec (tm_hour t) 0), (Z.leb_spec 24 (tm_hour t)); cbn [orb negb];
    try (split; [lia|by eexists]).
  destruct (Z.ltb_spec (tm_min t) 0), (Z.leb_spec 60 (tm_min t)); cbn [orb negb];
    try (split; [lia|by eexists]).
  destruct (Z.ltb_spec (tm_sec t) 0), (Z.ltb_spec 60 (tm_sec t)); cbn [orb negb];
    try (split; [lia|by eexists]).
  split; [done|]. intros Hn. destruct Hn. split; [done|]. split_and!; try lia.
  intros Hm Hd. rewrite Hm, Hd in Hf. simpl in Hf. by apply Hleap, negb_false_iff.
Qed.
End parse_text.

Global Instance sep_valid_dec sep : Decision (sep_valid sep).
Proof. unfold sep_valid. apply _. Defined.

(** ** Bounds *)

Lemma fraction_ns_bounds f : fraction_fit f → (0 ≤ fraction_ns f < 1000000000)%Z.
Proof.
  destruct f as [[w v]|]; simpl; [|lia]. intros [Hw Hv].
  change 1000000000%Z with (10 ^ 9)%Z. destruct (decide (w ≤ 9)).
  - assert (10 ^ 9 = 10 ^ Z.of_nat w * 10 ^ Z.of_nat (9 - w))%Z as ->
      by (rewrite <- Z.pow_add_r by lia; f_equal; lia).
    pose proof (Z.pow_pos_nonneg 10 (Z.of_nat (9 - w))). nia.
  - split; [apply Z.div_pos; [lia|apply Z.pow_pos_nonneg; lia]|].
    apply Z.div_lt_upper_bound; [apply Z.pow_pos_nonneg; lia|].
    rewrite <- Z.pow_add_r by lia. replace (Z.of_nat (w - 9) + 9)%Z with (Z.of_nat w) by lia. apply Hv.
Qed.

Lemma no_nul_text t sep f o :
  code sep ≠ 0%Z → offset_fit o → no_nul (rfc3339_text t sep f o) = true.
Proof.
  intros Hsep%Z.eqb_neq Ho. unfold rfc3339_text, date_time_text.
  assert (no_nul (offset_text o) = true) as Hno.
  { destruct o as [c|[] h m]; cbn [offset_text].
    - destruct Ho as (_ & _ & _ & _ & Hc%Z.eqb_neq). by rewrite no_nul_cons, Hc.
    - by repeat first [rewrite no_nul_app | rewrite no_nul_cons | rewrite no_nul_pad].
    - by repeat first [rewrite no_nul_app | rewrite no_nul_cons | rewrite no_nul_pad]. }
  destruct f as [[w v]|]; cbn [fraction_text];
    by repeat first [rewrite no_nul_app | rewrite no_nul_cons | rewrite no_nul_pad | rewrite Hsep
      | rewrite Hno].
Qed.

Abbreviation fits := (Forall (in_signed 64)).

Lemma int64_in z : in_signed 64 z → int64 z = Ret z.
Proof. intros Hz. unfold int64. by rewrite bool_decide_true. Qed.
Lemma int64_out z : ¬ in_signed 64 z → int64 z = Undefined SignedOverflow.
Proof. intros Hz. unfold int64. by rewrite bool_decide_false. Qed.

(** ** The parser on well-formed texts *)
Section parse_spec.
Context `{Build}.
(** The zone of the program has a constant offset from UTC, of at most a day. *)
Context (mktime : tm → Z) (now zone : Z).
Context (mktime_zone : ∀ t, mktime t = (timegm t - zone)%Z) (zone_bounds : (-86400 ≤ zone ≤ 86400)%Z).
Set Default Proof Using "All".

Lemma kLocalTimeOffset_zone : kLocalTimeOffset mktime now = (- zone)%Z.
Proof. unfold kLocalTimeOffset. rewrite mktime_zone, (proj1 (timegm_gmtime now)). lia. Qed.

(** What the parser adds up, in the order of the code: the time of the fields in the zone of
    the program, the fraction, the offset and the zone.  Every sum is a 64-bit number. *)
Definition sums (t : tm) (f : fraction) (o : offset) : list Z :=
  let base := ((timegm t - zone) * 1000000000)%Z in
  [base; base + fraction_ns f; base + fraction_ns f - offset_seconds o * 1000000000;
   instant t f o]%Z.
Lemma sums_fit t f o :
  time_valid t → fraction_fit f → offset_fit o → offset_valid o → (1678 ≤ tm_year t ≤ 2261)%Z →
  fits (sums t f o).
Proof using zone_bounds.
  intros Hv Hf Ho Hov Hy. pose proof (timegm_bounds t Hv Hy). pose proof (fraction_ns_bounds f Hf).
  assert (-86400 ≤ offset_seconds o ≤ 86400)%Z by (destruct o as [|[] h m]; simpl in *; lia).
  unfold sums, instant, in_signed. change (2 ^ (64 - 1))%Z with 9223372036854775808%Z.
  repeat constructor; lia.
Qed.

Lemma ParseDateTime_valid t sep f o timestamp :
  fields_fit t → sep_valid sep → time_valid t →
  ParseDateTime mktime (rfc3339_text t sep f o) timestamp
    = (tp ← int64 ((timegm t - zone) * 1000000000);
       Ret (tp, fraction_text f +:+ offset_text o))%Z.
Proof.
  intros Hf Hs Ht. unfold ParseDateTime, rfc3339_text. rewrite scan_date_time_text by done. simpl.
  rewrite (proj1 (check_fields_spec timestamp t sep Hf)) by done. simpl.
  unfold from_time_t. by rewrite mktime_zone.
Qed.

Lemma ParseDateTime_invalid t sep f o timestamp :
  fields_fit t → ¬ (sep_valid sep ∧ time_valid t) →
  ∃ msg, ParseDateTime mktime (rfc3339_text t sep f o) timestamp = ReportError timestamp msg.
Proof.
  intros Hf Hn. unfold ParseDateTime, rfc3339_text. rewrite scan_date_time_text by done. simpl.
  destruct (proj2 (check_fields_spec timestamp t sep Hf) Hn) as [msg ->]. exists msg.
  unfold ReportError, ThrowInvalidArgument, ThrowException. by destruct have_exceptions.
Qed.

(** Up to the offset. *)
Lemma ParseRfc3339_date t sep f o :
  fields_fit t → fraction_fit f → offset_fit o → code sep ≠ 0%Z → sep_valid sep → time_valid t →
  ParseRfc3339 mktime now (rfc3339_text t sep f o) =
    (time_point ← int64 ((timegm t - zone) * 1000000000);
     '(offset, buffer) ← ParseOffset (offset_text o) (rfc3339_text t sep f o);
     if negb (bool_decide (buffer = "")) then
       ReportError (rfc3339_text t sep f o) "Additional text after RFC 3339 date."
     else
       tp ← int64 (time_point + fraction_ns f);
       tp ← int64 (tp - offset * 1000000000);
       int64 (tp + zone * 1000000000))%Z.
Proof.
  intros Ht Hf Ho Hsep Hs Hv. unfold ParseRfc3339.
  rewrite (no_nul_c_str (rfc3339_text t sep f o)) by by apply no_nul_text.
  rewrite ParseDateTime_valid, kLocalTimeOffset_zone by done.
  destruct (int64 ((timegm t - zone) * 1000000000)) as [tp| | |]; [|done..].
  rewrite !bind_Ret; cbv beta iota. rewrite ParseFractionalSeconds_text by done.
  rewrite !bind_Ret; cbv beta iota.
  destruct (ParseOffset _ _) as [[offset buffer]| | |]; [|done..]. rewrite !bind_Ret; cbv beta iota.
  destruct (negb _); [done|]. destruct (int64 (tp + _)) as [tp1| | |]; [|done..].
  rewrite !bind_Ret. destruct (int64 (tp1 - _)) as [tp2| | |]; [|done..]. rewrite !bind_Ret.
  f_equal. lia.
Qed.

Lemma ParseRfc3339_valid t sep f o :
  fields_fit t → fraction_fit f → offset_fit o → code sep ≠ 0%Z →
  sep_valid sep ∧ time_valid t ∧ offset_valid o →
  (fits (sums t f o) →
   ParseRfc3339 mktime now (rfc3339_text t sep f o) = Ret (instant t f o)) ∧
  (¬ fits (sums t f o) →
   ParseRfc3339 mktime now (rfc3339_text t sep f o) = Undefined SignedOverflow).
Proof.
  intros Ht Hf Ho Hsep (Hs & Hv & Hov). rewrite ParseRfc3339_date by done.
  rewrite (proj1 (ParseOffset_text o _ Ho)) by done. unfold sums, instant.
  set (base := ((timegm t - zone) * 1000000000)%Z).
  replace (timegm t * 1000000000 + fraction_ns f - offset_seconds o * 1000000000)%Z with
    (base + fraction_ns f - offset_seconds o * 1000000000 + zone * 1000000000)%Z
    by (unfold base; lia).
  generalize base (fraction_ns f) (zone * 1000000000)%Z (offset_seconds o).
  clear. intros base x z off. remember (off * 1000000000)%Z as y eqn:Hoff.
  rewrite !Forall_cons. split.
  - intros (? & ? & ? & ? & _). repeat (rewrite int64_in by done; simpl; rewrite <- ?Hoff). done.
  - intros Hn. destruct (decide (in_signed 64 base)); [|by rewrite int64_out].
    rewrite int64_in by done. simpl.
    destruct (decide (in_signed 64 (base + x))); [|by rewrite int64_out].
    rewrite int64_in by done. simpl. rewrite <- Hoff.
    destruct (decide (in_signed 64 (base + x - y))); [|by rewrite int64_out].
    rewrite int64_in by done. simpl.
    destruct (decide (in_signed 64 (base + x - y + z))); [|by rewrite int64_out].
    destruct Hn. by rewrite Forall_nil.
Qed.

Lemma ReportError_bind {A B} (k : A → cxx B) s msg :
  (ReportError s msg : cxx A) ≫= k = (ReportError s msg : cxx B).
Proof. unfold ReportError, ThrowInvalidArgument, ThrowException. by destruct have_exceptions. Qed.

Lemma ParseRfc3339_invalid_date t sep f o :
  fields_fit t → offset_fit o → code sep ≠ 0%Z → ¬ (sep_valid sep ∧ time_valid t) →
  ∃ msg, ParseRfc3339 mktime now (rfc3339_text t sep f o) = ReportError (rfc3339_text t sep f o) msg.
Proof.
  intros Ht Ho Hsep Hn. unfold ParseRfc3339.
  rewrite (no_nul_c_str (rfc3339_text t sep f o)) by by apply no_nul_text.
  destruct (ParseDateTime_invalid t sep f o (rfc3339_text t sep f o) Ht Hn) as [msg ->].
  exists msg. apply ReportError_bind.
Qed.

Lemma ParseRfc3339_invalid_offset t sep f o :
  fields_fit t → fraction_fit f → offset_fit o → code sep ≠ 0%Z →
  sep_valid sep → time_valid t → ¬ offset_valid o →
  in_signed 64 ((timegm t - zone) * 1000000000) →
  ∃ msg, ParseRfc3339 mktime now (rfc3339_text t sep f o) = ReportError (rfc3339_text t sep f o) msg.
Proof.
  intros Ht Hf Ho Hsep Hs Hv Hov Hb. rewrite ParseRfc3339_date, int64_in, bind_Ret by done.
  destruct (proj2 (ParseOffset_text o (rfc3339_text t sep f o) Ho) Hov) as [msg ->].
  exists msg. apply ReportError_bind.
Qed.
End parse_spec.

(** ** What [FormatRfc3339] prints *)

Lemma FormatFractional_text ns :
  (0 ≤ ns < 1000000000)%Z →
  ∃ f, fraction_fit f ∧ FormatFractional ns = fraction_text f ∧ fraction_ns f = ns.
Proof.
  intros Hns. unfold FormatFractional. rewrite !Z.rem_mod_nonneg, !Z.quot_div_nonneg by lia.
  destruct (Z.eqb_spec ns 0); [by exists None|].
  pose proof (Z.div_mod ns 1000000). pose proof (Z.div_mod ns 1000).
  destruct (Z.eqb_spec (ns `mod` 1000000) 0).
  { exists (Some (3, (ns `div` 1000000)%Z)). assert (0 ≤ ns `div` 1000000 < 1000)%Z by lia.
    simpl. rewrite print_int_pad by (simpl; lia). split_and!; [lia|lia|lia|done|lia]. }
  destruct (Z.eqb_spec (ns `mod` 1000) 0).
  { exists (Some (6, (ns `div` 1000)%Z)). assert (0 ≤ ns `div` 1000 < 1000000)%Z by lia.
    simpl. rewrite print_int_pad by (simpl; lia). split_and!; [lia|lia|lia|done|lia]. }
  exists (Some (9, ns)). simpl. rewrite print_int_pad by (simpl; lia).
  split_and!; [lia|lia|lia|done|lia].
Qed.

Lemma time_valid_fits t : time_valid t → (0 ≤ tm_year t < 10000)%Z → fields_fit t.
Proof.
  intros [(Hm & Hd & _) Hhms] Hy. unfold fields_fit.
  assert (nth (Z.to_nat (tm_mon t - 1)) month_days 0 < 100)%Z; [|lia].
  assert (tm_mon t = 1 ∨ tm_mon t = 2 ∨ tm_mon t = 3 ∨ tm_mon t = 4 ∨ tm_mon t = 5 ∨ tm_mon t = 6
    ∨ tm_mon t = 7 ∨ tm_mon t = 8 ∨ tm_mon t = 9 ∨ tm_mon t = 10 ∨ tm_mon t = 11
    ∨ tm_mon t = 12)%Z as Hc by lia.
  clear -Hc. destruct_or! Hc; rewrite Hc; done.
Qed.

Lemma FormatRfc3339_text tp :
  (-9200000000000000000 ≤ tp ≤ 9200000000000000000)%Z →
  (0 ≤ tp ∨ tp `mod` 1000000000 = 0)%Z →
  ∃ t f, FormatRfc3339 tp = rfc3339_text t "T" f Zulu ∧ fields_fit t ∧ fraction_fit f ∧
    (1678 ≤ tm_year t ≤ 2261)%Z ∧ time_valid t ∧ instant t f Zulu = tp.
Proof.
  intros Hb Hp.
  assert (Z.quot tp 1000000000 = tp `div` 1000000000)%Z as Hq.
  { destruct Hp as [Hp|Hp]; [by rewrite Z.quot_div_nonneg by lia|].
    pose proof (Z.div_mod tp 1000000000). symmetry.
    assert (tp = (tp `div` 1000000000) * 1000000000)%Z as Heq by lia.
    rewrite Heq at 2. by rewrite Z.quot_mul. }
  set (time := (tp `div` 1000000000)%Z) in *.
  destruct (timegm_gmtime time) as [Htm Hv]. unfold FormatRfc3339, AsUtcTm, to_time_t. rewrite Hq.
  assert (1678 ≤ tm_year (gmtime_r time) ≤ 2261)%Z as Hy.
  { apply year_bounds; [done|]. rewrite Htm. unfold time.
    pose proof (Z.div_mod tp 1000000000). pose proof (Z.mod_pos_bound tp 1000000000). lia. }
  pose proof (Z.div_mod tp 1000000000) as Hdm. pose proof (Z.mod_pos_bound tp 1000000000) as Hmb.
  destruct (FormatFractional_text (tp - time * 1000000000)) as (f & Hf & Hft & Hfn);
    [unfold time; lia|]. rewrite Hft.
  exists (gmtime_r time), f. generalize dependent (gmtime_r time). intros t Htm Hv Hy.
  rewrite print_year by lia. split_and!; try done.
  - apply time_valid_fits; [done|lia].
  - lia.
  - lia.
  - unfold instant. simpl. lia.
Qed.

(** ** Properties *)

(** C35: [ParseRfc3339] on every well-formed timestamp, whose fields are digits, with a
    fraction or not and with a zone of one character or of hours and minutes.  The local
    time of the program is assumed to have a constant offset from UTC, of at most a day.
    - When the separator is not [T] or [t], the date is not one of the Gregorian calendar or
      the time (with the leap second) is not in range, it throws [std::invalid_argument] (or
      terminates the program) and reports the timestamp.
    - When these are valid and the zone is [Z], [z] or an offset in range, it returns the
      instant, with every digit of the fraction up to the ninth, provided that the sums that
      it makes fit 64-bit nanoseconds, as they do in the years 1678 to 2261; otherwise a
      signed integer overflows.
    - With any other zone it throws and reports the timestamp, if the time fits. *)
Theorem rfc3339_parse `{Build} mktime now zone t sep f o :
  (∀ t, mktime t = (timegm t - zone)%Z) → (-86400 ≤ zone ≤ 86400)%Z →
  fields_fit t → fraction_fit f → offset_fit o → code sep ≠ 0%Z →
  let parsed := ParseRfc3339 mktime now (rfc3339_text t sep f o) in
  let reports := ∃ msg, parsed = ReportError (rfc3339_text t sep f o) msg in
  let valid := sep_valid sep ∧ time_valid t in
  (¬ valid → reports) ∧
  (valid → offset_valid o →
    (fits (sums zone t f o) → parsed = Ret (instant t f o)) ∧
    (¬ fits (sums zone t f o) → parsed = Undefined SignedOverflow) ∧
    ((1678 ≤ tm_year t ≤ 2261)%Z → parsed = Ret (instant t f o))) ∧
  (valid → ¬ offset_valid o →
    (in_signed 64 ((timegm t - zone) * 1000000000) → reports) ∧
    ((1678 ≤ tm_year t ≤ 2261)%Z → reports)).
Proof.
  intros Hm Hz Ht Hf Ho Hs parsed reports valid. split_and!.
  - intros Hv. by apply (ParseRfc3339_invalid_date mktime now zone).
  - intros [Hsv Hv] Hov.
    destruct (ParseRfc3339_valid mktime now zone Hm Hz t sep f o) as [Hfit Hno]; [done..|].
    split_and!; [done|done|]. intros Hy. apply Hfit. by apply (sums_fit zone Hz).
  - intros [Hsv Hv] Hov. split; intros Hy; apply (ParseRfc3339_invalid_offset mktime now zone);
      try done.
    assert (fits (sums zone t None Zulu)) as [Hfit _]%Forall_cons; [|done].
    apply (sums_fit zone Hz); [done|done|done|by left|done].
Qed.

Definition example_mktime (t : tm) : Z := timegm t - 3600.

Definition leap_second : tm := mkTm 2020 2 29 23 59 60.
Definition last_second : tm := mkTm 9999 12 31 23 59 59.

Lemma rfc3339_parse_witness :
  ParseRfc3339 (H := example_build) example_mktime 1500000000
    (rfc3339_text leap_second "t" (Some (12, 500000000001%Z)) (Offset false 1 30))
  = Ret (instant leap_second (Some (12, 500000000001%Z)) (Offset false 1 30)) ∧
  ParseRfc3339 (H := example_build) example_mktime 1500000000
    (rfc3339_text leap_second "T" None (Letter "z")) = Ret (instant leap_second None Zulu) ∧
  ParseRfc3339 (H := example_build) example_mktime 1500000000
    (rfc3339_text last_second "T" None Zulu) = Undefined SignedOverflow.
Proof.
  assert (∀ t, time_valid t → fields_fit t → (sep_valid "T" ∧ time_valid t) ∧ fields_fit t)
    as Hok by (intros; split; [split; [by left|]|]; done).
  destruct (Hok leap_second) as [[Hs Ht] Hfit];
    [apply (bool_decide_unpack _); vm_compute; exact I|unfold fields_fit; simpl; lia|].
  destruct (Hok last_second) as [[_ Ht'] Hfit'];
    [apply (bool_decide_unpack _); vm_compute; exact I|unfold fields_fit; simpl; lia|].
  split_and!.
  - apply (rfc3339_parse (H := example_build) example_mktime 1500000000 3600);
      [done|lia|done|simpl; lia|simpl; lia|done|split; [by right|done]|simpl; lia|simpl; lia].
  - apply (rfc3339_parse (H := example_build) example_mktime 1500000000 3600 leap_second "T"
      None (Letter "z")); [done|lia|done|done|done|done|done|by right|simpl; lia].
  - apply (rfc3339_parse (H := example_build) example_mktime 1500000000 3600);
      [done|lia|done|done|done|done|done|by left|].
    intros [[_ H1] _]%Forall_cons. vm_compute in H1. discriminate.
Defined.

(** C34: parsing what [FormatRfc3339] prints gives back the time point: for every number of
    nanoseconds since the epoch up to 9.2e18, in the year 2261, and for whole seconds also
    back to -9.2e18, in the year 1678 ([format_before_epoch] shows that a fraction of a
    second before the epoch is not read back).  The local time of the program is assumed to
    have a constant offset from UTC, of at most a day. *)
Theorem rfc3339_roundtrip `{Build} mktime now zone tp :
  (∀ t, mktime t = (timegm t - zone)%Z) → (-86400 ≤ zone ≤ 86400)%Z →
  (-9200000000000000000 ≤ tp ≤ 9200000000000000000)%Z →
  (0 ≤ tp ∨ tp `mod` 1000000000 = 0)%Z →
  ParseRfc3339 mktime now (FormatRfc3339 tp) = Ret tp.
Proof.
  intros Hm Hz Hb Hp.
  destruct (FormatRfc3339_text tp Hb Hp) as (t & f & -> & Ht & Hf & Hy & Hv & <-).
  apply (ParseRfc3339_valid mktime now zone); try done.
  - split_and!; [by left|done|by left].
  - apply (sums_fit zone Hz); [done|done|done|by left|done].
Qed.

Lemma rfc3339_roundtrip_witness :
  ParseRfc3339 (H := example_build) example_mktime 1500000000
    (FormatRfc3339 1526654523000123000) = Ret 1526654523000123000%Z.
Proof.
  apply (rfc3339_roundtrip (H := example_build) example_mktime 1500000000 3600); [done|lia|lia|].
  left. lia.
Defined.

(** *** What the code does outside of these cases *)

(** Before the epoch a fraction of a second is negative: the text is not RFC 3339, and is
    read back as another time. *)
Lemma format_before_epoch :
  FormatRfc3339 (-500000000) = "1970-01-01T00:00:00.-500Z" ∧
  ParseRfc3339 (H := example_build) example_mktime 1500000000 (FormatRfc3339 (-500000000))
    = Ret (-50000000)%Z.
Proof. split; vm_compute; reflexivity. Qed.

(** The fields may have a sign or white space in place of digits. *)
Lemma parse_accepts_signs :
  ParseRfc3339 (H := example_build) example_mktime 1500000000 "2018-05-18T14:42:03.-5Z"
    = Ret 1526654522950000000%Z ∧
  ParseRfc3339 (H := example_build) example_mktime 1500000000 "2018- 5-18T14:+2:03Z"
    = ParseRfc3339 (H := example_build) example_mktime 1500000000 "2018-05-18T14:02:03Z".
Proof. split; vm_compute; reflexivity. Qed.

(** A valid timestamp whose time does not fit 64-bit nanoseconds. *)
Lemma parse_overflows :
  ParseRfc3339 (H := example_build) example_mktime 1500000000 "9999-12-31T23:59:59Z"
    = Undefined SignedOverflow.
Proof. vm_compute. reflexivity. Qed.
