(* ===== verification/Iam.v ===== *)
(** * IAM bindings and policies (iam_binding.h, iam_bindings.h, .cc, iam_policy.h, .cc)

    [std::map<std::string, std::set<std::string>>] is a finite map of finite sets; where
    the code iterates, in the sorted order of both containers. *)

From S2P Require Import Prelude.
From stdpp Require Import sorting.

Set Default Proof Using "Type".

(** ** Data *)
Record IamBinding := mkIamBinding { role : string; members : gset string }.
Abbreviation IamBindings := (gmap string (gset string)).
Record IamPolicy := mkIamPolicy { version : Z; bindings : IamBindings; etag : string }.

(** ** [IamBindings] *)

(** [bindings_.insert]: an existing element stays. *)
Definition map_insert (r : string) (ms : gset string) (b : IamBindings) : IamBindings :=
  match b !! r with Some _ => b | None => <[r := ms]> b end.

Definition IamBindings_new : IamBindings := ∅.
Definition IamBindings_of_vector (l : list IamBinding) : IamBindings :=
  foldl (λ b it, map_insert (role it) (members it) b) ∅ l.
Definition IamBindings_of (r : string) (ms : gset string) : IamBindings := map_insert r ms ∅.

Definition empty_bindings (b : IamBindings) : bool := bool_decide (b = ∅).
Definition size_bindings (b : IamBindings) : nat := size b.
Definition find (r : string) (b : IamBindings) : option (gset string) := b !! r.
Definition at_role (r : string) (b : IamBindings) : gset string :=
  match find r b with None => ∅ | Some ms => ms end.

(** [bindings_[role]]: makes an empty set for a new role. *)
Definition AddMember (r m : string) (b : IamBindings) : IamBindings :=
  <[r := {[m]} ∪ at_role r b]> b.
Definition AddMembers (r : string) (ms : gset string) (b : IamBindings) : IamBindings :=
  <[r := ms ∪ at_role r b]> b.
Definition AddMembers_binding (it : IamBinding) (b : IamBindings) : IamBindings :=
  AddMembers (role it) (members it) b.

Definition RemoveMember (r m : string) (b : IamBindings) : IamBindings :=
  match find r b with
  | None => b
  | Some ms =>
      let ms := if bool_decide (m ∈ ms) then ms ∖ {[m]} else ms in
      if bool_decide (ms = ∅) then delete r b else <[r := ms]> b
  end.

(** ** Iteration *)
Definition sorted_set (X : gset string) : list string := merge_sort String.le (elements X).
Definition sorted_map (b : IamBindings) : list (string * gset string) :=
  (λ r, (r, at_role r b)) <$> sorted_set (dom b).

(** The loop erases the members one at a time, in the order of the argument. *)
Definition RemoveMembers (r : string) (ms : gset string) (b : IamBindings) : IamBindings :=
  match find r b with
  | None => b
  | Some bms =>
      let bms := foldl (λ bms m, if bool_decide (m ∈ bms) then bms ∖ {[m]} else bms)
        bms (sorted_set ms) in
      if bool_decide (bms = ∅) then delete r b else <[r := bms]> b
  end.
Definition RemoveMembers_binding (it : IamBinding) (b : IamBindings) : IamBindings :=
  RemoveMembers (role it) (members it) b.

(** [operator<<]. *)
Definition print_sep (l : list string) : string :=
  (foldl (λ '(sep, os) x, (", ", os +:+ sep +:+ x)) ("", "") l).2.
Definition print_bindings (b : IamBindings) : string :=
  "IamBindings={" +:+
  print_sep ((λ '(r, ms), r +:+ ": [" +:+ print_sep (sorted_set ms) +:+ "]") <$> sorted_map b)
  +:+ "}".
Definition print_policy (p : IamPolicy) : string :=
  "IamPolicy={version=" +:+ pretty (version p) +:+ ", bindings=" +:+ print_bindings (bindings p)
  +:+ ", etag=" +:+ etag p +:+ "}".

(** ** Comparison *)

(** [std::lexicographical_compare], and [operator<] of pairs. *)
Fixpoint lex_lt {A} (lt : A → A → bool) (l k : list A) : bool :=
  match l, k with
  | _, [] => false
  | [], _ :: _ => true
  | a :: l, b :: k => lt a b || negb (lt b a) && lex_lt lt l k
  end.
Definition pair_lt {A B} (ltA : A → A → bool) (ltB : B → B → bool) (x y : A * B) : bool :=
  ltA x.1 y.1 || negb (ltA y.1 x.1) && ltB x.2 y.2.
Definition set_lt (X Y : gset string) : bool := lex_lt String.ltb (sorted_set X) (sorted_set Y).

Definition bindings_eq (a b : IamBindings) : bool := bool_decide (a = b).
Definition bindings_lt (a b : IamBindings) : bool :=
  lex_lt (pair_lt String.ltb set_lt) (sorted_map a) (sorted_map b).

(** [std::tie]. *)
Definition policy_eq (a b : IamPolicy) : bool :=
  (version a =? version b)%Z && bindings_eq (bindings a) (bindings b)
  && bool_decide (etag a = etag b).
Definition policy_tie (p : IamPolicy) : Z * IamBindings * string := (version p, bindings p, etag p).
Definition policy_lt (a b : IamPolicy) : bool :=
  pair_lt (pair_lt Z.ltb bindings_lt) String.ltb (policy_tie a) (policy_tie b).

(** [std::rel_ops]. *)
Section rel_ops.
Context {A : Type} (eq lt : A → A → bool).
Definition rel_ne (a b : A) : bool := negb (eq a b).
Definition rel_gt (a b : A) : bool := lt b a.
Definition rel_le (a b : A) : bool := negb (lt b a).
Definition rel_ge (a b : A) : bool := negb (lt a b).
End rel_ops.

(** ** Programs of operations *)
Inductive iam_op :=
| IamAdd (r m : string)
| IamAddSet (r : string) (ms : gset string)
| IamAddBinding (it : IamBinding)
| IamRemove (r m : string)
| IamRemoveSet (r : string) (ms : gset string)
| IamRemoveBinding (it : IamBinding).

Definition run_iam (o : iam_op) (b : IamBindings) : IamBindings :=
  match o with
  | IamAdd r m => AddMember r m b
  | IamAddSet r ms => AddMembers r ms b
  | IamAddBinding it => AddMembers_binding it b
  | IamRemove r m => RemoveMember r m b
  | IamRemoveSet r ms => RemoveMembers r ms b
  | IamRemoveBinding it => RemoveMembers_binding it b
  end.

(** Specification: the set of grants, a role and a member each. *)
Definition grants (r : string) (ms : gset string) : gset (string * string) :=
  set_map (λ m, (r, m)) ms.
Definition spec_iam (o : iam_op) (g : gset (string * string)) : gset (string * string) :=
  match o with
  | IamAdd r m => {[(r, m)]} ∪ g
  | IamAddSet r ms => grants r ms ∪ g
  | IamAddBinding it => grants (role it) (members it) ∪ g
  | IamRemove r m => g ∖ {[(r, m)]}
  | IamRemoveSet r ms => g ∖ grants r ms
  | IamRemoveBinding it => g ∖ grants (role it) (members it)
  end.
(** And the roles that are named: adding to a role names it, even when no member is added;
    removing from a role that has no members afterwards drops it. *)
Definition roles (g : gset (string * string)) : gset string := set_map fst g.
Definition spec_roles (o : iam_op) (g' : gset (string * string)) (R : gset string) : gset string :=
  match o with
  | IamAdd r _ | IamAddSet r _ => {[r]} ∪ R
  | IamAddBinding it => {[role it]} ∪ R
  | IamRemove r _ | IamRemoveSet r _ => if decide (r ∈ roles g') then R else R ∖ {[r]}
  | IamRemoveBinding it => if decide (role it ∈ roles g') then R else R ∖ {[role it]}
  end.
Definition spec_step (s : gset (string * string) * gset string) (o : iam_op) :
    gset (string * string) * gset string :=
  let g' := spec_iam o s.1 in (g', spec_roles o g' s.2).
Definition spec_run (ops : list iam_op) := foldl spec_step (∅, ∅) ops.
(** No set of members to add is empty. *)
Definition adds_members (o : iam_op) : Prop :=
  match o with IamAddSet _ ms => ms ≠ ∅ | IamAddBinding it => members it ≠ ∅ | _ => True end.

(** ** Lemmas *)

Lemma at_insert r r' ms b : at_role r' (<[r := ms]> b) = if decide (r = r') then ms else at_role r' b.
Proof.
  unfold at_role, find. case_decide as Hr; [subst; by rewrite lookup_insert_eq|].
  by rewrite lookup_insert_ne.
Qed.

Lemma at_delete r r' b : at_role r' (delete r b) = if decide (r = r') then ∅ else at_role r' b.
Proof.
  unfold at_role, find. case_decide as Hr; [subst; by rewrite lookup_delete_eq|].
  by rewrite lookup_delete_ne.
Qed.

Lemma sorted_set_elem X x : x ∈ sorted_set X ↔ x ∈ X.
Proof. unfold sorted_set. by rewrite merge_sort_Permutation, elem_of_elements. Qed.

Lemma erase_loop l (X : gset string) :
  foldl (λ X m, if bool_decide (m ∈ X) then X ∖ {[m]} else X) X l = X ∖ list_to_set l.
Proof.
  revert X. induction l as [|m l IH]; intros X; simpl; [set_solver|].
  rewrite IH. case_bool_decide; set_solver.
Qed.

(** What removing from a role leaves. *)
Lemma at_remove r ms b :
  at_role r (RemoveMembers r ms b) = at_role r b ∖ ms ∧
  (∀ r', r' ≠ r → find r' (RemoveMembers r ms b) = find r' b) ∧
  (find r (RemoveMembers r ms b) ≠ Some ∅).
Proof.
  unfold RemoveMembers. destruct (find r b) as [bms|] eqn:Hf.
  - rewrite erase_loop. assert (list_to_set (sorted_set ms) = ms) as ->.
    { apply set_eq. intros x. by rewrite elem_of_list_to_set, sorted_set_elem. }
    assert (at_role r b = bms) as -> by (unfold at_role; by rewrite Hf).
    unfold find in *. case_bool_decide as He.
    + rewrite at_delete, decide_True by done. split_and!; [set_solver| |].
      * intros r' Hr. by rewrite lookup_delete_ne.
      * by rewrite lookup_delete_eq.
    + rewrite at_insert, decide_True by done. split_and!; [done| |].
      * intros r' Hr. by rewrite lookup_insert_ne.
      * rewrite lookup_insert_eq. congruence.
  - unfold at_role. rewrite Hf. split_and!; [set_solver|done|done].
Qed.

Lemma RemoveMember_set r m b : RemoveMember r m b = RemoveMembers r {[m]} b.
Proof.
  unfold RemoveMember, RemoveMembers. destruct (find r b) as [bms|]; [|done].
  rewrite erase_loop. assert (list_to_set (sorted_set {[m]}) = ({[m]} : gset string)) as ->.
  { apply set_eq. intros x. by rewrite elem_of_list_to_set, sorted_set_elem. }
  assert ((if bool_decide (m ∈ bms) then bms ∖ {[m]} else bms) = bms ∖ {[m]}) as ->; [|done].
  case_bool_decide; set_solver.
Qed.

Lemma AddMember_set r m b : AddMember r m b = AddMembers r {[m]} b.
Proof. done. Qed.

(** Agreement with the set of grants, and no binding without members. *)
Definition agrees (b : IamBindings) (g : gset (string * string)) : Prop :=
  ∀ r m, m ∈ at_role r b ↔ (r, m) ∈ g.
Definition no_empty (b : IamBindings) : Prop := ∀ r, find r b ≠ Some ∅.

Lemma elem_of_grants r ms r' m : (r', m) ∈ grants r ms ↔ r' = r ∧ m ∈ ms.
Proof. unfold grants. rewrite elem_of_map. naive_solver. Qed.

Lemma agrees_add r ms b g : agrees b g → agrees (AddMembers r ms b) (grants r ms ∪ g).
Proof.
  intros Ha r' m. unfold AddMembers. rewrite at_insert, elem_of_union, elem_of_grants, <- (Ha r' m).
  case_decide; [subst; set_solver|]. naive_solver.
Qed.

Lemma no_empty_add r ms b : ms ≠ ∅ → no_empty b → no_empty (AddMembers r ms b).
Proof.
  intros Hm Hn r'. unfold AddMembers, find. destruct (decide (r = r')) as [<-|Hr].
  - rewrite lookup_insert_eq. intros [= He]. set_solver.
  - rewrite lookup_insert_ne by done. apply Hn.
Qed.

Lemma agrees_remove r ms b g : agrees b g → agrees (RemoveMembers r ms b) (g ∖ grants r ms).
Proof.
  intros Ha r' m. destruct (at_remove r ms b) as (Hr & Hne & _).
  rewrite elem_of_difference, elem_of_grants, <- (Ha r' m).
  destruct (decide (r' = r)) as [->|Hneq]; [rewrite Hr; set_solver|].
  unfold at_role at 1. rewrite Hne by done. unfold at_role. naive_solver.
Qed.

Lemma no_empty_remove r ms b : no_empty b → no_empty (RemoveMembers r ms b).
Proof.
  intros Hn r'. destruct (at_remove r ms b) as (_ & Hne & He).
  destruct (decide (r' = r)) as [->|Hr]; [done|]. rewrite Hne by done. apply Hn.
Qed.

Lemma grants_singleton r m : grants r {[m]} = {[(r, m)]}.
Proof. apply set_eq. intros [r' m']. rewrite elem_of_grants. set_solver. Qed.

Lemma run_iam_agrees o b g : agrees b g → agrees (run_iam o b) (spec_iam o g).
Proof.
  intros Ha. destruct o; simpl; unfold AddMembers_binding, RemoveMembers_binding;
    rewrite ?AddMember_set, ?RemoveMember_set, <- ?grants_singleton;
    auto using agrees_add, agrees_remove.
Qed.

Lemma run_iam_no_empty o b : adds_members o → no_empty b → no_empty (run_iam o b).
Proof.
  intros Ho Hn. destruct o; simpl in *; unfold AddMembers_binding, RemoveMembers_binding;
    rewrite ?AddMember_set, ?RemoveMember_set; auto using no_empty_remove, no_empty_add.
Qed.

(** *** The roles *)
Definition names (b : IamBindings) (R : gset string) : Prop := ∀ r, is_Some (find r b) ↔ r ∈ R.

Lemma names_add r ms b R : names b R → names (AddMembers r ms b) ({[r]} ∪ R).
Proof.
  intros Hn r'. rewrite elem_of_union, elem_of_singleton, <- (Hn r'). unfold AddMembers, find.
  rewrite lookup_insert_is_Some. destruct (decide (r' = r)); naive_solver.
Qed.

Lemma elem_of_roles g r b : agrees b g → r ∈ roles g ↔ at_role r b ≠ ∅.
Proof.
  intros Ha. unfold roles. rewrite elem_of_map. split.
  - intros ([r' m] & -> & Hm). simpl. apply Ha in Hm. set_solver.
  - intros [m Hm]%set_choose_L. exists (r, m). split; [done|]. by apply Ha.
Qed.

Lemma names_remove r ms b g R :
  agrees b g → names b R →
  names (RemoveMembers r ms b)
    (if decide (r ∈ roles (g ∖ grants r ms)) then R else R ∖ {[r]}).
Proof.
  intros Ha Hn. pose proof (agrees_remove r ms b g Ha) as Ha'.
  pose proof (elem_of_roles _ r _ Ha') as Hr. destruct (at_remove r ms b) as (Hat & Hne & He).
  intros r'. destruct (decide (r' = r)) as [->|Hneq].
  - assert (is_Some (find r (RemoveMembers r ms b)) ↔ at_role r (RemoveMembers r ms b) ≠ ∅) as ->.
    { unfold at_role at 1. destruct (find r (RemoveMembers r ms b)) as [X|].
      - split; [congruence|eauto].
      - split; [by intros []|done]. }
    rewrite <- Hr. case_decide as Hd; [|set_solver]. split; [|done]. intros _.
    apply Hn. apply Hr in Hd. rewrite Hat in Hd. unfold at_role in Hd.
    destruct (find r b); [eauto|]. set_solver.
  - rewrite Hne, (Hn r') by done. case_decide; set_solver.
Qed.

Lemma run_iam_names o b g R :
  agrees b g → names b R → names (run_iam o b) (spec_step (g, R) o).2.
Proof.
  intros Ha Hn. destruct o; simpl; unfold AddMembers_binding, RemoveMembers_binding;
    rewrite ?AddMember_set, ?RemoveMember_set, <- ?grants_singleton;
    auto using names_add, names_remove.
Qed.

Lemma run_iam_spec ops b s :
  agrees b s.1 → names b s.2 →
  agrees (foldl (λ b o, run_iam o b) b ops) (foldl spec_step s ops).1 ∧
  names (foldl (λ b o, run_iam o b) b ops) (foldl spec_step s ops).2.
Proof.
  revert b s. induction ops as [|o ops IH]; intros b [g R] Ha Hn; [done|]. simpl.
  apply IH; [by apply run_iam_agrees|by apply run_iam_names].
Qed.

(** ** Orders *)

(** A strict total order given by a Boolean test. *)
Class StrictTotal {A} (lt : A → A → bool) : Prop := {
  st_irrefl a : lt a a = false;
  st_trans a b c : lt a b = true → lt b c = true → lt a c = true;
  st_total a b : lt a b = false → lt b a = false → a = b;
}.

Lemma st_asym `{StrictTotal A ltA} a b : ltA a b = true → ltA b a = false.
Proof.
  intros Hab. destruct (ltA b a) eqn:Hba; [|done].
  pose proof (st_trans a b a Hab Hba) as Ht. by rewrite st_irrefl in Ht.
Qed.

Global Instance Z_strict_total : StrictTotal Z.ltb.
Proof.
  split.
  - apply Z.ltb_irrefl.
  - intros a b c. rewrite !Z.ltb_lt. lia.
  - intros a b. rewrite !Z.ltb_ge. lia.
Qed.

Lemma String_leb_le a b : String.leb a b = true ↔ String.le a b.
Proof. unfold String.le. by rewrite Is_true_true. Qed.

Lemma String_ltb_leb a b : String.ltb a b = negb (String.leb b a).
Proof.
  unfold String.ltb, String.leb. rewrite (String.compare_antisym b a).
  by destruct (String.compare a b).
Qed.

Global Instance String_strict_total : StrictTotal String.ltb.
Proof.
  assert (∀ a b, String.ltb a b = true ↔ ¬ String.le b a) as Hlt.
  { intros a b. rewrite String_ltb_leb, negb_true_iff, <- String_leb_le. by destruct (String.leb b a). }
  assert (∀ a b, String.ltb a b = false ↔ String.le b a) as Hge.
  { intros a b. rewrite String_ltb_leb, negb_false_iff. apply String_leb_le. }
  split.
  - intros a. by apply Hge.
  - intros a b c Hab Hbc. apply Hlt. apply Hlt in Hab, Hbc. intros Hca.
    destruct (total String.le a b) as [Hl|]; [|done]. apply Hbc. by transitivity a.
  - intros a b Hab Hba. apply Hge in Hab, Hba. by apply (anti_symm String.le).
Qed.

Global Instance pair_strict_total `{StrictTotal A ltA} `{StrictTotal B ltB} :
  StrictTotal (pair_lt ltA ltB).
Proof.
  unfold pair_lt. split.
  - intros [a b]. simpl. by rewrite !st_irrefl.
  - intros [a1 b1] [a2 b2] [a3 b3]. simpl. rewrite !orb_true_iff, !andb_true_iff, !negb_true_iff.
    intros [H12|[H21 Hb12]] [H23|[H32 Hb23]].
    + left. by eapply st_trans.
    + left. destruct (ltA a2 a3) eqn:H23; [by eapply st_trans|]. by rewrite <- (st_total a2 a3 H23 H32).
    + left. destruct (ltA a1 a2) eqn:H12; [by eapply st_trans|]. by rewrite (st_total a1 a2 H12 H21).
    + destruct (ltA a1 a3) eqn:H13; [by left|]. right. split; [|by eapply st_trans].
      destruct (ltA a3 a1) eqn:H31; [|done].
      destruct (ltA a1 a2) eqn:H12; [by rewrite (st_trans a3 a1 a2 H31 H12) in H32|].
      rewrite (st_total a1 a2 H12 H21) in *. congruence.
  - intros [a1 b1] [a2 b2]. simpl. rewrite !orb_false_iff, !andb_false_iff, !negb_false_iff.
    intros [H12 Hb12] [H21 Hb21]. rewrite (st_total a1 a2 H12 H21).
    destruct Hb12 as [?|Hb12]; [congruence|]. destruct Hb21 as [?|Hb21]; [congruence|].
    by rewrite (st_total b1 b2 Hb12 Hb21).
Qed.

Global Instance lex_strict_total `{StrictTotal A ltA} : StrictTotal (lex_lt ltA).
Proof.
  split.
  - intros l. induction l as [|a l IH]; [done|]. simpl. by rewrite st_irrefl, IH.
  - intros l. induction l as [|a l IH]; intros [|b k] [|c j]; try done. simpl.
    rewrite !orb_true_iff, !andb_true_iff, !negb_true_iff.
    intros [Hab|[Hba Hlk]] [Hbc|[Hcb Hkj]].
    + left. by eapply st_trans.
    + left. destruct (ltA b c) eqn:Hbc; [by eapply st_trans|]. by rewrite <- (st_total b c Hbc Hcb).
    + left. destruct (ltA a b) eqn:Hab; [by eapply st_trans|]. by rewrite (st_total a b Hab Hba).
    + destruct (ltA a c) eqn:Hac; [by left|]. right. split; [|by eapply IH].
      destruct (ltA c a) eqn:Hca; [|done].
      destruct (ltA a b) eqn:Hab; [by rewrite (st_trans c a b Hca Hab) in Hcb|].
      rewrite (st_total a b Hab Hba) in *. congruence.
  - intros l. induction l as [|a l IH]; intros [|b k]; try done. simpl.
    rewrite !orb_false_iff, !andb_false_iff, !negb_false_iff. intros [Hab Hlk] [Hba Hkl].
    rewrite (st_total a b Hab Hba). destruct Hlk as [?|Hlk]; [congruence|].
    destruct Hkl as [?|Hkl]; [congruence|]. by rewrite (IH k Hlk Hkl).
Qed.

(** An order pulled back along an injective function. *)
Lemma strict_total_inj {A B} (f : A → B) (lt : B → B → bool) :
  StrictTotal lt → (∀ a b, f a = f b → a = b) → StrictTotal (λ a b, lt (f a) (f b)).
Proof.
  intros Hs Hf. split.
  - intros a. apply st_irrefl.
  - intros a b c. apply st_trans.
  - intros a b Hab Hba. by apply Hf, st_total.
Qed.

Lemma sorted_set_inj X Y : sorted_set X = sorted_set Y → X = Y.
Proof. intros Heq. apply set_eq. intros x. by rewrite <- !sorted_set_elem, Heq. Qed.

Lemma sorted_map_lookup b r ms : (r, ms) ∈ sorted_map b ↔ find r b = Some ms.
Proof.
  unfold sorted_map, find. rewrite list_elem_of_fmap. split.
  - intros (r' & [= -> ->] & Hr). rewrite sorted_set_elem, elem_of_dom in Hr.
    destruct Hr as [x Hx]. unfold at_role, find. by rewrite Hx.
  - intros Hf. exists r. unfold at_role, find. rewrite Hf. split; [done|].
    rewrite sorted_set_elem. by apply elem_of_dom_2 in Hf.
Qed.

Lemma sorted_map_inj a b : sorted_map a = sorted_map b → a = b.
Proof.
  intros Heq. apply map_eq. intros r. apply option_eq. intros ms.
  change (find r a = Some ms ↔ find r b = Some ms). by rewrite <- !sorted_map_lookup, Heq.
Qed.

Global Instance set_strict_total : StrictTotal set_lt.
Proof. apply (strict_total_inj sorted_set); [apply _|apply sorted_set_inj]. Qed.

Global Instance bindings_strict_total : StrictTotal bindings_lt.
Proof. apply (strict_total_inj sorted_map); [apply _|apply sorted_map_inj]. Qed.

Global Instance policy_strict_total : StrictTotal policy_lt.
Proof.
  apply (strict_total_inj policy_tie); [apply _|].
  intros [v1 b1 e1] [v2 b2 e2] Heq. unfold policy_tie in Heq. by simplify_eq/=.
Qed.

Lemma policy_eq_spec a b : policy_eq a b = true ↔ a = b.
Proof.
  unfold policy_eq, bindings_eq. rewrite !andb_true_iff, !bool_decide_eq_true, Z.eqb_eq.
  destruct a, b; simpl. naive_solver.
Qed.

(** The six operators of a strict total order with its equality. *)
Lemma rel_ops_total `{StrictTotal A ltA} (eq : A → A → bool) (a b : A) :
  (∀ a b, eq a b = true ↔ a = b) →
  Nat.b2n (ltA a b) + Nat.b2n (eq a b) + Nat.b2n (rel_gt ltA a b) = 1 ∧
  rel_ne eq a b = ltA a b || rel_gt ltA a b ∧
  rel_le ltA a b = ltA a b || eq a b ∧ rel_ge ltA a b = rel_gt ltA a b || eq a b.
Proof.
  intros Heq. unfold rel_ne, rel_gt, rel_le, rel_ge.
  destruct (eq a b) eqn:He.
  - apply Heq in He as ->. by rewrite st_irrefl.
  - destruct (ltA a b) eqn:Hab; [by rewrite (st_asym a b Hab)|].
    destruct (ltA b a) eqn:Hba; [done|]. pose proof (st_total a b Hab Hba) as ->.
    by rewrite (proj2 (Heq b b) eq_refl) in He.
Qed.

(** ** Properties *)

(** C38: a program of additions and removals keeps exactly the grants that the set of
    (role, member) pairs has, and a role is found exactly when it is named: an addition names
    it, also one of an empty set of members, and a removal after which it has no members
    drops it.  Hence when no empty set of members is added, a role is found exactly when it
    has a member. *)
Theorem iam_bindings_refines (ops : list iam_op) r m :
  let b := foldl (λ b o, run_iam o b) IamBindings_new ops in
  (m ∈ at_role r b ↔ (r, m) ∈ (spec_run ops).1) ∧
  (is_Some (find r b) ↔ r ∈ (spec_run ops).2) ∧
  (Forall adds_members ops → (is_Some (find r b) ↔ at_role r b ≠ ∅)).
Proof.
  destruct (run_iam_spec ops IamBindings_new (∅, ∅)) as [Ha Hn]; [done| |].
  { intros r'. split; [by intros []|by intros ?%elem_of_empty]. }
  split; [apply Ha|]. split; [apply Hn|]. clear Ha Hn. intros Hops.
  assert (∀ b, no_empty b → no_empty (foldl (λ b o, run_iam o b) b ops)) as Hn.
  { induction ops as [|o ops IH]; intros b Hb; [done|].
    apply Forall_cons in Hops as [Ho Hops]. simpl. by apply IH, run_iam_no_empty. }
  specialize (Hn IamBindings_new). assert (no_empty IamBindings_new) as H0 by done.
  specialize (Hn H0 r). unfold at_role. destruct (find r _) as [ms|]; [|by split; [intros []|]].
  split; [congruence|eauto].
Qed.

(** The comparison operators of [IamPolicy] (and of [IamBindings]) are a total order:
    exactly one of [<], [==] and [>] holds, [==] is equality of all fields, [<] is
    transitive and the other operators agree with them. *)
Theorem iam_policy_order (a b c : IamPolicy) :
  Nat.b2n (policy_lt a b) + Nat.b2n (policy_eq a b) + Nat.b2n (rel_gt policy_lt a b) = 1 ∧
  (policy_eq a b = true ↔ a = b) ∧
  (policy_lt a b = true → policy_lt b c = true → policy_lt a c = true) ∧
  rel_ne policy_eq a b = policy_lt a b || rel_gt policy_lt a b ∧
  rel_le policy_lt a b = policy_lt a b || policy_eq a b ∧
  rel_ge policy_lt a b = rel_gt policy_lt a b || policy_eq a b ∧
  (version a = version b → etag a = etag b →
   policy_lt a b = bindings_lt (bindings a) (bindings b)).
Proof.
  pose proof (rel_ops_total policy_eq a b policy_eq_spec) as (H1 & H2 & H3 & H4).
  split_and!; [done|apply policy_eq_spec|apply st_trans|done..|].
  intros Hv He. unfold policy_lt, policy_tie, pair_lt. simpl. rewrite Hv, He, !st_irrefl. simpl.
  by rewrite andb_false_r, orb_false_r.
Qed.

Lemma iam_policy_order_witness :
  policy_lt (mkIamPolicy 1 ∅ "a") (mkIamPolicy 1 (AddMember "r" "m" ∅) "a")
    = bindings_lt ∅ (AddMember "r" "m" ∅) ∧
  policy_lt (mkIamPolicy 0 ∅ "") (mkIamPolicy 2 ∅ "") = true.
Proof.
  split.
  - apply (iam_policy_order (mkIamPolicy 1 ∅ "a") (mkIamPolicy 1 (AddMember "r" "m" ∅) "a")
      (mkIamPolicy 1 ∅ "a")); reflexivity.
  - apply (iam_policy_order (mkIamPolicy 0 ∅ "") (mkIamPolicy 1 ∅ "") (mkIamPolicy 2 ∅ ""));
      vm_compute; reflexivity.
Defined.

Lemma iam_bindings_refines_witness :
  is_Some (find "r" (foldl (λ b o, run_iam o b) IamBindings_new [IamAdd "r" "m"; IamAdd "r" "n";
    IamRemove "r" "m"])) .
Proof.
  apply (iam_bindings_refines [IamAdd "r" "m"; IamAdd "r" "n"; IamRemove "r" "m"] "r" "n").
  - repeat constructor.
  - apply (bool_decide_unpack _). vm_compute. exact I.
Defined.

(** The constructor from a vector keeps only the first binding of a role. *)
Lemma IamBindings_of_vector_drops :
  at_role "r" (IamBindings_of_vector [mkIamBinding "r" {["a"]}; mkIamBinding "r" {["b"]}]) = {["a"]}.
Proof. vm_compute. reflexivity. Qed.
