(* ===== verification/Environment.v ===== *)
(** * Environment variables (internal/getenv.cc, internal/setenv.cc)

    The environment of a POSIX process is a finite map; [setenv] and [unsetenv] report
    an error for a name that is empty or contains ['='], which the code ignores. *)

From S2P Require Import Prelude CLibrary.

Set Default Proof Using "Type".

Abbreviation environment := (gmap string string).

(** ** The C library *)
Fixpoint contains_char (c : ascii) (s : string) : bool :=
  match s with "" => false | String c' s => bool_decide (c' = c) || contains_char c s end.
Definition valid_name (name : string) : bool :=
  negb (bool_decide (name = "")) && negb (contains_char "="%char name).
Definition std_getenv (name : string) (env : environment) : option string := env !! name.
Definition std_unsetenv (name : string) (env : environment) : environment :=
  if valid_name name then delete name env else env.
(** With [overwrite] set. *)
Definition std_setenv (name value : string) (env : environment) : environment :=
  if valid_name name then <[name := value]> env else env.

(** ** The functions of the library

    A [char const*] that may be null is an [option]; [c_str()] ends at the first NUL. *)
Definition GetEnv (variable : string) (env : environment) : option string :=
  match std_getenv variable env with
  | None => None
  | Some buffer => Some (c_str buffer)
  end.

Definition UnsetEnv (variable : string) (env : environment) : environment :=
  std_unsetenv variable env.

Definition SetEnv_ptr (variable : string) (value : option string) (env : environment) :
    environment :=
  match value with
  | None => UnsetEnv variable env
  | Some value => std_setenv variable (c_str value) env
  end.

Definition SetEnv (variable : string) (value : option string) (env : environment) :
    environment :=
  match value with
  | Some value => SetEnv_ptr variable (Some value) env
  | None => UnsetEnv variable env
  end.

(** ** Lemmas *)
Lemma c_str_idem s : c_str (c_str s) = c_str s.
Proof.
  induction s as [|c s IH]; [done|]. simpl.
  destruct (code c =? 0)%Z eqn:Hc; [done|]. simpl. by rewrite Hc, IH.
Qed.

(** What [GetEnv] reads after [SetEnv]. *)
Lemma GetEnv_SetEnv variable value x env :
  valid_name variable = true →
  GetEnv x (SetEnv variable value env) =
    if decide (x = variable) then c_str <$> value else GetEnv x env.
Proof.
  intros Hv. unfold GetEnv, std_getenv, SetEnv, SetEnv_ptr, UnsetEnv, std_setenv, std_unsetenv.
  destruct value as [v|]; rewrite Hv; case_decide as Hx; subst; simplify_map_eq; try done.
  by rewrite c_str_idem.
Qed.

Lemma SetEnv_invalid variable value env :
  valid_name variable = false → SetEnv variable value env = env.
Proof.
  intros Hv. unfold SetEnv, SetEnv_ptr, UnsetEnv, std_setenv, std_unsetenv.
  by destruct value; rewrite Hv.
Qed.

(** ** [ScopedEnvironment] (testing_util/scoped_environment.cc)

    The constructor remembers the value of the variable, the destructor puts it back. *)
Record ScopedEnvironment := mkScoped { variable_ : string; prev_value_ : option string }.

Definition ScopedEnvironment_new (variable : string) (value : option string)
    (env : environment) : ScopedEnvironment * environment :=
  (mkScoped variable (GetEnv (c_str variable) env), SetEnv (c_str variable) value env).
Definition ScopedEnvironment_destroy (s : ScopedEnvironment) (env : environment) : environment :=
  SetEnv (c_str (variable_ s)) (prev_value_ s) env.

(** Nested scopes, which end in the reverse order, around code that does not write the
    environment. *)
Fixpoint in_scopes (l : list (string * option string)) (env : environment) : environment :=
  match l with
  | [] => env
  | (variable, value) :: l =>
      let '(s, env) := ScopedEnvironment_new variable value env in
      ScopedEnvironment_destroy s (in_scopes l env)
  end.

(** What a process can hold: the names are valid and no value has a NUL. *)
Definition environment_valid (env : environment) : Prop :=
  map_Forall (λ name value, valid_name name = true ∧ c_str value = value) env.

Lemma environment_valid_SetEnv variable value env :
  environment_valid env → environment_valid (SetEnv variable value env).
Proof.
  intros Henv. unfold SetEnv, SetEnv_ptr, UnsetEnv, std_setenv, std_unsetenv.
  destruct value as [v|], (valid_name variable) eqn:Hv; try done.
  - apply map_Forall_insert_2; [|done]. by rewrite c_str_idem.
  - by apply map_Forall_delete.
Qed.

Lemma SetEnv_restores variable value env :
  environment_valid env →
  SetEnv variable (GetEnv variable env) (SetEnv variable value env) = env.
Proof.
  intros Henv. destruct (valid_name variable) eqn:Hv; [|by rewrite !SetEnv_invalid].
  apply map_eq. intros x.
  assert (∀ y e, environment_valid e → GetEnv y e = e !! y) as Hget.
  { intros y e He. unfold GetEnv, std_getenv. destruct (e !! y) as [v|] eqn:Hy; [|done].
    by destruct (He _ _ Hy) as [_ ->]. }
  rewrite <- !Hget by auto using environment_valid_SetEnv.
  rewrite GetEnv_SetEnv by done. case_decide as Hx; [subst x|by rewrite GetEnv_SetEnv, decide_False].
  unfold GetEnv, std_getenv. destruct (env !! variable); simpl; [by rewrite c_str_idem|done].
Qed.

(** Code that runs inside nested [ScopedEnvironment]s leaves the environment as it
    was, whatever the variables and values: also when a variable is set twice, was not
    set, or has a name that [setenv] refuses. *)
Theorem scoped_environment_restores (l : list (string * option string)) (env : environment) :
  environment_valid env → in_scopes l env = env.
Proof.
  revert env. induction l as [|[variable value] l IH]; intros env Henv; [done|]. simpl.
  rewrite IH by by apply environment_valid_SetEnv. by apply SetEnv_restores.
Qed.

Lemma scoped_environment_restores_witness :
  in_scopes [("A", Some "1"); ("A", None); ("B=", Some "2")] {["A" := "0"]} = {["A" := "0"]}.
Proof.
  apply scoped_environment_restores. apply map_Forall_insert_2; [done|apply map_Forall_empty].
Defined.

(** ** Moving a [ScopedEnvironment]

    The move operations are defaulted: they move the members.  [mvs] is what is left in a
    string that was moved from, which the standard leaves open (it is empty in libstdc++);
    the [optional] of the library keeps its flag when it is moved from. *)
Section moves.
Context (mvs : string → string).

Definition ScopedEnvironment_moved (s : ScopedEnvironment) : ScopedEnvironment :=
  mkScoped (mvs (variable_ s)) (mvs <$> prev_value_ s).
(** The new object and what is left in [rhs]. *)
Definition ScopedEnvironment_move (rhs : ScopedEnvironment) :
    ScopedEnvironment * ScopedEnvironment := (rhs, ScopedEnvironment_moved rhs).
(** [operator=(ScopedEnvironment&&)] for different objects: the members of the target are
    overwritten. *)
Definition ScopedEnvironment_assign (this rhs : ScopedEnvironment) :
    ScopedEnvironment * ScopedEnvironment := (rhs, ScopedEnvironment_moved rhs).

(** The destructor of an object that was moved from does nothing where such a string is not
    the name of a variable. *)
Lemma ScopedEnvironment_moved_destroy s env :
  valid_name (c_str (mvs (variable_ s))) = false →
  ScopedEnvironment_destroy (ScopedEnvironment_moved s) env = env.
Proof. intros Hv. by apply SetEnv_invalid. Qed.

(** An object may be moved out of the scope that created it: the code [body] runs while the
    variable is set, and the last owner restores it. *)
Lemma ScopedEnvironment_move_restores variable value env body :
  environment_valid env → valid_name (c_str (mvs variable)) = false →
  (∀ e, environment_valid e → body e = e) →
  (let '(s, env) := ScopedEnvironment_new variable value env in
   let '(s1, s2) := ScopedEnvironment_move s in
   ScopedEnvironment_destroy s1 (body (ScopedEnvironment_destroy s2 env))) = env.
Proof.
  intros Henv Hv Hb. simpl.
  unfold ScopedEnvironment_new, ScopedEnvironment_move.
  rewrite ScopedEnvironment_moved_destroy by done.
  rewrite Hb by by apply environment_valid_SetEnv. by apply SetEnv_restores.
Qed.

(** The target of a move assignment forgets the value that it was to restore. *)
Lemma ScopedEnvironment_assign_forgets x y v w env :
  valid_name x = true → valid_name y = true → c_str x = x → c_str y = y → x ≠ y →
  valid_name (c_str (mvs y)) = false →
  (let '(a, env) := ScopedEnvironment_new x (Some v) env in
   let '(b, env) := ScopedEnvironment_new y (Some w) env in
   let '(a, b) := ScopedEnvironment_assign a b in
   GetEnv x (ScopedEnvironment_destroy a (ScopedEnvironment_destroy b env))) = Some (c_str v).
Proof.
  intros Hx Hy Hcx Hcy Hne Hm. unfold ScopedEnvironment_new, ScopedEnvironment_assign.
  rewrite ScopedEnvironment_moved_destroy by done. unfold ScopedEnvironment_destroy.
  cbn -[SetEnv GetEnv c_str]. rewrite Hcx, Hcy, !GetEnv_SetEnv by done.
  by rewrite !(decide_False (P := x = y)), decide_True by done.
Qed.
End moves.
