(* ===== verification/Streams.v ===== *)
(** * Streams of the standard library (internal/ios_flags_saver.h)

    Text as a list of characters, splitting it, what [std::getline] reads from a
    [std::istringstream], and the formatting flags of a stream. *)

From S2P Require Import Prelude CLibrary.

Set Default Proof Using "Type".

Abbreviation chars := (list ascii).

Fixpoint chars_of (s : string) : chars :=
  match s with "" => [] | String c s => c :: chars_of s end.
Fixpoint text_of (l : chars) : string :=
  match l with [] => "" | c :: l => String c (text_of l) end.

(** ** Splitting *)

(** The texts between the separators [c]. *)
Fixpoint split (c : ascii) (l : chars) : list chars :=
  match l with
  | [] => [[]]
  | x :: l =>
      if bool_decide (x = c) then [] :: split c l
      else match split c l with s :: ss => (x :: s) :: ss | [] => [[x]] end
  end.
(** The text up to the first [c] and the one after it. *)
Fixpoint cut (c : ascii) (l : chars) : chars * chars :=
  match l with
  | [] => ([], [])
  | x :: l => if bool_decide (x = c) then ([], l) else let '(a, b) := cut c l in (x :: a, b)
  end.
(** The lines of a text of which [l] are the parts: an empty part at the end is no line. *)
Definition pieces (l : list chars) : list chars :=
  if bool_decide (last l = Some []) then removelast l else l.

(** ** [std::istringstream] *)

(** What is left, and whether the stream is good. *)
Record istringstream := mkStream { rest : chars; good : bool }.
(** [std::getline(is, token, c)]: [None] when it fails. *)
Definition getline (c : ascii) (is_ : istringstream) : option chars * istringstream :=
  if negb (good is_) then (None, is_)
  else if bool_decide (c ∈ rest is_) then
    let '(token, l) := cut c (rest is_) in (Some token, mkStream l true)
  else if bool_decide (rest is_ = []) then (None, mkStream [] false)
  else (Some (rest is_), mkStream [] false).

(** What is still to be read, and the number of calls that it takes at most. *)
Definition tokens (c : ascii) (is_ : istringstream) : list chars :=
  if good is_ then pieces (split c (rest is_)) else [].
Definition stream_size (is_ : istringstream) : nat :=
  if good is_ then S (length (rest is_)) else 0.

(** ** Formatting flags

    [std::ios_base::fmtflags] is a bit mask; [setf] adds flags, [flags] replaces them. *)
Definition ios_flags := Z.
Definition ios_setf (f : Z) (ios : ios_flags) : ios_flags := Z.lor ios f.

Definition IosFlagsSaver_new (ios : ios_flags) : Z := ios.
Definition IosFlagsSaver_destroy (flags_ : Z) (ios : ios_flags) : ios_flags :=
  ios_setf flags_ ios.
(** A block that is run with a saver in scope. *)
Definition with_saver (body : ios_flags → ios_flags) (ios : ios_flags) : ios_flags :=
  let flags_ := IosFlagsSaver_new ios in IosFlagsSaver_destroy flags_ (body ios).

(** ** Lemmas *)

Lemma cut_cases c l :
  (c ∉ l ∧ cut c l = (l, [])) ∨ ∃ a b, l = a ++ c :: b ∧ c ∉ a ∧ cut c l = (a, b).
Proof.
  induction l as [|x l IH]; [left; by split; [apply not_elem_of_nil|]|]. simpl.
  case_bool_decide as Hx; [subst; right; exists [], l; by split_and!; [|apply not_elem_of_nil|]|].
  destruct IH as [[Hn ->]|(a & b & -> & Ha & ->)]; [left|right].
  - split; [by apply not_elem_of_cons|done].
  - exists (x :: a), b. split_and!; [done|by apply not_elem_of_cons|done].
Qed.

Lemma split_none c l : c ∉ l → split c l = [l].
Proof.
  induction l as [|x l IH]; [done|]. intros [Hx Hl]%not_elem_of_cons. simpl.
  rewrite bool_decide_false by congruence. by rewrite IH.
Qed.

Lemma split_app c a b : c ∉ a → split c (a ++ c :: b) = a :: split c b.
Proof.
  induction a as [|x a IH]; intros Ha; simpl; [by rewrite bool_decide_true|].
  apply not_elem_of_cons in Ha as [Hx Ha]. rewrite bool_decide_false by congruence.
  by rewrite IH.
Qed.

Lemma split_nonempty c l : split c l ≠ [].
Proof. destruct l as [|x l]; simpl; [done|]. case_bool_decide; [done|]. by destruct (split c l). Qed.

Lemma pieces_cons a l : l ≠ [] → pieces (a :: l) = a :: pieces l.
Proof.
  intros Hl. unfold pieces. rewrite last_cons. destruct (last l) as [s|] eqn:Hs.
  - case_bool_decide; [|done]. destruct l; done.
  - by apply last_None in Hs.
Qed.

(** A call of [getline] takes the first of the tokens. *)
Lemma getline_tokens c is_ :
  match getline c is_ with
  | (Some token, is') => tokens c is_ = token :: tokens c is' ∧ stream_size is' < stream_size is_
  | (None, _) => tokens c is_ = []
  end.
Proof.
  destruct is_ as [l []]; [|done]. unfold getline, tokens, stream_size. simpl.
  destruct (cut_cases c l) as [[Hn Hc]|(a & b & -> & Ha & Hc)].
  - rewrite bool_decide_false, (split_none _ _ Hn) by done.
    case_bool_decide as Hl; [by subst|]. simpl. unfold pieces.
    rewrite bool_decide_false by (simpl; congruence). split; [done|lia].
  - rewrite bool_decide_true by set_solver. rewrite Hc. simpl.
    rewrite split_app, pieces_cons by (try apply split_nonempty; done).
    rewrite length_app. simpl. split; [done|lia].
Qed.

(** The flags are restored exactly when the block left no flag set that was not set before:
    the destructor does not clear flags. *)
Lemma with_saver_restores body ios :
  with_saver body ios = ios ↔ ∀ i, Z.testbit (body ios) i = true → Z.testbit ios i = true.
Proof.
  unfold with_saver, IosFlagsSaver_destroy, IosFlagsSaver_new, ios_setf. split.
  - intros H i Hi. rewrite <- H, Z.lor_spec, Hi. done.
  - intros H. apply Z.bits_inj'. intros i _. rewrite Z.lor_spec.
    destruct (Z.testbit (body ios) i) eqn:E; [by rewrite (H i E)|done].
Qed.
(** The example of the documentation, with the values of libstdc++: [std::boolalpha] (1)
    stays set; after [std::hex] (8) replaced [std::dec] (2) both are set. *)
Example flags_saver_leaks :
  with_saver (ios_setf 1) 2%Z = 3%Z ∧
  with_saver (λ f, Z.lor (Z.ldiff f 74) 8) 2%Z = 10%Z.
Proof. done. Qed.
