(* ===== verification/LogFormat.v ===== *)
(** * Log records and how they are printed (log.h, log.cc)

    Severities, records, and [operator<<] as the operations that it makes on a stream:
    the threads that write to [std::clog] share its fill character and its width, and any
    of these operations may come between two of another thread. *)

From S2P Require Import Prelude CLibrary Rfc3339 Streams.

Set Default Proof Using "Type".

(** ** Severities *)
Inductive Severity :=
| GCP_LS_TRACE | GCP_LS_DEBUG | GCP_LS_INFO | GCP_LS_NOTICE | GCP_LS_WARNING
| GCP_LS_ERROR | GCP_LS_CRITICAL | GCP_LS_ALERT | GCP_LS_FATAL.
Definition GCP_LS_HIGHEST : Severity := GCP_LS_FATAL.
Definition GCP_LS_LOWEST : Severity := GCP_LS_TRACE.

Global Instance Severity_eq_dec : EqDecision Severity.
Proof. solve_decision. Defined.

Definition Severity_to_int (x : Severity) : Z :=
  match x with
  | GCP_LS_TRACE => 0 | GCP_LS_DEBUG => 1 | GCP_LS_INFO => 2 | GCP_LS_NOTICE => 3
  | GCP_LS_WARNING => 4 | GCP_LS_ERROR => 5 | GCP_LS_CRITICAL => 6 | GCP_LS_ALERT => 7
  | GCP_LS_FATAL => 8
  end.
Definition severities : list Severity :=
  [GCP_LS_TRACE; GCP_LS_DEBUG; GCP_LS_INFO; GCP_LS_NOTICE; GCP_LS_WARNING; GCP_LS_ERROR;
   GCP_LS_CRITICAL; GCP_LS_ALERT; GCP_LS_FATAL].
Definition severity_ge (x y : Severity) : bool := (Severity_to_int y <=? Severity_to_int x)%Z.

(** [GOOGLE_CLOUD_CPP_LOGGING_MIN_SEVERITY_ENABLED]: a macro of the build. *)
Class LoggingBuild := GCP_LS_LOWEST_ENABLED : Severity.
Definition default_logging_build : LoggingBuild := GCP_LS_DEBUG.

Definition kSeverityNames : list string :=
  ["TRACE"; "DEBUG"; "INFO"; "NOTICE"; "WARNING"; "ERROR"; "CRITICAL"; "ALERT"; "FATAL"].
(** [operator<<]. *)
Definition Severity_print (x : Severity) : string :=
  nth (Z.to_nat (Severity_to_int x)) kSeverityNames "".

(** ** Records and how they are printed *)

(** [timestamp]: nanoseconds since the epoch. *)
Record LogRecord := mkLogRecord {
  severity : Severity;
  function : string;
  filename : string;
  lineno : Z;
  timestamp : Z;
  message : string;
}.

(** [struct Timestamp]: [to_time_t] truncates, and the rest goes to an [int32_t]. *)
Record Timestamp := mkTimestamp { ts_tm : tm; nanos : Z }.
Definition Timestamp_new (tp : Z) : Timestamp :=
  let tt := to_time_t tp in
  mkTimestamp (gmtime_r tt) (tp - tt * 1000000000).
(** ** Streams that threads share *)

(** The fill character and the width of a stream. *)
Record format := mkFormat { fill : ascii; width : nat }.
(** What reaches the buffer of a stream. *)
Inductive output := Char (c : ascii) | Flushed.

(** The operations on a stream; [prev] is a local variable of the thread.  The insertion of
    a text determines the characters and resets the width, and then the characters are
    put one after the other. *)
Inductive stream_op :=
| SaveFill (c : ascii)       (* auto const prev = os.fill(c); *)
| SetFill (c : ascii)        (* os.fill(c); *)
| RestoreFill                (* os.fill(prev); *)
| SetWidth (n : nat)         (* os << std::setw(n) *)
| Insert (text : string)     (* os << text *)
| PutChar (c : ascii)
| FlushStream.               (* os << std::flush *)

(** [prev], the stream, the output and what is left of the operation. *)
Definition stream_step (op : stream_op) (prev : ascii) (f : format) :
    ascii * format * list output * list stream_op :=
  match op with
  | SaveFill c => (fill f, mkFormat c (width f), [], [])
  | SetFill c => (prev, mkFormat c (width f), [], [])
  | RestoreFill => (prev, mkFormat prev (width f), [], [])
  | SetWidth n => (prev, mkFormat (fill f) n, [], [])
  | Insert text =>
      (prev, mkFormat (fill f) 0, [], PutChar <$> chars_of (setw (fill f) (width f) text))
  | PutChar c => (prev, f, [Char c], [])
  | FlushStream => (prev, f, [Flushed], [])
  end.

(** ** [operator<<] *)
Definition Timestamp_insert (ts : Timestamp) : list stream_op :=
  let tm := ts_tm ts in
  [SaveFill " "; SetWidth 4; Insert (print_int 1 (tm_year tm)); SetFill "0";
   Insert "-"; SetWidth 2; Insert (print_int 1 (tm_mon tm));
   Insert "-"; SetWidth 2; Insert (print_int 1 (tm_mday tm));
   Insert "T"; SetWidth 2; Insert (print_int 1 (tm_hour tm));
   Insert ":"; SetWidth 2; Insert (print_int 1 (tm_min tm));
   Insert ":"; SetWidth 2; Insert (print_int 1 (tm_sec tm));
   Insert "."; SetWidth 9; Insert (print_int 1 (nanos ts)); Insert "Z"; RestoreFill].
Definition LogRecord_insert (r : LogRecord) : list stream_op :=
  Timestamp_insert (Timestamp_new (timestamp r)) ++
  [Insert " ["; Insert (Severity_print (severity r)); Insert "] "; Insert (message r);
   Insert " ("; Insert (filename r); Insert ":"; Insert (print_int 1 (lineno r)); Insert ")"].

Definition newline : string := String (ascii_of_nat 10) "".
(** [StdClogBackend::Process], which [ProcessWithOwnership] calls. *)
Definition StdClogBackend_Process (r : LogRecord) : list stream_op :=
  LogRecord_insert r ++ [Insert newline] ++
  (if severity_ge (severity r) GCP_LS_WARNING then [FlushStream] else []).

(** ** The specification *)

(** The order of the severities is that of their list. *)
Definition position (x : Severity) : nat := default 0 (fst <$> list_find (x =.) severities).
Definition at_least (x y : Severity) : bool := position y <=? position x.

(** The text of a time and of a record. *)
Definition Timestamp_print (ts : Timestamp) : string :=
  setw " " 4 (print_int 1 (tm_year (ts_tm ts)))
  +:+ "-" +:+ setw "0" 2 (print_int 1 (tm_mon (ts_tm ts)))
  +:+ "-" +:+ setw "0" 2 (print_int 1 (tm_mday (ts_tm ts)))
  +:+ "T" +:+ setw "0" 2 (print_int 1 (tm_hour (ts_tm ts)))
  +:+ ":" +:+ setw "0" 2 (print_int 1 (tm_min (ts_tm ts)))
  +:+ ":" +:+ setw "0" 2 (print_int 1 (tm_sec (ts_tm ts)))
  +:+ "." +:+ setw "0" 9 (print_int 1 (nanos ts)) +:+ "Z".
Definition LogRecord_print (r : LogRecord) : string :=
  Timestamp_print (Timestamp_new (timestamp r)) +:+ " [" +:+ Severity_print (severity r)
  +:+ "] " +:+ message r +:+ " (" +:+ filename r +:+ ":" +:+ print_int 1 (lineno r) +:+ ")".
(** The records after which the stream is flushed. *)
Definition flushes (r : LogRecord) : list output :=
  if bool_decide (severity r ∈
    [GCP_LS_WARNING; GCP_LS_ERROR; GCP_LS_CRITICAL; GCP_LS_ALERT; GCP_LS_FATAL])
  then [Flushed] else [].
(** The line of a record that is printed by one thread alone. *)
Definition clog_line (r : LogRecord) : list output :=
  (Char <$> chars_of (LogRecord_print r +:+ newline)) ++ flushes r.

(** The texts of which a line is made. *)
Definition line_texts (r : LogRecord) : list string :=
  let ts := Timestamp_new (timestamp r) in
  let tm := ts_tm ts in
  [print_int 1 (tm_year tm); "-"; print_int 1 (tm_mon tm); "-"; print_int 1 (tm_mday tm); "T";
   print_int 1 (tm_hour tm); ":"; print_int 1 (tm_min tm); ":"; print_int 1 (tm_sec tm); ".";
   print_int 1 (nanos ts); "Z"; " ["; Severity_print (severity r); "] "; message r; " (";
   filename r; ":"; print_int 1 (lineno r); ")"; newline].
(** The texts in order, each behind at most nine blanks or zeros. *)
Inductive padded : list string → list output → Prop :=
| padded_nil : padded [] []
| padded_cons n c text texts out :
    n ≤ 9 → c = " "%char ∨ c = "0"%char → padded texts out →
    padded (text :: texts) ((Char <$> replicate n c ++ chars_of text) ++ out).
(** The line of a record when other threads print at the same time. *)
Definition intact (r : LogRecord) (out : list output) : Prop :=
  ∃ body, padded (line_texts r) body ∧ out = body ++ flushes r.

(** ** Lemmas *)

Lemma at_least_ge x y : at_least x y = severity_ge x y.
Proof. destruct x, y; reflexivity. Qed.

Lemma flushes_threshold r :
  (if severity_ge (severity r) GCP_LS_WARNING then [Flushed] else []) = flushes r.
Proof. unfold flushes. destruct (severity r); reflexivity. Qed.

Lemma chars_of_app s t : chars_of (s +:+ t) = chars_of s ++ chars_of t.
Proof. induction s as [|c s IH]; [done|]. simpl. by rewrite <- IH. Qed.

(** *** One thread alone *)

(** The output of the operations, and the stream after them. *)
Fixpoint stream_run (ops : list stream_op) (prev : ascii) (f : format) : list output * format :=
  match ops with
  | [] => ([], f)
  | op :: ops =>
      let '(prev, f, out, more) := stream_step op prev f in
      let '(rest, f) := stream_run ops prev f in
      (out ++ omap (λ op, if op is PutChar c then Some (Char c) else None) more ++ rest, f)
  end.

Lemma put_chars (l : list ascii) :
  omap (λ op, if op is PutChar c then Some (Char c) else None) (PutChar <$> l) = Char <$> l.
Proof. induction l as [|c l IH]; [done|]. simpl. f_equal. exact IH. Qed.

Lemma stream_run_insert text ops prev f :
  stream_run (Insert text :: ops) prev f =
    ((Char <$> chars_of (setw (fill f) (width f) text))
      ++ (stream_run ops prev (mkFormat (fill f) 0)).1,
     (stream_run ops prev (mkFormat (fill f) 0)).2).
Proof.
  cbn [stream_run stream_step]. rewrite put_chars. by destruct (stream_run ops prev _).
Qed.

Lemma setw_0 c text : setw c 0 text = text.
Proof. done. Qed.

(** A line is the same whatever the fill character was, which it leaves as it was. *)
Lemma Process_alone r prev c :
  stream_run (StdClogBackend_Process r) prev (mkFormat c 0) = (clog_line r, mkFormat c 0).
Proof.
  unfold StdClogBackend_Process, clog_line, LogRecord_print, Timestamp_print.
  rewrite <- flushes_threshold. unfold LogRecord_insert, Timestamp_insert.
  set (ts := Timestamp_new (timestamp r)). clearbody ts.
  assert (∀ f prev, stream_run (if severity_ge (severity r) GCP_LS_WARNING then [FlushStream]
    else []) prev f = (if severity_ge (severity r) GCP_LS_WARNING then [Flushed] else [], f))
    as Hflush by by intros; case_match.
  cbn [app]. rewrite !chars_of_app, !fmap_app.
  repeat first [rewrite stream_run_insert | rewrite Hflush
    | progress cbn [stream_run stream_step fill width app omap list_omap fst snd]].
  rewrite !put_chars, !setw_0, <- !app_assoc. done.
Qed.

(** *** Any number of threads *)

(** What the threads leave of a stream: the fill character is a blank or a zero, and no
    width is larger than nine. *)
Definition blank (c : ascii) : Prop := c = " "%char ∨ c = "0"%char.
Definition format_ok (f : format) : Prop := blank (fill f) ∧ width f ≤ 9.
Definition op_ok (op : stream_op) : Prop :=
  match op with SaveFill c | SetFill c => blank c | SetWidth n => n ≤ 9 | _ => True end.

(** The output of operations that are done, whatever the stream was. *)
Definition quiet (op : stream_op) : bool :=
  match op with SaveFill _ | SetFill _ | RestoreFill | SetWidth _ => true | _ => false end.
Inductive written : list stream_op → list output → Prop :=
| written_nil : written [] []
| written_quiet op ops out : quiet op = true → written ops out → written (op :: ops) out
| written_insert n c text ops out :
    n ≤ 9 → blank c → written ops out →
    written (Insert text :: ops) ((Char <$> replicate n c ++ chars_of text) ++ out)
| written_flush ops out : written ops out → written (FlushStream :: ops) (Flushed :: out).

Lemma written_app ops1 ops2 out1 out2 :
  written ops1 out1 → written ops2 out2 → written (ops1 ++ ops2) (out1 ++ out2).
Proof.
  intros H1 H2. induction H1; [done|..]; rewrite <- ?app_assoc; by constructor.
Qed.

Lemma Process_ok r : Forall op_ok (StdClogBackend_Process r).
Proof.
  unfold StdClogBackend_Process, LogRecord_insert, Timestamp_insert, op_ok, blank.
  cbn [app]. repeat (apply Forall_cons; split; [first [exact I|lia|tauto]|]).
  case_match; by repeat constructor.
Qed.

Lemma written_app_inv ops1 ops2 out :
  written (ops1 ++ ops2) out → ∃ out1 out2, out = out1 ++ out2 ∧ written ops1 out1 ∧ written ops2 out2.
Proof.
  revert out. induction ops1 as [|op ops1 IH]; intros out Hw.
  { exists [], out. split_and!; [done|constructor|done]. }
  inversion Hw as [|? ? ? Hq Hw'|? ? ? ? ? Hn Hc Hw'|? ? Hw']; simplify_eq;
    apply IH in Hw' as (out1 & out2 & -> & ? & ?).
  - exists out1, out2. split_and!; [done|by constructor|done].
  - eexists _, out2. split_and!; [apply app_assoc|by constructor|done].
  - exists (Flushed :: out1), out2. split_and!; [done|by constructor|done].
Qed.

Definition texts_of (ops : list stream_op) : list string :=
  omap (λ op, if op is Insert text then Some text else None) ops.
Lemma written_padded ops out :
  written ops out → FlushStream ∉ ops → padded (texts_of ops) out.
Proof.
  induction 1 as [|op ops out Hq _ IH|n c text ops out Hn Hc _ IH|ops out _ IH]; intros Hf;
    [constructor|..]; apply not_elem_of_cons in Hf as [Hne Hf].
  - specialize (IH Hf). by destruct op.
  - apply padded_cons; auto.
  - done.
Qed.

Lemma Process_intact r out : written (StdClogBackend_Process r) out → intact r out.
Proof.
  unfold StdClogBackend_Process. rewrite app_assoc. intros Hw.
  apply written_app_inv in Hw as (body & out2 & -> & Hb & Hw).
  exists body. split.
  - apply written_padded in Hb; [exact Hb|]. unfold LogRecord_insert, Timestamp_insert.
    cbn [app]. rewrite !not_elem_of_cons. split_and!; [done..|apply not_elem_of_nil].
  - f_equal. rewrite <- flushes_threshold. case_match.
    + inversion Hw as [| | |? ? Hw']; simplify_eq/=. by inversion Hw'.
    + by inversion Hw.
Qed.

(** A thread has printed [out] of the line of [r] and still has to do [ops]. *)
Definition in_progress (r : LogRecord) (ops : list stream_op) (out : list output) : Prop :=
  ∃ ops1 ops2 chars, StdClogBackend_Process r = ops1 ++ ops2 ∧
    ops = (PutChar <$> chars) ++ ops2 ∧ written ops1 (out ++ (Char <$> chars)).

Lemma in_progress_start r : in_progress r (StdClogBackend_Process r) [].
Proof. exists [], (StdClogBackend_Process r), []. split_and!; [done|done|constructor]. Qed.

Lemma chars_of_setw c n text :
  chars_of (setw c n text) = replicate (n - String.length text) c ++ chars_of text.
Proof. unfold setw. induction (n - String.length text) as [|k IH]; [done|]. simpl. by rewrite IH. Qed.

Lemma in_progress_step r op ops out prev f :
  in_progress r (op :: ops) out → format_ok f → blank prev →
  let '(prev', f', o, more) := stream_step op prev f in
  in_progress r (more ++ ops) (out ++ o) ∧ format_ok f' ∧ blank prev'.
Proof.
  intros (ops1 & ops2 & chars & Hp & Heq & Hw) [Hc Hn] Hb. destruct chars as [|c chars].
  - simpl in Heq. subst ops2. simpl in Hw. rewrite app_nil_r in Hw.
    pose proof (Process_ok r) as Hok. rewrite Hp in Hok.
    apply Forall_app in Hok as [_ [Hop _]%Forall_cons].
    assert (∀ chars out', written [op] (out' ++ (Char <$> chars)) →
      in_progress r ((PutChar <$> chars) ++ ops) (out ++ out')) as Hnext.
    { intros chars out' Hw'. exists (ops1 ++ [op]), ops, chars. split_and!; [|done|].
      - by rewrite Hp, <- app_assoc.
      - rewrite <- app_assoc. by apply written_app. }
    destruct op; simpl in *; (split; [|split; [split|]; simpl; try done; lia]).
    1-4: apply (Hnext [] []); simpl; apply written_quiet; [done|constructor].
    + apply (Hnext _ []). simpl. rewrite <- (app_nil_r (Char <$> _)), chars_of_setw.
      apply written_insert; [lia|done|constructor].
    + exfalso. assert (PutChar c ∈ StdClogBackend_Process r) as Hin by (rewrite Hp; set_solver).
      revert Hin. clear. unfold StdClogBackend_Process, LogRecord_insert, Timestamp_insert.
      cbn [app]. case_match; rewrite ?not_elem_of_cons; intros Hin;
        repeat (apply elem_of_cons in Hin as [Hin|Hin]; [done|]); by apply elem_of_nil in Hin.
    + apply (Hnext [] [Flushed]). simpl. apply written_flush. constructor.
  - simpl in Heq. injection Heq as -> ->. simpl. split; [|done].
    exists ops1, ops2, chars. split_and!; [done|done|]. by rewrite <- app_assoc.
Qed.

Lemma written_exists ops : Forall (λ op, if op is PutChar _ then False else True) ops →
  ∃ out, written ops out.
Proof.
  induction 1 as [|op ops Hop _ [out IH]]; [eexists; constructor|].
  destruct op; try done; [by exists out; apply written_quiet..| |].
  - eexists. apply (written_insert 0 " "); [lia|by left|done].
  - eexists. by apply written_flush.
Qed.

(** What is printed so far is the beginning of a line, and at the end it is a line. *)
Lemma in_progress_prefix r ops out : in_progress r ops out → ∃ rest, intact r (out ++ rest).
Proof.
  intros (ops1 & ops2 & chars & Hp & _ & Hw).
  assert (Forall (λ op, if op is PutChar _ then False else True) (StdClogBackend_Process r)) as Ha.
  { unfold StdClogBackend_Process, LogRecord_insert, Timestamp_insert. cbn [app].
    repeat (apply Forall_cons; split; [exact I|]). case_match; by repeat constructor. }
  rewrite Hp in Ha. apply Forall_app in Ha as [_ [out2 Hw2]%written_exists].
  exists ((Char <$> chars) ++ out2). apply Process_intact. rewrite Hp, app_assoc.
  by apply written_app.
Qed.

Lemma in_progress_end r out : in_progress r [] out → intact r out.
Proof.
  intros (ops1 & ops2 & chars & Hp & Heq & Hw). symmetry in Heq.
  apply app_nil in Heq as [Hc ->]. apply fmap_nil_inv in Hc as ->.
  rewrite app_nil_r in *. subst ops1. by apply Process_intact.
Qed.
