(* ===== verification/LogSink.v ===== *)
(** * Logging (log.h, log.cc)

    The sink with its backends, the loggers and the [GCP_LOG] statement, run by any
    number of threads.  A critical section of the sink's mutex and a read of one of its
    atomics is one step; a backend is called outside of the critical sections and may
    itself log, add and remove backends.  Operands of statements and backends may throw. *)

From S2P Require Import Prelude Throw CLibrary Rfc3339 Environment Streams LogFormat.
From stdpp Require Import sorting.

Set Default Proof Using "Type".

(** ** The sink *)

(** The classes that implement [LogBackend]: [StdClogBackend] of log.cc, which no other
    file can name, and those of the application. *)
Inductive LogBackend := StdClogBackend | UserBackend (b : nat).

Global Instance LogBackend_eq_dec : EqDecision LogBackend.
Proof. solve_decision. Defined.

(** [std::map<long, ...>]; [long] has 64 bits. *)
Abbreviation backends := (gmap Z LogBackend).
Record LogSink := mkLogSink {
  empty_ : bool;
  minimum_severity_ : Z;
  next_id_ : Z;
  clog_backend_id_ : Z;
  backends_ : backends;
}.

(** The entries of a map in the order of iteration. *)
Definition id_le (p q : Z * LogBackend) : Prop := (p.1 ≤ q.1)%Z.
Global Instance id_le_dec : RelDecision id_le.
Proof. unfold id_le. intros p q. apply _. Defined.
Definition in_order (bs : backends) : list (Z * LogBackend) :=
  merge_sort id_le (map_to_list bs).

Section sink.
Context `{LoggingBuild}.
Implicit Types (s : LogSink).

Definition LogSink_new : LogSink :=
  mkLogSink true (Severity_to_int GCP_LS_LOWEST_ENABLED) 0 0 ∅.

Definition CompileTimeEnabled (level : Severity) : bool := severity_ge level GCP_LS_LOWEST_ENABLED.
Definition is_enabled (sev : Severity) s : bool := (minimum_severity_ s <=? Severity_to_int sev)%Z.
Definition set_minimum_severity (minimum : Severity) s : LogSink :=
  mkLogSink (empty_ s) (Severity_to_int minimum) (next_id_ s) (clog_backend_id_ s) (backends_ s).
(** [static_cast<Severity>]: [None] for a number that is not an enumerator. *)
Definition minimum_severity s : option Severity :=
  if (minimum_severity_ s <? 0)%Z then None else severities !! Z.to_nat (minimum_severity_ s).

Definition store_backends (bs : backends) s : LogSink :=
  mkLogSink (bool_decide (bs = ∅)) (minimum_severity_ s) (next_id_ s) (clog_backend_id_ s) bs.
Definition set_clog_backend_id (id : Z) s : LogSink :=
  mkLogSink (empty_ s) (minimum_severity_ s) (next_id_ s) id (backends_ s).

(** [++next_id_]; [emplace] keeps an element that is there. *)
Definition AddBackendImpl (backend : LogBackend) s : cxx (Z * LogSink) :=
  id ← int64 (next_id_ s + 1);
  let s := mkLogSink (empty_ s) (minimum_severity_ s) id (clog_backend_id_ s) (backends_ s) in
  let bs := match backends_ s !! id with
            | Some _ => backends_ s
            | None => <[id := backend]> (backends_ s)
            end in
  Ret (id, store_backends bs s).
Definition RemoveBackendImpl (id : Z) s : LogSink :=
  match backends_ s !! id with
  | None => s
  | Some _ => store_backends (delete id (backends_ s)) s
  end.

Definition AddBackend (backend : LogBackend) s : cxx (Z * LogSink) := AddBackendImpl backend s.
Definition RemoveBackend (id : Z) s : LogSink := RemoveBackendImpl id s.
Definition ClearBackends s : LogSink := store_backends ∅ (set_clog_backend_id 0 s).
Definition BackendCount s : nat := size (backends_ s).

Definition EnableStdClogImpl s : cxx LogSink :=
  if negb (clog_backend_id_ s =? 0)%Z then Ret s
  else '(id, s) ← AddBackendImpl StdClogBackend s; Ret (set_clog_backend_id id s).
Definition DisableStdClogImpl s : LogSink :=
  if (clog_backend_id_ s =? 0)%Z then s
  else set_clog_backend_id 0 (RemoveBackendImpl (clog_backend_id_ s) s).

(** The first call of [Instance()]. *)
Definition Instance_new (env : environment) : cxx LogSink :=
  match GetEnv "GOOGLE_CLOUD_CPP_ENABLE_CLOG" env with
  | Some _ => EnableStdClogImpl LogSink_new
  | None => Ret LogSink_new
  end.

(** [Log]: the copy of the backends, then which of them get the record and whether they
    are given its ownership. *)
Definition Log_copy s : list (Z * LogBackend) := in_order (backends_ s).
Definition Log_calls (copy : list (Z * LogBackend)) : list (LogBackend * bool) :=
  match copy with
  | [] => []
  | [(_, b)] => [(b, true)]
  | _ => (λ kv, (kv.2, false)) <$> copy
  end.

(** ** Loggers *)
Record Logger := mkLogger {
  enabled_ : bool;
  severity_ : Severity;
  function_ : string;
  filename_ : string;
  lineno_ : Z;
  stream_ : option string;
}.

(** A [GCP_LOG] statement of the program. *)
Record site := mkSite {
  site_severity : Severity;
  site_function : string;
  site_filename : string;
  site_lineno : Z;
}.

(** The constructor, once it has read the two atomics. *)
Definition Logger_new (enabled : bool) (x : site) : Logger :=
  mkLogger enabled (site_severity x) (site_function x) (site_filename x) (site_lineno x) None.
(** [Stream() << text]. *)
Definition Logger_Stream (text : string) (lg : Logger) : Logger :=
  mkLogger (enabled_ lg) (severity_ lg) (function_ lg) (filename_ lg) (lineno_ lg)
    (Some (default "" (stream_ lg) +:+ text)).
(** [LogTo] at the time [now]: the record that goes to [Log], if any. *)
Definition Logger_LogTo (now : Z) (lg : Logger) : option LogRecord * Logger :=
  match stream_ lg with
  | Some text =>
      if enabled_ lg then
        (Some (mkLogRecord (severity_ lg) (function_ lg) (filename_ lg) (lineno_ lg) now text),
         mkLogger false (severity_ lg) (function_ lg) (filename_ lg) (lineno_ lg) (stream_ lg))
      else (None, lg)
  | None => (None, lg)
  end.
End sink.

(** ** Threads *)

(** What an observer sees.  Each call of [Log] has a ticket. *)
Inductive event :=
| ERegistered (id : Z) (b : LogBackend)
| EUnregistered (id : Z)
| ECleared
| ECopied (ticket : nat) (r : LogRecord) (copy : list (Z * LogBackend))
| EProcessed (ticket : nat) (b : LogBackend) (r : LogRecord) (owned : bool)
| EAborted (ticket : nat).   (* an exception leaves the call *)

(** [std::clog]: what was written, each with the position in the trace of the delivery that
    wrote it, and the format. *)
Record std_clog := mkClog { written_ : list (nat * output); format_ : format }.
Definition clog_new : std_clog := mkClog [] (mkFormat " " 0).

(** The activations on the stack of a thread, and where they are. *)
Inductive frame :=
| FStatement (x : site)             (* the sink is not empty, [is_enabled] is next *)
| FTest (lg : Logger)               (* at the condition of the [for] of [GCP_LOG] *)
| FBody (lg : Logger)               (* in its body: the operands of [<<] are evaluated *)
| FDeliver (ticket : nat) (r : LogRecord) (calls : list (LogBackend * bool))
| FBackend (ticket : nat) (r : LogRecord)  (* in [Process] of a backend of the application *)
| FClog (line : nat) (prev : ascii) (ops : list stream_op). (* in that of [StdClogBackend] *)
Abbreviation thread := (list frame).

Record world := mkWorld {
  sink : LogSink;
  clog : std_clog;
  trace : list event;
  next_ticket : nat;
}.

(** What a thread does next: a call of the application, or the next step of the code. *)
Inductive choice :=
| CallAddBackend (b : nat)
| CallRemoveBackend (id : Z)
| CallClearBackends
| CallEnableStdClog
| CallDisableStdClog
| CallSetMinimumSeverity (minimum : Severity)
| CallLog (r : LogRecord)
| CallStatement (x : site)
| Put (text : string)
| Raise
| Go (now : Z).

Section machine.
Context `{LoggingBuild}.
Implicit Types (w : world) (t : thread).

Definition set_sink s w : world := mkWorld s (clog w) (trace w) (next_ticket w).
Definition set_clog c w : world := mkWorld (sink w) c (trace w) (next_ticket w).
Definition emit (e : event) w : world := mkWorld (sink w) (clog w) (trace w ++ [e]) (next_ticket w).

(** A registration, and what it adds to the trace. *)
Definition registers (b : LogBackend) (m : cxx (Z * LogSink)) w : cxx world :=
  '(id, s) ← m; Ret (emit (ERegistered id b) (set_sink s w)).
Definition EnableStdClog w : cxx world :=
  s ← EnableStdClogImpl (sink w);
  Ret (if (clog_backend_id_ (sink w) =? 0)%Z
       then emit (ERegistered (clog_backend_id_ s) StdClogBackend) (set_sink s w)
       else set_sink s w).
Definition DisableStdClog w : world :=
  let w' := set_sink (DisableStdClogImpl (sink w)) w in
  if (clog_backend_id_ (sink w) =? 0)%Z then w'
  else emit (EUnregistered (clog_backend_id_ (sink w))) w'.

(** [Log]: the critical section; the calls of the backends follow. *)
Definition Log (r : LogRecord) w : world * frame :=
  let copy := Log_copy (sink w) in
  (mkWorld (sink w) (clog w) (trace w ++ [ECopied (next_ticket w) r copy]) (S (next_ticket w)),
   FDeliver (next_ticket w) r (Log_calls copy)).

(** The construction of the logger of a statement; [Logger<false>] is never enabled. *)
Definition Statement (x : site) w : list frame :=
  if CompileTimeEnabled (site_severity x) then
    if empty_ (sink w) then [FTest (Logger_new false x)] else [FStatement x]
  else [].

(** The code of the application runs in this thread. *)
Definition application_runs t : bool :=
  match t with [] | FBody _ :: _ | FBackend _ _ :: _ => true | _ => false end.

Definition call (ch : choice) w t : option (cxx (world * thread)) :=
  match ch with
  | CallAddBackend b =>
      Some (w' ← registers (UserBackend b) (AddBackend (UserBackend b) (sink w)) w; Ret (w', t))
  | CallRemoveBackend id =>
      Some (Ret (emit (EUnregistered id) (set_sink (RemoveBackend id (sink w)) w), t))
  | CallClearBackends => Some (Ret (emit ECleared (set_sink (ClearBackends (sink w)) w), t))
  | CallEnableStdClog => Some (w' ← EnableStdClog w; Ret (w', t))
  | CallDisableStdClog => Some (Ret (DisableStdClog w, t))
  | CallSetMinimumSeverity m => Some (Ret (set_sink (set_minimum_severity m (sink w)) w, t))
  | CallLog r => let '(w', f) := Log r w in Some (Ret (w', f :: t))
  | CallStatement x => Some (Ret (w, Statement x w ++ t))
  | Put _ | Raise | Go _ => None
  end.

(** One step of the code that is on top of the stack. *)
Definition go (now : Z) w t : option (world * thread) :=
  match t with
  | FStatement x :: t =>
      Some (w, FTest (Logger_new (is_enabled (site_severity x) (sink w)) x) :: t)
  | FTest lg :: t => Some (w, if enabled_ lg then FBody (Logger_Stream "" lg) :: t else t)
  | FBody lg :: t =>
      match Logger_LogTo now lg with
      | (Some r, lg) => let '(w', f) := Log r w in Some (w', f :: FTest lg :: t)
      | (None, lg) => Some (w, FTest lg :: t)
      end
  | FDeliver k r ((b, owned) :: calls) :: t =>
      let w' := emit (EProcessed k b r owned) w in
      match b with
      | StdClogBackend =>
          Some (w', FClog (length (trace w)) " " (StdClogBackend_Process r)
                    :: FDeliver k r calls :: t)
      | UserBackend _ => Some (w', FBackend k r :: FDeliver k r calls :: t)
      end
  | FDeliver _ _ [] :: t => Some (w, t)
  | FBackend _ _ :: t => Some (w, t)
  | FClog i prev (op :: ops) :: t =>
      let '(prev, f, out, more) := stream_step op prev (format_ (clog w)) in
      Some (set_clog (mkClog (written_ (clog w) ++ (pair i <$> out)) f) w,
            FClog i prev (more ++ ops) :: t)
  | FClog _ _ [] :: t => Some (w, t)
  | [] => None
  end.

(** An exception leaves the activations of the library: none of them catches it.  It goes to
    the code of the application that is next on the stack, which catches it or raises it
    again. *)
Fixpoint unwind w t : world * thread :=
  match t with
  | FDeliver k _ _ :: t => unwind (emit (EAborted k) w) t
  | FStatement _ :: t | FTest _ :: t => unwind w t
  | _ => (w, t)
  end.
(** An operand of [<<] or a backend of the application throws. *)
Definition raise w t : option (world * thread) :=
  match t with FBody _ :: t | FBackend _ _ :: t => Some (unwind w t) | _ => None end.

Definition thread_step (ch : choice) w t : option (cxx (world * thread)) :=
  match ch with
  | Go now => Ret <$> go now w t
  | Raise => Ret <$> raise w t
  | Put text =>
      match t with
      | FBody lg :: t => Some (Ret (w, FBody (Logger_Stream text lg) :: t))
      | _ => None
      end
  | _ => if application_runs t then call ch w t else None
  end.

Definition config := (world * list thread)%type.
Inductive step : config → config → Prop :=
| Step w ts i t ch w' t' :
    ts !! i = Some t → thread_step ch w t = Some (Ret (w', t')) →
    step (w, ts) (w', <[i := t']> ts).

(** The application starts with the sink and no logging call on any stack. *)
Definition initial (s : LogSink) (n : nat) : config := (mkWorld s clog_new [] 0, replicate n []).
Definition reachable (c : config) : Prop := ∃ n, rtc step (initial LogSink_new n) c.
End machine.

(** ** The specification *)

(** The backends that the calls so far leave registered. *)
Definition register1 (m : backends) (e : event) : backends :=
  match e with
  | ERegistered id b => <[id := b]> m
  | EUnregistered id => delete id m
  | ECleared => ∅
  | _ => m
  end.
Definition registered (l : list event) : backends := foldl register1 ∅ l.
(** The identifiers given out. *)
Definition registered_ids (l : list event) : list Z :=
  omap (λ e, if e is ERegistered id _ then Some id else None) l.
(** What [Log] number [k] has given to backends. *)
Definition processed (k : nat) (l : list event) : list (LogBackend * LogRecord * bool) :=
  omap (λ e, match e with
    | EProcessed k' b r owned => if decide (k' = k) then Some (b, r, owned) else None
    | _ => None
    end) l.
(** What the delivery at position [i] of the trace has written to [std::clog]. *)
Definition line (i : nat) (c : std_clog) : list output :=
  omap (λ p, if decide (p.1 = i) then Some p.2 else None) (written_ c).
(** That delivery: of a record to [StdClogBackend]. *)
Definition clog_record (l : list event) (i : nat) : option LogRecord :=
  e ← l !! i; if e is EProcessed _ StdClogBackend r _ then Some r else None.

(** What the sink promises of its data members. *)
Record sink_valid (s : LogSink) : Prop := {
  sv_empty : empty_ s = bool_decide (backends_ s = ∅);
  sv_next : (0 ≤ next_id_ s < 2 ^ 63)%Z;
  sv_ids : ∀ id b, backends_ s !! id = Some b → (0 < id ≤ next_id_ s)%Z;
  sv_clog_id : (0 ≤ clog_backend_id_ s ≤ next_id_ s)%Z;
  sv_clog : ∀ id, backends_ s !! id = Some StdClogBackend → id = clog_backend_id_ s;
  sv_minimum : ∃ m, minimum_severity s = Some m ∧ minimum_severity_ s = Severity_to_int m;
}.

(** ** Lemmas on the operations *)
Section operations.
Context `{LoggingBuild}.
Implicit Types (s : LogSink).

Lemma minimum_severity_stored m e n c bs :
  ∃ m', minimum_severity (mkLogSink e (Severity_to_int m) n c bs) = Some m' ∧
    Severity_to_int m = Severity_to_int m'.
Proof. exists m. by destruct m. Qed.

Lemma LogSink_new_valid : sink_valid LogSink_new.
Proof. split; simpl; try done; try lia. apply minimum_severity_stored. Qed.

Lemma set_minimum_severity_valid m s : sink_valid s → sink_valid (set_minimum_severity m s).
Proof. intros []. split; try done. apply minimum_severity_stored. Qed.

Lemma AddBackendImpl_spec b s :
  sink_valid s →
  AddBackendImpl b s = Undefined SignedOverflow ∧ (next_id_ s = 2 ^ 63 - 1)%Z ∨
  ∃ s', AddBackendImpl b s = Ret ((next_id_ s + 1)%Z, s') ∧ (next_id_ s + 1 < 2 ^ 63)%Z ∧
    backends_ s' = <[(next_id_ s + 1)%Z := b]> (backends_ s) ∧
    next_id_ s' = (next_id_ s + 1)%Z ∧ clog_backend_id_ s' = clog_backend_id_ s ∧
    minimum_severity_ s' = minimum_severity_ s ∧ empty_ s' = bool_decide (backends_ s' = ∅).
Proof.
  intros Hv. unfold AddBackendImpl, int64.
  destruct (decide (in_signed 64 (next_id_ s + 1))) as [Hi|Hi];
    [rewrite bool_decide_true by done; right|rewrite bool_decide_false by done; left].
  - eexists. rewrite bind_Ret. split; [done|].
    assert (next_id_ s + 1 < 2 ^ 63)%Z by (unfold in_signed in Hi; apply Hi). simpl.
    destruct (backends_ s !! (next_id_ s + 1)%Z) eqn:Hb; [|by split_and!].
    apply (sv_ids _ Hv) in Hb. lia.
  - split; [done|]. pose proof (sv_next _ Hv). unfold in_signed in Hi.
    change (64 - 1)%Z with 63%Z in Hi. lia.
Qed.

Lemma add_valid b s s' :
  sink_valid s → (b = StdClogBackend → clog_backend_id_ s = 0%Z) →
  backends_ s' = <[(next_id_ s + 1)%Z := b]> (backends_ s) →
  next_id_ s' = (next_id_ s + 1)%Z → (next_id_ s + 1 < 2 ^ 63)%Z →
  clog_backend_id_ s' = (if decide (b = StdClogBackend) then next_id_ s + 1
                         else clog_backend_id_ s)%Z →
  minimum_severity_ s' = minimum_severity_ s → empty_ s' = bool_decide (backends_ s' = ∅) →
  sink_valid s'.
Proof.
  intros [] Hb Hbs Hn Hlt Hc Hm He.
  split; rewrite ?Hn, ?Hbs; try done; try (rewrite Hbs in He; done); try lia.
  - intros id b'. destruct (decide (id = next_id_ s + 1)%Z) as [->|Hne]; [lia|].
    rewrite lookup_insert_ne by congruence. intros Hid%sv_ids0. lia.
  - rewrite Hc. case_decide; lia.
  - intros id. rewrite Hc. destruct (decide (id = next_id_ s + 1)%Z) as [->|Hne].
    + rewrite lookup_insert_eq. intros [= ->]. by rewrite decide_True.
    + rewrite lookup_insert_ne by congruence. intros Hid. case_decide as Hd; [|by apply sv_clog0].
      pose proof (sv_clog0 _ Hid). apply sv_ids0 in Hid. rewrite Hb in * by done. lia.
  - destruct sv_minimum0 as (m & _ & Hmin). rewrite Hm, Hmin.
    unfold minimum_severity. rewrite Hm, Hmin. apply (minimum_severity_stored m true 0 0 ∅).
Qed.

Lemma store_valid bs s :
  sink_valid s → bs ⊆ backends_ s → sink_valid (store_backends bs s).
Proof.
  intros [] Hbs. split; simpl; try done.
  - intros id b Hb. eapply sv_ids0, lookup_weaken; done.
  - intros id Hb. eapply sv_clog0, lookup_weaken; done.
Qed.

Lemma RemoveBackend_spec id s :
  sink_valid s →
  sink_valid (RemoveBackend id s) ∧ backends_ (RemoveBackend id s) = delete id (backends_ s) ∧
  next_id_ (RemoveBackend id s) = next_id_ s ∧
  clog_backend_id_ (RemoveBackend id s) = clog_backend_id_ s.
Proof.
  intros Hv. unfold RemoveBackend, RemoveBackendImpl.
  destruct (backends_ s !! id) eqn:Hid; [|by rewrite delete_id].
  split_and!; try done. apply store_valid; [done|apply delete_subseteq].
Qed.

Lemma clear_clog_valid s :
  sink_valid s → (∀ id, backends_ s !! id ≠ Some StdClogBackend) →
  sink_valid (set_clog_backend_id 0 s).
Proof. intros [] Hn. split; simpl; try done; try lia. intros id Hid. by destruct (Hn id). Qed.

Lemma ClearBackends_valid s : sink_valid s → sink_valid (ClearBackends s).
Proof.
  intros []. unfold ClearBackends. split; simpl; try done; try lia.
Qed.

Lemma DisableStdClogImpl_spec s :
  sink_valid s →
  sink_valid (DisableStdClogImpl s) ∧ next_id_ (DisableStdClogImpl s) = next_id_ s ∧
  backends_ (DisableStdClogImpl s) =
    if (clog_backend_id_ s =? 0)%Z then backends_ s
    else delete (clog_backend_id_ s) (backends_ s).
Proof.
  intros Hv. unfold DisableStdClogImpl. destruct (Z.eqb_spec (clog_backend_id_ s) 0); [done|].
  destruct (RemoveBackend_spec (clog_backend_id_ s) s Hv) as (Hv' & Hbs & Hn & Hc).
  unfold RemoveBackend in *. split_and!; try done. apply clear_clog_valid; [done|].
  intros id Hid. pose proof (sv_clog _ Hv' _ Hid) as ->. rewrite Hbs, Hc in Hid.
  by rewrite lookup_delete_eq in Hid.
Qed.

Lemma EnableStdClogImpl_spec s :
  sink_valid s →
  EnableStdClogImpl s = Undefined SignedOverflow ∧ (next_id_ s = 2 ^ 63 - 1)%Z ∨
  ∃ s', EnableStdClogImpl s = Ret s' ∧ sink_valid s' ∧
    if (clog_backend_id_ s =? 0)%Z then
      clog_backend_id_ s' = (next_id_ s + 1)%Z ∧ next_id_ s' = (next_id_ s + 1)%Z ∧
      backends_ s' = <[(next_id_ s + 1)%Z := StdClogBackend]> (backends_ s)
    else s' = s.
Proof.
  intros Hv. unfold EnableStdClogImpl. destruct (Z.eqb_spec (clog_backend_id_ s) 0) as [Hc|Hc];
    simpl; [|right; by eexists].
  destruct (AddBackendImpl_spec StdClogBackend s Hv) as [[-> ?]|(s' & -> & ? & Hbs & Hn & Hc' & Hm & He)];
    [by left|right]. eexists. simpl. split; [done|]. split; [|done].
  by eapply (add_valid StdClogBackend s).
Qed.
End operations.
#[export] Hint Resolve LogSink_new_valid set_minimum_severity_valid ClearBackends_valid : cxx.

(** ** The invariant of the data members *)
Section sink_invariant.
Context `{LoggingBuild}.
Implicit Types (w : world) (t : thread).

Record sink_inv w : Prop := {
  si_valid : sink_valid (sink w);
  si_registered : backends_ (sink w) = registered (trace w);
  si_ids : registered_ids (trace w) = seqZ 1 (next_id_ (sink w));
}.

Lemma registered_snoc l e : registered (l ++ [e]) = register1 (registered l) e.
Proof. unfold registered. by rewrite foldl_app. Qed.

Lemma registered_ids_snoc l e :
  registered_ids (l ++ [e]) = registered_ids l ++ registered_ids [e].
Proof. unfold registered_ids. by rewrite omap_app. Qed.

(** An event that registers nothing. *)
Lemma sink_inv_event w c e n :
  sink_inv w → registered_ids [e] = [] → (∀ m, register1 m e = m) →
  sink_inv (mkWorld (sink w) c (trace w ++ [e]) n).
Proof.
  intros [] He Hm. split; simpl; [done|by rewrite registered_snoc, Hm|].
  by rewrite registered_ids_snoc, He, app_nil_r.
Qed.

Lemma sink_inv_register w s b :
  sink_inv w → sink_valid s → next_id_ s = (next_id_ (sink w) + 1)%Z →
  backends_ s = <[(next_id_ (sink w) + 1)%Z := b]> (backends_ (sink w)) →
  sink_inv (emit (ERegistered (next_id_ (sink w) + 1)%Z b) (set_sink s w)).
Proof.
  intros [] Hs Hn Hbs. split; simpl; [done| |].
  - by rewrite registered_snoc, Hbs, si_registered0.
  - rewrite registered_ids_snoc, Hn, si_ids0. simpl.
    rewrite seqZ_app by (destruct si_valid0; lia). by rewrite (Z.add_comm 1).
Qed.

Lemma sink_inv_forget w s e :
  sink_inv w → sink_valid s → next_id_ s = next_id_ (sink w) →
  backends_ s = register1 (backends_ (sink w)) e → registered_ids [e] = [] →
  sink_inv (emit e (set_sink s w)).
Proof.
  intros [] Hs Hn Hbs He. split; simpl; [done| |].
  - by rewrite registered_snoc, Hbs, si_registered0.
  - by rewrite registered_ids_snoc, He, app_nil_r, Hn.
Qed.

(** A step keeps the invariant, unless the identifiers have run out. *)
Definition sink_step w (m : cxx (world * thread)) : Prop :=
  (∃ w' t', m = Ret (w', t') ∧ sink_inv w') ∨
  (m = Undefined SignedOverflow ∧ next_id_ (sink w) = (2 ^ 63 - 1)%Z).

Lemma call_sink ch w t m : sink_inv w → call ch w t = Some m → sink_step w m.
Proof.
  intros Hi Hc. pose proof (si_valid _ Hi) as Hv.
  destruct ch; simpl in Hc; simplify_eq.
  - unfold registers, AddBackend.
    destruct (AddBackendImpl_spec (UserBackend b) (sink w) Hv)
      as [[-> ?]|(s' & -> & ? & Hbs & Hn & Hc & Hm & He)]; [by right|left].
    do 2 eexists. split; [done|]. apply sink_inv_register; try done.
    eapply (add_valid (UserBackend b)); try done.
  - left. do 2 eexists. split; [done|].
    destruct (RemoveBackend_spec id (sink w) Hv) as (? & ? & ? & _). by apply sink_inv_forget.
  - left. do 2 eexists. split; [done|]. apply sink_inv_forget; eauto with cxx.
  - unfold EnableStdClog.
    destruct (EnableStdClogImpl_spec (sink w) Hv) as [[-> ?]|(s' & -> & Hv' & Hs)]; [by right|left].
    do 2 eexists. split; [done|]. destruct (Z.eqb_spec (clog_backend_id_ (sink w)) 0).
    + destruct Hs as (-> & ? & ?). by apply sink_inv_register.
    + subst s'. by destruct w, Hi.
  - left. do 2 eexists. split; [done|]. unfold DisableStdClog.
    destruct (DisableStdClogImpl_spec (sink w) Hv) as (Hv' & Hn & Hbs).
    destruct (Z.eqb_spec (clog_backend_id_ (sink w)) 0).
    + destruct Hi. split; simpl; [done|by rewrite Hbs|by rewrite Hn].
    + by apply sink_inv_forget.
  - left. do 2 eexists. split; [done|]. destruct Hi. split; [by apply set_minimum_severity_valid|done|done].
  - left. do 2 eexists. split; [done|]. by apply sink_inv_event.
  - left. by do 2 eexists.
Qed.

Lemma go_sink now w t w' t' : sink_inv w → go now w t = Some (w', t') → sink_inv w'.
Proof.
  intros Hi Hg. unfold go in Hg.
  cases; try done; first [by apply sink_inv_event|by destruct Hi].
Qed.

Lemma unwind_sink w t : sink_inv w → sink_inv (unwind w t).1.
Proof.
  revert w. induction t as [|[] t IH]; intros w Hi; simpl; try done; apply IH; [done..|].
  by apply sink_inv_event.
Qed.

Lemma thread_step_sink ch w t m :
  sink_inv w → thread_step ch w t = Some m → sink_step w m.
Proof.
  intros Hi Hs. unfold thread_step in Hs.
  destruct ch; try (destruct (application_runs t); [by eapply call_sink|done]).
  - cases. left. by do 2 eexists.
  - destruct (raise w t) as [[w' t']|] eqn:Hg; simplify_eq/=. left. do 2 eexists.
    split; [done|]. unfold raise in Hg.
    destruct t as [|[] t]; simplify_eq/=; pose proof (unwind_sink w t Hi) as Hu; by rewrite Hg in Hu.
  - destruct (go now w t) as [[w' t']|] eqn:Hg; simplify_eq/=. left. do 2 eexists.
    split; [done|]. by eapply go_sink.
Qed.

Lemma initial_sink n : sink_inv (initial LogSink_new n).1.
Proof. split; simpl; auto using LogSink_new_valid. Qed.

Lemma reachable_sink c : reachable c → sink_inv c.1.
Proof.
  intros (n & Hr). pose proof (initial_sink n) as H0. revert Hr H0.
  generalize (initial LogSink_new n). intros c0 Hr H0. induction Hr as [|c1 c2 c3 Hs _ IH]; [done|]. apply IH. destruct Hs.
  destruct (thread_step_sink _ _ _ _ H0 ltac:(done)) as [(? & ? & ? & ?)|[? _]]; by simplify_eq.
Qed.
End sink_invariant.

(** The frames of all threads. *)
Abbreviation frames ts := (mjoin ts : list frame).

(** ** The invariant of the deliveries *)

Definition frame_ticket (f : frame) : option nat :=
  match f with FDeliver k _ _ => Some k | _ => None end.
Definition event_ticket (e : event) : option nat :=
  match e with ECopied k _ _ | EProcessed k _ _ _ | EAborted k => Some k | _ => None end.
(** The calls of backends with the record [r]. *)
Definition give (r : LogRecord) (calls : list (LogBackend * bool)) :
    list (LogBackend * LogRecord * bool) := (λ c, (c.1, r, c.2)) <$> calls.

(** What a call of [Log] that has ended has given: everything, unless an exception of a
    backend ended it. *)
Definition delivered (k : nat) (r : LogRecord) (copy : list (Z * LogBackend)) (l : list event) : Prop :=
  (∃ rest, processed k l ++ rest = give r (Log_calls copy)) ∧
  (EAborted k ∉ l → processed k l = give r (Log_calls copy)).

Section deliveries.
Context `{LoggingBuild}.
Implicit Types (w : world) (F : list frame).

(** [F]: the frames of all threads. *)
Record deliveries w F : Prop := {
  d_nodup : NoDup (omap frame_ticket F);
  d_frames : ∀ k r calls, FDeliver k r calls ∈ F → ∃ copy, ECopied k r copy ∈ trace w;
  d_events : ∀ e k, e ∈ trace w → event_ticket e = Some k → k < next_ticket w;
  d_running : ∀ k r r' copy calls, ECopied k r copy ∈ trace w → FDeliver k r' calls ∈ F →
    r' = r ∧ processed k (trace w) ++ give r calls = give r (Log_calls copy);
  d_done : ∀ k r copy, ECopied k r copy ∈ trace w → k ∉ omap frame_ticket F →
    delivered k r copy (trace w);
  d_copy : ∀ i k r copy, trace w !! i = Some (ECopied k r copy) →
    copy = in_order (registered (take i (trace w)));
}.

Lemma deliveries_perm w F F' : F ≡ₚ F' → deliveries w F → deliveries w F'.
Proof.
  intros Hp []. split; try done.
  - by rewrite <- Hp.
  - intros k r calls. rewrite <- Hp. apply d_frames0.
  - intros k r r' copy calls ?. rewrite <- Hp. by apply d_running0.
  - intros k r copy ?. rewrite <- Hp. by apply d_done0.
Qed.

Lemma elem_of_tickets k F : k ∈ omap frame_ticket F ↔ ∃ r calls, FDeliver k r calls ∈ F.
Proof.
  rewrite list_elem_of_omap. split.
  - intros ([] & Hf & [= ->]). eauto.
  - intros (r & calls & Hf). by exists (FDeliver k r calls).
Qed.

(** Frames that deliver nothing come and go. *)
Lemma deliveries_frames w fs fs' F :
  omap frame_ticket fs = [] → omap frame_ticket fs' = [] →
  deliveries w (fs ++ F) → deliveries w (fs' ++ F).
Proof.
  intros Hfs Hfs' [].
  assert (∀ g, omap frame_ticket g = [] → omap frame_ticket (g ++ F) = omap frame_ticket F) as Ho
    by (intros g Hg; by rewrite omap_app, Hg).
  assert (∀ g k r calls, omap frame_ticket g = [] →
    FDeliver k r calls ∈ g ++ F ↔ FDeliver k r calls ∈ F) as Hd.
  { intros g k r calls Hg. rewrite elem_of_app. split; [|by right]. intros [Hin|]; [|done].
    assert (k ∈ omap frame_ticket g) as Hk by (apply elem_of_tickets; eauto).
    rewrite Hg in Hk. by apply elem_of_nil in Hk. }
  rewrite (Ho _ Hfs) in *.
  split; try done; rewrite ?(Ho _ Hfs'); try done; intros k r; intros *; rewrite (Hd fs') by done;
    rewrite <- (Hd fs) by done; [apply d_frames0|apply d_running0].
Qed.

Lemma take_snoc_lt {A} (l : list A) x i y :
  (l ++ [x]) !! i = Some y → (l !! i = Some y ∧ take i (l ++ [x]) = take i l) ∨ (i = length l ∧ y = x).
Proof.
  intros Hi. destruct (decide (i < length l)).
  - left. rewrite lookup_app_l in Hi by done. split; [done|]. by rewrite take_app_le by lia.
  - right. apply lookup_app_Some in Hi as [Hi|[_ Hi]]; [by apply lookup_lt_Some in Hi|].
    apply list_lookup_singleton_Some in Hi as [? ->]. split; [lia|done].
Qed.

Lemma processed_snoc k l e : processed k (l ++ [e]) = processed k l ++ processed k [e].
Proof. apply omap_app. Qed.

Lemma processed_fresh k l :
  (∀ e, e ∈ l → event_ticket e ≠ Some k) → processed k l = [].
Proof.
  induction l as [|e l IH]; intros Hl; [done|]. unfold processed in *. simpl.
  assert (event_ticket e ≠ Some k) as He by set_solver.
  destruct e; simpl in *; try (apply IH; set_solver). rewrite decide_False by congruence.
  apply IH. set_solver.
Qed.

Lemma delivered_snoc k r copy l e :
  processed k [e] = [] → delivered k r copy l → delivered k r copy (l ++ [e]).
Proof.
  intros He [Hp Hd]. unfold delivered. rewrite processed_snoc, He, app_nil_r.
  split; [done|]. intros Ha. apply Hd. set_solver.
Qed.

(** An event without a ticket, and any change of the sink. *)
Lemma deliveries_event w F s e :
  event_ticket e = None → deliveries w F → deliveries (emit e (set_sink s w)) F.
Proof.
  intros He [].
  assert (∀ k r copy, ECopied k r copy ∈ trace w ++ [e] → ECopied k r copy ∈ trace w) as Hc.
  { intros k r copy [|Hin%list_elem_of_singleton]%elem_of_app; [done|]. by subst e. }
  assert (∀ k, processed k (trace w ++ [e]) = processed k (trace w)) as Hp.
  { intros k. rewrite processed_snoc. destruct e; try done; apply app_nil_r. }
  split; simpl; try done.
  - intros k r calls (copy & Hin)%d_frames0. exists copy. set_solver.
  - intros e' k [|Hin%list_elem_of_singleton]%elem_of_app; [by apply d_events0|]. congruence.
  - intros k r r' copy calls ?%Hc. rewrite Hp. by apply d_running0.
  - intros k r copy ?%Hc ?. apply delivered_snoc; [by destruct e|by apply d_done0].
  - intros i k r copy [[Hi ->]|[_ Hi]]%take_snoc_lt; [by eapply d_copy0|]. by subst e.
Qed.

Lemma deliveries_sink w F s : deliveries w F → deliveries (set_sink s w) F.
Proof. by intros []. Qed.

Lemma deliveries_clog w F c : deliveries w F → deliveries (set_clog c w) F.
Proof. by intros []. Qed.

(** The critical section of [Log]. *)
Lemma deliveries_log w F r :
  sink_inv w → deliveries w F → deliveries (Log r w).1 ((Log r w).2 :: F).
Proof.
  intros Hi []. simpl.
  assert (∀ k, k ∈ omap frame_ticket F → k < next_ticket w) as Hlt.
  { intros k (r' & calls & Hf)%elem_of_tickets. apply d_frames0 in Hf as [copy Hc].
    by eapply (d_events0 _ k Hc). }
  assert (∀ k, processed k (trace w ++ [ECopied (next_ticket w) r (Log_copy (sink w))])
    = processed k (trace w)) as Hp.
  { intros k. rewrite processed_snoc. apply app_nil_r. }
  assert (processed (next_ticket w) (trace w) = []) as Hnew.
  { apply processed_fresh. intros e He Ht. specialize (d_events0 e _ He Ht). lia. }
  assert (∀ k r' copy, ECopied k r' copy ∈ trace w → k < next_ticket w) as Hold
    by (intros k r' copy Hc; by eapply (d_events0 _ k Hc)).
  split; simpl.
  - constructor; [|done]. intros Hk%Hlt. lia.
  - intros k r' calls [[= -> -> ->]|Hf]%elem_of_cons; [exists (Log_copy (sink w)); set_solver|].
    apply d_frames0 in Hf as [copy Hc]. exists copy. set_solver.
  - intros e k [He|He%list_elem_of_singleton]%elem_of_app Ht;
      [specialize (d_events0 e k He Ht); lia|]. subst e. simpl in Ht. simplify_eq. lia.
  - intros k r1 r2 copy calls Hc Hf. rewrite Hp.
    apply elem_of_app in Hc as [Hc|Hc%list_elem_of_singleton]; apply elem_of_cons in Hf as [Hf|Hf].
    + simplify_eq. by apply Hold in Hc; lia.
    + by apply d_running0.
    + simplify_eq. by rewrite Hnew.
    + simplify_eq. assert (next_ticket w ∈ omap frame_ticket F) as Hk%Hlt
        by (apply elem_of_tickets; eauto). lia.
  - intros k r1 copy Hc Hk. apply not_elem_of_cons in Hk as [Hne Hk].
    apply delivered_snoc; [done|]. apply elem_of_app in Hc as [Hc|Hc%list_elem_of_singleton]; [by apply d_done0|by simplify_eq].
  - intros i k r1 copy [[Hc ->]|[-> [= -> -> ->]]]%take_snoc_lt; [by eapply d_copy0|].
    rewrite take_app_length. unfold Log_copy. by rewrite (si_registered _ Hi).
Qed.

(** A backend is called. *)
Lemma deliveries_process w F k r b owned calls :
  deliveries w (FDeliver k r ((b, owned) :: calls) :: F) →
  deliveries (emit (EProcessed k b r owned) w) (FDeliver k r calls :: F).
Proof.
  intros [].
  assert (∀ k' r' copy, ECopied k' r' copy ∈ trace w ++ [EProcessed k b r owned] →
    ECopied k' r' copy ∈ trace w) as Hc.
  { intros k' r' copy [|Hin%list_elem_of_singleton]%elem_of_app; done. }
  assert (∀ k', processed k' (trace w ++ [EProcessed k b r owned]) =
    processed k' (trace w) ++ if decide (k = k') then [(b, r, owned)] else []) as Hp.
  { intros k'. rewrite processed_snoc. f_equal. unfold processed. simpl. by case_decide. }
  destruct (d_frames0 k r ((b, owned) :: calls)) as [copy0 Hcopy0]; [by left|].
  simpl in d_nodup0. apply NoDup_cons in d_nodup0 as [Hk Hnd].
  split; simpl.
  - by constructor.
  - intros k' r' calls' Hf. apply elem_of_cons in Hf as [[= -> -> ->]|Hf]; [exists copy0; set_solver|].
    destruct (d_frames0 k' r' calls') as [copy Hin]; [by right|]. exists copy. set_solver.
  - intros e k' [He|He%list_elem_of_singleton]%elem_of_app Ht; [by apply (d_events0 e)|].
    subst e. simpl in Ht. simplify_eq. by apply (d_events0 _ k' Hcopy0).
  - intros k' r1 r2 copy calls' Hin%Hc Hf. rewrite Hp.
    apply elem_of_cons in Hf as [[= -> -> ->]|Hf].
    + rewrite decide_True, <- app_assoc by done.
      destruct (d_running0 k r1 r copy ((b, owned) :: calls)) as [-> Hr]; [done|by left|done].
    + assert (k ≠ k') as Hne.
      { intros ->. apply Hk, elem_of_tickets. eauto. }
      rewrite decide_False, app_nil_r by done. apply d_running0; [done|by right].
  - intros k' r1 copy Hin%Hc Hnk. apply not_elem_of_cons in Hnk as [Hne Hnk].
    apply delivered_snoc; [unfold processed; simpl; by rewrite decide_False by congruence|].
    apply d_done0; [done|]. simpl. by apply not_elem_of_cons.
  - intros i k' r1 copy [[Hi ->]|[_ Hi]]%take_snoc_lt; [by eapply d_copy0|done].
Qed.

Lemma deliveries_end w F k r : deliveries w (FDeliver k r [] :: F) → deliveries w F.
Proof.
  intros []. simpl in d_nodup0. apply NoDup_cons in d_nodup0 as [Hk Hnd].
  split; try done.
  - intros k' r' calls Hf. eapply d_frames0. by right.
  - intros k' r1 r2 copy calls Hin Hf. apply d_running0; [done|by right].
  - intros k' r1 copy Hin Hnk. destruct (decide (k' = k)) as [->|Hne].
    + destruct (d_running0 k r1 r copy []) as [-> Hr]; [done|by left|].
      split; [by exists []|]. by rewrite app_nil_r in Hr.
    + apply d_done0; [done|]. simpl. by apply not_elem_of_cons.
Qed.

(** An exception ends the call of [Log]. *)
Lemma deliveries_abort w F k r calls :
  deliveries w (FDeliver k r calls :: F) → deliveries (emit (EAborted k) w) F.
Proof.
  intros []. simpl in d_nodup0. apply NoDup_cons in d_nodup0 as [Hk Hnd].
  assert (∀ k' r' copy, ECopied k' r' copy ∈ trace w ++ [EAborted k] →
    ECopied k' r' copy ∈ trace w) as Hc.
  { intros k' r' copy [|Hin%list_elem_of_singleton]%elem_of_app; done. }
  assert (∀ k', processed k' (trace w ++ [EAborted k]) = processed k' (trace w)) as Hp
    by (intros k'; rewrite processed_snoc; apply app_nil_r).
  destruct (d_frames0 k r calls) as [copy0 Hcopy0]; [by left|].
  split; simpl; try done.
  - intros k' r' calls' Hf. destruct (d_frames0 k' r' calls') as [copy Hin]; [by right|].
    exists copy. set_solver.
  - intros e k' [He|He%list_elem_of_singleton]%elem_of_app Ht; [by apply (d_events0 e)|].
    subst e. simpl in Ht. simplify_eq. by apply (d_events0 _ k' Hcopy0).
  - intros k' r1 r2 copy calls' Hin%Hc Hf. rewrite Hp. apply d_running0; [done|by right].
  - intros k' r1 copy Hin%Hc Hnk. destruct (decide (k' = k)) as [->|Hne].
    + destruct (d_running0 k r1 r copy calls) as [-> Hr]; [done|by left|].
      split; [exists (give r1 calls); by rewrite Hp|]. intros Ha. set_solver.
    + apply delivered_snoc; [done|]. apply d_done0; [done|]. simpl. by apply not_elem_of_cons.
  - intros i k' r1 copy [[Hi ->]|[_ Hi]]%take_snoc_lt; [by eapply d_copy0|done].
Qed.

Lemma unwind_deliveries w t R :
  deliveries w (t ++ R) → deliveries (unwind w t).1 ((unwind w t).2 ++ R).
Proof.
  revert w. induction t as [|f t IH]; intros w Hd; [done|]. destruct f; simpl; try done; apply IH.
  - by apply (deliveries_frames _ [FStatement x] []).
  - by apply (deliveries_frames _ [FTest lg] []).
  - by eapply deliveries_abort.
Qed.

(** ** Steps of a thread whose frames are [t], with the frames [R] of the others *)
Lemma call_deliveries ch w t w' t' R :
  sink_inv w → deliveries w (t ++ R) → call ch w t = Some (Ret (w', t')) →
  deliveries w' (t' ++ R).
Proof.
  intros Hi Hd Hc. destruct ch; simpl in Hc; simplify_eq.
  - unfold registers in Hc. destruct (AddBackend _ _) as [[id s]| | |]; simplify_eq/=.
    by apply deliveries_event.
  - by apply deliveries_event.
  - by apply deliveries_event.
  - unfold EnableStdClog in Hc. destruct (EnableStdClogImpl _); simplify_eq/=.
    case_match; [by apply deliveries_event|by apply deliveries_sink].
  - unfold DisableStdClog. case_match; [by apply deliveries_sink|].
    by apply deliveries_event.
  - by apply deliveries_sink.
  - by apply deliveries_log.
  - rewrite <- app_assoc. apply (deliveries_frames _ [] _ (t ++ R)); [done| |done].
    unfold Statement. by repeat case_match.
Qed.

Lemma go_deliveries now w t w' t' R :
  sink_inv w → deliveries w (t ++ R) → go now w t = Some (w', t') → deliveries w' (t' ++ R).
Proof.
  intros Hi Hd Hg. destruct t as [|[x|lg|lg|k r [|[b owned] calls]|k r|i prev [|op ops]] t]; simplify_eq/=.
  - by apply (deliveries_frames _ [FStatement x] [_]).
  - case_match; [by apply (deliveries_frames _ [FTest lg] [_])|].
    by apply (deliveries_frames _ [FTest lg] []).
  - destruct (Logger_LogTo now lg) as [[r|] lg']; simplify_eq/=.
    + apply (deliveries_log w); [done|].
      by apply (deliveries_frames _ [FBody lg] [_]).
    + by apply (deliveries_frames _ [FBody lg] [_]).
  - by eapply deliveries_end.
  - apply deliveries_process in Hd.
    destruct b; simplify_eq/=; by apply (deliveries_frames _ [] [_]).
  - by apply (deliveries_frames _ [FBackend k r] []).
  - by apply (deliveries_frames _ [FClog i prev []] []).
  - destruct (stream_step op prev (format_ (clog w))) as [[[prev' f] out] more]. simplify_eq.
    apply deliveries_clog. by apply (deliveries_frames _ [FClog i prev (op :: ops)] [_]).
Qed.

Lemma thread_step_deliveries ch w t w' t' R :
  sink_inv w → deliveries w (t ++ R) → thread_step ch w t = Some (Ret (w', t')) →
  deliveries w' (t' ++ R).
Proof.
  intros Hi Hd Hs. unfold thread_step in Hs.
  destruct ch; try (destruct (application_runs t); [by eapply call_deliveries|done]).
  - destruct t as [|[] t]; simplify_eq. by apply (deliveries_frames _ [FBody lg] [_]).
  - destruct (raise w t) as [[w1 t1]|] eqn:Hr; simplify_eq/=. unfold raise in Hr.
    destruct t as [|f t]; [done|]. destruct f; simplify_eq/=;
      pose proof (unwind_deliveries w t R) as Hu; rewrite Hr in Hu; apply Hu;
      by apply (deliveries_frames _ [_] []) in Hd.
  - destruct (go now w t) as [[w1 t1]|] eqn:Hg; simplify_eq/=. by eapply go_deliveries.
Qed.

Lemma reachable_deliveries (c : config) : reachable c → deliveries c.1 (frames c.2).
Proof.
  intros (n & Hr).
  assert (∀ c0, rtc step c0 c → sink_inv c0.1 → deliveries c0.1 (frames c0.2) →
    deliveries c.1 (frames c.2)) as Hgen.
  { clear. intros c0 Hr. induction Hr as [|c1 c2 c3 Hs _ IH]; intros Hi Hd; [done|].
    destruct Hs as [w ts i t ch w' t' Hti Hs]. simpl in *.
    destruct (thread_step_sink _ _ _ _ Hi Hs) as [(w1 & t1 & Heq & Hi1)|[? _]]; [|done].
    injection Heq as <- <-. apply IH; [done|]. simpl. destruct (insert_permutation ts i t t' Hti) as (l & Hl & Hl').
    apply (deliveries_perm _ (t' ++ frames l)); [by rewrite Hl'|].
    eapply thread_step_deliveries; [exact Hi| |exact Hs].
    apply (deliveries_perm _ (frames ts)); [by rewrite Hl|done]. }
  apply (Hgen (initial LogSink_new n)); [done|apply initial_sink|].
  assert (frames (replicate n []) = []) as Hf by (clear; by induction n).
  split; simpl; rewrite ?Hf; try done; try constructor; try set_solver.
Qed.
End deliveries.

(** ** The invariant of the lines on [std::clog] *)
Section clog_lines.
Context `{LoggingBuild}.
Implicit Types (w : world) (t : thread) (F : list frame).

(** The lines that threads are printing. *)
Definition printing F : list (nat * (ascii * list stream_op)) :=
  omap (λ f, if f is FClog i prev ops then Some (i, (prev, ops)) else None) F.

Record clog_inv w (L : list (nat * (ascii * list stream_op))) : Prop := {
  ci_format : format_ok (format_ (clog w));
  ci_nodup : NoDup L.*1;
  ci_running : ∀ i prev ops, (i, (prev, ops)) ∈ L →
    blank prev ∧ ∃ r, clog_record (trace w) i = Some r ∧ in_progress r ops (line i (clog w));
  ci_done : ∀ i r, clog_record (trace w) i = Some r → i ∉ L.*1 → intact r (line i (clog w));
  ci_lines : ∀ i o, (i, o) ∈ written_ (clog w) → is_Some (clog_record (trace w) i);
}.

Lemma clog_inv_perm w L L' : L ≡ₚ L' → clog_inv w L → clog_inv w L'.
Proof.
  intros Hp []. split; try done.
  - by rewrite <- Hp.
  - intros i prev ops. rewrite <- Hp. apply ci_running0.
  - intros i r ?. rewrite <- Hp. by apply ci_done0.
Qed.

Lemma clog_record_snoc l e i :
  clog_record (l ++ [e]) i =
    if decide (i = length l) then (if e is EProcessed _ StdClogBackend r _ then Some r else None)
    else clog_record l i.
Proof.
  unfold clog_record. case_decide as Hi.
  - subst i. by rewrite lookup_app_r, Nat.sub_diag by lia.
  - destruct (decide (i < length l)); [by rewrite lookup_app_l|].
    rewrite lookup_app_r, (lookup_ge_None_2 l) by lia. by destruct (i - length l) eqn:?; [lia|].
Qed.
Lemma clog_record_length l : clog_record l (length l) = None.
Proof. unfold clog_record. by rewrite lookup_ge_None_2. Qed.
Lemma clog_record_lt l i r : clog_record l i = Some r → i < length l.
Proof.
  unfold clog_record. destruct (l !! i) eqn:Hi; [|done]. intros _. by eapply lookup_lt_Some.
Qed.

(** Nothing is printed. *)
Inductive quiet : world → world → Prop :=
| quiet_refl w w' : clog w' = clog w → trace w' = trace w → quiet w w'
| quiet_event w w' w'' e :
    quiet w w' → clog w'' = clog w' → trace w'' = trace w' ++ [e] →
    (if e is EProcessed _ StdClogBackend _ _ then False else True) → quiet w w''.

Lemma clog_inv_quiet w w' L : quiet w w' → clog_inv w L → clog_inv w' L.
Proof.
  induction 1 as [w w' Hc Ht|w w1 w2 e Hq IH Hc Ht He]; intros Hi.
  - destruct Hi. split; rewrite ?Hc, ?Ht; done.
  - destruct (IH Hi).
    assert (∀ i, clog_record (trace w2) i = clog_record (trace w1) i) as Hr.
    { intros i. rewrite Ht, clog_record_snoc. case_decide as Hd; [|done].
      rewrite Hd, clog_record_length. by destruct e as [| | | |? []|]. }
    split; rewrite ?Hc; try done; intros *; rewrite Hr; eauto.
Qed.

Lemma line_app i c out f :
  line i (mkClog (written_ c ++ out) f) = line i c ++ line i (mkClog out f).
Proof. apply omap_app. Qed.
Lemma line_own i out f : line i (mkClog (pair i <$> out) f) = out.
Proof.
  unfold line. simpl. induction out as [|o out IH]; [done|]. simpl. rewrite decide_True by done.
  f_equal. exact IH.
Qed.
Lemma line_other i j out f : i ≠ j → line i (mkClog (pair j <$> out) f) = [].
Proof.
  intros Hne. unfold line. simpl. induction out as [|o out IH]; [done|]. simpl.
  rewrite decide_False by congruence. exact IH.
Qed.
Lemma line_fresh w L i :
  clog_inv w L → clog_record (trace w) i = None → line i (clog w) = [].
Proof.
  intros [] Hn. unfold line. apply elem_of_nil_inv. intros o Ho.
  apply list_elem_of_omap in Ho as ([j o'] & Hin & Hj). apply ci_lines0 in Hin as [r Hr].
  simpl in Hj. case_decide; simplify_eq.
Qed.

(** A delivery to [StdClogBackend] begins. *)
Lemma clog_inv_start w L k r owned :
  clog_inv w L →
  clog_inv (emit (EProcessed k StdClogBackend r owned) w)
    ((length (trace w), (" "%char, StdClogBackend_Process r)) :: L).
Proof.
  intros Hi. pose proof (line_fresh w L _ Hi (clog_record_length (trace w))) as Hnew.
  destruct Hi.
  assert (length (trace w) ∉ L.*1) as Hnl.
  { intros ([i [prev ops]] & Heq & Hin)%list_elem_of_fmap. simpl in Heq. subst i.
    apply ci_running0 in Hin as (_ & r' & Hr & _). by rewrite clog_record_length in Hr. }
  assert (∀ i r', clog_record (trace w) i = Some r' →
    clog_record (trace w ++ [EProcessed k StdClogBackend r owned]) i = Some r') as Hold.
  { intros i r' Hr. rewrite clog_record_snoc, decide_False; [done|].
    apply clog_record_lt in Hr. lia. }
  split; simpl.
  - done.
  - by constructor.
  - intros i prev ops [[= -> -> ->]|Hin]%elem_of_cons.
    + split; [by left|]. exists r. rewrite clog_record_snoc, decide_True, Hnew by done.
      split; [done|apply in_progress_start].
    + destruct (ci_running0 _ _ _ Hin) as (Hb & r' & Hr & Hp). eauto.
  - intros i r' Hr Hn. apply not_elem_of_cons in Hn as [Hne Hn].
    rewrite clog_record_snoc, decide_False in Hr by done. by apply ci_done0.
  - intros i o Hin. destruct (ci_lines0 i o Hin) as [r' Hr]. eauto.
Qed.

(** An operation on the stream. *)
Lemma clog_inv_step w L i prev op ops :
  clog_inv w ((i, (prev, op :: ops)) :: L) →
  let '(prev', f, out, more) := stream_step op prev (format_ (clog w)) in
  clog_inv (set_clog (mkClog (written_ (clog w) ++ (pair i <$> out)) f) w)
    ((i, (prev', more ++ ops)) :: L).
Proof.
  intros [].
  destruct (ci_running0 i prev (op :: ops)) as (Hb & r & Hr & Hp); [by left|].
  pose proof (in_progress_step _ _ _ _ prev (format_ (clog w)) Hp ci_format0 Hb) as Hstep.
  destruct (stream_step op prev (format_ (clog w))) as [[[prev' f] out] more].
  destruct Hstep as (Hp' & Hf & Hb'). simpl in ci_nodup0.
  apply NoDup_cons in ci_nodup0 as [Hn Hnd].
  assert (∀ j, j ≠ i → line j (mkClog (written_ (clog w) ++ (pair i <$> out)) f)
    = line j (clog w)) as Hother.
  { intros j Hne. by rewrite line_app, line_other, app_nil_r. }
  split; simpl.
  - done.
  - by constructor.
  - intros j p o [[= -> -> ->]|Hin]%elem_of_cons.
    + split; [done|]. exists r. split; [done|]. by rewrite line_app, line_own.
    + assert (j ≠ i) by (intros ->; apply Hn, list_elem_of_fmap; by exists (i, (p, o))).
      rewrite Hother by done. apply ci_running0. by right.
  - intros j r' Hr' [Hne Hj]%not_elem_of_cons. rewrite Hother by done.
    apply ci_done0; [done|]. simpl. by apply not_elem_of_cons.
  - intros j o [Hin|Hin]%elem_of_app; [by eapply ci_lines0|].
    apply list_elem_of_fmap in Hin as (? & [= -> ->] & _). eauto.
Qed.

Lemma clog_inv_end w L i prev : clog_inv w ((i, (prev, [])) :: L) → clog_inv w L.
Proof.
  intros []. simpl in ci_nodup0. apply NoDup_cons in ci_nodup0 as [Hn Hnd]. split; try done.
  - intros j p o Hin. apply ci_running0. by right.
  - intros j r Hr Hj. destruct (decide (j = i)) as [->|Hne].
    + destruct (ci_running0 i prev []) as (_ & r' & Hr' & Hp); [by left|]. simplify_eq.
      by apply in_progress_end.
    + apply ci_done0; [done|]. simpl. by apply not_elem_of_cons.
Qed.

(** *** Steps of a thread *)
Lemma call_quiet ch w t w' t' :
  call ch w t = Some (Ret (w', t')) → quiet w w' ∧ printing t' = printing t.
Proof.
  intros Hc. destruct ch; simpl in Hc; simplify_eq; try (split; [|done]).
  - unfold registers in Hc. destruct (AddBackend _ _) as [[id s]| | |]; simplify_eq/=.
    split; [|done]. by eapply quiet_event; [by apply quiet_refl|..].
  - by eapply quiet_event; [by apply quiet_refl|..].
  - by eapply quiet_event; [by apply quiet_refl|..].
  - unfold EnableStdClog in Hc. destruct (EnableStdClogImpl _); simplify_eq/=. split; [|done].
    case_match; [by eapply quiet_event; [by apply quiet_refl|..]|by apply quiet_refl].
  - unfold DisableStdClog. case_match; [by apply quiet_refl|].
    by eapply quiet_event; [by apply quiet_refl|..].
  - by apply quiet_refl.
  - by eapply quiet_event; [by apply quiet_refl|..].
  - split; [by apply quiet_refl|]. unfold Statement. by repeat case_match.
Qed.

Lemma unwind_quiet w t :
  quiet w (unwind w t).1 ∧ printing (unwind w t).2 = printing t.
Proof.
  assert (∀ w0, quiet w0 w → quiet w0 (unwind w t).1 ∧ printing (unwind w t).2 = printing t) as Hg;
    [|by apply Hg, quiet_refl].
  revert w. induction t as [|[] t IH]; intros w w0 Hq; simpl; try done; try by apply IH.
  apply IH. by eapply quiet_event.
Qed.

Lemma go_clog now w t w' t' R :
  clog_inv w (printing t ++ R) → go now w t = Some (w', t') → clog_inv w' (printing t' ++ R).
Proof.
  intros Hi Hg.
  destruct t as [|[x|lg|lg|k r [|[b owned] calls]|k r|i prev [|op ops]] t]; simplify_eq/=; try done.
  - by case_match.
  - destruct (Logger_LogTo now lg) as [[r|] lg']; simplify_eq/=; [|done].
    revert Hi. apply clog_inv_quiet. by eapply quiet_event; [by apply quiet_refl|..].
  - destruct b; simplify_eq/=.
    + by apply clog_inv_start.
    + revert Hi. apply clog_inv_quiet. by eapply quiet_event; [by apply quiet_refl|..].
  - by eapply clog_inv_end.
  - apply clog_inv_step in Hi. destruct (stream_step _ _ _) as [[[? ?] ?] ?].
    by simplify_eq.
Qed.

Lemma thread_step_clog ch w t w' t' R :
  clog_inv w (printing t ++ R) → thread_step ch w t = Some (Ret (w', t')) →
  clog_inv w' (printing t' ++ R).
Proof.
  intros Hi Hs. unfold thread_step in Hs.
  destruct ch; try (destruct (application_runs t); [|done];
    apply call_quiet in Hs as [Hq ->]; by eapply clog_inv_quiet).
  - destruct t as [|[] t]; by simplify_eq.
  - destruct (raise w t) as [[w1 t1]|] eqn:Hr; simplify_eq/=. unfold raise in Hr.
    destruct t as [|f t]; [done|]. destruct f; simplify_eq/=;
      destruct (unwind_quiet w t) as [Hq Hp]; rewrite Hr in Hq, Hp; simpl in *;
      rewrite Hp; by eapply clog_inv_quiet.
  - destruct (go now w t) as [[w1 t1]|] eqn:Hg; simplify_eq/=. by eapply go_clog.
Qed.

Lemma reachable_clog (c : config) : reachable c → clog_inv c.1 (printing (frames c.2)).
Proof.
  intros (n & Hr).
  assert (clog_inv (initial LogSink_new n).1 (printing (frames (initial LogSink_new n).2))) as H0.
  { assert (frames (replicate n []) = []) as Hf by (clear; by induction n). simpl. rewrite Hf.
    split; simpl; try done; [split; [by left|simpl; lia]|constructor|..]; intros *;
      by intros ?%elem_of_nil. }
  revert Hr H0. generalize (initial LogSink_new n). intros c0 Hr.
  induction Hr as [|c1 c2 c3 Hs _ IH]; intros Hi; [done|]. apply IH.
  destruct Hs as [w ts i t ch w' t' Hti Hs]. simpl in *.
  destruct (insert_permutation ts i t t' Hti) as (l & Hl & Hl').
  apply (clog_inv_perm _ (printing t' ++ printing (frames l))).
  { unfold printing. by rewrite <- omap_app, Hl'. }
  eapply thread_step_clog; [|exact Hs].
  apply (clog_inv_perm _ (printing (frames ts))); [|done].
  unfold printing. by rewrite <- omap_app, Hl.
Qed.
End clog_lines.

(** ** One logging statement *)
Section statement.
Context `{LoggingBuild}.
Implicit Types (w : world) (t : thread).

(** A thread that is left alone, from inside a statement whose operands of [<<] are
    [texts], with backends that return at once. *)
Fixpoint run_alone (fuel : nat) (texts : list string) (now : Z) w t : option world :=
  match t with
  | [] => Some w
  | f :: _ =>
      match fuel with
      | 0 => None
      | S fuel =>
          let '(ch, texts) :=
            match f, texts with FBody _, x :: xs => (Put x, xs) | _, _ => (Go now, texts) end in
          match thread_step ch w t with
          | Some (Ret (w', t')) => run_alone fuel texts now w' t'
          | _ => None
          end
      end
  end.

(** The statement logs a record: its severity is at least the one that the build enables and
    at least the minimum of the sink, in the order of the list of severities, and there are
    backends. *)
Definition logs (x : site) (s : LogSink) : bool :=
  at_least (site_severity x) GCP_LS_LOWEST_ENABLED && negb (bool_decide (backends_ s = ∅))
  && match minimum_severity s with
     | Some minimum => at_least (site_severity x) minimum
     | None => false
     end.
Lemma logs_enabled x s :
  sink_valid s →
  logs x s = CompileTimeEnabled (site_severity x) && negb (bool_decide (backends_ s = ∅))
    && is_enabled (site_severity x) s.
Proof.
  intros Hv. destruct (sv_minimum _ Hv) as (m & Hm & Heq). unfold logs. rewrite Hm.
  unfold CompileTimeEnabled, is_enabled. by rewrite !at_least_ge, Heq.
Qed.
Definition statement_record (x : site) (texts : list string) (now : Z) : LogRecord :=
  mkLogRecord (site_severity x) (site_function x) (site_filename x) (site_lineno x) now
    (foldl String.append "" texts).
(** What it does when it is left alone. *)
Definition statement_events (x : site) (texts : list string) (now : Z) w : list event :=
  if logs x (sink w) then
    let r := statement_record x texts now in
    let copy := in_order (backends_ (sink w)) in
    ECopied (next_ticket w) r copy
    :: ((λ kv, EProcessed (next_ticket w) kv.2 r (bool_decide (length copy = 1))) <$> copy)
  else [].

(** The lines that the deliveries to [StdClogBackend] print, the first event of the list
    being at position [start] of the trace. *)
Definition clog_output (start : nat) (l : list event) : list (nat * output) :=
  mjoin (imap (λ j e, if e is EProcessed _ StdClogBackend r _
                      then pair (start + j) <$> clog_line r else []) l).
Definition after_events w (l : list event) (n : nat) : world :=
  mkWorld (sink w)
    (mkClog (written_ (clog w) ++ clog_output (length (trace w)) l) (format_ (clog w)))
    (trace w ++ l) n.

Lemma clog_output_app start l1 l2 :
  clog_output start (l1 ++ l2) = clog_output start l1 ++ clog_output (start + length l1) l2.
Proof.
  unfold clog_output. rewrite imap_app, join_app. do 2 f_equal. apply imap_ext. intros j e _.
  by rewrite Nat.add_assoc.
Qed.
Lemma after_events_app w l1 l2 n1 n2 :
  after_events (after_events w l1 n1) l2 n2 = after_events w (l1 ++ l2) n2.
Proof.
  unfold after_events. simpl. by rewrite length_app, clog_output_app, <- !app_assoc.
Qed.
Lemma after_events_nil w : after_events w [] (next_ticket w) = w.
Proof. unfold after_events, clog_output. simpl. rewrite !app_nil_r. by destruct w as [? [] ? ?]. Qed.

(** *** Operations on [std::clog] *)
Definition prints (i : nat) (out : list output) (f : format) w : world :=
  set_clog (mkClog (written_ (clog w) ++ (pair i <$> out)) f) w.
Lemma prints_prints i out1 out2 f1 f2 w :
  prints i out2 f2 (prints i out1 f1 w) = prints i (out1 ++ out2) f2 w.
Proof. unfold prints, set_clog. simpl. by rewrite fmap_app, <- app_assoc. Qed.
Lemma prints_nil i w : prints i [] (format_ (clog w)) w = w.
Proof. unfold prints, set_clog. simpl. rewrite app_nil_r. by destruct w as [? [] ? ?]. Qed.

Lemma stream_step_more op prev f : ∃ chars, (stream_step op prev f).2 = PutChar <$> chars.
Proof. destruct op; try (by exists []). by eexists. Qed.

Lemma run_go fuel now w f t w' t' :
  go now w (f :: t) = Some (w', t') →
  run_alone (S fuel) [] now w (f :: t) = run_alone fuel [] now w' t'.
Proof.
  intros Hg. cbn [run_alone]. unfold thread_step.
  destruct f; rewrite Hg; reflexivity.
Qed.

Lemma run_chars chars i prev ops fuel now w t :
  run_alone (length chars + fuel) [] now w (FClog i prev ((PutChar <$> chars) ++ ops) :: t) =
  run_alone fuel [] now (prints i (Char <$> chars) (format_ (clog w)) w) (FClog i prev ops :: t).
Proof.
  revert w. induction chars as [|c chars IH]; intros w; [by rewrite prints_nil|].
  change (length (c :: chars) + fuel) with (S (length chars + fuel)).
  rewrite fmap_cons, <- app_comm_cons.
  rewrite (run_go _ _ _ _ _ (prints i [Char c] (format_ (clog w)) w)
    (FClog i prev ((PutChar <$> chars) ++ ops) :: t)) by done.
  by rewrite IH, prints_prints.
Qed.

Lemma run_ops ops i prev now w t :
  ∃ n, ∀ fuel, run_alone (n + fuel) [] now w (FClog i prev ops :: t) =
    run_alone fuel [] now (prints i (stream_run ops prev (format_ (clog w))).1
      (stream_run ops prev (format_ (clog w))).2 w) t.
Proof.
  revert prev w. induction ops as [|op ops IH]; intros prev w.
  { exists 1. intros fuel. rewrite (run_go _ _ _ _ _ w t) by done.
    simpl. by rewrite prints_nil. }
  cbn [stream_run].
  destruct (stream_step op prev (format_ (clog w))) as [[[prev' f] out] more] eqn:Hs.
  destruct (stream_step_more op prev (format_ (clog w))) as [chars Hm].
  rewrite Hs in Hm. simpl in Hm. subst more. rewrite put_chars.
  destruct (IH prev' (prints i (Char <$> chars) f (prints i out f w))) as [n Hn].
  exists (S (length chars + n)). intros fuel. rewrite Nat.add_succ_l.
  rewrite (run_go _ _ _ _ _ (prints i out f w) (FClog i prev' ((PutChar <$> chars) ++ ops) :: t))
    by (simpl; by rewrite Hs).
  rewrite <- Nat.add_assoc, run_chars.
  change (format_ (clog (prints i out f w))) with f. rewrite Hn.
  change (format_ (clog (prints i (Char <$> chars) f (prints i out f w)))) with f.
  destruct (stream_run ops prev' f) as [rest f']. cbn [fst snd].
  by rewrite !prints_prints, ?app_assoc.
Qed.

Lemma run_body lg fuel texts now w t :
  run_alone (length texts + fuel) texts now w (FBody lg :: t) =
  run_alone fuel [] now w (FBody (foldl (λ lg x, Logger_Stream x lg) lg texts) :: t).
Proof. revert lg. induction texts as [|x texts IH]; intros lg; [done|]. apply IH. Qed.

Lemma stream_body lg texts text :
  stream_ lg = Some text →
  foldl (λ lg x, Logger_Stream x lg) lg texts =
    mkLogger (enabled_ lg) (severity_ lg) (function_ lg) (filename_ lg) (lineno_ lg)
      (Some (foldl String.append text texts)).
Proof.
  revert lg text. induction texts as [|x texts IH]; intros lg text Ht; simpl; [by destruct lg; simplify_eq/=|].
  by rewrite (IH (Logger_Stream x lg) (text +:+ x)) by (unfold Logger_Stream; simpl; by rewrite Ht).
Qed.

Lemma run_deliver k r calls now w t :
  width (format_ (clog w)) = 0 →
  ∃ n, ∀ fuel, run_alone (n + fuel) [] now w (FDeliver k r calls :: t) =
    run_alone fuel [] now
      (after_events w ((λ c, EProcessed k c.1 r c.2) <$> calls) (next_ticket w)) t.
Proof.
  revert w. induction calls as [|[b owned] calls IH]; intros w Hw.
  - exists 1. intros fuel. rewrite (run_go _ _ _ _ _ w t) by done. by rewrite after_events_nil.
  - set (w1 := after_events w [EProcessed k b r owned] (next_ticket w)).
    assert (∃ n, ∀ fuel, run_alone (n + fuel) [] now w (FDeliver k r ((b, owned) :: calls) :: t) =
      run_alone fuel [] now w1 (FDeliver k r calls :: t)) as [n Hn].
    { destruct b as [|b].
      - destruct (run_ops (StdClogBackend_Process r) (length (trace w)) " " now
          (emit (EProcessed k StdClogBackend r owned) w) (FDeliver k r calls :: t)) as [n Hn].
        exists (S n). intros fuel. rewrite Nat.add_succ_l.
        rewrite (run_go _ _ _ _ _ (emit (EProcessed k StdClogBackend r owned) w)
          (FClog (length (trace w)) " " (StdClogBackend_Process r) :: FDeliver k r calls :: t))
          by done.
        rewrite Hn. cbn [emit clog]. destruct (format_ (clog w)) as [c width] eqn:Hf.
        simpl in Hw. subst width. rewrite Process_alone. cbn [fst snd]. f_equal.
        unfold w1, after_events, prints, set_clog, clog_output. simpl.
        by rewrite Hf, Nat.add_0_r, app_nil_r.
      - exists 2. intros fuel. change (2 + fuel) with (S (S fuel)).
        rewrite (run_go _ _ _ _ _ (emit (EProcessed k (UserBackend b) r owned) w)
          (FBackend k r :: FDeliver k r calls :: t)) by done.
        rewrite (run_go _ _ _ _ _ (emit (EProcessed k (UserBackend b) r owned) w)
          (FDeliver k r calls :: t)) by done.
        f_equal. unfold w1, after_events, emit, clog_output. simpl. rewrite app_nil_r.
        by destruct w as [? [] ? ?]. }
    destruct (IH w1 Hw) as [n' Hn']. exists (n + n'). intros fuel.
    rewrite <- Nat.add_assoc, Hn, Hn'. f_equal. apply after_events_app.
Qed.

Lemma Log_calls_map copy :
  Log_calls copy = (λ kv, (kv.2, bool_decide (length copy = 1))) <$> copy.
Proof. destruct copy as [|[i b] [|c copy]]; [done|done|]. by rewrite bool_decide_false. Qed.

Lemma statement_calls k r copy :
  (λ c, EProcessed k c.1 r c.2) <$> Log_calls copy =
  (λ kv, EProcessed k kv.2 r (bool_decide (length copy = 1))) <$> copy.
Proof. rewrite Log_calls_map, <- list_fmap_compose. done. Qed.

Lemma in_order_length bs : length (in_order bs) = size bs.
Proof. unfold in_order. by rewrite merge_sort_Permutation, length_map_to_list. Qed.

Lemma run_nil fuel texts now w : run_alone fuel texts now w [] = Some w.
Proof. by destruct fuel. Qed.

Lemma run_statement x texts now w :
  sink_valid (sink w) → width (format_ (clog w)) = 0 →
  ∃ n, ∀ fuel, n ≤ fuel →
  run_alone fuel texts now w (Statement x w) =
    Some (after_events w (statement_events x texts now w)
      (if logs x (sink w) then S (next_ticket w) else next_ticket w)).
Proof.
  intros Hv Hw. unfold Statement, statement_events. rewrite (logs_enabled x _ Hv), (sv_empty _ Hv).
  destruct (CompileTimeEnabled (site_severity x)); simpl;
    [|exists 0; intros; by rewrite run_nil, after_events_nil].
  destruct (bool_decide (backends_ (sink w) = ∅)); simpl.
  { exists 1. intros [|fuel] Hf; [lia|]. simpl. by rewrite run_nil, after_events_nil. }
  destruct (is_enabled (site_severity x) (sink w)) eqn:He; simpl.
  2:{ exists 2. intros [|[|fuel]] Hf; [lia..|]. simpl. by rewrite He, run_nil, after_events_nil. }
  destruct (run_deliver (next_ticket w) (statement_record x texts now)
    (Log_calls (Log_copy (sink w))) now (Log (statement_record x texts now) w).1
    [FTest (mkLogger false (site_severity x) (site_function x) (site_filename x) (site_lineno x)
      (Some (foldl String.append "" texts)))]) as [n Hn]; [done|].
  exists (2 + (length texts + (1 + (n + 1)))). intros fuel Hf.
  assert (fuel = 2 + (length texts + (1 + (n + (1 + (fuel - (length texts + n + 4))))))) as -> by lia.
  change (2 + ?m) with (S (S m)). simpl run_alone at 1. rewrite He. simpl run_alone at 1.
  set (lg := Logger_Stream "" (Logger_new true x)).
  rewrite run_body, (stream_body lg texts "") by done.
  rewrite (run_go _ _ _ _ _ (Log (statement_record x texts now) w).1
    [FDeliver (next_ticket w) (statement_record x texts now) (Log_calls (Log_copy (sink w)));
     FTest (mkLogger false (site_severity x) (site_function x) (site_filename x) (site_lineno x)
      (Some (foldl String.append "" texts)))]) by done.
  rewrite Hn. rewrite (run_go _ _ _ _ _ _ []) by done.
  rewrite run_nil, statement_calls. f_equal. unfold after_events, Log. simpl.
  rewrite length_app. unfold clog_output. simpl. rewrite <- app_assoc. do 4 f_equal.
  apply imap_ext. intros j e _. simpl. by rewrite <- Nat.add_assoc.
Qed.
End statement.

(** ** The time of a log line *)

Lemma Timestamp_print_text tp :
  (0 ≤ tp ≤ 9200000000000000000)%Z →
  ∃ t v, Timestamp_print (Timestamp_new tp) = rfc3339_text t "T" (Some (9, v)) Zulu ∧
    fields_fit t ∧ fraction_fit (Some (9, v)) ∧ (1678 ≤ tm_year t ≤ 2261)%Z ∧ time_valid t ∧
    instant t (Some (9, v)) Zulu = tp.
Proof.
  intros Hb. unfold Timestamp_new, Timestamp_print, to_time_t. cbn [ts_tm nanos].
  rewrite !Z.quot_div_nonneg by lia.
  pose proof (Z.div_mod tp 1000000000). pose proof (Z.mod_pos_bound tp 1000000000).
  set (time := (tp `div` 1000000000)%Z) in *.
  assert (0 ≤ time ≤ 9200000000)%Z by (unfold time; lia).
  destruct (timegm_gmtime time) as [Htm Hv].
  pose proof (year_bounds _ Hv) as Hy.
  exists (gmtime_r time), (tp - time * 1000000000)%Z.
  generalize dependent (gmtime_r time). intros t Htm Hv Hy.
  specialize (Hy ltac:(lia)).
  assert (fields_fit t) as Hf by (apply time_valid_fits; [done|lia]).
  assert (fraction_fit (Some (9, (tp - time * 1000000000)%Z))) as Hfr by (simpl; lia).
  split; [|split_and!; try done; unfold instant; simpl; lia].
  destruct Hf as (_ & ? & ? & ? & ? & ?). rewrite !setw_pad by (simpl in *; lia).
  rewrite print_year by lia. unfold setw. rewrite length_pad. simpl Nat.iter.
  unfold rfc3339_text, date_time_text, fraction_text, offset_text.
  by rewrite ?string_app_assoc, ?string_cons_app, ?string_app_assoc.
Qed.

(** ** Properties *)

Lemma Instance_reachable `{LoggingBuild} env s :
  Instance_new env = Ret s → ∃ l, reachable (mkWorld s clog_new l 0, [[]]).
Proof.
  unfold Instance_new. destruct (GetEnv _ env); intros Hs.
  - exists [ERegistered 1 StdClogBackend]. exists 1. apply rtc_once.
    apply (Step (mkWorld LogSink_new clog_new [] 0) [[]] 0 [] CallEnableStdClog); [done|]. simpl.
    vm_compute in Hs. injection Hs as <-. vm_compute. done.
  - injection Hs as <-. exists []. exists 1. apply rtc_refl.
Qed.

(** The data members are well formed whatever the threads do and in whichever order:
    [empty_] says whether there are backends, the backends are the ones registered and not
    removed since, identifiers are given out in the order 1, 2, 3 and never reused,
    [StdClogBackend] is registered at most once and under [clog_backend_id_], the minimum
    severity is an enumerator.  No step has undefined behaviour before the identifiers of
    64 bits run out. *)
Theorem sink_well_formed `{LoggingBuild} (w : world) (ts : list thread) :
  reachable (w, ts) →
  sink_valid (sink w) ∧ backends_ (sink w) = registered (trace w) ∧
  registered_ids (trace w) = seqZ 1 (next_id_ (sink w)) ∧
  (∀ id id', backends_ (sink w) !! id = Some StdClogBackend →
    backends_ (sink w) !! id' = Some StdClogBackend → id = id') ∧
  (∀ t ch m, thread_step ch w t = Some m → (next_id_ (sink w) < 2 ^ 63 - 1)%Z →
    ∃ w' t', m = Ret (w', t')).
Proof.
  intros Hr. pose proof (reachable_sink _ Hr) as Hi. simpl in Hi. pose proof (si_valid _ Hi) as Hv.
  split_and!; [done|apply Hi|apply Hi| |].
  - intros id id' Hid%(sv_clog _ Hv) Hid'%(sv_clog _ Hv). congruence.
  - intros t ch m Hm Hlt. destruct (thread_step_sink _ _ _ _ Hi Hm) as [(w' & t' & -> & _)|[_ ?]];
      [by do 2 eexists|lia].
Qed.

(** C36: [Log] gives the record to the backends that are registered when it copies them:
    to each exactly once, in the order of registration, also when backends are added or
    removed meanwhile, when backends themselves log and when operands of statements throw; an
    exception that a backend throws ends the call, and the backends that follow do not get the
    record.  The backend gets the ownership of the record when it is the only one.
    What is written to [std::clog] belongs to the deliveries of records to its backend, each
    of which writes the texts of its line in order, whole and with at most nine fill
    characters (blanks or zeros) before each, then the newline, and flushes the stream
    exactly when the severity is [WARNING], [ERROR], [CRITICAL], [ALERT] or [FATAL].  The
    characters of deliveries that are made at the same time may be mixed. *)
Theorem records_delivered `{LoggingBuild} (w : world) (ts : list thread) :
  reachable (w, ts) →
  (∀ i k r copy, trace w !! i = Some (ECopied k r copy) →
    copy = in_order (registered (take i (trace w))) ∧
    (∃ rest, processed k (trace w) ++ rest = give r (Log_calls copy)) ∧
    (Log_calls copy).*1 = copy.*2 ∧
    (∀ b owned, (b, owned) ∈ Log_calls copy → owned = bool_decide (length copy = 1)) ∧
    ((∀ t, t ∈ ts → t = []) → EAborted k ∉ trace w →
     processed k (trace w) = give r (Log_calls copy))) ∧
  (∀ i o, (i, o) ∈ written_ (clog w) →
    ∃ k r owned, trace w !! i = Some (EProcessed k StdClogBackend r owned)) ∧
  (∀ i k r owned, trace w !! i = Some (EProcessed k StdClogBackend r owned) →
    (∃ rest, intact r (line i (clog w) ++ rest)) ∧
    ((∀ t, t ∈ ts → t = []) → intact r (line i (clog w)))).
Proof.
  intros Hr. pose proof (reachable_deliveries _ Hr) as []. pose proof (reachable_clog _ Hr) as [].
  simpl in *.
  assert ((∀ t, t ∈ ts → t = []) → frames ts = []) as Hidle.
  { clear. intros Hts. induction ts as [|t ts IH]; [done|]. simpl. rewrite (Hts t) by by left.
    apply IH. intros t' ?. apply Hts. by right. }
  split_and!.
  - intros i k r copy Hi. pose proof (list_elem_of_lookup_2 _ _ _ Hi) as Hin. split_and!.
    + by eapply d_copy0.
    + destruct (decide (k ∈ omap frame_ticket (frames ts))) as [(r' & calls & Hf)%elem_of_tickets|Hk].
      * exists (give r calls). by eapply d_running0.
      * by destruct (d_done0 k r copy Hin Hk).
    + rewrite Log_calls_map, <- list_fmap_compose. done.
    + rewrite Log_calls_map. intros b owned (kv & [= _ ->] & _)%list_elem_of_fmap. done.
    + intros Hts. eapply (d_done0 k r copy); [done|]. rewrite Hidle by done. apply not_elem_of_nil.
  - intros i o [r Hi]%ci_lines0. unfold clog_record in Hi.
    destruct (trace w !! i) as [[| | | |k [] r' owned|]|]; simplify_eq/=. eauto.
  - intros i k r owned Hi. assert (clog_record (trace w) i = Some r) as Hc
      by (unfold clog_record; by rewrite Hi). split.
    + destruct (decide (i ∈ (printing (frames ts)).*1)) as [Hin|Hin].
      * apply list_elem_of_fmap in Hin as ([j [prev ops]] & -> & Hin).
        apply ci_running0 in Hin as (_ & r' & Hr' & Hp). simpl in Hc. simplify_eq.
        by eapply in_progress_prefix.
      * exists []. rewrite app_nil_r. by apply ci_done0.
    + intros Hts. apply ci_done0; [done|]. rewrite Hidle by done. apply not_elem_of_nil.
Qed.

(** C37: a [GCP_LOG] statement whose thread is left alone ends.  When its severity is, in the
    order of the severities, at least the one that the build enables and at least the
    minimum of the sink, and there are backends, each backend gets the record with the place
    of the statement, the time and the concatenated operands, [std::clog] gets its line if
    that is one of them and is left with the fill character that it had (provided that no
    other thread was stopped in the middle of a field), and nothing else happens; otherwise
    nothing happens and the operands are not evaluated. *)
Theorem log_statement `{LoggingBuild} (w : world) (x : site) (texts : list string) (now : Z) :
  sink_valid (sink w) → width (format_ (clog w)) = 0 →
  ∃ n k, ∀ fuel, n ≤ fuel →
  run_alone fuel texts now w (Statement x w) =
    Some (mkWorld (sink w)
      (mkClog (written_ (clog w) ++ clog_output (length (trace w)) (statement_events x texts now w))
        (format_ (clog w)))
      (trace w ++ statement_events x texts now w) k).
Proof. intros Hv Hw. destruct (run_statement x texts now w Hv Hw) as [n Hn]. eauto. Qed.

(** A log line begins with an RFC 3339 timestamp that [ParseRfc3339] reads back as the
    time of the record, from the epoch to the year 2261. *)
Theorem log_line_timestamp `{Build} mktime now zone (r : LogRecord) :
  (∀ t, mktime t = (timegm t - zone)%Z) → (-86400 ≤ zone ≤ 86400)%Z →
  (0 ≤ timestamp r ≤ 9200000000000000000)%Z →
  ∃ stamp, LogRecord_print r = stamp +:+ " [" +:+ Severity_print (severity r) +:+ "] "
      +:+ message r +:+ " (" +:+ filename r +:+ ":" +:+ print_int 1 (lineno r) +:+ ")" ∧
    ParseRfc3339 mktime now stamp = Ret (timestamp r).
Proof.
  intros Hm Hz Hb. eexists. split; [done|].
  destruct (Timestamp_print_text _ Hb) as (t & v & -> & Hf & Hfr & Hy & Hv & <-).
  apply (ParseRfc3339_valid mktime now zone); try done.
  - split_and!; [by left|done|by left].
  - apply (sums_fit zone Hz); [done|done|done|by left|done].
Qed.

(** *** Witnesses *)
Section examples.
Local Existing Instance default_logging_build.

(** Two backends, the first of which removes the second while it has the record. *)
Definition example_site : site := mkSite GCP_LS_WARNING "main" "main.cc" 7.
Definition example_choices : list choice :=
  [CallAddBackend 1; CallAddBackend 2; CallStatement example_site; Go 0; Go 0; Put "a"; Go 5;
   Go 0; CallRemoveBackend 2; Go 0; Go 0; Go 0; Go 0; Go 0].

Fixpoint follow (chs : list choice) (w : world) (t : thread) : option (world * thread) :=
  match chs with
  | [] => Some (w, t)
  | ch :: chs =>
      match thread_step ch w t with
      | Some (Ret (w', t')) => follow chs w' t'
      | _ => None
      end
  end.

Lemma follow_reachable chs w' t' :
  follow chs (initial LogSink_new 1).1 [] = Some (w', t') → reachable (w', [t']).
Proof.
  intros Hf. exists 1. unfold initial in *. simpl in *. revert Hf.
  generalize (mkWorld LogSink_new clog_new [] 0) (@nil frame).
  induction chs as [|ch chs IH]; intros w t Hf; simpl in Hf; [by simplify_eq; apply rtc_refl|].
  destruct (thread_step ch w t) as [[[w1 t1]| | |]|] eqn:Hs; try done.
  eapply rtc_l; [by apply (Step w [t] 0 t ch w1 t1)|]. by apply IH.
Qed.

Definition example_world : world :=
  default (mkWorld LogSink_new clog_new [] 0) (fst <$> follow example_choices (initial LogSink_new 1).1 []).

Lemma example_reachable : reachable (example_world, [[]]).
Proof. apply (follow_reachable example_choices). vm_compute. reflexivity. Qed.

Lemma sink_well_formed_witness :
  sink_valid (sink example_world) ∧ registered_ids (trace example_world) = [1; 2]%Z.
Proof.
  destruct (sink_well_formed example_world [[]] example_reachable) as (Hv & _ & Hids & _).
  split; [exact Hv|exact Hids].
Defined.

(** The record of a statement goes to a backend and to [std::clog]. *)
Definition clog_choices : list choice :=
  [CallAddBackend 1; CallEnableStdClog; CallStatement example_site; Go 0; Go 0; Put "a"; Go 5;
   Go 0; Go 0; Go 0] ++ replicate 93 (Go 0).
Definition clog_world : world :=
  default (mkWorld LogSink_new clog_new [] 0) (fst <$> follow clog_choices (initial LogSink_new 1).1 []).
Lemma clog_reachable : reachable (clog_world, [[]]).
Proof. apply (follow_reachable clog_choices). vm_compute. reflexivity. Qed.
Definition example_record : LogRecord := mkLogRecord GCP_LS_WARNING "main" "main.cc" 7 5 "a".

Lemma records_delivered_witness :
  processed 0 (trace example_world) =
    give example_record [(UserBackend 1, false); (UserBackend 2, false)] ∧
  intact example_record (line 4 (clog clog_world)).
Proof.
  assert (∀ t : thread, t ∈ [[]] → t = []) as Hidle by by intros t ->%list_elem_of_singleton.
  split.
  - destruct (records_delivered example_world [[]] example_reachable) as [Hd _].
    apply (Hd 2 0 _ [(1, UserBackend 1); (2, UserBackend 2)]%Z).
    + reflexivity.
    + exact Hidle.
    + assert (Forall (λ e, e ≠ EAborted 0) (trace example_world)) as Ha
        by (vm_compute; repeat constructor; discriminate).
      intros Hin. by apply (proj1 (Forall_forall _ _) Ha _ Hin).
  - destruct (records_delivered clog_world [[]] clog_reachable) as (_ & _ & Hl).
    apply (Hl 4 0 example_record false); [vm_compute; reflexivity|exact Hidle].
Defined.

(** The first backend throws: the second does not get the record.  Then the operand of a
    statement throws: there is no record. *)
Example exceptions_end_calls :
  let r := mkLogRecord GCP_LS_INFO "main" "main.cc" 8 5 "b" in
  ∃ w, follow [CallAddBackend 1; CallAddBackend 2; CallLog r; Go 0; Raise;
               CallStatement example_site; Go 0; Go 0; Put "a"; Raise]
      (initial LogSink_new 1).1 [] = Some (w, []) ∧
    processed 0 (trace w) = give r [(UserBackend 1, false)] ∧
    trace w = take 3 (trace w) ++ [EProcessed 0 (UserBackend 1) r false; EAborted 0].
Proof. eexists. split_and!; vm_compute; reflexivity. Qed.

Lemma log_statement_witness :
  ∃ w, (∃ fuel, run_alone fuel ["a"; "b"] 5 clog_world (Statement example_site clog_world) = Some w) ∧
    trace w = trace clog_world ++ (let r := mkLogRecord GCP_LS_WARNING "main" "main.cc" 7 5 "ab" in
      [ECopied 1 r [(1%Z, UserBackend 1); (2%Z, StdClogBackend)];
       EProcessed 1 (UserBackend 1) r false; EProcessed 1 StdClogBackend r false]) ∧
    written_ (clog w) = written_ (clog clog_world) ++ (pair 7 <$> (Char <$> chars_of
      ("1970-01-01T00:00:00.000000005Z [WARNING] ab (main.cc:7)" +:+ newline)) ++ [Flushed]).
Proof.
  destruct (log_statement clog_world example_site ["a"; "b"] 5) as (n & k & Hn).
  - exact (si_valid _ (reachable_sink _ clog_reachable)).
  - vm_compute. reflexivity.
  - eexists. split; [exists n; exact (Hn n (le_n n))|]. split; vm_compute; reflexivity.
Defined.

(** *** Two threads print at the same time

    Thread 1 begins its line between [os.fill('0')] and [os.fill(prev)] of thread 0, and
    saves the ['0'] of thread 0 as the fill character to go back to. *)
Fixpoint follow_threads (chs : list (nat * choice)) (c : config) : option config :=
  match chs with
  | [] => Some c
  | (i, ch) :: chs =>
      match t ← c.2 !! i; thread_step ch c.1 t with
      | Some (Ret (w', t')) => follow_threads chs (w', <[i := t']> c.2)
      | _ => None
      end
  end.
Lemma follow_threads_reachable chs n c :
  follow_threads chs (initial LogSink_new n) = Some c → reachable c.
Proof.
  intros Hf. exists n. revert Hf. generalize (initial LogSink_new n).
  induction chs as [|[i ch] chs IH]; intros [w ts] Hf; simpl in Hf; [by simplify_eq; apply rtc_refl|].
  destruct (ts !! i) as [t|] eqn:Hi; [|done]. simpl in Hf.
  destruct (thread_step ch w t) as [[[w1 t1]| | |]|] eqn:Hs; try done.
  eapply rtc_l; [by apply (Step w ts i t ch w1 t1)|]. by apply IH.
Qed.

(** When both threads are done [std::clog] has ['0'] for its fill character. *)
Lemma clog_fill_left :
  ∃ w, reachable (w, [[]; []]) ∧ fill (format_ (clog (initial LogSink_new 2).1)) = " "%char ∧
    fill (format_ (clog w)) = "0"%char.
Proof.
  set (r := mkLogRecord GCP_LS_INFO "f" "a" 1 0 "m").
  assert (∃ c, follow_threads ([(0, CallEnableStdClog); (0, CallLog r); (1, CallLog r)]
    ++ replicate 9 (0, Go 0) ++ replicate 2 (1, Go 0)
    ++ replicate 74 (0, Go 0) ++ replicate 81 (1, Go 0)) (initial LogSink_new 2) = Some c ∧
    c.2 = [[]; []] ∧ fill (format_ (clog c.1)) = "0"%char) as ([w ts] & Hf & Ht & Hc).
  { eexists. split_and!; vm_compute; reflexivity. }
  simpl in Ht. subst ts. exists w. split; [by eapply follow_threads_reachable|]. by split.
Qed.

(** An entry of the table of backends that the application removes by its identifier:
    [EnableStdClog] then does nothing, since [clog_backend_id_] still has the identifier. *)
Lemma clog_not_enabled_again :
  ∃ s1 s2, EnableStdClogImpl LogSink_new = Ret s1 ∧ BackendCount s1 = 1 ∧
    EnableStdClogImpl (RemoveBackend 1 s1) = Ret s2 ∧ BackendCount s2 = 0.
Proof. do 2 eexists. split_and!; [vm_compute; reflexivity..]. Qed.
End examples.

Lemma log_line_timestamp_witness :
  ∃ stamp, LogRecord_print (mkLogRecord GCP_LS_INFO "f" "a.cc" 3 1526654523000123000 "m")
      = stamp +:+ " [INFO] m (a.cc:3)" ∧
    ParseRfc3339 (H := example_build) example_mktime 1500000000 stamp = Ret 1526654523000123000%Z.
Proof.
  destruct (log_line_timestamp (H := example_build) example_mktime 1500000000 3600
    (mkLogRecord GCP_LS_INFO "f" "a.cc" 3 1526654523000123000 "m"))
    as (stamp & Hp & Hs); [done|lia|simpl; lia|].
  exists stamp. split; [exact Hp|exact Hs].
Defined.
