(* ===== verification/TracingOptions.v ===== *)
(** * Tracing options (tracing_options.h, tracing_options.cc)

    The parser of the text of the options, over positions of a string as the code has it,
    and a reference that splits the text at its commas. *)

From S2P Require Import Prelude Throw CLibrary Streams.

Set Default Proof Using "Type".

Record TracingOptions := mkTracingOptions {
  single_line_mode_ : bool;
  use_short_repeated_primitives_ : bool;
  truncate_string_field_longer_than_ : Z;
}.
Definition TracingOptions_default : TracingOptions := mkTracingOptions true true 128.

(** ** The standard library *)

(** [std::find(first, last, c)], with positions for iterators: [n] elements from [pos]. *)
Fixpoint find_n (n : nat) (c : ascii) (l : chars) (pos : nat) : nat :=
  match n with
  | 0 => pos
  | S n => if bool_decide (l !! pos = Some c) then pos else find_n n c l (S pos)
  end.
Definition std_find (c : ascii) (l : chars) (first last : nat) : nat :=
  find_n (last - first) c l first.
(** [std::string{first, last}]. *)
Definition substr (l : chars) (first last : nat) : string :=
  text_of (take (last - first) (drop first l)).

(** [std::stoll] throws these whatever the build of the library. *)
Definition std_stoll (s : string) : cxx (Z * nat) :=
  match strtoll s with
  | None => Throw (std_invalid_argument "stoll")
  | Some (z, pos) =>
      if bool_decide (in_signed 64 z) then Ret (z, pos) else Throw (std_out_of_range "stoll")
  end.

(** ** Parsing *)
Definition ParseBoolean (str : string) : option bool :=
  if bool_decide (str ∈ ["Y"; "y"; "T"; "t"; "1"; "on"]) then Some true
  else if bool_decide (str ∈ ["N"; "n"; "F"; "f"; "0"; "off"]) then Some false
  else None.

Definition ParseInteger (str : string) : cxx (option Z) :=
  '(val, econv) ← std_stoll str;
  Ret (if negb (bool_decide (econv = String.length str)) then None else Some val).

Definition set_single_line_mode (b : bool) (o : TracingOptions) : TracingOptions :=
  mkTracingOptions b (use_short_repeated_primitives_ o) (truncate_string_field_longer_than_ o).
Definition set_use_short (b : bool) (o : TracingOptions) : TracingOptions :=
  mkTracingOptions (single_line_mode_ o) b (truncate_string_field_longer_than_ o).
Definition set_truncate (z : Z) (o : TracingOptions) : TracingOptions :=
  mkTracingOptions (single_line_mode_ o) (use_short_repeated_primitives_ o) z.

(** The [if] and [else if] of the body of the loop. *)
Definition SetOption (opt val : string) (o : TracingOptions) : cxx TracingOptions :=
  if bool_decide (opt = "single_line_mode") then
    Ret (match ParseBoolean val with Some v => set_single_line_mode v o | None => o end)
  else if bool_decide (opt = "use_short_repeated_primitives") then
    Ret (match ParseBoolean val with Some v => set_use_short v o | None => o end)
  else if bool_decide (opt = "truncate_string_field_longer_than") then
    v ← ParseInteger val;
    Ret (match v with Some v => set_truncate v o | None => o end)
  else Ret o.

(** The loop of [SetOptions]: the object, also when an exception leaves the loop. *)
Fixpoint SetOptions_loop (fuel : nat) (str : chars) (pos : nat) (o : TracingOptions) :
    TracingOptions * cxx () :=
  match fuel with
  | 0 => (o, Undefined BadIndex)
  | S fuel =>
      let end_ := length str in
      let comma := std_find "," str pos end_ in
      let equal := std_find "=" str pos comma in
      let opt := substr str pos equal in
      let val := substr str (equal + if bool_decide (equal = comma) then 0 else 1) comma in
      match SetOption opt val o with
      | Ret o => if bool_decide (comma = end_) then (o, Ret ())
                 else SetOptions_loop fuel str (comma + 1) o
      | Throw e => (o, Throw e)
      | Terminated s => (o, Terminated s)
      | Undefined u => (o, Undefined u)
      end
  end.
(** Each iteration passes a comma. *)
Definition SetOptions (str : string) (o : TracingOptions) : TracingOptions * cxx () :=
  SetOptions_loop (S (length (chars_of str))) (chars_of str) 0 o.

(** ** The reference *)

Definition setting (item : chars) : string * string :=
  let '(a, b) := cut "=" item in (text_of a, text_of b).

(** Settings are applied in order, up to one that throws. *)
Fixpoint apply_settings (l : list (string * string)) (o : TracingOptions) :
    TracingOptions * cxx () :=
  match l with
  | [] => (o, Ret ())
  | (opt, val) :: l =>
      match SetOption opt val o with
      | Ret o => apply_settings l o
      | Throw e => (o, Throw e)
      | Terminated s => (o, Terminated s)
      | Undefined u => (o, Undefined u)
      end
  end.
Definition settings (str : string) : list (string * string) :=
  setting <$> split "," (chars_of str).

(** The texts of a boolean. *)
Definition boolean_texts : list (string * bool) :=
  [("Y", true); ("N", false); ("y", true); ("n", false); ("T", true); ("F", false);
   ("t", true); ("f", false); ("1", true); ("0", false); ("on", true); ("off", false)].
Definition boolean_value (val : string) : option bool :=
  (λ p, p.2.2) <$> list_find (λ p, p.1 = val) boolean_texts.

(** The values of the settings of one name. *)
Definition values {A} (name : string) (f : string → option A) (l : list (string * string)) : list A :=
  omap (λ x, if bool_decide (x.1 = name) then f x.2 else None) l.
(** What a list of settings leaves: the last valid value of each name. *)
Definition integer_value (val : string) : option Z :=
  match strtoll val with
  | Some (z, pos) => if bool_decide (pos = String.length val) then Some z else None
  | None => None
  end.
Definition effect (l : list (string * string)) (o : TracingOptions) : TracingOptions :=
  mkTracingOptions
    (default (single_line_mode_ o) (last (values "single_line_mode" boolean_value l)))
    (default (use_short_repeated_primitives_ o)
      (last (values "use_short_repeated_primitives" boolean_value l)))
    (default (truncate_string_field_longer_than_ o)
      (last (values "truncate_string_field_longer_than" integer_value l))).
(** The settings that throw, and the exception. *)
Definition throws (x : string * string) : option exn :=
  if bool_decide (x.1 = "truncate_string_field_longer_than") then
    match strtoll x.2 with
    | None => Some (std_invalid_argument "stoll")
    | Some (z, _) =>
        if bool_decide (in_signed 64 z) then None else Some (std_out_of_range "stoll")
    end
  else None.

(** ** Lemmas *)

Lemma find_n_cut c l pos n :
  pos + n ≤ length l → find_n n c l pos = pos + length (cut c (take n (drop pos l))).1.
Proof.
  revert pos. induction n as [|n IH]; intros pos Hn; simpl; [lia|].
  destruct (l !! pos) as [x|] eqn:Hx; [|apply lookup_ge_None in Hx; lia].
  rewrite (drop_S _ _ _ Hx). cbn [take cut].
  destruct (decide (x = c)) as [->|Hne].
  - rewrite !bool_decide_true by done. simpl. lia.
  - rewrite !bool_decide_false by congruence. rewrite IH by lia.
    destruct (cut c _) as [a b]. simpl. lia.
Qed.

Lemma take_length_prefix {A} (l a b : list A) : l = a ++ b → take (length a) l = a.
Proof. intros ->. apply take_app_length. Qed.

(** One iteration, on the text [d] that is left. *)
Lemma iteration str pos :
  pos ≤ length str →
  let d := drop pos str in
  let comma := std_find "," str pos (length str) in
  let equal := std_find "=" str pos comma in
  let item := (cut "," d).1 in
  comma = pos + length item ∧
  (substr str pos equal,
   substr str (equal + if bool_decide (equal = comma) then 0 else 1) comma) = setting item.
Proof.
  intros Hp d comma equal item.
  assert (∃ b, d = item ++ b) as [b Hb].
  { destruct (cut_cases "," d) as [[_ Hc]|(a & b & Hd & _ & Hc)]; unfold item; rewrite Hc; simpl;
      [exists []; by rewrite app_nil_r|by exists (","%char :: b)]. }
  assert (comma = pos + length item) as Hcomma.
  { unfold comma, std_find. rewrite find_n_cut by lia.
    by rewrite take_ge by (rewrite length_drop; lia). }
  assert (length d = length str - pos) as Hld by apply length_drop.
  assert (length item ≤ length d) as Hli by (rewrite Hb, length_app; lia).
  split; [done|].
  assert (equal = pos + length (cut "=" item).1) as Hequal.
  { unfold equal, std_find. rewrite Hcomma. replace (pos + length item - pos) with (length item) by lia.
    rewrite find_n_cut by lia. fold d. by rewrite (take_length_prefix d item b). }
  unfold setting, substr. rewrite Hequal, Hcomma.
  replace (pos + length (cut "=" item).1 - pos) with (length (cut "=" item).1) by lia.
  fold d. destruct (cut_cases "=" item) as [[_ Hc]|(k & v & Hi & _ & Hc)]; rewrite Hc; simpl.
  - rewrite (take_length_prefix d item b Hb). rewrite bool_decide_true by done.
    by replace (pos + length item - (pos + length item + 0)) with 0 by lia.
  - assert (d = k ++ "="%char :: v ++ b) as Hd by (by rewrite Hb, Hi, <- app_assoc).
    rewrite (take_length_prefix _ _ _ Hd), Hi, length_app. simpl.
    rewrite bool_decide_false by lia.
    replace (pos + (length k + S (length v)) - (pos + length k + 1)) with (length v) by lia.
    replace (pos + length k + 1) with (pos + S (length k)) by lia.
    rewrite <- drop_drop. fold d. rewrite Hd, drop_app_ge by lia.
    replace (S (length k) - length k) with 1 by lia. simpl. rewrite drop_0. by rewrite take_app_length.
Qed.

Lemma SetOptions_loop_spec fuel str pos o :
  pos ≤ length str → length str - pos < fuel →
  SetOptions_loop fuel str pos o =
    apply_settings (setting <$> split "," (drop pos str)) o.
Proof.
  revert pos o. induction fuel as [|fuel IH]; intros pos o Hp Hf; [lia|]. cbn [SetOptions_loop].
  destruct (iteration str pos Hp) as [Hcomma Hset].
  set (d := drop pos str) in *. assert (length d = length str - pos) as Hld by apply length_drop.
  revert Hset. generalize (std_find "=" str pos (std_find "," str pos (length str))). intros equal.
  generalize (substr str pos equal). intros opt. cbv zeta.
  rewrite Hcomma. generalize (substr str (equal + if bool_decide (equal = pos + length (cut "," d).1)
    then 0 else 1) (pos + length (cut "," d).1)). intros val Hset.
  destruct (cut_cases "," d) as [[Hn Hc]|(a & b & Hd & Ha & Hc)]; rewrite Hc in *; simpl in *.
  - rewrite (split_none _ _ Hn). simpl. rewrite <- Hset.
    destruct (SetOption opt val o); try done. by rewrite bool_decide_true by lia.
  - rewrite Hd, (split_app _ _ _ Ha). simpl. rewrite <- Hset.
    destruct (SetOption opt val o) as [o'| | |]; try done.
    assert (length d = length a + S (length b)) by (by rewrite Hd, length_app).
    rewrite bool_decide_false by lia. rewrite IH by lia.
    replace (pos + length a + 1) with (pos + S (length a)) by lia.
    rewrite <- drop_drop. fold d. rewrite Hd, drop_app_ge by lia.
    by replace (S (length a) - length a) with 1 by lia.
Qed.

Lemma SetOptions_settings str o : SetOptions str o = apply_settings (settings str) o.
Proof. unfold SetOptions. by rewrite SetOptions_loop_spec by lia. Qed.

Lemma values_cons {A} name (f : string → option A) opt val l :
  values name f ((opt, val) :: l) =
    if bool_decide (opt = name) then
      match f val with Some v => v :: values name f l | None => values name f l end
    else values name f l.
Proof. unfold values. simpl. by case_bool_decide. Qed.

#[local] Arguments values : simpl never.

Lemma last_default_cons {A} (d v : A) l : default d (last (v :: l)) = default v (last l).
Proof. rewrite last_cons. by destruct (last l). Qed.

Lemma ParseBoolean_value val : ParseBoolean val = boolean_value val.
Proof.
  unfold ParseBoolean. case_bool_decide as Ht.
  { repeat (apply elem_of_cons in Ht as [->|Ht]; [reflexivity|]). by apply elem_of_nil in Ht. }
  case_bool_decide as Hf.
  { repeat (apply elem_of_cons in Hf as [->|Hf]; [reflexivity|]). by apply elem_of_nil in Hf. }
  unfold boolean_value, boolean_texts. rewrite !not_elem_of_cons in Ht, Hf. destruct_and!.
  simpl. by rewrite !decide_False by done.
Qed.

Lemma SetOption_throws opt val o :
  match throws (opt, val) with
  | Some e => SetOption opt val o = Throw e
  | None => ∃ o', SetOption opt val o = Ret o' ∧ ∀ l, effect l o' = effect ((opt, val) :: l) o
  end.
Proof.
  unfold throws, SetOption, effect. simpl fst. simpl snd.
  case_bool_decide as H3; [subst opt; simpl|].
  - unfold ParseInteger, std_stoll. destruct (strtoll val) as [[z pos]|] eqn:Hs; [|done].
    case_bool_decide as Hz; [|done]. simpl. eexists. split; [done|]. intros l.
    rewrite !values_cons. simpl. unfold integer_value at 2. rewrite Hs.
    case_bool_decide; simpl; [by rewrite last_default_cons|done].
  - case_bool_decide as H1; [subst opt|case_bool_decide as H2; [subst opt|]];
      (eexists; split; [done|]); intros l; rewrite !values_cons; simpl.
    + rewrite ParseBoolean_value. destruct (boolean_value val); simpl; [by rewrite last_default_cons|done].
    + rewrite ParseBoolean_value. destruct (boolean_value val); simpl; [by rewrite last_default_cons|done].
    + by rewrite !bool_decide_false.
Qed.

Lemma apply_settings_effect l o :
  ∃ done rest, l = done ++ rest ∧ (apply_settings l o).1 = effect done o ∧
    (∀ x, x ∈ done → throws x = None) ∧
    match rest with
    | [] => (apply_settings l o).2 = Ret ()
    | x :: _ => ∃ e, throws x = Some e ∧ (apply_settings l o).2 = Throw e
    end.
Proof.
  revert o. induction l as [|[opt val] l IH]; intros o; simpl.
  - exists [], []. split_and!; try done; [by destruct o|]. intros x Hx. by apply elem_of_nil in Hx.
  - pose proof (SetOption_throws opt val o) as Hs. destruct (throws (opt, val)) as [e|] eqn:Ht.
    + rewrite Hs. exists [], ((opt, val) :: l). split_and!; try done; [by destruct o| |by exists e].
      intros x Hx. by apply elem_of_nil in Hx.
    + destruct Hs as (o' & -> & He). destruct (IH o') as (d & rest & -> & Ho & Hd & Hr).
      exists ((opt, val) :: d), rest. split_and!; [done|by rewrite Ho| |done].
      intros x [->|Hx]%elem_of_cons; [done|by apply Hd].
Qed.

(** ** Properties *)

(** C39: [SetOptions] reads the text as the settings between its commas, each the texts
    before and after the first ['='].  The settings are applied in order up to the first
    one that throws: an integer that [std::stoll] refuses.  Of the settings applied the
    last valid one of each name counts; unknown names and values that are not valid leave
    the options as they were.  The booleans are written as in [boolean_texts]: [Y], [y], [T],
    [t], [1] and [on] for true, [N], [n], [F], [f], [0] and [off] for false. *)
Theorem set_options_effect (str : string) (o : TracingOptions) :
  ∃ done rest, settings str = done ++ rest ∧ (SetOptions str o).1 = effect done o ∧
    (∀ x, x ∈ done → throws x = None) ∧
    match rest with
    | [] => (SetOptions str o).2 = Ret ()
    | x :: _ => ∃ e, throws x = Some e ∧ (SetOptions str o).2 = Throw e
    end.
Proof. rewrite SetOptions_settings. apply apply_settings_effect. Qed.

(** The examples of tracing_options_test.cc, and a value that is not a number: the settings
    before it are kept, and the exception leaves the function. *)
Lemma set_options_examples :
  SetOptions "foo=1,bar=T,baz=no" TracingOptions_default = (TracingOptions_default, Ret ()) ∧
  SetOptions ",single_line_mode=F,use_short_repeated_primitives=n,truncate_string_field_longer_than=256"
    TracingOptions_default = (mkTracingOptions false false 256, Ret ()) ∧
  SetOptions "single_line_mode=F,truncate_string_field_longer_than=all,use_short_repeated_primitives=n"
    TracingOptions_default
    = (mkTracingOptions false true 128, Throw (std_invalid_argument "stoll")).
Proof. split_and!; vm_compute; reflexivity. Qed.
