(* ===== verification/ConnectionOptions.v ===== *)
(** * Connection options (connection_options.h, connection_options.cc)

    The traits of a connection are a class, as they are a template parameter in the code;
    credentials and channel arguments belong to gRPC: the model records the calls that
    configure them. *)

From S2P Require Import Prelude Throw CLibrary Environment Streams TracingOptions.

Set Default Proof Using "Type".

(** ** The defaults from the environment *)

(** The loop of [DefaultTracingComponents]; each token takes a character. *)
Fixpoint insert_tokens (fuel : nat) (is_ : istringstream) (result : gset string) :
    cxx (gset string) :=
  match fuel with
  | 0 => Undefined BadIndex
  | S fuel =>
      match getline "," is_ with
      | (Some token, is_) => insert_tokens fuel is_ ({[text_of token]} ∪ result)
      | (None, _) => Ret result
      end
  end.
Definition DefaultTracingComponents (env : environment) : cxx (gset string) :=
  match GetEnv "GOOGLE_CLOUD_CPP_ENABLE_TRACING" env with
  | None => Ret ∅
  | Some tracing =>
      insert_tokens (length (chars_of tracing) + 2) (mkStream (chars_of tracing) true) ∅
  end.

(** The temporary object is lost when [SetOptions] throws. *)
Definition DefaultTracingOptions (env : environment) : cxx TracingOptions :=
  match GetEnv "GOOGLE_CLOUD_CPP_TRACING_OPTIONS" env with
  | None => Ret TracingOptions_default
  | Some text => let '(o, m) := SetOptions text TracingOptions_default in _ ← m; Ret o
  end.

(** What a factory of background threads creates; a queue of the application is given by
    its identity. *)
Inductive BackgroundThreads :=
| AutomaticallyCreatedBackgroundThreads
| CustomerSuppliedBackgroundThreads (cq : nat).
Definition DefaultBackgroundThreads : BackgroundThreads := AutomaticallyCreatedBackgroundThreads.

(** ** [ConnectionOptions] *)
Class ConnectionTraits := {
  default_endpoint : string;
  default_num_channels : Z;
  default_user_agent_prefix : string;
}.

Section options.
Context `{ConnectionTraits} {Credentials : Type}.

Record ConnectionOptions := mkConnectionOptions {
  credentials_ : Credentials;
  endpoint_ : string;
  num_channels_ : Z;
  tracing_components_ : gset string;
  tracing_options_ : TracingOptions;
  channel_pool_domain_ : string;
  user_agent_prefix_ : string;
  background_threads_factory_ : BackgroundThreads;
}.
Implicit Types (o : ConnectionOptions).

Definition ConnectionOptions_new (env : environment) (credentials : Credentials) :
    cxx ConnectionOptions :=
  components ← DefaultTracingComponents env;
  tracing ← DefaultTracingOptions env;
  Ret (mkConnectionOptions credentials default_endpoint default_num_channels components tracing
    "" default_user_agent_prefix DefaultBackgroundThreads).

Definition set_credentials (v : Credentials) o : ConnectionOptions :=
  mkConnectionOptions v (endpoint_ o) (num_channels_ o) (tracing_components_ o)
    (tracing_options_ o) (channel_pool_domain_ o) (user_agent_prefix_ o)
    (background_threads_factory_ o).
Definition set_endpoint (v : string) o : ConnectionOptions :=
  mkConnectionOptions (credentials_ o) v (num_channels_ o) (tracing_components_ o)
    (tracing_options_ o) (channel_pool_domain_ o) (user_agent_prefix_ o)
    (background_threads_factory_ o).
Definition set_num_channels (v : Z) o : ConnectionOptions :=
  mkConnectionOptions (credentials_ o) (endpoint_ o) v (tracing_components_ o)
    (tracing_options_ o) (channel_pool_domain_ o) (user_agent_prefix_ o)
    (background_threads_factory_ o).
Definition set_tracing_components (v : gset string) o : ConnectionOptions :=
  mkConnectionOptions (credentials_ o) (endpoint_ o) (num_channels_ o) v
    (tracing_options_ o) (channel_pool_domain_ o) (user_agent_prefix_ o)
    (background_threads_factory_ o).
Definition enable_tracing (component : string) o : ConnectionOptions :=
  set_tracing_components ({[component]} ∪ tracing_components_ o) o.
Definition disable_tracing (component : string) o : ConnectionOptions :=
  set_tracing_components (tracing_components_ o ∖ {[component]}) o.
Definition tracing_enabled (component : string) o : bool :=
  bool_decide (component ∈ tracing_components_ o).
Definition set_channel_pool_domain (v : string) o : ConnectionOptions :=
  mkConnectionOptions (credentials_ o) (endpoint_ o) (num_channels_ o) (tracing_components_ o)
    (tracing_options_ o) v (user_agent_prefix_ o) (background_threads_factory_ o).
Definition add_user_agent_prefix (prefix : string) o : ConnectionOptions :=
  let prefix := prefix +:+ " " in
  let prefix := prefix +:+ user_agent_prefix_ o in
  mkConnectionOptions (credentials_ o) (endpoint_ o) (num_channels_ o) (tracing_components_ o)
    (tracing_options_ o) (channel_pool_domain_ o) prefix (background_threads_factory_ o).
Definition DisableBackgroundThreads (cq : nat) o : ConnectionOptions :=
  mkConnectionOptions (credentials_ o) (endpoint_ o) (num_channels_ o) (tracing_components_ o)
    (tracing_options_ o) (channel_pool_domain_ o) (user_agent_prefix_ o)
    (CustomerSuppliedBackgroundThreads cq).

(** The calls on a new [grpc::ChannelArguments]. *)
Inductive channel_argument :=
| SetString (key value : string)
| SetUserAgentPrefix (prefix : string).
Definition CreateChannelArguments o : list channel_argument :=
  (if negb (bool_decide (channel_pool_domain_ o = ""))
   then [SetString "grpc.channel_pooling_domain" (channel_pool_domain_ o)] else [])
  ++ [SetUserAgentPrefix (user_agent_prefix_ o)].

(** A program that configures an object. *)
Inductive setter :=
| SetCredentials (v : Credentials)
| SetEndpoint (v : string)
| SetNumChannels (v : Z)
| EnableTracing (component : string)
| DisableTracing (component : string)
| SetChannelPoolDomain (v : string)
| AddUserAgentPrefix (prefix : string)
| CallDisableBackgroundThreads (cq : nat).
Definition run_setter (x : setter) : ConnectionOptions → ConnectionOptions :=
  match x with
  | SetCredentials v => set_credentials v
  | SetEndpoint v => set_endpoint v
  | SetNumChannels v => set_num_channels v
  | EnableTracing c => enable_tracing c
  | DisableTracing c => disable_tracing c
  | SetChannelPoolDomain v => set_channel_pool_domain v
  | AddUserAgentPrefix p => add_user_agent_prefix p
  | CallDisableBackgroundThreads cq => DisableBackgroundThreads cq
  end.
Definition configure (l : list setter) o : ConnectionOptions := foldl (λ o x, run_setter x o) o l.

(** ** The specification: what the calls of each kind leave *)
Definition of_kind {A} (f : setter → option A) (l : list setter) (d : A) : A :=
  default d (last (omap f l)).
Definition credentials_of x := if x is SetCredentials v then Some v else None.
Definition endpoint_of x := if x is SetEndpoint v then Some v else None.
Definition num_channels_of x := if x is SetNumChannels v then Some v else None.
Definition domain_of x := if x is SetChannelPoolDomain v then Some v else None.
Definition prefix_of x := if x is AddUserAgentPrefix v then Some v else None.
Definition factory_of x :=
  if x is CallDisableBackgroundThreads cq then Some (CustomerSuppliedBackgroundThreads cq) else None.
Definition tracing_of (component : string) x : option bool :=
  match x with
  | EnableTracing c => if bool_decide (c = component) then Some true else None
  | DisableTracing c => if bool_decide (c = component) then Some false else None
  | _ => None
  end.
Definition configured (l : list setter) o : ConnectionOptions → Prop := λ o',
  credentials_ o' = of_kind credentials_of l (credentials_ o) ∧
  endpoint_ o' = of_kind endpoint_of l (endpoint_ o) ∧
  num_channels_ o' = of_kind num_channels_of l (num_channels_ o) ∧
  (∀ c, tracing_enabled c o' = of_kind (tracing_of c) l (tracing_enabled c o)) ∧
  tracing_options_ o' = tracing_options_ o ∧
  channel_pool_domain_ o' = of_kind domain_of l (channel_pool_domain_ o) ∧
  user_agent_prefix_ o' = String.concat " " (rev (omap prefix_of l) ++ [user_agent_prefix_ o]) ∧
  background_threads_factory_ o' = of_kind factory_of l (background_threads_factory_ o).
End options.
Arguments ConnectionOptions : clear implicits.
Arguments setter : clear implicits.

(** The components that the environment names: the texts between the commas, of which an
    empty one at the end does not count. *)
Definition components (text : string) : list string :=
  text_of <$> pieces (split "," (chars_of text)).

(** ** Lemmas *)

Lemma of_kind_cons {C A} (f : setter C → option A) x l d :
  of_kind f (x :: l) d = of_kind f l (default d (f x)).
Proof.
  unfold of_kind. simpl. destruct (f x); [|done]. apply last_default_cons.
Qed.

Lemma prefix_concat p ps s :
  String.concat " " (ps ++ [p +:+ " " +:+ s]) = String.concat " " (ps ++ [p; s]).
Proof.
  induction ps as [|q ps IH]; [done|]. simpl in *. rewrite IH. by destruct ps.
Qed.

Lemma configure_spec {C} (l : list (setter C)) (o : ConnectionOptions C) :
  configured l o (configure l o).
Proof.
  revert o. induction l as [|x l IH]; intros o; [by unfold configured, of_kind; split_and!|].
  destruct (IH (run_setter x o)) as (H1 & H2 & H3 & H4 & H5 & H6 & H7 & H8).
  change (configure (x :: l) o) with (configure l (run_setter x o)).
  unfold configured. split_and!.
  - rewrite of_kind_cons, H1. by destruct x.
  - rewrite of_kind_cons, H2. by destruct x.
  - rewrite of_kind_cons, H3. by destruct x.
  - intros c. rewrite of_kind_cons, (H4 c). f_equal. unfold tracing_enabled.
    destruct x as [v|v|v|c'|c'|v|v|v]; simpl; try done; destruct (decide (c' = c)) as [->|Hne];
      try rewrite (bool_decide_true (c = c)) by done;
      try rewrite (bool_decide_false (c' = c)) by done; simpl;
      first [apply bool_decide_true; set_solver|apply bool_decide_false; set_solver
            |apply bool_decide_ext; set_solver].
  - rewrite H5. by destruct x.
  - rewrite of_kind_cons, H6. by destruct x.
  - rewrite H7. destruct x; try done. simpl. rewrite <- app_assoc. simpl.
    rewrite <- prefix_concat. by rewrite string_app_assoc.
  - rewrite of_kind_cons, H8. by destruct x.
Qed.

Lemma insert_tokens_spec fuel is_ X :
  stream_size is_ < fuel →
  insert_tokens fuel is_ X = Ret (list_to_set (text_of <$> tokens "," is_) ∪ X).
Proof.
  revert is_ X. induction fuel as [|fuel IH]; intros is_ X Hf; [lia|]. cbn [insert_tokens].
  pose proof (getline_tokens "," is_) as Hg. destruct (getline "," is_) as [[token|] is'].
  - destruct Hg as [-> Hs]. rewrite IH by lia. simpl. f_equal. set_solver.
  - rewrite Hg. simpl. f_equal. set_solver.
Qed.

Lemma DefaultTracingComponents_spec env :
  DefaultTracingComponents env =
    Ret (match GetEnv "GOOGLE_CLOUD_CPP_ENABLE_TRACING" env with
         | Some text => list_to_set (components text)
         | None => ∅
         end).
Proof.
  unfold DefaultTracingComponents. destruct (GetEnv _ env) as [text|]; [|done].
  rewrite insert_tokens_spec by (unfold stream_size; simpl; lia). f_equal. by rewrite union_empty_r_L.
Qed.

(** ** Properties *)

(** C40: a new object has the given credentials, the endpoint, the number of channels and the
    user agent of the traits, no channel pool domain and a factory that creates the
    background threads.  Tracing comes from the environment: it is enabled for exactly the components that [GOOGLE_CLOUD_CPP_ENABLE_TRACING] names, and
    the constructor fails exactly when [GOOGLE_CLOUD_CPP_TRACING_OPTIONS] has an integer
    that [std::stoll] refuses.  After any sequence of calls each option has the value of
    the last call that sets it, the user agent is the prefixes added, the last one first,
    before the one of the traits, and the channel arguments have both. *)
Theorem connection_options `{ConnectionTraits} {C} (env : environment) (credentials : C) :
  match match GetEnv "GOOGLE_CLOUD_CPP_TRACING_OPTIONS" env with
        | Some text => SetOptions text TracingOptions_default
        | None => (TracingOptions_default, Ret ())
        end with
  | (tracing, Ret _) => ∃ o,
      ConnectionOptions_new env credentials = Ret o ∧ tracing_options_ o = tracing ∧
      credentials_ o = credentials ∧ endpoint_ o = default_endpoint ∧
      num_channels_ o = default_num_channels ∧ channel_pool_domain_ o = "" ∧
      user_agent_prefix_ o = default_user_agent_prefix ∧
      background_threads_factory_ o = AutomaticallyCreatedBackgroundThreads ∧
      (∀ c, tracing_enabled c o = true ↔
        ∃ text, GetEnv "GOOGLE_CLOUD_CPP_ENABLE_TRACING" env = Some text ∧ c ∈ components text) ∧
      ∀ l, configured l o (configure l o) ∧
        CreateChannelArguments (configure l o) =
          (let domain := of_kind domain_of l "" in
           if decide (domain = "") then [] else [SetString "grpc.channel_pooling_domain" domain])
          ++ [SetUserAgentPrefix
               (String.concat " " (rev (omap prefix_of l) ++ [default_user_agent_prefix]))]
  | (_, Throw e) => ConnectionOptions_new env credentials = Throw e
  | _ => False
  end.
Proof.
  set (options := match GetEnv "GOOGLE_CLOUD_CPP_TRACING_OPTIONS" env with
    | Some text => SetOptions text TracingOptions_default | None => _ end).
  assert (DefaultTracingOptions env = (_ ← options.2; Ret options.1)) as Hopt.
  { unfold DefaultTracingOptions, options. destruct (GetEnv _ env); [|done].
    by destruct (SetOptions _ _). }
  assert ((∃ e, options.2 = Throw e) ∨ options.2 = Ret ()) as Hcases.
  { unfold options. destruct (GetEnv _ env) as [text|]; [|by right]. rewrite SetOptions_settings.
    destruct (apply_settings_effect (settings text) TracingOptions_default)
      as (d & [|x r] & _ & _ & _ & Hr); [by right|]. destruct Hr as (e & _ & ?). left. by exists e. }
  unfold ConnectionOptions_new. rewrite DefaultTracingComponents_spec, bind_Ret, Hopt.
  destruct options as [tracing m]. simpl in Hcases |- *.
  destruct Hcases as [[e ->]| ->]; [done|]. simpl.
  eexists. split_and!; try done.
  - intros c. unfold tracing_enabled. rewrite bool_decide_eq_true. simpl.
    destruct (GetEnv _ env) as [text|]; [rewrite elem_of_list_to_set|]; set_solver.
  - intros l. set (o := mkConnectionOptions _ _ _ _ _ _ _ _).
    pose proof (configure_spec l o) as Hl. split; [done|].
    destruct Hl as (_ & _ & _ & _ & _ & Hd & Hp & _). unfold CreateChannelArguments.
    rewrite Hp, Hd. simpl. case_bool_decide; case_decide; done.
Qed.

(** The examples of connection_options_test.cc. *)
Lemma connection_options_examples :
  components "foo,bar,baz" = ["foo"; "bar"; "baz"] ∧ components "foo,,bar," = ["foo"; ""; "bar"] ∧
  components "" = [].
Proof. split_and!; vm_compute; reflexivity. Qed.
