(* ===== verification/BackgroundThreads.v ===== *)
(** * Background threads (background_threads.h, internal/background_threads_impl.h, .cc)

    [AutomaticallyCreatedBackgroundThreads]: a completion queue and the thread that runs
    it, over the machine of [CompletionQueue.v].  Thread 0 is the runner, thread 1 the
    owner of the object; the other threads are of the application, which uses the queue
    but leaves running it to the object. *)

From S2P Require Import Prelude Throw CompletionQueue.

Set Default Proof Using "Type".

Section background.
Context {Op R C : Type} `{Build} `{Operations Op R C}.
Context (address : gset Z → Z).

(** Where the owner is in [Shutdown()], which the destructor calls too. *)
Inductive owner :=
| Idle          (* not in [Shutdown()] *)
| FlagSet       (* in [cq_.Shutdown()] *)
| Joining.      (* [cq_.Shutdown()] has returned *)

(** [joinable]: the thread [runner_] has not been joined. *)
Record background := mkBackground {
  machine : config Op R C;
  owner_at : owner;
  joinable : bool;
}.

(** The constructor starts the runner, in [cq.Run()]. *)
Definition background_new (c : C) (n : nat) : background :=
  mkBackground (queue_new c, Polling :: replicate (S n) Application) Idle true.

Inductive background_step : background → background → Prop :=
(** Any thread runs on; the owner only outside of [Shutdown()]. *)
| ThreadRuns q ts o j i t ch q' t' :
    ts !! i = Some t → thread_step address q t ch = Some (q', t') → ch ≠ CallRun →
    (i = 1 → o = Idle) →
    background_step (mkBackground (q, ts) o j) (mkBackground (q', <[i := t']> ts) o j)
| ShutdownCalled q ts j q' t' :
    ts !! 1 = Some Application → thread_step address q Application CallShutdown = Some (q', t') →
    background_step (mkBackground (q, ts) Idle j) (mkBackground (q', <[1 := t']> ts) FlagSet j)
| ShutdownReturns q ts j t q' t' :
    ts !! 1 = Some t → thread_step address q t Go = Some (q', t') →
    background_step (mkBackground (q, ts) FlagSet j) (mkBackground (q', <[1 := t']> ts) Joining j)
(** [if (runner_.joinable()) runner_.join()]. *)
| RunnerJoined q ts :
    ts !! 0 = Some Stopped →
    background_step (mkBackground (q, ts) Joining true) (mkBackground (q, ts) Idle false)
| AlreadyJoined q ts :
    background_step (mkBackground (q, ts) Joining false) (mkBackground (q, ts) Idle false).

Definition background_reachable (c : C) (n : nat) (s : background) : Prop :=
  rtc background_step (background_new c n) s.
End background.
Arguments background : clear implicits.

(** ** Lemmas *)
Section lemmas.
Context {Op R C : Type} `{Build} `{Operations Op R C}.
Context (address : gset Z → Z) (address_fresh : ∀ X, address X ∉ X).
Set Default Proof Using "All".

Lemma stopped_by q t ch q' :
  thread_step address q t ch = Some (q', Stopped) → cq_shutdown q' = true ∧ outstanding q' = ∅.
Proof.
  unfold thread_step, after. intros Ht.
  destruct t, ch; try done; try (destruct (issue o (client q)); [simpl in Ht|done]);
    cases; bool_props; done.
Qed.

(** Once a thread has left [Run()], gRPC's queue is shut down and drained. *)
Lemma stopped_drained c n s :
  reachable address c n s → Stopped ∈ s.2 → cq_shutdown s.1 = true ∧ outstanding s.1 = ∅.
Proof.
  revert s. apply (rtc_ind_r (λ s, Stopped ∈ s.2 → cq_shutdown s.1 = true ∧ outstanding s.1 = ∅)).
  - intros Hin%elem_of_replicate. by destruct Hin.
  - intros s1 s2 Hr Hstep IH [j Hj]%list_elem_of_lookup_1. destruct s1 as [q1 ts1], s2 as [q2 ts2].
    pose proof (shutdown_drains address address_fresh c n q1 ts1 q2 ts2 Hr Hstep) as Hd.
    inversion Hstep as [q ts i t ch q' t' Hi Ht]; subst. simpl in *.
    destruct (decide (j = i)) as [->|Hne].
    + rewrite list_lookup_insert_eq in Hj by (by eapply lookup_lt_Some). simplify_eq.
      by eapply stopped_by.
    + rewrite list_lookup_insert_ne in Hj by done. apply list_elem_of_lookup_2 in Hj.
      destruct (IH Hj) as [Hsh Ho]. destruct (Hd Hsh). split; [done|]. set_solver.
Qed.

(** The object's threads are threads of the queue's machine. *)
Lemma background_machine c n s :
  background_reachable address c n s → reachable address c (S (S n)) (machine s).
Proof.
  revert s. apply (rtc_ind_r (λ s, reachable address c (S (S n)) (machine s))).
  - apply rtc_once. apply (step_thread address (queue_new c) (replicate (S (S n)) Application) 0
      Application CallRun); done.
  - intros s1 s2 _ Hstep IH. destruct Hstep; cbn [machine] in *; try done; (eapply rtc_r; [exact IH|]); by econstructor.
Qed.

(** Where a thread can be that is in [Run()] and never leaves it but to stop, and where a
    thread can be that never calls it. *)
Definition runs (t : thread Op R) : bool :=
  match t with Polling | Stopped => true | _ => bool_decide (is_Some (held t)) end.
Definition elsewhere (t : thread Op R) : bool :=
  match t with Application | Starting _ | ShuttingDown | Cancelling _ => true | _ => false end.

Lemma runs_runs q t ch q' t' :
  thread_step address q t ch = Some (q', t') → runs t = true → (∀ m, t' ≠ Failed m) → runs t' = true.
Proof.
  unfold thread_step, after. intros Ht Hr Hf.
  destruct t, ch; simplify_eq/=; cases; try done.
  all: exfalso; by eapply Hf.
Qed.

Lemma elsewhere_elsewhere q t ch q' t' :
  thread_step address q t ch = Some (q', t') → ch ≠ CallRun → elsewhere t = true →
  (∀ m, t' ≠ Failed m) → elsewhere t' = true.
Proof.
  unfold thread_step, after. intros Ht ? Hr Hf.
  destruct t, ch; try done; try (destruct (issue o (client q)); [simpl in Ht|done]);
    simplify_eq/=; cases; try done; exfalso; by eapply Hf.
Qed.

Record background_inv (s : background Op R C) : Prop := {
  bi_runner : ∃ t, (machine s).2 !! 0 = Some t ∧ runs t = true ∧ (joinable s = false → t = Stopped);
  bi_others : ∀ i t, (machine s).2 !! S i = Some t → elsewhere t = true;
}.

Lemma background_inv_thread q ts o j o' j' i t ch q' t' :
  background_inv (mkBackground (q, ts) o j) → (j' = false → j = false) →
  ts !! i = Some t → thread_step address q t ch = Some (q', t') → ch ≠ CallRun →
  (∀ m, t' ≠ Failed m) →
  background_inv (mkBackground (q', <[i := t']> ts) o' j').
Proof.
  intros [(t0 & Ht0 & Hr0 & Hj) Ho] Hjj Hi Ht Hch Hf. simpl in *. split; simpl.
  - destruct (decide (i = 0)) as [->|Hne].
    + rewrite Hi in Ht0. simplify_eq. exists t'. rewrite list_lookup_insert_eq by (by eapply lookup_lt_Some).
      split; [done|]. split; [by eapply runs_runs|]. intros ->. rewrite (Hj (Hjj eq_refl)) in Ht.
      by destruct ch.
    + exists t0. rewrite list_lookup_insert_ne by done. auto.
  - intros k u Hk. destruct (decide (i = S k)) as [->|Hne].
    + rewrite list_lookup_insert_eq in Hk by (by eapply lookup_lt_Some). simplify_eq.
      eapply elsewhere_elsewhere; eauto.
    + rewrite list_lookup_insert_ne in Hk by done. eauto.
Qed.

Lemma background_reachable_inv c n s : background_reachable address c n s → background_inv s.
Proof.
  intros Hr. assert (background_reachable address c n s → background_inv s) as Hgen; [|auto].
  clear Hr. revert s. unfold background_reachable.
  apply (rtc_ind_r background_inv).
  - split; [by exists Polling|]. cbn [machine background_new snd lookup list_lookup]. intros i t Hi.
    apply (lookup_replicate (S n)) in Hi as [-> _]. done.
  - intros s1 s2 Hr Hstep Hi.
    assert (reachable address c (S (S n)) (machine s2)) as Hm.
    { apply background_machine. by eapply rtc_r. }
    assert (∀ q ts i t m, machine s2 = (q, <[i := t]> ts) → i < length ts → t ≠ Failed m) as Hf.
    { intros q ts i t m Hs Hlt ->. rewrite Hs in Hm.
      pose proof (reachable_inv address address_fresh _ _ _ Hm) as Hc. simpl in Hc.
      apply (cinv_threads _ _ Hc (Failed m)). apply (list_elem_of_lookup_2 _ i).
      by apply list_lookup_insert_eq. }
    destruct Hstep.
    + eapply background_inv_thread; eauto using lookup_lt_Some.
    + eapply background_inv_thread; eauto using lookup_lt_Some.
    + eapply background_inv_thread; eauto using lookup_lt_Some.
    + destruct Hi as [(t & Ht & ? & _) Ho]. split; [|done]. exists t. split_and!; try done.
      intros _. simpl in *. congruence.
    + destruct Hi as [(t & Ht & ? & ?) Ho]. split; [|done]. by exists t.
Qed.
End lemmas.

(** ** Schedules *)
Section schedule.
Context {Op R C : Type} `{Build} `{Operations Op R C}.
Context (address : gset Z → Z).

Inductive turn := ThreadTurn (i : nat) (ch : choice Op R) | CallTurn | ReturnTurn | JoinTurn.

Definition take_turn (u : turn) (s : background Op R C) : option (background Op R C) :=
  let '(q, ts) := machine s in
  match u, owner_at s with
  | ThreadTurn i ch, o =>
      if match ch with CallRun => true | _ => false end
         || bool_decide (i = 1) && match o with Idle => false | _ => true end then None
      else
        t ← ts !! i; '(q', t') ← thread_step address q t ch;
        Some (mkBackground (q', <[i := t']> ts) o (joinable s))
  | CallTurn, Idle =>
      match ts !! 1 with
      | Some Application =>
          '(q', t') ← thread_step address q Application CallShutdown;
          Some (mkBackground (q', <[1 := t']> ts) FlagSet (joinable s))
      | _ => None
      end
  | ReturnTurn, FlagSet =>
      t ← ts !! 1; '(q', t') ← thread_step address q t Go;
      Some (mkBackground (q', <[1 := t']> ts) Joining (joinable s))
  | JoinTurn, Joining =>
      match joinable s, ts !! 0 with
      | false, _ | true, Some Stopped => Some (mkBackground (q, ts) Idle false)
      | _, _ => None
      end
  | _, _ => None
  end.
Fixpoint take_turns (us : list turn) (s : background Op R C) : option (background Op R C) :=
  match us with [] => Some s | u :: us => s ← take_turn u s; take_turns us s end.

Lemma take_turn_step u s s' : take_turn u s = Some s' → background_step address s s'.
Proof.
  destruct s as [[q ts] o j]. unfold take_turn. cbn [machine owner_at joinable].
  destruct u as [i ch| | |].
  - destruct (match ch with CallRun => true | _ => false end) eqn:Hch; [done|].
    destruct (bool_decide (i = 1) && _) eqn:Hi; [done|]. simpl.
    destruct (ts !! i) as [t|] eqn:Hti; [|done]. simpl.
    destruct (thread_step address q t ch) as [[q' t']|] eqn:Hs; [|done]. intros [= <-].
    eapply ThreadRuns; [done|done|by intros ->|]. intros ->. rewrite bool_decide_true in Hi by done.
    by destruct o.
  - destruct o; [|done|done]. destruct (ts !! 1) as [[]|] eqn:Hti; try done. intros [= <-].
    by eapply ShutdownCalled.
  - destruct o; [done| |done]. destruct (ts !! 1) as [t|] eqn:Hti; [|done]. simpl.
    destruct (thread_step address q t Go) as [[q' t']|] eqn:Hs; [|done]. intros [= <-].
    by eapply ShutdownReturns.
  - destruct o; [done|done|]. destruct j; [|intros [= <-]; apply AlreadyJoined].
    destruct (ts !! 0) as [[]|] eqn:Hti; try done. intros [= <-]. by apply RunnerJoined.
Qed.

Lemma take_turns_reachable c n us s s' :
  background_reachable address c n s → take_turns us s = Some s' →
  background_reachable address c n s'.
Proof.
  revert s. induction us as [|u us IH]; intros s Hr Hs; simplify_eq/=; [done|].
  destruct (take_turn u s) as [s1|] eqn:Hu; simplify_eq/=. apply (IH s1); [|done].
  eapply rtc_r; [exact Hr|]. by eapply take_turn_step.
Qed.
End schedule.
Arguments turn : clear implicits.

(** ** Properties *)

(** C26: when [Shutdown()], or the destructor, has joined the runner, gRPC's queue is shut
    down and drained and every operation that the application ever started has been
    notified exactly once: the object does not abandon operations, whichever threads
    started them and whenever, also during and after the shutdown. *)
Theorem background_threads_drain {Op R C : Type} `{Build} `{Operations Op R C}
    (address : gset Z → Z) (c : C) (n : nat) (q : queue Op C) (ts : list (thread Op R)) (o : owner) :
  (∀ X, address X ∉ X) →
  background_reachable address c n (mkBackground (q, ts) o false) →
  cq_shutdown q = true ∧ outstanding q = ∅ ∧
  ∀ x, x < next_obj q → notified x (log q) = 1.
Proof.
  intros Hfresh Hr. pose proof (background_machine address Hfresh _ _ _ Hr) as Hm. simpl in Hm.
  destruct (background_reachable_inv address Hfresh _ _ _ Hr) as [(t & Ht & _ & Hj) Ho].
  simpl in *. rewrite (Hj eq_refl) in Ht.
  destruct (stopped_drained address Hfresh _ _ _ Hm) as [Hsh Hout];
    [by eapply list_elem_of_lookup_2|]. simpl in *.
  split_and!; [done|done|]. intros x Hx.
  apply (notified_once address Hfresh _ _ _ _ _ Hm Hx); [done|].
  intros t' [[|i] Hi]%list_elem_of_lookup_1; [by simplify_eq|].
  specialize (Ho _ _ Hi). by destruct t'.
Qed.

(** An operation is pending when the owner shuts down, one is started after that. *)
Definition example_turns : list (turn request (rpc_result nat)) :=
  [ThreadTurn 2 (Start (MakeUnaryRpc 10)); ThreadTurn 2 Go; ThreadTurn 2 Go; CallTurn;
   ThreadTurn 2 (Start (MakeUnaryRpc 11)); ThreadTurn 2 Go; ThreadTurn 2 Go;
   ReturnTurn; ThreadTurn 0 (Event 0 true (example_result 5)); ThreadTurn 0 Go; ThreadTurn 0 Go;
   ThreadTurn 0 Go; ThreadTurn 0 Go; ThreadTurn 0 Go; ThreadTurn 0 ShutdownEvent; JoinTurn].

Lemma background_threads_drain_witness : ∃ q ts o,
  background_reachable (H := example_build) (H0 := example_requests) fresh
    (no_requests (T := nat)) 2 (mkBackground (q, ts) o false) ∧
  notified 0 (log q) = 1 ∧ notified 1 (log q) = 1.
Proof.
  destruct (take_turns (H := example_build) (H0 := example_requests) fresh example_turns
    (background_new (no_requests (T := nat)) 2)) as [[[q ts] o [|]]|] eqn:Hs;
    [vm_compute in Hs; discriminate Hs| |vm_compute in Hs; discriminate Hs].
  assert (background_reachable (H := example_build) (H0 := example_requests) fresh
    (no_requests (T := nat)) 2 (mkBackground (q, ts) o false)) as Hr.
  { eapply take_turns_reachable; [apply rtc_refl|exact Hs]. }
  destruct (background_threads_drain (H := example_build) (H0 := example_requests) fresh
    (no_requests (T := nat)) 2 q ts o (λ X, is_fresh X) Hr) as (_ & _ & Hn).
  exists q, ts, o. split; [exact Hr|].
  assert (next_obj q = 2) as Hx by (vm_compute in Hs; injection Hs as <- <- <-; reflexivity).
  split; apply Hn; rewrite Hx; lia.
Defined.
