(* ===== verification/Pagination.v ===== *)
(** * Pagination (internal/pagination_range.h)

    [PaginationRange] and its iterators, over a service that answers requests for pages.
    The loader, the accessors of requests and responses and [get_items] are arguments, as
    they are in the code: the first and the last are functions of the client library, the
    others are generated from protos. *)

From S2P Require Import Prelude Status.

Set Default Proof Using "Type".

Section pagination.
Context {T Request Response W : Type}.
Context (set_page_token : string → Request → Request).
(** The token of a response, and the response once the token was moved out. *)
Context (next_page_token : Response → string) (without_token : Response → Response).
(** A call of the service changes the world [W]. *)
Context (next_page_loader : Request → W → (Status + Response) * W).
Context (get_items : Response → list T).

(** [current_] is the position in [current_page_]. *)
Record PaginationRange := mkRange {
  request_ : Request;
  current_page_ : list T;
  current_ : nat;
  next_page_token_ : string;
  on_last_page_ : bool;
}.
(** [owner_]: not null. *)
Record PaginationIterator := mkIterator { owner_ : bool; value_ : Status + T }.
Implicit Types (g : PaginationRange) (it : PaginationIterator) (w : W).

Definition PaginationRange_new (request : Request) : PaginationRange :=
  mkRange request [] 0 "" false.

Definition kPastTheEndError : Status :=
  mkStatus kFailedPrecondition "Cannot iterating past the end of ListObjectReader".
Definition past_the_end : PaginationIterator := mkIterator false (inl kPastTheEndError).
(** [end()]: the default value of a [StatusOr]. *)
Definition end_ : PaginationIterator := mkIterator false (inl (mkStatus kUnknown "default")).

(** The iterator with the current item, which is moved out; then [current_++]. *)
Definition take_current g w : outcome Empty_set (PaginationIterator * PaginationRange * W) :=
  match current_page_ g !! current_ g with
  | Some x =>
      Ret (mkIterator true (inr x),
           mkRange (request_ g) (current_page_ g) (S (current_ g)) (next_page_token_ g)
             (on_last_page_ g), w)
  | None => Undefined BadIndex
  end.

Definition GetNext g w : outcome Empty_set (PaginationIterator * PaginationRange * W) :=
  if bool_decide (length (current_page_ g) = current_ g) then
    if on_last_page_ g then Ret (past_the_end, g, w)
    else
      let request := set_page_token (next_page_token_ g) (request_ g) in
      let '(response, w) := next_page_loader request w in
      match response with
      | inl status => Ret (mkIterator true (inl status), mkRange request [] 0 "" true, w)
      | inr response =>
          let token := next_page_token response in
          let page := get_items (without_token response) in
          let g := mkRange request page 0 token (bool_decide (token = "")) in
          if bool_decide (length page = 0) then Ret (past_the_end, g, w)
          else take_current g w
      end
  else take_current g w.

Definition begin_ g w := GetNext g w.
(** [operator++]. *)
Definition increment it g w : outcome Empty_set (PaginationIterator * PaginationRange * W) :=
  if owner_ it then GetNext g w else Undefined NullDereference.

(** [operator++(int)]: the copy that it returns comes first. *)
Definition post_increment it g w : outcome Empty_set
    (PaginationIterator * PaginationIterator * PaginationRange * W) :=
  '(it', g, w) ← increment it g w; Ret (it, it', g, w).

(** [operator==] of iterators of one range; messages are compared by value. *)
Definition iterator_eq (equals : T → T → bool) (lhs rhs : PaginationIterator) : bool :=
  if negb (Bool.eqb (owner_ lhs) (owner_ rhs)) then false
  else if negb (owner_ lhs) then true
  else match value_ lhs, value_ rhs with
       | inr a, inr b => equals a b
       | inl _, inl _ => true
       | _, _ => false
       end.

(** [for (auto& v : range) ...]: the values that the body sees. *)
Fixpoint range_for (equals : T → T → bool) (fuel : nat) it g w :
    option (outcome Empty_set (list (Status + T) * PaginationRange * W)) :=
  if iterator_eq equals it end_ then Some (Ret ([], g, w))
  else
    match fuel with
    | 0 => None
    | S fuel =>
        match increment it g w with
        | Ret (it', g, w) =>
            m ← range_for equals fuel it' g w;
            Some ('(vs, g, w) ← m; Ret (value_ it :: vs, g, w))
        | Undefined u => Some (Undefined u)
        | _ => None
        end
    end.
Definition for_each (equals : T → T → bool) (fuel : nat) g w :
    option (outcome Empty_set (list (Status + T) * PaginationRange * W)) :=
  match begin_ g w with
  | Ret (it, g, w) => range_for equals fuel it g w
  | Undefined u => Some (Undefined u)
  | _ => None
  end.

(** ** The specification: the pages that the service gives, one request after the other *)

(** The items of at most [n] more pages, the error that ends them, if any, and the world
    after the last request; the request carries the token of the page before.  [None] when
    there are more pages. *)
Fixpoint listing (n : nat) (token : string) (request : Request) w :
    option (list (list T) * option Status * W) :=
  match n with
  | 0 => None
  | S n =>
      let request := set_page_token token request in
      let '(response, w) := next_page_loader request w in
      match response with
      | inl status => Some ([], Some status, w)
      | inr response =>
          let page := get_items (without_token response) in
          let token := next_page_token response in
          if decide (token = "") then Some ([page], None, w)
          else '(pages, error, w) ← listing n token request w; Some (page :: pages, error, w)
      end
  end.
(** Every page has items, except perhaps the last page of a listing without error. *)
Fixpoint full_pages (pages : list (list T)) (error : option Status) : bool :=
  match pages with
  | [] => true
  | page :: rest =>
      (negb (bool_decide (page = [])) || bool_decide (rest = []) && bool_decide (error = None))
      && full_pages rest error
  end.
Definition listed (pages : list (list T)) (error : option Status) : list (Status + T) :=
  (inr <$> mjoin pages) ++ (inl <$> option_list error).

(** ** Lemmas *)
Context (equals : T → T → bool).

(** A loop in the middle of a page. *)
Lemma range_for_page xs x page pos fuel request token last_ w :
  drop pos page = xs → length xs + pos = length page →
  range_for equals (S (length xs) + fuel) (mkIterator true (inr x))
      (mkRange request page pos token last_) w =
    match GetNext (mkRange request page (length page) token last_) w with
    | Ret (it, g, w) =>
        m ← range_for equals fuel it g w;
        Some ('(vs, g, w) ← m; Ret (inr x :: (inr <$> xs) ++ vs, g, w))
    | Undefined u => Some (Undefined u)
    | _ => None
    end.
Proof.
  revert pos x. induction xs as [|y xs IH]; intros pos x Hd Hl.
  - simpl in Hl. subst pos. simpl.
    reflexivity.
  - simpl in Hl. assert (page !! pos = Some y) as Hy.
    { rewrite <- (Nat.add_0_r pos), <- lookup_drop, Hd. done. }
    assert (GetNext (mkRange request page pos token last_) w =
      Ret (mkIterator true (inr y), mkRange request page (S pos) token last_, w)) as Hg.
    { unfold GetNext, take_current. simpl. rewrite bool_decide_false by lia. by rewrite Hy. }
    change (S (length (y :: xs)) + fuel) with (S (S (length xs) + fuel)).
    cbn [range_for iterator_eq owner_ end_ Bool.eqb negb increment]. rewrite Hg.
    rewrite IH; [|by rewrite (drop_S _ _ _ Hy) in Hd; simplify_eq|lia].
    destruct (GetNext (mkRange _ _ (length page) _ _) w) as [[[it g] w']| | |]; [|done|done|done].
    simpl. destruct (range_for equals fuel it g w') as [[[[vs g'] w'']| | |]|]; done.
Qed.

Lemma listed_cons page pages error :
  listed (page :: pages) error = (inr <$> page) ++ listed pages error.
Proof. unfold listed. simpl. by rewrite fmap_app, app_assoc. Qed.

Lemma listing_nonempty n token request w pages error w' :
  listing n token request w = Some (pages, error, w') → pages = [] → error ≠ None.
Proof.
  destruct n as [|n]; [done|]. simpl. destruct (next_page_loader _ w) as [[s|r] w1]; intros Hl.
  - by simplify_eq.
  - case_decide; [by simplify_eq|]. destruct (listing n _ _ w1) as [[[ps e] w2]|]; by simplify_eq/=.
Qed.

(** The range has nothing left: it is past its last page. *)
Definition exhausted g : Prop :=
  on_last_page_ g = true ∧ length (current_page_ g) = current_ g.

Lemma GetNext_exhausted g w : exhausted g → GetNext g w = Ret (past_the_end, g, w).
Proof. intros [Hl Hp]. unfold GetNext. by rewrite bool_decide_true, Hl. Qed.

Lemma range_for_end fuel g w : range_for equals fuel past_the_end g w = Some (Ret ([], g, w)).
Proof. by destruct fuel. Qed.

(** The loop sees everything. *)
Definition sees_all fuel g w pages error w' : Prop :=
  full_pages pages error = true ∧
  ∃ g', for_each equals fuel g w = Some (Ret (listed pages error, g', w')) ∧ exhausted g'.
(** The loop stops at page [k], the first one without items; the range still has the
    pages behind it. *)
Definition stops_at_empty fuel g w pages error w' : Prop :=
  full_pages pages error = false ∧
  ∃ k g' w1 n, pages !! k = Some [] ∧ Forall (λ p, p ≠ []) (take k pages) ∧
    for_each equals fuel g w = Some (Ret (inr <$> mjoin (take k pages), g', w1)) ∧
    current_page_ g' = [] ∧ on_last_page_ g' = false ∧
    listing n (next_page_token_ g') (request_ g') w1 = Some (drop (S k) pages, error, w').

(** A page with items in front. *)
Lemma for_each_page fuel g1 g w1 w xs x pages error w' :
  (∀ fuel', length xs < fuel' → for_each equals fuel' g w =
    match for_each equals (fuel' - S (length xs)) g1 w1 with
    | Some m => Some ('(vs, g, w) ← m; Ret ((inr <$> x :: xs) ++ vs, g, w))
    | None => None
    end) → length xs < fuel →
  sees_all (fuel - S (length xs)) g1 w1 pages error w' ∨
    stops_at_empty (fuel - S (length xs)) g1 w1 pages error w' →
  sees_all fuel g w ((x :: xs) :: pages) error w' ∨
    stops_at_empty fuel g w ((x :: xs) :: pages) error w'.
Proof.
  intros Heq Hf [[Hfull (g' & Hg & Hex)]|[Hfull (k & g' & w2 & n & Hk & Ht & Hg & Hrest)]].
  - left. split; [done|]. exists g'. split; [|done]. rewrite Heq, Hg, listed_cons by done. done.
  - right. split; [done|]. exists (S k), g', w2, n. split_and!; try done.
    + simpl. by constructor.
    + rewrite Heq, Hg by done. simpl. by rewrite fmap_app.
    + apply Hrest.
    + apply Hrest.
    + apply Hrest.
Qed.

(** From the end of a page. *)
Lemma for_each_listing n g w pages error w' fuel :
  on_last_page_ g = false → length (current_page_ g) = current_ g →
  listing n (next_page_token_ g) (request_ g) w = Some (pages, error, w') →
  length (listed pages error) ≤ fuel →
  sees_all fuel g w pages error w' ∨ stops_at_empty fuel g w pages error w'.
Proof.
  revert g w pages error fuel. induction n as [|n IH]; intros g w pages error fuel Hl Hp Hn Hf;
    [done|].
  simpl in Hn.
  destruct (next_page_loader _ w) as [[s|r] w1] eqn:Hload; simplify_eq/=.
  { left. split; [done|]. unfold for_each, begin_, GetNext.
    rewrite bool_decide_true, Hl, Hload by done. destruct fuel as [|fuel]; [lia|].
    exists (mkRange (set_page_token (next_page_token_ g) (request_ g)) [] 0 "" true).
    split; [|done]. cbn [range_for iterator_eq owner_ end_ Bool.eqb negb increment].
    rewrite GetNext_exhausted by done. by rewrite range_for_end. }
  set (page := get_items (without_token r)) in *. set (token := next_page_token r) in *.
  set (request := set_page_token (next_page_token_ g) (request_ g)) in *.
  destruct page as [|x xs] eqn:Hpage.
  { unfold for_each, begin_, GetNext, sees_all, stops_at_empty, for_each, begin_, GetNext.
    rewrite bool_decide_true, Hl by done. fold request. rewrite Hload. fold page token.
    rewrite Hpage.
    rewrite bool_decide_true by done. rewrite range_for_end. case_decide as Ht; simplify_eq/=.
    - left. split; [done|]. eexists. split; [done|]. split; simpl; [by apply bool_decide_true|done].
    - destruct (listing n token request w1) as [[[ps e] w2]|] eqn:Hrest; simplify_eq/=.
      right. split.
      + destruct (bool_decide (ps = [])) eqn:Hps; [|done].
        apply bool_decide_eq_true in Hps. apply listing_nonempty in Hrest; [|done].
        by rewrite bool_decide_false.
      + exists 0. eexists _, w1, n. split_and!; try done. simpl. by apply bool_decide_false. }
  assert (∃ rest, pages = (x :: xs) :: rest ∧
    if decide (token = "") then rest = [] ∧ error = None ∧ w' = w1
    else listing n token request w1 = Some (rest, error, w')) as (rest & -> & Hrest).
  { case_decide as Ht; simplify_eq/=; [by exists []|].
    destruct (listing n token request w1) as [[[ps e] w2]|] eqn:Hr; simplify_eq/=.
    by exists ps. }
  rewrite listed_cons, length_app, length_fmap in Hf. simpl in Hf.
  set (g1 := mkRange request (x :: xs) (length (x :: xs)) token (bool_decide (token = ""))).
  apply (for_each_page fuel g1 g w1 w xs x); [|lia|].
  - intros fuel' Hf'. unfold for_each at 1, begin_, GetNext.
    rewrite bool_decide_true, Hl by done. fold request. rewrite Hload. fold page token.
    rewrite Hpage.
    rewrite bool_decide_false by done. unfold take_current. cbn [request_ current_page_
      current_ next_page_token_ on_last_page_ lookup list_lookup].
    replace fuel' with (S (length xs) + (fuel' - S (length xs))) at 1 by lia.
    rewrite (range_for_page xs) by (simpl; lia || done). fold g1.
    unfold for_each, begin_. by destruct (GetNext g1 w1) as [[[it g2] w2]| | |].
  - case_decide as Ht.
    + destruct Hrest as (-> & -> & ->). left. split; [done|]. exists g1. unfold for_each, begin_.
      assert (exhausted g1) as Hex by (split; [by apply bool_decide_true|done]).
      by rewrite GetNext_exhausted, range_for_end.
    + apply (IH g1); [by apply bool_decide_false|done|done|lia].
Qed.
End pagination.

(** ** Properties *)

(** C31: a range-for loop over a new [PaginationRange] of a service that lists finitely many
    pages ends.  When every page has items, except perhaps the last page of a listing without
    error, it sees every item that the service lists, in order, then the error that ended
    the listing, if any; each page is requested once, with the token of the page before, and
    afterwards no request is made any more, however often the range is advanced.
    Otherwise it sees the items of the pages before the first page without items, with one
    request for each page up to that one, and neither the items of the pages behind it nor
    the error: these are left for another loop over the range. *)
Theorem pagination_complete {T Request Response W} set_page_token next_page_token
    without_token (next_page_loader : Request → W → (Status + Response) * W)
    (get_items : Response → list T) (equals : T → T → bool)
    (n fuel : nat) (request : Request) (w w' : W) pages error :
  let list_pages := listing set_page_token next_page_token without_token next_page_loader
    get_items in
  let loop := for_each set_page_token next_page_token without_token next_page_loader get_items
    equals fuel in
  list_pages n "" request w = Some (pages, error, w') →
  length (listed pages error) ≤ fuel →
  (full_pages pages error = true →
   ∃ g, loop (PaginationRange_new request) w = Some (Ret (listed pages error, g, w')) ∧
     ∀ w2, GetNext set_page_token next_page_token without_token next_page_loader get_items g w2
       = Ret (past_the_end, g, w2)) ∧
  (full_pages pages error = false →
   ∃ k g w1 n', pages !! k = Some [] ∧ Forall (λ p, p ≠ []) (take k pages) ∧
     loop (PaginationRange_new request) w = Some (Ret (inr <$> mjoin (take k pages), g, w1)) ∧
     list_pages n' (next_page_token_ g) (request_ g) w1 = Some (drop (S k) pages, error, w')).
Proof.
  intros list_pages loop Hl Hf.
  destruct (for_each_listing set_page_token next_page_token without_token next_page_loader get_items
    equals n (PaginationRange_new request) w pages error w' fuel)
    as [[Hfull (g & Hg & Hex)]|[Hfull (k & g & w1 & n' & Hk & Ht & Hg & _ & _ & Hr)]]; try done;
    rewrite Hfull; split; try done; intros _.
  - exists g. split; [exact Hg|]. intros w2. by apply GetNext_exhausted.
  - by exists k, g, w1, n'.
Qed.

(** A service for the examples: a request is a token, a response the next token and the
    items; the world counts the requests. *)
Definition example_loader (pages : list (string * (Status + (string * list nat))))
    (request : string) (w : nat) : (Status + (string * list nat)) * nat :=
  (default (inl (mkStatus kNotFound "no page")) (snd <$> list_find (λ p, p.1 = request) pages
    ≫= λ p, Some p.2), S w).

Definition example_pages : list (string * (Status + (string * list nat))) :=
  [("", inr ("t1", [1; 2])); ("t1", inr ("t2", [3])); ("t2", inl (mkStatus kUnavailable "later"))].

Definition gap_pages : list (string * (Status + (string * list nat))) :=
  [("", inr ("t1", [1])); ("t1", inr ("t2", [])); ("t2", inr ("", [2]))].

Lemma pagination_complete_witness :
  (∃ g, for_each (λ t _, t) fst (λ r, r) (example_loader example_pages) snd Nat.eqb 4
    (PaginationRange_new "") 0
    = Some (Ret ([inr 1; inr 2; inr 3; inl (mkStatus kUnavailable "later")], g, 3))) ∧
  (∃ k g w, for_each (λ t _, t) fst (λ r, r) (example_loader gap_pages) snd Nat.eqb 4
    (PaginationRange_new "") 0 = Some (Ret (inr <$> mjoin (take k [[1]; []; [2]]), g, w))).
Proof.
  split.
  - destruct (pagination_complete (λ t _, t) fst (λ r, r) (example_loader example_pages) snd
      Nat.eqb 3 4 "" 0 3 [[1; 2]; [3]] (Some (mkStatus kUnavailable "later"))) as [Hfull _].
    + reflexivity.
    + simpl. lia.
    + destruct (Hfull eq_refl) as (g & Hg & _). exists g. exact Hg.
  - destruct (pagination_complete (λ t _, t) fst (λ r, r) (example_loader gap_pages) snd
      Nat.eqb 3 4 "" 0 3 [[1]; []; [2]] None) as [_ Hgap].
    + reflexivity.
    + simpl. lia.
    + destruct (Hgap eq_refl) as (k & g & w & _ & _ & _ & Hg & _). exists k, g, w. exact Hg.
Defined.

(** A page without items that is not the last one ends the loop: the items of the pages
    after it are not seen. *)
Lemma empty_page_ends_loop :
  let pages := [("", inr ("t1", [1])); ("t1", inr ("t2", [])); ("t2", inr ("", [2]))] in
  listing (λ t _, t) fst (λ r, r) (example_loader pages) snd 3 "" "" 0
    = Some ([[1]; []; [2]], None, 3) ∧
  ∃ g, for_each (λ t _, t) fst (λ r, r) (example_loader pages) snd Nat.eqb 9
    (PaginationRange_new "") 0 = Some (Ret ([inr 1], g, 2)).
Proof. split; [|eexists]; vm_compute; reflexivity. Qed.
