(* ===== verification/Filesystem.v ===== *)
(** * File status (internal/filesystem.h, internal/filesystem.cc)

    The permissions as a 32-bit enumeration with their operators, and the classification
    of what [stat] reports, in the build for POSIX systems.  The file system is the
    argument [stat]: an error number, or the mode and the size of the file; the modes and
    error numbers are those of Linux. *)

From S2P Require Import Prelude Throw.

Set Default Proof Using "Type".
Open Scope Z_scope.

(** ** [perms]: an enumeration over [int] *)
Abbreviation perms := Z.
Definition perms_none : perms := 0.
Definition owner_read : perms := 256.
Definition owner_write : perms := 128.
Definition owner_exec : perms := 64.
Definition owner_all : perms := 448.
Definition group_read : perms := 32.
Definition group_write : perms := 16.
Definition group_exec : perms := 8.
Definition group_all : perms := 56.
Definition others_read : perms := 4.
Definition others_write : perms := 2.
Definition others_exec : perms := 1.
Definition others_all : perms := 7.
Definition perms_all : perms := 511.
Definition set_uid : perms := 2048.
Definition set_gid : perms := 1024.
Definition sticky_bit : perms := 512.
Definition perms_mask : perms := 4095.
Definition perms_unknown : perms := 65535.

(** [static_cast<unsigned>] and [static_cast<perms>]. *)
Definition to_unsigned (p : perms) : Z := wrap 32 p.
Definition to_perms (z : Z) : perms := sign 32 z.

Definition perms_and (lhs rhs : perms) : perms :=
  to_perms (Z.land (to_unsigned lhs) (to_unsigned rhs)).
Definition perms_or (lhs rhs : perms) : perms :=
  to_perms (Z.lor (to_unsigned lhs) (to_unsigned rhs)).
Definition perms_xor (lhs rhs : perms) : perms :=
  to_perms (Z.lxor (to_unsigned lhs) (to_unsigned rhs)).
Definition perms_not (lhs : perms) : perms :=
  to_perms (Z.land (to_unsigned perms_mask) (wrap 32 (Z.lnot (to_unsigned lhs)))).

(** ** [file_status] *)
Inductive file_type :=
| ft_none | not_found | regular | directory | symlink | block | character | fifo | socket
| ft_unknown.
Global Instance file_type_eq_dec : EqDecision file_type.
Proof. solve_decision. Defined.

Record file_status := mkFileStatus { type : file_type; permissions : perms }.
Definition file_status_new (t : file_type) : file_status := mkFileStatus t perms_unknown.
Definition file_status_default : file_status := file_status_new ft_none.

Definition has_type (t : file_type) (s : file_status) : bool := bool_decide (type s = t).
Definition status_known (s : file_status) : bool := negb (has_type ft_none s).
Definition is_block_file : file_status → bool := has_type block.
Definition is_character_file : file_status → bool := has_type character.
Definition is_directory : file_status → bool := has_type directory.
Definition is_fifo : file_status → bool := has_type fifo.
Definition is_regular : file_status → bool := has_type regular.
Definition is_socket : file_status → bool := has_type socket.
Definition is_symlink : file_status → bool := has_type symlink.
Definition exists_file (s : file_status) : bool := status_known s && negb (has_type not_found s).
Definition is_other (s : file_status) : bool :=
  exists_file s && negb (is_regular s) && negb (is_directory s) && negb (is_symlink s).

(** ** The C library *)
Definition ENOENT : Z := 2.
Definition EACCES : Z := 13.
(** [struct stat]; the mode is unsigned, the size may be signed. *)
Record os_stat_type := mkStat { st_mode : Z; st_size : Z }.
Definition S_IFMT : Z := 61440.
Definition S_IFSOCK : Z := 49152.
Definition S_IFREG : Z := 32768.
Definition S_IFBLK : Z := 24576.
Definition S_IFDIR : Z := 16384.
Definition S_IFCHR : Z := 8192.
Definition S_IFIFO : Z := 4096.
Definition S_IS (fmt mode : Z) : bool := Z.land mode S_IFMT =? fmt.

(** ** [status] and [file_size] *)
Definition ExtractPermissions (s : os_stat_type) : perms :=
  to_perms (Z.land (st_mode s) (to_unsigned perms_mask)).

Definition ExtractFileType (s : os_stat_type) : file_type :=
  if S_IS S_IFREG (st_mode s) then regular
  else if S_IS S_IFDIR (st_mode s) then directory
  else if S_IS S_IFBLK (st_mode s) then block
  else if S_IS S_IFCHR (st_mode s) then character
  else if S_IS S_IFIFO (st_mode s) then fifo
  else if S_IS S_IFSOCK (st_mode s) then socket
  else ft_unknown.

Section filesystem.
Context `{Build} (stat : string → Z + os_stat_type).

(** The result and the [std::error_code]: zero when it is clear. *)
Definition status_ec (path : string) : file_status * Z :=
  match stat path with
  | inl errno =>
      if errno =? EACCES then (file_status_new ft_unknown, 0)
      else if errno =? ENOENT then (file_status_new not_found, 0)
      else (file_status_default, errno)
  | inr s => (mkFileStatus (ExtractFileType s) (ExtractPermissions s), 0)
  end.
Definition status (path : string) : cxx file_status :=
  let '(s, ec) := status_ec path in
  if ec =? 0 then Ret s
  else ThrowSystemError ec ("status" +:+ ": getting status of file=" +:+ path).

(** [std::uintmax_t] has 64 bits. *)
Definition file_size_ec (path : string) : Z * Z :=
  match stat path with
  | inl errno => (wrap 64 (-1), errno)
  | inr s => (wrap 64 (st_size s), 0)
  end.
Definition file_size (path : string) : cxx Z :=
  let '(s, ec) := file_size_ec path in
  if ec =? 0 then Ret s
  else ThrowSystemError ec ("file_size" +:+ ": getting size of file=" +:+ path).
End filesystem.

(** ** Lemmas *)

Lemma to_perms_small z : 0 ≤ z < 2 ^ 31 → to_perms z = z.
Proof. intros Hz. unfold to_perms, sign. change (32 - 1) with 31. by rewrite decide_True by lia. Qed.

Lemma to_unsigned_small p : 0 ≤ p < 2 ^ 32 → to_unsigned p = p.
Proof. apply wrap_small. Qed.

(** A bound of a bit pattern. *)
Lemma bits_bound z n : 0 ≤ n → 0 ≤ z → (∀ i, n ≤ i → Z.testbit z i = false) → z < 2 ^ n.
Proof.
  intros Hn Hz Hb. destruct (Z.ltb_spec z (2 ^ n)); [done|].
  assert (n ≤ Z.log2 z) as Hl by (by apply Z.log2_le_pow2; [pose proof (Z.pow_pos_nonneg 2 n); lia|]).
  pose proof (Z.bit_log2 z) as Hbit. rewrite Hb in Hbit by done.
  pose proof (Z.pow_pos_nonneg 2 n). discriminate Hbit. lia.
Qed.

Lemma testbit_above z n i : 0 ≤ z < 2 ^ n → n ≤ i → 0 ≤ n → Z.testbit z i = false.
Proof.
  intros Hz Hi Hn. destruct (decide (z = 0)) as [->|]; [apply Z.testbit_0_l|].
  apply Z.bits_above_log2; [lia|]. apply Z.log2_lt_pow2; [lia|].
  eapply Z.lt_le_trans; [apply Hz|]. apply Z.pow_le_mono_r; lia.
Qed.

Lemma testbit_mask i : 0 ≤ i → Z.testbit perms_mask i = bool_decide (i < 12).
Proof.
  intros Hi. change perms_mask with (Z.ones 12). rewrite Z.testbit_ones_nonneg by lia.
  by destruct (Z.ltb_spec i 12); [rewrite bool_decide_true|rewrite bool_decide_false by lia].
Qed.

(** Sixteen bits, as every enumerator has. *)
Definition perms_valid (p : perms) : Prop := 0 ≤ p < 2 ^ 16.

Lemma bitwise_small z n :
  0 ≤ n ≤ 31 → 0 ≤ z → (∀ i, n ≤ i → Z.testbit z i = false) → to_perms z = z ∧ z < 2 ^ n.
Proof.
  intros Hn Hz Hb. pose proof (bits_bound z n ltac:(lia) Hz Hb) as Hlt. split; [|done].
  apply to_perms_small. split; [done|]. eapply Z.lt_le_trans; [done|]. apply Z.pow_le_mono_r; lia.
Qed.

Lemma perms_valid_unsigned p : perms_valid p → to_unsigned p = p.
Proof. intros Hp. apply to_unsigned_small. unfold perms_valid in Hp. lia. Qed.

Lemma perms_valid_above p i : perms_valid p → 16 ≤ i → Z.testbit p i = false.
Proof. intros Hp Hi. eapply (testbit_above _ 16); [exact Hp|done|done]. Qed.

Lemma perms_and_spec p q : perms_valid p → perms_valid q →
  perms_and p q = Z.land p q ∧ perms_valid (perms_and p q).
Proof.
  intros Hp Hq. unfold perms_and. rewrite !perms_valid_unsigned by done.
  assert (0 ≤ Z.land p q) as H0 by (apply Z.land_nonneg; left; apply Hp).
  destruct (bitwise_small (Z.land p q) 16) as [-> ?]; [done|done| |done].
  intros i Hi. by rewrite Z.land_spec, (perms_valid_above p) by done.
Qed.

Lemma perms_or_spec p q : perms_valid p → perms_valid q →
  perms_or p q = Z.lor p q ∧ perms_valid (perms_or p q).
Proof.
  intros Hp Hq. unfold perms_or. rewrite !perms_valid_unsigned by done.
  assert (0 ≤ Z.lor p q) as H0 by (apply Z.lor_nonneg; split; [apply Hp|apply Hq]).
  destruct (bitwise_small (Z.lor p q) 16) as [-> ?]; [done|done| |done].
  intros i Hi. by rewrite Z.lor_spec, (perms_valid_above p), (perms_valid_above q) by done.
Qed.

Lemma perms_xor_spec p q : perms_valid p → perms_valid q →
  perms_xor p q = Z.lxor p q ∧ perms_valid (perms_xor p q).
Proof.
  intros Hp Hq. unfold perms_xor. rewrite !perms_valid_unsigned by done.
  assert (0 ≤ Z.lxor p q) as H0
    by (apply Z.lxor_nonneg; split; intros _; [apply Hq|apply Hp]).
  destruct (bitwise_small (Z.lxor p q) 16) as [-> ?]; [done|done| |done].
  intros i Hi. by rewrite Z.lxor_spec, (perms_valid_above p), (perms_valid_above q) by done.
Qed.

Lemma perms_not_bits p i : perms_valid p → 0 ≤ i →
  Z.testbit (Z.land perms_mask (wrap 32 (Z.lnot p))) i = bool_decide (i < 12) && negb (Z.testbit p i).
Proof.
  intros Hp Hi. rewrite Z.land_spec, testbit_mask by done. case_bool_decide as H12; [|done]. simpl.
  unfold wrap. rewrite Z.mod_pow2_bits_low by lia. by apply Z.lnot_spec.
Qed.

Lemma perms_not_spec p : perms_valid p →
  perms_valid (perms_not p) ∧
  ∀ i, 0 ≤ i → Z.testbit (perms_not p) i = bool_decide (i < 12) && negb (Z.testbit p i).
Proof.
  intros Hp. unfold perms_not. rewrite (perms_valid_unsigned p) by done.
  change (to_unsigned perms_mask) with perms_mask.
  assert (0 ≤ Z.land perms_mask (wrap 32 (Z.lnot p))) as H0 by (by apply Z.land_nonneg; left).
  destruct (bitwise_small (Z.land perms_mask (wrap 32 (Z.lnot p))) 16) as [-> ?]; [done|done| |].
  - intros i Hi. rewrite perms_not_bits by (done || lia). by rewrite bool_decide_false by lia.
  - split; [done|]. intros i Hi. by apply perms_not_bits.
Qed.

Lemma ExtractPermissions_bits s i :
  0 ≤ i → Z.testbit (ExtractPermissions s) i = bool_decide (i < 12) && Z.testbit (st_mode s) i.
Proof.
  intros Hi. unfold ExtractPermissions. change (to_unsigned perms_mask) with perms_mask.
  assert (0 ≤ Z.land (st_mode s) perms_mask) as H0 by (apply Z.land_nonneg; by right).
  destruct (bitwise_small (Z.land (st_mode s) perms_mask) 12) as [-> _]; [done|done| |].
  - intros j Hj. rewrite Z.land_spec, testbit_mask by lia. by rewrite bool_decide_false, andb_false_r by lia.
  - by rewrite Z.land_spec, testbit_mask, andb_comm by done.
Qed.

(** The format bits of the types that [stat] can report. *)
Definition format (t : file_type) : option Z :=
  match t with
  | regular => Some S_IFREG | directory => Some S_IFDIR | block => Some S_IFBLK
  | character => Some S_IFCHR | fifo => Some S_IFIFO | socket => Some S_IFSOCK
  | _ => None
  end.

Lemma ExtractFileType_spec s :
  match format (ExtractFileType s) with
  | Some f => Z.land (st_mode s) S_IFMT = f
  | None => ExtractFileType s = ft_unknown ∧ ∀ t, format t ≠ Some (Z.land (st_mode s) S_IFMT)
  end.
Proof.
  unfold ExtractFileType, S_IS.
  repeat (case_match; bool_props); simplify_eq/=; try done.
  split; [done|]. intros []; simpl; congruence.
Qed.

(** ** Properties *)

(** The operators of [perms] are the Boolean operations on the bits of the
    permissions, for all values that an enumerator or an operator gives; the complement
    is within [mask], so it is an involution there. *)
Theorem perms_operators (p q : perms) :
  perms_valid p → perms_valid q →
  (perms_valid (perms_and p q) ∧ perms_valid (perms_or p q) ∧ perms_valid (perms_xor p q) ∧
   perms_valid (perms_not p)) ∧
  (∀ i, 0 ≤ i →
    Z.testbit (perms_and p q) i = Z.testbit p i && Z.testbit q i ∧
    Z.testbit (perms_or p q) i = Z.testbit p i || Z.testbit q i ∧
    Z.testbit (perms_xor p q) i = xorb (Z.testbit p i) (Z.testbit q i) ∧
    Z.testbit (perms_not p) i = bool_decide (i < 12) && negb (Z.testbit p i)) ∧
  perms_not (perms_not p) = perms_and p perms_mask.
Proof.
  intros Hp Hq. destruct (perms_and_spec p q) as [Ha ?]; [done..|].
  destruct (perms_or_spec p q) as [Ho ?]; [done..|].
  destruct (perms_xor_spec p q) as [Hx ?]; [done..|]. destruct (perms_not_spec p Hp) as [Hv Hn].
  split; [done|]. split.
  - intros i Hi. by rewrite Ha, Ho, Hx, Z.land_spec, Z.lor_spec, Z.lxor_spec, Hn by done.
  - assert (perms_valid perms_mask) as Hm by done.
    destruct (perms_not_spec _ Hv) as [_ Hnn]. destruct (perms_and_spec p perms_mask Hp Hm) as [Hpm _].
    apply Z.bits_inj'. intros i Hi. rewrite Hnn, Hn, Hpm, Z.land_spec, testbit_mask by done.
    case_bool_decide; simpl; [by rewrite negb_involutive, andb_true_r|by rewrite andb_false_r].
Qed.

(** [status] reports the type that the mode of the file encodes and exactly its twelve
    permission bits; a file that is not there and one that may not be read are statuses,
    not errors; every other error of [stat] is thrown as a [std::system_error] that names
    the file.  [file_size] throws on every error.  What the predicates say of the result
    is consistent: a file that exists is a regular file, a directory or other, and only
    one of them. *)
Theorem file_status_reports `{Build} (stat : string → Z + os_stat_type) (path : string) :
  (∀ errno, stat path = inl errno → errno ≠ 0) →
  match stat path with
  | inr s => ∃ fs, status stat path = Ret fs ∧ exists_file fs = true ∧
      (∀ t f, format t = Some f → type fs = t ↔ Z.land (st_mode s) S_IFMT = f) ∧
      (∀ i, 0 ≤ i → Z.testbit (permissions fs) i = bool_decide (i < 12) && Z.testbit (st_mode s) i) ∧
      file_size stat path = Ret (wrap 64 (st_size s))
  | inl errno =>
      status stat path =
        (if decide (errno = ENOENT) then Ret (file_status_new not_found)
         else if decide (errno = EACCES) then Ret (file_status_new ft_unknown)
         else ThrowSystemError errno ("status: getting status of file=" +:+ path)) ∧
      file_size stat path =
        ThrowSystemError errno ("file_size: getting size of file=" +:+ path)
  end ∧
  ∀ fs, status stat path = Ret fs →
    status_known fs = true ∧ is_symlink fs = false ∧
    (exists_file fs = false ↔ type fs = not_found) ∧
    (Nat.b2n (is_regular fs) + Nat.b2n (is_directory fs) + Nat.b2n (is_other fs) =
     Nat.b2n (exists_file fs))%nat.
Proof.
  intros He. split.
  - unfold status, status_ec, file_size, file_size_ec. destruct (stat path) as [errno|s] eqn:Hs.
    + specialize (He errno eq_refl).
      destruct (Z.eqb_spec errno EACCES) as [->|Ha]; simpl;
        [done|rewrite (decide_False (P := errno = EACCES)) by done].
      destruct (Z.eqb_spec errno ENOENT) as [->|Hn]; simpl; [done|].
      rewrite (decide_False (P := errno = ENOENT)) by done.
      by destruct (Z.eqb_spec errno 0).
    + eexists. split; [done|]. pose proof (ExtractFileType_spec s) as Ht. split_and!; try done.
      * unfold exists_file, status_known, has_type. simpl. unfold ExtractFileType.
        by repeat case_match.
      * intros t f Hf. simpl. destruct (format (ExtractFileType s)) as [f'|] eqn:Hf'.
        -- rewrite Ht. clear -Hf Hf'. revert Hf Hf'.
           destruct (ExtractFileType s), t; intros [= <-] [= <-]; done.
        -- destruct Ht as [-> Hn]. split; [by intros <-|]. intros Hf2. destruct (Hn t). congruence.
      * intros i Hi. by apply ExtractPermissions_bits.
  - intros fs. unfold status, status_ec. destruct (stat path) as [errno|s].
    + destruct (errno =? EACCES); [by intros [= <-]|].
      destruct (errno =? ENOENT); [by intros [= <-]|].
      destruct (Z.eqb_spec errno 0) as [->|]; [by destruct (He 0)|].
      unfold ThrowSystemError, ThrowExceptionCode. by destruct have_exceptions.
    + intros [= <-]. unfold ExtractFileType. by repeat case_match.
Qed.

Lemma perms_operators_witness :
  perms_valid (perms_or owner_read sticky_bit) ∧
  perms_not (perms_not (perms_or owner_all perms_unknown)) = perms_mask.
Proof.
  destruct (perms_operators owner_read sticky_bit) as ((_ & Hv & _) & _); [done|done|].
  destruct (perms_operators (perms_or owner_all perms_unknown) 0) as (_ & _ & Hn); [done|done|].
  split; [exact Hv|exact Hn].
Defined.

(** A directory of a temporary file system, and a path that is not there. *)
Definition example_stat (path : string) : Z + os_stat_type :=
  if bool_decide (path = "/tmp") then inr (mkStat 17407 4096)
  else if bool_decide (path = "/x") then inl 20 else inl ENOENT.

Lemma file_status_reports_witness :
  ∃ fs, status (H := example_build) example_stat "/tmp" = Ret fs ∧ exists_file fs = true ∧
    Z.testbit (permissions fs) 9 = true.
Proof.
  destruct (file_status_reports (H := example_build) example_stat "/tmp")
    as ((fs & Hs & He & _ & Hp & _) & _).
  - vm_compute. discriminate.
  - exists fs. split; [exact Hs|]. split; [exact He|]. rewrite Hp; [reflexivity|done].
Defined.
