(* ===== verification/Random.v ===== *)
(** * Random numbers (internal/random.h, internal/random.cc)

    The generators and the random device of the standard library are arguments: a draw of
    [std::uniform_int_distribution] from a closed interval, a word of
    [std::random_device]. *)

From S2P Require Import Prelude Throw.
From Stdlib Require Import Ascii.

Set Default Proof Using "Type".
Open Scope Z_scope.

(** ** Entropy *)
Section entropy.
Context {Device : Type} (rd : Device → Z * Device).

Definition kWordSize : Z := 32.
(** [std::size_t] has 64 bits. *)
Definition entropy_words (desired_bits : Z) : Z :=
  wrap 64 (desired_bits + kWordSize - 1) / kWordSize.
(** [std::generate]. *)
Fixpoint generate {S A} (f : S → A * S) (n : nat) (s : S) : list A * S :=
  match n with
  | O => ([], s)
  | Datatypes.S n => let '(a, s) := f s in let '(l, s) := generate f n s in (a :: l, s)
  end.
Definition FetchEntropy (desired_bits : Z) (d : Device) : list Z * Device :=
  generate rd (Z.to_nat (entropy_words desired_bits)) d.

(** [MakePRNG<Generator>]: the seed sequence of the generator. *)
Definition MakePRNG {G} (state_size word_size : Z) (seeded : list Z → G) (d : Device) : G * Device :=
  let desired_bits := wrap 64 (state_size * word_size) in
  let '(entropy, d) := FetchEntropy desired_bits d in (seeded entropy, d).
End entropy.

(** ** Samples *)
Section sample.
Context {G : Type} (draw : Z → Z → G → Z * G).

(** The limit of the length of a string. *)
Context (max_size : Z).

(** A character of the population at the index drawn: a NUL at the end, [None] past it. *)
Definition draw_char (population : string) (g : G) : option ascii * G :=
  let size := Z.of_nat (String.length population) in
  let '(i, g) := draw 0 (wrap 64 (size - 1)) g in
  (if i =? size then Some zero else String.get (Z.to_nat i) population, g).
Definition Sample (n : Z) (population : string) (g : G) : cxx (string * G) :=
  let size := wrap 64 n in
  if bool_decide (max_size < size) then Throw (std_length_error "basic_string::_M_create")
  else
    let '(cs, g) := generate (draw_char population) (Z.to_nat size) g in
    match mapM id cs with
    | Some cs => Ret (String.string_of_list_ascii cs, g)
    | None => Undefined BadIndex
    end.
End sample.

(** ** Lemmas *)

Lemma generate_length {S A} (f : S → A * S) n s : length (generate f n s).1 = n.
Proof.
  revert s. induction n as [|n IH]; intros s; [done|]. simpl.
  destruct (f s) as [a s1]. specialize (IH s1). destruct (generate f n s1). simpl in *. lia.
Qed.

Lemma generate_Forall {S A} (P : A → Prop) (f : S → A * S) n s :
  (∀ s, P (f s).1) → Forall P (generate f n s).1.
Proof.
  intros Hf. revert s. induction n as [|n IH]; intros s; [by constructor|]. simpl.
  pose proof (Hf s) as Ha. destruct (f s) as [a s1]. specialize (IH s1).
  destruct (generate f n s1). by constructor.
Qed.

Fixpoint string_elem (c : ascii) (s : string) : Prop :=
  match s with "" => False | String c' s => c' = c ∨ string_elem c s end.

Lemma get_elem n s : (n < String.length s)%nat → ∃ c, String.get n s = Some c ∧ string_elem c s.
Proof.
  revert n. induction s as [|c s IH]; intros n Hn; simpl in Hn; [lia|].
  destruct n as [|n]; simpl; [by exists c; split; [|left]|].
  destruct (IH n) as (c' & ? & ?); [lia|]. exists c'. by split; [|right].
Qed.

Lemma mapM_samples (P : ascii → Prop) (l : list (option ascii)) :
  Forall (λ o, ∃ c, o = Some c ∧ P c) l →
  ∃ cs, mapM id l = Some cs ∧ length cs = length l ∧ Forall P cs.
Proof.
  induction 1 as [|o l (c & -> & Hc) _ (cs & Hcs & Hl & Hall)]; [by exists []|].
  exists (c :: cs). simpl. rewrite Hcs. simpl. by split_and!; [|f_equal|constructor].
Qed.

Lemma string_of_list_props (P : ascii → Prop) cs :
  Forall P cs →
  String.length (String.string_of_list_ascii cs) = length cs ∧
  ∀ c, string_elem c (String.string_of_list_ascii cs) → P c.
Proof.
  induction 1 as [|c cs Hc _ [Hl Hp]]; [by split|]. simpl. split; [lia|]. intros c' [<-|]; auto.
Qed.

Lemma entropy_words_bound bits :
  0 ≤ bits ≤ 2 ^ 64 - 32 → bits ≤ 32 * entropy_words bits < bits + 32.
Proof.
  intros Hb. unfold entropy_words, kWordSize. rewrite wrap_small by (unfold in_unsigned; lia).
  pose proof (Z.div_mod (bits + 32 - 1) 32). pose proof (Z.mod_pos_bound (bits + 32 - 1) 32). lia.
Qed.

(** ** Properties *)

(** [FetchEntropy] gets at least the bits asked for, and less than a word more; for a
    number that fits an [int], [Sample] returns that many characters, all of them of the
    population, when it is not empty, and refuses a negative number. *)
Theorem random_samples {Device G : Type} (rd : Device → Z * Device) (draw : Z → Z → G → Z * G)
    (max_size : Z) bits d n population g :
  0 ≤ bits ≤ 2 ^ 64 - 32 →
  (∀ a b g, a ≤ b → a ≤ (draw a b g).1 ≤ b) → population ≠ "" →
  Z.of_nat (String.length population) < 2 ^ 64 →
  - 2 ^ 31 ≤ n < 2 ^ 31 → 2 ^ 31 ≤ max_size < 2 ^ 63 →
  bits ≤ 32 * Z.of_nat (length (FetchEntropy rd bits d).1) < bits + 32 ∧
  if decide (0 ≤ n) then
    ∃ s g', Sample draw max_size n population g = Ret (s, g') ∧
      Z.of_nat (String.length s) = n ∧ ∀ c, string_elem c s → string_elem c population
  else ∃ what, Sample draw max_size n population g = Throw (std_length_error what).
Proof.
  intros Hbits Hdraw Hne Hlen Hn Hmax. split.
  - unfold FetchEntropy. rewrite generate_length. pose proof (entropy_words_bound bits Hbits). lia.
  - unfold Sample. case_decide as H0.
    + rewrite (wrap_small 64 n) by (unfold in_unsigned; lia). rewrite bool_decide_false by lia.
      assert (Forall (λ o, ∃ c, o = Some c ∧ string_elem c population)
        (generate (draw_char draw population) (Z.to_nat n) g).1) as Hall.
      { apply generate_Forall. intros g1. unfold draw_char.
        assert (0 < String.length population)%nat by (destruct population; simpl; [done|lia]).
        rewrite (wrap_small 64 (Z.of_nat _ - 1)) by (unfold in_unsigned; lia).
        pose proof (Hdraw 0 (Z.of_nat (String.length population) - 1) g1) as Hi.
        destruct (draw 0 _ g1) as [i g2]. simpl in *.
        destruct (Z.eqb_spec i (Z.of_nat (String.length population))); [lia|].
        apply get_elem. lia. }
      pose proof (generate_length (draw_char draw population) (Z.to_nat n) g) as Hgl.
      destruct (generate _ (Z.to_nat n) g) as [os g']. simpl in *.
      destruct (mapM_samples _ _ Hall) as (cs & -> & Hcl & Hcs).
      destruct (string_of_list_props _ _ Hcs) as [Hsl Hs].
      exists (String.string_of_list_ascii cs), g'. split_and!; [done| |done]. lia.
    + unfold wrap. assert (n `mod` 2 ^ 64 = n + 2 ^ 64) as ->.
      { symmetry. apply (Z.mod_unique _ _ (-1)); lia. }
      rewrite bool_decide_true by lia. by eexists.
Qed.

(** A device and a generator that count. *)
Lemma random_samples_witness :
  ∃ s g', Sample (λ a b g, (Z.min b (a + g), g + 1)) (2 ^ 62) 3 "abc" 0 = Ret (s, g') ∧
    Z.of_nat (String.length s) = 3.
Proof.
  destruct (random_samples (λ d, (d, d)) (λ a b g, (Z.min b (a + Z.max 0 g), g + 1)) (2 ^ 62)
    33 0 3 "abc" 0) as [_ Hs]; [lia|simpl; lia|done|done|lia|lia|].
  destruct Hs as (s & g' & Hs & Hl & _). exists s, g'. split; [|exact Hl].
  rewrite <- Hs. reflexivity.
Defined.

(** The number of words wraps around for the largest numbers of bits. *)
Lemma entropy_wraps : entropy_words (2 ^ 64 - 1) = 0.
Proof. reflexivity. Qed.
