(* ===== verification/BuildInfo.v ===== *)
(** * The version and the compiler (version.h, version.cc, internal/version_info.h,
      internal/compiler_info.cc, internal/port_platform.h, internal/build_info.cc.in)

    The macros that a compiler predefines are a record; what the preprocessor selects is a
    function of it. *)

From S2P Require Import Prelude CLibrary.

Set Default Proof Using "Type".

(** ** The version *)

(** The macros of version_info.h. *)
Record version_info := mkVersion {
  version_major : Z;
  version_minor : Z;
  version_patch : Z;
}.
Definition this_version : version_info := mkVersion 0 26 0.

(** The value of [version()]. *)
Definition version_number (v : version_info) : Z :=
  (100 * (100 * version_major v + version_minor v) + version_patch v)%Z.
(** [version_string()], for what [build_metadata()] returns. *)
Definition version_string (v : version_info) (metadata : string) : string :=
  "v" +:+ print_int 1 (version_major v) +:+ "." +:+ print_int 1 (version_minor v) +:+ "." +:+
  print_int 1 (version_patch v) +:+
  (if negb (bool_decide (metadata = "")) then "+" +:+ metadata else "").

(** ** The compiler *)

(** The macros: [None] when one is not defined.  GCC and Clang define their three numbers
    together. *)
Record macros := mkMacros {
  apple_build_version : option Z;
  clang : option (Z * Z * Z);          (* major, minor, patch level *)
  GNUC : option (Z * Z * Z);
  MSC_VER : option Z;
  MSC_FULL_VER : option Z;
  cplusplus : Z;
  EXCEPTIONS : bool;                   (* [__EXCEPTIONS] *)
  has_feature_cxx_exceptions : bool;
  CPPUNWIND : bool;
  cpp_exceptions : bool;
}.

Section compiler.
Implicit Types (m : macros).

(** The [#error] lines. *)
Definition supported m : bool :=
  (match MSC_VER m with None => negb (cplusplus m <? 201103)%Z | Some v => negb (v <? 1900)%Z end)
  && match clang m with
     | Some (major, minor, _) =>
         negb ((major <? 3)%Z || ((major =? 3)%Z && (minor <? 8)%Z))
     | None =>
         match GNUC m with
         | Some (major, minor, _) => negb ((major <? 4)%Z || ((major =? 4)%Z && (minor <? 8)%Z))
         | None => true
         end
     end.

Definition HAVE_EXCEPTIONS m : bool :=
  match clang m with
  | Some _ => EXCEPTIONS m && has_feature_cxx_exceptions m
  | None =>
      match MSC_VER m with
      | Some _ => CPPUNWIND m
      | None =>
          match GNUC m with
          | Some (major, _, _) =>
              if (major <? 5)%Z && EXCEPTIONS m then true
              else (5 <=? major)%Z && cpp_exceptions m
          | None => cpp_exceptions m
          end
      end
  end.

Definition HAVE_CONST_REF_REF m : bool :=
  match clang m, MSC_VER m, GNUC m with
  | None, None, Some (major, minor, _) => negb ((major =? 4)%Z && (minor =? 8)%Z)
  | _, _, _ => true
  end.

Definition CompilerId m : string :=
  match apple_build_version m, clang m, GNUC m, MSC_VER m with
  | Some _, Some _, _, _ => "AppleClang"
  | _, Some _, _, _ => "Clang"
  | _, _, Some _, _ => "GNU"
  | _, _, _, Some _ => "MSVC"
  | _, _, _, _ => "Unknown"
  end.

Definition dotted (v : Z * Z * Z) : string :=
  print_int 1 v.1.1 +:+ "." +:+ print_int 1 v.1.2 +:+ "." +:+ print_int 1 v.2.
Definition CompilerVersion m : string :=
  match apple_build_version m, clang m, GNUC m, MSC_VER m with
  | Some b, Some v, _, _ => dotted v +:+ "." +:+ print_int 1 b
  | _, Some v, _, _ => dotted v
  | _, _, Some v, _ => dotted v
  | _, _, _, Some v =>
      print_int 1 (v ÷ 100) +:+ "." +:+ print_int 1 (Z.rem v 100) +:+
      match MSC_FULL_VER m with
      | Some f =>
          "." +:+ print_int 1 (if (1400 <=? v)%Z then Z.rem f 100000 else Z.rem f 10000)
      | None => ""
      end
  | _, _, _, _ => "Unknown"
  end.

Definition CompilerFeatures m : string := if HAVE_EXCEPTIONS m then "ex" else "noex".

Definition LanguageVersion m : string :=
  if bool_decide (cplusplus m = 199711%Z) then "1998"
  else if bool_decide (cplusplus m = 201103%Z) then "2011"
  else if bool_decide (cplusplus m = 201402%Z) then "2014"
  else if bool_decide (cplusplus m = 201703%Z) then "2017"
  else "unknown".

(** [compiler()] of the file that the build generates from build_info.cc.in. *)
Definition compiler m : string := CompilerId m +:+ " " +:+ CompilerVersion m.
End compiler.

(** ** Lemmas *)

Definition version_ok (v : version_info) : Prop :=
  (0 ≤ version_minor v < 100 ∧ 0 ≤ version_patch v < 100)%Z.
Definition version_lt (v w : version_info) : Prop :=
  (version_major v < version_major w ∨ version_major v = version_major w ∧
    (version_minor v < version_minor w ∨ version_minor v = version_minor w ∧
      version_patch v < version_patch w))%Z.

(** Versions are ordered as their numbers, component by component. *)
Lemma version_number_lt v w : version_ok v → version_ok w →
  (version_number v < version_number w)%Z ↔ version_lt v w.
Proof. unfold version_ok, version_number, version_lt. lia. Qed.
Lemma version_number_inj v w : version_ok v → version_ok w →
  version_number v = version_number w → v = w.
Proof. unfold version_ok, version_number. destruct v, w; simpl. intros; f_equal; lia. Qed.
(** With one hundred patches the number of a version is the one of another version. *)
Example version_number_collides :
  version_number (mkVersion 0 26 100) = version_number (mkVersion 0 27 0).
Proof. done. Qed.

Example this_version_strings :
  version_number this_version = 2600%Z ∧ version_string this_version "" = "v0.26.0" ∧
  version_string this_version "ci" = "v0.26.0+ci".
Proof. done. Qed.

(** A number begins with a digit or a sign. *)
Lemma print_int_head z : ∃ c s, print_int 1 z = String c s ∧ (c = "-"%char ∨ isdigit c = true).
Proof.
  unfold print_int. case_match; [by eexists _, _; split; [|left]|].
  replace (Nat.max 1 (ndigits 19 z)) with (S (ndigits 19 z - 1)) by (pose proof (ndigits_pos 19 z); lia).
  cbn [pad]. eexists _, _. split; [done|]. right.
  unfold isdigit, code, digit. set (d := (_ `mod` 10)%Z).
  assert (0 ≤ d < 10)%Z by (apply Z.mod_pos_bound; lia).
  rewrite N_ascii_embedding by lia. rewrite Z2N.id by lia. apply andb_true_iff.
  split; apply Z.leb_le; lia.
Qed.
Lemma print_int_unknown z s : print_int 1 z +:+ s ≠ "Unknown".
Proof.
  destruct (print_int_head z) as (c & t & -> & Hc). simpl. intros [= -> _].
  by destruct Hc as [|[=]].
Qed.

(** The identifier and the version are unknown for the same compilers. *)
Lemma compiler_unknown m : CompilerId m = "Unknown" ↔ CompilerVersion m = "Unknown".
Proof.
  unfold CompilerId, CompilerVersion, dotted.
  destruct (apple_build_version m), (clang m), (GNUC m), (MSC_VER m); simpl;
    (done || (split; [done|])); rewrite ?string_app_assoc; intros H;
    by apply print_int_unknown in H.
Qed.

(** On a supported compiler the language is unknown when it is newer than C++17, a draft or,
    for Visual Studio, whatever [__cplusplus] says. *)
Lemma LanguageVersion_unknown m :
  LanguageVersion m = "unknown" ↔ cplusplus m ∉ [199711; 201103; 201402; 201703]%Z.
Proof.
  unfold LanguageVersion. rewrite !not_elem_of_cons.
  repeat (case_bool_decide; [split; [done|naive_solver]|]).
  split; [|done]. intros _. split_and!; try done. apply not_elem_of_nil.
Qed.
Definition gcc11_cxx20 : macros :=
  mkMacros None None (Some (11, 2, 0))%Z None None 202002 true false false true.
Example LanguageVersion_cxx20 :
  supported gcc11_cxx20 = true ∧ LanguageVersion gcc11_cxx20 = "unknown" ∧
  compiler gcc11_cxx20 = "GNU 11.2.0" ∧ CompilerFeatures gcc11_cxx20 = "ex".
Proof. done. Qed.
