(* ===== verification/TestingUtil.v ===== *)
(** * Helpers of the tests (testing_util/)

    The types that count their constructions, the log backend that keeps lines, the
    assertions on statuses and exceptions, and the check that a predicate becomes false.  An
    assertion of googletest is the list of the failures that it reports. *)

From S2P Require Import Prelude Status Throw StatusOr CLibrary Streams LogFormat LogSink.

Set Default Proof Using "Type".

(** ** [NoDefaultConstructor] and [Observable] (testing_types.h) *)
Record NoDefaultConstructor := mkNoDefaultConstructor { NoDefaultConstructor_str : string }.
Definition NoDefaultConstructor_eqb (lhs rhs : NoDefaultConstructor) : bool :=
  bool_decide (NoDefaultConstructor_str lhs = NoDefaultConstructor_str rhs).
Definition NoDefaultConstructor_neqb (lhs rhs : NoDefaultConstructor) : bool :=
  negb (NoDefaultConstructor_eqb lhs rhs).

Module Observable.

(** The static data members, as mathematical integers. *)
Record counters := mkCounters {
  default_constructor : nat;
  value_constructor : nat;
  copy_constructor : nat;
  move_constructor : nat;
  copy_assignment : nat;
  move_assignment : nat;
  destructor : nat;
}.
Definition reset_counters : counters := mkCounters 0 0 0 0 0 0 0.

(** The counters and the objects of a program; an object is its [str_]. *)
Record world := mkWorld { counts : counters; objects : Objects.vars string }.
Implicit Types (w : world).

Definition count (f : counters → counters) w : world := mkWorld (f (counts w)) (objects w).
Definition with_objects w (m : cxx (Objects.vars string)) : cxx world :=
  σ ← m; Ret (mkWorld (counts w) σ).

Definition new_default (x : nat) w : cxx world :=
  w ← with_objects w (Objects.new x "" (objects w));
  Ret (count (λ c, mkCounters (S (default_constructor c)) (value_constructor c)
    (copy_constructor c) (move_constructor c) (copy_assignment c) (move_assignment c)
    (destructor c)) w).
Definition new_value (x : nat) (s : string) w : cxx world :=
  w ← with_objects w (Objects.new x s (objects w));
  Ret (count (λ c, mkCounters (default_constructor c) (S (value_constructor c))
    (copy_constructor c) (move_constructor c) (copy_assignment c) (move_assignment c)
    (destructor c)) w).
Definition new_copy (x rhs : nat) w : cxx world :=
  s ← Objects.get rhs (objects w);
  w ← with_objects w (Objects.new x s (objects w));
  Ret (count (λ c, mkCounters (default_constructor c) (value_constructor c)
    (S (copy_constructor c)) (move_constructor c) (copy_assignment c) (move_assignment c)
    (destructor c)) w).
Definition new_move (x rhs : nat) w : cxx world :=
  s ← Objects.get rhs (objects w);
  w ← with_objects w (Objects.new x s (Objects.set rhs "moved-out" (objects w)));
  Ret (count (λ c, mkCounters (default_constructor c) (value_constructor c)
    (copy_constructor c) (S (move_constructor c)) (copy_assignment c) (move_assignment c)
    (destructor c)) w).
Definition assign_copy (x rhs : nat) w : cxx world :=
  _ ← Objects.get x (objects w);
  s ← Objects.get rhs (objects w);
  Ret (count (λ c, mkCounters (default_constructor c) (value_constructor c)
    (copy_constructor c) (move_constructor c) (S (copy_assignment c)) (move_assignment c)
    (destructor c)) (mkWorld (counts w) (Objects.set x s (objects w)))).
Definition assign_move (x rhs : nat) w : cxx world :=
  _ ← Objects.get x (objects w);
  s ← Objects.get rhs (objects w);
  Ret (count (λ c, mkCounters (default_constructor c) (value_constructor c)
    (copy_constructor c) (move_constructor c) (copy_assignment c) (S (move_assignment c))
    (destructor c))
    (mkWorld (counts w) (Objects.set rhs "moved-out" (Objects.set x s (objects w))))).
Definition destroy (x : nat) w : cxx world :=
  _ ← Objects.get x (objects w);
  Ret (count (λ c, mkCounters (default_constructor c) (value_constructor c)
    (copy_constructor c) (move_constructor c) (copy_assignment c) (move_assignment c)
    (S (destructor c))) (mkWorld (counts w) (Objects.remove x (objects w)))).

(** Programs. *)
Inductive op :=
| NewDefault (x : nat) | NewValue (x : nat) (s : string) | NewCopy (x rhs : nat)
| NewMove (x rhs : nat) | AssignCopy (x rhs : nat) | AssignMove (x rhs : nat) | Destroy (x : nat).
Definition run_op (o : op) : world → cxx world :=
  match o with
  | NewDefault x => new_default x | NewValue x s => new_value x s
  | NewCopy x rhs => new_copy x rhs | NewMove x rhs => new_move x rhs
  | AssignCopy x rhs => assign_copy x rhs | AssignMove x rhs => assign_move x rhs
  | Destroy x => destroy x
  end.
Fixpoint run (l : list op) w : cxx world :=
  match l with [] => Ret w | o :: l => w ← run_op o w; run l w end.

Definition constructed (c : counters) : nat :=
  default_constructor c + value_constructor c + copy_constructor c + move_constructor c.
(** The objects that exist are those constructed and not yet destroyed. *)
Definition balanced w : Prop :=
  constructed (counts w) = destructor (counts w) + size (objects w).

Lemma size_set x s (σ : Objects.vars string) :
  is_Some (σ !! x) → size (Objects.set x s σ) = size σ.
Proof. apply map_size_insert_Some. Qed.
Lemma size_new x s (σ : Objects.vars string) :
  σ !! x = None → size (Objects.set x s σ) = S (size σ).
Proof. apply map_size_insert_None. Qed.
Lemma size_remove x (σ : Objects.vars string) :
  is_Some (σ !! x) → size σ = S (size (Objects.remove x σ)).
Proof.
  intros [s Hx]. rewrite <- (size_new x s (Objects.remove x σ)) by apply lookup_delete_eq.
  unfold Objects.set, Objects.remove. by rewrite insert_delete_id.
Qed.
Lemma set_is_Some x y s (σ : Objects.vars string) :
  is_Some (σ !! y) → is_Some (Objects.set x s σ !! y).
Proof. intros. apply lookup_insert_is_Some'. by right. Qed.

Lemma run_op_balanced o w w' : run_op o w = Ret w' → balanced w → balanced w'.
Proof.
  unfold balanced, constructed. intros Hr Hb.
  destruct o as [x|x s|x y|x y|x y|x y|x]; simpl in Hr;
    unfold new_default, new_value, new_copy, new_move, assign_copy, assign_move, destroy,
      with_objects, Objects.new, Objects.get in Hr;
    repeat match type of Hr with
    | context [objects w !! ?z] => destruct (objects w !! z) eqn:?; simplify_eq/=
    | context [Objects.set ?y ?s (objects w) !! ?x] =>
        destruct (Objects.set y s (objects w) !! x) eqn:?; simplify_eq/=
    end;
    try rewrite size_new by done;
    rewrite ?size_set by eauto using set_is_Some; try lia.
  rewrite (size_remove x) in Hb by eauto. lia.
Qed.
(** Whatever a program does, the objects that exist are those constructed and not yet
    destroyed: a test that finds the counters balanced knows that nothing leaked. *)
Lemma run_balanced l w w' : run l w = Ret w' → balanced w → balanced w'.
Proof.
  revert w. induction l as [|o l IH]; intros w; simpl; [by intros [= ->]|].
  destruct (run_op o w) as [w1| | |] eqn:Ho; simpl; try done. eauto using run_op_balanced.
Qed.
Lemma no_leak l w' : run l (mkWorld reset_counters ∅) = Ret w' →
  constructed (counts w') = destructor (counts w') ↔ objects w' = ∅.
Proof.
  intros Hb%run_balanced; [|done]. unfold balanced in Hb. rewrite Hb.
  rewrite <- map_size_empty_iff. lia.
Qed.
End Observable.

(** ** [CaptureLogLinesBackend]

    The backend is its [log_lines]; each call of [getline] takes a character. *)
Fixpoint Process_loop (fuel : nat) (is_ : istringstream) (log_lines : list string) :
    cxx (list string) :=
  match fuel with
  | 0 => Undefined BadIndex
  | S fuel =>
      match getline "010" is_ with
      | (Some line, is_) => Process_loop fuel is_ (log_lines ++ [text_of line])
      | (None, _) => Ret log_lines
      end
  end.
Definition CaptureLogLines_Process (lr : LogRecord) (log_lines : list string) :
    cxx (list string) :=
  let is_ := mkStream (chars_of (message lr)) true in
  Process_loop (length (chars_of (message lr)) + 2) is_ log_lines.
Definition CaptureLogLines_ProcessWithOwnership (lr : LogRecord) (log_lines : list string) :
    cxx (list string) := CaptureLogLines_Process lr log_lines.

(** The lines of a message: an end of line at its end does not start another. *)
Definition lines (text : string) : list string := text_of <$> pieces (split "010" (chars_of text)).

Lemma Process_loop_spec fuel is_ log_lines : stream_size is_ < fuel →
  Process_loop fuel is_ log_lines = Ret (log_lines ++ (text_of <$> tokens "010" is_)).
Proof.
  revert is_ log_lines. induction fuel as [|fuel IH]; intros is_ l Hf; [lia|]. cbn [Process_loop].
  pose proof (getline_tokens "010" is_) as Hg. destruct (getline "010" is_) as [[line|] is'].
  - destruct Hg as [-> Hs]. rewrite IH by lia. by rewrite <-(assoc_L (++)).
  - rewrite Hg. simpl. by rewrite app_nil_r.
Qed.
Lemma CaptureLogLines_Process_spec lr log_lines :
  CaptureLogLines_Process lr log_lines = Ret (log_lines ++ lines (message lr)).
Proof. unfold CaptureLogLines_Process. by rewrite Process_loop_spec by (unfold stream_size; simpl; lia). Qed.

(** ** Assertions (assert_ok.h, assert_ok.cc, expect_exception.h, expect_future_error.h) *)
Inductive AssertionResult := AssertionSuccess | AssertionFailure (text : string).

Definition IsOkPredFormat (expr : string) (status : Status) : AssertionResult :=
  if Status_ok status then AssertionSuccess
  else AssertionFailure
    ("Value of: " +:+ expr +:+ String "010" "Expected: is OK" +:+ String "010" "Actual: " +:+
     Status_print status).
Definition IsOkPredFormat_StatusOr {T} (expr : string) (status_or : StatusOr T) :
    AssertionResult :=
  if ok status_or then AssertionSuccess else IsOkPredFormat expr (status_ status_or).

Lemma IsOkPredFormat_success expr s : IsOkPredFormat expr s = AssertionSuccess ↔ Status_ok s = true.
Proof. unfold IsOkPredFormat. by destruct (Status_ok s). Qed.
Lemma IsOkPredFormat_StatusOr_success {T} expr (s : StatusOr T) :
  IsOkPredFormat_StatusOr expr s = AssertionSuccess ↔ ok s = true.
Proof.
  unfold IsOkPredFormat_StatusOr. destruct (ok s) eqn:E; [done|].
  rewrite IsOkPredFormat_success. unfold ok in E. by rewrite E.
Qed.

(** What the assertions report; a test passes when nothing is reported. *)
Inductive failure :=
| ThrowsNothing | ThrowsOther | Throws | DoesNotDie | NoMatch (report : string)
| NotEqual | NotTrue | NotFalse | NotLessOrEqual.

Section exceptions.
(** [matches regex text]: the regular expressions of googletest. *)
Context `{Build} (matches : string → string → bool).

(** [EXPECT_THROW(try { statement } catch (T const& ex) { validator(ex); throw; }, T)], where
    [is_T] says which exceptions are a [T]. *)
Definition EXPECT_THROW (is_T : exn → bool) (statement : cxx ()) (validator : exn → list failure) :
    cxx (list failure) :=
  match statement with
  | Ret _ => Ret [ThrowsNothing]
  | Throw e => Ret (if is_T e then validator e else [ThrowsOther])
  | Terminated s => Terminated s
  | Undefined u => Undefined u
  end.
(** The statement runs in another process. *)
Definition EXPECT_DEATH (statement : cxx ()) (regex : string) : cxx (list failure) :=
  match statement with
  | Terminated report => Ret (if matches regex report then [] else [NoMatch report])
  | Undefined u => Undefined u
  | _ => Ret [DoesNotDie]
  end.

Definition ExpectException (is_T : exn → bool) (expression : cxx ())
    (validator : exn → list failure) (expected_message : string) : cxx (list failure) :=
  if have_exceptions then EXPECT_THROW is_T expression validator
  else EXPECT_DEATH expression expected_message.

(** [EXPECT_NO_FATAL_FAILURE] only looks at failed assertions. *)
Definition ExpectNoException (expression : cxx ()) : cxx (list failure) :=
  match expression with
  | Ret _ => Ret []
  | Throw e => if have_exceptions then Ret [Throws] else Throw e
  | Terminated s => Terminated s
  | Undefined u => Undefined u
  end.

Definition has_code (code : future_errc) (e : exn) : bool :=
  match e with future_error c => bool_decide (code = c) | _ => false end.
Definition future_error_regex (code : future_errc) : string :=
  "future_error\[" +:+ future_errc_message code +:+ "\]".
Definition ExpectFutureError (functor : cxx ()) (code : future_errc) : cxx (list failure) :=
  if have_exceptions then
    EXPECT_THROW is_future_error functor (λ e, if has_code code e then [] else [NotEqual])
  else EXPECT_DEATH functor (future_error_regex code).

(** The assertion accepts what the delegate of the library does, in both builds, when the
    terminate handler reports the message it gets. *)
Lemma ExpectFutureError_delegate ec msg :
  (∀ pre post, matches (future_error_regex ec)
     (pre +:+ "future_error[" +:+ future_errc_message ec +:+ "]" +:+ post) = true) →
  (∀ text, ∃ pre post, Terminate terminate_handler text = pre +:+ text +:+ post) →
  ExpectFutureError (ThrowFutureError ec msg) ec = Ret [].
Proof.
  intros Hm Ht. unfold ExpectFutureError, ThrowFutureError.
  destruct have_exceptions; simpl; [by rewrite bool_decide_true|].
  destruct (Ht ("future_error[" +:+ future_errc_message ec +:+ "]: " +:+ msg)) as (pre & post & ->).
  replace (_ +:+ (_ +:+ _ +:+ _) +:+ post)
    with (pre +:+ "future_error[" +:+ future_errc_message ec +:+ "]" +:+ (": " +:+ msg +:+ post));
    [by rewrite Hm|].
  f_equal. change ("future_error[" +:+ future_errc_message ec +:+ "]: " +:+ msg)
    with ("future_error[" +:+ (future_errc_message ec +:+ "]: " +:+ msg)).
  rewrite !string_app_assoc. done.
Qed.
(** Nothing else passes in a build with exceptions. *)
Lemma ExpectFutureError_passes functor ec : have_exceptions = true →
  ExpectFutureError functor ec = Ret [] ↔ functor = Throw (future_error ec).
Proof.
  intros He. unfold ExpectFutureError, EXPECT_THROW. rewrite He.
  destruct functor as [|e| |]; simpl; try done. split; [|intros [= ->]; simpl; by rewrite bool_decide_true].
  destruct e; simpl; try done. case_bool_decide; [by subst|done].
Qed.
End exceptions.

(** ** [CheckPredicateBecomesFalse] (check_predicate_becomes_false.h)

    [now i] is what the [i]-th call of [system_clock::now] returns, in nanoseconds, and
    [predicate i] what the [i]-th call of the predicate returns; an iteration reads the
    clock three times. *)
Section becomes_false.
Variables (now : nat → Z) (predicate : nat → bool) (deadline tolerance : Z).

Definition milliseconds (n : Z) : Z := (1000000 * n)%Z.
Definition must_be_true_before : Z := (deadline - milliseconds tolerance)%Z.
Definition must_be_false_after : Z := (deadline + milliseconds tolerance)%Z.

(** The failures reported, [true_count] and [false_count]. *)
Record tally := mkTally { failures : list failure; true_count : Z; false_count : Z }.

Definition EXPECT_LE (a b : Z) : list failure := if (a <=? b)%Z then [] else [NotLessOrEqual].

(** The loop, from iteration [i]: [None] when the fuel does not suffice. *)
Fixpoint Check_loop (fuel : nat) (i : nat) (t : tally) : option tally :=
  match fuel with
  | 0 => None
  | S fuel =>
      let duration := (deadline - now 0)%Z in
      if (now (1 + 3 * i) <? deadline + duration)%Z then
        let iteration_start := now (2 + 3 * i) in
        let actual := predicate i in
        let iteration_end := now (3 + 3 * i) in
        if (iteration_end <? must_be_true_before)%Z then
          Check_loop fuel (S i)
            (if actual then mkTally (failures t) (true_count t + 1) (false_count t)
             else mkTally (failures t ++ [NotTrue]) (true_count t) (false_count t))
        else if (must_be_false_after <? iteration_start)%Z then
          if negb actual then Some (mkTally (failures t) (true_count t) (false_count t + 1))
          else Check_loop fuel (S i) (mkTally (failures t ++ [NotFalse]) (true_count t) (false_count t))
        else Check_loop fuel (S i) t
      else Some t
  end.
Definition CheckPredicateBecomesFalse (fuel : nat) : option (list failure) :=
  t ← Check_loop fuel 0 (mkTally [] 0 0);
  Some (failures t ++ EXPECT_LE 0 (true_count t) ++ EXPECT_LE 0 (false_count t)).

(** [sleep_for] at the end of an iteration sleeps for at least half the tolerance. *)
Definition sleeps : Prop := ∀ i,
  (now (1 + 3 * i) ≤ now (2 + 3 * i) ≤ now (3 + 3 * i))%Z ∧
  (now (3 + 3 * i) + milliseconds (tolerance ÷ 2) ≤ now (1 + 3 * S i))%Z.

Lemma Check_loop_terminates fuel i t :
  sleeps → (2 ≤ tolerance)%Z →
  (deadline + (deadline - now 0) - now (1 + 3 * i) ≤
     Z.of_nat fuel * milliseconds (tolerance ÷ 2))%Z →
  is_Some (Check_loop (S fuel) i t).
Proof.
  intros Hs Ht. assert (1 ≤ tolerance ÷ 2)%Z by (apply Z.quot_le_lower_bound; lia).
  revert i t. induction fuel as [|fuel IH]; intros i t Hf.
  { cbn [Check_loop]. rewrite (proj2 (Z.ltb_ge _ _)); [by eexists|lia]. }
  set (n := S fuel) in *. cbn [Check_loop]. destruct (now (1 + 3 * i) <? _)%Z; [|by eexists].
  destruct (Hs i) as [Hi Hn]. unfold milliseconds in *.
  assert (∀ t, is_Some (Check_loop n (S i) t)) as Hrec.
  { intros t'. apply IH. nia. }
  repeat case_match; eauto.
Qed.

(** A predicate that is true for the calls that end before the tolerance and false for those
    that start after it. *)
Definition well_behaved : Prop := ∀ i,
  ((now (3 + 3 * i) < must_be_true_before)%Z → predicate i = true) ∧
  ((must_be_false_after < now (2 + 3 * i))%Z → predicate i = false).

Lemma Check_loop_counts fuel i t t' : Check_loop fuel i t = Some t' →
  (0 ≤ true_count t → 0 ≤ true_count t')%Z ∧ (0 ≤ false_count t → 0 ≤ false_count t')%Z.
Proof.
  revert i t. induction fuel as [|fuel IH]; intros i t; cbn [Check_loop]; [done|].
  repeat case_match; intros H'; simplify_eq/=; try (apply IH in H'; simpl in H'); lia.
Qed.
Lemma Check_loop_well_behaved fuel i t t' :
  well_behaved → Check_loop fuel i t = Some t' → failures t' = failures t.
Proof.
  intros Hw. revert i t. induction fuel as [|fuel IH]; intros i t; cbn [Check_loop]; [done|].
  destruct (Hw i) as [H1 H2].
  destruct (now (1 + 3 * i) <? _)%Z; [|by intros [= ->]].
  destruct (Z.ltb_spec (now (3 + 3 * i)) must_be_true_before) as [Hl|_].
  { rewrite H1 by done. by intros ->%IH. }
  destruct (Z.ltb_spec must_be_false_after (now (2 + 3 * i))) as [Hl|_]; [|by apply IH].
  rewrite H2 by done. by intros [= <-].
Qed.
(** The last two assertions never fail: they compare counts with zero. *)
Lemma Check_counts_vacuous fuel t : Check_loop fuel 0 (mkTally [] 0 0) = Some t →
  EXPECT_LE 0 (true_count t) ++ EXPECT_LE 0 (false_count t) = [].
Proof.
  intros [H1 H2]%Check_loop_counts. simpl in *. unfold EXPECT_LE.
  destruct (Z.leb_spec 0 (true_count t)), (Z.leb_spec 0 (false_count t)); done || lia.
Qed.

(** The check ends, and passes, for a well behaved predicate. *)
Lemma CheckPredicateBecomesFalse_passes fuel :
  sleeps → (2 ≤ tolerance)%Z → well_behaved →
  (deadline + (deadline - now 0) - now 1 ≤ Z.of_nat fuel * milliseconds (tolerance ÷ 2))%Z →
  CheckPredicateBecomesFalse (S fuel) = Some [].
Proof.
  intros Hs Ht Hw Hf. unfold CheckPredicateBecomesFalse.
  destruct (Check_loop_terminates fuel 0 (mkTally [] 0 0)) as [t Hc]; [done..|].
  rewrite Hc. simpl. by rewrite (Check_loop_well_behaved _ _ _ _ Hw Hc), (Check_counts_vacuous _ _ Hc).
Qed.
(** When the test is late, so that the deadline has passed when it begins, the check passes
    for every predicate, without calling it. *)
Lemma CheckPredicateBecomesFalse_late fuel :
  (deadline ≤ now 0 ≤ now 1)%Z → 0 < fuel → CheckPredicateBecomesFalse fuel = Some [].
Proof.
  intros Hn Hf. destruct fuel as [|fuel]; [lia|].
  unfold CheckPredicateBecomesFalse. cbn [Check_loop]. rewrite Nat.mul_0_r, Nat.add_0_r.
  destruct (Z.ltb_spec (now 1) (deadline + (deadline - now 0))); [lia|done].
Qed.
End becomes_false.
